(* ===== verification/_CoqProject ===== *)
-Q . S2P
Prelude.v
Types.v
Config.v
Serialize.v
Crypto.v
Chain.v
ForkChoice.v
Staging.v
StagingProofs.v
StagingTheorems.v
StagingExec.v
Pacemaker.v
LogServer.v
LogServerProofs.v
ClientReply.v
App.v
Kvs.v
Sequencer.v
ForkReceiver.v
Broadcaster.v
Framing.v
Storage.v
Server.v
RpcClient.v
Bcast.v
BcastOrder.v
QuorumReply.v
TwoPC.v
Timer.v
ClientWorker.v
Workload.v
Agreement.v
Execution.v
Frontend.v
SmallBank.v
Kms.v
Svr3.v
Delivery.v
CryptoPool.v
Node.v
NodeTheorems.v
NodeViews.v
NodeStore.v
Support.v
