(* ===== verification/Prelude.v ===== *)
(** * PirateShip consensus: a verification development

    The program (src/src/) is a replicated log with two commit rules, run as a set of
    tasks that exchange messages over channels.  A client request enters at the batch
    proposer, becomes a block at the block sequencer, is signed and hashed by the crypto
    service, stored and sent to the other replicas by the block broadcaster, received there
    by the fork receiver, and reaches the staging task of every replica.  Staging counts
    votes, forms quorum certificates, crash-commits on a majority (the application executes
    the block) and byzantine-commits on certificates (the result becomes durable against
    byzantine nodes).  The pacemaker collects view-change messages, from which the leader of
    the next view chooses a fork.  The log server keeps the log and answers backfills; the
    application executes blocks on a key-value engine; the client reply task answers the
    clients.

    ** How code is represented

    Each task is a record of its fields and one function per handler in the monad
    [M S E A]: from a state, a handler either panics ([None]; the release profile aborts)
    or returns a value, the new state and the messages it sent, in order.  [wp] and [wlp]
    are its total and partial weakest preconditions; [steps_by R] says that every step of a
    handler is in the reflexive and transitive relation [R] (class [StepRel]).  Code whose steps interleave (the RPC
    broadcasts, the crypto pool, the tasks of a node, shared cells) is a function from an
    action to an [Outcome] (not possible now, panic, next state), and a schedule is a list
    of actions ([run_steps]); the theorems hold for every schedule.  A task's select loop is the function
    from an event (a received message, a timer tick) to the handler it runs; runs are
    sequences of events.  u64/usize values are [Z] with wrap-around written out ([⊕], [⊖]),
    i64 likewise; HashMaps are [gmap]s whose iteration order is any order that lists each
    key once (class [HashIter]); a BTreeMap is a list sorted by key; a oneshot receiver is
    the value it resolves to; [Result<(), ()>] is [res].  Cargo features are the fields of
    the record [Features], so the theorems cover every build that their hypotheses allow.
    Code outside src/ is a class: [Codec], [HandshakeCodec], [PayloadCodec],
    [NodeInfoCodec], [UserListCodec] (prost, serde and SHA-512), [Ed25519] and [Dalek]
    (signatures and key generation), [RocksDB], [Lz4], [Hex], [HexText] and [Chrono].  Interfaces between parts are classes too: [LogQuery] (the log server as the
    pacemaker and fork receiver query it), [BlockStore] (the storage as the log server
    reads it), [StorageEngine] with [StorageLaws] (kept by both engines) and [AppEngine]
    with [AppEngineLaws].  A socket is the list of chunks it will deliver and the list of
    slices it accepted; what the operating system, the network, a clock or a random
    generator decides is an argument or an event.

    ** Files

    - Prelude: integers, bytes, lists, binary search, hash maps, the handler monad, its
      logic and tactics.
    - Types: messages of src/src/proto/, the command enums of the tasks, [SenderType].
    - Config: config/mod.rs and every quorum threshold (staging/steady_state.rs,
      staging/fork_choice.rs, pacemaker.rs, fork_receiver.rs, block_broadcaster.rs).
    - Serialize: utils/serialize.rs, the block layout and its hash.
    - Crypto: crypto/service.rs (prepare, check, verify, view-change signing, certificates)
      and the key store of crypto/ed25519.rs.
    - Chain: hash chains of blocks, the shape of every log.
    - ForkChoice: staging/fork_choice.rs.
    - Staging: staging/mod.rs, staging/steady_state.rs and staging/view_change.rs, handler by
      handler; StagingProofs: its invariant and the weakest preconditions of the handlers;
      StagingTheorems: the theorems over runs; StagingExec: what it hands to the application
      for execution.
    - Pacemaker: pacemaker.rs.
    - LogServer, LogServerProofs: logserver.rs and its refinement.
    - ClientReply: client_reply.rs.
    - App: app.rs, the class of engines and engines/null_app.rs.
    - Kvs: engines/kvs.rs and its specification.
    - Sequencer: batch_proposal.rs and block_sequencer.rs.
    - ForkReceiver: fork_receiver.rs.
    - Broadcaster: block_broadcaster.rs and the path of a block from the leader's
      broadcaster to a follower's staging.
    - Framing: the buffered framing of rpc/client.rs and rpc/server.rs.
    - Storage: utils/storage.rs, utils/file_storage.rs and utils/storage_service.rs.
    - Server: the handshake of rpc/auth.rs, the accept loop and connections of
      rpc/server.rs, and handle_rpc of consensus/mod.rs, which routes messages to the tasks.
    - RpcClient: the connections and one-to-one calls of rpc/client.rs; Bcast, BcastOrder:
      its broadcast with one worker task per peer; QuorumReply:
      broadcast_and_await_quorum_reply.
    - TwoPC: extra_2pc.rs, the two-phase commit of the Engraft build.
    - Timer: utils/timer.rs.
    - ClientWorker, Workload: client/worker.rs and client/workload_generators/.
    - Agreement: several replicas, what they sign in a view and what certificates prove.
    - Execution: staging, application and engine of one replica composed.
    - Frontend: what the HTTP front ends of contrib/ share; SmallBank, Kms, Svr3: the
      handlers of the three applications.
    - Delivery: a leader's broadcaster, its RPC client, the servers and fork receivers of the
      followers composed.
    - CryptoPool: the pool of workers of crypto/service.rs, its queues and oneshot channels.
    - Node: the nine tasks of consensus/mod.rs ([ConsensusNode]), the channels [mew] wires
      them with and one step of any task; NodeTheorems: the node over all interleavings;
      NodeViews: the view its tasks are in; NodeStore: its store.
    - Support: utils/atomic_struct.rs, the configuration as loaded, the list of public keys
      of crypto/ed25519.rs, client/logger.rs and utils/perf.rs.

    ** What is shown

    - Safety of one replica (StagingTheorems, StagingExec): for a node of a
      validated configuration without extra_2pc and no_qc, over every run in which delivered
      blocks are well formed and none repeats a block still pending in the same stable view
      ([good_run], [event_ok]; votes, ticks and pacemaker commands are arbitrary), the
      byzantine-committed log is one hash chain that only grows ([byz_log_append_only]); no
      handler except the installation of a new view panics or fails ([staging_progress]);
      commits follow the commit rules ([byz_commit_rule], [crash_commit_quorum]); proposed
      certificates verify at every node ([proposed_qcs_verify]); a new view does not touch
      what is committed ([new_view_keeps_committed]); no block number is executed twice
      ([crash_commits_once], as long as the node does not install a new view itself); the view-change message is a truthful summary
      ([vc_message_faithful]).
    - Agreement: while its view is stable a node only appends to its log and signs nothing
      else ([term_votes_lock_log]), so with fewer faulty nodes than two quorums share, two
      certificates for the same number certify the same block ([certificates_agree]).
      Byzantine quorums share the nodes the pacemaker counts on ([quorums_intersect]),
      fork choice picks the lexicographically greatest forks and keeps what may have been
      committed on the fast path ([fork_choice_lexicographic],
      [fork_choice_keeps_fast_commits]), a new view needs a quorum of messages of that view
      ([new_view_quorum]), every node leads ([every_node_leads]).
    - Execution: as long as what staging sends is in order with its commit index
      ([in_order]), the application executes the log up to that index, each block once and
      in order, and the store reads as the specification run on it ([replica_store_is_log]).
    - The node: however its tasks interleave, each is in a state its own handler leads to from
      what it received, and every channel delivers in order what was sent on it
      ([node_is_its_tasks]); so the theorems on one task hold of it inside the node.  At every
      moment the store reads as a prefix of the committed log, and as all of it once the
      application caught up ([node_store_is_log]); the requests that entered are those that
      were answered and those the node holds ([node_requests_conserved]).  The block sequencer
      and the fork receiver are never ahead of the view of staging, and in it once they took
      their commands ([node_views_follow]).  The crypto pool
      implements handling each command when it is dispatched ([crypto_pool_refines]).
    - Refinements: the log server implements an append-only hash-chained log with garbage
      collection ([log_server_refines], [get_block_correct], [backfill_contiguous]); the
      versioned store implements the replicated log ([kvs_refines_log]); storage on either
      engine is the store the log server relies on ([storage_serves_log]).
    - Transport: frames arrive as sent however the socket splits them ([frames_roundtrip]),
      only the owner of a key passes the handshake ([handshake_authenticates]), replies go to
      the connection of the requester ([replies_go_to_requester]), what a peer sends reaches
      the task it is for ([rpc_delivery]); the client's calls never panic and leave every
      connection well formed ([client_calls_safe]), and a request gets the server's reply
      ([request_gets_reply]).  In every interleaving with its workers, a broadcast reaches
      every peer in order ([broadcast_in_order], [accepted_is_delivered]), a quorum call
      returns what its peers settled on ([quorum_call_result]), and what a leader's
      broadcaster sends reaches the fork receivers of its followers
      ([leader_reaches_fork_receivers]).
    - Applications: payments conserve money, whatever they interleave with, and the books
      balance on every replica ([bank_conserves_money], [bank_log_balances]); a payment is an
      atomic transfer and is always answered ([payment_is_transfer], [payment_answers]); a
      private key needs the password ([kms_password_required]); a locked account stays
      locked ([svr3_lockout]).
    - Setup: the shared cell is safe when no update comes between the halves of a read
      ([quiet_sets_safe]); the key list reads back ([key_list_roundtrip]); the client's
      window is what came lately ([window_is_recent]).
    - Around it: a two-phase commit that is released is stored by a majority
      ([twopc_majority_stores]); a reset timer fires no earlier than one period later and no
      later than two ([reset_postpones_timeout]); a client never has more than its limit of
      requests in flight, and never blocks on its own channels ([worker_flow_control]); the
      YCSB workload reads what it loaded ([ycsb_reads_what_it_loads]).
    - The pipeline: batching conserves requests ([batches_conserve]); a leader's term is one
      hash chain ([leader_term_chain]); blocks arrive whole and in order ([fork_delivery])
      and reach the staging of the follower as the leader staged them
      ([broadcast_reaches_staging]); no request is lost or answered twice
      ([replies_conserved], [reply_order_independent], [app_commit_acks]).
    - Data: serialization, signing and storage round trips ([serialize_roundtrip],
      [block_hash_binding], [prepare_then_verify], [verify_block_sound],
      [storage_readback], [vc_sign_verify]).
    - Places where the code departs from its intent, each as a theorem about the handler
      ([reopened_view_double_certificate], [catch_up_skips_execution],
      [reinstalled_block_not_executed], [duplicate_block_wedges_log],
      [nack_silences_replica], [fast_path_drops_single_blocks], [qc_counts_entries],
      [rollback_keeps_stale_block], [gc_of_everything_wedges], [app_rollback_keeps_block],
      [increment_short_value_aborts], [closed_connection_spins],
      [bad_handshake_stops_server], [reliable_send_keeps_dead_socket],
      [await_reply_wrong_stream], [twopc_counts_failed_local_write],
      [reset_leaves_queued_signals], [unreachable_peer_stops_broadcast],
      [failed_read_is_permanent], [half_duplex_deadlocks], [interleaved_sends_garble],
      [malformed_block_aborts_node], [kill_misses_worker], [self_payment_burns],
      [get_races_set], [unchecked_quorums_disjoint], [aggregate_wraps]).

    ** Bounds and fuel

    The leader's and follower's block handlers call each other after a view jump; the
    select loop runs them with fuel 2, and [process_block_terminates] shows that more gives
    the same result.  [get_gced_block] walks down one block per step with fuel for the
    distance it has to cover; the hint loop of [handle_query] multiplies its step, so 171 steps cover a
    u64; binary search has fuel for the length of the list.  A buffered write needs at most
    two iterations per byte.  The reading loops take their fuel as an argument, because at
    end of stream they do not return ([closed_connection_spins]); while the socket delivers,
    the theorems give the fuel that is enough.  The payment loop makes at most 20 attempts,
    as the source does, and has that much fuel.  The staging theorems assume
    log lengths below 2^64 - 1 through the invariant.

    ** What is not modelled

    TLS and certificates, JSON and PEM decoding, the HTTP server (actix), the channel
    wrappers, the entry points (bin/, the main.rs files of contrib/), benchmarks, scripts and
    log output: they call libraries, start the modelled tasks or print.  consensus/frontend.rs
    is not in the module tree and deprecated/ is not in the workspace; neither is compiled.
    In the node the channels are unbounded and a handler runs as one step, so a task that
    waits for room in a channel is not represented, and its select loops may take any
    channel that has a message, also where the source prefers one (biased).  The storage
    service, the RPC server and client and the two-phase commit handler have models of their
    own and are the environment of the node.  Several replicas are composed along the block
    path (Delivery) and across the votes of one stable view (Agreement); a transition system
    of whole replicas that also change views is not part of the development. *)

From stdpp Require Import base numbers list gmap strings option.
From Stdlib Require Import Strings.Byte Sorting.Sorted.

#[global] Open Scope Z_scope.

(** * Machine integers

    [u64]/[usize] values are [Z] in [0, 2^64); the release profile of
    Cargo.toml leaves overflow checks off, so [+] and [-] wrap. *)

Definition wrap64 (z : Z) : Z := z mod 2 ^ 64.
Definition u64_add (a b : Z) : Z := wrap64 (a + b).
Definition u64_sub (a b : Z) : Z := wrap64 (a - b).
Definition u64_mul (a b : Z) : Z := wrap64 (a * b).
(** [x as i64] on a u64, and i64 wrap-around. *)
Definition as_i64 (z : Z) : Z := let w := wrap64 z in if w <? 2 ^ 63 then w else w - 2 ^ 64.
Definition i64_sub (a b : Z) : Z := as_i64 (a - b).
Definition i64_add (a b : Z) : Z := as_i64 (a + b).
Definition u64_range (z : Z) : Prop := 0 ≤ z < 2 ^ 64.

Declare Scope u64_scope.
Delimit Scope u64_scope with u64.
Infix "⊕" := u64_add (at level 50, left associativity) : u64_scope.
Infix "⊖" := u64_sub (at level 50, left associativity) : u64_scope.
#[global] Open Scope u64_scope.

(** * Concurrent steps

    A step of concurrent code is not possible now, panics (the release profile aborts the
    process), or leads to a state; a schedule is a list of actions. *)

Inductive Outcome (S : Type) :=
  | Blocked
  | Panicked
  | Next (s : S).

Arguments Blocked {S}.
Arguments Panicked {S}.
Arguments Next {S} s.

Fixpoint run_steps {A S : Type} (step : A → S → Outcome S) (acts : list A) (s : S) : Outcome S :=
  match acts with
  | [] => Next s
  | a :: acts' => match step a s with Next s' => run_steps step acts' s' | o => o end
  end.

(** * Bytes *)

Abbreviation u8 := Byte.byte.
Abbreviation bytes := (list Byte.byte).

#[export] Instance byte_eq_dec : EqDecision Byte.byte := Byte.byte_eq_dec.

#[export] Program Instance byte_countable : Countable Byte.byte :=
  inj_countable Byte.to_N Byte.of_N _.
Next Obligation. intros b. apply Byte.of_to_N. Qed.

Definition byte_val (b : u8) : Z := Z.of_N (Byte.to_N b).
Definition byte_of (z : Z) : u8 := default Byte.x00 (Byte.of_N (Z.to_N (z mod 256))).

(** [to_be_bytes] / [put_u64] of a k-byte integer, and [from_be_bytes]. *)
Fixpoint be_bytes (k : nat) (z : Z) : bytes :=
  match k with
  | O => []
  | S k' => byte_of (z / 256 ^ Z.of_nat k') :: be_bytes k' z
  end.
Definition from_be (l : bytes) : Z := fold_left (λ acc b, acc * 256 + byte_val b) l 0.

(** * Rust standard-library idioms on sequences *)

(** [Vec::retain] / [VecDeque::retain]. *)
Definition retain {A} (f : A → bool) (l : list A) : list A := List.filter f l.

(** [iter().max().unwrap_or(d)]. *)
Definition max_or (d : Z) (l : list Z) : Z :=
  match l with
  | [] => d
  | x :: xs => fold_left Z.max xs x
  end.

(** [binary_search_by(|e| key(e).cmp(&k)).ok()]: halving search; the standard
    library specifies the answer on sequences sorted by [key]. *)
Fixpoint bsearch_loop {A} (key : A → Z) (k : Z) (l : list A) (left right fuel : nat) : option nat :=
  match fuel with
  | O => None
  | S fuel' =>
      if (right <=? left)%nat then None
      else
        let mid := (left + (right - left) / 2)%nat in
        match l !! mid with
        | None => None
        | Some e =>
            match (key e ?= k) with
            | Eq => Some mid
            | Lt => bsearch_loop key k l (S mid) right fuel'
            | Gt => bsearch_loop key k l left mid fuel'
            end
        end
  end.
Definition binary_search_by {A} (key : A → Z) (k : Z) (l : list A) : option nat :=
  bsearch_loop key k l 0 (length l) (S (length l)).

(** Iterating a [HashMap] visits every entry once, in an order the standard library
    leaves unspecified: the order is a member of a class, known up to permutation. *)
Class HashIter := {
  hm_iter : ∀ {K A} `{Countable K}, gmap K A → list (K * A);
  hm_iter_perm : ∀ {K A} `{Countable K} (m : gmap K A), hm_iter m ≡ₚ map_to_list m }.

Definition hm_keys `{HashIter} {K A} `{Countable K} (m : gmap K A) : list K := (hm_iter m).*1.
Definition hm_values `{HashIter} {K A} `{Countable K} (m : gmap K A) : list A := (hm_iter m).*2.

(** The order stdpp enumerates its maps in, for evaluation. *)
Definition map_to_list_iter : HashIter :=
  {| hm_iter := λ K A _ _ m, map_to_list m; hm_iter_perm := λ K A _ _ m, Permutation_refl _ |}.

(** [HashMap::retain] on the values. *)
Definition hm_retain {K A} `{Countable K} (f : A → bool) (m : gmap K A) : gmap K A :=
  filter (λ kv, f kv.2 = true) m.

(** * Handlers

    A task of the node owns its state, receives one message at a time and sends
    messages to other tasks.  A handler is a state transformer that either panics
    ([None]; the release profile aborts the process) or returns a value, the new
    state and the messages sent, in order. *)

Definition M (S E A : Type) : Type := S → option (A * S * list E).

#[export] Instance M_ret {S E} : MRet (M S E) := λ A a s, Some (a, s, []).
#[export] Instance M_bind {S E} : MBind (M S E) := λ A B f m s,
  match m s with
  | None => None
  | Some (a, s1, e1) =>
      match f a s1 with
      | None => None
      | Some (b, s2, e2) => Some (b, s2, e1 ++ e2)
      end
  end.

Section handlers.
Context {S E : Type}.

Definition get : M S E S := λ s, Some (s, s, []).
Definition gets {A} (f : S → A) : M S E A := λ s, Some (f s, s, []).
Definition modify (f : S → S) : M S E unit := λ s, Some (tt, f s, []).
(** [chan.send(e).await.unwrap()]: receivers live as long as the node. *)
Definition emit (e : E) : M S E unit := λ s, Some (tt, s, [e]).
Definition panic {A} : M S E A := λ _, None.
Definition unwrap {A} (o : option A) : M S E A := λ s,
  match o with Some a => Some (a, s, []) | None => None end.
Definition assert_ (b : bool) : M S E unit := if b then mret tt else panic.

Fixpoint mfor {A} (l : list A) (f : A → M S E unit) : M S E unit :=
  match l with
  | [] => mret tt
  | x :: l' => mbind (λ _, mfor l' f) (f x)
  end.

End handlers.

(** [Result<(), ()>] as returned by the handlers, and the [?] operator. *)
Inductive res := ROk | RErr.
#[export] Instance res_eq_dec : EqDecision res.
Proof. solve_decision. Defined.

Definition try_ {S E} (m : M S E res) (k : M S E res) : M S E res :=
  mbind (λ r, match r with ROk => k | RErr => mret RErr end) m.

(** [wp m Q s]: [m] does not panic from [s] and its result satisfies [Q]. *)
Definition wp {S E A} (m : M S E A) (Q : A → S → list E → Prop) (s : S) : Prop :=
  match m s with
  | Some (a, s', es) => Q a s' es
  | None => False
  end.

(** * Lemmas on handlers *)

Section wp_lemmas.
Context {S E : Type}.
Implicit Types s : S.

Lemma wp_mono {A} (m : M S E A) (Q Q' : A → S → list E → Prop) s :
  (∀ a s' es, Q a s' es → Q' a s' es) → wp m Q s → wp m Q' s.
Proof. unfold wp. destruct (m s) as [[[a s'] es]|]; eauto. Qed.

Lemma wp_bind {A B} (m : M S E A) (f : A → M S E B) (Q : B → S → list E → Prop) s :
  wp m (λ a s1 e1, wp (f a) (λ b s2 e2, Q b s2 (e1 ++ e2)) s1) s → wp (mbind f m) Q s.
Proof.
  unfold wp. change ((mbind f m : M S E B) s) with (M_bind A B f m s). unfold M_bind.
  destruct (m s) as [[[a s1] e1]|]; [|done].
  by destruct (f a s1) as [[[b s2] e2]|].
Qed.

Lemma wp_bind_inv {A B} (m : M S E A) (f : A → M S E B) (Q : B → S → list E → Prop) s :
  wp (mbind f m) Q s → wp m (λ a s1 e1, wp (f a) (λ b s2 e2, Q b s2 (e1 ++ e2)) s1) s.
Proof.
  unfold wp. change ((mbind f m : M S E B) s) with (M_bind A B f m s). unfold M_bind.
  destruct (m s) as [[[a s1] e1]|]; [|done].
  by destruct (f a s1) as [[[b s2] e2]|].
Qed.

Lemma M_bind_ext {A B} (m : M S E A) (f g : A → M S E B) s :
  (∀ a s1 e1, m s = Some (a, s1, e1) → f a s1 = g a s1) →
  (mbind f m : M S E B) s = (mbind g m : M S E B) s.
Proof.
  intros Hfg. change (M_bind A B f m s = M_bind A B g m s). unfold M_bind.
  destruct (m s) as [[[a s1] e1]|]; [|done]. by rewrite (Hfg a s1 e1).
Qed.

Lemma wp_ret {A} (a : A) (Q : A → S → list E → Prop) s : Q a s [] → wp (mret a : M S E A) Q s.
Proof. done. Qed.

Lemma wp_get (Q : S → S → list E → Prop) s : Q s s [] → wp get Q s.
Proof. done. Qed.

Lemma wp_gets {A} (f : S → A) (Q : A → S → list E → Prop) s : Q (f s) s [] → wp (gets f) Q s.
Proof. done. Qed.

Lemma wp_modify (f : S → S) (Q : unit → S → list E → Prop) s : Q tt (f s) [] → wp (modify f) Q s.
Proof. done. Qed.

Lemma wp_emit (e : E) (Q : unit → S → list E → Prop) s : Q tt s [e] → wp (emit e) Q s.
Proof. done. Qed.

Lemma wp_unwrap {A} (o : option A) (a : A) (Q : A → S → list E → Prop) s :
  o = Some a → Q a s [] → wp (unwrap o) Q s.
Proof. by intros ->. Qed.

Lemma wp_assert (b : bool) (Q : unit → S → list E → Prop) s :
  b = true → Q tt s [] → wp (assert_ b) Q s.
Proof. by intros ->. Qed.

Lemma wp_mfor {A} (l : list A) (f : A → M S E unit) (I : list A → S → list E → Prop) s es0 :
  I l s es0 →
  (∀ x l' s1 e1, I (x :: l') s1 e1 → wp (f x) (λ _ s2 e2, I l' s2 (e1 ++ e2)) s1) →
  wp (mfor l f) (λ _ s' es, I [] s' (es0 ++ es)) s.
Proof.
  intros H0 Hstep. revert s es0 H0. induction l as [|x l IH]; intros s es0 H0; simpl.
  - apply wp_ret. by rewrite app_nil_r.
  - apply wp_bind. eapply wp_mono; [|by apply Hstep].
    intros [] s1 e1 H1. simpl. eapply wp_mono; [|by apply (IH _ (es0 ++ e1))].
    intros [] s2 e2. by rewrite <-app_assoc.
Qed.

Lemma wp_mfor_app {A} (l1 l2 : list A) (f : A → M S E unit) (Q : unit → S → list E → Prop) s :
  wp (mfor l1 f) (λ _ s1 e1, wp (mfor l2 f) (λ _ s2 e2, Q tt s2 (e1 ++ e2)) s1) s →
  wp (mfor (l1 ++ l2) f) Q s.
Proof.
  revert Q s. induction l1 as [|x l1 IH]; intros Q s Hw; simpl in *.
  - unfold wp in *. simpl in Hw. by destruct (mfor l2 f s) as [[[[] s2] e2]|].
  - apply wp_bind. apply wp_bind_inv in Hw. eapply wp_mono; [|exact Hw].
    intros [] s1 e1 H1. apply IH. eapply wp_mono; [|exact H1].
    intros [] s2 e2 H2. eapply wp_mono; [|exact H2]. intros [] s3 e3. by rewrite app_assoc.
Qed.

Lemma wp_try (m k : M S E res) (Q : res → S → list E → Prop) s :
  wp m (λ r s1 e1, match r with
                   | ROk => wp k (λ b s2 e2, Q b s2 (e1 ++ e2)) s1
                   | RErr => Q RErr s1 e1
                   end) s →
  wp (try_ m k) Q s.
Proof.
  intros H. apply wp_bind. eapply wp_mono; [|exact H].
  intros [] s1 e1 H1; [done|]. apply wp_ret. by rewrite app_nil_r.
Qed.

(** A run that satisfies a [wp] is a run: the post-condition holds of it. *)
Lemma wp_run {A} (m : M S E A) (Q : A → S → list E → Prop) s :
  wp m Q s → ∃ a s' es, m s = Some (a, s', es) ∧ Q a s' es.
Proof. unfold wp. destruct (m s) as [[[a s'] es]|]; naive_solver. Qed.

Lemma wp_of_run {A} (m : M S E A) (Q : A → S → list E → Prop) s a s' es :
  m s = Some (a, s', es) → Q a s' es → wp m Q s.
Proof. unfold wp. by intros ->. Qed.

Lemma wp_conj {A} (m : M S E A) (Q Q' : A → S → list E → Prop) s :
  wp m Q s → wp m Q' s → wp m (λ a s' es, Q a s' es ∧ Q' a s' es) s.
Proof. unfold wp. destruct (m s) as [[[a s'] es]|]; naive_solver. Qed.

End wp_lemmas.

(** Symbolic execution of a handler: [wp_prim] runs one primitive, [wp_step] also splits
    on the tests of the code. *)
Ltac wp_prim :=
  match goal with
  | |- wp (mbind _ _) _ _ => apply wp_bind
  | |- wp (mret _) _ _ => apply wp_ret
  | |- wp get _ _ => apply wp_get
  | |- wp (gets _) _ _ => apply wp_gets
  | |- wp (modify _) _ _ => apply wp_modify
  | |- wp (emit _) _ _ => apply wp_emit
  | |- wp (try_ _ _) _ _ => apply wp_try
  end; cbv beta.
Ltac wp_step :=
  first [ wp_prim
        | match goal with |- wp (match ?x with _ => _ end) _ _ => destruct x eqn:? end; cbv beta ].
Ltac wp_prims := repeat wp_prim.
Ltac wp_go := repeat wp_step.

(** [wlp m Q s]: if [m] does not panic from [s], its result satisfies [Q]. *)
Definition wlp {S E A} (m : M S E A) (Q : A → S → list E → Prop) (s : S) : Prop :=
  ∀ a s' es, m s = Some (a, s', es) → Q a s' es.

Section wlp_lemmas.
Context {S E : Type}.
Implicit Types s : S.

Lemma wlp_of_wp {A} (m : M S E A) (Q : A → S → list E → Prop) s : wp m Q s → wlp m Q s.
Proof. unfold wp, wlp. intros Hm a s' es Hr. by rewrite Hr in Hm. Qed.

Lemma wlp_mono {A} (m : M S E A) (Q Q' : A → S → list E → Prop) s :
  (∀ a s' es, Q a s' es → Q' a s' es) → wlp m Q s → wlp m Q' s.
Proof. unfold wlp. eauto. Qed.

Lemma wlp_bind {A B} (m : M S E A) (f : A → M S E B) (Q : B → S → list E → Prop) s :
  wlp m (λ a s1 e1, wlp (f a) (λ b s2 e2, Q b s2 (e1 ++ e2)) s1) s → wlp (mbind f m) Q s.
Proof.
  intros Hm b s2 es. change ((mbind f m : M S E B) s) with (M_bind A B f m s). unfold M_bind.
  destruct (m s) as [[[a s1] e1]|] eqn:E1; [|done].
  destruct (f a s1) as [[[b' s2'] e2]|] eqn:E2; [|done]. intros [= <- <- <-].
  by apply (Hm a s1 e1 E1).
Qed.

Lemma wlp_prim_run {A} (m : M S E A) (Q : A → S → list E → Prop) s a s' es :
  m s = Some (a, s', es) → Q a s' es → wlp m Q s.
Proof. intros Hr HQ a' s1 es1 Hr'. rewrite Hr in Hr'. by simplify_eq. Qed.

Lemma wlp_unwrap {A} (o : option A) (Q : A → S → list E → Prop) s :
  (∀ a, o = Some a → Q a s []) → wlp (unwrap o) Q s.
Proof. intros HQ a s' es. unfold unwrap. destruct o; [|done]. intros [= <- <- <-]. auto. Qed.

Lemma wlp_panic {A} (Q : A → S → list E → Prop) s : wlp panic Q s.
Proof. by intros a s' es. Qed.

End wlp_lemmas.

Ltac wlp_prim :=
  match goal with
  | |- wlp (mbind _ _) _ _ => apply wlp_bind
  | |- wlp (mret _) _ _ => eapply wlp_prim_run; [reflexivity|]
  | |- wlp get _ _ => eapply wlp_prim_run; [reflexivity|]
  | |- wlp (gets _) _ _ => eapply wlp_prim_run; [reflexivity|]
  | |- wlp (modify _) _ _ => eapply wlp_prim_run; [reflexivity|]
  | |- wlp (emit _) _ _ => eapply wlp_prim_run; [reflexivity|]
  | |- wlp (unwrap _) _ _ => apply wlp_unwrap; intros ? ?
  | |- wlp panic _ _ => apply wlp_panic
  end; cbv beta iota.
Ltac wlp_prims := repeat wlp_prim.

(** ** Relations that hold of every step

    A relation between the states before and after and the messages sent in between, which
    composes; [steps_by R m] says that [m] stays in it whenever it does not panic. *)
Class StepRel {S E : Type} (R : S → S → list E → Prop) : Prop := {
  step_rel_refl s : R s s [];
  step_rel_trans s1 s2 s3 es1 es2 : R s1 s2 es1 → R s2 s3 es2 → R s1 s3 (es1 ++ es2) }.

Definition steps_by {S E A : Type} (R : S → S → list E → Prop) (m : M S E A) : Prop :=
  ∀ s, wlp m (λ _ s' es, R s s' es) s.

Section steps_by.
Context {S E : Type} (R : S → S → list E → Prop) `{!StepRel R}.
Implicit Types s : S.

(** After a prefix of the handler. *)
Lemma wlp_after {A} (m : M S E A) s0 s es0 :
  R s0 s es0 → wlp m (λ _ s' es, R s s' es) s → wlp m (λ _ s' es, R s0 s' (es0 ++ es)) s.
Proof. intros H0 Hm. eapply wlp_mono; [|exact Hm]. intros a s' es H1. by eapply step_rel_trans. Qed.

Lemma wlp_steps_bind {A B} (m : M S E A) (f : A → M S E B) s :
  wlp m (λ _ s' es, R s s' es) s → (∀ a, steps_by R (f a)) → wlp (mbind f m) (λ _ s' es, R s s' es) s.
Proof. intros Hm Hf. apply wlp_bind. eapply wlp_mono; [|exact Hm]. intros a s1 e1 H1. apply wlp_after; [done|apply Hf]. Qed.

Lemma steps_bind {A B} (m : M S E A) (f : A → M S E B) :
  steps_by R m → (∀ a, steps_by R (f a)) → steps_by R (mbind f m).
Proof. intros Hm Hf s. by apply wlp_steps_bind. Qed.

Lemma steps_get_bind {B} (f : S → M S E B) :
  (∀ s, wlp (f s) (λ _ s' es, R s s' es) s) → steps_by R (mbind f get).
Proof. intros Hf s. apply wlp_bind. eapply wlp_prim_run; [reflexivity|]. apply Hf. Qed.

Lemma steps_gets_bind {A B} (g : S → A) (f : A → M S E B) :
  (∀ s, wlp (f (g s)) (λ _ s' es, R s s' es) s) → steps_by R (mbind f (gets g)).
Proof. intros Hf s. apply wlp_bind. eapply wlp_prim_run; [reflexivity|]. apply Hf. Qed.

Lemma steps_pure {A} (m : M S E A) (f : S → option A) :
  (∀ s, m s = a ← f s; Some (a, s, [])) → steps_by R m.
Proof. intros Hm s a s' es. rewrite Hm. destruct (f s); simpl; [|done]. intros [= <- <- <-]. apply step_rel_refl. Qed.

Lemma steps_ret {A} (a : A) : steps_by R (mret a).
Proof. by apply (steps_pure _ (λ _, Some a)). Qed.
Lemma steps_get : steps_by R get.
Proof. by apply (steps_pure _ Some). Qed.
Lemma steps_gets {A} (f : S → A) : steps_by R (gets f).
Proof. by apply (steps_pure _ (λ s, Some (f s))). Qed.
Lemma steps_unwrap {A} (o : option A) : steps_by R (unwrap o).
Proof. apply (steps_pure _ (λ _, o)). by destruct o. Qed.
Lemma steps_panic {A} : steps_by R (@panic S E A).
Proof. by apply (steps_pure _ (λ _, None)). Qed.
Lemma steps_assert b : steps_by R (assert_ b).
Proof. destruct b; [apply steps_ret|apply steps_panic]. Qed.

Lemma steps_modify f : (∀ s, R s (f s) []) → steps_by R (modify f).
Proof. intros Hf s a s' es [= <- <- <-]. apply Hf. Qed.
Lemma steps_emit m : (∀ s, R s s [m]) → steps_by R (emit m).
Proof. intros Hm s a s' es [= <- <- <-]. apply Hm. Qed.

Lemma steps_try (m k : M S E res) : steps_by R m → steps_by R k → steps_by R (try_ m k).
Proof. intros Hm Hk. apply steps_bind; [done|]. intros []; [done|]. apply steps_ret. Qed.

Lemma steps_mfor {A} (l : list A) (f : A → M S E unit) : (∀ a, steps_by R (f a)) → steps_by R (mfor l f).
Proof. intros Hf. induction l as [|a l IH]; simpl; [apply steps_ret|]. by apply steps_bind. Qed.

End steps_by.

(** The lemmas on handlers, by name of the relation. *)
Create HintDb steps.

(** Walks through a handler, closing each primitive; [prim] closes what the relation [R] says
    of updates and messages. *)
Ltac stepping R prim :=
  repeat first
    [ apply (steps_ret R) | apply (steps_get R) | apply (steps_gets R) | apply (steps_unwrap R) | apply (steps_panic R)
    | apply (steps_assert R)
    | solve [auto with steps]
    | apply (steps_bind R); [|intros ?]
    | apply (steps_try R)
    | apply (steps_mfor R); intros ?
    | prim
    | case_match ].

(** * Lemmas on integers *)

Lemma wrap64_small z : u64_range z → wrap64 z = z.
Proof. intros ?. by apply Z.mod_small. Qed.

Lemma wrap64_range z : u64_range (wrap64 z).
Proof. by apply Z.mod_pos_bound. Qed.

Lemma u64_add_small a b : 0 ≤ a + b < 2 ^ 64 → (a ⊕ b) = a + b.
Proof. intros. by apply wrap64_small. Qed.

Lemma u64_sub_small a b : 0 ≤ a - b < 2 ^ 64 → (a ⊖ b) = a - b.
Proof. intros. by apply wrap64_small. Qed.

Lemma as_i64_small z : - 2 ^ 63 ≤ z < 2 ^ 63 → as_i64 z = z.
Proof.
  intros ?. unfold as_i64, wrap64.
  destruct (decide (0 ≤ z)).
  - rewrite Z.mod_small by lia. destruct (Z.ltb_spec z (2 ^ 63)); lia.
  - replace (z mod 2 ^ 64) with (z + 2 ^ 64).
    + destruct (Z.ltb_spec (z + 2 ^ 64) (2 ^ 63)); lia.
    + rewrite <-(Z.mod_small (z + 2 ^ 64) (2 ^ 64)) by lia.
      by rewrite <-(Z.mul_1_l (2 ^ 64)) at 1; rewrite Z.mod_add by lia.
Qed.

Lemma as_i64_range z : - 2 ^ 63 ≤ as_i64 z < 2 ^ 63.
Proof.
  unfold as_i64. pose proof (wrap64_range z) as Hr. unfold u64_range in Hr.
  destruct (Z.ltb_spec (wrap64 z) (2 ^ 63)); lia.
Qed.

(** * Lemmas on bytes *)

Lemma byte_val_range b : 0 ≤ byte_val b < 256.
Proof.
  unfold byte_val. pose proof (Byte.to_N_bounded b) as H. lia.
Qed.

Lemma byte_val_of z : byte_val (byte_of z) = z mod 256.
Proof.
  unfold byte_val, byte_of. pose proof (Z.mod_pos_bound z 256 ltac:(lia)).
  destruct (Byte.of_N (Z.to_N (z mod 256))) as [b|] eqn:Hb; simpl.
  - apply Byte.to_of_N in Hb. rewrite Hb. lia.
  - apply Byte.of_N_None_iff in Hb. lia.
Qed.

Lemma byte_of_val b : byte_of (byte_val b) = b.
Proof.
  unfold byte_of. rewrite Z.mod_small by apply byte_val_range.
  unfold byte_val. rewrite N2Z.id. by rewrite Byte.of_to_N.
Qed.

Lemma length_be_bytes k z : length (be_bytes k z) = k.
Proof. induction k; simpl; congruence. Qed.

Lemma from_be_acc l a :
  fold_left (λ acc b, acc * 256 + byte_val b) l a = a * 256 ^ Z.of_nat (length l) + from_be l.
Proof.
  revert a. unfold from_be. induction l as [|b l IH]; intros a; cbn [fold_left length].
  - rewrite Z.pow_0_r. lia.
  - rewrite IH, (IH (0 * 256 + byte_val b)), Nat2Z.inj_succ, Z.pow_succ_r by lia. lia.
Qed.

Lemma from_be_cons b l : from_be (b :: l) = byte_val b * 256 ^ Z.of_nat (length l) + from_be l.
Proof. unfold from_be at 1. cbn [fold_left]. rewrite from_be_acc. lia. Qed.

Lemma from_be_range l : 0 ≤ from_be l < 256 ^ Z.of_nat (length l).
Proof.
  induction l as [|b l IH]; [done|].
  rewrite from_be_cons. cbn [length]. rewrite Nat2Z.inj_succ, Z.pow_succ_r by lia.
  pose proof (byte_val_range b). nia.
Qed.

Lemma from_be_be_bytes k z : from_be (be_bytes k z) = z mod 256 ^ Z.of_nat k.
Proof.
  induction k as [|k IH]; [by rewrite Z.mod_1_r|].
  cbn [be_bytes]. rewrite from_be_cons, IH, length_be_bytes, byte_val_of.
  rewrite Nat2Z.inj_succ, Z.pow_succ_r by lia.
  set (p := 256 ^ Z.of_nat k). assert (0 < p) by (apply Z.pow_pos_nonneg; lia).
  rewrite (Z.mul_comm 256 p), Z.rem_mul_r by lia. lia.
Qed.

Lemma be_bytes_from_be l : be_bytes (length l) (from_be l) = l.
Proof.
  assert (∀ k c q, be_bytes k (q + c * 256 ^ Z.of_nat k) = be_bytes k q) as Hshift.
  { induction k as [|k IH]; intros c q; [done|]. cbn [be_bytes].
    rewrite Nat2Z.inj_succ, Z.pow_succ_r by lia.
    set (p := 256 ^ Z.of_nat k). assert (0 < p) by (apply Z.pow_pos_nonneg; lia).
    f_equal.
    - unfold byte_of. do 3 f_equal.
      replace (q + c * (256 * p)) with (q + (c * 256) * p) by lia.
      rewrite Z.div_add by lia. by rewrite Z.mod_add by lia.
    - replace (q + c * (256 * p)) with (q + (c * 256) * p) by lia. apply IH. }
  induction l as [|b l IH]; [done|].
  cbn [length be_bytes]. rewrite from_be_cons.
  pose proof (from_be_range l). pose proof (byte_val_range b).
  set (p := 256 ^ Z.of_nat (length l)) in *.
  assert (0 < p) by (apply Z.pow_pos_nonneg; lia).
  f_equal.
  - rewrite Z.add_comm, Z.div_add, Z.div_small, Z.add_0_l by lia. apply byte_of_val.
  - rewrite Z.add_comm. by rewrite Hshift.
Qed.

Lemma list_byte_of_string_inj a b : String.list_byte_of_string a = String.list_byte_of_string b → a = b.
Proof.
  intros Heq. rewrite <-(String.string_of_list_byte_of_string a), <-(String.string_of_list_byte_of_string b). by rewrite Heq.
Qed.

(** * Lemmas on sequences *)

Section sequences.
Context {A : Type}.
Implicit Types l : list A.

Lemma elem_of_retain (f : A → bool) l x : x ∈ retain f l ↔ f x = true ∧ x ∈ l.
Proof. unfold retain. rewrite !list_elem_of_In, filter_In. tauto. Qed.

Lemma retain_app (f : A → bool) l1 l2 : retain f (l1 ++ l2) = retain f l1 ++ retain f l2.
Proof. apply filter_app. Qed.

Lemma retain_all (f : A → bool) l : (∀ x, x ∈ l → f x = true) → retain f l = l.
Proof.
  induction l as [|x l IH]; intros H; [done|]. simpl.
  rewrite (H x) by apply list_elem_of_here. f_equal. apply IH. intros y Hy. apply H. by right.
Qed.

Lemma retain_none (f : A → bool) l : (∀ x, x ∈ l → f x = false) → retain f l = [].
Proof.
  induction l as [|x l IH]; intros H; [done|]. simpl.
  rewrite (H x) by apply list_elem_of_here. apply IH. intros y Hy. apply H. by right.
Qed.

Lemma retain_ext (f g : A → bool) l : (∀ x, x ∈ l → f x = g x) → retain f l = retain g l.
Proof.
  induction l as [|x l IH]; intros H; [done|]. simpl.
  rewrite (H x) by apply list_elem_of_here.
  rewrite IH by (intros y Hy; apply H; by right). done.
Qed.

Lemma retain_retain (f g : A → bool) l :
  retain f (retain g l) = retain (λ x, g x && f x) l.
Proof.
  induction l as [|x l IH]; [done|]. simpl.
  destruct (g x); simpl; [|done]. destruct (f x); simpl; congruence.
Qed.

End sequences.

Lemma lookup_map {A B} (f : A → B) (l : list A) i : map f l !! i = f <$> l !! i.
Proof. apply list_lookup_fmap. Qed.

Lemma last_map {A B} (f : A → B) (l : list A) : list.last (map f l) = f <$> list.last l.
Proof. apply fmap_last. Qed.

Lemma elem_of_map {A B} (f : A → B) (l : list A) y : y ∈ map f l ↔ ∃ x, y = f x ∧ x ∈ l.
Proof. apply list_elem_of_fmap. Qed.

Lemma max_or_ge d l x : x ∈ l → x ≤ max_or d l.
Proof.
  assert (∀ l a, a ≤ fold_left Z.max l a ∧ ∀ x, x ∈ l → x ≤ fold_left Z.max l a) as Hf.
  { clear. induction l as [|y l IH]; intros a; simpl.
    - split; [lia|]. intros x Hx. by apply not_elem_of_nil in Hx.
    - destruct (IH (a `max` y)%Z) as [H1 H2]. split; [lia|].
      intros x [->|Hx]%elem_of_cons; [lia|]. by apply H2. }
  destruct l as [|y l]; simpl; [intros Hx; by apply not_elem_of_nil in Hx|].
  destruct (Hf l y) as [H1 H2].
  intros [->|Hx]%elem_of_cons; [done|by apply H2].
Qed.

Lemma max_or_elem d l : l ≠ [] → max_or d l ∈ l.
Proof.
  assert (∀ l a, fold_left Z.max l a = a ∨ fold_left Z.max l a ∈ l) as Hf.
  { clear. induction l as [|y l IH]; intros a; simpl; [by left|].
    destruct (IH (a `max` y)%Z) as [->|H].
    - destruct (Z.max_spec a y) as [[_ ->]|[_ ->]]; [right; left|left; done].
    - right. by right. }
  destruct l as [|y l]; [done|]. intros _. simpl.
  destruct (Hf l y) as [->|H]; [by left|by right].
Qed.

Section hash_maps.
Context `{HashIter} {K : Type} `{Countable K} {A : Type}.
Implicit Types m : gmap K A.

Lemma elem_of_hm_iter m k a : (k, a) ∈ hm_iter m ↔ m !! k = Some a.
Proof. rewrite hm_iter_perm. apply elem_of_map_to_list. Qed.

Lemma elem_of_hm_keys m k : k ∈ hm_keys m ↔ is_Some (m !! k).
Proof.
  unfold hm_keys. rewrite list_elem_of_fmap. split.
  - intros ([k' a] & -> & Hin). apply elem_of_hm_iter in Hin. eauto.
  - intros [a Ha]. exists (k, a). by rewrite elem_of_hm_iter.
Qed.

Lemma elem_of_hm_values m a : a ∈ hm_values m ↔ ∃ k, m !! k = Some a.
Proof.
  unfold hm_values. rewrite list_elem_of_fmap. split.
  - intros ([k a'] & -> & Hin). apply elem_of_hm_iter in Hin. eauto.
  - intros [k Hk]. exists (k, a). by rewrite elem_of_hm_iter.
Qed.

Lemma length_hm_iter m : length (hm_iter m) = size m.
Proof. rewrite hm_iter_perm. apply length_map_to_list. Qed.

Lemma NoDup_hm_keys m : NoDup (hm_keys m).
Proof. unfold hm_keys. rewrite hm_iter_perm. apply NoDup_fst_map_to_list. Qed.

Lemma lookup_hm_retain (f : A → bool) m k a :
  hm_retain f m !! k = Some a ↔ m !! k = Some a ∧ f a = true.
Proof. unfold hm_retain. by rewrite map_lookup_filter_Some. Qed.

Lemma hm_values_nonempty m : m ≠ ∅ → hm_values m ≠ [].
Proof.
  intros Hm Hv. apply Hm, map_eq. intros k. rewrite lookup_empty.
  destruct (m !! k) as [a|] eqn:Ha; [|done].
  assert (a ∈ hm_values m) as Hin by (apply elem_of_hm_values; eauto).
  rewrite Hv in Hin. by apply not_elem_of_nil in Hin.
Qed.

(** The largest key over the values of a map, as the [iter().map().max().unwrap_or()]
    chains compute it. *)
Lemma max_values_ge (key : A → Z) m d k a :
  m !! k = Some a → key a ≤ max_or d (map key (hm_values m)).
Proof.
  intros Ha. apply max_or_ge, list_elem_of_fmap. exists a. split; [done|].
  apply elem_of_hm_values. eauto.
Qed.

Lemma max_values_elem (key : A → Z) m d :
  m ≠ ∅ → ∃ k a, m !! k = Some a ∧ key a = max_or d (map key (hm_values m)).
Proof.
  intros Hm. assert (map key (hm_values m) ≠ []) as Hne.
  { intros Hnil. apply map_eq_nil in Hnil. by apply (hm_values_nonempty m). }
  apply (max_or_elem d) in Hne. apply list_elem_of_fmap in Hne as (a & Hx & Hin).
  apply elem_of_hm_values in Hin as [k Hk]. eauto.
Qed.

End hash_maps.

(** [binary_search_by] on a sequence strictly increasing in [key]. *)
Section binary_search.
Context {A : Type} (key : A → Z).

Definition keys_increasing (l : list A) : Prop :=
  ∀ i j a b, l !! i = Some a → l !! j = Some b → (i < j)%nat → key a < key b.

Lemma bsearch_loop_sound k l left right fuel i :
  bsearch_loop key k l left right fuel = Some i → ∃ a, l !! i = Some a ∧ key a = k.
Proof.
  revert left right. induction fuel as [|fuel IH]; intros left right; cbn [bsearch_loop]; [done|].
  destruct (Nat.leb_spec right left); [done|].
  destruct (l !! (left + (right - left) / 2)%nat) as [e|] eqn:He; [|done].
  destruct (Z.compare_spec (key e) k); [|apply IH|apply IH].
  intros [= <-]. eauto.
Qed.

Lemma bsearch_loop_complete k l left right fuel i a :
  keys_increasing l → l !! i = Some a → key a = k →
  (left ≤ i < right)%nat → (right ≤ length l)%nat → (right - left < fuel)%nat →
  bsearch_loop key k l left right fuel = Some i.
Proof.
  intros Hinc Hi Hk. revert left right. induction fuel as [|fuel IH]; intros left right Hlr Hr Hf; [lia|].
  cbn [bsearch_loop]. destruct (Nat.leb_spec right left); [lia|].
  set (mid := (left + (right - left) / 2)%nat).
  assert (left ≤ mid < right)%nat as Hmid.
  { subst mid. pose proof (Nat.div_lt (right - left) 2 ltac:(lia) ltac:(lia)). lia. }
  destruct (lookup_lt_is_Some_2 l mid) as [e He]; [lia|]. rewrite He.
  destruct (Z.compare_spec (key e) k) as [Heq|Hlt|Hgt].
  - f_equal. destruct (Nat.lt_trichotomy mid i) as [Hlt|[?|Hlt]]; [|done|].
    + pose proof (Hinc mid i e a He Hi Hlt). lia.
    + pose proof (Hinc i mid a e Hi He Hlt). lia.
  - apply IH; [|lia|lia]. destruct (Nat.le_gt_cases i mid) as [Hle|]; [|lia].
    destruct (decide (i = mid)) as [->|]; [rewrite Hi in He; simplify_eq; lia|].
    pose proof (Hinc i mid a e Hi He ltac:(lia)). lia.
  - apply IH; [|lia|lia]. destruct (Nat.le_gt_cases mid i) as [Hle|]; [|lia].
    destruct (decide (i = mid)) as [->|]; [rewrite Hi in He; simplify_eq; lia|].
    pose proof (Hinc mid i e a He Hi ltac:(lia)). lia.
Qed.

Lemma binary_search_by_Some k l i :
  keys_increasing l →
  binary_search_by key k l = Some i ↔ ∃ a, l !! i = Some a ∧ key a = k.
Proof.
  intros Hinc. split; [apply bsearch_loop_sound|].
  intros (a & Hi & Hk). eapply bsearch_loop_complete; eauto; [|lia].
  apply lookup_lt_Some in Hi. lia.
Qed.

Lemma binary_search_by_None k l :
  keys_increasing l →
  binary_search_by key k l = None ↔ ∀ a, a ∈ l → key a ≠ k.
Proof.
  intros Hinc. split.
  - intros Hn a [i Hi]%list_elem_of_lookup Hk.
    assert (binary_search_by key k l = Some i) as Hs by (apply binary_search_by_Some; eauto).
    congruence.
  - intros Hn. destruct (binary_search_by key k l) as [i|] eqn:Hs; [|done].
    apply binary_search_by_Some in Hs as (a & Hi & Hk); [|done].
    exfalso. apply (Hn a); [|done]. apply list_elem_of_lookup. eauto.
Qed.

End binary_search.

(** * Automation *)

Create HintDb pft.
#[export] Hint Resolve wrap64_range length_be_bytes from_be_range byte_val_range : pft.

(** Turns the boolean tests of the code into propositions. *)
Ltac bool_to_prop :=
  repeat match goal with
  | H : context [bool_decide ?P] |- _ =>
      first [ apply bool_decide_eq_true_1 in H | apply bool_decide_eq_false_1 in H ]
  | H : (_ && _) = true |- _ => apply andb_true_iff in H as [? ?]
  | H : (_ || _) = false |- _ => apply orb_false_iff in H as [? ?]
  | H : negb _ = true |- _ => apply negb_true_iff in H
  | H : negb _ = false |- _ => apply negb_false_iff in H
  | H : (_ <? _)%Z = true |- _ => apply Z.ltb_lt in H
  | H : (_ <? _)%Z = false |- _ => apply Z.ltb_ge in H
  | H : (_ <=? _)%Z = true |- _ => apply Z.leb_le in H
  | H : (_ <=? _)%Z = false |- _ => apply Z.leb_gt in H
  | H : (_ =? _)%Z = true |- _ => apply Z.eqb_eq in H
  | H : (_ =? _)%Z = false |- _ => apply Z.eqb_neq in H
  | H : (_ >? _)%Z = true |- _ => rewrite Z.gtb_ltb in H; apply Z.ltb_lt in H
  | H : (_ >? _)%Z = false |- _ => rewrite Z.gtb_ltb in H; apply Z.ltb_ge in H
  | H : (_ >=? _)%Z = true |- _ => rewrite Z.geb_leb in H; apply Z.leb_le in H
  | H : (_ >=? _)%Z = false |- _ => rewrite Z.geb_leb in H; apply Z.leb_gt in H
  end.

(** Closes a decidable closed goal by evaluation. *)
Ltac by_compute := refine (bool_decide_unpack _ _); vm_compute; exact I.
