(* ===== verification/Types.v ===== *)
(** The data the tasks of a node exchange: the protobuf messages of
    src/src/proto (consensus, execution, client, checkpoint), the cached block of
    src/src/crypto/service.rs, the sender type of src/src/rpc/mod.rs and the
    command enums of the consensus tasks.  A oneshot receiver carried by a command
    is modelled by the value it resolves to. *)

From stdpp Require Import base numbers list gmap strings option.
From S2P Require Import Prelude.

(** * Senders (rpc/mod.rs) *)

Inductive SenderType :=
  | Anon
  | Auth (name : string) (sub_id : Z).

#[export] Instance SenderType_eq_dec : EqDecision SenderType.
Proof. solve_decision. Defined.

#[export] Program Instance SenderType_countable : Countable SenderType :=
  inj_countable
    (λ s, match s with Anon => None | Auth n i => Some (n, i) end)
    (λ o, match o with None => Some Anon | Some (n, i) => Some (Auth n i) end) _.
Next Obligation. by intros []. Qed.

Definition to_name_and_sub_id (s : SenderType) : string * Z :=
  match s with
  | Anon => ("Anon"%string, 0)
  | Auth n i => (n, i)
  end.

(** * Transactions (proto/execution.proto) *)

Inductive ProtoTransactionOpType :=
  | Noop | Read | Write | Increment | Cas
  | AddLearner | UpgradeFullNode | DelLearner | DowngradeFullNode
  | Custom | Probe.

#[export] Instance ProtoTransactionOpType_eq_dec : EqDecision ProtoTransactionOpType.
Proof. solve_decision. Defined.

Definition op_type_from_i32 (z : Z) : option ProtoTransactionOpType :=
  match z with
  | 0 => Some Noop | 1 => Some Read | 2 => Some Write | 3 => Some Increment | 4 => Some Cas
  | 5 => Some AddLearner | 6 => Some UpgradeFullNode | 7 => Some DelLearner
  | 8 => Some DowngradeFullNode | 9 => Some Custom | 10 => Some Probe
  | _ => None
  end.

Definition op_type_to_i32 (t : ProtoTransactionOpType) : Z :=
  match t with
  | Noop => 0 | Read => 1 | Write => 2 | Increment => 3 | Cas => 4
  | AddLearner => 5 | UpgradeFullNode => 6 | DelLearner => 7
  | DowngradeFullNode => 8 | Custom => 9 | Probe => 10
  end.

Record ProtoTransactionOp := mkOp { op_type : Z; operands : list bytes }.
Record ProtoTransactionPhase := mkPhase { phase_ops : list ProtoTransactionOp }.
Record ProtoTransaction := mkTx {
  on_receive : option ProtoTransactionPhase;
  on_crash_commit : option ProtoTransactionPhase;
  on_byzantine_commit : option ProtoTransactionPhase;
  is_reconfiguration : bool;
  is_2pc : bool }.
Record ProtoTransactionOpResult := mkOpResult { op_success : bool; op_values : list bytes }.
Record ProtoTransactionResult := mkTxResult { tx_result : list ProtoTransactionOpResult }.
Record ProtoByzResponse := mkByzResponse { br_block_n : Z; br_tx_n : Z; br_client_tag : Z }.

(** * Consensus messages (proto/consensus.proto) *)

Abbreviation HashType := bytes.

Record ProtoNameWithSignature := mkNameSig { ns_name : string; ns_sig : bytes }.
Record ProtoQuorumCertificate := mkQC {
  qc_digest : HashType;
  qc_n : Z;
  qc_sig : list ProtoNameWithSignature;
  qc_view : Z }.

Record ProtoForkValidation := mkForkValidation {
  fv_vc_view : Z;
  fv_vc_config_num : Z;
  fv_block_hashes : list HashType;
  fv_fork_last_n : Z;
  fv_fork_last_qc : option ProtoQuorumCertificate;
  fv_fork_last_view : Z;
  fv_fork_last_config_num : Z;
  fv_vc_sig : bytes;
  fv_sender : string }.

(** [proto_block::Sig], the oneof of a block. *)
Inductive Sig := NoSig | ProposerSig (sig : bytes).
#[export] Instance Sig_eq_dec : EqDecision Sig.
Proof. solve_decision. Defined.

Record ProtoBlock := mkBlock {
  pb_tx_list : list ProtoTransaction;
  pb_n : Z;
  pb_parent : HashType;
  pb_view : Z;
  pb_qc : list ProtoQuorumCertificate;
  pb_fork_validation : list ProtoForkValidation;
  pb_view_is_stable : bool;
  pb_config_num : Z;
  pb_sig : option Sig }.

Record HalfSerializedBlock := mkHalf {
  hs_n : Z;
  hs_view : Z;
  hs_view_is_stable : bool;
  hs_config_num : Z;
  hs_body : bytes }.
Record ProtoFork := mkFork { serialized_blocks : list HalfSerializedBlock }.

Record ProtoAppendEntries := mkAE {
  ae_fork : option ProtoFork;
  ae_commit_index : Z;
  ae_view : Z;
  ae_view_is_stable : bool;
  ae_config_num : Z;
  ae_is_backfill_response : bool }.

Record ProtoSignatureArrayEntry := mkSigEntry { se_n : Z; se_sig : bytes }.
Record ProtoVote := mkVote {
  sig_array : list ProtoSignatureArrayEntry;
  fork_digest : HashType;
  vote_n : Z;
  vote_view : Z;
  vote_config_num : Z }.

Record ProtoViewChange := mkVC {
  vc_view : Z;
  vc_config_num : Z;
  vc_fork : option ProtoFork;
  vc_fork_sig : bytes;
  vc_fork_last_n : Z;
  vc_fork_last_qc : option ProtoQuorumCertificate }.

(** Checkpoint messages (proto/checkpoint.proto). *)
Record ProtoBlockHint := mkHint { hint_block_n : Z; hint_digest : HashType }.
Inductive Origin := OriginAe (ae : ProtoAppendEntries) | OriginVc (vc : ProtoViewChange).
Record ProtoBackfillNack := mkNack {
  nack_hints : list ProtoBlockHint;
  nack_last_index_needed : Z;
  nack_reply_name : string;
  nack_origin : option Origin }.

(** * Cached blocks (crypto/service.rs) *)

Record CachedBlock := mkCached {
  cb_block : ProtoBlock;
  cb_ser : bytes;
  cb_hash : HashType }.

(** [if let Some(Sig::ProposerSig(_)) = block.sig]. *)
Definition is_signed (b : ProtoBlock) : bool :=
  match pb_sig b with Some (ProposerSig _) => true | _ => false end.

(** The header a block is sent with. *)
Definition half_serialize (b : CachedBlock) : HalfSerializedBlock :=
  mkHalf (pb_n (cb_block b)) (pb_view (cb_block b)) (pb_view_is_stable (cb_block b))
    (pb_config_num (cb_block b)) (cb_ser b).

(** * Commands between the tasks *)

Record AppendEntriesStats := mkAEStats {
  aes_view : Z;
  aes_view_is_stable : bool;
  aes_config_num : Z;
  aes_sender : string;
  aes_ci : Z }.

(** The value a storage acknowledgement resolves to: [None] when its sender was
    dropped, otherwise the [Result<(), Error>] of the write. *)
Inductive StorageResult := Stored | StoreFailed.
Definition StorageAck : Type := option StorageResult.

Inductive BlockSequencerControlCommand :=
  | NewUnstableView (v c : Z)
  | ViewStabilised (v c : Z)
  | NewViewMessage (v c : Z) (fv : list ProtoForkValidation) (new_parent : HashType) (new_seq_num : Z).

Inductive ForkReceiverCommand :=
  | FrUpdateView (v c : Z)
  | MultipartNack (k : nat)
  | UseBackfillResponse (ae : ProtoAppendEntries) (s : SenderType).

Inductive AppCommand :=
  | NewRequestBatch (bn v : Z) (stable i_am_leader : bool) (len : nat) (last_hash : HashType)
  | CrashCommit (blocks : list CachedBlock)
  | ByzCommit (blocks : list CachedBlock)
  | Rollback (new_last_block : Z).

Inductive BlockBroadcasterCommand :=
  | UpdateCI (ci : Z)
  | NextAEForkPrefix (blocks : list (option CachedBlock)).

Inductive LogServerCommand :=
  | LsNewBlock (b : CachedBlock)
  | LsRollback (k : Z)
  | LsUpdateBCI (k : Z).

(** The client reply commands the consensus tasks send (client_reply.rs). *)
Inductive ClientReplyControl := CancelAllRequests | StopCancelling.

Inductive PacemakerCommand :=
  | PmUpdateView (v c : Z)
  | MyViewJumped (v c : Z) (vc : ProtoViewChange)
  | NewViewForks (v c : Z) (forks : gmap SenderType ProtoViewChange)
  | PmUpdateBCI (bci : Z)
  | QueryEnoughVCMsg (v c : Z).
