(* ===== verification/Config.v ===== *)
(** Configuration of a node (src/src/config/mod.rs), the Cargo features that select
    a protocol (Cargo.toml), leader election, and every quorum threshold the tasks
    compute from the configuration.  Theorems: configurations that pass validation
    have intersecting quorums, and round-robin election reaches every node. *)

From stdpp Require Import base numbers list gmap strings option.
From S2P Require Import Prelude Types.

(** * Cargo features *)

Inductive SignMode := AlwaysSign | NeverSign | DynamicSign.

Record Features := mkFeatures {
  round_robin_leader : bool;   (* otherwise fixed_leader *)
  sign_mode : SignMode;
  f_storage : bool;
  f_view_change : bool;
  no_qc : bool;
  fast_path : bool;
  platforms : bool;
  extra_2pc : bool;
  no_pipeline : bool;
  extra_qc_check : bool }.

(** [default = ["pirateship", "app_logger", "storage", "fast_path", "platforms"]]. *)
Definition pirateship_features : Features :=
  mkFeatures true DynamicSign true true false true true false false false.

(** * Configuration *)

Record ConsensusConfig := mkConsensusConfig {
  node_list : list string;
  learner_list : list string;
  max_backlog_batch_size : nat;
  batch_max_delay_ms : Z;
  signature_max_delay_ms : Z;
  view_timeout_ms : Z;
  signature_max_delay_blocks : Z;
  num_crypto_workers : nat;
  liveness_u : Z;
  commit_index_gap_soft : Z;
  commit_index_gap_hard : Z }.

Record Config := mkConfig {
  net_name : string;
  consensus_config : ConsensusConfig }.

Section config.
Context (feat : Features).

(** [get_leader_for_view]; [None] is the index or division panic on an empty list. *)
Definition get_leader_for_view (c : ConsensusConfig) (view : Z) : option string :=
  if round_robin_leader feat then
    let len := Z.of_nat (length (node_list c)) in
    if len =? 0 then None
    else node_list c !! Z.to_nat ((view ⊖ 1) mod len)
  else node_list c !! 0%nat.

(** [validate_or_die]: [false] is the panic. *)
Definition validate_or_die (c : ConsensusConfig) : bool :=
  let len := Z.of_nat (length (node_list c)) in
  let majority := len / 2 ⊕ 1 in
  negb (liveness_u c >? (len ⊖ majority)).

(** * Thresholds *)

Definition num_nodes (c : ConsensusConfig) : Z := Z.of_nat (length (node_list c)).

(** staging/steady_state.rs *)
Definition crash_commit_threshold (c : ConsensusConfig) : Z := num_nodes c / 2 + 1.

(** [None] is the failed [assert!(n >= u)]. *)
Definition byzantine_liveness_threshold (c : ConsensusConfig) : option Z :=
  if platforms feat then
    if liveness_u c <=? num_nodes c then Some (num_nodes c - liveness_u c) else None
  else Some (num_nodes c - num_nodes c / 3).

Definition byzantine_commit_threshold (c : ConsensusConfig) : option Z :=
  byzantine_liveness_threshold c.

Definition byzantine_fast_path_threshold (c : ConsensusConfig) : Z := num_nodes c.

(** staging/fork_choice.rs *)
Definition fast_path_selection_threshold (c : ConsensusConfig) : Z := liveness_u c ⊕ 1.

(** pacemaker.rs *)
Definition pacemaker_view_update_threshold (c : ConsensusConfig) : Z :=
  if platforms feat then num_nodes c ⊖ u64_mul 2 (liveness_u c)
  else num_nodes c / 3 + 1.

Definition new_view_bcast_threshold (c : ConsensusConfig) : Z :=
  if platforms feat then num_nodes c ⊖ liveness_u c
  else num_nodes c - num_nodes c / 3.

(** fork_receiver.rs *)
Definition fr_byzantine_liveness_threshold (c : ConsensusConfig) : Z :=
  if platforms feat then num_nodes c ⊖ liveness_u c
  else num_nodes c - num_nodes c / 3.

(** block_broadcaster.rs *)
Definition get_byzantine_broadcast_threshold (c : ConsensusConfig) : Z :=
  if no_qc feat then num_nodes c / 2
  else if platforms feat then
    if num_nodes c <=? liveness_u c then 0
    else num_nodes c - liveness_u c - 1
  else 2 * (num_nodes c / 3).

(** view_change.rs: the names of every node of [node_list] but mine. *)
Definition everyone_except_me (cfg : Config) : list string :=
  retain (λ name, negb (bool_decide (name = net_name cfg))) (node_list (consensus_config cfg)).

(** block_broadcaster.rs: the same, followed by the learners. *)
Definition everyone_and_learners_except_me (cfg : Config) : list string :=
  everyone_except_me cfg ++ learner_list (consensus_config cfg).

(** A configuration as deployed: u64/usize fields in range, distinct names, validated. *)
Definition config_ok (c : ConsensusConfig) : Prop :=
  NoDup (node_list c) ∧ node_list c ≠ [] ∧ num_nodes c < 2 ^ 62 ∧
  0 ≤ liveness_u c < 2 ^ 62 ∧ validate_or_die c = true.

(** A quorum of at least [t] configured nodes. *)
Definition is_quorum (c : ConsensusConfig) (t : Z) (Q : gset string) : Prop :=
  Q ⊆ list_to_set (node_list c) ∧ t ≤ Z.of_nat (size Q).

End config.

(** * Facts about leaders and thresholds *)

Lemma config_leader feat c v : config_ok c → is_Some (get_leader_for_view feat c v).
Proof.
  intros (_ & Hne & _). unfold get_leader_for_view.
  assert (0 < length (node_list c))%nat as Hl by (destruct (node_list c); [done|simpl; lia]).
  destruct (round_robin_leader feat); [|by apply lookup_lt_is_Some_2].
  destruct (Z.eqb_spec (Z.of_nat (length (node_list c))) 0); [lia|].
  apply lookup_lt_is_Some_2. pose proof (Z.mod_pos_bound (v ⊖ 1) (Z.of_nat (length (node_list c)))). lia.
Qed.

Section threshold_facts.
Context (feat : Features) (c : ConsensusConfig).

Lemma num_nodes_pos : config_ok c → 1 ≤ num_nodes c.
Proof. intros (_ & Hne & _). unfold num_nodes. destruct (node_list c); [done|simpl; lia]. Qed.

Lemma validated_u_bound : config_ok c → liveness_u c ≤ num_nodes c - (num_nodes c / 2 + 1).
Proof.
  intros Hok. pose proof (num_nodes_pos Hok). destruct Hok as (_ & _ & Hb & Hu & Hv).
  unfold validate_or_die in Hv. fold (num_nodes c) in Hv. bool_to_prop.
  pose proof (Z.div_pos (num_nodes c) 2 ltac:(lia) ltac:(lia)).
  pose proof (Z.mul_div_le (num_nodes c) 2 ltac:(lia)).
  rewrite u64_add_small in Hv by lia. rewrite u64_sub_small in Hv; lia.
Qed.

Lemma validated_byz_threshold :
  config_ok c → platforms feat = true →
  byzantine_liveness_threshold feat c = Some (num_nodes c - liveness_u c).
Proof.
  intros Hok Hp. pose proof (validated_u_bound Hok). pose proof (num_nodes_pos Hok).
  unfold byzantine_liveness_threshold. rewrite Hp.
  pose proof (Z.div_pos (num_nodes c) 2 ltac:(lia) ltac:(lia)).
  destruct (Z.leb_spec (liveness_u c) (num_nodes c)); [done|lia].
Qed.

Lemma pacemaker_threshold_exact :
  config_ok c → platforms feat = true →
  pacemaker_view_update_threshold feat c = num_nodes c - 2 * liveness_u c.
Proof.
  intros Hok Hp. pose proof (validated_u_bound Hok). pose proof (num_nodes_pos Hok).
  destruct Hok as (_ & _ & Hb & Hu & _).
  pose proof (Z.div_mod (num_nodes c) 2 ltac:(lia)). pose proof (Z.mod_pos_bound (num_nodes c) 2 ltac:(lia)).
  unfold pacemaker_view_update_threshold, u64_mul. rewrite Hp, wrap64_small by (unfold u64_range; lia).
  apply u64_sub_small. lia.
Qed.

Lemma size_intersection_ge (Q1 Q2 : gset string) t1 t2 :
  NoDup (node_list c) → is_quorum c t1 Q1 → is_quorum c t2 Q2 →
  t1 + t2 - num_nodes c ≤ Z.of_nat (size (Q1 ∩ Q2)).
Proof.
  intros Hnd [Hs1 Ht1] [Hs2 Ht2].
  assert (size (Q1 ∪ Q2) ≤ length (node_list c))%nat as Hu.
  { etrans; [apply (subseteq_size _ (list_to_set (node_list c) : gset string)); set_solver|].
    rewrite size_list_to_set by done. done. }
  assert (size (Q1 ∪ Q2) + size (Q1 ∩ Q2) = size Q1 + size Q2)%nat as Hie.
  { rewrite size_union_alt. rewrite (size_difference_alt Q2 Q1).
    rewrite (intersection_comm_L Q2 Q1).
    assert (size (Q1 ∩ Q2) ≤ size Q2)%nat by (apply subseteq_size; set_solver). lia. }
  unfold num_nodes. lia.
Qed.

End threshold_facts.

(** * Properties *)

(** C11: in a validated configuration (platforms build), any two Byzantine quorums of
    configured nodes share at least [pacemaker_view_update_threshold] nodes, that number
    is positive and computed without wrap-around, every Byzantine quorum shares a node
    with every crash-commit majority, and so do any two majorities. *)
Theorem quorums_intersect (feat : Features) (c : ConsensusConfig) (t : Z) (Q1 Q2 R1 R2 : gset string) :
  config_ok c → platforms feat = true →
  byzantine_commit_threshold feat c = Some t →
  is_quorum c t Q1 → is_quorum c t Q2 →
  is_quorum c (crash_commit_threshold c) R1 → is_quorum c (crash_commit_threshold c) R2 →
  1 ≤ pacemaker_view_update_threshold feat c ≤ Z.of_nat (size (Q1 ∩ Q2)) ∧
  pacemaker_view_update_threshold feat c = num_nodes c - 2 * liveness_u c ∧
  Q1 ∩ R1 ≠ ∅ ∧ R1 ∩ R2 ≠ ∅.
Proof.
  intros Hok Hp Ht HQ1 HQ2 HR1 HR2.
  pose proof (validated_u_bound c Hok) as Hub. pose proof (num_nodes_pos c Hok) as Hn.
  unfold byzantine_commit_threshold in Ht.
  rewrite (validated_byz_threshold feat c Hok Hp) in Ht. simplify_eq.
  pose proof (pacemaker_threshold_exact feat c Hok Hp) as Hpm.
  pose proof (Z.div_mod (num_nodes c) 2 ltac:(lia)) as Hdm.
  pose proof (Z.mod_pos_bound (num_nodes c) 2 ltac:(lia)) as Hm.
  destruct Hok as (Hnd & Hne & Hb & Hu & Hv).
  pose proof (size_intersection_ge c Q1 Q2 _ _ Hnd HQ1 HQ2) as H12.
  pose proof (size_intersection_ge c Q1 R1 _ _ Hnd HQ1 HR1) as HQR.
  pose proof (size_intersection_ge c R1 R2 _ _ Hnd HR1 HR2) as HRR.
  unfold crash_commit_threshold in *.
  rewrite Hpm.
  split; [lia|]. split; [done|].
  split; intros He; rewrite He, size_empty in *; lia.
Qed.

Definition four_nodes : ConsensusConfig :=
  mkConsensusConfig ["node1"; "node2"; "node3"; "node4"]%string [] 1000 10 100 150 128 4 1 500 1000.

Lemma quorums_intersect_witness :
  let c := four_nodes in
  let Q1 : gset string := {["node1"; "node2"; "node3"]}%string in
  let Q2 : gset string := {["node2"; "node3"; "node4"]}%string in
  1 ≤ pacemaker_view_update_threshold pirateship_features c ≤ Z.of_nat (size (Q1 ∩ Q2)) ∧
  pacemaker_view_update_threshold pirateship_features c = num_nodes c - 2 * liveness_u c ∧
  Q1 ∩ Q2 ≠ ∅ ∧ Q2 ∩ Q1 ≠ ∅.
Proof.
  refine (quorums_intersect pirateship_features four_nodes 3 _ _ _ _ _ _ _ _ _ _ _).
  - repeat split; try done; try (vm_compute; congruence).
    by_compute.
  - done.
  - done.
  - split; [by_compute|vm_compute; congruence].
  - split; [by_compute|vm_compute; congruence].
  - split; [by_compute|vm_compute; congruence].
  - split; [by_compute|vm_compute; congruence].
Defined.

(** Round-robin election is fair: among any [n] consecutive views starting at a
    positive one, every configured node leads at least once. *)
Lemma every_node_leads (feat : Features) (c : ConsensusConfig) (v : Z) (x : string) :
  round_robin_leader feat = true → x ∈ node_list c →
  1 ≤ v → v + num_nodes c < 2 ^ 64 →
  ∃ v', v ≤ v' < v + num_nodes c ∧ get_leader_for_view feat c v' = Some x.
Proof.
  intros Hrr [i Hi]%list_elem_of_lookup Hv Hb.
  pose proof (lookup_lt_Some _ _ _ Hi) as Hlen.
  set (len := num_nodes c) in *.
  assert (0 ≤ Z.of_nat i < len) as Hil by (unfold len, num_nodes; lia).
  pose proof (Z.mod_pos_bound (Z.of_nat i - (v - 1)) len ltac:(lia)) as Hd.
  set (d := (Z.of_nat i - (v - 1)) mod len) in *.
  exists (v + d). split; [lia|].
  unfold get_leader_for_view. rewrite Hrr. fold (num_nodes c). fold len.
  destruct (Z.eqb_spec len 0); [lia|].
  rewrite u64_sub_small by lia.
  replace ((v + d - 1) mod len) with (Z.of_nat i); [by rewrite Nat2Z.id|].
  replace (v + d - 1) with ((v - 1) + d) by lia. unfold d.
  rewrite Z.add_mod_idemp_r by lia.
  replace (v - 1 + (Z.of_nat i - (v - 1))) with (Z.of_nat i) by lia.
  by rewrite Z.mod_small by lia.
Qed.

Lemma every_node_leads_witness :
  ∃ v', 7 ≤ v' < 7 + num_nodes four_nodes ∧
        get_leader_for_view pirateship_features four_nodes v' = Some "node2"%string.
Proof.
  apply (every_node_leads pirateship_features four_nodes 7 "node2"%string).
  - done.
  - by_compute.
  - lia.
  - vm_compute. done.
Defined.

(** Builds without the [platforms] feature take f = n/3: when n is a multiple of 3
    two Byzantine quorums may share only f nodes, one short of the f + 1 view-change
    messages the pacemaker asks for. *)
Lemma third_quorums_short :
  let feat := mkFeatures true AlwaysSign true true false true false false false false in
  let c := mkConsensusConfig ["a"; "b"; "c"; "d"; "e"; "f"]%string [] 1 1 1 1 1 1 0 1 1 in
  let Q1 : gset string := {["a"; "b"; "c"; "d"]}%string in
  let Q2 : gset string := {["c"; "d"; "e"; "f"]}%string in
  byzantine_commit_threshold feat c = Some (Z.of_nat (size Q1)) ∧
  byzantine_commit_threshold feat c = Some (Z.of_nat (size Q2)) ∧
  Z.of_nat (size (Q1 ∩ Q2)) = num_nodes c / 3 ∧
  Z.of_nat (size (Q1 ∩ Q2)) < pacemaker_view_update_threshold feat c.
Proof. vm_compute. repeat split; congruence. Qed.
