(* ===== verification/Serialize.v ===== *)
(** Block serialization (src/src/utils/serialize.rs) and block hashing
    (src/src/crypto/service.rs, sha512.rs).  The wire layout is
    signature (64 bytes) || parent hash (64 bytes) || protobuf body.  The protobuf
    codec (prost) and SHA-512 are not part of the repository: they are the members of
    the class [Codec].  A result [None] is a panic. *)

From stdpp Require Import base numbers list gmap strings option.
From S2P Require Import Prelude Types.

Class Codec := {
  (** [ProtoBlock::encode_to_vec] / [ProtoBlock::decode]. *)
  encode_block : ProtoBlock → bytes;
  decode_block : bytes → option ProtoBlock;
  (** [ProtoQuorumCertificate::encode_to_vec]. *)
  encode_qc : ProtoQuorumCertificate → bytes;
  (** SHA-512 of a byte string. *)
  sha512 : bytes → HashType }.

Definition SIGNATURE_LENGTH : nat := 64.
Definition DIGEST_LENGTH : nat := 64.

Definition zeros (k : nat) : bytes := replicate k Byte.x00.
Definition default_hash : HashType := zeros DIGEST_LENGTH.

(** [&data[a..b]]; panics when the range is out of bounds. *)
Definition slice (a b : nat) (data : bytes) : option bytes :=
  if (a <=? b)%nat && (b <=? length data)%nat then Some (take (b - a) (drop a data)) else None.

(** Field updates of a block. *)
Definition with_parent_sig (b : ProtoBlock) (p : HashType) (s : option Sig) : ProtoBlock :=
  mkBlock (pb_tx_list b) (pb_n b) p (pb_view b) (pb_qc b) (pb_fork_validation b)
    (pb_view_is_stable b) (pb_config_num b) s.

(** The block as it is encoded: [parent.clear(); sig = None]. *)
Definition nascent (b : ProtoBlock) : ProtoBlock := with_parent_sig b [] None.

Section serialize.
Context `{Codec}.

(** [Result::Err] is [inl]. *)
Definition serialize_proto_block_nascent (b : ProtoBlock) : unit + bytes :=
  if negb (bool_decide (length (pb_parent b) = 0%nat))
     || (negb (bool_decide (pb_sig b = None)) && negb (bool_decide (pb_sig b = Some NoSig)))
  then inl tt
  else inr (zeros SIGNATURE_LENGTH ++ zeros DIGEST_LENGTH ++ encode_block b).

Definition serialize_proto_block_prefilled (b : ProtoBlock) : bytes :=
  match pb_sig b with
  | Some (ProposerSig s) => s
  | Some NoSig => zeros SIGNATURE_LENGTH
  | None => zeros SIGNATURE_LENGTH
  end ++ pb_parent b ++ encode_block (nascent b).

(** [block[SIG..SIG+DIGEST].copy_from_slice(parent_hash)]. *)
Definition update_parent_hash_in_proto_block_ser (buf : bytes) (parent_hash : HashType) : option bytes :=
  if (length buf <? SIGNATURE_LENGTH + DIGEST_LENGTH)%nat then None
  else if negb (length parent_hash =? DIGEST_LENGTH)%nat then None
  else Some (take SIGNATURE_LENGTH buf ++ parent_hash ++ drop (SIGNATURE_LENGTH + DIGEST_LENGTH) buf).

Definition get_parent_hash_in_proto_block_ser (buf : bytes) : option HashType :=
  if (length buf <? DIGEST_LENGTH + SIGNATURE_LENGTH)%nat then None
  else slice SIGNATURE_LENGTH (SIGNATURE_LENGTH + DIGEST_LENGTH) buf.

(** [block[..SIG].copy_from_slice(signature)]. *)
Definition update_signature_in_proto_block_ser (buf signature : bytes) : option bytes :=
  if (length buf <? SIGNATURE_LENGTH)%nat then None
  else if negb (length signature =? SIGNATURE_LENGTH)%nat then None
  else Some (signature ++ drop SIGNATURE_LENGTH buf).

Definition all_zero (s : bytes) : bool := forallb (λ x, bool_decide (x = Byte.x00)) s.

(** Outer [None]: the [unwrap] of a failed [decode]; [inl] is the [DecodeError]. *)
Definition deserialize_proto_block (buf : bytes) : option (unit + ProtoBlock) :=
  if (length buf <? DIGEST_LENGTH + SIGNATURE_LENGTH)%nat then Some (inl tt)
  else
    match decode_block (drop (DIGEST_LENGTH + SIGNATURE_LENGTH) buf) with
    | None => None
    | Some b =>
        let sg := take SIGNATURE_LENGTH buf in
        Some (inr (with_parent_sig b
          (take DIGEST_LENGTH (drop SIGNATURE_LENGTH buf))
          (Some (if all_zero sg then NoSig else ProposerSig sg))))
    end.

(** The three [hasher.update] calls in order: body, parent, signature. *)
Definition hash_input (data : bytes) : bytes :=
  drop (DIGEST_LENGTH + SIGNATURE_LENGTH) data
  ++ take DIGEST_LENGTH (drop SIGNATURE_LENGTH data)
  ++ take SIGNATURE_LENGTH data.

Definition hash_proto_block_ser (data : bytes) : option HashType :=
  if (length data <? DIGEST_LENGTH + SIGNATURE_LENGTH)%nat then None
  else Some (sha512 (hash_input data)).

(** * Lemmas *)

Lemma length_zeros k : length (zeros k) = k.
Proof. apply length_replicate. Qed.

Lemma all_zero_zeros k : all_zero (zeros k) = true.
Proof. induction k; [done|]. simpl. done. Qed.

Lemma all_zero_true s : all_zero s = true → s = zeros (length s).
Proof.
  induction s as [|x s IH]; [done|]. simpl. intros Ha. bool_to_prop. subst.
  unfold zeros in *. simpl. f_equal. by apply IH.
Qed.

(** Splitting a buffer at the two fixed offsets. *)
Lemma layout_parts (s p body : bytes) :
  length s = SIGNATURE_LENGTH → length p = DIGEST_LENGTH →
  take SIGNATURE_LENGTH (s ++ p ++ body) = s ∧
  take DIGEST_LENGTH (drop SIGNATURE_LENGTH (s ++ p ++ body)) = p ∧
  drop (DIGEST_LENGTH + SIGNATURE_LENGTH) (s ++ p ++ body) = body ∧
  (DIGEST_LENGTH + SIGNATURE_LENGTH ≤ length (s ++ p ++ body))%nat.
Proof.
  intros Hs Hp. unfold DIGEST_LENGTH, SIGNATURE_LENGTH in *.
  repeat split.
  - by rewrite take_app_le, take_ge by lia.
  - rewrite drop_app_length' by done. by rewrite take_app_le, take_ge by lia.
  - rewrite app_assoc. by rewrite drop_app_length' by (rewrite length_app; lia).
  - rewrite !length_app. lia.
Qed.

Lemma layout_split (buf : bytes) :
  (DIGEST_LENGTH + SIGNATURE_LENGTH ≤ length buf)%nat →
  buf = take SIGNATURE_LENGTH buf ++ take DIGEST_LENGTH (drop SIGNATURE_LENGTH buf)
        ++ drop (DIGEST_LENGTH + SIGNATURE_LENGTH) buf.
Proof.
  intros Hl. unfold DIGEST_LENGTH, SIGNATURE_LENGTH in *.
  replace (drop (64 + 64) buf) with (drop 64 (drop 64 buf)) by by rewrite drop_drop.
  by rewrite !take_drop.
Qed.

Lemma ltb_len_false (buf : bytes) k : (k ≤ length buf)%nat → (length buf <? k)%nat = false.
Proof. intros. by apply Nat.ltb_ge. Qed.

End serialize.

(** The proposer signature of a block is well formed: 64 bytes, not all zero. *)
Definition sig_wf (s : option Sig) : Prop :=
  match s with
  | Some (ProposerSig x) => length x = SIGNATURE_LENGTH ∧ all_zero x = false
  | _ => True
  end.

(** What [deserialize] gives back for a signature field: a missing one reads as [NoSig]. *)
Definition sig_norm (s : option Sig) : option Sig :=
  match s with None => Some NoSig | Some x => Some x end.

(** * Properties *)

(** Serializing a filled-in block and deserializing it gives the block back, and
    both the parent hash and the hash of the serialized block can be read off the bytes. *)
Lemma serialize_roundtrip `{Codec} (b : ProtoBlock) :
  length (pb_parent b) = DIGEST_LENGTH → sig_wf (pb_sig b) →
  decode_block (encode_block (nascent b)) = Some (nascent b) →
  deserialize_proto_block (serialize_proto_block_prefilled b) =
    Some (inr (with_parent_sig b (pb_parent b) (sig_norm (pb_sig b)))) ∧
  get_parent_hash_in_proto_block_ser (serialize_proto_block_prefilled b) = Some (pb_parent b) ∧
  is_Some (hash_proto_block_ser (serialize_proto_block_prefilled b)).
Proof.
  intros Hp Hs Hdec. unfold serialize_proto_block_prefilled.
  set (sg := match pb_sig b with Some (ProposerSig s) => s | _ => zeros SIGNATURE_LENGTH end).
  assert (length sg = SIGNATURE_LENGTH) as Hsg.
  { subst sg. destruct (pb_sig b) as [[|x]|]; [apply length_zeros|apply Hs|apply length_zeros]. }
  replace (match pb_sig b with Some NoSig => zeros SIGNATURE_LENGTH
           | Some (ProposerSig s) => s | None => zeros SIGNATURE_LENGTH end) with sg
    by (subst sg; by destruct (pb_sig b) as [[]|]).
  destruct (layout_parts sg (pb_parent b) (encode_block (nascent b)) Hsg Hp) as (H1 & H2 & H3 & H4).
  unfold deserialize_proto_block, get_parent_hash_in_proto_block_ser, hash_proto_block_ser, slice.
  rewrite (ltb_len_false _ _ H4), H1, H2, H3, Hdec.
  repeat split; [|..].
  - do 2 f_equal. unfold with_parent_sig, nascent, sig_norm. simpl. f_equal.
    subst sg. destruct (pb_sig b) as [[|x]|]; [by rewrite all_zero_zeros| |by rewrite all_zero_zeros].
    destruct Hs as [_ ->]. done.
  - unfold SIGNATURE_LENGTH, DIGEST_LENGTH in *.
    replace ((64 <=? 64 + 64)%nat) with true by done.
    replace ((64 + 64 <=? length (sg ++ pb_parent b ++ encode_block (nascent b)))%nat) with true
      by (symmetry; by apply Nat.leb_le).
    simpl. f_equal. exact H2.
  - eauto.
Qed.

Definition toy_block : ProtoBlock :=
  mkBlock [] 7 (zeros 64) 3 [] [] true 1 (Some (ProposerSig (replicate 64 Byte.x01))).

(** A codec instance used by the witnesses: it can encode [b] and nothing else, and its
    digest is the 64-byte prefix of its padded input. *)
Definition toy_codec (b : ProtoBlock) : Codec :=
  {| encode_block := λ _, [Byte.x2a];
     decode_block := λ x, if bool_decide (x = [Byte.x2a]) then Some b else None;
     encode_qc := λ _, [];
     sha512 := λ x, take 64 (x ++ zeros 64) |}.

Lemma serialize_roundtrip_witness :
  let C := toy_codec (nascent toy_block) in
  deserialize_proto_block (serialize_proto_block_prefilled toy_block) =
    Some (inr (with_parent_sig toy_block (pb_parent toy_block) (sig_norm (pb_sig toy_block)))) ∧
  get_parent_hash_in_proto_block_ser (serialize_proto_block_prefilled toy_block) =
    Some (pb_parent toy_block) ∧
  is_Some (hash_proto_block_ser (serialize_proto_block_prefilled toy_block)).
Proof.
  exact (@serialize_roundtrip (toy_codec (nascent toy_block)) toy_block
           eq_refl (conj eq_refl eq_refl) eq_refl).
Defined.

(** The block hash binds the whole serialization: unless SHA-512 collides on the two
    rearranged inputs, equal block hashes mean equal bytes, signature and parent included. *)
Lemma block_hash_binding `{Codec} (d1 d2 : bytes) (h : HashType) :
  hash_proto_block_ser d1 = Some h → hash_proto_block_ser d2 = Some h →
  (sha512 (hash_input d1) = sha512 (hash_input d2) → hash_input d1 = hash_input d2) →
  d1 = d2.
Proof.
  unfold hash_proto_block_ser. intros H1 H2 Hcf.
  destruct (Nat.ltb_spec (length d1) (DIGEST_LENGTH + SIGNATURE_LENGTH)); [done|].
  destruct (Nat.ltb_spec (length d2) (DIGEST_LENGTH + SIGNATURE_LENGTH)); [done|].
  assert (hash_input d1 = hash_input d2) as Hpre by (apply Hcf; congruence).
  unfold hash_input in Hpre.
  assert (length d1 = length d2) as Hlen.
  { apply (f_equal length) in Hpre. rewrite !length_app, !length_take, !length_drop in Hpre.
    unfold DIGEST_LENGTH, SIGNATURE_LENGTH in *. lia. }
  apply app_inj_1 in Hpre as [Hb Hrest]; [|rewrite !length_drop; lia].
  apply app_inj_1 in Hrest as [Hp Hs];
    [|rewrite !length_take, !length_drop; unfold DIGEST_LENGTH, SIGNATURE_LENGTH in *; lia].
  rewrite (layout_split d1), (layout_split d2) by done. congruence.
Qed.
