(* ===== verification/Crypto.v ===== *)
(** The crypto service (src/src/crypto/service.rs) and key store
    (src/src/crypto/ed25519.rs): preparing a block (chaining, signing, hashing),
    verifying a received serialization, verifying quorum certificates, checking a block
    read from disk, and signing view-change messages.  One definition per command of the
    worker loop; ed25519 itself is the class [Ed25519].  [None] is a panic. *)

From stdpp Require Import base numbers list gmap strings option.
From S2P Require Import Prelude Types Config Serialize.

Class Ed25519 := {
  PubKey : Type;
  PrivKey : Type;
  (** [SigningKey::sign(..).to_bytes()]. *)
  ed_sign : PrivKey → bytes → bytes;
  (** [VerifyingKey::verify(data, sig).is_ok()]. *)
  ed_verify : PubKey → bytes → bytes → bool;
  (** [verify_batch(msgs, sigs, keys).is_ok()]. *)
  ed_verify_batch : list bytes → list bytes → list PubKey → bool }.

Record KeyStore `{Ed25519} := mkKeyStore {
  pub_keys : gmap string PubKey;
  priv_key : PrivKey }.

Inductive FutureHash :=
  | FHNone
  | FHImmediate (h : HashType)
  | FHFuture (h : option HashType)                 (* [None]: sender dropped *)
  | FHFutureResult (h : option (unit + HashType)).

Section crypto.
Context `{Codec, Ed25519} (feat : Features).

Definition get_pubkey (ks : KeyStore) (name : string) : option PubKey := pub_keys ks !! name.
Definition ks_sign (ks : KeyStore) (data : bytes) : bytes := ed_sign (priv_key ks) data.
Definition ks_verify (ks : KeyStore) (name : string) (sig data : bytes) : bool :=
  match get_pubkey ks name with
  | Some k => ed_verify k data sig
  | None => false
  end.

(** [sig.as_slice().try_into()] for a 64-byte signature. *)
Definition sig_try_into (s : bytes) : option bytes :=
  if (length s =? SIGNATURE_LENGTH)%nat then Some s else None.

(** The collection loop of [verify_qc]; [None] is the early [return false]. *)
Fixpoint collect_qc_sigs (ks : KeyStore) (l : list ProtoNameWithSignature) : option (list PubKey * list bytes) :=
  match l with
  | [] => Some ([], [])
  | s :: l' =>
      match sig_try_into (ns_sig s) with
      | None => None
      | Some sg =>
          match get_pubkey ks (ns_name s) with
          | None => None
          | Some k =>
              match collect_qc_sigs ks l' with
              | None => None
              | Some (keys, sigs) => Some (k :: keys, sg :: sigs)
              end
          end
      end
  end.

Definition verify_qc (ks : KeyStore) (q : ProtoQuorumCertificate) (min_len : Z) : bool :=
  match collect_qc_sigs ks (qc_sig q) with
  | None => false
  | Some (keys, sigs) =>
      if Z.of_nat (length keys) <? min_len then false
      else ed_verify_batch (replicate (length keys) (qc_digest q)) sigs keys
  end.

(** Worker command [PrepareBlock]. *)
Definition resolve_parent (p : FutureHash) : option HashType :=
  match p with
  | FHNone => Some default_hash
  | FHImmediate h => Some h
  | FHFuture h => h
  | FHFutureResult (Some (inr h)) => Some h
  | FHFutureResult _ => None
  end.

Definition prepare_block (ks : KeyStore) (b : ProtoBlock) (must_sign : bool) (parent : FutureHash)
    : option CachedBlock :=
  let b0 := nascent b in
  match serialize_proto_block_nascent b0 with
  | inl _ => None
  | inr buf0 =>
      let h1 := drop (DIGEST_LENGTH + SIGNATURE_LENGTH) buf0 in
      p ← resolve_parent parent;
      buf1 ← update_parent_hash_in_proto_block_ser buf0 p;
      h2 ← slice SIGNATURE_LENGTH (SIGNATURE_LENGTH + DIGEST_LENGTH) buf1;
      '(sg, buf2) ←
        (if must_sign then
           let partial_hsh := sha512 (drop SIGNATURE_LENGTH buf1) in
           let s := ks_sign ks partial_hsh in
           buf ← update_signature_in_proto_block_ser buf1 s;
           Some (Some (ProposerSig s), buf)
         else Some (None, buf1));
      h3 ← slice 0 SIGNATURE_LENGTH buf2;
      Some (mkCached (with_parent_sig b0 p sg) buf2 (sha512 (h1 ++ h2 ++ h3)))
  end.

(** Worker command [CheckBlockSer]; the argument is what the storage task answered,
    [None] when it dropped the channel.  [Some (inl _)] is an error value. *)
Definition check_block_ser (hsh : HashType) (ser : option (unit + bytes)) : option (unit + CachedBlock) :=
  match ser with
  | None => None
  | Some (inl e) => Some (inl e)
  | Some (inr block_ser) =>
      chk ← hash_proto_block_ser block_ser;
      if negb (bool_decide (chk = hsh)) then Some (inl tt)
      else
        r ← deserialize_proto_block block_ser;
        match r with
        | inr b => Some (inr (mkCached b block_ser hsh))
        | inl e => Some (inl e)
        end
  end.

(** Worker command [VerifyBlockSer].  The block and the hash are sent on two channels:
    both get the error, or the cached block and its hash. *)
Definition verify_block_ser (ks : KeyStore) (c : ConsensusConfig) (min_qc_len : Z) (block_ser : bytes)
    : option (unit + CachedBlock) :=
  r ← deserialize_proto_block block_ser;
  hsh ← hash_proto_block_ser block_ser;
  match r with
  | inl e => Some (inl e)
  | inr b =>
      match pb_sig b with
      | Some (ProposerSig s) =>
          let partial_hsh := sha512 (drop SIGNATURE_LENGTH block_ser) in
          leader ← get_leader_for_view feat c (pb_view b);
          match sig_try_into s with
          | None => Some (inl tt)
          | Some sg =>
              if negb (ks_verify ks leader sg partial_hsh) then Some (inl tt)
              else if negb (forallb (λ q, verify_qc ks q min_qc_len) (pb_qc b)) then Some (inl tt)
              else Some (inr (mkCached b block_ser hsh))
          end
      | _ =>
          if (0 <? length (pb_qc b))%nat then Some (inl tt)
          else Some (inr (mkCached b block_ser hsh))
      end
  end.

(** What a view-change message is signed over:
    H(last_block) || H(fork_last_qc) || view || config_num || fork_last_n. *)
Definition vc_sign_payload (vc : ProtoViewChange) : option bytes :=
  last_block_hash ←
    match vc_fork vc with
    | Some fork =>
        match list.last (serialized_blocks fork) with
        | Some b => hash_proto_block_ser (hs_body b)
        | None => Some default_hash
        end
    | None => Some default_hash
    end;
  let last_qc_hash :=
    match vc_fork_last_qc vc with
    | Some q => sha512 (encode_qc q)
    | None => default_hash
    end in
  Some (last_block_hash ++ last_qc_hash ++ be_bytes 8 (vc_view vc)
        ++ be_bytes 8 (vc_config_num vc) ++ be_bytes 8 (vc_fork_last_n vc)).

(** Worker command [PrepareVC]. *)
Definition prepare_vc (ks : KeyStore) (vc : ProtoViewChange) : option ProtoViewChange :=
  buf ← vc_sign_payload vc;
  Some (mkVC (vc_view vc) (vc_config_num vc) (vc_fork vc) (ks_sign ks buf)
          (vc_fork_last_n vc) (vc_fork_last_qc vc)).

(** Worker command [VerifyVC]. *)
Definition verify_vc (ks : KeyStore) (vc : ProtoViewChange) (name : string) : option bool :=
  buf ← vc_sign_payload vc;
  sg ← sig_try_into (vc_fork_sig vc);
  Some (ks_verify ks name sg buf).

(** [prepare_fork]: every block of a part goes through [VerifyBlockSer]. *)
Definition prepare_fork (ks : KeyStore) (c : ConsensusConfig) (part : list HalfSerializedBlock)
    (min_qc_len : Z) : list (option (unit + CachedBlock)) :=
  map (λ e, verify_block_ser ks c min_qc_len (hs_body e)) part.

(** * Lemmas *)

Lemma sig_try_into_ok (s : bytes) : length s = SIGNATURE_LENGTH → sig_try_into s = Some s.
Proof. intros Hs. unfold sig_try_into. by rewrite Hs, Nat.eqb_refl. Qed.

Lemma sig_try_into_Some (s sg : bytes) : sig_try_into s = Some sg → sg = s ∧ length s = SIGNATURE_LENGTH.
Proof.
  unfold sig_try_into. destruct (Nat.eqb_spec (length s) SIGNATURE_LENGTH); [|done]. by intros [= <-].
Qed.

(** The keys and signatures collected from a certificate are those of its entries. *)
Lemma collect_qc_sigs_spec ks l keys sigs :
  collect_qc_sigs ks l = Some (keys, sigs) ↔
  Forall2 (λ e k, get_pubkey ks (ns_name e) = Some k) l keys ∧ sigs = map ns_sig l ∧
  Forall (λ e, length (ns_sig e) = SIGNATURE_LENGTH) l.
Proof.
  revert keys sigs. induction l as [|e l IH]; intros keys sigs; simpl.
  { split; [intros [= <- <-]; auto using Forall2_nil|].
    intros (Hf & -> & _). by inversion Hf. }
  destruct (sig_try_into (ns_sig e)) as [sg|] eqn:Hsg.
  2:{ split; [done|]. intros (_ & _ & Hl). inversion Hl; subst.
      by rewrite sig_try_into_ok in Hsg. }
  apply sig_try_into_Some in Hsg as [-> Hlen].
  destruct (get_pubkey ks (ns_name e)) as [k|] eqn:Hk.
  2:{ split; [done|]. intros (Hf & _). inversion Hf; congruence. }
  destruct (collect_qc_sigs ks l) as [[keys' sigs']|] eqn:Hc.
  - destruct (proj1 (IH keys' sigs') eq_refl) as (Hf & -> & Hl).
    split; [intros [= <- <-]; auto|].
    intros (Hf' & -> & Hl'). inversion Hf'; inversion Hl'; simplify_eq. do 2 f_equal.
    assert (Some (keys', map ns_sig l) = Some (l', map ns_sig l)) as [= ->] by (apply IH; auto).
    congruence.
  - split; [done|]. intros (Hf' & -> & Hl'). inversion Hf'; inversion Hl'; simplify_eq.
    assert (None = Some (l', map ns_sig l)); [by apply IH|done].
Qed.

Lemma verify_qc_true ks q min_len :
  verify_qc ks q min_len = true ↔
  ∃ keys, Forall2 (λ e k, get_pubkey ks (ns_name e) = Some k) (qc_sig q) keys ∧
    Forall (λ e, length (ns_sig e) = SIGNATURE_LENGTH) (qc_sig q) ∧
    min_len ≤ Z.of_nat (length (qc_sig q)) ∧
    ed_verify_batch (replicate (length keys) (qc_digest q)) (map ns_sig (qc_sig q)) keys = true.
Proof.
  unfold verify_qc. destruct (collect_qc_sigs ks (qc_sig q)) as [[keys sigs]|] eqn:Hc.
  - apply collect_qc_sigs_spec in Hc as (Hf & -> & Hl).
    pose proof (Forall2_length Hf) as Hlen.
    destruct (Z.ltb_spec (Z.of_nat (length keys)) min_len).
    + split; [done|]. intros (keys' & Hf' & _ & Hm & _). apply Forall2_length in Hf'. lia.
    + split; [intros Hv; exists keys; repeat split; auto; lia|].
      intros (keys' & Hf' & _ & _ & Hv). enough (keys' = keys) as -> by done.
      clear -Hf Hf'. revert keys' Hf'.
      induction Hf; intros keys' Hf'; inversion Hf'; simplify_eq; [done|]. f_equal; auto.
  - split; [done|]. intros (keys & Hf & Hl & _).
    assert (None = Some (keys, map ns_sig (qc_sig q))); [|done].
    rewrite <-Hc. by apply collect_qc_sigs_spec.
Qed.

(** The three-step hash of [prepare_block] is the hash of the finished buffer. *)
Lemma hash_layout (s p body : bytes) :
  length s = SIGNATURE_LENGTH → length p = DIGEST_LENGTH →
  hash_proto_block_ser (s ++ p ++ body) = Some (sha512 (body ++ p ++ s)).
Proof.
  intros Hs Hp. destruct (layout_parts s p body Hs Hp) as (H1 & H2 & H3 & H4).
  unfold hash_proto_block_ser, hash_input. by rewrite (ltb_len_false _ _ H4), H1, H2, H3.
Qed.

Lemma slice_sig (s p body : bytes) :
  length s = SIGNATURE_LENGTH → slice 0 SIGNATURE_LENGTH (s ++ p ++ body) = Some s.
Proof.
  intros Hs. unfold slice. rewrite !length_app, Hs.
  replace (SIGNATURE_LENGTH <=? _)%nat with true by (symmetry; apply Nat.leb_le; lia).
  simpl andb. cbv iota. f_equal. rewrite Nat.sub_0_r, drop_0. by rewrite take_app_length'.
Qed.

Lemma slice_parent (s p body : bytes) :
  length s = SIGNATURE_LENGTH → length p = DIGEST_LENGTH →
  slice SIGNATURE_LENGTH (SIGNATURE_LENGTH + DIGEST_LENGTH) (s ++ p ++ body) = Some p.
Proof.
  intros Hs Hp. destruct (layout_parts s p body Hs Hp) as (H1 & H2 & H3 & H4).
  unfold slice. replace (SIGNATURE_LENGTH + DIGEST_LENGTH <=? _)%nat with true
    by (symmetry; by apply Nat.leb_le).
  replace (SIGNATURE_LENGTH + DIGEST_LENGTH - SIGNATURE_LENGTH)%nat with DIGEST_LENGTH by lia.
  replace (SIGNATURE_LENGTH <=? SIGNATURE_LENGTH + DIGEST_LENGTH)%nat with true by done.
  simpl andb. cbv iota. by rewrite H2.
Qed.

(** What [prepare_block] computes: the chained (and signed) buffer and its hash. *)
Lemma prepare_block_eq ks b must_sign parent p :
  resolve_parent parent = Some p → length p = DIGEST_LENGTH →
  let body := encode_block (nascent b) in
  let s := ks_sign ks (sha512 (p ++ body)) in
  (must_sign = true → length s = SIGNATURE_LENGTH) →
  let sg := if must_sign then s else zeros SIGNATURE_LENGTH in
  prepare_block ks b must_sign parent =
    Some (mkCached (with_parent_sig b p (if must_sign then Some (ProposerSig s) else None))
            (sg ++ p ++ body) (sha512 (body ++ p ++ sg))).
Proof.
  intros Hp Hlp body s Hs sg. unfold prepare_block.
  assert (length (zeros SIGNATURE_LENGTH) = SIGNATURE_LENGTH) as Hz by apply length_zeros.
  assert (length (zeros DIGEST_LENGTH) = DIGEST_LENGTH) as Hz' by apply length_zeros.
  unfold serialize_proto_block_nascent. cbn [negb orb andb bool_decide nascent with_parent_sig].
  simpl pb_parent. simpl pb_sig. simpl length. rewrite !bool_decide_true by done. simpl negb. simpl orb.
  cbv iota. fold body. rewrite Hp. cbn [mbind option_bind].
  destruct (layout_parts (zeros SIGNATURE_LENGTH) (zeros DIGEST_LENGTH) body Hz Hz') as (H1 & H2 & H3 & H4).
  unfold update_parent_hash_in_proto_block_ser.
  change (SIGNATURE_LENGTH + DIGEST_LENGTH)%nat with (DIGEST_LENGTH + SIGNATURE_LENGTH)%nat.
  rewrite (ltb_len_false _ _ H4), Hlp, Nat.eqb_refl. simpl negb. cbv iota. rewrite H1, H3.
  cbn [mbind option_bind].
  change (DIGEST_LENGTH + SIGNATURE_LENGTH)%nat with (SIGNATURE_LENGTH + DIGEST_LENGTH)%nat.
  rewrite slice_parent by done. cbn [mbind option_bind].
  rewrite drop_app_length' by done.
  destruct must_sign; cbn [mbind option_bind].
  - unfold update_signature_in_proto_block_ser. rewrite ltb_len_false
      by (rewrite !length_app, length_zeros; lia). fold s. rewrite Hs, Nat.eqb_refl by done.
    simpl negb. cbv iota. cbn [mbind option_bind]. rewrite drop_app_length' by done.
    rewrite slice_sig by auto. done.
  - rewrite slice_sig by done. done.
Qed.

End crypto.

(** * Properties *)

(** A block prepared by the leader of its view is accepted by every verifier that
    holds the leader's key: verification of the produced bytes returns the same block, the
    same bytes and the hash the proposer computed incrementally (and chains the next block
    to). *)
Lemma prepare_then_verify `{Codec, Ed25519} (feat : Features) (ks ks' : KeyStore)
    (c : ConsensusConfig) (b : ProtoBlock) (must_sign : bool) (parent : FutureHash) (p : HashType)
    (leader : string) (pk : PubKey) (min_qc_len : Z) :
  resolve_parent parent = Some p → length p = DIGEST_LENGTH →
  decode_block (encode_block (nascent b)) = Some (nascent b) →
  get_leader_for_view feat c (pb_view b) = Some leader →
  pub_keys ks' !! leader = Some pk →
  (∀ m, ed_verify pk m (ed_sign (priv_key ks) m) = true
        ∧ length (ed_sign (priv_key ks) m) = SIGNATURE_LENGTH
        ∧ all_zero (ed_sign (priv_key ks) m) = false) →
  (must_sign = true → forallb (λ q, verify_qc ks' q min_qc_len) (pb_qc b) = true) →
  (must_sign = false → pb_qc b = []) →
  ∃ cb, prepare_block ks b must_sign parent = Some cb ∧
        is_signed (cb_block cb) = must_sign ∧ pb_parent (cb_block cb) = p ∧
        verify_block_ser feat ks' c min_qc_len (cb_ser cb) =
          Some (inr (mkCached (with_parent_sig b p (sig_norm (pb_sig (cb_block cb))))
                       (cb_ser cb) (cb_hash cb))).
Proof.
  intros Hp Hlp Hdec Hl Hpk Hed Hqc Hnoqc.
  rewrite (prepare_block_eq ks b must_sign parent p Hp Hlp)
    by (intros _; apply (Hed (sha512 (p ++ encode_block (nascent b))))).
  eexists; split; [done|]. split; [by destruct must_sign|]. split; [done|]. cbn [cb_block cb_ser cb_hash].
  set (body := encode_block (nascent b)). set (s := ks_sign ks (sha512 (p ++ body))).
  destruct (Hed (sha512 (p ++ body))) as (Hv & Hls & Hnz).
  change (ed_sign (priv_key ks) (sha512 (p ++ body))) with s in Hv, Hls, Hnz.
  set (sg := if must_sign then s else zeros SIGNATURE_LENGTH).
  assert (length sg = SIGNATURE_LENGTH) as Hsg
    by (subst sg; destruct must_sign; [done|apply length_zeros]).
  destruct (layout_parts sg p body Hsg Hlp) as (H1 & H2 & H3 & H4).
  unfold verify_block_ser. rewrite hash_layout by done.
  unfold deserialize_proto_block. rewrite (ltb_len_false _ _ H4), H1, H2, H3.
  fold body in Hdec. rewrite Hdec. cbn [mbind option_bind].
  destruct must_sign; subst sg; cbv iota.
  - rewrite Hnz. simpl pb_sig. cbv iota. simpl pb_view. rewrite Hl. cbn [mbind option_bind].
    rewrite sig_try_into_ok by done. rewrite drop_app_length' by done.
    unfold ks_verify, get_pubkey. rewrite Hpk, Hv. simpl negb. cbv iota. simpl pb_qc.
    by rewrite Hqc.
  - rewrite all_zero_zeros. simpl pb_sig. cbv iota. simpl pb_qc. by rewrite Hnoqc.
Qed.

(** A signature scheme used by the witnesses: keys are names, a signature repeats the
    byte 1 and is checked for that. *)
Definition toy_ed : Ed25519 :=
  {| PubKey := string; PrivKey := unit;
     ed_sign := λ _ _, replicate 64 Byte.x01;
     ed_verify := λ _ _ s, bool_decide (s = replicate 64 Byte.x01);
     ed_verify_batch := λ ms ss ks,
       (length ms =? length ss)%nat && (length ss =? length ks)%nat &&
       forallb (λ s, bool_decide (s = replicate 64 Byte.x01)) ss |}.

Lemma toy_ed_batch ms ss ks :
  @ed_verify_batch toy_ed ms ss ks = true →
  Forall2 (λ '(m, s) k, @ed_verify toy_ed k m s = true) (zip ms ss) ks.
Proof.
  cbn [ed_verify_batch ed_verify toy_ed]. rewrite !andb_true_iff, !Nat.eqb_eq. intros [[H1 H2] Hb].
  revert ms ks H1 H2 Hb.
  induction ss as [|s ss IH]; intros [|m ms] [|k ks]; simpl in *; try done.
  intros [= Hm] [= Hk] [Hs Hb]%andb_true_iff. constructor; [done|]. by apply IH.
Qed.

Definition toy_keystore : @KeyStore toy_ed :=
  @mkKeyStore toy_ed (list_to_map [("node1", "k1"); ("node2", "k2"); ("node3", "k3"); ("node4", "k4")]%string) tt.

Lemma prepare_then_verify_witness :
  let C := toy_codec (nascent toy_block) in let Ed := toy_ed in
  ∃ cb, prepare_block toy_keystore toy_block true FHNone = Some cb ∧
        is_signed (cb_block cb) = true ∧ pb_parent (cb_block cb) = default_hash ∧
        verify_block_ser pirateship_features toy_keystore four_nodes 3 (cb_ser cb) =
          Some (inr (mkCached (with_parent_sig toy_block default_hash (sig_norm (pb_sig (cb_block cb))))
                       (cb_ser cb) (cb_hash cb))).
Proof.
  intros C Ed.
  apply (@prepare_then_verify C Ed pirateship_features toy_keystore toy_keystore
           four_nodes toy_block true FHNone default_hash "node3"%string "k3"%string 3);
    try reflexivity; done.
Defined.

(** Every signature of an accepted certificate is valid. *)
Lemma verify_qc_signers `{Ed25519} (ks : KeyStore) (min_len : Z) :
  (∀ ms ss ks', ed_verify_batch ms ss ks' = true →
     Forall2 (λ '(m, s) k, ed_verify k m s = true) (zip ms ss) ks') →
  ∀ q, verify_qc ks q min_len = true →
  min_len ≤ Z.of_nat (length (qc_sig q)) ∧
  Forall (λ e, ∃ k, pub_keys ks !! ns_name e = Some k ∧ ed_verify k (qc_digest q) (ns_sig e) = true) (qc_sig q).
Proof.
  intros Hbatch q (keys & Hf & _ & Hmin & Hv)%verify_qc_true. split; [done|].
  apply Hbatch in Hv. clear -Hf Hv. revert keys Hf Hv.
  induction (qc_sig q) as [|e l IH]; intros keys Hf Hv; [done|].
  inversion Hf as [|? k ? keys' Hk Hf']; simplify_eq. simpl in Hv.
  inversion Hv; simplify_eq. constructor; eauto.
Qed.

(** C34: what an accepted block guarantees: its hash is the hash of its bytes; a signed
    block carries the signature of the leader of its view over parent and body, and each
    of its certificates has at least [min_qc_len] entries, every one a valid signature of
    the certificate's digest under a registered key; an unsigned block carries no
    certificate. *)
Theorem verify_block_sound `{Codec, Ed25519} (feat : Features) (ks : KeyStore) (c : ConsensusConfig)
    (min_qc_len : Z) (ser : bytes) (cb : CachedBlock) :
  (∀ ms ss ks', ed_verify_batch ms ss ks' = true →
     Forall2 (λ '(m, s) k, ed_verify k m s = true) (zip ms ss) ks') →
  verify_block_ser feat ks c min_qc_len ser = Some (inr cb) →
  cb_ser cb = ser ∧ hash_proto_block_ser ser = Some (cb_hash cb) ∧
  deserialize_proto_block ser = Some (inr (cb_block cb)) ∧
  (is_signed (cb_block cb) = false → pb_qc (cb_block cb) = []) ∧
  (∀ s, pb_sig (cb_block cb) = Some (ProposerSig s) →
     ∃ leader k, get_leader_for_view feat c (pb_view (cb_block cb)) = Some leader ∧
       pub_keys ks !! leader = Some k ∧
       ed_verify k (sha512 (drop SIGNATURE_LENGTH ser)) s = true) ∧
  (∀ q, q ∈ pb_qc (cb_block cb) →
     min_qc_len ≤ Z.of_nat (length (qc_sig q)) ∧
     Forall (λ e, ∃ k, pub_keys ks !! ns_name e = Some k ∧ ed_verify k (qc_digest q) (ns_sig e) = true)
       (qc_sig q)).
Proof.
  intros Hbatch. unfold verify_block_ser.
  destruct (deserialize_proto_block ser) as [[|b]|]; [by destruct (hash_proto_block_ser ser)| |done].
  destruct (hash_proto_block_ser ser) as [h|]; [|done]. cbn [mbind option_bind].
  pose proof (verify_qc_signers ks min_qc_len Hbatch) as Hqc.
  destruct (pb_sig b) as [[|s]|] eqn:Hsig.
  2:{ destruct (get_leader_for_view feat c (pb_view b)) as [leader|] eqn:Hl; [|done].
      cbn [mbind option_bind]. destruct (sig_try_into s) as [sg|] eqn:Hsg; [|done].
      apply sig_try_into_Some in Hsg as [-> _].
      unfold ks_verify, get_pubkey. destruct (pub_keys ks !! leader) as [k|] eqn:Hk; [|done].
      destruct (ed_verify k _ s) eqn:Hv; [|done]. simpl negb. cbv iota.
      destruct (forallb _ (pb_qc b)) eqn:Hall; [|done]. simpl negb. cbv iota. intros [= <-].
      repeat split; simpl; try done.
      - unfold is_signed. by rewrite Hsig.
      - intros s' Hs'. rewrite Hsig in Hs'. simplify_eq. eauto.
      - apply Hqc. rewrite forallb_forall in Hall. apply Hall. by apply list_elem_of_In.
      - apply Hqc. rewrite forallb_forall in Hall. apply Hall. by apply list_elem_of_In. }
  all: destruct (pb_qc b) as [|q l] eqn:Hq; [|done]; intros [= <-]; simpl.
  all: split_and!; try done; rewrite ?Hq, ?Hsig; try done; intros q Hin; by apply not_elem_of_nil in Hin.
Qed.

Lemma verify_block_sound_witness :
  let C := toy_codec (nascent toy_block) in let Ed := toy_ed in
  cb_ser (mkCached toy_block (replicate 64 Byte.x01 ++ zeros 64 ++ [Byte.x2a])
            (take 64 ([Byte.x2a] ++ zeros 64))) = replicate 64 Byte.x01 ++ zeros 64 ++ [Byte.x2a].
Proof.
  intros C Ed.
  refine (proj1 (@verify_block_sound C Ed pirateship_features toy_keystore four_nodes 3
           (replicate 64 Byte.x01 ++ zeros 64 ++ [Byte.x2a]) _ toy_ed_batch _)).
  vm_compute; reflexivity.
Defined.

(** A verified block stored and read back by hash is the same cached block, and a
    reply that the check accepts is the stored serialization unless SHA-512 collides. *)
Lemma storage_readback `{Codec, Ed25519} (feat : Features) (ks : KeyStore) (c : ConsensusConfig)
    (min_qc_len : Z) (ser ser' : bytes) (cb cb' : CachedBlock) :
  verify_block_ser feat ks c min_qc_len ser = Some (inr cb) →
  check_block_ser (cb_hash cb) (Some (inr ser)) = Some (inr cb) ∧
  ((sha512 (hash_input ser) = sha512 (hash_input ser') → ser = ser') →
   check_block_ser (cb_hash cb) (Some (inr ser')) = Some (inr cb') → cb' = cb).
Proof.
  intros Hv.
  assert (deserialize_proto_block ser = Some (inr (cb_block cb)) ∧
          hash_proto_block_ser ser = Some (cb_hash cb) ∧ cb_ser cb = ser) as (Hd & Hh & Hs).
  { revert Hv. unfold verify_block_ser.
    destruct (deserialize_proto_block ser) as [[|b]|]; [by destruct (hash_proto_block_ser ser)| |done].
    destruct (hash_proto_block_ser ser) as [h|]; [|done]. cbn [mbind option_bind].
    destruct (get_leader_for_view feat c (pb_view b)) as [leader|]; cbn [mbind option_bind];
      by repeat (case_match; try done); intros; simplify_eq/=. }
  assert (∀ x, check_block_ser (cb_hash cb) (Some (inr x)) = Some (inr cb') →
            hash_proto_block_ser x = Some (cb_hash cb)) as Hchk.
  { intros x. unfold check_block_ser. destruct (hash_proto_block_ser x) as [h|]; [|done].
    cbn [mbind option_bind]. destruct (bool_decide_reflect (h = cb_hash cb)); [by subst|done]. }
  assert (check_block_ser (cb_hash cb) (Some (inr ser)) = Some (inr cb)) as Hown.
  { unfold check_block_ser. rewrite Hh, Hd. cbn [mbind option_bind].
    rewrite bool_decide_true by done. simpl. destruct cb; simpl in *. by subst. }
  split; [done|]. intros Hcf Hc'. enough (ser = ser') as <- by congruence.
  apply Hcf. apply Hchk in Hc'. unfold hash_proto_block_ser in Hh, Hc'.
  repeat case_match; simplify_eq. congruence.
Qed.

(** A view-change message signed by a node is accepted under that node's name, and
    the signature binds everything signed: an accepted message with the same signature
    buffer has the same last block hash, view, configuration and last sequence number. *)
Lemma vc_sign_verify `{Codec, Ed25519} (ks ks' : KeyStore) (name : string) (pk : PubKey)
    (vc vc' : ProtoViewChange) (buf : bytes) :
  pub_keys ks' !! name = Some pk →
  (∀ m, ed_verify pk m (ed_sign (priv_key ks) m) = true
        ∧ length (ed_sign (priv_key ks) m) = SIGNATURE_LENGTH) →
  (∀ m, length (sha512 m) = DIGEST_LENGTH) →
  u64_range (vc_view vc) → u64_range (vc_config_num vc) → u64_range (vc_fork_last_n vc) →
  u64_range (vc_view vc') → u64_range (vc_config_num vc') → u64_range (vc_fork_last_n vc') →
  vc_sign_payload vc = Some buf →
  (∃ vc1, prepare_vc ks vc = Some vc1 ∧ verify_vc ks' vc1 name = Some true) ∧
  (vc_sign_payload vc' = Some buf →
     vc_view vc' = vc_view vc ∧ vc_config_num vc' = vc_config_num vc ∧
     vc_fork_last_n vc' = vc_fork_last_n vc).
Proof.
  intros Hpk Hed Hsha Hv1 Hc1 Hn1 Hv2 Hc2 Hn2 Hbuf. split.
  - unfold prepare_vc. rewrite Hbuf. cbn [mbind option_bind]. eexists; split; [done|].
    unfold verify_vc.
    change (vc_sign_payload (mkVC _ _ _ _ _ _)) with (vc_sign_payload vc). rewrite Hbuf.
    cbn [mbind option_bind vc_fork_sig]. destruct (Hed buf) as [Hv Hl].
    rewrite sig_try_into_ok by done. cbn [mbind option_bind].
    unfold ks_verify, get_pubkey, ks_sign. by rewrite Hpk, Hv.
  - assert (∀ v x, vc_sign_payload v = Some x → ∃ pre, length pre = 128%nat ∧
      x = pre ++ be_bytes 8 (vc_view v) ++ be_bytes 8 (vc_config_num v) ++ be_bytes 8 (vc_fork_last_n v)) as Hshape.
    { intros v x Hx. unfold vc_sign_payload in Hx. revert Hx.
      match goal with |- context [ (?o ≫= _) ] => set (oh := o) end.
      destruct oh as [lh|] eqn:Hoh; [|done]. cbn [mbind option_bind]. intros [= <-].
      rewrite app_assoc. eexists; split; [|done]. rewrite length_app.
      assert (length lh = 64%nat) as ->.
      { subst oh. unfold hash_proto_block_ser in Hoh. repeat case_match; simplify_eq; done || apply Hsha. }
      by destruct (vc_fork_last_qc v); rewrite ?Hsha. }
    intros Hbuf'. destruct (Hshape _ _ Hbuf) as (p1 & Hl1 & E1), (Hshape _ _ Hbuf') as (p2 & Hl2 & E2).
    rewrite E1 in E2. apply app_inj_1 in E2 as [_ E2]; [|lia].
    apply app_inj_1 in E2 as [Ev E2]; [|by rewrite !length_be_bytes].
    apply app_inj_1 in E2 as [Ec En]; [|by rewrite !length_be_bytes].
    assert (∀ a b, u64_range a → u64_range b → be_bytes 8 a = be_bytes 8 b → b = a) as Hinj.
    { intros a b Ha Hb E. apply (f_equal from_be) in E. rewrite !from_be_be_bytes in E.
      change (256 ^ Z.of_nat 8) with (2 ^ 64) in E. unfold u64_range in *.
      rewrite !Z.mod_small in E by done. done. }
    auto.
Qed.

Lemma vc_sign_verify_witness :
  let C := toy_codec (nascent toy_block) in let Ed := toy_ed in
  let vc := mkVC 4 1 None [] 9 None in
  ∃ vc1, prepare_vc toy_keystore vc = Some vc1 ∧ verify_vc toy_keystore vc1 "node2" = Some true.
Proof.
  intros C Ed vc.
  refine (proj1 (@vc_sign_verify C Ed toy_keystore toy_keystore "node2"%string "k2"%string vc vc
           (zeros 128 ++ be_bytes 8 4 ++ be_bytes 8 1 ++ be_bytes 8 9) eq_refl (λ m, conj eq_refl eq_refl)
           _ _ _ _ _ _ _ _)); try done.
  intros m. cbn [sha512 C toy_codec]. rewrite length_take, length_app, length_zeros.
  unfold DIGEST_LENGTH. lia.
Defined.

(** Certificate verification counts entries, not signers, and checks signatures of
    the digest only: one node's signature repeated [k] times passes as a certificate of
    size [k], whatever sequence number and view the certificate states. *)
Lemma qc_counts_entries `{Codec, Ed25519} (ks : KeyStore) (name : string) (pk : PubKey)
    (sig d : bytes) (k : nat) (n v : Z) :
  pub_keys ks !! name = Some pk → length sig = SIGNATURE_LENGTH →
  ed_verify_batch (replicate k d) (replicate k sig) (replicate k pk) = true →
  verify_qc ks (mkQC d n (replicate k (mkNameSig name sig)) v) (Z.of_nat k) = true.
Proof.
  intros Hpk Hlen Hb. apply verify_qc_true. exists (replicate k pk). cbn [qc_sig qc_digest].
  split_and!.
  - clear Hb. induction k; simpl; constructor; auto.
  - by apply Forall_replicate.
  - by rewrite length_replicate.
  - rewrite length_replicate. change (map ns_sig ?l) with (ns_sig <$> l). by rewrite fmap_replicate.
Qed.

Lemma qc_counts_entries_witness :
  let C := toy_codec (nascent toy_block) in let Ed := toy_ed in
  verify_qc toy_keystore
    (mkQC (zeros 64) 17 (replicate 3 (mkNameSig "node4" (replicate 64 Byte.x01))) 99) 3 = true.
Proof.
  intros C Ed.
  exact (@qc_counts_entries C Ed toy_keystore "node4" "k4"%string (replicate 64 Byte.x01) (zeros 64) 3 17 99
           eq_refl eq_refl eq_refl).
Defined.

(** Malformed bytes from the network abort the verifying worker instead of being
    reported as a decode error: bytes shorter than the two fixed fields fail the slice of
    the hash, and a body that does not decode fails an [unwrap]. *)
Lemma malformed_block_aborts `{Codec, Ed25519} (feat : Features) (ks : KeyStore) (c : ConsensusConfig)
    (min_qc_len : Z) (ser : bytes) :
  (length ser < DIGEST_LENGTH + SIGNATURE_LENGTH)%nat
    ∨ decode_block (drop (DIGEST_LENGTH + SIGNATURE_LENGTH) ser) = None →
  verify_block_ser feat ks c min_qc_len ser = None.
Proof.
  unfold verify_block_ser, deserialize_proto_block, hash_proto_block_ser.
  destruct (Nat.ltb_spec (length ser) (DIGEST_LENGTH + SIGNATURE_LENGTH)); [done|].
  intros [?|Hd]; [lia|]. by rewrite Hd.
Qed.
