(* ===== verification/Chain.v ===== *)
(** Hash chains of blocks: the shape every log of the system has (the pending queue of
    staging, the committed prefix, the log of the log server, the fork of a view-change
    message).  [chain k p l]: the blocks of [l] have sequence numbers k+1, k+2, ... and
    each points to the hash of the one before it, the first to [p] when [p] is known. *)

From stdpp Require Import base numbers list gmap strings option.
From S2P Require Import Prelude Types Serialize.

Abbreviation cb_n b := (pb_n (cb_block b)).
Abbreviation cb_parent b := (pb_parent (cb_block b)).

Fixpoint chain (k : Z) (prev : option HashType) (l : list CachedBlock) : Prop :=
  match l with
  | [] => True
  | b :: l' =>
      cb_n b = k + 1 ∧ (∀ h, prev = Some h → cb_parent b = h) ∧ chain (k + 1) (Some (cb_hash b)) l'
  end.

(** The hash and sequence number a block following [l] must extend. *)
Definition tip_hash (prev : option HashType) (l : list CachedBlock) : option HashType :=
  match list.last l with Some b => Some (cb_hash b) | None => prev end.
Definition tip_n (k : Z) (l : list CachedBlock) : Z := k + Z.of_nat (length l).

(** A cached block agrees with its serialization. *)
Definition cb_wf `{Codec} (b : CachedBlock) : Prop :=
  hash_proto_block_ser (cb_ser b) = Some (cb_hash b) ∧
  get_parent_hash_in_proto_block_ser (cb_ser b) = Some (cb_parent b).

Section chain.
Implicit Types l : list CachedBlock.

Lemma tip_hash_cons p b l : tip_hash p (b :: l) = tip_hash (Some (cb_hash b)) l.
Proof. unfold tip_hash. destruct l; simpl; [done|]. by destruct (list.last (c :: l)) eqn:E; [|by apply last_None in E]. Qed.

Lemma tip_n_cons k b l : tip_n k (b :: l) = tip_n (k + 1) l.
Proof. unfold tip_n. cbn [length]. lia. Qed.

Lemma chain_app k p l1 l2 :
  chain k p (l1 ++ l2) ↔ chain k p l1 ∧ chain (tip_n k l1) (tip_hash p l1) l2.
Proof.
  revert k p. induction l1 as [|b l1 IH]; intros k p; simpl.
  - unfold tip_n, tip_hash. simpl. rewrite Z.add_0_r. tauto.
  - rewrite IH, tip_hash_cons, tip_n_cons. tauto.
Qed.

Lemma chain_lookup k p l i b : chain k p l → l !! i = Some b → cb_n b = k + 1 + Z.of_nat i.
Proof.
  revert k p i. induction l as [|b' l IH]; intros k p i Hc Hi; [done|].
  destruct Hc as (Hn & _ & Hc). destruct i as [|i]; simpl in Hi; simplify_eq; [lia|].
  rewrite (IH _ _ _ Hc Hi). lia.
Qed.

Lemma chain_elem_n k p l b : chain k p l → b ∈ l → k < cb_n b ≤ tip_n k l.
Proof.
  intros Hc [i Hi]%list_elem_of_lookup. rewrite (chain_lookup _ _ _ _ _ Hc Hi).
  apply lookup_lt_Some in Hi. unfold tip_n. lia.
Qed.

Lemma chain_link k p l i a b :
  chain k p l → l !! i = Some a → l !! S i = Some b → cb_parent b = cb_hash a.
Proof.
  revert k p i. induction l as [|b' l IH]; intros k p i Hc Ha Hb; [done|].
  destruct Hc as (_ & _ & Hc). destruct i as [|i]; simpl in *; simplify_eq; [|by eapply IH].
  destruct l as [|c l]; simpl in *; simplify_eq. by apply Hc.
Qed.

Lemma chain_increasing k p l : chain k p l → keys_increasing (λ b, cb_n b) l.
Proof.
  intros Hc i j a b Ha Hb Hij.
  rewrite (chain_lookup _ _ _ _ _ Hc Ha), (chain_lookup _ _ _ _ _ Hc Hb). lia.
Qed.

(** Sequences of entries that carry a block each (the queues attach votes to blocks). *)
Lemma chain_retain_le {A} (f : A → CachedBlock) k p (l : list A) m :
  chain k p (map f l) → retain (λ e, cb_n (f e) <=? m) l = take (Z.to_nat (m - k)) l.
Proof.
  revert k p. induction l as [|b l IH]; intros k p Hc; simpl; [by rewrite take_nil|].
  destruct Hc as (Hn & _ & Hc). destruct (Z.leb_spec (cb_n (f b)) m).
  - replace (Z.to_nat (m - k)) with (S (Z.to_nat (m - (k + 1)))) by lia. simpl. f_equal. by eapply IH.
  - replace (Z.to_nat (m - k)) with 0%nat by lia. simpl. apply (retain_none (λ e, cb_n (f e) <=? m)).
    intros x Hx. apply (list_elem_of_fmap_2 f) in Hx.
    pose proof (chain_elem_n _ _ _ _ Hc Hx). apply Z.leb_gt. lia.
Qed.

Lemma chain_retain_gt {A} (f : A → CachedBlock) k p (l : list A) m :
  chain k p (map f l) → retain (λ e, cb_n (f e) >? m) l = drop (Z.to_nat (m - k)) l.
Proof.
  revert k p. induction l as [|b l IH]; intros k p Hc; simpl; [by rewrite drop_nil|].
  destruct Hc as (Hn & _ & Hc). destruct (Z.gtb_spec (cb_n (f b)) m).
  - replace (Z.to_nat (m - k)) with 0%nat by lia. simpl. f_equal.
    apply (retain_all (λ e, cb_n (f e) >? m)). intros x Hx. apply (list_elem_of_fmap_2 f) in Hx.
    pose proof (chain_elem_n _ _ _ _ Hc Hx). apply Z.gtb_lt. lia.
  - replace (Z.to_nat (m - k)) with (S (Z.to_nat (m - (k + 1)))) by lia. simpl. by eapply IH.
Qed.

Lemma chain_take k p l i : chain k p l → chain k p (take i l).
Proof. intros Hc. rewrite <-(take_drop i l) in Hc. by apply chain_app in Hc as [? _]. Qed.

Lemma chain_drop k p l i : chain k p l → ∃ k' p', chain k' p' (drop i l).
Proof. intros Hc. rewrite <-(take_drop i l) in Hc. apply chain_app in Hc as [_ ?]. eauto. Qed.

(** The blocks of a chain in an interval of sequence numbers are consecutive. *)
Lemma chain_interval {A} (f : A → CachedBlock) k p (l : list A) a b :
  chain k p (map f l) →
  ∃ k' p', chain k' p' (map f (retain (λ e, (cb_n (f e) >? a) && (cb_n (f e) <=? b)) l)).
Proof.
  intros Hc. rewrite <-retain_retain, (chain_retain_gt f k p) by done.
  rewrite <-(firstn_skipn (Z.to_nat (a - k)) l), map_app in Hc. apply chain_app in Hc as [_ Hc].
  erewrite (chain_retain_le f) by exact Hc. rewrite <-firstn_map. eexists _, _. by apply chain_take.
Qed.

Lemma chain_snoc k p l b :
  chain k p (l ++ [b]) ↔
  chain k p l ∧ cb_n b = tip_n k l + 1 ∧ (∀ h, tip_hash p l = Some h → cb_parent b = h).
Proof. rewrite chain_app. simpl. tauto. Qed.

(** Two chains that end in the same block agree on every block both contain, unless two
    different blocks have the same hash. *)
Lemma chain_same_below k1 p1 l1 k2 p2 l2 i1 i2 a1 a2 :
  chain k1 p1 l1 → chain k2 p2 l2 →
  (∀ x y, x ∈ l1 → y ∈ l2 → cb_hash x = cb_hash y → x = y) →
  l1 !! i1 = Some a1 → l2 !! i2 = Some a2 → cb_hash a1 = cb_hash a2 →
  ∀ j b1 b2, (j ≤ i1)%nat → (j ≤ i2)%nat →
    l1 !! (i1 - j)%nat = Some b1 → l2 !! (i2 - j)%nat = Some b2 → b1 = b2.
Proof.
  intros Hc1 Hc2 Hinj H1 H2 Heq j. induction j as [|j IH]; intros b1 b2 Hj1 Hj2 Hb1 Hb2.
  - rewrite Nat.sub_0_r in Hb1, Hb2. simplify_eq.
    apply Hinj; [by eapply list_elem_of_lookup_2..|done].
  - destruct (lookup_lt_is_Some_2 l1 (i1 - j)) as [c1 Hd1]; [apply lookup_lt_Some in H1; lia|].
    destruct (lookup_lt_is_Some_2 l2 (i2 - j)) as [c2 Hd2]; [apply lookup_lt_Some in H2; lia|].
    assert (c1 = c2) as <- by (apply IH; [lia|lia|done|done]).
    apply Hinj; [by eapply list_elem_of_lookup_2..|].
    rewrite <-(chain_link _ _ _ (i1 - S j) b1 c1 Hc1); [|done|by rewrite <-Hd1; f_equal; lia].
    by rewrite <-(chain_link _ _ _ (i2 - S j) b2 c1 Hc2); [|done|rewrite <-Hd2; f_equal; lia].
Qed.

End chain.
