(* ===== verification/ForkChoice.v ===== *)
(** Fork choice of a new leader (src/src/consensus/staging/fork_choice.rs): summarising
    the forks of the view-change messages ([vc_to_stats]) and the four filter rules that
    select the fork to install.  A result [None] is a panic (a failed [unwrap] or an index
    out of range). *)

From stdpp Require Import base numbers list gmap strings option.
From S2P Require Import Prelude Types Config Serialize Chain.

(** view_change.rs *)
Record ForkStat := mkForkStat {
  fs_block_hashes : list HashType;
  fs_fork_last_n : Z;
  fs_first_n : Z;
  fs_first_parent : HashType;
  fs_last_qc : option ProtoQuorumCertificate;
  fs_last_view : Z;
  fs_last_config_num : Z }.

Abbreviation ForkStats := (gmap SenderType ForkStat).

Section fork_choice.
Context `{HashIter, Codec} (feat : Features).

(** The hashes of a fork: the parent fields of its blocks but the first, then the hash
    of its last block. *)
Definition fork_block_hashes (blocks : list HalfSerializedBlock) : option (list HashType) :=
  match list.last blocks with
  | None => Some []
  | Some lb =>
      last_hash ← hash_proto_block_ser (hs_body lb);
      parents ← mapM (λ b, get_parent_hash_in_proto_block_ser (hs_body b)) (tail blocks);
      Some (parents ++ [last_hash])
  end.

(** The body of the loop of [vc_to_stats]. *)
Definition vc_to_stat (vc : ProtoViewChange) : option ForkStat :=
  fork ← vc_fork vc;
  let blocks := serialized_blocks fork in
  block_hashes ← fork_block_hashes blocks;
  let '(last_view, last_config_num, last_n) :=
    match list.last blocks with
    | Some b => (hs_view b, hs_config_num b, hs_n b)
    | None => (0, 0, 0)
    end in
  Some (mkForkStat block_hashes last_n
          (match head blocks with Some b => hs_n b | None => 0 end)
          (match head blocks with
           | Some b => default default_hash (get_parent_hash_in_proto_block_ser (hs_body b))
           | None => default_hash
           end)
          (vc_fork_last_qc vc) last_view last_config_num).

Definition vc_to_stats (forks : gmap SenderType ProtoViewChange) : option ForkStats :=
  foldl (λ acc '(sender, vc),
           m ← acc; st ← vc_to_stat vc; Some (<[sender := st]> m))
    (Some ∅) (hm_iter forks).

(** Rule 1: highest view of the last QC. *)
Definition last_qc_view (f : ForkStat) : Z :=
  match fs_last_qc f with Some q => qc_view q | None => 0 end.

Definition fork_choice_filter_highest_qc_view (stats : ForkStats) : ForkStats :=
  let highest_qc_view := max_or 0 (map last_qc_view (hm_values stats)) in
  hm_retain (λ f,
    if highest_qc_view =? 0 then true
    else match fs_last_qc f with Some q => qc_view q =? highest_qc_view | None => false end) stats.

(** Rule 2 (feature fast_path).  The innermost loop: how many forks have [my_hash] at
    [block_n], and how many have each other hash there. *)
Fixpoint count_support (l : list ForkStat) (block_n : Z) (my_hash : HashType)
    (support : Z) (anti : gmap HashType Z) : option (Z * gmap HashType Z) :=
  match l with
  | [] => Some (support, anti)
  | other :: l' =>
      if fs_first_n other >? block_n then count_support l' block_n my_hash support anti
      else if fs_fork_last_n other <=? block_n then count_support l' block_n my_hash support anti
      else
        let idx := block_n ⊖ fs_first_n other in
        match fs_block_hashes other !! Z.to_nat idx with
        | None => None
        | Some h =>
            if bool_decide (h = my_hash)
            then count_support l' block_n my_hash (support + 1) anti
            else count_support l' block_n my_hash support
                   (<[h := match anti !! h with Some c => c + 1 | None => 1 end]> anti)
        end
  end.

(** The loop over the blocks of one fork, from index [i]: the last index that could have
    gone fast path stays in [best]. *)
Fixpoint fast_path_scan (all : list ForkStat) (thresh first_n : Z) (hashes : list HashType)
    (i : Z) (best : option Z) : option (option Z) :=
  match hashes with
  | [] => Some best
  | my_hash :: hashes' =>
      let block_n := first_n ⊕ i in
      match count_support all block_n my_hash 0 ∅ with
      | None => None
      | Some (support, anti) =>
          let ok := (thresh <=? support) && (max_or 0 (hm_values anti) <? thresh) in
          fast_path_scan all thresh first_n hashes' (i + 1) (if ok then Some block_n else best)
      end
  end.

(** The loop over the forks: [highest_fast_path_committed_forks]. *)
Fixpoint fast_path_table (all : list ForkStat) (thresh : Z) (l : list (SenderType * ForkStat))
    (acc : gmap SenderType Z) : option (gmap SenderType Z) :=
  match l with
  | [] => Some acc
  | (sender, stat) :: l' =>
      match fast_path_scan all thresh (fs_first_n stat) (fs_block_hashes stat) 0 None with
      | None => None
      | Some best =>
          fast_path_table all thresh l'
            (match best with Some v => <[sender := v]> acc | None => acc end)
      end
  end.

Definition qc_n_is (k : Z) (f : ForkStat) : bool :=
  match fs_last_qc f with Some q => qc_n q =? k | None => false end.

Definition fork_choice_filter_fast_path (stats : ForkStats) (thresh : Z) : option ForkStats :=
  let highest_qc_n :=
    max_or 0 (map (λ f, match fs_last_qc f with Some q => qc_n q | None => 0 end) (hm_values stats)) in
  let matching := Z.of_nat (length (List.filter (qc_n_is highest_qc_n) (hm_values stats))) in
  if matching <? thresh then Some stats
  else
    table ← fast_path_table (hm_values stats) thresh (hm_iter stats) ∅;
    let max_index := max_or 0 (hm_values table) in
    let applicable := map fst (List.filter (λ kv, max_index <=? kv.2) (hm_iter table)) in
    Some (filter (λ kv, kv.1 ∈ applicable) stats).

(** Rule 3: highest view of the last block; rule 4: longest fork. *)
Definition fork_choice_filter_highest_view (stats : ForkStats) : ForkStats :=
  let highest_view := max_or 0 (map fs_last_view (hm_values stats)) in
  hm_retain (λ f, fs_last_view f =? highest_view) stats.

Definition fork_choice_filter_highest_len (stats : ForkStats) : ForkStats :=
  let highest_len := max_or 0 (map fs_fork_last_n (hm_values stats)) in
  hm_retain (λ f, fs_fork_last_n f =? highest_len) stats.

(** [fork_choice_filter]: the stats left (mutated in place) and the senders returned. *)
Definition fork_choice_filter (stats : ForkStats) (thresh : Z) : option (list SenderType * ForkStats) :=
  let s1 := fork_choice_filter_highest_qc_view stats in
  s2 ← (if fast_path feat then fork_choice_filter_fast_path s1 thresh else Some s1);
  let s3 := fork_choice_filter_highest_view s2 in
  let s4 := fork_choice_filter_highest_len s3 in
  Some (hm_keys s4, s4).

Definition fork_choice_filter_from_forks (c : ConsensusConfig) (forks : gmap SenderType ProtoViewChange)
    (stats : ForkStats) : option (list ProtoViewChange) :=
  '(applicable_senders, _) ← fork_choice_filter stats (fast_path_selection_threshold c);
  mapM (λ s, forks !! s) applicable_senders.

(** * Lemmas on the filters *)

Definition is_max {A} (key : A → Z) (m : gmap SenderType A) (f : A) : Prop :=
  ∀ k' f', m !! k' = Some f' → key f' ≤ key f.

Lemma retain_max_spec {A} (key : A → Z) (m : gmap SenderType A) k f :
  hm_retain (λ f, key f =? max_or 0 (map key (hm_values m))) m !! k = Some f ↔
  m !! k = Some f ∧ is_max key m f.
Proof.
  rewrite lookup_hm_retain, Z.eqb_eq. split; intros [Hk Hmax]; (split; [done|]).
  - intros k' f' Hk'. rewrite Hmax. by eapply max_values_ge.
  - destruct (max_values_elem key m 0) as (k' & f' & Hk' & Hf').
    { intros ->. by rewrite lookup_empty in Hk. }
    pose proof (max_values_ge key m 0 k f Hk). specialize (Hmax k' f' Hk'). lia.
Qed.

Lemma retain_max_nonempty {A} (key : A → Z) (m : gmap SenderType A) :
  m ≠ ∅ → hm_retain (λ f, key f =? max_or 0 (map key (hm_values m))) m ≠ ∅.
Proof.
  intros Hm. destruct (max_values_elem key m 0 Hm) as (k & f & Hk & Hf).
  assert (hm_retain (λ f, key f =? max_or 0 (map key (hm_values m))) m !! k = Some f) as Hl.
  { apply lookup_hm_retain. by rewrite Z.eqb_eq. }
  intros He. by rewrite He, lookup_empty in Hl.
Qed.

Lemma highest_qc_view_spec (m : ForkStats) k f :
  (∀ k f, m !! k = Some f → 0 ≤ last_qc_view f) →
  fork_choice_filter_highest_qc_view m !! k = Some f ↔
  m !! k = Some f ∧ is_max last_qc_view m f.
Proof.
  intros Hpos. unfold fork_choice_filter_highest_qc_view.
  rewrite <-retain_max_spec, !lookup_hm_retain.
  set (hi := max_or 0 (map last_qc_view (hm_values m))).
  split; intros [Hk Ht]; (split; [done|]); unfold last_qc_view in *.
  - destruct (Z.eqb_spec hi 0) as [Hz|].
    + pose proof (max_values_ge last_qc_view m 0 k f Hk) as Hle. specialize (Hpos k f Hk).
      unfold last_qc_view in Hle. apply Z.eqb_eq. subst hi. unfold last_qc_view in Hz. lia.
    + by destruct (fs_last_qc f).
  - destruct (Z.eqb_spec hi 0) as [Hz|Hne]; [done|].
    destruct (fs_last_qc f); [done|]. apply Z.eqb_eq in Ht. congruence.
Qed.

Lemma highest_qc_view_nonempty (m : ForkStats) :
  (∀ k f, m !! k = Some f → 0 ≤ last_qc_view f) →
  m ≠ ∅ → fork_choice_filter_highest_qc_view m ≠ ∅.
Proof.
  intros Hpos Hm He. apply (retain_max_nonempty last_qc_view m Hm), map_eq. intros k.
  rewrite lookup_empty. destruct (hm_retain _ m !! k) as [f|] eqn:Hk; [|done].
  apply retain_max_spec in Hk. apply highest_qc_view_spec in Hk; [|done].
  by rewrite He, lookup_empty in Hk.
Qed.

Lemma hm_keys_nonempty {A} (m : gmap SenderType A) : m ≠ ∅ → hm_keys m ≠ [].
Proof.
  intros Hm Hk. apply Hm, map_eq. intros k. rewrite lookup_empty.
  destruct (m !! k) as [a|] eqn:Ha; [|done].
  assert (k ∈ hm_keys m) as Hin by (apply elem_of_hm_keys; eauto).
  rewrite Hk in Hin. by apply not_elem_of_nil in Hin.
Qed.

(** [vc_to_stats] summarises every fork, under its sender. *)
Lemma vc_to_stats_foldl (l : list (SenderType * ProtoViewChange)) (m0 m : ForkStats) :
  NoDup l.*1 →
  foldl (λ acc '(sender, vc), m ← acc; st ← vc_to_stat vc; Some (<[sender := st]> m)) (Some m0) l = Some m →
  ∀ s, m !! s = match list_to_map (M := gmap SenderType ProtoViewChange) l !! s with
                | Some vc => vc_to_stat vc
                | None => m0 !! s
                end.
Proof.
  revert m0. induction l as [|[s0 vc] l IH]; intros m0 Hnd Hf s; simpl in *.
  { simplify_eq. by rewrite lookup_empty. }
  inversion_clear Hnd as [|?? Hnot Hnd'].
  destruct (vc_to_stat vc) as [st|] eqn:Hst; simpl in Hf.
  - rewrite (IH _ Hnd' Hf s). destruct (decide (s = s0)) as [->|Hne].
    + rewrite !lookup_insert_eq, not_elem_of_list_to_map_1 by done. by rewrite Hst.
    + by rewrite !lookup_insert_ne by done.
  - exfalso. clear -Hf. induction l as [|[s1 v1] l IHl]; simpl in *; [done|auto].
Qed.

Lemma vc_to_stats_lookup (forks : gmap SenderType ProtoViewChange) (m : ForkStats) :
  vc_to_stats forks = Some m → ∀ s, m !! s = forks !! s ≫= vc_to_stat.
Proof.
  intros Hm s. unfold vc_to_stats in Hm.
  rewrite (vc_to_stats_foldl _ _ _ (NoDup_hm_keys forks) Hm s), lookup_empty.
  enough (list_to_map (M := gmap SenderType ProtoViewChange) (hm_iter forks) !! s = forks !! s) as ->
    by by destruct (forks !! s).
  rewrite <-(list_to_map_to_list forks) at 2. f_equal.
  apply list_to_map_proper; [apply NoDup_hm_keys|apply hm_iter_perm].
Qed.

(** Every summary is defined when every message has a fork of well-formed blocks. *)
Lemma vc_to_stats_total (forks : gmap SenderType ProtoViewChange) :
  (∀ s vc, forks !! s = Some vc → is_Some (vc_to_stat vc)) → is_Some (vc_to_stats forks).
Proof.
  intros Hall. unfold vc_to_stats.
  assert (∀ s vc, (s, vc) ∈ hm_iter forks → is_Some (vc_to_stat vc)) as Hl.
  { intros s vc Hin. apply elem_of_hm_iter in Hin. eauto. }
  revert Hl. generalize (∅ : ForkStats). generalize (hm_iter forks) as l.
  induction l as [|[s vc] l IH]; intros m0 Hl; simpl; [eauto|].
  destruct (Hl s vc) as [st ->]; [left|]. simpl. apply IH. intros s' vc' Hin. eapply Hl. by right.
Qed.

(** * Lemmas on the fast-path rule *)

(** The hash a fork has at a sequence number. *)
Definition hash_at (st : ForkStat) (n : Z) : option HashType :=
  if fs_first_n st <=? n then fs_block_hashes st !! Z.to_nat (n - fs_first_n st) else None.

(** What [count_support] counts: [st] has [h] at [n], below its last block. *)
Definition supports (n : Z) (h : HashType) (st : ForkStat) : bool :=
  (n <? fs_fork_last_n st) && bool_decide (hash_at st n = Some h).

Definition nsup (l : list ForkStat) (n : Z) (h : HashType) : Z :=
  Z.of_nat (length (List.filter (supports n h) l)).

(** The header of a fork agrees with the number of its blocks. *)
Definition stat_wf (st : ForkStat) : Prop :=
  0 ≤ fs_first_n st ∧ fs_fork_last_n st - fs_first_n st ≤ Z.of_nat (length (fs_block_hashes st)) ∧
  fs_fork_last_n st < 2 ^ 64 ∧ fs_first_n st + Z.of_nat (length (fs_block_hashes st)) ≤ 2 ^ 64.

Definition could_fast (all : list ForkStat) (thresh n : Z) (h : HashType) : Prop :=
  thresh ≤ nsup all n h ∧ ∀ h', h' ≠ h → nsup all n h' < thresh.

Lemma nsup_cons st l n h : nsup (st :: l) n h = (if supports n h st then 1 else 0) + nsup l n h.
Proof. unfold nsup. simpl. destruct (supports n h st); cbn [length]; lia. Qed.

Lemma count_support_spec l n my sup anti :
  Forall stat_wf l → 0 ≤ n →
  ∃ sup' anti', count_support l n my sup anti = Some (sup', anti') ∧
    sup' = sup + nsup l n my ∧
    (∀ h, h ≠ my → default 0 (anti' !! h) = default 0 (anti !! h) + nsup l n h) ∧
    anti' !! my = anti !! my.
Proof.
  intros Hwf Hn. revert sup anti. induction Hwf as [|st l Hst Hwf IH]; intros sup anti; cbn [count_support].
  { exists sup, anti. unfold nsup. simpl. repeat split; [lia|]. intros. lia. }
  destruct Hst as (Hf0 & Hlen & Hlt & _).
  assert (∀ h, supports n h st = true → fs_first_n st ≤ n < fs_fork_last_n st) as Hsup.
  { intros h Hs. unfold supports, hash_at in Hs. bool_to_prop.
    destruct (Z.leb_spec (fs_first_n st) n); [lia|done]. }
  assert (∀ h, ¬ (fs_first_n st ≤ n < fs_fork_last_n st) → supports n h st = false) as Hno.
  { intros h Hn'. destruct (supports n h st) eqn:E; [|done]. by apply Hsup in E. }
  setoid_rewrite nsup_cons.
  destruct (Z.gtb_spec (fs_first_n st) n).
  { setoid_rewrite Hno; [|lia..]. setoid_rewrite Z.add_0_l. apply IH. }
  destruct (Z.leb_spec (fs_fork_last_n st) n).
  { setoid_rewrite Hno; [|lia..]. setoid_rewrite Z.add_0_l. apply IH. }
  rewrite u64_sub_small by lia.
  destruct (lookup_lt_is_Some_2 (fs_block_hashes st) (Z.to_nat (n - fs_first_n st))) as [h Hh]; [lia|].
  assert (∀ h', supports n h' st = bool_decide (h = h')) as Hs.
  { intros h'. unfold supports, hash_at. rewrite Hh.
    destruct (Z.leb_spec (fs_first_n st) n); [|lia].
    destruct (Z.ltb_spec n (fs_fork_last_n st)); [|lia]. simpl. apply bool_decide_ext. split; congruence. }
  rewrite Hh. setoid_rewrite Hs.
  destruct (bool_decide_reflect (h = my)) as [->|Hne].
  - destruct (IH (sup + 1) anti) as (sup' & anti' & E & E1 & E2 & E3). exists sup', anti'.
    split; [done|]. split; [lia|]. split; [|done]. intros h' Hh'. rewrite E2 by done.
    rewrite bool_decide_false by done. lia.
  - edestruct (IH sup) as (sup' & anti' & E & E1 & E2 & E3). exists sup', anti'.
    split; [exact E|]. split; [lia|]. split.
    + intros h' Hh'. rewrite E2 by done. destruct (bool_decide_reflect (h = h')) as [->|].
      * rewrite lookup_insert_eq. destruct (anti !! h'); simpl; lia.
      * by rewrite lookup_insert_ne by done.
    + rewrite E3. by rewrite lookup_insert_ne by done.
Qed.

(** The test of the loop is [could_fast]. *)
Lemma fast_test_spec l n my thresh sup anti :
  Forall stat_wf l → 0 ≤ n → 1 ≤ thresh →
  count_support l n my 0 ∅ = Some (sup, anti) →
  (thresh <=? sup) && (max_or 0 (hm_values anti) <? thresh) = true ↔ could_fast l thresh n my.
Proof.
  intros Hwf Hn Ht Hc.
  destruct (count_support_spec l n my 0 ∅ Hwf Hn) as (sup' & anti' & E & E1 & E2 & E3).
  rewrite Hc in E. simplify_eq. rewrite lookup_empty in E3. setoid_rewrite lookup_empty in E2. simpl in E2.
  rewrite andb_true_iff, Z.leb_le, Z.ltb_lt. unfold could_fast. split; intros [Hs Ha]; (split; [lia|]).
  - intros h' Hne. rewrite <-(Z.add_0_l (nsup l n h')), <-E2 by done.
    destruct (anti' !! h') as [c|] eqn:Hh; simpl; [|lia].
    enough (c ≤ max_or 0 (hm_values anti')) by lia. apply max_or_ge, elem_of_hm_values. eauto.
  - destruct (hm_values anti') as [|x xs] eqn:Hv; [simpl; lia|].
    assert (max_or 0 (x :: xs) ∈ hm_values anti') as Hin by (rewrite Hv; by apply max_or_elem).
    apply elem_of_hm_values in Hin as [h Hh].
    destruct (decide (h = my)) as [->|Hne]; [congruence|].
    specialize (E2 h Hne). rewrite Hh in E2. cbn [default from_option id] in E2. specialize (Ha h Hne). lia.
Qed.

Lemma fast_path_scan_spec all thresh first hashes i best :
  Forall stat_wf all → 1 ≤ thresh → 0 ≤ first → 0 ≤ i →
  first + i + Z.of_nat (length hashes) ≤ 2 ^ 64 →
  (∀ w, best = Some w → w < first + i) →
  ∃ r, fast_path_scan all thresh first hashes i best = Some r ∧
    (∀ v, r = Some v → best = Some v ∨ ∃ j h, hashes !! j = Some h ∧
       v = first + i + Z.of_nat j ∧ could_fast all thresh v h) ∧
    (∀ w, best = Some w → ∃ v, r = Some v ∧ w ≤ v) ∧
    (∀ j h, hashes !! j = Some h → could_fast all thresh (first + i + Z.of_nat j) h →
       ∃ v, r = Some v ∧ first + i + Z.of_nat j ≤ v).
Proof.
  intros Hwf Ht Hf. revert i best. induction hashes as [|h hs IH]; intros i best Hi Hb Hbest;
    cbn [fast_path_scan length] in *.
  { exists best. split; [done|]. split; [auto|]. split; [|done]. intros w ->. exists w. split; [done|lia]. }
  rewrite u64_add_small by lia.
  destruct (count_support_spec all (first + i) h 0 ∅ Hwf) as (sup & anti & E & _); [lia|].
  pose proof (fast_test_spec all (first + i) h thresh sup anti Hwf ltac:(lia) Ht E) as Htest.
  rewrite E. destruct ((thresh <=? sup) && (max_or 0 (hm_values anti) <? thresh)) eqn:Hok.
  - destruct (IH (i + 1) (Some (first + i))) as (r & Hr & R1 & R2 & R3); [lia..| |].
    { intros w [= <-]. lia. }
    destruct (R2 (first + i) eq_refl) as (v & -> & Hv).
    exists (Some v). split; [done|]. split_and!.
    + intros v' [= <-]. right. destruct (R1 v eq_refl) as [[= <-]|(j & h' & Hj & Ev & Hc)].
      * exists 0%nat, h. split; [done|]. split; [lia|]. by apply Htest.
      * exists (S j), h'. split; [done|]. split; [lia|done].
    + intros w Hw. exists v. split; [done|]. apply Hbest in Hw. lia.
    + intros [|j] h' Hj Hc; simpl in Hj; simplify_eq; [exists v; split; [done|lia]|].
      destruct (R3 j h' Hj) as (v' & [= <-] & Hle).
      { by replace (first + (i + 1) + Z.of_nat j) with (first + i + Z.of_nat (S j)) by lia. }
      exists v. split; [done|lia].
  - destruct (IH (i + 1) best) as (r & Hr & R1 & R2 & R3); [lia..| |].
    { intros w Hw. apply Hbest in Hw. lia. }
    exists r. split; [done|]. split_and!; [|done|].
    + intros v Hv. destruct (R1 v Hv) as [?|(j & h' & Hj & Ev & Hc)]; [by left|right].
      exists (S j), h'. split; [done|]. split; [lia|done].
    + intros [|j] h' Hj Hc; simpl in Hj; simplify_eq.
      { rewrite Z.add_0_r in Hc. apply Htest in Hc. done. }
      destruct (R3 j h' Hj) as (v' & -> & Hle).
      { by replace (first + (i + 1) + Z.of_nat j) with (first + i + Z.of_nat (S j)) by lia. }
      exists v'. split; [done|lia].
Qed.

(** The best fast-path index of one fork. *)
Definition fast_best (all : list ForkStat) (thresh : Z) (st : ForkStat) : option Z :=
  default None (fast_path_scan all thresh (fs_first_n st) (fs_block_hashes st) 0 None).

Lemma fast_best_spec all thresh st :
  Forall stat_wf all → 1 ≤ thresh → stat_wf st →
  fast_path_scan all thresh (fs_first_n st) (fs_block_hashes st) 0 None = Some (fast_best all thresh st) ∧
  (∀ v, fast_best all thresh st = Some v → ∃ h, hash_at st v = Some h ∧ fs_first_n st ≤ v ∧
     could_fast all thresh v h) ∧
  (∀ n h, hash_at st n = Some h → could_fast all thresh n h →
     ∃ v, fast_best all thresh st = Some v ∧ n ≤ v).
Proof.
  intros Hwf Ht (Hf & Hlen & Hl & Hsum). unfold fast_best.
  destruct (fast_path_scan_spec all thresh (fs_first_n st) (fs_block_hashes st) 0 None)
    as (r & -> & R1 & _ & R3); [done..|lia|done|]. cbn [default from_option id]. split; [done|]. split.
  - intros v Hv. destruct (R1 v Hv) as [?|(j & h & Hj & -> & Hc)]; [done|].
    exists h. split; [|split; [lia|done]]. unfold hash_at.
    destruct (Z.leb_spec (fs_first_n st) (fs_first_n st + 0 + Z.of_nat j)); [|lia].
    rewrite <-Hj. f_equal. lia.
  - intros n h Hh Hc. unfold hash_at in Hh. destruct (Z.leb_spec (fs_first_n st) n); [|done].
    destruct (R3 _ h Hh) as (v & Hv & Hle).
    + by replace (fs_first_n st + 0 + Z.of_nat (Z.to_nat (n - fs_first_n st))) with n by lia.
    + exists v. split; [done|lia].
Qed.

Lemma fast_path_table_spec all thresh l acc :
  Forall stat_wf all → 1 ≤ thresh → Forall (λ kv, stat_wf kv.2) l → NoDup l.*1 →
  ∃ table, fast_path_table all thresh l acc = Some table ∧
    ∀ s, table !! s = match list_to_map (M := ForkStats) l !! s with
                      | Some st => match fast_best all thresh st with Some v => Some v | None => acc !! s end
                      | None => acc !! s
                      end.
Proof.
  intros Hwf Ht Hl. revert acc. induction Hl as [|[s0 st] l Hst Hl IH]; intros acc Hnd; cbn [fast_path_table].
  { exists acc. split; [done|]. intros s. cbn [list_to_map foldr]. by rewrite lookup_empty. }
  simpl in Hst, Hnd. inversion_clear Hnd as [|?? Hnot Hnd'].
  destruct (fast_best_spec all thresh st Hwf Ht Hst) as (-> & _).
  destruct (IH (match fast_best all thresh st with Some v => <[s0 := v]> acc | None => acc end) Hnd')
    as (table & -> & Htab).
  exists table. split; [done|]. intros s. rewrite Htab. simpl.
  destruct (decide (s = s0)) as [->|Hne].
  - rewrite lookup_insert_eq, not_elem_of_list_to_map_1 by done.
    destruct (fast_best all thresh st); [by rewrite lookup_insert_eq|done].
  - rewrite lookup_insert_ne by done.
    destruct (fast_best all thresh st); [by rewrite lookup_insert_ne|done].
Qed.

Lemma hm_iter_lookup (m : ForkStats) s : list_to_map (M := ForkStats) (hm_iter m) !! s = m !! s.
Proof.
  rewrite <-(list_to_map_to_list m) at 2. f_equal.
  apply list_to_map_proper; [apply NoDup_hm_keys|apply hm_iter_perm].
Qed.

Lemma stats_wf_lists (m : ForkStats) :
  (∀ s st, m !! s = Some st → stat_wf st) →
  Forall stat_wf (hm_values m) ∧ Forall (λ kv, stat_wf kv.2) (hm_iter m).
Proof.
  intros Hwf. split; apply Forall_forall.
  - intros st [s Hs]%list_elem_of_In%elem_of_hm_values. eauto.
  - intros [s st] Hin%list_elem_of_In. apply elem_of_hm_iter in Hin. simpl. eauto.
Qed.

Definition highest_qc_n (m : ForkStats) : Z :=
  max_or 0 (map (λ f, match fs_last_qc f with Some q => qc_n q | None => 0 end) (hm_values m)).
Definition qc_matching (m : ForkStats) : Z :=
  Z.of_nat (length (List.filter (qc_n_is (highest_qc_n m)) (hm_values m))).

(** What the fast-path rule keeps: when enough forks share the highest QC, the forks
    whose highest possibly-fast-committed block is the highest of all. *)
Lemma filter_fast_path_spec (m : ForkStats) (thresh : Z) :
  (∀ s st, m !! s = Some st → stat_wf st) → 1 ≤ thresh →
  ∃ m', fork_choice_filter_fast_path m thresh = Some m' ∧
    (qc_matching m < thresh → m' = m) ∧
    (thresh ≤ qc_matching m → ∀ s st, m' !! s = Some st ↔
       m !! s = Some st ∧ ∃ v, fast_best (hm_values m) thresh st = Some v ∧
         ∀ s' st' v', m !! s' = Some st' → fast_best (hm_values m) thresh st' = Some v' → v' ≤ v).
Proof.
  intros Hwf Ht. destruct (stats_wf_lists m Hwf) as [Hv Hi].
  unfold fork_choice_filter_fast_path. fold (highest_qc_n m). fold (qc_matching m).
  destruct (Z.ltb_spec (qc_matching m) thresh).
  { exists m. split; [done|]. split; [done|lia]. }
  destruct (fast_path_table_spec (hm_values m) thresh (hm_iter m) ∅ Hv Ht Hi (NoDup_hm_keys m))
    as (table & -> & Htab). cbn [mbind option_bind].
  eexists; split; [done|]. split; [lia|]. intros _ s st.
  assert (∀ s v, table !! s = Some v ↔ ∃ st, m !! s = Some st ∧ fast_best (hm_values m) thresh st = Some v) as HT.
  { intros s0 v. rewrite Htab, hm_iter_lookup, lookup_empty.
    destruct (m !! s0) as [st0|].
    - split; [|by intros (st1 & [= <-] & ->)].
      destruct (fast_best (hm_values m) thresh st0) eqn:E; intros [= <-]; eauto.
    - split; [done|]. by intros (st1 & ? & _). }
  assert (∀ s, s ∈ map fst (List.filter (λ kv, max_or 0 (hm_values table) <=? kv.2) (hm_iter table)) ↔
             ∃ v, table !! s = Some v ∧ max_or 0 (hm_values table) ≤ v) as Happ.
  { intros s0. change (map fst) with (fmap (M:=list) (@fst SenderType Z)). rewrite list_elem_of_fmap.
    setoid_rewrite (elem_of_retain (λ kv : SenderType * Z, max_or 0 (hm_values table) <=? kv.2)).
    split.
    - intros ([s1 v] & -> & Hle & Hin). apply elem_of_hm_iter in Hin. simpl in *. apply Z.leb_le in Hle. eauto.
    - intros (v & Hs & Hle). exists (s0, v). split; [done|]. split; [by apply Z.leb_le|by apply elem_of_hm_iter]. }
  rewrite map_lookup_filter_Some. cbn [fst]. rewrite Happ. split.
  - intros [Hs (v & Hts & Hle)]. split; [done|].
    apply HT in Hts as (st0 & Hs0 & Hb). simplify_eq. exists v. split; [done|].
    intros s' st' v' Hs' Hb'. enough (v' ≤ max_or 0 (hm_values table)) by lia.
    apply max_or_ge, elem_of_hm_values. exists s'. apply HT. eauto.
  - intros [Hs (v & Hb & Hmax)]. split; [done|].
    assert (table !! s = Some v) as Hts by (apply HT; eauto). exists v. split; [done|].
    assert (hm_values table ≠ []) as Hne.
    { apply hm_values_nonempty. intros He. by rewrite He, lookup_empty in Hts. }
    apply (max_or_elem 0) in Hne. apply elem_of_hm_values in Hne as [s' Hs'].
    apply HT in Hs' as (st' & Hm' & Hb'). eauto.
Qed.

(** Forks are hash chains: two forks that agree at a block agree below it. *)
Definition chains_agree (m : ForkStats) : Prop :=
  ∀ s1 s2 st1 st2 n h, m !! s1 = Some st1 → m !! s2 = Some st2 →
    hash_at st1 n = Some h → hash_at st2 n = Some h →
    ∀ k, k ≤ n → fs_first_n st1 ≤ k → fs_first_n st2 ≤ k → hash_at st1 k = hash_at st2 k.

Lemma hash_at_below st n h k :
  hash_at st n = Some h → fs_first_n st ≤ k ≤ n → is_Some (hash_at st k).
Proof.
  unfold hash_at. intros Hn Hk. destruct (Z.leb_spec (fs_first_n st) k); [|lia].
  destruct (Z.leb_spec (fs_first_n st) n); [|lia].
  apply lookup_lt_Some in Hn. apply lookup_lt_is_Some_2. lia.
Qed.

Lemma nsup_mono l n h k g :
  (∀ st, st ∈ l → supports n h st = true → supports k g st = true) → nsup l n h ≤ nsup l k g.
Proof.
  induction l as [|st l IH]; intros Hs; [done|]. rewrite !nsup_cons.
  assert (nsup l n h ≤ nsup l k g) by (apply IH; intros; apply Hs; [by right|done]).
  destruct (supports n h st) eqn:E; [|destruct (supports k g st); lia].
  rewrite (Hs st); [lia|left|done].
Qed.

Lemma nsup_witness l n h : 1 ≤ nsup l n h → ∃ st, st ∈ l ∧ supports n h st = true.
Proof.
  unfold nsup. intros Hl. destruct (List.filter (supports n h) l) as [|x xs] eqn:Hf; [simpl in Hl; lia|].
  exists x. assert (x ∈ List.filter (supports n h) l) as Hx by (rewrite Hf; left).
  apply (elem_of_retain (supports n h)) in Hx. tauto.
Qed.

(** A possibly-fast-committed block is in every fork the rule keeps. *)
Lemma filter_fast_path_keeps (m m' : ForkStats) (thresh k : Z) (h : HashType) s st :
  (∀ s st, m !! s = Some st → stat_wf st ∧ fs_first_n st ≤ k) → 1 ≤ thresh →
  chains_agree m → thresh ≤ qc_matching m → could_fast (hm_values m) thresh k h →
  fork_choice_filter_fast_path m thresh = Some m' →
  m' !! s = Some st → hash_at st k = Some h.
Proof.
  intros Hwf Ht Hag Hq Hcf Hf Hs.
  destruct (filter_fast_path_spec m thresh) as (m1 & E & _ & Hspec); [intros; by eapply Hwf|done|].
  rewrite Hf in E. simplify_eq. apply Hspec in Hs as [Hm (v & Hb & Hmax)]; [|done].
  destruct (stats_wf_lists m) as [Hv _]; [intros; by eapply Hwf|].
  (* some fork has [h] at [k] *)
  destruct (nsup_witness (hm_values m) k h) as (st0 & [s0 Hs0]%elem_of_hm_values & Hsup0);
    [destruct Hcf; lia|].
  unfold supports in Hsup0. bool_to_prop.
  destruct (Hwf s0 st0 Hs0) as [Hwf0 _].
  destruct (fast_best_spec (hm_values m) thresh st0 Hv Ht Hwf0) as (_ & _ & Hge).
  destruct (Hge k h) as (v0 & Hb0 & Hkv0); [done..|].
  pose proof (Hmax s0 st0 v0 Hs0 Hb0) as Hv0.
  destruct (Hwf s st Hm) as [Hwfs Hfirst].
  destruct (fast_best_spec (hm_values m) thresh st Hv Ht Hwfs) as (_ & Hat & _).
  destruct (Hat v Hb) as (g & Hg & _ & Hcg & _).
  destruct (hash_at_below st v g k Hg) as [h' Hh']; [lia|].
  destruct (decide (h' = h)) as [->|Hne]; [done|]. exfalso.
  enough (nsup (hm_values m) v g ≤ nsup (hm_values m) k h') as Hn by (destruct Hcf as [_ Hcf]; specialize (Hcf h' Hne); lia).
  apply nsup_mono. intros st1 [s1 Hs1]%elem_of_hm_values Hsup1. unfold supports in *. bool_to_prop.
  destruct (Hwf s1 st1 Hs1) as [_ Hfirst1].
  apply andb_true_iff. split; [apply Z.ltb_lt; lia|]. apply bool_decide_eq_true.
  rewrite <-Hh'. symmetry. by apply (Hag s s1 st st1 v g); [..|lia|lia|lia].
Qed.

Lemma filter_fast_path_nonempty (m m' : ForkStats) (thresh k : Z) (h : HashType) :
  (∀ s st, m !! s = Some st → stat_wf st ∧ fs_first_n st ≤ k) → 1 ≤ thresh →
  thresh ≤ qc_matching m → could_fast (hm_values m) thresh k h →
  fork_choice_filter_fast_path m thresh = Some m' → m' ≠ ∅.
Proof.
  intros Hwf Ht Hq Hcf Hf.
  destruct (filter_fast_path_spec m thresh) as (m1 & E & _ & Hspec); [intros; by eapply Hwf|done|].
  rewrite Hf in E. simplify_eq. specialize (Hspec Hq).
  destruct (stats_wf_lists m) as [Hv _]; [intros; by eapply Hwf|].
  destruct (nsup_witness (hm_values m) k h) as (st0 & Hin & Hsup); [destruct Hcf; lia|].
  apply elem_of_hm_values in Hin as [s0 Hs0]. unfold supports in Hsup. bool_to_prop.
  set (best := λ st, default (-1) (fast_best (hm_values m) thresh st)).
  destruct (max_values_elem best m 0) as (s & st & Hs & Hmax).
  { intros ->. by rewrite lookup_empty in Hs0. }
  assert (∀ s st v, m !! s = Some st → fast_best (hm_values m) thresh st = Some v → 0 ≤ v) as Hpos.
  { intros s1 st1 v Hs1 Hb. destruct (Hwf s1 st1 Hs1) as [Hw1 _].
    destruct (fast_best_spec (hm_values m) thresh st1 Hv Ht Hw1) as (_ & Hat & _).
    destruct (Hat v Hb) as (_ & _ & ? & _). destruct Hw1. lia. }
  assert (∃ v, fast_best (hm_values m) thresh st = Some v) as [v Hb].
  { destruct (Hwf s0 st0 Hs0) as [Hw0 _].
    destruct (fast_best_spec (hm_values m) thresh st0 Hv Ht Hw0) as (_ & _ & Hge).
    destruct (Hge k h) as (v0 & Hb0 & _); [done..|].
    pose proof (max_values_ge best m 0 s0 st0 Hs0) as Hle. pose proof (Hpos s0 st0 v0 Hs0 Hb0).
    rewrite <-Hmax in Hle. unfold best in Hle. rewrite Hb0 in Hle. simpl in Hle.
    destruct (fast_best (hm_values m) thresh st); [eauto|simpl in Hle; lia]. }
  intros He. enough (m1 !! s = Some st) as Hx by by rewrite He, lookup_empty in Hx.
  apply Hspec. split; [done|]. exists v. split; [done|]. intros s' st' v' Hs' Hb'.
  pose proof (max_values_ge best m 0 s' st' Hs') as Hle. rewrite <-Hmax in Hle.
  unfold best in Hle. by rewrite Hb, Hb' in Hle.
Qed.

(** The parent fields of a hash chain are the hashes of the blocks before. *)
Lemma fork_block_hashes_chain k p (l : list CachedBlock) :
  chain k p l → Forall cb_wf l → fork_block_hashes (map half_serialize l) = Some (map cb_hash l).
Proof.
  intros Hc Hwf. unfold fork_block_hashes.
  change (map half_serialize l) with (half_serialize <$> l). rewrite fmap_last.
  destruct (list.last l) as [lb|] eqn:Hl; [|by apply last_None in Hl as ->].
  simpl. assert (lb ∈ l) as Hin by (rewrite last_lookup in Hl; by eapply list_elem_of_lookup_2).
  pose proof Hwf as Hwf'. rewrite Forall_forall in Hwf'.
  destruct (Hwf' lb) as [-> _]; [by apply list_elem_of_In|]. cbn [mbind option_bind]. clear Hin Hwf'.
  enough (mapM (λ b, get_parent_hash_in_proto_block_ser (hs_body b)) (tail (half_serialize <$> l))
          = Some (removelast (map cb_hash l))) as ->.
  { cbn [mbind option_bind]. f_equal.
    apply last_Some in Hl as [l' ->]. rewrite map_app. simpl. by rewrite removelast_last. }
  destruct l as [|b l]; [done|]. clear Hl lb. simpl tail. destruct Hc as (_ & _ & Hc).
  inversion_clear Hwf as [|?? _ Hwf'].
  revert b k p Hc. induction Hwf' as [|c l [_ Hpar] Hwf IH]; intros b k p Hc; [done|].
  destruct Hc as (_ & Hp & Hc). simpl. rewrite Hpar. cbn [mbind option_bind].
  rewrite (Hp _ eq_refl). rewrite (IH c (k + 1) p Hc). done.
Qed.

End fork_choice.

(** A fork of consecutive, hash-linked blocks is summarised correctly: the hashes taken
    from the parent fields are the hashes of the blocks, the bounds those of the fork. *)
Lemma vc_to_stat_of_chain `{Codec} (k : Z) (p : option HashType) (b : CachedBlock)
    (l : list CachedBlock) (view cfg last_n : Z) (sig : bytes) (q : option ProtoQuorumCertificate) :
  0 ≤ k → tip_n k (b :: l) < 2 ^ 64 →
  chain k p (b :: l) → Forall cb_wf (b :: l) →
  ∃ st, vc_to_stat (mkVC view cfg (Some (mkFork (map half_serialize (b :: l)))) sig last_n q) = Some st ∧
    fs_block_hashes st = map cb_hash (b :: l) ∧ fs_first_n st = k + 1 ∧
    fs_fork_last_n st = tip_n k (b :: l) ∧ fs_first_parent st = cb_parent b ∧ fs_last_qc st = q ∧ stat_wf st ∧
    ∀ i c, (b :: l) !! i = Some c → hash_at st (cb_n c) = Some (cb_hash c).
Proof.
  intros Hk Htip Hc Hwf. set (bs := b :: l) in *.
  assert (fork_block_hashes (map half_serialize bs) = Some (map cb_hash bs)) as Hh.
  { by eapply fork_block_hashes_chain. }
  destruct (last_is_Some bs) as [_ [lb Hlb]]; [done|].
  assert (list.last (map half_serialize bs) = Some (half_serialize lb)) as Hl'.
  { change (map half_serialize bs) with (half_serialize <$> bs). by rewrite fmap_last, Hlb. }
  assert (cb_n lb = tip_n k bs) as Hlast.
  { rewrite last_lookup in Hlb. rewrite (chain_lookup _ _ _ _ _ Hc Hlb). unfold tip_n, bs. simpl. lia. }
  inversion_clear Hwf as [|?? [_ Hpar] _]. destruct Hc as (Hn & Hp & Hc').
  unfold vc_to_stat. cbn [vc_fork mbind option_bind serialized_blocks]. rewrite Hh, Hl'. cbn [mbind option_bind].
  eexists. split; [done|]. cbn [fs_block_hashes fs_first_n fs_fork_last_n fs_first_parent head bs map half_serialize hs_n hs_body].
  rewrite Hpar. cbn [default from_option id].
  split_and!; [done|done|done|done|done|..].
  - unfold stat_wf. cbn [fs_block_hashes fs_first_n fs_fork_last_n].
    change (cb_hash b :: map cb_hash l) with (map cb_hash bs).
    rewrite length_map. cbn [half_serialize hs_n]. rewrite Hlast, Hn. unfold tip_n in *. lia.
  - intros i c Hi. assert (chain k p bs) as Hc by (repeat split; done).
    unfold hash_at. cbn [fs_block_hashes fs_first_n].
    pose proof (chain_lookup _ _ _ _ _ Hc Hi) as Hci.
    change (cb_hash b :: map cb_hash l) with (cb_hash <$> bs). rewrite Hn.
    destruct (Z.leb_spec (k + 1) (cb_n c)); [|lia].
    replace (Z.to_nat (cb_n c - (k + 1))) with i by lia. by rewrite list_lookup_fmap, Hi.
Qed.

(** * Properties *)

(** The order the rules induce on forks: view of the last QC, then view of the last
    block, then length. *)
Definition fork_le (f g : ForkStat) : Prop :=
  last_qc_view f < last_qc_view g ∨
  (last_qc_view f = last_qc_view g ∧
   (fs_last_view f < fs_last_view g ∨
    (fs_last_view f = fs_last_view g ∧ fs_fork_last_n f ≤ fs_fork_last_n g))).

(** Without the fast path, fork choice does not panic, selects at least one fork, and
    selects exactly the forks that are greatest in the order (view of last QC, view of
    last block, last sequence number). *)
Lemma fork_choice_lexicographic `{HashIter} (feat : Features) (stats : ForkStats) (thresh : Z) :
  fast_path feat = false → stats ≠ ∅ →
  (∀ s f, stats !! s = Some f → 0 ≤ last_qc_view f) →
  ∃ senders left, fork_choice_filter feat stats thresh = Some (senders, left) ∧ senders ≠ [] ∧
    ∀ s, s ∈ senders ↔
         ∃ f, stats !! s = Some f ∧ ∀ s' f', stats !! s' = Some f' → fork_le f' f.
Proof.
  intros Hfp Hne Hpos. unfold fork_choice_filter. rewrite Hfp. cbn [mbind option_bind].
  set (m1 := fork_choice_filter_highest_qc_view stats).
  assert (m1 ≠ ∅) as Hm1 by by apply highest_qc_view_nonempty.
  assert (fork_choice_filter_highest_view m1 ≠ ∅) as Hm2 by by apply retain_max_nonempty.
  do 2 eexists. split; [done|]. split.
  { apply hm_keys_nonempty. by apply retain_max_nonempty. }
  intros s. rewrite elem_of_hm_keys. split.
  - intros [f Hf]. apply retain_max_spec in Hf as [Hf H4]. apply retain_max_spec in Hf as [Hf H3].
    apply highest_qc_view_spec in Hf as [Hf H1]; [|done].
    exists f. split; [done|]. intros s' f' Hf'. pose proof (H1 s' f' Hf') as Hq.
    destruct (decide (last_qc_view f' = last_qc_view f)) as [Eq|]; [|left; lia]. right. split; [done|].
    assert (m1 !! s' = Some f') as Hm'.
    { apply highest_qc_view_spec; [done|]. split; [done|]. intros ? ? Hx. rewrite Eq. by eapply H1. }
    pose proof (H3 s' f' Hm') as Hv.
    destruct (decide (fs_last_view f' = fs_last_view f)) as [Ev|]; [|left; lia]. right. split; [done|].
    apply (H4 s' f'). apply retain_max_spec. split; [done|]. intros ? ? Hx. rewrite Ev. by eapply H3.
  - intros (f & Hf & Hmax). exists f. apply retain_max_spec. split.
    + apply retain_max_spec. split.
      * apply highest_qc_view_spec; [done|]. split; [done|]. intros s' f' Hf'.
        destruct (Hmax s' f' Hf') as [?|[? _]]; lia.
      * intros s' f' [Hf' Hq]%highest_qc_view_spec; [|done].
        specialize (Hq s f Hf). destruct (Hmax s' f' Hf') as [?|[? [?|[? _]]]]; lia.
    + intros s' f' [[Hf' Hq]%highest_qc_view_spec Hv]%retain_max_spec; [|done].
      assert (m1 !! s = Some f) as Hm.
      { apply highest_qc_view_spec; [done|]. split; [done|]. intros s'' f'' Hx.
        destruct (Hmax s'' f'' Hx) as [?|[? _]]; lia. }
      specialize (Hq s f Hf). specialize (Hv s f Hm).
      destruct (Hmax s' f' Hf') as [?|[? [?|[? ?]]]]; lia.
Qed.

Definition mk_stat (hs : list HashType) (first last qcv qcn lastv : Z) : ForkStat :=
  mkForkStat hs last first default_hash (Some (mkQC [] qcn [] qcv)) lastv 1.

Definition three_stats (a b c : ForkStat) : ForkStats :=
  list_to_map [(Auth "node1" 0, a); (Auth "node2" 0, b); (Auth "node3" 0, c)].

(** Three entries of [three_stats] are all its entries. *)
Lemma three_stats_forall (P : ForkStat → Prop) a b c :
  P a → P b → P c → ∀ s f, three_stats a b c !! s = Some f → P f.
Proof.
  intros Ha Hb Hc s f Hf. unfold three_stats in Hf.
  apply elem_of_list_to_map_2 in Hf. rewrite !elem_of_cons, elem_of_nil in Hf.
  destruct Hf as [[= -> ->]|[[= -> ->]|[[= -> ->]|[]]]]; done.
Qed.

Lemma fork_choice_lexicographic_witness :
  let H := map_to_list_iter in
  let feat := mkFeatures true DynamicSign true true false false true false false false in
  let stats := three_stats (mk_stat [[Byte.x01]] 1 1 1 1 1) (mk_stat [[Byte.x01]; [Byte.x02]] 1 2 1 1 2)
                 (mk_stat [[Byte.x03]] 1 1 1 1 1) in
  ∃ senders left, fork_choice_filter feat stats 2 = Some (senders, left) ∧ senders ≠ [] ∧
    ∀ s, s ∈ senders ↔
         ∃ f, stats !! s = Some f ∧ ∀ s' f', stats !! s' = Some f' → fork_le f' f.
Proof.
  intros H feat stats.
  apply (@fork_choice_lexicographic H feat stats 2 eq_refl).
  - intros He. assert (size stats = 3%nat) as Hs by (vm_compute; reflexivity).
    rewrite He in Hs. vm_compute in Hs. discriminate.
  - apply three_stats_forall; vm_compute; discriminate.
Defined.

(** C10: fork choice never abandons a block that may have been fast-committed: a block that
    enough of the surviving forks contain (below their last block) while no other block at
    its position does is in every selected fork, and some fork is selected. *)
Theorem fork_choice_keeps_fast_commits `{HashIter} (feat : Features) (stats : ForkStats)
    (thresh k : Z) (h : HashType) :
  let m := fork_choice_filter_highest_qc_view stats in
  fast_path feat = true → 1 ≤ thresh → thresh ≤ qc_matching m →
  (∀ s st, stats !! s = Some st → stat_wf st ∧ fs_first_n st ≤ k) → chains_agree m →
  could_fast (hm_values m) thresh k h →
  ∃ senders left, fork_choice_filter feat stats thresh = Some (senders, left) ∧ senders ≠ [] ∧
    ∀ s, s ∈ senders → ∃ st, stats !! s = Some st ∧ hash_at st k = Some h.
Proof.
  intros m Hfp Ht Hq Hwf Hag Hcf.
  assert (∀ s st, m !! s = Some st → stats !! s = Some st) as Hsub
    by (intros s st [? _]%lookup_hm_retain; done).
  assert (∀ s st, m !! s = Some st → stat_wf st ∧ fs_first_n st ≤ k) as Hwf' by eauto.
  destruct (filter_fast_path_spec m thresh) as (m2 & E & _ & Hspec); [intros; by eapply Hwf'|done|].
  unfold fork_choice_filter. rewrite Hfp. fold m. rewrite E. cbn [mbind option_bind].
  assert (m2 ≠ ∅) as Hne by by eapply (filter_fast_path_nonempty m).
  assert (fork_choice_filter_highest_view m2 ≠ ∅) as Hne2 by by apply retain_max_nonempty.
  do 2 eexists. split; [done|]. split; [by apply hm_keys_nonempty, retain_max_nonempty|].
  intros s [st Hst]%elem_of_hm_keys.
  apply retain_max_spec in Hst as [Hst _]. apply retain_max_spec in Hst as [Hst _].
  exists st. split; [apply Hsub; by apply (Hspec Hq) in Hst as [? _]|].
  by eapply (filter_fast_path_keeps m m2 thresh k h).
Qed.

Definition fork3 : ForkStat := mk_stat [[Byte.x01]; [Byte.x02]; [Byte.x03]] 1 3 1 1 1.

Lemma three_same_lookup st s f : three_stats st st st !! s = Some f → f = st.
Proof. by apply (three_stats_forall (λ f, f = st)). Qed.

Lemma nsup_same l st n h h' :
  (∀ x, x ∈ l → x = st) → hash_at st n = Some h → h' ≠ h → nsup l n h' = 0.
Proof.
  intros Hl Hh Hne. unfold nsup. rewrite (retain_none (supports n h')); [done|].
  intros x Hx. rewrite (Hl x Hx). unfold supports. rewrite Hh, (bool_decide_false) by congruence.
  apply andb_false_r.
Qed.

Lemma fork_choice_keeps_fast_commits_witness :
  let H := map_to_list_iter in let stats := three_stats fork3 fork3 fork3 in
  ∃ senders left, fork_choice_filter pirateship_features stats 2 = Some (senders, left) ∧ senders ≠ [] ∧
    ∀ s, s ∈ senders → ∃ st, stats !! s = Some st ∧ hash_at st 2 = Some [Byte.x02].
Proof.
  intros H stats.
  assert (∀ s f, fork_choice_filter_highest_qc_view stats !! s = Some f → f = fork3) as Hall
    by (intros s f [Hf _]%lookup_hm_retain; by apply three_same_lookup in Hf).
  apply (@fork_choice_keeps_fast_commits H pirateship_features stats 2 2 [Byte.x02] eq_refl);
    [lia|vm_compute; discriminate| | |].
  - intros s st ->%three_same_lookup. split; [|vm_compute; discriminate].
    unfold stat_wf. vm_compute. repeat split; discriminate.
  - intros s1 s2 st1 st2 n h ->%Hall ->%Hall. done.
  - split; [vm_compute; discriminate|]. intros h' Hne.
    rewrite (nsup_same _ fork3 2 [Byte.x02]); [lia| |reflexivity|done].
    intros x [s Hs]%elem_of_hm_values. by apply Hall in Hs.
Defined.

(** The fast-path rule ignores the last block of every fork, so forks of one block
    never support anything: when every view-change message carries a single block (a
    quiescent log, everything committed) and enough of them share the highest QC, the rule
    drops every fork and the new leader aborts on an empty selection. *)
Lemma fast_path_drops_single_blocks `{HashIter} (feat : Features) (stats : ForkStats) (thresh : Z) :
  fast_path feat = true → 1 ≤ thresh →
  thresh ≤ qc_matching (fork_choice_filter_highest_qc_view stats) →
  (∀ s st, stats !! s = Some st → stat_wf st ∧ fs_first_n st = fs_fork_last_n st) →
  ∃ left, fork_choice_filter feat stats thresh = Some ([], left).
Proof.
  intros Hfp Ht Hq Hone. set (m := fork_choice_filter_highest_qc_view stats) in *.
  assert (∀ s st, m !! s = Some st → stat_wf st ∧ fs_first_n st = fs_fork_last_n st) as Hm
    by (intros s st [? _]%lookup_hm_retain; eauto).
  destruct (filter_fast_path_spec m thresh) as (m2 & E & _ & Hspec); [intros; by eapply Hm|done|].
  assert (m2 = ∅) as ->.
  { apply map_eq. intros s. rewrite lookup_empty. destruct (m2 !! s) as [st|] eqn:Hs; [|done].
    apply (Hspec Hq) in Hs as [Hs (v & Hb & _)]. exfalso.
    destruct (stats_wf_lists m) as [Hv _]; [intros; by eapply Hm|].
    destruct (Hm s st Hs) as [Hw _].
    destruct (fast_best_spec (hm_values m) thresh st Hv Ht Hw) as (_ & Hat & _).
    destruct (Hat v Hb) as (h & _ & _ & Hc & _).
    destruct (nsup_witness (hm_values m) v h) as (st1 & [s1 Hs1]%elem_of_hm_values & Hsup); [lia|].
    destruct (Hm s1 st1 Hs1) as [_ Heq]. unfold supports, hash_at in Hsup. bool_to_prop.
    destruct (Z.leb_spec (fs_first_n st1) v); [lia|done]. }
  unfold fork_choice_filter. rewrite Hfp. fold m. rewrite E. cbn [mbind option_bind].
  eexists. do 2 f_equal. unfold hm_keys.
  enough (hm_iter (fork_choice_filter_highest_len (fork_choice_filter_highest_view ∅)) = []) as -> by done.
  apply length_zero_iff_nil. rewrite length_hm_iter. apply map_size_empty_iff, map_eq. intros s.
  rewrite lookup_empty. destruct (fork_choice_filter_highest_len _ !! s) as [st|] eqn:Hs; [|done].
  apply lookup_hm_retain in Hs as [Hs _]. by apply lookup_hm_retain in Hs as [Hs _].
Qed.

Lemma fast_path_drops_single_blocks_witness :
  let H := map_to_list_iter in let st := mk_stat [[Byte.x01]] 1 1 1 1 1 in
  ∃ left, fork_choice_filter pirateship_features (three_stats st st st) 2 = Some ([], left).
Proof.
  intros H st.
  apply (@fast_path_drops_single_blocks H pirateship_features (three_stats st st st) 2 eq_refl);
    [lia|vm_compute; discriminate|].
  intros s f ->%three_same_lookup. split; [|reflexivity].
  unfold stat_wf. vm_compute. repeat split; discriminate.
Defined.
