(* ===== verification/Staging.v ===== *)
(** The staging task (src/src/consensus/staging/mod.rs, steady_state.rs, view_change.rs):
    the state machine that accepts blocks, collects votes, commits, forms quorum
    certificates and changes views.  State [Staging]; one handler per function; [worker]
    is one iteration of the select loop.  Outgoing channel sends are the messages
    [StagingMsg], in order. *)

From stdpp Require Import base numbers list gmap strings option.
From S2P Require Import Prelude Types Config Serialize Crypto Chain ForkChoice.

(** * State (staging/mod.rs) *)

Record CachedBlockWithVotes := mkCBV {
  cv_block : CachedBlock;
  vote_sigs : gmap string ProtoSignatureArrayEntry;
  replication_set : gset string;
  qc_is_proposed : bool;
  fast_qc_is_proposed : bool }.

Record Staging := mkStaging {
  st_ci : Z;
  st_bci : Z;
  st_view : Z;
  st_view_is_stable : bool;
  st_config_num : Z;
  st_last_qc : option ProtoQuorumCertificate;
  curr_parent_for_pending : option CachedBlock;
  pending_blocks : list CachedBlockWithVotes;
  pending_signatures : list (Z * ProtoSignatureArrayEntry);
  vc_retry_num : Z;
  storage_ack_buffer : list StorageAck;
  ae_seen_in_this_view : Z }.

(** What a 2PC round carries on to (extra_2pc.rs). *)
Inductive EngraftActionAfterFutureDone :=
  | ActNone
  | AsLeader (name : string) (vote : ProtoVote)
  | AsFollower (leader : string) (vote : ProtoVote).

Record TwoPCCommand := mk2PC {
  tp_key : string;
  tp_value : bytes;
  tp_action : EngraftActionAfterFutureDone }.

Inductive StagingMsg :=
  | ToSequencer (c : BlockSequencerControlCommand)
  | ToForkReceiver (c : ForkReceiverCommand)
  | ToClientReply (c : ClientReplyControl)
  | ToApp (c : AppCommand)
  | ToBroadcaster (c : BlockBroadcasterCommand)
  | ToLogServer (c : LogServerCommand)
  | ToBatchProposer (i_am_leader : bool) (leader : string)
  | ToPacemaker (c : PacemakerCommand)
  | ToQcTx (q : ProtoQuorumCertificate)
  | To2PC (c : TwoPCCommand)
  | SendVote (leader : string) (v : ProtoVote)
  | BroadcastVC (names : list string) (vc : ProtoViewChange) (min_success : Z)
  | TimerReset
  | TimerFireNow.

Definition set_ci (x : Z) (s : Staging) : Staging :=
  mkStaging x (st_bci s) (st_view s) (st_view_is_stable s) (st_config_num s) (st_last_qc s)
    (curr_parent_for_pending s) (pending_blocks s) (pending_signatures s) (vc_retry_num s)
    (storage_ack_buffer s) (ae_seen_in_this_view s).
Definition set_bci (x : Z) (s : Staging) : Staging :=
  mkStaging (st_ci s) x (st_view s) (st_view_is_stable s) (st_config_num s) (st_last_qc s)
    (curr_parent_for_pending s) (pending_blocks s) (pending_signatures s) (vc_retry_num s)
    (storage_ack_buffer s) (ae_seen_in_this_view s).
(** [self.view = v; self.config_num = c; self.view_is_stable = b]. *)
Definition set_view (v c : Z) (b : bool) (s : Staging) : Staging :=
  mkStaging (st_ci s) (st_bci s) v b c (st_last_qc s)
    (curr_parent_for_pending s) (pending_blocks s) (pending_signatures s) (vc_retry_num s)
    (storage_ack_buffer s) (ae_seen_in_this_view s).
Definition set_stable (b : bool) (s : Staging) : Staging :=
  set_view (st_view s) (st_config_num s) b s.
Definition set_last_qc (q : option ProtoQuorumCertificate) (s : Staging) : Staging :=
  mkStaging (st_ci s) (st_bci s) (st_view s) (st_view_is_stable s) (st_config_num s) q
    (curr_parent_for_pending s) (pending_blocks s) (pending_signatures s) (vc_retry_num s)
    (storage_ack_buffer s) (ae_seen_in_this_view s).
Definition set_parent (p : option CachedBlock) (s : Staging) : Staging :=
  mkStaging (st_ci s) (st_bci s) (st_view s) (st_view_is_stable s) (st_config_num s) (st_last_qc s)
    p (pending_blocks s) (pending_signatures s) (vc_retry_num s)
    (storage_ack_buffer s) (ae_seen_in_this_view s).
Definition set_pending (l : list CachedBlockWithVotes) (s : Staging) : Staging :=
  mkStaging (st_ci s) (st_bci s) (st_view s) (st_view_is_stable s) (st_config_num s) (st_last_qc s)
    (curr_parent_for_pending s) l (pending_signatures s) (vc_retry_num s)
    (storage_ack_buffer s) (ae_seen_in_this_view s).
Definition set_pending_signatures (l : list (Z * ProtoSignatureArrayEntry)) (s : Staging) : Staging :=
  mkStaging (st_ci s) (st_bci s) (st_view s) (st_view_is_stable s) (st_config_num s) (st_last_qc s)
    (curr_parent_for_pending s) (pending_blocks s) l (vc_retry_num s)
    (storage_ack_buffer s) (ae_seen_in_this_view s).
Definition set_vc_retry_num (k : Z) (s : Staging) : Staging :=
  mkStaging (st_ci s) (st_bci s) (st_view s) (st_view_is_stable s) (st_config_num s) (st_last_qc s)
    (curr_parent_for_pending s) (pending_blocks s) (pending_signatures s) k
    (storage_ack_buffer s) (ae_seen_in_this_view s).
Definition set_ack_buffer (l : list StorageAck) (s : Staging) : Staging :=
  mkStaging (st_ci s) (st_bci s) (st_view s) (st_view_is_stable s) (st_config_num s) (st_last_qc s)
    (curr_parent_for_pending s) (pending_blocks s) (pending_signatures s) (vc_retry_num s)
    l (ae_seen_in_this_view s).
Definition set_ae_seen (k : Z) (s : Staging) : Staging :=
  mkStaging (st_ci s) (st_bci s) (st_view s) (st_view_is_stable s) (st_config_num s) (st_last_qc s)
    (curr_parent_for_pending s) (pending_blocks s) (pending_signatures s) (vc_retry_num s)
    (storage_ack_buffer s) k.

(** [Staging::new]. *)
Definition staging_new (feat : Features) : Staging :=
  mkStaging 0 0 (if f_view_change feat then 0 else 1) (negb (f_view_change feat)) 1 None None [] [] 0 [] 0.

Abbreviation cv_n e := (pb_n (cb_block (cv_block e))).
Abbreviation cv_qc e := (pb_qc (cb_block (cv_block e))).

Section staging.
Context `{HashIter, Codec, Ed25519} (feat : Features) (cfg : Config) (ks : KeyStore).

Abbreviation SM := (M Staging StagingMsg).
Abbreviation cc := (consensus_config cfg).

(** * Helpers (steady_state.rs) *)

Definition i_am_leader : SM bool :=
  v ← gets st_view;
  leader ← unwrap (get_leader_for_view feat cc v);
  mret (bool_decide (leader = net_name cfg)).

Definition check_continuity (s : Staging) (block : CachedBlock) : bool :=
  match pending_blocks s with
  | [] =>
      match curr_parent_for_pending s with
      | None => cb_n block =? 1
      | Some p => bool_decide (cb_parent block = cb_hash p) && (cb_n block =? (cb_n p ⊕ 1))
      end
  | first_block :: _ =>
      match list.last (pending_blocks s) with
      | None => false
      | Some last_block =>
          if cb_n block >? (cv_n last_block ⊕ 1) then false
          else if cb_n block <? cv_n first_block then false
          else if cb_n block =? (cv_n last_block ⊕ 1)
          then bool_decide (cb_parent block = cb_hash (cv_block last_block))
          else existsb (λ b, (cv_n b =? cb_n block)
                             && bool_decide (cb_hash (cv_block b) = cb_hash block)) (pending_blocks s)
      end
  end.

Definition rollback (n : Z) : SM unit :=
  _ ← modify (λ s, set_pending (retain (λ e, cv_n e <=? n) (pending_blocks s)) s);
  _ ← modify (λ s, set_pending_signatures (retain (λ e, e.1 <=? n) (pending_signatures s)) s);
  _ ← emit (ToApp (Rollback n));
  emit (ToLogServer (LsRollback n)).

Definition maybe_update_last_qc (q : ProtoQuorumCertificate) : SM unit :=
  modify (λ s, if qc_n q >? match st_last_qc s with Some e => qc_n e | None => 0 end
               then set_last_qc (Some q) s else s).

(** * Commit (steady_state.rs) *)

(** The [while let] loop of [do_byzantine_commit]: blocks left, new parent, blocks popped. *)
Fixpoint pop_committed (new_bci : Z) (l : list CachedBlockWithVotes) (parent : option CachedBlock)
    : list CachedBlockWithVotes * option CachedBlock * list CachedBlock :=
  match l with
  | [] => ([], parent, [])
  | e :: l' =>
      if cv_n e >? new_bci then (l, parent, [])
      else
        let parent' := if cv_n e =? new_bci then Some (cv_block e) else parent in
        let '(rest, p, popped) := pop_committed new_bci l' parent' in
        (rest, p, cv_block e :: popped)
  end.

Definition do_byzantine_commit (old_bci new_bci : Z) : SM unit :=
  if new_bci <=? old_bci then mret tt
  else
    _ ← modify (set_bci new_bci);
    s ← get;
    let '(rest, parent, byz_blocks) :=
      pop_committed new_bci (pending_blocks s) (curr_parent_for_pending s) in
    _ ← modify (λ s, set_parent parent (set_pending rest s));
    _ ← emit (ToApp (ByzCommit byz_blocks));
    b ← gets st_bci;
    emit (ToLogServer (LsUpdateBCI b)).

Definition do_crash_commit (old_ci new_ci : Z) : SM unit :=
  if new_ci <=? old_ci then mret tt
  else
    _ ← modify (set_ci new_ci);
    _ ← emit (ToBroadcaster (UpdateCI new_ci));
    l ← gets pending_blocks;
    emit (ToApp (CrashCommit (map cv_block
      (retain (λ e, (cv_n e >? old_ci) && (cv_n e <=? new_ci)) l)))).

(** The scan of [maybe_crash_commit]: [ci] after the loop. *)
Definition crash_scan (thresh : Z) (l : list CachedBlockWithVotes) (ci : Z) : Z :=
  fold_left (λ ci e, if cv_n e <=? ci then ci
                     else if thresh <=? Z.of_nat (size (replication_set e)) then cv_n e else ci) l ci.

Definition crash_threshold (s : Staging) : option Z :=
  let non_bcied := i64_sub (as_i64 (st_ci s)) (as_i64 (st_bci s)) in
  if no_qc feat then Some (crash_commit_threshold cc)
  else if non_bcied >? as_i64 (commit_index_gap_soft cc) then byzantine_commit_threshold feat cc
  else Some (crash_commit_threshold cc).

Definition maybe_crash_commit : SM res :=
  old_ci ← gets st_ci;
  s ← get;
  thresh ← unwrap (crash_threshold s);
  let new_ci := crash_scan thresh (pending_blocks s) old_ci in
  _ ← modify (set_ci new_ci);
  _ ← do_crash_commit old_ci new_ci;
  mret ROk.

(** The sequence numbers of the QCs carried by the blocks up to [upto]. *)
Definition qc_ns_upto (upto : Z) (l : list CachedBlockWithVotes) : list Z :=
  concat (map (λ b, map qc_n (cv_qc b)) (retain (λ b, cv_n b <=? upto) (rev l))).

(** Fast path: all votes rule; only applicable if the view is stable. *)
Definition new_bci_fast_path (s : Staging) (incoming_qc : ProtoQuorumCertificate) : Z :=
  if st_view_is_stable s
     && (byzantine_fast_path_threshold cc <=? Z.of_nat (length (qc_sig incoming_qc)))
  then (if fast_path feat then qc_n incoming_qc else st_bci s)
  else st_bci s.

(** Slow path: 2-hop rule, one more hop with extra_qc_check. *)
Definition new_bci_slow_path (s : Staging) (incoming_qc : ProtoQuorumCertificate) : Z :=
  let old_bci := st_bci s in
  let slow := max_or old_bci (qc_ns_upto (qc_n incoming_qc) (pending_blocks s)) in
  if extra_qc_check feat && (slow >? old_bci)
  then max_or old_bci (qc_ns_upto slow (pending_blocks s))
  else slow.

Definition byz_commit_target (s : Staging) (incoming_qc : ProtoQuorumCertificate) : Z :=
  new_bci_fast_path s incoming_qc `max` new_bci_slow_path s incoming_qc.

Definition maybe_byzantine_commit (incoming_qc : ProtoQuorumCertificate) : SM res :=
  s ← get;
  _ ← (if (st_view s <=? qc_view incoming_qc)
          && (match st_last_qc s with Some e => qc_n e | None => 0 end <? qc_n incoming_qc)
       then _ ← emit TimerReset; maybe_update_last_qc incoming_qc
       else mret tt);
  _ ← modify (λ s, set_pending_signatures
                     (retain (λ e, e.1 >? qc_n incoming_qc) (pending_signatures s)) s);
  s ← get;
  _ ← do_byzantine_commit (st_bci s) (byz_commit_target s incoming_qc);
  mret ROk.

(** * Stabilisation (view_change.rs) *)

Definition maybe_stabilize_view (q : ProtoQuorumCertificate) : SM unit :=
  s ← get;
  _ ← unwrap (list.last (pending_blocks s));
  if negb (qc_view q =? st_view s) then mret tt
  else
    _ ← modify (set_stable true);
    _ ← emit (ToSequencer (ViewStabilised (st_view s) (st_config_num s)));
    leader ← unwrap (get_leader_for_view feat cc (st_view s));
    me ← i_am_leader;
    _ ← emit (ToBatchProposer me leader);
    emit (ToClientReply StopCancelling).

(** * Quorum certificates (steady_state.rs) *)

Definition make_qc (view : Z) (e : CachedBlockWithVotes) : ProtoQuorumCertificate :=
  mkQC (cb_hash (cv_block e)) (cv_n e)
    (map (λ kv, mkNameSig kv.1 (se_sig kv.2)) (hm_iter (vote_sigs e))) view.

(** The collecting loop of [maybe_create_qcs]. *)
Fixpoint collect_qcs (thresh fast_thresh view : Z) (l : list CachedBlockWithVotes)
    : list CachedBlockWithVotes * list ProtoQuorumCertificate :=
  match l with
  | [] => ([], [])
  | e :: l' =>
      let '(l2, qcs) := collect_qcs thresh fast_thresh view l' in
      if qc_is_proposed e && fast_qc_is_proposed e then (e :: l2, qcs)
      else
        let t := if qc_is_proposed e then fast_thresh else thresh in
        let votes := Z.of_nat (size (vote_sigs e)) in
        if t <=? votes
        then (mkCBV (cv_block e) (vote_sigs e) (replication_set e) true
                (if fast_thresh <=? votes then true else fast_qc_is_proposed e) :: l2,
              make_qc view e :: qcs)
        else (e :: l2, qcs)
  end.

Fixpoint propose_qcs (qcs : list ProtoQuorumCertificate) : SM res :=
  match qcs with
  | [] => mret ROk
  | q :: qcs' =>
      stable ← gets st_view_is_stable;
      _ ← (if negb stable then maybe_stabilize_view q else mret tt);
      _ ← emit (ToQcTx q);
      try_ (maybe_byzantine_commit q) (propose_qcs qcs')
  end.

Definition maybe_create_qcs : SM res :=
  thresh ← unwrap (byzantine_commit_threshold feat cc);
  s ← get;
  let '(l, qcs) := collect_qcs thresh (byzantine_fast_path_threshold cc) (st_view s) (pending_blocks s) in
  _ ← modify (set_pending l);
  propose_qcs qcs.

(** * Votes (steady_state.rs) *)

(** The [retain] over [vote.sig_array] for one signed block. *)
Fixpoint take_sigs (sender : string) (n : Z) (sigs : list ProtoSignatureArrayEntry)
    (m : gmap string ProtoSignatureArrayEntry)
    : list ProtoSignatureArrayEntry * gmap string ProtoSignatureArrayEntry :=
  match sigs with
  | [] => ([], m)
  | e :: sigs' =>
      if negb (se_n e =? n)
      then let '(rest, m') := take_sigs sender n sigs' m in (e :: rest, m')
      else take_sigs sender n sigs' (<[sender := e]> m)
  end.

(** The loop of [process_vote] over the pending blocks. *)
Fixpoint apply_vote (sender : string) (vote_n : Z) (sigs : list ProtoSignatureArrayEntry)
    (l : list CachedBlockWithVotes) : list CachedBlockWithVotes :=
  match l with
  | [] => []
  | e :: l' =>
      let repl := if cv_n e <=? vote_n then {[sender]} ∪ replication_set e else replication_set e in
      let '(sigs', vs) :=
        if is_signed (cb_block (cv_block e)) then take_sigs sender (cv_n e) sigs (vote_sigs e)
        else (sigs, vote_sigs e) in
      mkCBV (cv_block e) vs repl (qc_is_proposed e) (fast_qc_is_proposed e)
        :: apply_vote sender vote_n sigs' l'
  end.

Definition process_vote (sender : string) (vote : ProtoVote) : SM res :=
  s ← get;
  if negb (st_view s =? vote_view vote) then mret ROk
  else
    match pending_blocks s, list.last (pending_blocks s) with
    | first :: _, Some last =>
        if negb ((cv_n first <=? vote_n vote) && (vote_n vote <=? cv_n last)) then mret ROk
        else
          _ ← modify (λ s, set_pending
                 (apply_vote sender (vote_n vote) (sig_array vote) (pending_blocks s)) s);
          try_ maybe_crash_commit
            (if no_qc feat
             then s ← get; _ ← do_byzantine_commit (st_bci s) (st_ci s); mret ROk
             else maybe_create_qcs)
    | _, _ => mret ROk
    end.

(** The verification loop: [None] is the early return on a malformed signature, otherwise
    the answers of the crypto service. *)
Fixpoint verify_vote_sigs (sender : string) (l : list CachedBlockWithVotes)
    (sigs : list ProtoSignatureArrayEntry) : option (list bool) :=
  match sigs with
  | [] => Some []
  | e :: sigs' =>
      match binary_search_by (λ b, cv_n b) (se_n e) l with
      | Some idx =>
          match l !! idx with
          | None => None
          | Some b =>
              match sig_try_into (se_sig e) with
              | Some sg =>
                  rs ← verify_vote_sigs sender l sigs';
                  Some (ks_verify ks sender sg (cb_hash (cv_block b)) :: rs)
              | None => None
              end
          end
      | None => verify_vote_sigs sender l sigs'
      end
  end.

Definition verify_and_process_vote (sender : string) (vote : ProtoVote) : SM res :=
  l ← gets pending_blocks;
  match verify_vote_sigs sender l (sig_array vote) with
  | None => mret ROk
  | Some results =>
      if negb (forallb id results) then mret ROk else process_vote sender vote
  end.

(** [for ack in buffer.drain(..) { ack.await.unwrap() }; storage_ack.await.unwrap()]. *)
Definition await_acks (storage_ack : StorageAck) : SM unit :=
  buf ← gets storage_ack_buffer;
  _ ← modify (set_ack_buffer []);
  _ ← mfor buf (λ ack, _ ← unwrap ack; mret tt);
  _ ← unwrap storage_ack;
  mret tt.

(** The two files a node writes before voting under Engraft. *)
Definition engraft_2pc (vote : ProtoVote) (act : EngraftActionAfterFutureDone) : SM unit :=
  _ ← emit (To2PC (mk2PC "raft_meta" (be_bytes 8 (vote_n vote) ++ be_bytes 8 (vote_view vote)) ActNone));
  emit (To2PC (mk2PC "log_meta" (fork_digest vote) act)).

Definition vote_on_last_block_for_self (storage_ack : StorageAck) : SM res :=
  s ← get;
  match list.last (pending_blocks s) with
  | None => mret RErr
  | Some last_block =>
      _ ← await_acks storage_ack;
      let b := cv_block last_block in
      let sigs :=
        if is_signed (cb_block b)
        then [mkSigEntry (cb_n b) (ks_sign ks (cb_hash b))] else [] in
      let vote := mkVote sigs (cb_hash b) (cb_n b) (st_view s) (st_config_num s) in
      if extra_2pc feat
      then _ ← engraft_2pc vote (AsLeader (net_name cfg) vote); mret ROk
      else process_vote (net_name cfg) vote
  end.

Definition send_vote_on_last_block_to_leader (storage_ack : StorageAck) : SM res :=
  s ← get;
  match list.last (pending_blocks s) with
  | None => mret RErr
  | Some last_block =>
      _ ← await_acks storage_ack;
      let b := cv_block last_block in
      let entry := mkSigEntry (cb_n b) (ks_sign ks (cb_hash b)) in
      let sigs :=
        if is_signed (cb_block b) then map snd (pending_signatures s) ++ [entry] else [] in
      let vote := mkVote sigs (cb_hash b) (cb_n b) (st_view s) (st_config_num s) in
      _ ← (if is_signed (cb_block b)
           then modify (λ s, set_pending_signatures (pending_signatures s ++ [(cb_n b, entry)]) s)
           else mret tt);
      leader ← unwrap (get_leader_for_view feat cc (st_view s));
      if extra_2pc feat
      then _ ← engraft_2pc vote (AsFollower leader vote); mret ROk
      else _ ← emit (SendVote leader vote); mret ROk
  end.

(** * Accepting a block (steady_state.rs) *)

(** The same-view branch: the unchecked stability transitions, the rollback of an unstable
    view and the continuity check.  [false]: the block is dropped. *)
Definition accept_same_view (block : CachedBlock) (stats : AppendEntriesStats) : SM bool :=
  s ← get;
  _ ← (if st_view_is_stable s || negb (aes_view_is_stable stats)
       then modify (set_stable (aes_view_is_stable stats)) else mret tt);
  stable ← gets st_view_is_stable;
  _ ← (if negb stable then rollback (cb_n block ⊖ 1) else mret tt);
  s ← get;
  mret (check_continuity s block).

Definition clear_votes (l : list CachedBlockWithVotes) : list CachedBlockWithVotes :=
  map (λ e, mkCBV (cv_block e) ∅ ∅ (qc_is_proposed e) (fast_qc_is_proposed e)) l.

(** The higher-view branch of [process_block_as_leader]. *)
Definition jump_view_as_leader (block : CachedBlock) (stats : AppendEntriesStats) : SM unit :=
  _ ← modify (λ s, set_ae_seen 0 (set_view (aes_view stats) (aes_config_num stats) false s));
  s ← get;
  _ ← emit (ToSequencer (NewUnstableView (st_view s) (st_config_num s)));
  _ ← emit (ToForkReceiver (FrUpdateView (st_view s) (st_config_num s)));
  _ ← rollback (cb_n block ⊖ 1);
  _ ← emit (ToClientReply CancelAllRequests);
  modify (λ s, set_pending (clear_votes (pending_blocks s)) s).

(** The higher-view branch of [process_block_as_follower]. *)
Definition jump_view_as_follower (block : CachedBlock) (stats : AppendEntriesStats) : SM unit :=
  _ ← modify (λ s, set_ae_seen 0 (set_view (aes_view stats) (pb_config_num (cb_block block)) false s));
  s ← get;
  _ ← emit (ToSequencer (NewUnstableView (st_view s) (st_config_num s)));
  _ ← emit (ToForkReceiver (FrUpdateView (st_view s) (st_config_num s)));
  _ ← modify (λ s, set_pending (retain (λ e, cv_n e <? cb_n block) (pending_blocks s)) s);
  _ ← modify (λ s, set_pending_signatures (retain (λ e, e.1 <? cb_n block) (pending_signatures s)) s);
  _ ← emit (ToClientReply CancelAllRequests);
  modify (λ s, set_pending (clear_votes (pending_blocks s)) s).

(** Logging the block and pushing it on the pending queue. *)
Definition push_block (block : CachedBlock) (this_is_final_block : bool) : SM unit :=
  _ ← emit (ToLogServer (LsNewBlock block));
  _ ← modify (λ s, set_ae_seen (ae_seen_in_this_view s ⊕ (if this_is_final_block then 1 else 0)) s);
  modify (λ s, set_pending (pending_blocks s ++ [mkCBV block ∅ ∅ false false]) s).

Definition buffer_ack (a : StorageAck) : SM unit :=
  modify (λ s, set_ack_buffer (storage_ack_buffer s ++ [a]) s).

(** What follows acceptance as leader. *)
Definition leader_accept (block : CachedBlock) (storage_ack : StorageAck) (this_is_final_block : bool) : SM res :=
  _ ← push_block block this_is_final_block;
  if this_is_final_block then try_ (vote_on_last_block_for_self storage_ack) (mret ROk)
  else _ ← buffer_ack storage_ack; mret ROk.

Fixpoint follow_qcs (old_view_is_stable : bool) (qcs : list ProtoQuorumCertificate) (k : SM res) : SM res :=
  match qcs with
  | [] => k
  | q :: qcs' =>
      _ ← (if negb old_view_is_stable then maybe_stabilize_view q else mret tt);
      try_ (maybe_byzantine_commit q) (follow_qcs old_view_is_stable qcs' k)
  end.

(** What follows acceptance as follower. *)
Definition follower_tail (storage_ack : StorageAck) (this_is_final_block old_view_is_stable : bool) : SM res :=
  _ ← (if no_qc feat && this_is_final_block
       then s ← get; do_byzantine_commit (st_bci s) (st_ci s) else mret tt);
  try_ (if this_is_final_block then send_vote_on_last_block_to_leader storage_ack
        else _ ← buffer_ack storage_ack; mret ROk)
    (s ← get;
     _ ← (if old_view_is_stable
             && (ae_seen_in_this_view s >? commit_index_gap_soft cc)
             && (i64_sub (as_i64 (st_ci s)) (as_i64 (st_bci s)) >? as_i64 (commit_index_gap_hard cc))
          then emit TimerFireNow else mret tt);
     mret ROk).

Definition follower_accept (block : CachedBlock) (storage_ack : StorageAck) (stats : AppendEntriesStats)
    (this_is_final_block : bool) : SM res :=
  _ ← push_block block this_is_final_block;
  _ ← (if this_is_final_block then s ← get; do_crash_commit (st_ci s) (aes_ci stats) else mret tt);
  s ← get;
  last_block ← unwrap (list.last (pending_blocks s));
  follow_qcs (st_view_is_stable s) (cv_qc last_block)
    (follower_tail storage_ack this_is_final_block (st_view_is_stable s)).

(** [process_block_as_leader] and [process_block_as_follower] call each other after a view
    jump; the second call finds the block in its own view, so a fuel of two is enough. *)
Fixpoint process_block_as_leader (fuel : nat) (block : CachedBlock) (storage_ack : StorageAck)
    (stats : AppendEntriesStats) (this_is_final_block : bool) : SM res :=
  match fuel with
  | O => panic
  | S fuel' =>
      v ← gets st_view;
      if aes_view stats <? v then mret ROk
      else if aes_view stats =? v then
        ok ← accept_same_view block stats;
        if negb ok then mret ROk
        else leader_accept block storage_ack this_is_final_block
      else
        _ ← jump_view_as_leader block stats;
        me ← i_am_leader;
        if (me : bool) then process_block_as_leader fuel' block storage_ack stats this_is_final_block
        else process_block_as_follower fuel' block storage_ack stats this_is_final_block
  end
with process_block_as_follower (fuel : nat) (block : CachedBlock) (storage_ack : StorageAck)
    (stats : AppendEntriesStats) (this_is_final_block : bool) : SM res :=
  match fuel with
  | O => panic
  | S fuel' =>
      v ← gets st_view;
      if aes_view stats <? v then mret ROk
      else if aes_view stats =? v then
        ok ← accept_same_view block stats;
        if negb ok then mret ROk
        else follower_accept block storage_ack stats this_is_final_block
      else
        _ ← jump_view_as_follower block stats;
        me ← i_am_leader;
        if (me : bool) then process_block_as_leader fuel' block storage_ack stats this_is_final_block
        else process_block_as_follower fuel' block storage_ack stats this_is_final_block
  end.

(** * View change (view_change.rs) *)

(** The fork of a view-change message: the last committed block and everything pending. *)
Definition my_fork (s : Staging) : list CachedBlock :=
  match curr_parent_for_pending s with Some p => [p] | None => [] end
  ++ map cv_block (pending_blocks s).

Definition create_my_vc_msg (s : Staging) : option ProtoViewChange :=
  let fork_last_n :=
    match list.last (pending_blocks s) with
    | Some e => cv_n e
    | None => match curr_parent_for_pending s with Some p => cb_n p | None => 0 end
    end in
  prepare_vc ks (mkVC (st_view s) (st_config_num s)
    (Some (mkFork (map half_serialize (my_fork s)))) [] fork_last_n (st_last_qc s)).

Definition update_view (view_num config_num : Z) : SM unit :=
  _ ← modify (set_view view_num config_num false);
  s ← get;
  vc_msg ← unwrap (create_my_vc_msg s);
  _ ← emit (ToSequencer (NewUnstableView (st_view s) (st_config_num s)));
  leader ← unwrap (get_leader_for_view feat cc (st_view s));
  _ ← emit (ToBatchProposer false leader);
  _ ← emit (ToClientReply CancelAllRequests);
  _ ← emit (ToForkReceiver (FrUpdateView (st_view s) (st_config_num s)));
  _ ← emit (ToPacemaker (MyViewJumped (st_view s) (st_config_num s) vc_msg));
  _ ← modify (set_ae_seen 0);
  thresh ← unwrap (byzantine_liveness_threshold feat cc);
  emit (BroadcastVC (everyone_except_me cfg) vc_msg (thresh ⊖ 1)).

Definition maybe_update_view (view_num config_num : Z) : SM unit :=
  s ← get;
  if view_num <=? st_view s then mret tt else update_view view_num config_num.

(** [enough] is the pacemaker's answer to the query. *)
Definition handle_view_change_timer_tick (enough : bool) : SM res :=
  if negb (f_view_change feat) then mret ROk
  else
    s ← get;
    if (st_view s =? 0) || st_view_is_stable s then
      _ ← maybe_update_view (st_view s ⊕ 1) (st_config_num s); mret ROk
    else
      _ ← emit (ToPacemaker (QueryEnoughVCMsg (st_view s) (st_config_num s)));
      if enough then
        if 100 <=? vc_retry_num s then
          _ ← maybe_update_view (st_view s ⊕ 1) (st_config_num s);
          _ ← modify (set_vc_retry_num 0);
          mret ROk
        else
          _ ← modify (set_vc_retry_num (vc_retry_num s ⊕ 1));
          mret ROk
      else mret ROk.

(** [None] is the failed [unwrap] of the parent, [Some None] the returned [Err]. *)
Definition check_byz_commit_invariant (s : Staging) (chosen : ForkStat) : option (option Z) :=
  if st_bci s =? 0 then Some (Some 0)
  else
    match curr_parent_for_pending s with
    | None => None
    | Some curr_parent =>
        if fs_fork_last_n chosen =? 0 then
          Some (Some (match list.last (pending_blocks s) with Some e => cv_n e | None => st_bci s end))
        else if fs_first_n chosen <=? st_bci s then
          if negb (existsb (λ h, bool_decide (h = cb_hash curr_parent)) (fs_block_hashes chosen))
          then Some None
          else Some (Some (st_bci s))
        else if fs_first_n chosen =? (st_bci s ⊕ 1) then
          if negb (bool_decide (cb_hash curr_parent = fs_first_parent chosen)) then Some None
          else Some (Some (st_bci s))
        else
          let find_n_in_pending := fs_first_n chosen ⊖ 1 in
          if negb (existsb (λ b, (cv_n b =? find_n_in_pending)
                                 && bool_decide (cb_hash (cv_block b) = fs_first_parent chosen))
                     (pending_blocks s))
          then Some None
          else Some (Some find_n_in_pending)
    end.

Definition stats_to_validation (stats : ForkStats) (vcs : gmap SenderType ProtoViewChange)
    : option (list ProtoForkValidation) :=
  mapM (λ '(sender, stat),
    vc ← vcs !! sender;
    Some (mkForkValidation (vc_view vc) (vc_config_num vc) (fs_block_hashes stat) (fs_fork_last_n stat)
            (fs_last_qc stat) (fs_last_view stat) (fs_last_config_num stat) (vc_fork_sig vc)
            (fst (to_name_and_sub_id sender)))) (hm_iter stats).

Definition send_blocks_to_broadcaster_and_get_stats (vc : ProtoViewChange) : SM ForkStat :=
  fork ← unwrap (vc_fork vc);
  min_qc_len ← unwrap (byzantine_liveness_threshold feat cc);
  let blocks := serialized_blocks fork in
  results ← unwrap (mapM id (prepare_fork feat ks cc blocks min_qc_len));
  _ ← emit (ToBroadcaster (NextAEForkPrefix
              (map (λ r : unit + CachedBlock, match r with inr b => Some b | inl _ => None end) results)));
  block_hashes ← unwrap (mapM (λ r : unit + CachedBlock,
                    match r with inr b => Some (cb_hash b) | inl _ => None end) results);
  '(first_n, first_parent) ←
    match head blocks with
    | Some b => p ← unwrap (get_parent_hash_in_proto_block_ser (hs_body b)); mret (hs_n b, p)
    | None => mret (0, default_hash)
    end;
  let '(last_view, last_config_num, last_n) :=
    match list.last blocks with
    | Some b => (hs_view b, hs_config_num b, hs_n b)
    | None => (0, 0, 0)
    end in
  mret (mkForkStat block_hashes last_n first_n first_parent (vc_fork_last_qc vc) last_view last_config_num).

Definition apply_fork_choice_rule (forks : gmap SenderType ProtoViewChange)
    : SM (ForkStat * list ProtoForkValidation) :=
  stats ← unwrap (vc_to_stats forks);
  fork_validation ← unwrap (stats_to_validation stats forks);
  applicable_forks ← unwrap (fork_choice_filter_from_forks feat cc forks stats);
  chosen_fork ← unwrap (head applicable_forks);
  chosen_fork_stat ← send_blocks_to_broadcaster_and_get_stats chosen_fork;
  mret (chosen_fork_stat, fork_validation).

(** The parent of the new-view block. *)
Definition new_view_parent (s : Staging) (chosen : ForkStat) : HashType :=
  match list.last (fs_block_hashes chosen) with
  | Some h => h
  | None =>
      match list.last (pending_blocks s) with
      | Some e => cb_hash (cv_block e)
      | None => match curr_parent_for_pending s with Some p => cb_hash p | None => default_hash end
      end
  end.

Definition propose_new_view (view_num config_num : Z) (forks : gmap SenderType ProtoViewChange) : SM unit :=
  s ← get;
  if negb (view_num =? st_view s) || negb (config_num =? st_config_num s) then mret tt
  else
    me ← (if st_view_is_stable s then mret false else i_am_leader);
    if negb me then mret tt
    else
      '(chosen_fork, fork_validation) ← apply_fork_choice_rule forks;
      s ← get;
      r ← unwrap (check_byz_commit_invariant s chosen_fork);
      retain_n ← unwrap r;
      _ ← modify (λ s, set_pending (retain (λ b, cv_n b <=? retain_n) (pending_blocks s)) s);
      s ← get;
      _ ← (if st_ci s >? retain_n
           then _ ← modify (set_ci retain_n); emit (ToApp (Rollback retain_n)) else mret tt);
      s ← get;
      emit (ToSequencer (NewViewMessage (st_view s) (st_config_num s) fork_validation
              (new_view_parent s chosen_fork) (fs_fork_last_n chosen_fork))).

Definition process_view_change_message (cmd : PacemakerCommand) : SM res :=
  match cmd with
  | PmUpdateView v c => _ ← maybe_update_view v c; mret ROk
  | NewViewForks v c forks => _ ← propose_new_view v c forks; mret ROk
  | _ => panic
  end.

Definition process_2pc_result (cmd : EngraftActionAfterFutureDone) : SM res :=
  match cmd with
  | ActNone => mret ROk
  | AsLeader name vote => _ ← process_vote name vote; mret ROk
  | AsFollower leader vote => _ ← emit (SendVote leader vote); mret ROk
  end.

(** * The select loop (mod.rs) *)

Inductive StagingEvent :=
  | EvTimer (enough : bool)
  | EvBlock (block : CachedBlock) (storage_ack : StorageAck) (stats : AppendEntriesStats)
            (this_is_final_block : bool)
  | EvVote (sender : SenderType) (vote : ProtoVote)
  | EvPacemaker (cmd : PacemakerCommand)
  | Ev2PC (cmd : EngraftActionAfterFutureDone).

Definition worker (ev : StagingEvent) : SM res :=
  me ← i_am_leader;
  match ev with
  | EvTimer enough => handle_view_change_timer_tick enough
  | EvBlock block ack stats fin =>
      if (me : bool) then process_block_as_leader 2 block ack stats fin
      else process_block_as_follower 2 block ack stats fin
  | EvVote sender vote =>
      if (me : bool) then verify_and_process_vote (fst (to_name_and_sub_id sender)) vote
      else mret ROk
  | EvPacemaker cmd => process_view_change_message cmd
  | Ev2PC cmd => if extra_2pc feat then process_2pc_result cmd else mret ROk
  end.

(** A run of the task: the states it goes through and everything it sent. *)
Inductive run : Staging → list StagingEvent → Staging → list StagingMsg → Prop :=
  | run_nil s : run s [] s []
  | run_cons s ev evs s1 s2 e1 e2 r :
      worker ev s = Some (r, s1, e1) → run s1 evs s2 e2 → run s (ev :: evs) s2 (e1 ++ e2).

End staging.
