(* ===== verification/StagingProofs.v ===== *)
(** The invariant of the staging task and the lemmas that each handler of Staging.v
    preserves it, without panicking.  The ghost argument [L] is the byzantine-committed
    log: everything the task has handed to the application with [ByzCommit] so far. *)

From stdpp Require Import base numbers list gmap strings option.
From S2P Require Import Prelude Types Config Serialize Crypto Chain ForkChoice Staging.

(** The blocks committed by a sequence of messages. *)
Fixpoint byz_blocks (es : list StagingMsg) : list CachedBlock :=
  match es with
  | [] => []
  | ToApp (ByzCommit l) :: es' => l ++ byz_blocks es'
  | _ :: es' => byz_blocks es'
  end.

Lemma byz_blocks_app es1 es2 : byz_blocks (es1 ++ es2) = byz_blocks es1 ++ byz_blocks es2.
Proof.
  induction es1 as [|m es1 IH]; [done|]. simpl.
  destruct m as [| | |[| | |]| | | | | | | | | |]; simpl; rewrite ?IH, ?app_assoc; done.
Qed.

Definition log (L : list CachedBlock) (s : Staging) : list CachedBlock :=
  L ++ map cv_block (pending_blocks s).

(** A vote for a block is a vote for its ancestors. *)
Definition repl_antitone (l : list CachedBlockWithVotes) : Prop :=
  ∀ i j a b, l !! i = Some a → l !! j = Some b → (i ≤ j)%nat → replication_set b ⊆ replication_set a.

Section invariant.
Context `{HIt : HashIter, HCo : Codec, HEd : Ed25519} (feat : Features) (cfg : Config) (ks : KeyStore).

Abbreviation cc := (consensus_config cfg).
Abbreviation SM := (M Staging StagingMsg).

(** A pending entry: its bytes match, its QCs point below it and every collected vote
    signature verifies. *)
Record entry_ok (e : CachedBlockWithVotes) : Prop := {
  eo_wf : cb_wf (cv_block e);
  eo_qc : ∀ q, q ∈ cv_qc e → qc_n q < cv_n e;
  eo_sigs : ∀ name sg, vote_sigs e !! name = Some sg →
    length (se_sig sg) = SIGNATURE_LENGTH ∧ ks_verify ks name (se_sig sg) (cb_hash (cv_block e)) = true }.

Record inv (L : list CachedBlock) (s : Staging) : Prop := {
  inv_chain : chain 0 None (log L s);
  inv_bound : tip_n 0 (log L s) < 2 ^ 64 - 1;
  inv_parent : curr_parent_for_pending s = list.last L;
  inv_bci : st_bci s = Z.of_nat (length L);
  inv_parent_wf : ∀ p, list.last L = Some p → cb_wf p;
  inv_entries : ∀ e, e ∈ pending_blocks s → entry_ok e;
  inv_repl : repl_antitone (pending_blocks s);
  inv_acks : Forall is_Some (storage_ack_buffer s) }.

(** What every message sent must satisfy: proposed certificates verify and name each
    signer once, crash-committed batches are consecutive. *)
Definition msg_ok (thr : Z) (m : StagingMsg) : Prop :=
  match m with
  | ToQcTx q => verify_qc ks q thr = true ∧ NoDup (map ns_name (qc_sig q))
  | ToApp (CrashCommit bs) => ∃ k p, chain k p bs
  | _ => True
  end.

(** Steps that change neither the log nor the view: commits, QC proposals, votes. *)
Definition quiet (thr : Z) (L : list CachedBlock) (s s' : Staging) (es : list StagingMsg) : Prop :=
  inv (L ++ byz_blocks es) s' ∧ log (L ++ byz_blocks es) s' = log L s ∧
  st_view s' = st_view s ∧ Forall (msg_ok thr) es.

(** Steps of whole handlers: the committed log grows, the view does not decrease. *)
Definition safe_step (thr : Z) (L : list CachedBlock) (s s' : Staging) (es : list StagingMsg) : Prop :=
  inv (L ++ byz_blocks es) s' ∧ st_view s ≤ st_view s' ∧ Forall (msg_ok thr) es.

(** * Frame lemmas *)

Lemma inv_ext L s s' :
  pending_blocks s' = pending_blocks s → curr_parent_for_pending s' = curr_parent_for_pending s →
  st_bci s' = st_bci s → storage_ack_buffer s' = storage_ack_buffer s → inv L s → inv L s'.
Proof.
  intros Hp Hc Hb Ha [I1 I2 I3 I4 I5 I6 I7 I8].
  split; unfold log in *; rewrite ?Hp, ?Hc, ?Hb, ?Ha; done.
Qed.

Lemma quiet_refl thr L s s' :
  inv L s → pending_blocks s' = pending_blocks s →
  curr_parent_for_pending s' = curr_parent_for_pending s → st_bci s' = st_bci s →
  storage_ack_buffer s' = storage_ack_buffer s → st_view s' = st_view s → quiet thr L s s' [].
Proof.
  intros Hi Hp Hc Hb Ha Hv. unfold quiet. simpl. rewrite !app_nil_r.
  split; [by eapply inv_ext|]. unfold log. rewrite Hp. done.
Qed.

Lemma quiet_intro thr L s s' es :
  inv L s' → byz_blocks es = [] → log L s' = log L s → st_view s' = st_view s →
  Forall (msg_ok thr) es → quiet thr L s s' es.
Proof. intros Hi Hb Hl Hv Hm. unfold quiet. by rewrite Hb, app_nil_r. Qed.

Lemma quiet_trans thr L s1 s2 s3 es1 es2 :
  quiet thr L s1 s2 es1 → quiet thr (L ++ byz_blocks es1) s2 s3 es2 → quiet thr L s1 s3 (es1 ++ es2).
Proof.
  intros (I1 & E1 & V1 & F1) (I2 & E2 & V2 & F2). unfold quiet.
  rewrite byz_blocks_app, app_assoc. split; [done|]. split; [congruence|]. split; [congruence|].
  by apply Forall_app.
Qed.

Lemma quiet_safe thr L s s' es : quiet thr L s s' es → safe_step thr L s s' es.
Proof. intros (I & _ & V & F). split; [done|]. split; [lia|done]. Qed.

Lemma safe_step_trans thr L s1 s2 s3 es1 es2 :
  safe_step thr L s1 s2 es1 → safe_step thr (L ++ byz_blocks es1) s2 s3 es2 →
  safe_step thr L s1 s3 (es1 ++ es2).
Proof.
  intros (I1 & V1 & F1) (I2 & V2 & F2). unfold safe_step.
  rewrite byz_blocks_app, app_assoc. split; [done|]. split; [lia|]. by apply Forall_app.
Qed.

(** * The pending queue *)

Lemma log_tip L s : tip_n 0 (log L s) = tip_n (Z.of_nat (length L)) (map cv_block (pending_blocks s)).
Proof. unfold log, tip_n. rewrite length_app. lia. Qed.

Lemma inv_pending_chain L s :
  inv L s → chain (st_bci s) (tip_hash None L) (map cv_block (pending_blocks s)).
Proof.
  intros Hi. pose proof (inv_chain _ _ Hi) as Hc. unfold log in Hc. apply chain_app in Hc as [_ Hc].
  rewrite (inv_bci _ _ Hi). exact Hc.
Qed.

Lemma inv_tip L s :
  inv L s → tip_n 0 (log L s) = st_bci s + Z.of_nat (length (pending_blocks s)).
Proof. intros Hi. rewrite log_tip, (inv_bci _ _ Hi). unfold tip_n. by rewrite length_map. Qed.

Lemma inv_pending_n L s e : inv L s → e ∈ pending_blocks s → st_bci s < cv_n e ≤ tip_n 0 (log L s).
Proof.
  intros Hi He. rewrite (inv_tip _ _ Hi).
  apply (list_elem_of_fmap_2 cv_block) in He.
  pose proof (chain_elem_n _ _ _ _ (inv_pending_chain _ _ Hi) He) as Hn.
  unfold tip_n in Hn. by rewrite length_map in Hn.
Qed.

Lemma inv_pending_increasing L s : inv L s → keys_increasing (λ e, cv_n e) (pending_blocks s).
Proof.
  intros Hi i j a b Ha Hb Hij. pose proof (inv_pending_chain _ _ Hi) as Hc.
  apply (chain_increasing _ _ _ Hc i j); [..|done]; by rewrite lookup_map, ?Ha, ?Hb.
Qed.

Lemma inv_last_n L s e :
  inv L s → list.last (pending_blocks s) = Some e → cv_n e = tip_n 0 (log L s).
Proof.
  intros Hi He. rewrite (inv_tip _ _ Hi). rewrite last_lookup in He.
  assert (map cv_block (pending_blocks s) !! pred (length (pending_blocks s)) = Some (cv_block e)) as Hl
    by by rewrite lookup_map, He.
  rewrite (chain_lookup _ _ _ _ _ (inv_pending_chain _ _ Hi) Hl).
  apply lookup_lt_Some in He. lia.
Qed.


Lemma repl_antitone_sub l l' f :
  (∀ i a, l' !! i = Some a → l !! (f i) = Some a) → (∀ i j, (i ≤ j)%nat → (f i ≤ f j)%nat) →
  repl_antitone l → repl_antitone l'.
Proof. intros Hl Hf Hr i j a b Ha Hb Hij. eapply Hr; eauto. Qed.

Lemma repl_antitone_take l i : repl_antitone l → repl_antitone (take i l).
Proof.
  apply (repl_antitone_sub _ _ id); [|done]. intros j a Hj. by apply lookup_take_Some in Hj as [? _].
Qed.

Lemma repl_antitone_drop l i : repl_antitone l → repl_antitone (drop i l).
Proof.
  apply (repl_antitone_sub _ _ (λ j, i + j)%nat); [|lia]. intros j a Hj. by rewrite lookup_drop in Hj.
Qed.

(** Truncating the queue. *)
Lemma inv_truncate L s s' i :
  inv L s → pending_blocks s' = take i (pending_blocks s) →
  curr_parent_for_pending s' = curr_parent_for_pending s → st_bci s' = st_bci s →
  storage_ack_buffer s' = storage_ack_buffer s → inv L s'.
Proof.
  intros Hi Hp Hc Hb Ha. pose proof (inv_tip _ _ Hi) as Ht. pose proof (inv_bound _ _ Hi) as Hbd.
  pose proof (inv_chain _ _ Hi) as Hch. unfold log in Hch. apply chain_app in Hch as [Hc1 Hc2].
  split; rewrite ?Hc, ?Hb, ?Ha, ?Hp; try by apply Hi.
  - unfold log. rewrite Hp. apply chain_app. split; [done|]. rewrite <-firstn_map. by apply chain_take.
  - unfold log, tip_n in *. rewrite Hp. rewrite length_app, length_map, length_take in *. lia.
  - intros e He. apply Hi. eapply elem_of_take in He as (j & Hj & _). by eapply list_elem_of_lookup_2.
  - apply repl_antitone_take, Hi.
Qed.

Lemma retain_pending L s m :
  inv L s → retain (λ e, cv_n e <=? m) (pending_blocks s) =
            take (Z.to_nat (m - st_bci s)) (pending_blocks s).
Proof. intros Hi. eapply (chain_retain_le cv_block). by apply inv_pending_chain. Qed.

(** * Commits *)

Lemma pop_committed_spec new_bci k p parent (l : list CachedBlockWithVotes) :
  chain k p (map cv_block l) → k ≤ new_bci ≤ k + Z.of_nat (length l) →
  let j := Z.to_nat (new_bci - k) in
  pop_committed new_bci l parent =
    (drop j l, match list.last (map cv_block (take j l)) with Some b => Some b | None => parent end,
     map cv_block (take j l)).
Proof.
  revert k p parent. induction l as [|e l IH]; intros k p parent Hc Hr j; subst j.
  { by rewrite take_nil, drop_nil. }
  destruct Hc as (Hn & _ & Hc). simpl in Hr. cbn [pop_committed].
  destruct (Z.gtb_spec (cv_n e) new_bci).
  { replace (Z.to_nat (new_bci - k)) with 0%nat by lia. done. }
  rewrite (IH _ _ _ Hc) by lia.
  replace (Z.to_nat (new_bci - k)) with (S (Z.to_nat (new_bci - (k + 1)))) by lia.
  set (j := Z.to_nat (new_bci - (k + 1))). simpl. repeat f_equal.
  rewrite last_cons. destruct (list.last (map cv_block (take j l))) as [b|] eqn:Hl; [done|].
  apply last_None, map_eq_nil in Hl. destruct (Z.eqb_spec (cv_n e) new_bci); [done|].
  exfalso. apply (f_equal length) in Hl. rewrite length_take in Hl. simpl in Hl. lia.
Qed.

Lemma last_app_list {A} (l1 l2 : list A) :
  list.last (l1 ++ l2) = match list.last l2 with Some b => Some b | None => list.last l1 end.
Proof. apply last_app. Qed.

(** Committing a prefix of the queue. *)
Lemma inv_commit L s s' i :
  inv L s → (i ≤ length (pending_blocks s))%nat →
  pending_blocks s' = drop i (pending_blocks s) →
  curr_parent_for_pending s' =
    match list.last (map cv_block (take i (pending_blocks s))) with
    | Some b => Some b | None => curr_parent_for_pending s end →
  st_bci s' = st_bci s + Z.of_nat i →
  storage_ack_buffer s' = storage_ack_buffer s →
  let L' := L ++ map cv_block (take i (pending_blocks s)) in
  inv L' s' ∧ log L' s' = log L s.
Proof.
  intros Hi Hlen Hp Hc Hb Ha L'.
  assert (log L' s' = log L s) as Hlog.
  { unfold log, L'. rewrite Hp, <-app_assoc, <-map_app, take_drop. done. }
  split; [|done].
  assert (list.last L' = curr_parent_for_pending s') as Hpar.
  { unfold L'. rewrite Hc, last_app_list, <-(inv_parent _ _ Hi). done. }
  split; rewrite ?Hlog, ?Hb, ?Ha, ?Hp; try by apply Hi.
  - done.
  - unfold L'. rewrite (inv_bci _ _ Hi), length_app, length_map, length_take. lia.
  - intros b. unfold L'. rewrite last_app_list.
    destruct (list.last (map cv_block (take i (pending_blocks s)))) as [b'|] eqn:Hl.
    + intros [= ->]. rewrite last_lookup in Hl. apply list_elem_of_lookup_2 in Hl.
      apply elem_of_map in Hl as (e & -> & He). apply elem_of_take in He as (j & Hj & _).
      by eapply eo_wf, (inv_entries _ _ Hi), list_elem_of_lookup_2.
    + apply Hi.
  - intros e He. apply Hi. apply list_elem_of_lookup in He as [j Hj]. rewrite lookup_drop in Hj.
    by eapply list_elem_of_lookup_2.
  - apply repl_antitone_drop, Hi.
Qed.

Lemma wp_do_byzantine_commit thr L s new_bci :
  inv L s → new_bci ≤ tip_n 0 (log L s) →
  wp (do_byzantine_commit (st_bci s) new_bci)
    (λ _ s' es, quiet thr L s s' es ∧ st_view_is_stable s' = st_view_is_stable s ∧
                st_bci s' = st_bci s `max` new_bci) s.
Proof.
  intros Hi Hle. unfold do_byzantine_commit. destruct (Z.leb_spec new_bci (st_bci s)).
  { apply wp_ret. split; [by apply quiet_refl|]. split; [done|lia]. }
  rewrite (inv_tip _ _ Hi) in Hle.
  wp_prims.
  cbn [pending_blocks curr_parent_for_pending set_bci].
  rewrite (pop_committed_spec new_bci _ _ _ _ (inv_pending_chain _ _ Hi)) by lia. cbv beta iota zeta.
  wp_prims. cbn [app st_bci set_parent set_pending set_bci].
  set (j := Z.to_nat (new_bci - st_bci s)).
  edestruct (inv_commit L s) as [Hinv Hlog];
    [done|..|split; [|split; [done|lia]]]; last first.
  { unfold quiet. cbn [byz_blocks]. rewrite app_nil_r. split; [exact Hinv|]. split; [exact Hlog|].
    split; [done|]. repeat constructor. }
  all: cbn; try done. all: unfold j in *; lia.
Qed.


Lemma max_or_le d l B : d ≤ B → (∀ x, x ∈ l → x ≤ B) → max_or d l ≤ B.
Proof.
  intros Hd Hl. destruct l as [|x l]; [done|]. apply Hl. by apply max_or_elem.
Qed.

Lemma qc_ns_upto_elem u l x :
  x ∈ qc_ns_upto u l → ∃ e q, e ∈ l ∧ q ∈ cv_qc e ∧ x = qc_n q ∧ cv_n e ≤ u.
Proof.
  unfold qc_ns_upto. intros Hx. apply list_elem_of_In, in_concat in Hx as (ys & Hys & Hx).
  apply list_elem_of_In, elem_of_map in Hys as (e & -> & He). apply elem_of_retain in He as [Hu He].
  apply list_elem_of_In, elem_of_map in Hx as (q & -> & Hq).
  exists e, q. repeat split; [|done|bool_to_prop; lia].
  apply list_elem_of_In, in_rev. by apply list_elem_of_In.
Qed.

(** A commit never reaches past the incoming certificate or the QCs of the queue. *)
Lemma byz_commit_target_bound L s q :
  inv L s → byz_commit_target feat cfg s q ≤ st_bci s `max` (qc_n q `max` (tip_n 0 (log L s) - 1)).
Proof.
  intros Hi. set (B := st_bci s `max` (qc_n q `max` (tip_n 0 (log L s) - 1))).
  assert (∀ u, max_or (st_bci s) (qc_ns_upto u (pending_blocks s)) ≤ B) as Hs.
  { intros u. apply max_or_le; [lia|]. intros x (e & q' & He & Hq & -> & _)%qc_ns_upto_elem.
    pose proof (eo_qc _ (inv_entries _ _ Hi e He) q' Hq). pose proof (inv_pending_n _ _ _ Hi He). lia. }
  unfold byz_commit_target, new_bci_fast_path, new_bci_slow_path.
  match goal with |- (?f `max` ?g) ≤ _ => enough (f ≤ B ∧ g ≤ B) by lia end. split.
  - destruct (_ && _); [destruct (fast_path feat)|]; lia.
  - destruct (extra_qc_check feat && _); apply Hs.
Qed.

Lemma quiet_emit thr L s m :
  inv L s → msg_ok thr m → byz_blocks [m] = [] → quiet thr L s s [m].
Proof.
  intros Hi Hm Hb. apply quiet_intro; [done..|by constructor].
Qed.

Lemma wp_maybe_byzantine_commit thr L s q :
  inv L s → qc_n q ≤ tip_n 0 (log L s) →
  wp (maybe_byzantine_commit feat cfg q)
    (λ r s' es, r = ROk ∧ quiet thr L s s' es ∧ st_view_is_stable s' = st_view_is_stable s ∧
      st_bci s' = st_bci s `max` byz_commit_target feat cfg s q) s.
Proof.
  intros Hi Hq. unfold maybe_byzantine_commit. wp_prim. wp_prim. wp_prim.
  apply (wp_mono _ (λ _ s1 e1, quiet thr L s s1 e1 ∧ st_view_is_stable s1 = st_view_is_stable s
     ∧ pending_blocks s1 = pending_blocks s ∧ st_bci s1 = st_bci s ∧ byz_blocks e1 = [])).
  2:{ destruct (_ && _).
      - wp_prims. unfold maybe_update_last_qc. wp_prims. cbn.
        destruct (_ >? _); (split; [|done]); apply (quiet_trans thr L s s _ [TimerReset] []);
          try (by apply quiet_emit); simpl; rewrite app_nil_r; by apply quiet_refl.
      - wp_prims. split; [by apply quiet_refl|done]. }
  intros [] s1 e1 (Hq1 & Hst1 & Hp1 & Hb1 & He1). wp_prims. cbn.
  set (s2 := set_pending_signatures _ s1).
  assert (byz_commit_target feat cfg s2 q = byz_commit_target feat cfg s q) as Htgt
    by (unfold byz_commit_target, new_bci_fast_path, new_bci_slow_path; cbn; by rewrite Hst1, Hp1, Hb1).
  destruct Hq1 as (Hi1 & Hlog1 & Hv1 & Hm1). rewrite He1, app_nil_r in Hi1, Hlog1.
  assert (inv L s2) as Hi2 by by apply (inv_ext L s1).
  assert (log L s2 = log L s) as Hlog2 by done.
  pose proof (byz_commit_target_bound L s q Hi) as Ht. rewrite Htgt.
  pose proof (inv_tip _ _ Hi) as Htip.
  eapply wp_mono; [|apply (wp_do_byzantine_commit thr L s2); [done|]].
  2:{ rewrite Hlog2. lia. }
  intros [] s3 e3 ((Hi3 & Hlog3 & Hv3 & Hm3) & Hst3 & Hb3). cbn. split; [done|].
  split; [|split; [by rewrite Hst3|rewrite Hb3; change (st_bci s2) with (st_bci s1); congruence]].
  unfold quiet. rewrite app_nil_r, byz_blocks_app, He1. simpl. split; [done|].
  split; [congruence|]. split; [rewrite Hv3; exact Hv1|]. by apply Forall_app.
Qed.

(** * Configuration and keys *)

Lemma i_am_leader_frame me s s' es : i_am_leader feat cfg s = Some (me, s', es) → s' = s ∧ es = [].
Proof.
  unfold i_am_leader, mbind, M_bind, gets, unwrap. destruct (get_leader_for_view _ _ _); [|done].
  by intros [= _ <- <-].
Qed.

Context (thr : Z) (Hleader : ∀ v, is_Some (get_leader_for_view feat cc v)).
Context (Hthr : byzantine_liveness_threshold feat cc = Some thr).

Lemma wp_i_am_leader (Q : bool → Staging → list StagingMsg → Prop) s :
  (∀ b, Q b s []) → wp (i_am_leader feat cfg) Q s.
Proof.
  intros HQ. unfold i_am_leader. wp_prims. destruct (Hleader (st_view s)) as [l Hl].
  eapply wp_unwrap; [exact Hl|]. wp_prims. apply HQ.
Qed.

Lemma wp_maybe_stabilize_view L s q :
  inv L s → pending_blocks s ≠ [] →
  wp (maybe_stabilize_view feat cfg q)
    (λ _ s' es, quiet thr L s s' es ∧ pending_blocks s' = pending_blocks s ∧ st_bci s' = st_bci s ∧
      byz_blocks es = [] ∧ (qc_view q = st_view s → st_view_is_stable s' = true)) s.
Proof.
  intros Hi Hne. unfold maybe_stabilize_view. wp_prims.
  destruct (list.last (pending_blocks s)) as [e|] eqn:Hl; [|by apply last_None in Hl].
  eapply wp_unwrap; [done|]. destruct (Z.eqb_spec (qc_view q) (st_view s)); cbn [negb].
  2:{ wp_prims. split; [by apply quiet_refl|done]. }
  wp_prims. cbn [app]. destruct (Hleader (st_view s)) as [l Hld].
  eapply wp_unwrap; [exact Hld|]. wp_prim. apply wp_i_am_leader. intros b. wp_prims. cbn.
  split; [|done]. apply quiet_intro; [by apply (inv_ext L s)|done..|by repeat constructor].
Qed.


(** Changing the votes of the queue, not its blocks. *)
Lemma inv_revote L s s' :
  inv L s → map cv_block (pending_blocks s') = map cv_block (pending_blocks s) →
  (∀ e, e ∈ pending_blocks s' → entry_ok e) → repl_antitone (pending_blocks s') →
  curr_parent_for_pending s' = curr_parent_for_pending s → st_bci s' = st_bci s →
  storage_ack_buffer s' = storage_ack_buffer s → inv L s' ∧ log L s' = log L s.
Proof.
  intros Hi Hm He Hr Hp Hb Ha. assert (log L s' = log L s) as Hlog by (unfold log; by rewrite Hm).
  split; [|done]. split; rewrite ?Hlog, ?Hp, ?Hb, ?Ha; try by apply Hi. all: done.
Qed.

(** * Quorum certificates *)

Context (Hfast : thr ≤ byzantine_fast_path_threshold cc).
Context (Hbatch : ∀ d sigs keys, Forall2 (λ s k, ed_verify k d s = true) sigs keys →
                    ed_verify_batch (replicate (length keys) d) sigs keys = true).

Lemma make_qc_verifies view e :
  entry_ok e → thr ≤ Z.of_nat (size (vote_sigs e)) → verify_qc ks (make_qc view e) thr = true.
Proof.
  intros [_ _ Hs] Hsize. apply verify_qc_true. cbn [qc_sig qc_digest make_qc].
  assert (∀ name sg, (name, sg) ∈ hm_iter (vote_sigs e) →
    length (se_sig sg) = SIGNATURE_LENGTH ∧
    ∃ k, get_pubkey ks name = Some k ∧ ed_verify k (cb_hash (cv_block e)) (se_sig sg) = true) as Hall.
  { intros name sg Hin. apply elem_of_hm_iter, Hs in Hin as [Hl Hv]. split; [done|].
    unfold ks_verify in Hv. destruct (get_pubkey ks name) as [k|]; [eauto|done]. }
  rewrite length_map, length_hm_iter.
  enough (∃ keys,
    Forall2 (λ x k, get_pubkey ks (ns_name x) = Some k)
      (map (λ kv, mkNameSig kv.1 (se_sig kv.2)) (hm_iter (vote_sigs e))) keys ∧
    Forall (λ x, length (ns_sig x) = SIGNATURE_LENGTH)
      (map (λ kv, mkNameSig kv.1 (se_sig kv.2)) (hm_iter (vote_sigs e))) ∧
    Forall2 (λ s k, ed_verify k (cb_hash (cv_block e)) s = true)
      (map ns_sig (map (λ kv, mkNameSig kv.1 (se_sig kv.2)) (hm_iter (vote_sigs e)))) keys)
    as (keys & H1 & H2 & H3).
  { exists keys. split; [done|]. split; [done|]. split; [done|]. by apply Hbatch. }
  clear -Hall. induction (hm_iter (vote_sigs e)) as [|[name sg] l IH]; simpl.
  { exists []. repeat constructor. }
  destruct (Hall name sg) as (Hl & k & Hk & Hv); [left|].
  destruct IH as (keys & F1 & F2 & F3); [intros; apply Hall; by right|].
  exists (k :: keys). repeat constructor; done.
Qed.

Lemma collect_qcs_spec fthr view l l2 qcs :
  thr ≤ fthr → collect_qcs thr fthr view l = (l2, qcs) →
  Forall2 (λ e e', cv_block e' = cv_block e ∧ vote_sigs e' = vote_sigs e
                   ∧ replication_set e' = replication_set e) l l2 ∧
  ∀ q, q ∈ qcs → ∃ e, e ∈ l ∧ q = make_qc view e ∧ thr ≤ Z.of_nat (size (vote_sigs e)).
Proof.
  intros Hf. revert l2 qcs. induction l as [|e l IH]; intros l2 qcs; cbn [collect_qcs].
  { intros [= <- <-]. split; [constructor|]. intros q Hq. by apply not_elem_of_nil in Hq. }
  destruct (collect_qcs thr fthr view l) as [l2' qcs'] eqn:E.
  destruct (IH l2' qcs' eq_refl) as [F Hq'].
  assert (∀ q, q ∈ qcs' → ∃ e0, e0 ∈ e :: l ∧ q = make_qc view e0 ∧ thr ≤ Z.of_nat (size (vote_sigs e0))) as Hq.
  { intros q Hq. destruct (Hq' q Hq) as (e0 & ? & ?). exists e0. split; [by right|done]. }
  destruct (_ && _); [intros [= <- <-]; split; [by constructor|done]|].
  destruct (Z.leb_spec (if qc_is_proposed e then fthr else thr) (Z.of_nat (size (vote_sigs e))));
    intros [= <- <-]; (split; [by constructor|]); [|done].
  intros q [->|Hin]%elem_of_cons; [|by apply Hq].
  exists e. split; [left|]. split; [done|]. destruct (qc_is_proposed e); lia.
Qed.

Lemma wp_propose_qcs qcs L s :
  inv L s → (qcs = [] ∨ st_view_is_stable s = true ∨ pending_blocks s ≠ []) →
  (∀ q, q ∈ qcs → msg_ok thr (ToQcTx q) ∧ qc_view q = st_view s ∧ qc_n q ≤ tip_n 0 (log L s)) →
  wp (propose_qcs feat cfg qcs) (λ r s' es, r = ROk ∧ quiet thr L s s' es) s.
Proof.
  revert L s. induction qcs as [|q qcs IH]; intros L s Hi Hne Hq; cbn [propose_qcs].
  { wp_prims. split; [done|]. by apply quiet_refl. }
  destruct (Hq q) as (Hv & Hvw & Hn); [left|].
  wp_prims.
  apply (wp_mono _ (λ _ s1 e1, quiet thr L s s1 e1 ∧ byz_blocks e1 = [] ∧ st_view_is_stable s1 = true)).
  2:{ destruct (st_view_is_stable s) eqn:Hst; cbn [negb].
      - wp_prims. split; [by apply quiet_refl|done].
      - eapply wp_mono; [|apply (wp_maybe_stabilize_view L s q Hi)]; [|by destruct Hne as [?|[?|?]]; congruence].
        intros [] s1 e1 (Hq1 & _ & _ & Hb1 & Hs1). auto. }
  intros [] s1 e1 (Hq1 & He1 & Hst1). wp_prims. pose proof Hq1 as (Hi1 & Hlog1 & Hv1 & Hm1).
  rewrite He1, app_nil_r in Hi1, Hlog1.
  eapply wp_mono; [|apply (wp_maybe_byzantine_commit thr L s1 q Hi1)]; [|by rewrite Hlog1].
  intros r s2 e2 (-> & Hq2 & Hst2 & _).
  assert (quiet thr L s s2 (e1 ++ [ToQcTx q] ++ e2)) as Hq12.
  { eapply quiet_trans; [exact Hq1|]. rewrite He1, app_nil_r.
    eapply quiet_trans; [by apply (quiet_emit thr L s1 (ToQcTx q))|]. simpl. by rewrite app_nil_r. }
  pose proof Hq12 as (Hi2 & Hlog2 & Hv2 & _).
  eapply wp_mono; [|apply (IH (L ++ byz_blocks (e1 ++ [ToQcTx q] ++ e2)) s2); [done|right; left; congruence|]].
  - intros r s3 e3 [-> Hq3]. split; [done|]. cbn [app].
    replace (e1 ++ ToQcTx q :: e2 ++ e3) with ((e1 ++ [ToQcTx q] ++ e2) ++ e3) by by rewrite <-!app_assoc.
    by eapply quiet_trans.
  - intros q' Hin. rewrite Hlog2, Hv2. apply Hq. by right.
Qed.

Lemma wp_maybe_create_qcs L s :
  inv L s → wp (maybe_create_qcs feat cfg) (λ r s' es, r = ROk ∧ quiet thr L s s' es) s.
Proof.
  intros Hi. unfold maybe_create_qcs. wp_prims. eapply wp_unwrap; [exact Hthr|]. wp_prims.
  destruct (collect_qcs thr (byzantine_fast_path_threshold cc) (st_view s) (pending_blocks s))
    as [l qcs] eqn:E.
  destruct (collect_qcs_spec _ _ _ _ _ Hfast E) as [F Hq]. wp_prims. cbn [app].
  set (s1 := set_pending l s).
  assert (inv L s1 ∧ log L s1 = log L s) as [Hi1 Hlog1].
  { apply inv_revote; try done; cbn.
    - symmetry. clear -F. induction F as [|e e' l l' (He & _) F IH]; simpl; [done|]. by rewrite He, IH.
    - intros e' [i Hi']%list_elem_of_lookup.
      destruct (Forall2_lookup_r _ _ _ _ _ F Hi') as (e & Hl & Hb & Hvs & _).
      apply list_elem_of_lookup_2 in Hl. destruct (inv_entries _ _ Hi e Hl) as [W Q S].
      split; rewrite ?Hb, ?Hvs; done.
    - intros i j a b Ha Hb' Hij.
      destruct (Forall2_lookup_r _ _ _ _ _ F Ha) as (a' & Ha' & _ & _ & ->).
      destruct (Forall2_lookup_r _ _ _ _ _ F Hb') as (b' & Hb'' & _ & _ & ->).
      by eapply (inv_repl _ _ Hi). }
  eapply wp_mono; [|apply (wp_propose_qcs qcs L s1 Hi1)].
  - intros r s2 e2 [-> (Hi2 & Hlog2 & Hv2 & Hm2)]. split; [done|]. unfold quiet.
    split; [done|]. split; [congruence|]. done.
  - destruct qcs as [|q qcs']; [by left|right; right]. cbn.
    destruct (Hq q) as (e & He & _); [left|]. intros ->. apply Forall2_length in F.
    apply list_elem_of_lookup in He as [i He]. apply lookup_lt_Some in He. simpl in F. lia.
  - intros q Hin. destruct (Hq q Hin) as (e & He & -> & Hsz). split; [|split; [done|]].
    + split; [apply make_qc_verifies; [by apply (inv_entries _ _ Hi)|done]|].
      cbn [qc_sig make_qc]. rewrite map_map. apply (NoDup_hm_keys (vote_sigs e)).
    + rewrite Hlog1. cbn. by eapply inv_pending_n.
Qed.


(** * Crash commit *)

Lemma wp_do_crash_commit L s old_ci new_ci :
  inv L s → wp (do_crash_commit old_ci new_ci)
    (λ _ s' es, quiet thr L s s' es ∧ byz_blocks es = [] ∧ pending_blocks s' = pending_blocks s ∧
       st_view_is_stable s' = st_view_is_stable s ∧ st_ci s' = (if new_ci <=? old_ci then st_ci s else new_ci)) s.
Proof.
  intros Hi. unfold do_crash_commit. destruct (new_ci <=? old_ci).
  { wp_prims. split; [by apply quiet_refl|done]. }
  wp_prims. cbn. split; [|done]. apply quiet_intro; [by apply (inv_ext L s)|done..|].
  constructor; [done|]. constructor; [|done].
  eapply (chain_interval cv_block). by apply inv_pending_chain.
Qed.

Lemma crash_threshold_Some s : is_Some (crash_threshold feat cfg s).
Proof.
  unfold crash_threshold, byzantine_commit_threshold. rewrite Hthr.
  destruct (no_qc feat); [eauto|]. destruct (_ >? _); eauto.
Qed.

Lemma wp_maybe_crash_commit L s :
  inv L s → wp (maybe_crash_commit feat cfg)
    (λ r s' es, r = ROk ∧ quiet thr L s s' es ∧ byz_blocks es = [] ∧ pending_blocks s' = pending_blocks s) s.
Proof.
  intros Hi. unfold maybe_crash_commit. wp_prims. destruct (crash_threshold_Some s) as [t Ht].
  eapply wp_unwrap; [exact Ht|]. wp_prims. cbn [app].
  set (new_ci := crash_scan t (pending_blocks s) (st_ci s)).
  assert (inv L (set_ci new_ci s)) as Hi1 by by apply (inv_ext L s).
  eapply wp_mono; [|apply (wp_do_crash_commit L (set_ci new_ci s) (st_ci s) new_ci Hi1)].
  intros [] s2 e2 (Hq & Hb & Hp & _). wp_prims. rewrite app_nil_r. done.
Qed.

(** * Votes *)

Lemma take_sigs_spec sender n sigs m rest m' :
  take_sigs sender n sigs m = (rest, m') →
  (∀ x, x ∈ rest → x ∈ sigs) ∧
  (∀ name sg, m' !! name = Some sg → m !! name = Some sg ∨ (name = sender ∧ sg ∈ sigs ∧ se_n sg = n)).
Proof.
  revert m rest m'. induction sigs as [|e sigs IH]; intros m rest m'; cbn [take_sigs].
  { intros [= <- <-]. auto. }
  destruct (Z.eqb_spec (se_n e) n); cbn [negb].
  - intros E. destruct (IH _ _ _ E) as [Hr Hm]. split; [intros x Hx; right; auto|].
    intros name sg Hl. destruct (Hm name sg Hl) as [Hi|(-> & Hin & Hn)].
    + destruct (decide (name = sender)) as [->|].
      * rewrite lookup_insert_eq in Hi. simplify_eq. right. split; [done|]. split; [left|done].
      * rewrite lookup_insert_ne in Hi by done. auto.
    + right. split; [done|]. split; [by right|done].
  - destruct (take_sigs sender n sigs m) as [rest0 m0] eqn:E. intros [= <- <-].
    destruct (IH _ _ _ E) as [Hr Hm]. split.
    + intros x [->|Hx]%elem_of_cons; [left|right; auto].
    + intros name sg Hl. destruct (Hm name sg Hl) as [?|(-> & ? & ?)]; [auto|].
      right. split; [done|]. split; [by right|done].
Qed.

Lemma apply_vote_lookup sender vote_n sigs l i e' :
  apply_vote sender vote_n sigs l !! i = Some e' →
  ∃ e, l !! i = Some e ∧ cv_block e' = cv_block e ∧
    replication_set e' = (if cv_n e <=? vote_n then {[sender]} ∪ replication_set e else replication_set e) ∧
    ∀ name sg, vote_sigs e' !! name = Some sg →
      vote_sigs e !! name = Some sg ∨ (name = sender ∧ sg ∈ sigs ∧ se_n sg = cv_n e).
Proof.
  revert sigs i. induction l as [|e l IH]; intros sigs i; cbn [apply_vote]; [done|].
  destruct (is_signed (cb_block (cv_block e))) eqn:Hs.
  - destruct (take_sigs sender (cv_n e) sigs (vote_sigs e)) as [sigs' vs] eqn:E.
    destruct (take_sigs_spec _ _ _ _ _ _ E) as [Hr Hm].
    destruct i as [|i]; intros Hi; simpl in Hi; simplify_eq.
    + exists e. repeat split; try done.
    + destruct (IH sigs' i Hi) as (e0 & ? & ? & ? & Hv). exists e0. split_and!; [done..|].
      intros name sg Hl. destruct (Hv name sg Hl) as [?|(-> & ? & ?)]; [auto|].
      right. auto.
  - destruct i as [|i]; intros Hi; simpl in Hi; simplify_eq; [|by apply IH].
    exists e. repeat split; try done. auto.
Qed.

Lemma apply_vote_blocks sender vote_n sigs l :
  map cv_block (apply_vote sender vote_n sigs l) = map cv_block l.
Proof.
  revert sigs. induction l as [|e l IH]; intros sigs; [done|]. cbn [apply_vote].
  destruct (if is_signed _ then _ else _) as [sigs' vs]. simpl. by rewrite IH.
Qed.

(** The signatures of a vote are valid for the pending blocks they name. *)
Definition vote_sigs_ok (s : Staging) (sender : string) (sigs : list ProtoSignatureArrayEntry) : Prop :=
  ∀ sg e, sg ∈ sigs → e ∈ pending_blocks s → cv_n e = se_n sg →
    length (se_sig sg) = SIGNATURE_LENGTH ∧ ks_verify ks sender (se_sig sg) (cb_hash (cv_block e)) = true.

Lemma inv_apply_vote L s sender vote :
  inv L s → vote_sigs_ok s sender (sig_array vote) →
  let s' := set_pending (apply_vote sender (vote_n vote) (sig_array vote) (pending_blocks s)) s in
  inv L s' ∧ log L s' = log L s.
Proof.
  intros Hi Hok s'. apply inv_revote; try done; cbn.
  - apply apply_vote_blocks.
  - intros e' [i Hi']%list_elem_of_lookup.
    apply apply_vote_lookup in Hi' as (e & Hl & Hb & _ & Hs). apply list_elem_of_lookup_2 in Hl.
    destruct (inv_entries _ _ Hi e Hl) as [W Q S]. split; rewrite ?Hb; try done.
    intros name sg Hsg. destruct (Hs name sg Hsg) as [?|(-> & Hin & Hn)]; [by eapply S|].
    by apply Hok.
  - intros i j a b Ha Hb Hij.
    apply apply_vote_lookup in Ha as (a0 & Ha0 & _ & -> & _).
    apply apply_vote_lookup in Hb as (b0 & Hb0 & _ & -> & _).
    pose proof (inv_repl _ _ Hi i j a0 b0 Ha0 Hb0 Hij) as Hsub.
    assert (cv_n a0 ≤ cv_n b0) as Hn.
    { destruct (decide (i = j)) as [->|]; [simplify_eq; lia|].
      pose proof (inv_pending_increasing _ _ Hi i j a0 b0 Ha0 Hb0 ltac:(lia)). simpl in *. lia. }
    destruct (Z.leb_spec (cv_n b0) (vote_n vote)), (Z.leb_spec (cv_n a0) (vote_n vote)); try lia; intros x; rewrite ?elem_of_union; specialize (Hsub x); tauto.
Qed.

Context (Hnoqc : no_qc feat = false) (H2pc : extra_2pc feat = false).

Lemma wp_process_vote L s sender vote :
  inv L s → vote_sigs_ok s sender (sig_array vote) →
  wp (process_vote feat cfg sender vote) (λ r s' es, r = ROk ∧ quiet thr L s s' es) s.
Proof.
  intros Hi Hok. unfold process_vote. wp_prims.
  destruct (negb _); [wp_prims; split; [done|by apply quiet_refl]|].
  destruct (pending_blocks s) as [|e0 l0] eqn:Hp; [wp_prims; split; [done|by apply quiet_refl]|].
  destruct (list.last (e0 :: l0)) as [el|] eqn:Hl; [|wp_prims; split; [done|by apply quiet_refl]].
  destruct (negb _); [wp_prims; split; [done|by apply quiet_refl]|].
  wp_prims. cbn [app].
  destruct (inv_apply_vote L s sender vote Hi Hok) as [Hi1 Hlog1].
  set (s1 := set_pending _ s) in *.
  eapply wp_mono; [|apply (wp_maybe_crash_commit L s1 Hi1)].
  intros r s2 e2 (-> & (Hi2 & Hlog2 & Hv2 & Hm2) & Hb2 & _). rewrite Hnoqc.
  eapply wp_mono; [|apply (wp_maybe_create_qcs (L ++ byz_blocks e2) s2 Hi2)].
  intros r s3 e3 [-> Hq3]. split; [done|]. eapply quiet_trans; [|exact Hq3].
  split; [done|]. split; [congruence|]. done.
Qed.


Lemma verify_vote_sigs_ok L s sender sigs results :
  inv L s → verify_vote_sigs ks sender (pending_blocks s) sigs = Some results →
  forallb id results = true → vote_sigs_ok s sender sigs.
Proof.
  intros Hi. revert results. induction sigs as [|sg sigs IH]; intros results Hv Hall.
  { intros sg e Hsg. by apply not_elem_of_nil in Hsg. }
  cbn [verify_vote_sigs] in Hv. pose proof (inv_pending_increasing _ _ Hi) as Hinc.
  destruct (binary_search_by (λ b, cv_n b) (se_n sg) (pending_blocks s)) as [idx|] eqn:Hb.
  - apply binary_search_by_Some in Hb as (e0 & He0 & Hn0); [|done]. rewrite He0 in Hv.
    destruct (sig_try_into (se_sig sg)) as [x|] eqn:Hx; [|done].
    apply sig_try_into_Some in Hx as [-> Hlen].
    destruct (verify_vote_sigs ks sender (pending_blocks s) sigs) as [rs|]; [|done].
    simplify_eq/=. apply andb_true_iff in Hall as [Hk Hrs].
    intros sg' e [->|Hin]%elem_of_cons He Hn; [|by eapply (IH rs)].
    apply list_elem_of_lookup in He as [j Hj].
    assert (idx = j) as <-; [|by simplify_eq].
    destruct (Nat.lt_trichotomy idx j) as [Hlt|[?|Hlt]]; [|done|].
    + pose proof (Hinc idx j _ _ He0 Hj Hlt). simpl in *. lia.
    + pose proof (Hinc j idx _ _ Hj He0 Hlt). simpl in *. lia.
  - rewrite binary_search_by_None in Hb by done.
    intros sg' e [->|Hin]%elem_of_cons He Hn; [by apply Hb in He|by eapply (IH results)].
Qed.

Lemma wp_verify_and_process_vote L s sender vote :
  inv L s →
  wp (verify_and_process_vote feat cfg ks sender vote) (λ r s' es, r = ROk ∧ quiet thr L s s' es) s.
Proof.
  intros Hi. unfold verify_and_process_vote. wp_prims.
  destruct (verify_vote_sigs ks sender (pending_blocks s) (sig_array vote)) as [results|] eqn:Hv.
  - destruct (forallb id results) eqn:Hall; cbn [negb].
    + apply wp_process_vote; [done|]. by eapply verify_vote_sigs_ok.
    + wp_prims. split; [done|by apply quiet_refl].
  - wp_prims. split; [done|by apply quiet_refl].
Qed.

Lemma wp_await_acks L s ack :
  inv L s → is_Some ack →
  wp (await_acks ack) (λ _ s' es, es = [] ∧ s' = set_ack_buffer [] s) s.
Proof.
  intros Hi [r ->]. unfold await_acks. wp_prims. pose proof (inv_acks _ _ Hi) as Ha.
  set (s1 := set_ack_buffer [] s).
  apply (wp_mono _ (λ _ s' es, es = [] ∧ s' = s1)).
  - intros [] s2 es [-> ->]. wp_prims. eapply wp_unwrap; [done|]. wp_prims. done.
  - clearbody s1. induction Ha as [|a l [x ->] Ha IH]; cbn [mfor]; wp_prims; [done|].
    eapply wp_unwrap; [done|]. wp_prims. eapply wp_mono; [|exact IH]. by intros [] s2 es [-> ->].
Qed.

Lemma inv_no_acks L s : inv L s → inv L (set_ack_buffer [] s).
Proof. intros [I1 I2 I3 I4 I5 I6 I7 I8]. by split. Qed.

(** The node's own key is registered and its signatures verify. *)
Context (Hown : ∀ m, length (ks_sign ks m) = SIGNATURE_LENGTH ∧
                     ks_verify ks (net_name cfg) (ks_sign ks m) m = true).

Lemma wp_vote_on_last_block_for_self L s ack :
  inv L s → pending_blocks s ≠ [] → is_Some ack →
  wp (vote_on_last_block_for_self feat cfg ks ack) (λ r s' es, r = ROk ∧ quiet thr L s s' es) s.
Proof.
  intros Hi Hne Hack. unfold vote_on_last_block_for_self. wp_prims.
  destruct (list.last (pending_blocks s)) as [e|] eqn:Hl; [|by apply last_None in Hl].
  wp_prims. eapply wp_mono; [|by apply (wp_await_acks L s)].
  intros [] s1 es [-> ->]. rewrite H2pc. cbn [app].
  eapply wp_mono; [|apply (wp_process_vote L); [by apply inv_no_acks|]].
  - intros r s2 e2 [-> Hq]. split; [done|]. exact Hq.
  - cbn [sig_array]. intros sg e' Hsg He' Hn. cbn in He'.
    destruct (is_signed _); [|by apply not_elem_of_nil in Hsg].
    apply list_elem_of_singleton in Hsg as ->. cbn in *.
    enough (e' = e) as -> by apply Hown.
    apply list_elem_of_lookup in He' as [j Hj]. rewrite last_lookup in Hl.
    set (i := pred (length (pending_blocks s))) in *.
    assert (i = j) as <-; [|by simplify_eq].
    pose proof (inv_pending_increasing _ _ Hi) as Hinc.
    destruct (Nat.lt_trichotomy i j) as [Hlt|[?|Hlt]]; [|done|].
    + pose proof (Hinc i j _ _ Hl Hj Hlt). simpl in *. lia.
    + pose proof (Hinc j i _ _ Hj Hl Hlt). simpl in *. lia.
Qed.

Lemma wp_send_vote_on_last_block_to_leader L s ack :
  inv L s → pending_blocks s ≠ [] → is_Some ack →
  wp (send_vote_on_last_block_to_leader feat cfg ks ack) (λ r s' es, r = ROk ∧ quiet thr L s s' es) s.
Proof.
  intros Hi Hne Hack. unfold send_vote_on_last_block_to_leader. wp_prims.
  destruct (list.last (pending_blocks s)) as [e|] eqn:Hl; [|by apply last_None in Hl].
  wp_prims. eapply wp_mono; [|by apply (wp_await_acks L s)].
  intros [] s1 es [-> ->]. wp_prims.
  apply (wp_mono _ (λ _ s2 e2, e2 = [] ∧ inv L s2 ∧ log L s2 = log L s ∧ st_view s2 = st_view s)).
  - intros [] s2 e2 (-> & Hi2 & Hlog & Hv). wp_prims. destruct (Hleader (st_view s)) as [ld Hld].
    eapply wp_unwrap; [exact Hld|]. rewrite H2pc. wp_prims. cbn [app]. split; [done|].
    apply quiet_intro; [done..|by repeat constructor].
  - destruct (is_signed _); wp_prims; (split; [done|]); (split; [|done]).
    + by apply (inv_ext L (set_ack_buffer [] s)), inv_no_acks.
    + by apply inv_no_acks.
Qed.


(** * Accepting blocks *)

(** A block as the verification stage delivers it. *)
Record block_ok (b : CachedBlock) : Prop := {
  bo_wf : cb_wf b;
  bo_n : 1 ≤ cb_n b < 2 ^ 64 - 1;
  bo_qc : ∀ q, q ∈ pb_qc (cb_block b) → qc_n q < cb_n b }.

Lemma tip_hash_log L s :
  tip_hash None (log L s) =
    match list.last (pending_blocks s) with
    | Some e => Some (cb_hash (cv_block e))
    | None => cb_hash <$> list.last L
    end.
Proof.
  unfold tip_hash, log. rewrite last_app_list, last_map.
  destruct (list.last (pending_blocks s)); [done|]. simpl. by destruct (list.last L).
Qed.

(** What the continuity check establishes: the block extends the log, or it is pending
    already. *)
Lemma check_continuity_spec L s b :
  inv L s → block_ok b → check_continuity s b = true →
  (cb_n b = tip_n 0 (log L s) + 1 ∧ ∀ h, tip_hash None (log L s) = Some h → cb_parent b = h) ∨
  (∃ e, e ∈ pending_blocks s ∧ cv_n e = cb_n b ∧ cb_hash (cv_block e) = cb_hash b).
Proof.
  intros Hi [_ Hn _]. unfold check_continuity. rewrite tip_hash_log.
  pose proof (inv_tip _ _ Hi) as Ht. pose proof (inv_bound _ _ Hi) as Hbd.
  pose proof (inv_bci _ _ Hi) as Hb. pose proof (inv_parent _ _ Hi) as Hp. rewrite Hp.
  destruct (pending_blocks s) as [|e0 l0] eqn:Hpb; rewrite Ht in *; cbn [length] in *.
  - intros Hc. left. simpl. destruct (list.last L) as [p|] eqn:Hl.
    + assert (cb_n p = st_bci s) as Hpn.
      { pose proof (inv_chain _ _ Hi) as Hch. unfold log in Hch. rewrite Hpb, app_nil_r in Hch.
        rewrite last_lookup in Hl. rewrite (chain_lookup _ _ _ _ _ Hch Hl). apply lookup_lt_Some in Hl. lia. }
      bool_to_prop. rewrite u64_add_small in * by lia. split; [lia|]. simpl. intros h [= <-]. done.
    + apply last_None in Hl as ->. simpl in Hb. bool_to_prop. split; [lia|done].
  - rewrite <-Hpb in *. destruct (list.last (pending_blocks s)) as [el|] eqn:Hl; [|by apply last_None in Hl; rewrite Hl in Hpb].
    pose proof (inv_last_n _ _ _ Hi Hl) as Hel. rewrite Ht in Hel.
    rewrite u64_add_small by lia.
    destruct (Z.gtb_spec (cb_n b) (cv_n el + 1)); [done|].
    destruct (Z.ltb_spec (cb_n b) (cv_n e0)); [done|].
    destruct (Z.eqb_spec (cb_n b) (cv_n el + 1)).
    + intros Hc. bool_to_prop. left. split; [lia|]. intros h [= <-]. done.
    + intros (e & He & Hc)%existsb_exists. bool_to_prop. right. exists e.
      split; [by apply list_elem_of_In|]. done.
Qed.

(** Pushing a block that extends the log. *)
Lemma inv_push L s b :
  inv L s → block_ok b → cb_n b = tip_n 0 (log L s) + 1 →
  (∀ h, tip_hash None (log L s) = Some h → cb_parent b = h) →
  let s' := set_pending (pending_blocks s ++ [mkCBV b ∅ ∅ false false]) s in
  inv L s' ∧ log L s' = log L s ++ [b].
Proof.
  intros Hi [Hw Hn Hq] Hnb Hpar s'.
  assert (log L s' = log L s ++ [b]) as Hlog.
  { unfold log, s'. cbn. rewrite map_app. simpl. by rewrite app_assoc. }
  split; [|done]. split; rewrite ?Hlog; cbn; try by apply Hi.
  - apply chain_snoc. split; [apply Hi|]. done.
  - unfold tip_n in *. rewrite length_app. simpl. lia.
  - intros e [He|He%list_elem_of_singleton]%elem_of_app; [by apply (inv_entries _ _ Hi)|]. subst e.
    split; cbn; [done|done|]. intros name sg. by rewrite lookup_empty.
  - intros i j x y Hx Hy Hij. rewrite lookup_app_Some in Hy.
    destruct Hy as [Hy|[Hge Hy]].
    + rewrite lookup_app_l in Hx by (apply lookup_lt_Some in Hy; lia). by eapply (inv_repl _ _ Hi).
    + apply list_lookup_singleton_Some in Hy as [_ <-]. cbn. set_solver.
Qed.

(** A delivered block is not one that is pending already, unless the view is unstable
    (the queue is then cut below it first). *)
Definition fresh (s : Staging) (b : CachedBlock) (stats : AppendEntriesStats) : Prop :=
  st_view_is_stable s = true → aes_view_is_stable stats = true →
  ∀ e, e ∈ pending_blocks s → cv_n e = cb_n b → cb_hash (cv_block e) ≠ cb_hash b.

Lemma wp_rollback L s n (Q : unit → Staging → list StagingMsg → Prop) :
  inv L s →
  (∀ s', inv L s' → (∀ e, e ∈ pending_blocks s' → cv_n e ≤ n) → st_view s' = st_view s →
         st_view_is_stable s' = st_view_is_stable s → storage_ack_buffer s' = storage_ack_buffer s →
         Q tt s' [ToApp (Rollback n); ToLogServer (LsRollback n)]) →
  wp (rollback n) Q s.
Proof.
  intros Hi HQ. unfold rollback. wp_prims. cbn [app].
  set (s1 := set_pending (retain (λ e, cv_n e <=? n) (pending_blocks s)) s).
  apply HQ; try done.
  - apply (inv_ext L s1); try done.
    eapply (inv_truncate L s); [done|cbn; by apply (retain_pending L)|done..].
  - cbn. intros e [Hle _]%elem_of_retain. bool_to_prop. done.
Qed.

Lemma wp_accept_same_view L s b stats :
  inv L s → block_ok b → fresh s b stats →
  wp (accept_same_view b stats)
    (λ ok s' es, inv L s' ∧ byz_blocks es = [] ∧ Forall (msg_ok thr) es ∧ st_view s' = st_view s ∧
       storage_ack_buffer s' = storage_ack_buffer s ∧
       (ok = true → cb_n b = tip_n 0 (log L s') + 1 ∧
                    ∀ h, tip_hash None (log L s') = Some h → cb_parent b = h)) s.
Proof.
  intros Hi Hb Hf. unfold accept_same_view. wp_prims.
  apply (wp_mono _ (λ _ s1 e1, e1 = [] ∧ inv L s1 ∧ pending_blocks s1 = pending_blocks s ∧
    st_view s1 = st_view s ∧ storage_ack_buffer s1 = storage_ack_buffer s ∧
    st_view_is_stable s1 = st_view_is_stable s && aes_view_is_stable stats)).
  2:{ destruct (st_view_is_stable s) eqn:E1, (aes_view_is_stable stats) eqn:E2; cbn [orb negb]; wp_prims;
        (split; [done|]); (split; [by apply (inv_ext L s)|]); done. }
  intros [] s1 e1 (-> & Hi1 & Hp1 & Hv1 & Ha1 & Hst1). wp_prims.
  destruct (st_view_is_stable s1) eqn:Hst; cbn [negb].
  - wp_prims. split; [done|]. split; [done|]. split; [constructor|]. split; [done|]. split; [done|].
    intros [?|(e & He & Hn & Hh)]%(check_continuity_spec L s1 b Hi1 Hb); [done|].
    symmetry in Hst1. apply andb_true_iff in Hst1 as [Hs1 Hs2]. rewrite Hp1 in He. by destruct (Hf Hs1 Hs2 e He).
  - apply (wp_rollback L s1); [done|]. intros s2 Hi2 Hlt Hv2 Hst2 Ha2. wp_prims. cbn.
    split; [done|]. split; [done|]. split; [by repeat constructor|]. split; [congruence|]. split; [congruence|].
    intros [?|(e & He & Hn & Hh)]%(check_continuity_spec L s2 b Hi2 Hb); [done|].
    specialize (Hlt e He). destruct Hb as [_ Hbn _]. rewrite u64_sub_small in Hlt by lia. lia.
Qed.


Lemma wp_push_block L s b fin (Q : unit → Staging → list StagingMsg → Prop) :
  inv L s → block_ok b → cb_n b = tip_n 0 (log L s) + 1 →
  (∀ h, tip_hash None (log L s) = Some h → cb_parent b = h) →
  (∀ s', inv L s' → log L s' = log L s ++ [b] → st_view s' = st_view s →
         list.last (pending_blocks s') = Some (mkCBV b ∅ ∅ false false) →
         storage_ack_buffer s' = storage_ack_buffer s →
         Q tt s' [ToLogServer (LsNewBlock b)]) →
  wp (push_block b fin) Q s.
Proof.
  intros Hi Hb Hn Hpar HQ. unfold push_block. wp_prims. cbn [app].
  destruct (inv_push L s b Hi Hb Hn Hpar) as [Hi' Hlog'].
  apply HQ; try done; [by eapply inv_ext, Hi'|]. apply last_snoc.
Qed.

Lemma inv_buffer_ack L s a :
  inv L s → is_Some a → inv L (set_ack_buffer (storage_ack_buffer s ++ [a]) s).
Proof.
  intros [I1 I2 I3 I4 I5 I6 I7 I8] Ha. split; try done. cbn. apply Forall_app. auto.
Qed.

Lemma safe_step_intro L s s' es :
  inv L s' → byz_blocks es = [] → st_view s ≤ st_view s' → Forall (msg_ok thr) es → safe_step thr L s s' es.
Proof. intros Hi Hb Hv Hm. unfold safe_step. by rewrite Hb, app_nil_r. Qed.

Lemma wp_leader_accept L s b ack fin :
  inv L s → block_ok b → is_Some ack → cb_n b = tip_n 0 (log L s) + 1 →
  (∀ h, tip_hash None (log L s) = Some h → cb_parent b = h) →
  wp (leader_accept feat cfg ks b ack fin) (λ r s' es, r = ROk ∧ safe_step thr L s s' es) s.
Proof.
  intros Hi Hb Hack Hn Hpar. unfold leader_accept. wp_prim.
  apply (wp_push_block L); try done. intros s1 Hi1 Hlog1 Hv1 Hlast Ha1.
  assert (safe_step thr L s s1 [ToLogServer (LsNewBlock b)]) as Hs1
    by (apply safe_step_intro; [done|done|lia|by repeat constructor]).
  destruct fin.
  - apply wp_try. eapply wp_mono; [|apply (wp_vote_on_last_block_for_self L s1 ack Hi1); [|done]].
    + intros r s2 e2 [-> Hq2]. wp_prims. split; [done|]. rewrite app_nil_r.
      eapply safe_step_trans; [exact Hs1|]. cbn. rewrite app_nil_r. by apply quiet_safe.
    + intros E. by rewrite E in Hlast.
  - unfold buffer_ack. wp_prims. split; [done|]. cbn [app].
    apply safe_step_intro; [by apply inv_buffer_ack|done|cbn; lia|by repeat constructor].
Qed.

Lemma wp_follow_qcs stable qcs k L s :
  inv L s → st_bci s < tip_n 0 (log L s) → (∀ q, q ∈ qcs → qc_n q < tip_n 0 (log L s)) →
  (∀ L' s', inv L' s' → log L' s' = log L s → st_bci s' < tip_n 0 (log L s) →
     wp k (λ r s2 e2, r = ROk ∧ safe_step thr L' s' s2 e2) s') →
  wp (follow_qcs feat cfg stable qcs k) (λ r s' es, r = ROk ∧ safe_step thr L s s' es) s.
Proof.
  revert L s. induction qcs as [|q qcs IH]; intros L s Hi Hlt Hq Hk; cbn [follow_qcs].
  { by apply Hk. }
  assert (pending_blocks s ≠ []) as Hne.
  { intros E. rewrite (inv_tip _ _ Hi), E in Hlt. simpl in Hlt. lia. }
  assert (qc_n q < tip_n 0 (log L s)) as Hqn by (apply Hq; left).
  wp_prim.
  apply (wp_mono _ (λ _ s1 e1, quiet thr L s s1 e1 ∧ st_bci s1 = st_bci s ∧ byz_blocks e1 = [])).
  2:{ destruct stable; cbn [negb]; [wp_prims; split; [by apply quiet_refl|done]|].
      eapply wp_mono; [|apply (wp_maybe_stabilize_view L s q Hi Hne)].
      intros [] s1 e1 (Hq1 & _ & Hb1 & He1 & _). auto. }
  intros [] s1 e1 (Hq1 & Hb1 & He1). wp_prim. pose proof Hq1 as (Hi1 & Hlog1 & Hv1 & Hm1).
  rewrite He1, app_nil_r in Hi1, Hlog1.
  eapply wp_mono; [|apply (wp_maybe_byzantine_commit thr L s1 q Hi1)]; [|rewrite Hlog1; lia].
  intros r s2 e2 (-> & Hq2 & _ & Hb2).
  pose proof (byz_commit_target_bound L s1 q Hi1) as Ht. rewrite Hlog1, Hb1 in *.
  assert (quiet thr L s s2 (e1 ++ e2)) as Hq12.
  { eapply quiet_trans; [exact Hq1|]. by rewrite He1, app_nil_r. }
  pose proof Hq12 as (Hi2 & Hlog2 & Hv2 & _).
  eapply wp_mono; [|apply (IH (L ++ byz_blocks (e1 ++ e2)) s2 Hi2)]; rewrite ?Hlog2.
  - intros r s3 e3 [-> Hq3]. split; [done|]. rewrite app_assoc.
    eapply safe_step_trans; [by apply quiet_safe|done].
  - lia.
  - intros q' Hin. apply Hq. by right.
  - intros L' s' Hi' Hl' Hb'. apply Hk; congruence.
Qed.

Lemma wp_follower_tail L s ack fin stable :
  inv L s → pending_blocks s ≠ [] → is_Some ack →
  wp (follower_tail feat cfg ks ack fin stable) (λ r s' es, r = ROk ∧ safe_step thr L s s' es) s.
Proof.
  intros Hi Hne Hack. unfold follower_tail. rewrite Hnoqc. cbn [andb]. wp_prims.
  apply (wp_mono _ (λ r s1 e1, r = ROk ∧ safe_step thr L s s1 e1)).
  - intros r s1 e1 [-> Hs1]. wp_prims. destruct (_ && _ && _); wp_prims; cbn [app]; rewrite ?app_nil_r;
      (split; [done|]); [|done].
    eapply safe_step_trans; [exact Hs1|]. apply safe_step_intro; [apply Hs1|done|lia|by repeat constructor].
  - destruct fin.
    + eapply wp_mono; [|by apply (wp_send_vote_on_last_block_to_leader L s ack Hi)].
      intros r s1 e1 [-> Hq]. split; [done|by apply quiet_safe].
    + unfold buffer_ack. wp_prims. split; [done|].
      apply safe_step_intro; [by apply inv_buffer_ack|done|cbn; lia|by repeat constructor].
Qed.

Lemma wp_follower_accept L s b ack stats fin :
  inv L s → block_ok b → is_Some ack → cb_n b = tip_n 0 (log L s) + 1 →
  (∀ h, tip_hash None (log L s) = Some h → cb_parent b = h) →
  wp (follower_accept feat cfg ks b ack stats fin) (λ r s' es, r = ROk ∧ safe_step thr L s s' es) s.
Proof.
  intros Hi Hb Hack Hn Hpar. unfold follower_accept. wp_prim.
  apply (wp_push_block L); try done. intros s1 Hi1 Hlog1 Hv1 Hlast Ha1. wp_prim.
  apply (wp_mono _ (λ _ s2 e2, quiet thr L s1 s2 e2 ∧ byz_blocks e2 = [] ∧ pending_blocks s2 = pending_blocks s1)).
  2:{ destruct fin; [|wp_prims; split; [by apply quiet_refl|done]].
      wp_prims. eapply wp_mono; [|apply (wp_do_crash_commit L s1 _ _ Hi1)].
      intros [] s2 e2 (Hq & He & Hp & _). done. }
  intros [] s2 e2 (Hq2 & He2 & Hp2). wp_prims. rewrite Hp2, Hlast.
  eapply wp_unwrap; [done|]. cbn [cv_block].
  pose proof Hq2 as (Hi2 & Hlog2 & Hv2 & _). rewrite He2, app_nil_r in Hi2, Hlog2.
  assert (tip_n 0 (log L s2) = cb_n b) as Htip
    by (rewrite Hlog2, Hlog1; unfold tip_n in *; rewrite length_app; simpl; lia).
  assert (∀ L' s', inv L' s' → st_bci s' < tip_n 0 (log L' s') → pending_blocks s' ≠ []) as Hnonempty.
  { intros L' s' Hi' Hlt E. rewrite (inv_tip _ _ Hi'), E in Hlt. simpl in Hlt. lia. }
  eapply wp_mono; [|apply (wp_follow_qcs (st_view_is_stable s2) (pb_qc (cb_block b)) _ L s2 Hi2)].
  - intros r s3 e3 [-> Hs3]. split; [done|]. cbn [app].
    apply (safe_step_trans thr L s s2 s3 (ToLogServer (LsNewBlock b) :: e2)).
    + apply safe_step_intro; [done|done|lia|]. constructor; [done|]. apply Hq2.
    + cbn. by rewrite He2, app_nil_r.
  - rewrite (inv_tip _ _ Hi2), Hp2. destruct (pending_blocks s1); [done|]. simpl. lia.
  - intros q Hq. rewrite Htip. by apply (bo_qc _ Hb).
  - intros L' s' Hi' Hl' Hlt. apply wp_follower_tail; [done|eapply Hnonempty; [done|by rewrite Hl']|done].
Qed.


Lemma inv_clear_votes L s :
  inv L s → inv L (set_pending (clear_votes (pending_blocks s)) s).
Proof.
  intros Hi. apply (inv_revote L s); try done; cbn; unfold clear_votes.
  - rewrite map_map. done.
  - intros e (e0 & -> & He0)%elem_of_map. destruct (inv_entries _ _ Hi e0 He0) as [W Q _].
    by split.
  - intros i j a b Ha Hb _. rewrite lookup_map in Ha, Hb.
    destruct (pending_blocks s !! i), (pending_blocks s !! j); simplify_eq/=. done.
Qed.

(** After a jump the task is in the block's view, unstable, with the invariant. *)
Definition jumped (L : list CachedBlock) (stats : AppendEntriesStats) (s' : Staging) (es : list StagingMsg) : Prop :=
  inv L s' ∧ byz_blocks es = [] ∧ Forall (msg_ok thr) es ∧ st_view s' = aes_view stats ∧
  st_view_is_stable s' = false.

Lemma wp_jump_view_as_leader L s b stats :
  inv L s → wp (jump_view_as_leader b stats) (λ _ s' es, jumped L stats s' es) s.
Proof.
  intros Hi. unfold jump_view_as_leader. wp_prims. cbn [app].
  set (s1 := set_ae_seen 0 (set_view (aes_view stats) (aes_config_num stats) false s)).
  assert (inv L s1) as Hi1 by by apply (inv_ext L s).
  apply (wp_rollback L s1); [done|]. intros s2 Hi2 _ Hv2 Hst2 _. wp_prims. cbn [app].
  split; [by apply inv_clear_votes|]. split; [done|]. split; [by repeat constructor|]. done.
Qed.

Lemma wp_jump_view_as_follower L s b stats :
  inv L s → wp (jump_view_as_follower b stats) (λ _ s' es, jumped L stats s' es) s.
Proof.
  intros Hi. unfold jump_view_as_follower. wp_prims. cbn [app].
  match goal with |- jumped _ _ (set_pending _ ?s) _ => set (s2 := s) end.
  assert (inv L s2) as Hi2.
  { eapply (inv_truncate L s); [done|cbn|done..].
    rewrite <-(retain_pending L s (cb_n b - 1)) by done. apply retain_ext. intros e _.
    destruct (Z.ltb_spec (cv_n e) (cb_n b)), (Z.leb_spec (cv_n e) (cb_n b - 1)); lia || done. }
  split; [by apply inv_clear_votes|]. split; [done|]. split; [by repeat constructor|]. done.
Qed.

(** What the block channel delivers in state [s]. *)
Record block_event_ok (s : Staging) (b : CachedBlock) (ack : StorageAck) (stats : AppendEntriesStats) : Prop := {
  be_block : block_ok b;
  be_ack : is_Some ack;
  be_fresh : aes_view stats = st_view s → fresh s b stats }.

Lemma wp_process_block fuel b ack stats fin L s :
  inv L s → block_event_ok s b ack stats →
  (fuel ≥ (if (aes_view stats <=? st_view s)%Z then 1 else 2))%nat →
  wp (process_block_as_leader feat cfg ks fuel b ack stats fin)
     (λ r s' es, r = ROk ∧ safe_step thr L s s' es) s ∧
  wp (process_block_as_follower feat cfg ks fuel b ack stats fin)
     (λ r s' es, r = ROk ∧ safe_step thr L s s' es) s.
Proof.
  revert L s. induction fuel as [|fuel IH]; intros L s Hi [Hb Hack Hfr] Hfuel.
  { destruct (_ <=? _); lia. }
  assert (∀ k : SM res, (∀ s1, inv L s1 → cb_n b = tip_n 0 (log L s1) + 1 →
             (∀ h, tip_hash None (log L s1) = Some h → cb_parent b = h) →
             wp k (λ r s' es, r = ROk ∧ safe_step thr L s1 s' es) s1) →
           aes_view stats = st_view s →
           wp (mbind (λ ok : bool, if negb ok then mret ROk else k) (accept_same_view b stats))
              (λ r s' es, r = ROk ∧ safe_step thr L s s' es) s) as Hsame.
  { intros k Hk Hv. apply wp_bind.
    eapply wp_mono; [|apply (wp_accept_same_view L s b stats Hi Hb (Hfr Hv))].
    intros ok s1 e1 (Hi1 & He1 & Hm1 & Hv1 & _ & Hok).
    assert (safe_step thr L s s1 e1) as Hs1 by (apply safe_step_intro; [done|done|lia|done]).
    destruct ok; cbn [negb].
    - destruct (Hok eq_refl) as [Hn Hpar]. eapply wp_mono; [|by apply Hk].
      intros r s2 e2 [-> Hs2]. split; [done|]. eapply safe_step_trans; [exact Hs1|].
      by rewrite He1, app_nil_r.
    - wp_prims. split; [done|]. by rewrite app_nil_r. }
  assert (∀ jump : SM unit, st_view s < aes_view stats →
           wp jump (λ _ s' es, jumped L stats s' es) s →
           wp (mbind (λ _, mbind (λ me : bool, if me
                 then process_block_as_leader feat cfg ks fuel b ack stats fin
                 else process_block_as_follower feat cfg ks fuel b ack stats fin) (i_am_leader feat cfg)) jump)
              (λ r s' es, r = ROk ∧ safe_step thr L s s' es) s) as Hjump.
  { intros jump Hlt Hj. apply wp_bind. eapply wp_mono; [|exact Hj].
    intros [] s1 e1 (Hi1 & He1 & Hm1 & Hv1 & Hst1). wp_prim. apply wp_i_am_leader. intros me.
    assert (safe_step thr L s s1 e1) as Hs1 by (apply safe_step_intro; [done|done|lia|done]).
    destruct (IH L s1 Hi1) as [HL HF].
    { split; [done|done|]. intros _ Hstab. congruence. }
    { rewrite Hv1, Z.leb_refl. destruct (Z.leb_spec (aes_view stats) (st_view s)); lia. }
    destruct me; (eapply wp_mono; [|eassumption]); intros r s2 e2 [-> Hs2]; (split; [done|]);
      eapply safe_step_trans; [exact Hs1| |exact Hs1|]; by rewrite He1, app_nil_r. }
  split; cbn [process_block_as_leader process_block_as_follower]; wp_prims;
    (destruct (Z.ltb_spec (aes_view stats) (st_view s)); [wp_prims; split; [done|];
       apply safe_step_intro; [done|done|lia|constructor]|]);
    (destruct (Z.eqb_spec (aes_view stats) (st_view s))).
  - apply Hsame; [|done]. intros. by apply wp_leader_accept.
  - apply Hjump; [lia|]. by apply wp_jump_view_as_leader.
  - apply Hsame; [|done]. intros. by apply wp_follower_accept.
  - apply Hjump; [lia|]. by apply wp_jump_view_as_follower.
Qed.


(** * View change *)

Lemma my_fork_wf L s : inv L s → Forall cb_wf (my_fork s).
Proof.
  intros Hi. unfold my_fork. apply Forall_app. split.
  - rewrite (inv_parent _ _ Hi). destruct (list.last L) as [p|] eqn:Hl; [|constructor].
    constructor; [by apply (inv_parent_wf _ _ Hi)|constructor].
  - apply Forall_forall. intros b (e & -> & He)%list_elem_of_In%elem_of_map.
    by apply eo_wf, (inv_entries _ _ Hi).
Qed.

(** The fork a node reports starts at its last committed block and is a hash chain. *)
Lemma my_fork_chain L s :
  inv L s → ∃ p, chain (st_bci s - (match curr_parent_for_pending s with Some _ => 1 | None => 0 end)) p (my_fork s).
Proof.
  intros Hi. unfold my_fork. rewrite (inv_parent _ _ Hi), (inv_bci _ _ Hi).
  pose proof (inv_chain _ _ Hi) as Hc. unfold log in Hc.
  destruct (list.last L) as [b|] eqn:Hl.
  - apply last_Some in Hl as [L' ->]. rewrite <-app_assoc in Hc. apply chain_app in Hc as [_ Hc].
    eexists. cbn [app] in Hc |- *. unfold tip_n in Hc. rewrite length_app. cbn [length].
    replace (Z.of_nat (length L' + 1) - 1) with (0 + Z.of_nat (length L')) by lia. exact Hc.
  - apply last_None in Hl as ->. exists None. exact Hc.
Qed.

Lemma my_fork_last_n L s :
  inv L s →
  match list.last (pending_blocks s) with
  | Some e => cv_n e
  | None => match curr_parent_for_pending s with Some p => cb_n p | None => 0 end
  end = tip_n 0 (log L s).
Proof.
  intros Hi. destruct (list.last (pending_blocks s)) as [e|] eqn:Hl; [by apply inv_last_n|].
  apply last_None in Hl. rewrite (inv_parent _ _ Hi). unfold log. rewrite Hl, app_nil_r.
  destruct (list.last L) as [p|] eqn:HL; [|by apply last_None in HL as ->].
  pose proof (inv_chain _ _ Hi) as Hc. unfold log in Hc. rewrite Hl, app_nil_r in Hc.
  rewrite last_lookup in HL. rewrite (chain_lookup _ _ _ _ _ Hc HL).
  apply lookup_lt_Some in HL. unfold tip_n. lia.
Qed.

(** The summary of the fork a node reports. *)
Lemma my_fork_stat L s view cfg_num sig last_n :
  inv L s →
  ∃ st, vc_to_stat (mkVC view cfg_num (Some (mkFork (map half_serialize (my_fork s)))) sig last_n
                      (st_last_qc s)) = Some st ∧
    fs_block_hashes st = map cb_hash (my_fork s) ∧ fs_fork_last_n st = tip_n 0 (log L s) ∧
    fs_last_qc st = st_last_qc s ∧ ∀ b, b ∈ my_fork s → hash_at st (cb_n b) = Some (cb_hash b).
Proof.
  intros Hi. destruct (my_fork_chain L s Hi) as [p Hc]. pose proof (my_fork_wf L s Hi) as Hw.
  pose proof (inv_tip _ _ Hi) as Ht. pose proof (inv_bound _ _ Hi) as Hbd.
  assert (tip_n (st_bci s - match curr_parent_for_pending s with Some _ => 1 | None => 0 end) (my_fork s)
          = tip_n 0 (log L s)) as Htip.
  { rewrite Ht. unfold tip_n, my_fork. rewrite length_app, length_map.
    destruct (curr_parent_for_pending s); simpl; lia. }
  assert (0 ≤ st_bci s - match curr_parent_for_pending s with Some _ => 1 | None => 0 end) as Hpos.
  { rewrite (inv_bci _ _ Hi), (inv_parent _ _ Hi). destruct (list.last L) eqn:E; [|lia].
    rewrite last_lookup in E. apply lookup_lt_Some in E. lia. }
  destruct (my_fork s) as [|b l] eqn:Hf.
  - eexists. split; [reflexivity|]. cbn. split; [done|]. split; [|split; [done|]].
    + rewrite <-Htip. unfold tip_n. cbn [length].
      unfold my_fork in Hf. rewrite (inv_parent _ _ Hi), (inv_bci _ _ Hi) in *.
      destruct (list.last L) eqn:E; [done|]. apply last_None in E as ->. done.
    + intros b Hb. by apply not_elem_of_nil in Hb.
  - destruct (vc_to_stat_of_chain _ p b l view cfg_num last_n sig (st_last_qc s) Hpos) as
      (st & Hst & Hh & _ & Hn & _ & Hq & _ & Hat); [lia|done..|].
    exists st. split; [done|]. split; [done|]. split; [by rewrite Hn|]. split; [done|].
    intros c [i Hi']%list_elem_of_lookup. eauto.
Qed.

Lemma create_my_vc_msg_Some L s : inv L s → is_Some (create_my_vc_msg ks s).
Proof.
  intros Hi. unfold create_my_vc_msg, prepare_vc, vc_sign_payload. cbn [vc_fork serialized_blocks].
  rewrite last_map. destruct (list.last (my_fork s)) as [b|] eqn:Hl; cbn [fmap option_fmap option_map].
  - pose proof (my_fork_wf L s Hi) as Hw. rewrite Forall_forall in Hw.
    rewrite last_lookup in Hl. apply list_elem_of_lookup_2, list_elem_of_In in Hl.
    destruct (Hw b Hl) as [Hh _]. cbn [hs_body half_serialize]. rewrite Hh. eexists; reflexivity.
  - eexists; reflexivity.
Qed.

Lemma wp_maybe_update_view L s v c :
  inv L s → wp (maybe_update_view feat cfg ks v c) (λ _ s' es, safe_step thr L s s' es) s.
Proof.
  intros Hi. unfold maybe_update_view. wp_prims. destruct (Z.leb_spec v (st_view s)).
  { wp_prims. apply safe_step_intro; [done|done|lia|constructor]. }
  unfold update_view. wp_prims. set (s1 := set_view v c false s).
  assert (inv L s1) as Hi1 by by apply (inv_ext L s).
  destruct (create_my_vc_msg_Some L s1 Hi1) as [vc Hvc].
  eapply wp_unwrap; [exact Hvc|]. wp_prims.
  destruct (Hleader (st_view s1)) as [ld Hld]. eapply wp_unwrap; [exact Hld|]. wp_prims.
  eapply wp_unwrap; [exact Hthr|]. wp_prims. cbn [app].
  apply safe_step_intro; [by apply (inv_ext L s1)|done|cbn; lia|by repeat constructor].
Qed.

Lemma wp_handle_view_change_timer_tick L s enough :
  inv L s → wp (handle_view_change_timer_tick feat cfg ks enough)
               (λ r s' es, r = ROk ∧ safe_step thr L s s' es) s.
Proof.
  intros Hi. unfold handle_view_change_timer_tick.
  assert (safe_step thr L s s []) as Hrefl by (apply safe_step_intro; [done|done|lia|constructor]).
  destruct (negb _); [by wp_prims|]. wp_prims. destruct (_ || _).
  { wp_prims. eapply wp_mono; [|apply (wp_maybe_update_view L s _ _ Hi)].
    intros [] s1 e1 Hs1. wp_prims. by rewrite app_nil_r. }
  wp_prims. assert (∀ e, msg_ok thr e → byz_blocks [e] = [] → safe_step thr L s s [e]) as Hemit
    by (intros; apply safe_step_intro; [done|done|lia|by constructor]).
  destruct enough; [|wp_prims; cbn [app]; split; [done|by apply Hemit]].
  destruct (_ <=? _); wp_prims.
  - eapply wp_mono; [|apply (wp_maybe_update_view L s _ _ Hi)].
    intros [] s1 e1 Hs1. wp_prims. cbn [app]. rewrite app_nil_r. split; [done|].
    apply (safe_step_trans thr L s s _ [_] e1); [by apply Hemit|]. cbn [byz_blocks]. rewrite app_nil_r.
    destruct Hs1 as (I & V & F). split; [by eapply inv_ext, I|done].
  - cbn [app]. split; [done|].
    apply safe_step_intro; [by apply (inv_ext L s)|done|cbn; lia|by repeat constructor].
Qed.

Lemma wlp_apply_fork_choice_rule L s forks :
  inv L s → wlp (apply_fork_choice_rule feat cfg ks forks)
    (λ _ s' es, s' = s ∧ byz_blocks es = [] ∧ Forall (msg_ok thr) es) s.
Proof.
  intros Hi. unfold apply_fork_choice_rule. wlp_prims.
  unfold send_blocks_to_broadcaster_and_get_stats. wlp_prims.
  destruct (head (serialized_blocks _)); wlp_prims; destruct (list.last _); wlp_prims; cbn [app byz_blocks];
    (split; [done|]); (split; [done|by repeat constructor]).
Qed.

Lemma wlp_propose_new_view L s v c forks :
  inv L s → wlp (propose_new_view feat cfg ks v c forks) (λ _ s' es, safe_step thr L s s' es) s.
Proof.
  intros Hi. unfold propose_new_view. wlp_prims.
  assert (safe_step thr L s s []) as Hrefl by (apply safe_step_intro; [done|done|lia|constructor]).
  destruct (_ || _); wlp_prims; [done|].
  apply (wlp_mono _ (λ _ s1 e1, s1 = s ∧ e1 = [])).
  2:{ destruct (st_view_is_stable s); [by wlp_prims|]. apply wlp_of_wp, wp_i_am_leader. done. }
  intros me s1 e1 [-> ->]. destruct me; cbn [negb]; wlp_prims; [|done].
  eapply wlp_mono; [|apply (wlp_apply_fork_choice_rule L s forks Hi)].
  intros [chosen fv] s1 e1 (-> & He1 & Hm1). wlp_prims.
  match goal with Hr : ?r = Some ?k |- context [retain (λ b, cv_n b <=? ?k) _] => rename k into retain_n end.
  set (s2 := set_pending (retain (λ b, cv_n b <=? retain_n) (pending_blocks s)) s).
  assert (inv L s2) as Hi2
    by (eapply (inv_truncate L s); [done|cbn; by apply (retain_pending L)|done..]).
  assert (inv L (set_ci retain_n s2)) as Hi3 by by apply (inv_ext L s2).
  destruct (st_ci s2 >? retain_n); wlp_prims; cbn [app]; apply safe_step_intro; try done;
    rewrite ?byz_blocks_app, ?He1; try done; try (cbn; lia); apply Forall_app; (split; [done|by repeat constructor]).
Qed.

End invariant.
