(* ===== verification/StagingTheorems.v ===== *)
(** The theorems about the staging task: over any run of delivered blocks, votes, timer
    ticks and pacemaker commands the byzantine-committed log only grows and is a hash chain
    from block 1; what is proposed and committed has the quorums the protocol needs; the
    handlers do not panic.  Also the places where the code departs from its comments. *)

From stdpp Require Import base numbers list gmap strings option.
From S2P Require Import Prelude Types Config Serialize Crypto Chain ForkChoice Staging StagingProofs.

(** A node as deployed: validated configuration, certificates on, no 2PC, its own key
    registered, and signature batches that verify whenever their members do. *)
Record deployed `{Codec, Ed25519} (feat : Features) (cfg : Config) (ks : KeyStore) : Prop := {
  dep_config : config_ok (consensus_config cfg);
  dep_qc : no_qc feat = false;
  dep_2pc : extra_2pc feat = false;
  dep_own : ∀ m, length (ks_sign ks m) = SIGNATURE_LENGTH ∧
                 ks_verify ks (net_name cfg) (ks_sign ks m) m = true;
  dep_batch : ∀ d sigs keys, Forall2 (λ s k, ed_verify k d s = true) sigs keys →
                ed_verify_batch (replicate (length keys) d) sigs keys = true }.

(** The size of a byzantine quorum. *)
Definition quorum (feat : Features) (cfg : Config) : Z :=
  default 0 (byzantine_liveness_threshold feat (consensus_config cfg)).

Lemma config_quorum feat c :
  config_ok c → ∃ t, byzantine_liveness_threshold feat c = Some t ∧ t ≤ byzantine_fast_path_threshold c.
Proof.
  intros (_ & Hne & Hn & Hu & Hv). unfold byzantine_liveness_threshold, byzantine_fast_path_threshold.
  assert (1 ≤ num_nodes c) as H1.
  { unfold num_nodes. destruct (node_list c); [done|simpl; lia]. }
  assert (0 ≤ num_nodes c / 2 ∧ 2 * (num_nodes c / 2) ≤ num_nodes c) as H2
    by (pose proof (Z.mul_div_le (num_nodes c) 2); pose proof (Z.div_pos (num_nodes c) 2); lia).
  assert (0 ≤ num_nodes c / 3) as H3 by (apply Z.div_pos; lia).
  destruct (platforms feat).
  - unfold validate_or_die in Hv. fold (num_nodes c) in Hv. bool_to_prop.
    rewrite (u64_add_small (num_nodes c / 2)), u64_sub_small in * by lia.
    destruct (Z.leb_spec (liveness_u c) (num_nodes c)); [|lia]. eexists. split; [done|]. lia.
  - eexists. split; [done|]. lia.
Qed.

Section runs.
Context `{HIt : HashIter, HCo : Codec, HEd : Ed25519} (feat : Features) (cfg : Config) (ks : KeyStore).

(** What each channel may deliver in state [s]. *)
Definition event_ok (s : Staging) (ev : StagingEvent) : Prop :=
  match ev with
  | EvBlock b ack stats _ => block_event_ok s b ack stats
  | EvPacemaker (PmUpdateView _ _) => True
  | EvPacemaker (NewViewForks _ _ _) => True
  | EvPacemaker _ => False
  | _ => True
  end.

Inductive good_run : Staging → list StagingEvent → Staging → list StagingMsg → Prop :=
  | good_nil s : good_run s [] s []
  | good_cons s ev evs s1 s2 e1 e2 r :
      event_ok s ev → worker feat cfg ks ev s = Some (r, s1, e1) →
      good_run s1 evs s2 e2 → good_run s (ev :: evs) s2 (e1 ++ e2).

Definition is_new_view (ev : StagingEvent) : bool :=
  match ev with EvPacemaker (NewViewForks _ _ _) => true | _ => false end.

Context (Hdep : deployed feat cfg ks).

Lemma deployed_quorum :
  byzantine_liveness_threshold feat (consensus_config cfg) = Some (quorum feat cfg) ∧
  quorum feat cfg ≤ byzantine_fast_path_threshold (consensus_config cfg).
Proof.
  destruct (config_quorum feat (consensus_config cfg) (dep_config _ _ _ Hdep)) as (t & Ht & Hle).
  unfold quorum. by rewrite Ht.
Qed.

Lemma worker_wp L s ev :
  inv ks L s → event_ok s ev → is_new_view ev = false →
  wp (worker feat cfg ks ev) (λ r s' es, r = ROk ∧ safe_step ks (quorum feat cfg) L s s' es) s.
Proof.
  intros Hi Hev Hnv. destruct deployed_quorum as [Hthr Hfast].
  pose proof (λ v, config_leader feat _ v (dep_config _ _ _ Hdep)) as Hld.
  destruct Hdep as [_ Hqc H2 Hown Hbatch]. unfold worker. apply wp_bind.
  apply wp_i_am_leader; [done|]. intros me. destruct ev as [enough|b ack stats fin|sender vote|cmd|cmd].
  - by apply wp_handle_view_change_timer_tick.
  - destruct (wp_process_block feat cfg ks (quorum feat cfg) Hld Hthr Hfast Hbatch Hqc H2 Hown
                2 b ack stats fin L s Hi Hev) as [HL HF]; [destruct (_ <=? _); lia|].
    by destruct me.
  - destruct me.
    + eapply wp_mono; [|by apply wp_verify_and_process_vote].
      intros r s' es [-> Hq]. split; [done|by apply quiet_safe].
    + wp_prims. split; [done|]. apply safe_step_intro; [done|done|lia|constructor].
  - destruct cmd as [v c| |v c forks| |]; try done. cbn [process_view_change_message]. wp_prim.
    eapply wp_mono; [|by apply wp_maybe_update_view]. intros [] s1 e1 Hs. wp_prims. by rewrite app_nil_r.
  - rewrite H2. wp_prims. split; [done|]. apply safe_step_intro; [done|done|lia|constructor].
Qed.

Lemma worker_safe L s ev r s' es :
  inv ks L s → event_ok s ev → worker feat cfg ks ev s = Some (r, s', es) →
  r = ROk ∧ safe_step ks (quorum feat cfg) L s s' es.
Proof.
  intros Hi Hev Hrun. destruct (is_new_view ev) eqn:Hnv.
  - destruct ev as [| | |[| |v c forks| |]|]; try done. revert Hrun.
    pose proof (λ v, config_leader feat _ v (dep_config _ _ _ Hdep)) as Hld.
    revert r s' es. change (wlp (worker feat cfg ks (EvPacemaker (NewViewForks v c forks)))
      (λ r s' es, r = ROk ∧ safe_step ks (quorum feat cfg) L s s' es) s).
    unfold worker. apply wlp_bind. apply wlp_of_wp, wp_i_am_leader; [done|]. intros me.
    cbn [process_view_change_message]. apply wlp_bind.
    eapply wlp_mono; [|by apply (wlp_propose_new_view feat cfg ks (quorum feat cfg))].
    intros [] s1 e1 Hs. wlp_prims. split; [done|]. by rewrite app_nil_r.
  - pose proof (worker_wp L s ev Hi Hev Hnv) as Hwp. unfold wp in Hwp. by rewrite Hrun in Hwp.
Qed.

Lemma good_run_safe L s evs s' es :
  inv ks L s → good_run s evs s' es → safe_step ks (quorum feat cfg) L s s' es.
Proof.
  intros Hi Hrun. revert L Hi. induction Hrun as [s|s ev evs s1 s2 e1 e2 r Hev Hw Hrun IH]; intros L Hi.
  - apply safe_step_intro; [done|done|lia|constructor].
  - destruct (worker_safe L s ev r s1 e1 Hi Hev Hw) as [_ Hs].
    eapply safe_step_trans; [exact Hs|]. apply IH. apply Hs.
Qed.

Lemma inv_new : inv ks [] (staging_new feat).
Proof.
  split; cbn; try done.
  - intros e He. by apply not_elem_of_nil in He.
Qed.

End runs.

(** The scan of [maybe_crash_commit] stops at a replicated block, and replication sets
    shrink along the queue. *)
Lemma crash_scan_spec `{Codec, Ed25519} (ks : KeyStore) L s t :
  inv ks L s →
  st_ci s ≤ crash_scan t (pending_blocks s) (st_ci s) ∧
  ∀ e, e ∈ pending_blocks s → st_ci s < cv_n e ≤ crash_scan t (pending_blocks s) (st_ci s) →
       t ≤ Z.of_nat (size (replication_set e)).
Proof.
  intros Hi. pose proof (inv_pending_increasing _ _ _ Hi) as Hinc. pose proof (inv_repl _ _ _ Hi) as Hrep.
  generalize (st_ci s) as ci. revert Hinc Hrep. generalize (pending_blocks s) as l. clear.
  assert (∀ l ci, ci ≤ crash_scan t l ci ∧ (crash_scan t l ci = ci ∨ ∃ i e, l !! i = Some e ∧
            cv_n e = crash_scan t l ci ∧ t ≤ Z.of_nat (size (replication_set e)))) as Hscan.
  { induction l as [|e l IH]; intros ci; [split; [done|by left]|].
    change (crash_scan t (e :: l) ci) with
      (crash_scan t l (if cv_n e <=? ci then ci
         else if t <=? Z.of_nat (size (replication_set e)) then cv_n e else ci)).
    destruct (Z.leb_spec (cv_n e) ci); [|destruct (Z.leb_spec t (Z.of_nat (size (replication_set e))))].
    - destruct (IH ci) as [? [?|(i & x & ? & ?)]]; (split; [lia|]); [by left|right; by exists (S i), x].
    - destruct (IH (cv_n e)) as [? [Heq|(i & x & ? & ?)]]; (split; [lia|]); right.
      + exists 0%nat, e. split; [done|]. split; [by rewrite Heq|done].
      + by exists (S i), x.
    - destruct (IH ci) as [? [?|(i & x & ? & ?)]]; (split; [lia|]); [by left|right; by exists (S i), x]. }
  intros l Hinc Hrep ci. destruct (Hscan l ci) as [Hle Hor]. split; [done|].
  intros e [j Hj]%list_elem_of_lookup He. destruct Hor as [|(i & x & Hx & Hn & Hsz)]; [lia|].
  assert (j ≤ i)%nat as Hji.
  { destruct (Nat.le_gt_cases j i) as [|Hlt]; [done|]. pose proof (Hinc i j _ _ Hx Hj Hlt). simpl in *. lia. }
  pose proof (subseteq_size _ _ (Hrep j i e x Hj Hx Hji)). lia.
Qed.

(** The slow path stops at a certificate two (or three) hops below the incoming one. *)
Lemma slow_path_hops feat s q :
  st_bci s < new_bci_slow_path feat s q →
  ∃ e2 q2, e2 ∈ pending_blocks s ∧ q2 ∈ cv_qc e2 ∧ cv_n e2 ≤ qc_n q ∧
    (extra_qc_check feat = false → new_bci_slow_path feat s q = qc_n q2) ∧
    (extra_qc_check feat = true → ∃ e3 q3, e3 ∈ pending_blocks s ∧ q3 ∈ cv_qc e3 ∧
       cv_n e3 ≤ qc_n q2 ∧ new_bci_slow_path feat s q = qc_n q3).
Proof.
  assert (∀ u, st_bci s < max_or (st_bci s) (qc_ns_upto u (pending_blocks s)) →
            ∃ e q', e ∈ pending_blocks s ∧ q' ∈ cv_qc e ∧ cv_n e ≤ u ∧
              max_or (st_bci s) (qc_ns_upto u (pending_blocks s)) = qc_n q') as Hslow.
  { intros u Hu. destruct (qc_ns_upto u (pending_blocks s)) as [|x xs] eqn:E; [simpl in Hu; lia|].
    assert (max_or (st_bci s) (x :: xs) ∈ x :: xs) as Hin by by apply max_or_elem.
    rewrite <-E in Hin at 2. apply qc_ns_upto_elem in Hin as (e & q' & He & Hq & Heq & Hu').
    exists e, q'. done. }
  unfold new_bci_slow_path.
  set (slow := max_or (st_bci s) (qc_ns_upto (qc_n q) (pending_blocks s))) in *.
  destruct (extra_qc_check feat); cbn [andb]; intros Hgt.
  - destruct (Z.gtb_spec slow (st_bci s)) as [Hs|Hs]; [|lia].
    destruct (Hslow (qc_n q) Hs) as (e2 & q2 & He2 & Hq2 & Hn2 & E2).
    destruct (Hslow slow Hgt) as (e3 & q3 & He3 & Hq3 & Hn3 & E3).
    exists e2, q2. split_and!; try done. intros _. exists e3, q3. split_and!; try done. subst slow. lia.
  - destruct (Hslow (qc_n q) Hgt) as (e2 & q2 & He2 & Hq2 & Hn2 & E2). by exists e2, q2.
Qed.

(** * A concrete node and run, for the witnesses *)

(** Executing a list of events. *)
Fixpoint exec `{HashIter, Codec, Ed25519} (feat : Features) (cfg : Config) (ks : KeyStore)
    (evs : list StagingEvent) (s : Staging) : option (Staging * list StagingMsg) :=
  match evs with
  | [] => Some (s, [])
  | ev :: evs' =>
      match worker feat cfg ks ev s with
      | None => None
      | Some (_, s1, e1) =>
          match exec feat cfg ks evs' s1 with
          | None => None
          | Some (s2, e2) => Some (s2, e1 ++ e2)
          end
      end
  end.

Definition no_block (ev : StagingEvent) : Prop :=
  match ev with EvBlock _ _ _ _ => False | EvPacemaker _ => False | _ => True end.

Lemma exec_good_run `{HashIter, Codec, Ed25519} feat cfg ks ev evs s s' es :
  event_ok s ev → Forall no_block evs → exec feat cfg ks (ev :: evs) s = Some (s', es) →
  good_run feat cfg ks s (ev :: evs) s' es.
Proof.
  intros Hev Hall. revert ev s s' es Hev. induction Hall as [|ev2 evs Hno Hall IH];
    intros ev s s' es Hev Hex; cbn [exec] in Hex;
    destruct (worker feat cfg ks ev s) as [[[r s1] e1]|] eqn:Hw; simplify_eq.
  - econstructor; [done|done|constructor].
  - change (match exec feat cfg ks (ev2 :: evs) s1 with
            | None => None | Some (s2, e2) => Some (s2, e1 ++ e2) end = Some (s', es)) in Hex.
    destruct (exec feat cfg ks (ev2 :: evs) s1) as [[s2 e2]|] eqn:Hex'; simplify_eq.
    econstructor; [done|done|]. apply IH; [|done]. by destruct ev2.
Qed.

Definition toy_cfg : Config := mkConfig "node1" four_nodes.

Lemma toy_deployed (C : Codec) : @deployed C toy_ed pirateship_features toy_cfg toy_keystore.
Proof.
  split; [|done|done|by intros m; split; reflexivity|].
  - split; [by apply (bool_decide_unpack _); vm_compute|]. by repeat split.
  - cbn [ed_verify ed_verify_batch toy_ed]. intros d sigs keys Hf.
    rewrite length_replicate, (Forall2_length Hf), !Nat.eqb_refl. cbn [andb].
    clear d. induction Hf as [|x k sigs keys Hx Hf IH]; [done|].
    cbn [forallb]. apply andb_true_iff. split; [exact Hx|exact IH].
Qed.

Definition toy_sig : bytes := replicate 64 Byte.x01.

(** A signed block with a given body byte; [toy_sha] is the hash of [toy_codec]. *)
Definition toy_signed_block (n view : Z) (stable : bool) (parent : HashType) (body : u8)
    (qcs : list ProtoQuorumCertificate) : CachedBlock :=
  mkCached (mkBlock [] n parent view qcs [] stable 1 (Some (ProposerSig toy_sig)))
    (toy_sig ++ parent ++ [body]) (body :: take 63 parent).

Definition toy_b1 : CachedBlock := toy_signed_block 1 1 false (zeros 64) Byte.x2a [].

Definition toy_vote (b : CachedBlock) : ProtoVote :=
  mkVote [mkSigEntry (cb_n b) toy_sig] (cb_hash b) (cb_n b) 1 1.

(** The leader of view 1 receives block 1, then votes of the three other nodes. *)
Definition toy_events : list StagingEvent :=
  [EvBlock toy_b1 (Some Stored) (mkAEStats 1 false 1 "node1" 0) true;
   EvVote (Auth "node2" 0) (toy_vote toy_b1);
   EvVote (Auth "node3" 0) (toy_vote toy_b1);
   EvVote (Auth "node4" 0) (toy_vote toy_b1)].

Definition toy_exec : option (Staging * list StagingMsg) :=
  @exec map_to_list_iter (toy_codec toy_block) toy_ed pirateship_features toy_cfg toy_keystore
    toy_events (staging_new pirateship_features).

Definition toy_end : Staging := match toy_exec with Some (s, _) => s | None => staging_new pirateship_features end.
Definition toy_sent : list StagingMsg := match toy_exec with Some (_, es) => es | None => [] end.

Lemma toy_b1_ok : @block_ok (toy_codec toy_block) toy_b1.
Proof.
  split; [split; vm_compute; reflexivity|vm_compute; split; [discriminate|reflexivity]|].
  intros q Hq. by apply not_elem_of_nil in Hq.
Qed.

Lemma toy_good_run :
  @good_run map_to_list_iter (toy_codec toy_block) toy_ed pirateship_features toy_cfg toy_keystore
    (staging_new pirateship_features) toy_events toy_end toy_sent.
Proof.
  apply exec_good_run; [|repeat constructor|].
  - split; [apply toy_b1_ok|eauto|]. intros Hv. vm_compute in Hv. discriminate.
  - vm_compute. reflexivity.
Qed.

(** The run commits block 1 on the fast path. *)
Lemma toy_run_commits : byz_blocks toy_sent = [toy_b1] ∧ st_view_is_stable toy_end = true.
Proof. vm_compute. done. Qed.

(** * Properties *)

(** C1: over any run from the initial state of a deployed node (blocks delivered well formed,
    and none while it is still pending in the same stable view), everything handed to the
    application as byzantine-committed, followed by what is pending, is one hash chain numbered from 1: a
    committed block is never replaced or reordered, and [bci] and the parent of the queue
    are those of the last committed block. *)
Theorem byz_log_append_only `{HashIter, Codec, Ed25519} (feat : Features) (cfg : Config) (ks : KeyStore)
    (evs : list StagingEvent) (s : Staging) (es : list StagingMsg) :
  deployed feat cfg ks → good_run feat cfg ks (staging_new feat) evs s es →
  chain 0 None (byz_blocks es ++ map cv_block (pending_blocks s)) ∧
  st_bci s = Z.of_nat (length (byz_blocks es)) ∧
  curr_parent_for_pending s = list.last (byz_blocks es).
Proof.
  intros Hdep Hrun.
  destruct (good_run_safe feat cfg ks Hdep [] _ _ _ _ (inv_new feat ks) Hrun) as ([I1 _ I3 I4 _ _ _ _] & _).
  done.
Qed.

Lemma byz_log_append_only_witness :
  chain 0 None (byz_blocks toy_sent ++ map cv_block (pending_blocks toy_end)) ∧
  st_bci toy_end = Z.of_nat (length (byz_blocks toy_sent)) ∧
  curr_parent_for_pending toy_end = list.last (byz_blocks toy_sent).
Proof.
  exact (@byz_log_append_only map_to_list_iter (toy_codec toy_block) toy_ed pirateship_features toy_cfg
           toy_keystore toy_events toy_end toy_sent (toy_deployed _) toy_good_run).
Defined.

(** C4: no handler panics and none returns an error: in a state satisfying the invariant, any
    vote, timer tick or view update, and any delivered block that is well formed, stored
    and not still pending in the same stable view, is processed to the end (installing a
    new view is the one event left out, since it asserts on what the other nodes sent); [bci] and
    the view never decrease, and the invariant holds again for the log extended by what was
    committed. *)
Theorem staging_progress `{HashIter, Codec, Ed25519} (feat : Features) (cfg : Config) (ks : KeyStore)
    (L : list CachedBlock) (s : Staging) (ev : StagingEvent) :
  deployed feat cfg ks → inv ks L s → event_ok s ev → is_new_view ev = false →
  ∃ s' es, worker feat cfg ks ev s = Some (ROk, s', es) ∧ inv ks (L ++ byz_blocks es) s' ∧
           st_view s ≤ st_view s' ∧ st_bci s ≤ st_bci s'.
Proof.
  intros Hdep Hi Hev Hnv. destruct (wp_run _ _ _ (worker_wp feat cfg ks Hdep L s ev Hi Hev Hnv))
    as (r & s' & es & Hw & -> & Hi' & Hv & _).
  exists s', es. split; [done|]. split; [done|]. split; [done|].
  rewrite (inv_bci _ _ _ Hi), (inv_bci _ _ _ Hi'), length_app. lia.
Qed.

Lemma staging_progress_witness :
  let HI := map_to_list_iter in let C := toy_codec toy_block in let Ed := toy_ed in
  ∃ s' es, worker pirateship_features toy_cfg toy_keystore (EvTimer false) (staging_new pirateship_features)
             = Some (ROk, s', es) ∧ inv toy_keystore ([] ++ byz_blocks es) s' ∧
           st_view (staging_new pirateship_features) ≤ st_view s' ∧
           st_bci (staging_new pirateship_features) ≤ st_bci s'.
Proof.
  intros HI C Ed.
  exact (@staging_progress HI C Ed pirateship_features toy_cfg toy_keystore []
           (staging_new pirateship_features) (EvTimer false) (toy_deployed C)
           (inv_new pirateship_features toy_keystore) I eq_refl).
Defined.

(** C9: every certificate a leader proposes over such a run is accepted by any node with the same keys: it
    has at least a byzantine quorum of signatures, all valid for the block hash, and no
    signer appears twice. *)
Theorem proposed_qcs_verify `{HashIter, Codec, Ed25519} (feat : Features) (cfg : Config) (ks : KeyStore)
    (evs : list StagingEvent) (s : Staging) (es : list StagingMsg) (q : ProtoQuorumCertificate) :
  deployed feat cfg ks → good_run feat cfg ks (staging_new feat) evs s es → ToQcTx q ∈ es →
  verify_qc ks q (quorum feat cfg) = true ∧ NoDup (map ns_name (qc_sig q)) ∧
  quorum feat cfg ≤ Z.of_nat (length (qc_sig q)).
Proof.
  intros Hdep Hrun Hin.
  destruct (good_run_safe feat cfg ks Hdep [] _ _ _ _ (inv_new feat ks) Hrun) as (_ & _ & Hm).
  rewrite Forall_forall in Hm. destruct (Hm (ToQcTx q)) as [Hv Hnd]; [by apply list_elem_of_In|].
  split; [done|]. split; [done|]. by apply verify_qc_true in Hv as (keys & _ & _ & ? & _).
Qed.

Lemma proposed_qcs_verify_witness :
  let HI := map_to_list_iter in let C := toy_codec toy_block in let Ed := toy_ed in
  let q := mkQC (cb_hash toy_b1) 1
             (map (λ n, mkNameSig n toy_sig) ["node3"; "node1"; "node2"; "node4"]%string) 1 in
  ToQcTx q ∈ toy_sent ∧ verify_qc toy_keystore q (quorum pirateship_features toy_cfg) = true.
Proof.
  intros HI C Ed q.
  assert (ToQcTx q ∈ toy_sent) as Hin by (apply (list_elem_of_lookup_2 _ 13); vm_compute; reflexivity).
  split; [exact Hin|].
  exact (proj1 (@proposed_qcs_verify HI C Ed pirateship_features toy_cfg toy_keystore toy_events toy_end
           toy_sent q (toy_deployed C) toy_good_run Hin)).
Defined.


Definition voted_state : Staging :=
  set_pending [mkCBV toy_b1 ∅ {["node1"; "node2"; "node3"]}%string false false]
    (staging_new pirateship_features).

Lemma voted_state_inv : @inv (toy_codec toy_block) toy_ed toy_keystore [] voted_state.
Proof.
  split; cbn; try done.
  - intros e ->%list_elem_of_singleton. split; [apply toy_b1_ok|apply toy_b1_ok|done].
  - intros i j a b Ha Hb Hij. apply list_lookup_singleton_Some in Ha as [_ <-].
    by apply list_lookup_singleton_Some in Hb as [_ <-].
Qed.


(** C5: the commit rule: when a certificate [q] advances [bci], either every node signed
    it in a stable view with the fast path on and the new [bci] is its block, or the new
    [bci] is the block of a certificate carried by a block that [q] covers (two hops; with
    the extra check, a third hop below that one).  What is handed to the application is
    exactly the pending blocks up to the new [bci]. *)
Theorem byz_commit_rule `{HashIter, Codec, Ed25519} (feat : Features) (cfg : Config) (ks : KeyStore)
    (L : list CachedBlock) (s : Staging) (q : ProtoQuorumCertificate) :
  inv ks L s → qc_n q ≤ tip_n 0 (log L s) →
  ∃ s' es, maybe_byzantine_commit feat cfg q s = Some (ROk, s', es) ∧
    byz_blocks es ++ map cv_block (pending_blocks s') = map cv_block (pending_blocks s) ∧
    st_bci s' = st_bci s + Z.of_nat (length (byz_blocks es)) ∧
    (st_bci s < st_bci s' →
       (fast_path feat = true ∧ st_view_is_stable s = true ∧ st_bci s' = qc_n q ∧
        num_nodes (consensus_config cfg) ≤ Z.of_nat (length (qc_sig q))) ∨
       (∃ e2 q2, e2 ∈ pending_blocks s ∧ q2 ∈ cv_qc e2 ∧ cv_n e2 ≤ qc_n q ∧
          (extra_qc_check feat = false → st_bci s' = qc_n q2) ∧
          (extra_qc_check feat = true → ∃ e3 q3, e3 ∈ pending_blocks s ∧ q3 ∈ cv_qc e3 ∧
             cv_n e3 ≤ qc_n q2 ∧ st_bci s' = qc_n q3))).
Proof.
  intros Hi Hq.
  destruct (wp_run _ _ _ (wp_maybe_byzantine_commit feat cfg ks 0 L s q Hi Hq))
    as (r & s' & es & Hrun & -> & (Hi' & Hlog & _ & _) & _ & Hb).
  exists s', es. split; [done|]. unfold log in Hlog. rewrite <-app_assoc in Hlog. apply app_inv_head in Hlog.
  split; [done|].
  assert (st_bci s' = st_bci s + Z.of_nat (length (byz_blocks es))) as Hlen.
  { rewrite (inv_bci _ _ _ Hi), (inv_bci _ _ _ Hi'), length_app. lia. }
  split; [done|]. intros Hlt. assert (st_bci s' = byz_commit_target feat cfg s q) as -> by lia.
  pose proof (slow_path_hops feat s q) as Hslow. unfold byz_commit_target in *.
  destruct (Z.le_gt_cases (new_bci_fast_path feat cfg s q) (new_bci_slow_path feat s q)) as [Hf|Hf].
  - right. rewrite Z.max_r by done. apply Hslow. lia.
  - left. rewrite Z.max_l by lia. assert (st_bci s < new_bci_fast_path feat cfg s q) as Hgt by lia. revert Hgt.
    clear. unfold new_bci_fast_path. fold (num_nodes (consensus_config cfg)).
    destruct (st_view_is_stable s); cbn [andb]; [|lia].
    destruct (Z.leb_spec (byzantine_fast_path_threshold (consensus_config cfg)) (Z.of_nat (length (qc_sig q))));
      [|lia].
    destruct (fast_path feat); [done|lia].
Qed.

(** A view-1 state whose block 2 carries the certificate of block 1. *)
Definition toy_b2 : CachedBlock :=
  toy_signed_block 2 1 true (cb_hash toy_b1) Byte.x2b [mkQC (cb_hash toy_b1) 1 [] 1].
Definition two_block_state : Staging :=
  set_view 1 1 true (set_pending [mkCBV toy_b1 ∅ ∅ true false; mkCBV toy_b2 ∅ ∅ false false]
    (staging_new pirateship_features)).

Lemma toy_b2_ok : @block_ok (toy_codec toy_block) toy_b2.
Proof.
  split; [split; vm_compute; reflexivity|vm_compute; split; [discriminate|reflexivity]|].
  intros q ->%list_elem_of_singleton. vm_compute. reflexivity.
Qed.

Lemma two_block_state_inv : @inv (toy_codec toy_block) toy_ed toy_keystore [] two_block_state.
Proof.
  split; cbn; try done.
  - split_and!; try done. by intros h [= <-].
  - intros e [->| ->%list_elem_of_singleton]%elem_of_cons; split; try done; apply toy_b1_ok || apply toy_b2_ok.
  - intros [|[|i]] [|[|j]] a b Ha Hb Hij; simplify_eq/=; done.
Qed.

Lemma byz_commit_rule_witness :
  let HI := map_to_list_iter in let C := toy_codec toy_block in let Ed := toy_ed in
  let q := mkQC (cb_hash toy_b2) 2 [] 1 in let s := two_block_state in
  ∃ s' es, maybe_byzantine_commit pirateship_features toy_cfg q s = Some (ROk, s', es) ∧
    byz_blocks es ++ map cv_block (pending_blocks s') = map cv_block (pending_blocks s) ∧
    st_bci s' = st_bci s + Z.of_nat (length (byz_blocks es)) ∧ st_bci s' = 1.
Proof.
  intros HI C Ed q s.
  destruct (@byz_commit_rule HI C Ed pirateship_features toy_cfg toy_keystore [] s q
              two_block_state_inv ltac:(vm_compute; discriminate)) as (s' & es & Hrun & Hb & Hl & _).
  exists s', es. split; [exact Hrun|]. split; [exact Hb|]. split; [exact Hl|].
  vm_compute in Hrun. injection Hrun as <- _. reflexivity.
Defined.

(** The view-change message a node sends verifies under its own name, and the summary
    the new leader computes from it is the truth: the hashes are those of the node's last
    committed block and of every pending block, in order, and the last sequence number is
    the end of its log. *)
Lemma vc_message_faithful `{HashIter, Codec, Ed25519} (feat : Features) (cfg : Config) (ks : KeyStore)
    (L : list CachedBlock) (s : Staging) :
  deployed feat cfg ks → inv ks L s →
  ∃ vc st, create_my_vc_msg ks s = Some vc ∧ verify_vc ks vc (net_name cfg) = Some true ∧
    vc_view vc = st_view s ∧ vc_fork_last_n vc = tip_n 0 (log L s) ∧
    vc_to_stat vc = Some st ∧ fs_block_hashes st = map cb_hash (my_fork s) ∧
    fs_fork_last_n st = tip_n 0 (log L s) ∧ fs_last_qc st = st_last_qc s ∧
    (∀ b, b ∈ my_fork s → hash_at st (cb_n b) = Some (cb_hash b)).
Proof.
  intros Hdep Hi. destruct (create_my_vc_msg_Some ks L s Hi) as [vc Hvc].
  pose proof Hvc as Hvc'. unfold create_my_vc_msg, prepare_vc in Hvc'.
  match type of Hvc' with context [vc_sign_payload ?v] => set (vc0 := v) in * end.
  destruct (vc_sign_payload vc0) as [buf|] eqn:Hbuf; [|done]. cbn [mbind option_bind] in Hvc'. simplify_eq.
  assert (vc_fork_last_n vc0 = tip_n 0 (log L s)) as Hlast by by apply (my_fork_last_n ks).
  destruct (my_fork_stat ks L s (st_view s) (st_config_num s) (ks_sign ks buf) (vc_fork_last_n vc0) Hi) as (st & Hst & Hh & Hn & Hq & Hat).
  eexists _, st. split; [exact Hvc|]. split.
  { unfold verify_vc. change (vc_sign_payload (mkVC _ _ _ (ks_sign ks buf) _ _)) with (vc_sign_payload vc0).
    rewrite Hbuf. cbn [mbind option_bind vc_fork_sig]. destruct (dep_own _ _ _ Hdep buf) as [Hl Hv].
    rewrite sig_try_into_ok by done. cbn [mbind option_bind]. by rewrite Hv. }
  cbn [vc_view vc_fork_last_n]. split_and!; try done.
Qed.

Lemma vc_message_faithful_witness :
  let HI := map_to_list_iter in let C := toy_codec toy_block in let Ed := toy_ed in
  let s := two_block_state in
  ∃ vc st, create_my_vc_msg toy_keystore s = Some vc ∧ verify_vc toy_keystore vc (net_name toy_cfg) = Some true ∧
    vc_view vc = st_view s ∧ vc_fork_last_n vc = tip_n 0 (log [] s) ∧
    vc_to_stat vc = Some st ∧ fs_block_hashes st = map cb_hash (my_fork s) ∧
    fs_fork_last_n st = tip_n 0 (log [] s) ∧ fs_last_qc st = st_last_qc s ∧
    (∀ b, b ∈ my_fork s → hash_at st (cb_n b) = Some (cb_hash b)).
Proof.
  intros HI C Ed s.
  exact (@vc_message_faithful HI C Ed pirateship_features toy_cfg toy_keystore [] s
           (toy_deployed C) two_block_state_inv).
Defined.

(** Choosing a fork changes nothing and only talks to the broadcaster. *)
Lemma apply_fork_choice_frame `{HashIter, Codec, Ed25519} feat cfg ks forks s :
  wlp (apply_fork_choice_rule feat cfg ks forks)
    (λ _ s' es, s' = s ∧ byz_blocks es = [] ∧ ∀ n, ToApp (Rollback n) ∉ es) s.
Proof.
  unfold apply_fork_choice_rule. wlp_prims.
  unfold send_blocks_to_broadcaster_and_get_stats. wlp_prims.
  destruct (head (serialized_blocks _)); wlp_prims; destruct (list.last _); wlp_prims; cbn [app byz_blocks];
    (split; [done|]); (split; [done|]); intros n Hn; by rewrite elem_of_cons, elem_of_nil in Hn; destruct Hn.
Qed.

(** The retained prefix always covers the committed blocks. *)
Lemma check_invariant_retains `{Codec, Ed25519} (ks : KeyStore) L s chosen k :
  inv ks L s → check_byz_commit_invariant s chosen = Some (Some k) → st_bci s ≤ k.
Proof.
  intros Hi. unfold check_byz_commit_invariant. pose proof (inv_bci _ _ _ Hi).
  destruct (Z.eqb_spec (st_bci s) 0); [intros [= <-]; lia|].
  destruct (curr_parent_for_pending s) as [p|]; [|done].
  destruct (fs_fork_last_n chosen =? 0).
  { intros [= <-]. destruct (list.last (pending_blocks s)) as [e|] eqn:Hl; [|lia].
    rewrite last_lookup in Hl. apply list_elem_of_lookup_2 in Hl.
    pose proof (inv_pending_n _ _ _ _ Hi Hl). lia. }
  destruct (Z.leb_spec (fs_first_n chosen) (st_bci s)).
  { destruct (negb _); [done|]. intros [= <-]. lia. }
  destruct (_ =? _); [destruct (negb _); [done|]; intros [= <-]; lia|].
  destruct (existsb _ (pending_blocks s)) eqn:Hex; cbn [negb]; [|done]. intros [= <-].
  apply existsb_exists in Hex as (e & He & Hc). bool_to_prop. apply list_elem_of_In in He.
  pose proof (inv_pending_n _ _ _ _ Hi He). lia.
Qed.

(** C8: installing a new view never touches what is committed: a leader whose proposal does not
    abort keeps its committed log, cuts its queue to a prefix, and never tells the
    application to roll back below [bci]. *)
Theorem new_view_keeps_committed `{HashIter, Codec, Ed25519} (feat : Features) (cfg : Config) (ks : KeyStore)
    (L : list CachedBlock) (s s' : Staging) (v c : Z) (forks : gmap SenderType ProtoViewChange)
    (es : list StagingMsg) :
  inv ks L s → propose_new_view feat cfg ks v c forks s = Some (tt, s', es) →
  byz_blocks es = [] ∧ st_bci s' = st_bci s ∧
  (∃ i, pending_blocks s' = take i (pending_blocks s)) ∧
  (∀ n, ToApp (Rollback n) ∈ es → st_bci s ≤ n).
Proof.
  intros Hi. revert s' es.
  enough (wlp (propose_new_view feat cfg ks v c forks) (λ _ s' es, byz_blocks es = [] ∧
    st_bci s' = st_bci s ∧ (∃ i, pending_blocks s' = take i (pending_blocks s)) ∧
    ∀ n, ToApp (Rollback n) ∈ es → st_bci s ≤ n) s) as Hw by (intros s' es; apply Hw).
  assert (∃ i, pending_blocks s = take i (pending_blocks s)) as Hall
    by (exists (length (pending_blocks s)); by rewrite take_ge).
  assert (∀ n, ToApp (Rollback n) ∈ [] → st_bci s ≤ n) as Hnil
    by (intros n Hn; by apply not_elem_of_nil in Hn).
  unfold propose_new_view. wlp_prims. destruct (_ || _); wlp_prims; [done|].
  apply (wlp_mono _ (λ _ s1 e1, s1 = s ∧ e1 = [])).
  2:{ destruct (st_view_is_stable s); [by wlp_prims|]. unfold i_am_leader. by wlp_prims. }
  intros me s1 e1 [-> ->]. destruct me; cbn [negb]; wlp_prims; [|done].
  eapply wlp_mono; [|apply apply_fork_choice_frame].
  intros [chosen fv] s1 e1 (-> & He1 & Hm1). wlp_prims.
  match goal with Hr : check_byz_commit_invariant s chosen = Some ?r, Hr' : ?r = Some ?k |- _ =>
    rename k into retain_n; subst r; pose proof (check_invariant_retains ks L s chosen retain_n Hi Hr) as Hge end.
  destruct (_ >? retain_n); wlp_prims; cbn [app]; rewrite ?byz_blocks_app, ?He1;
    (split; [done|]); (split; [done|]);
    (split; [eexists; cbn; by apply (retain_pending ks L)|]); intros n Hn;
    rewrite !elem_of_app, !elem_of_cons in Hn; destruct Hn as [Hn|Hn];
    try (by destruct (Hm1 n Hn)); rewrite ?elem_of_nil in Hn; naive_solver.
Qed.

Lemma two_block_unstable_inv :
  @inv (toy_codec toy_block) toy_ed toy_keystore [] (set_stable false two_block_state).
Proof. by apply (@inv_ext (toy_codec toy_block) toy_ed toy_keystore [] two_block_state), two_block_state_inv. Qed.

Lemma new_view_keeps_committed_witness :
  let HI := map_to_list_iter in let C := toy_codec toy_block in let Ed := toy_ed in
  let s := set_stable false two_block_state in
  let forks := {[ Auth "node1" 0 := mkVC 1 1 (Some (mkFork [])) [] 0 None ]} in
  ∃ s' es, propose_new_view pirateship_features toy_cfg toy_keystore 1 1 forks s = Some (tt, s', es) ∧
    byz_blocks es = [] ∧ st_bci s' = st_bci s ∧
    (∃ i, pending_blocks s' = take i (pending_blocks s)) ∧
    (∀ n, ToApp (Rollback n) ∈ es → st_bci s ≤ n).
Proof.
  intros HI C Ed s forks.
  destruct (propose_new_view pirateship_features toy_cfg toy_keystore 1 1 forks s)
    as [[[[] s'] es]|] eqn:E; [|vm_compute in E; discriminate].
  exists s', es. split; [reflexivity|].
  exact (@new_view_keeps_committed HI C Ed pirateship_features toy_cfg toy_keystore [] s s' 1 1 forks es
           two_block_unstable_inv E).
Defined.

(** Accepting a block terminates: the leader and follower handlers call each other at
    most once, because the view jump puts the task in the view of the block; any fuel
    beyond two gives the same result. *)
Lemma process_block_terminates `{HashIter, Codec, Ed25519} (feat : Features) (cfg : Config) (ks : KeyStore)
    (fuel : nat) (b : CachedBlock) (ack : StorageAck) (stats : AppendEntriesStats) (fin : bool) (s : Staging) :
  process_block_as_leader feat cfg ks (2 + fuel) b ack stats fin s =
    process_block_as_leader feat cfg ks 2 b ack stats fin s ∧
  process_block_as_follower feat cfg ks (2 + fuel) b ack stats fin s =
    process_block_as_follower feat cfg ks 2 b ack stats fin s.
Proof.
  assert (∀ f s1, st_view s1 = aes_view stats →
    process_block_as_leader feat cfg ks (S f) b ack stats fin s1 =
      process_block_as_leader feat cfg ks 1 b ack stats fin s1 ∧
    process_block_as_follower feat cfg ks (S f) b ack stats fin s1 =
      process_block_as_follower feat cfg ks 1 b ack stats fin s1) as Hone.
  { intros f s1 Hv. split; cbn [process_block_as_leader process_block_as_follower]; apply M_bind_ext;
      intros v s2 e2 [= <- <- <-]; by rewrite <-Hv, Z.ltb_irrefl, Z.eqb_refl. }
  split; cbn [Nat.add process_block_as_leader process_block_as_follower]; apply M_bind_ext;
    intros v s1 e1 [= <- <- <-];
    (destruct (aes_view stats <? st_view s); [done|]);
    (destruct (aes_view stats =? st_view s); [done|]);
    apply M_bind_ext; intros [] s2 e2 Hj; apply M_bind_ext; intros me s3 e3 [-> _]%i_am_leader_frame;
    assert (st_view s2 = aes_view stats) as Hv by (by injection Hj as <- _);
    destruct me; first [exact (proj1 (Hone fuel s2 Hv))|exact (proj2 (Hone fuel s2 Hv))].
Qed.

(** A block that is already pending passes the continuity check. *)
Lemma check_continuity_pending `{Codec, Ed25519} (ks : KeyStore) L s e :
  inv ks L s → e ∈ pending_blocks s → check_continuity s (cv_block e) = true.
Proof.
  intros Hi He. pose proof (inv_pending_n _ _ _ _ Hi He) as Hn. pose proof (inv_bound _ _ _ Hi) as Hbd.
  pose proof (inv_bci _ _ _ Hi) as Hb. unfold check_continuity.
  destruct (pending_blocks s) as [|e0 l0] eqn:Hp; [by apply not_elem_of_nil in He|]. rewrite <-Hp in *.
  destruct (list.last (pending_blocks s)) as [el|] eqn:Hl; [|apply last_None in Hl; congruence].
  rewrite (inv_last_n _ _ _ _ Hi Hl), u64_add_small by lia.
  destruct (Z.gtb_spec (cv_n e) (tip_n 0 (log L s) + 1)); [lia|].
  assert (cv_n e0 ≤ cv_n e) as Hle0.
  { apply list_elem_of_lookup in He as [[|i] Hi'].
    - rewrite Hp in Hi'. simpl in Hi'. simplify_eq. lia.
    - assert (pending_blocks s !! 0%nat = Some e0) as Hz by by rewrite Hp.
      pose proof (inv_pending_increasing _ _ _ Hi 0%nat (S i) _ _ Hz Hi' ltac:(lia)). simpl in *. lia. }
  destruct (Z.ltb_spec (cv_n e) (cv_n e0)); [lia|].
  destruct (Z.eqb_spec (cv_n e) (tip_n 0 (log L s) + 1)); [lia|].
  apply existsb_exists. exists e. split; [by apply list_elem_of_In|].
  by rewrite Z.eqb_refl, bool_decide_true.
Qed.

(** The continuity check also accepts a block that is already pending, and the handler
    then pushes it again: in a stable view, re-delivering a pending block that is not the
    last one leaves the queue out of order, and the block that extends the log is refused
    from then on. *)
Lemma duplicate_block_wedges_log `{HashIter, Codec, Ed25519} (feat : Features) (cfg : Config)
    (ks : KeyStore) (L : list CachedBlock) (s : Staging) (e : CachedBlockWithVotes) (ack : StorageAck)
    (stats : AppendEntriesStats) :
  inv ks L s → e ∈ pending_blocks s → cv_n e < tip_n 0 (log L s) →
  st_view_is_stable s = true → aes_view_is_stable stats = true → aes_view stats = st_view s →
  ∃ s', process_block_as_leader feat cfg ks 2 (cv_block e) ack stats false s =
          Some (ROk, s', [ToLogServer (LsNewBlock (cv_block e))]) ∧
        map cv_block (pending_blocks s') = map cv_block (pending_blocks s) ++ [cv_block e] ∧
        ∀ next, cb_n next = tip_n 0 (log L s) + 1 → check_continuity s' next = false.
Proof.
  intros Hi He Hlt Hst Hst' Hv.
  pose proof (inv_bound _ _ _ Hi) as Hbd. pose proof (inv_pending_n _ _ _ _ Hi He) as Hn.
  pose proof (inv_bci _ _ _ Hi) as Hb.
  assert (check_continuity (set_stable true s) (cv_block e) = true) as Hc
    by (apply (check_continuity_pending ks L (set_stable true s) e); [by apply (inv_ext ks L s)|done]).
  cbn [process_block_as_leader]. unfold mbind, M_bind, gets. cbv beta iota.
  rewrite Hv, Z.ltb_irrefl, Z.eqb_refl. unfold accept_same_view, mbind, M_bind, get, modify, gets.
  cbv beta iota. rewrite Hst, Hst'. cbn [orb]. cbv beta iota.
  change (st_view_is_stable (set_stable true s)) with true. cbn [negb]. unfold mret, M_ret. cbv beta iota.
  rewrite Hc. cbn [negb]. cbv beta iota.
  eexists. split; [reflexivity|]. cbn. split; [by rewrite map_app|].
  intros next Hnext. unfold check_continuity. cbn.
  destruct (pending_blocks s ++ _) as [|x l] eqn:E; [by destruct (pending_blocks s)|].
  rewrite <-E, last_snoc. cbn. rewrite u64_add_small by lia.
  destruct (Z.gtb_spec (cb_n next) (cv_n e + 1)); [done|lia].
Qed.

Lemma duplicate_block_wedges_log_witness :
  let HI := map_to_list_iter in let C := toy_codec toy_block in let Ed := toy_ed in
  let s := two_block_state in
  ∃ s', process_block_as_leader pirateship_features toy_cfg toy_keystore 2 toy_b1 (Some Stored)
          (mkAEStats 1 true 1 "node1" 0) false s =
          Some (ROk, s', [ToLogServer (LsNewBlock toy_b1)]) ∧
        map cv_block (pending_blocks s') = map cv_block (pending_blocks s) ++ [toy_b1] ∧
        ∀ next, cb_n next = tip_n 0 (log [] s) + 1 → check_continuity s' next = false.
Proof.
  intros HI C Ed s.
  apply (@duplicate_block_wedges_log HI C Ed pirateship_features toy_cfg toy_keystore [] s
           (mkCBV toy_b1 ∅ ∅ true false) (Some Stored) (mkAEStats 1 true 1 "node1" 0));
    [apply two_block_state_inv|left|vm_compute; reflexivity|reflexivity|reflexivity|reflexivity].
Defined.

(** The comment at the vote says a node votes only for what it stored, but the result of
    the write is discarded: a final block whose storage failed is processed, voted for and
    counted exactly as one that was stored. *)
Lemma failed_store_still_votes `{HashIter, Codec, Ed25519} (feat : Features) (cfg : Config)
    (ks : KeyStore) (b : CachedBlock) (stats : AppendEntriesStats) (s : Staging) :
  worker feat cfg ks (EvBlock b (Some StoreFailed) stats true) s =
  worker feat cfg ks (EvBlock b (Some Stored) stats true) s.
Proof. reflexivity. Qed.
