(* ===== verification/StagingExec.v ===== *)
(** What staging hands to the application as crash-committed (do_crash_commit and its two
    callers in src/src/consensus/staging/steady_state.rs).  Every handler is shown to move
    [ci] forward only and to hand over only blocks above the old [ci]; from this follow
    that no block number is executed twice, and that a block the application was told to
    roll back is not executed again when it is reinstalled. *)

From stdpp Require Import base numbers list gmap strings option sorting.
From S2P Require Import Prelude Types Config Serialize Crypto Chain ForkChoice Staging StagingProofs StagingTheorems.

Section exec.

Abbreviation SM := (M Staging StagingMsg).

(** [es] hands over, message by message, blocks above the commit index reached so far; the
    index starts at [lo] and ends at [hi]. *)
Fixpoint crash_path (lo : Z) (es : list StagingMsg) (hi : Z) : Prop :=
  match es with
  | [] => lo ≤ hi
  | ToApp (CrashCommit bs) :: es' =>
      ∃ mid, lo ≤ mid ∧ Forall (λ b, lo < cb_n b ≤ mid) bs ∧ crash_path mid es' hi
  | _ :: es' => crash_path lo es' hi
  end.

Definition ci_step (s s' : Staging) (es : list StagingMsg) : Prop := crash_path (st_ci s) es (st_ci s').

(** The block numbers handed to the application for execution, in order. *)
Definition crash_numbers (es : list StagingMsg) : list Z :=
  concat (map (λ m, match m with ToApp (CrashCommit bs) => map (λ b, cb_n b) bs | _ => [] end) es).

Lemma crash_path_cons lo m es hi :
  (∀ bs, m ≠ ToApp (CrashCommit bs)) → crash_path lo (m :: es) hi ↔ crash_path lo es hi.
Proof. intros Hm. destruct m as [| | |[]| | | | | | | | | |]; try done. by destruct (Hm blocks). Qed.

Lemma crash_path_weaken lo lo' es hi : lo' ≤ lo → crash_path lo es hi → crash_path lo' es hi.
Proof.
  intros Hle. induction es as [|m es IH]; simpl; [lia|].
  destruct m as [| | |[]| | | | | | | | | |]; try apply IH.
  intros (mid & Hm & Hf & Hp). exists mid. split; [lia|]. split; [|done].
  eapply Forall_impl; [exact Hf|]. cbn. lia.
Qed.

Lemma crash_path_app lo es1 mid es2 hi :
  crash_path lo es1 mid → crash_path mid es2 hi → crash_path lo (es1 ++ es2) hi.
Proof.
  revert lo. induction es1 as [|m es1 IH]; intros lo; simpl; [apply crash_path_weaken|].
  destruct m as [| | |[]| | | | | | | | | |]; try apply IH.
  intros (mid1 & Hm & Hf & Hp) Hp2. exists mid1. split; [done|]. split; [done|]. by apply IH.
Qed.

(** The bounds of everything handed over. *)
Lemma crash_path_numbers lo es hi :
  crash_path lo es hi → lo ≤ hi ∧ Forall (λ n, lo < n ≤ hi) (crash_numbers es).
Proof.
  revert lo. induction es as [|m es IH]; intros lo; simpl; [by split|].
  destruct m as [| | |[]| | | | | | | | | |]; simpl; try apply IH.
  intros (mid & Hm & Hf & Hp). destruct (IH mid Hp) as [Hle Hn]. split; [lia|].
  unfold crash_numbers. simpl. apply Forall_app. split; [|eapply Forall_impl; [exact Hn|]; cbn; lia].
  apply Forall_map. eapply Forall_impl; [exact Hf|]. cbn. lia.
Qed.

Lemma elem_of_crash_numbers es bs b :
  ToApp (CrashCommit bs) ∈ es → b ∈ bs → cb_n b ∈ crash_numbers es.
Proof.
  intros Hm Hb. unfold crash_numbers. apply list_elem_of_In, in_concat.
  exists (map (λ b, cb_n b) bs). split.
  - apply in_map_iff. exists (ToApp (CrashCommit bs)). split; [done|]. by apply list_elem_of_In.
  - apply in_map_iff. exists b. split; [done|]. by apply list_elem_of_In.
Qed.

Lemma chain_numbers_sorted k p l : chain k p l → StronglySorted Z.lt (map (λ b, cb_n b) l).
Proof.
  revert k p. induction l as [|b l IH]; intros k p Hc; simpl; [constructor|].
  destruct Hc as (Hn & _ & Hc). constructor; [by eapply IH|].
  apply Forall_map, Forall_forall. intros x Hx.
  pose proof (chain_elem_n _ _ _ _ Hc Hx). lia.
Qed.

(** When each message is a chain, everything handed over is strictly increasing. *)
Lemma crash_path_sorted lo es hi :
  crash_path lo es hi → (∀ bs, ToApp (CrashCommit bs) ∈ es → ∃ k p, chain k p bs) →
  StronglySorted Z.lt (crash_numbers es).
Proof.
  revert lo. induction es as [|m es IH]; intros lo Hp Hch; [constructor|].
  assert (∀ lo', crash_path lo' es hi → StronglySorted Z.lt (crash_numbers es)) as IH'
    by (intros lo' Hp'; apply (IH lo' Hp'); intros bs Hbs; apply Hch; by right).
  destruct m as [| | |[]| | | | | | | | | |]; try exact (IH' lo Hp).
  destruct Hp as (mid & Hm & Hf & Hp). destruct (crash_path_numbers _ _ _ Hp) as [_ Hn].
  destruct (Hch blocks) as (k & p & Hc); [left|].
  unfold crash_numbers. simpl. apply StronglySorted_app. split; [|split; [by eapply chain_numbers_sorted|by eapply IH']].
  rewrite !Forall_forall in *. intros x y Hx Hy.
  apply list_elem_of_In, in_map_iff in Hx as (b & <- & Hb%list_elem_of_In). specialize (Hf b Hb). specialize (Hn y Hy). lia.
Qed.

(** Programs all of whose steps are [ci_step]s. *)
Definition advances {A} (m : SM A) : Prop := ∀ s, wlp m (λ _ s' es, ci_step s s' es) s.

Lemma advances_bind {A B} (m : SM A) (f : A → SM B) :
  advances m → (∀ a, advances (f a)) → advances (mbind f m).
Proof.
  intros Hm Hf s. apply wlp_bind. eapply wlp_mono; [|apply Hm].
  intros a s1 e1 H1. eapply wlp_mono; [|apply Hf]. intros b s2 e2 H2. exact (crash_path_app _ _ _ _ _ H1 H2).
Qed.

Lemma advances_prim {A} (m : SM A) :
  (∀ s a s' es, m s = Some (a, s', es) →
     st_ci s' = st_ci s ∧ ∀ bs, ToApp (CrashCommit bs) ∉ es) → advances m.
Proof.
  intros Hm s a s' es Hr. destruct (Hm _ _ _ _ Hr) as [Hc Hf]. unfold ci_step. rewrite Hc. clear Hr.
  induction es as [|m' es IH]; [apply Z.le_refl|]. apply crash_path_cons.
  - intros bs ->. apply (Hf bs). left.
  - apply IH. intros bs Hin. apply (Hf bs). by right.
Qed.

Lemma advances_pure {A} (m : SM A) (f : Staging → option A) :
  (∀ s, m s = a ← f s; Some (a, s, [])) → advances m.
Proof.
  intros Hm. apply advances_prim. intros s a s' es. rewrite Hm.
  destruct (f s); simpl; [|done]. intros [= <- <- <-]. split; [done|]. intros bs. apply not_elem_of_nil.
Qed.

Lemma advances_ret {A} (a : A) : advances (mret a).
Proof. by apply (advances_pure _ (λ _, Some a)). Qed.
Lemma advances_get : advances get.
Proof. by apply (advances_pure _ Some). Qed.
Lemma advances_gets {A} (f : Staging → A) : advances (gets f).
Proof. by apply (advances_pure _ (λ s, Some (f s))). Qed.
Lemma advances_unwrap {A} (o : option A) : advances (unwrap o).
Proof. apply (advances_pure _ (λ _, o)). by destruct o. Qed.
Lemma advances_panic {A} : advances (@panic Staging StagingMsg A).
Proof. by apply (advances_pure _ (λ _, None)). Qed.

Lemma advances_modify f : (∀ s, st_ci (f s) = st_ci s) → advances (modify f).
Proof.
  intros Hf. apply advances_prim. intros s a s' es [= <- <- <-].
  split; [apply Hf|]. intros bs. apply not_elem_of_nil.
Qed.

Lemma advances_emit m : (∀ bs, m ≠ ToApp (CrashCommit bs)) → advances (emit m).
Proof.
  intros Hm. apply advances_prim. intros s a s' es [= <- <- <-].
  split; [done|]. intros bs Hin%list_elem_of_singleton. by apply (Hm bs).
Qed.

Lemma advances_try (m k : SM res) : advances m → advances k → advances (try_ m k).
Proof.
  intros Hm Hk. apply advances_bind; [done|]. intros []; [done|]. apply advances_ret.
Qed.

Lemma advances_mfor {A} (l : list A) (f : A → SM unit) : (∀ a, advances (f a)) → advances (mfor l f).
Proof.
  intros Hf. induction l as [|a l IH]; simpl; [apply advances_ret|]. by apply advances_bind.
Qed.

End exec.

Create HintDb advances.
#[export] Hint Resolve advances_ret advances_get advances_gets advances_unwrap advances_panic : advances.

(** Walks through a handler, closing each primitive. *)
Ltac advance :=
  repeat first
    [ solve [auto with advances]
    | apply advances_bind; [|intros ?]
    | apply advances_try
    | apply advances_mfor; intros ?
    | apply advances_modify; intros ?; reflexivity
    | apply advances_emit; intros ?; discriminate
    | case_match ].

Section handlers.
Context `{HIt : HashIter, HCo : Codec, HEd : Ed25519} (feat : Features) (cfg : Config) (ks : KeyStore).

Lemma advances_i_am_leader : advances (i_am_leader feat cfg).
Proof. unfold i_am_leader. advance. Qed.
#[local] Hint Resolve advances_i_am_leader : advances.

Lemma advances_rollback n : advances (rollback n).
Proof. unfold rollback. advance. Qed.
#[local] Hint Resolve advances_rollback : advances.

Lemma advances_do_byzantine_commit old_bci new_bci : advances (do_byzantine_commit old_bci new_bci).
Proof. unfold do_byzantine_commit. advance. Qed.
#[local] Hint Resolve advances_do_byzantine_commit : advances.

(** Handing over the interval between two commit indices. *)
Lemma crash_path_interval old_ci new_ci l :
  old_ci ≤ new_ci →
  crash_path old_ci [ToBroadcaster (UpdateCI new_ci); ToApp (CrashCommit (map cv_block
    (retain (λ e, (cv_n e >? old_ci) && (cv_n e <=? new_ci)) l)))] new_ci.
Proof.
  intros Hle. exists new_ci. split; [done|]. split; [|apply Z.le_refl].
  apply Forall_forall. intros b (e & <- & He)%list_elem_of_In%in_map_iff.
  apply list_elem_of_In, elem_of_retain in He as [Hr _]. bool_to_prop. lia.
Qed.

(** The follower's blind crash commit. *)
Lemma advances_follow_ci ci : advances (s ← get; do_crash_commit (st_ci s) ci).
Proof.
  intros s. wlp_prims. unfold do_crash_commit. destruct (Z.leb_spec ci (st_ci s)); wlp_prims.
  - apply Z.le_refl.
  - apply (crash_path_interval (st_ci s) ci). lia.
Qed.
#[local] Hint Resolve advances_follow_ci : advances.

Lemma crash_scan_le t l ci : ci ≤ crash_scan t l ci.
Proof.
  unfold crash_scan. revert ci. induction l as [|e l IH]; intros ci; simpl; [done|].
  etrans; [|apply IH]. repeat case_match; bool_to_prop; lia.
Qed.

Lemma advances_maybe_crash_commit : advances (maybe_crash_commit feat cfg).
Proof.
  intros s. unfold maybe_crash_commit. wlp_prims.
  set (new_ci := crash_scan _ _ _). pose proof (crash_scan_le a (pending_blocks s) (st_ci s)) as Hle.
  fold new_ci in Hle. unfold do_crash_commit. destruct (Z.leb_spec new_ci (st_ci s)); wlp_prims.
  - done.
  - by apply crash_path_interval.
Qed.
#[local] Hint Resolve advances_maybe_crash_commit : advances.

Lemma advances_maybe_update_last_qc q : advances (maybe_update_last_qc q).
Proof. apply advances_modify. intros s. by destruct (qc_n q >? _). Qed.
#[local] Hint Resolve advances_maybe_update_last_qc : advances.

Lemma advances_maybe_byzantine_commit q : advances (maybe_byzantine_commit feat cfg q).
Proof. unfold maybe_byzantine_commit. advance. Qed.
#[local] Hint Resolve advances_maybe_byzantine_commit : advances.

Lemma advances_maybe_stabilize_view q : advances (maybe_stabilize_view feat cfg q).
Proof. unfold maybe_stabilize_view. advance. Qed.
#[local] Hint Resolve advances_maybe_stabilize_view : advances.

Lemma advances_propose_qcs qcs : advances (propose_qcs feat cfg qcs).
Proof. induction qcs; simpl; advance. Qed.
#[local] Hint Resolve advances_propose_qcs : advances.

Lemma advances_maybe_create_qcs : advances (maybe_create_qcs feat cfg).
Proof. unfold maybe_create_qcs. advance. Qed.
#[local] Hint Resolve advances_maybe_create_qcs : advances.

Lemma advances_process_vote sender vote : advances (process_vote feat cfg sender vote).
Proof. unfold process_vote. advance. Qed.
#[local] Hint Resolve advances_process_vote : advances.

Lemma advances_process_block fuel b ack stats fin :
  advances (process_block_as_leader feat cfg ks fuel b ack stats fin) ∧
  advances (process_block_as_follower feat cfg ks fuel b ack stats fin).
Proof.
  assert (∀ st qcs k, advances k → advances (follow_qcs feat cfg st qcs k)) as Hfollow.
  { intros st qcs k Hk. induction qcs; simpl; advance. }
  induction fuel as [|fuel [IHl IHf]]; simpl; (split; [|]); advance.
  all: unfold accept_same_view, jump_view_as_leader, jump_view_as_follower, leader_accept, follower_accept,
    push_block, buffer_ack, vote_on_last_block_for_self, engraft_2pc, await_acks.
  all: advance.
  all: apply Hfollow; unfold follower_tail, send_vote_on_last_block_to_leader, buffer_ack, engraft_2pc, await_acks.
  all: advance.
Qed.

Lemma advances_maybe_update_view v c : advances (maybe_update_view feat cfg ks v c).
Proof. unfold maybe_update_view, update_view. advance. Qed.
#[local] Hint Resolve advances_maybe_update_view : advances.

(** Every event but the proposal of a new view. *)
Lemma advances_worker ev : is_new_view ev = false → advances (worker feat cfg ks ev).
Proof.
  intros Hev. unfold worker. apply advances_bind; [apply advances_i_am_leader|]. intros me.
  destruct ev as [enough|b ack stats fin|sender vote|[]|[]]; try discriminate Hev.
  all: unfold handle_view_change_timer_tick, verify_and_process_vote, process_view_change_message, process_2pc_result.
  all: try (destruct me; apply advances_process_block).
  all: advance.
Qed.

Lemma run_ci_step s evs s' es :
  Forall (λ ev, is_new_view ev = false) evs → run feat cfg ks s evs s' es → ci_step s s' es.
Proof.
  intros Hall Hrun. induction Hrun as [s|s ev evs s1 s2 e1 e2 r Hw Hrun IH].
  - apply Z.le_refl.
  - inversion_clear Hall as [|? ? Hev Hevs]. eapply crash_path_app; [|by apply IH].
    by eapply (advances_worker ev Hev s).
Qed.

End handlers.

Lemma good_run_run `{HashIter, Codec, Ed25519} feat cfg ks s evs s' es :
  good_run feat cfg ks s evs s' es → run feat cfg ks s evs s' es.
Proof. intros Hrun. induction Hrun; [constructor|by econstructor]. Qed.

(** C7: no block number is executed twice: over any run from the initial state of a deployed node
    (blocks delivered well formed, and none while it is still pending in the same stable
    view) in which the node does not itself install a new view, the numbers of the blocks handed to the
    application for execution (the crash commits, across all messages, rollbacks included)
    are strictly increasing, and none is above [ci]. *)
Theorem crash_commits_once `{HashIter, Codec, Ed25519} (feat : Features) (cfg : Config) (ks : KeyStore)
    (evs : list StagingEvent) (s : Staging) (es : list StagingMsg) :
  deployed feat cfg ks → good_run feat cfg ks (staging_new feat) evs s es →
  Forall (λ ev, is_new_view ev = false) evs →
  StronglySorted Z.lt (crash_numbers es) ∧ Forall (λ n, 0 < n ≤ st_ci s) (crash_numbers es).
Proof.
  intros Hdep Hrun Hev.
  pose proof (run_ci_step feat cfg ks _ _ _ _ Hev (good_run_run _ _ _ _ _ _ _ Hrun)) as Hci.
  destruct (good_run_safe feat cfg ks Hdep [] _ _ _ _ (inv_new feat ks) Hrun) as (_ & _ & Hm).
  split.
  - eapply crash_path_sorted; [exact Hci|]. intros bs Hbs. rewrite Forall_forall in Hm.
    exact (Hm _ Hbs).
  - exact (proj2 (crash_path_numbers _ _ _ Hci)).
Qed.

Lemma crash_commits_once_witness :
  crash_numbers toy_sent = [1] ∧ StronglySorted Z.lt (crash_numbers toy_sent).
Proof.
  split; [vm_compute; reflexivity|].
  apply (@crash_commits_once map_to_list_iter (toy_codec toy_block) toy_ed pirateship_features toy_cfg
           toy_keystore toy_events toy_end toy_sent (toy_deployed _) toy_good_run).
  repeat constructor.
Defined.

(** A block that extends the log passes the continuity check. *)
Lemma check_continuity_extends `{Codec, Ed25519} (ks : KeyStore) L s b :
  inv ks L s → cb_n b = tip_n 0 (log L s) + 1 →
  (∀ h, tip_hash None (log L s) = Some h → cb_parent b = h) → check_continuity s b = true.
Proof.
  intros Hi Hn Hpar. pose proof (inv_bound _ _ _ Hi) as Hbd. pose proof (inv_bci _ _ _ Hi) as Hb.
  pose proof (inv_tip _ _ _ Hi) as Ht. pose proof (inv_chain _ _ _ Hi) as Hc.
  unfold check_continuity. rewrite tip_hash_log in Hpar. unfold log in Hc.
  destruct (pending_blocks s) as [|e0 l0] eqn:Hp; cbn [length] in Ht.
  - rewrite (inv_parent _ _ _ Hi). rewrite app_nil_r in Hc.
    destruct (list.last L) as [p|] eqn:Hl.
    + rewrite last_lookup in Hl. pose proof (chain_lookup _ _ _ _ _ Hc Hl) as Hpn.
      apply lookup_lt_Some in Hl. rewrite u64_add_small by lia.
      apply andb_true_iff. split; [by apply bool_decide_eq_true, Hpar|apply Z.eqb_eq; lia].
    + apply last_None in Hl as ->. apply Z.eqb_eq. simpl in Hb. lia.
  - rewrite <-Hp in *. destruct (list.last (pending_blocks s)) as [el|] eqn:Hl;
      [|apply last_None in Hl; congruence].
    assert (e0 ∈ pending_blocks s) as He0 by (rewrite Hp; left).
    pose proof (inv_pending_n _ _ _ _ Hi He0). rewrite (inv_last_n _ _ _ _ Hi Hl), u64_add_small by lia.
    rewrite Hn, Z.eqb_refl. destruct (Z.gtb_spec (tip_n 0 (log L s) + 1) (tip_n 0 (log L s) + 1)); [lia|].
    destruct (Z.ltb_spec (tip_n 0 (log L s) + 1) (cv_n e0)); [lia|]. by apply bool_decide_eq_true, Hpar.
Qed.

(** Cutting the queue below one of its blocks leaves a log that the block extends. *)
Lemma cut_below_extends `{Codec, Ed25519} (ks : KeyStore) L s s' e :
  inv ks L s → e ∈ pending_blocks s →
  pending_blocks s' = retain (λ x, cv_n x <=? cv_n e - 1) (pending_blocks s) →
  cv_n e = tip_n 0 (log L s') + 1 ∧ ∀ h, tip_hash None (log L s') = Some h → cb_parent (cv_block e) = h.
Proof.
  intros Hi He Hp. rewrite (retain_pending ks L s) in Hp by done.
  apply list_elem_of_lookup in He as [i Hl].
  pose proof (inv_pending_chain _ _ _ Hi) as Hpc.
  assert (map cv_block (pending_blocks s) !! i = Some (cv_block e)) as Hlm by by rewrite lookup_map, Hl.
  pose proof (chain_lookup _ _ _ _ _ Hpc Hlm) as Hn.
  replace (Z.to_nat (cv_n e - 1 - st_bci s)) with i in Hp by lia.
  pose proof (inv_chain _ _ _ Hi) as Hc. unfold log in Hc.
  rewrite <-(take_drop_middle (pending_blocks s) i e Hl), map_app, app_assoc in Hc.
  apply chain_app in Hc as [_ (Hcn & Hpar & _)]. unfold log. rewrite Hp. done.
Qed.

(** A reinstalled block is not executed again.  While a view is unstable, a follower that
    receives a block it already has first rolls the application back below it, then accepts
    the block again, but keeps its commit index: if the block was below [ci] (the
    application had executed it), the application is told to undo it and no later event,
    short of this node installing a new view itself, hands it over again. *)
Lemma reinstalled_block_not_executed `{HashIter, Codec, Ed25519} (feat : Features) (cfg : Config)
    (ks : KeyStore) (L : list CachedBlock) (s : Staging) (e : CachedBlockWithVotes) (ack : StorageAck)
    (stats : AppendEntriesStats) :
  inv ks L s → e ∈ pending_blocks s → cv_n e ≤ st_ci s → cv_qc e = [] →
  st_view_is_stable s = false → aes_view_is_stable stats = false → aes_view stats = st_view s →
  ∃ s', process_block_as_follower feat cfg ks 2 (cv_block e) ack stats false s =
          Some (ROk, s', [ToApp (Rollback (cv_n e - 1)); ToLogServer (LsRollback (cv_n e - 1));
                          ToLogServer (LsNewBlock (cv_block e))]) ∧
        cv_block <$> list.last (pending_blocks s') = Some (cv_block e) ∧
        ∀ evs s2 es bs, Forall (λ ev, is_new_view ev = false) evs → run feat cfg ks s' evs s2 es →
          ToApp (CrashCommit bs) ∈ es → cv_block e ∉ bs.
Proof.
  intros Hi He Hci Hqc Hst Hst' Hv.
  pose proof (inv_bound _ _ _ Hi) as Hbd. pose proof (inv_pending_n _ _ _ _ Hi He) as Hn.
  pose proof (inv_bci _ _ _ Hi) as Hb.
  set (s1 := set_pending_signatures (retain (λ x, x.1 <=? cv_n e - 1) (pending_signatures s))
               (set_pending (retain (λ x, cv_n x <=? cv_n e - 1) (pending_blocks s)) (set_stable false s))).
  destruct (cut_below_extends ks L s s1 e Hi He eq_refl) as [Hn1 Hpar1].
  assert (inv ks L s1) as Hi1.
  { eapply (inv_truncate ks L s); [done|cbn; by apply (retain_pending ks L)|done..]. }
  pose proof (check_continuity_extends ks L s1 _ Hi1 Hn1 Hpar1) as Hc.
  cbn [process_block_as_follower]. unfold mbind, M_bind, gets. cbv beta iota.
  rewrite Hv, Z.ltb_irrefl, Z.eqb_refl. unfold accept_same_view, mbind, M_bind, get, modify, gets.
  cbv beta iota. rewrite Hst, Hst'. cbn [orb negb]. cbv beta iota.
  change (st_view_is_stable (set_stable false s)) with false. cbn [negb].
  unfold rollback, mbind, M_bind, modify, emit, mret, M_ret. cbv beta iota.
  rewrite u64_sub_small by lia. change (check_continuity _ (cv_block e)) with (check_continuity s1 (cv_block e)).
  rewrite Hc. cbn [negb]. cbv beta iota.
  unfold follower_accept, push_block, mbind, M_bind, modify, emit, get, mret, M_ret, unwrap. cbv beta iota.
  cbn [pending_blocks set_pending set_ae_seen]. rewrite last_snoc. cbn [cv_block]. rewrite Hqc.
  cbn [follow_qcs]. unfold follower_tail. rewrite andb_false_r.
  eexists. split; [reflexivity|]. cbn. rewrite last_snoc. split; [done|].
  intros evs s2 es bs Hev Hrun Hbs Hin.
  pose proof (run_ci_step feat cfg ks _ _ _ _ Hev Hrun) as [_ Hall]%crash_path_numbers.
  rewrite Forall_forall in Hall. specialize (Hall _ (elem_of_crash_numbers _ _ _ Hbs Hin)). cbn in Hall. lia.
Qed.

(** A follower in an unstable view 2 that had executed block 1 of view 1. *)
Definition executed_state : Staging :=
  set_ci 1 (set_view 2 1 false (set_pending [mkCBV toy_b1 ∅ ∅ false false] (staging_new pirateship_features))).

Lemma executed_state_inv : @inv (toy_codec toy_block) toy_ed toy_keystore [] executed_state.
Proof.
  split; cbn; try done.
  - intros e ->%list_elem_of_singleton. split; try done; apply toy_b1_ok.
  - intros [|i] [|j] a b Ha Hb Hij; simplify_eq/=; done.
Qed.

Lemma reinstalled_block_not_executed_witness :
  let HI := map_to_list_iter in let C := toy_codec toy_block in let Ed := toy_ed in
  ∃ s', process_block_as_follower pirateship_features toy_cfg toy_keystore 2 toy_b1 (Some Stored)
          (mkAEStats 2 false 1 "node2" 0) false executed_state =
          Some (ROk, s', [ToApp (Rollback 0); ToLogServer (LsRollback 0); ToLogServer (LsNewBlock toy_b1)]) ∧
        cv_block <$> list.last (pending_blocks s') = Some toy_b1 ∧
        ∀ evs s2 es bs, Forall (λ ev, is_new_view ev = false) evs →
          run pirateship_features toy_cfg toy_keystore s' evs s2 es →
          ToApp (CrashCommit bs) ∈ es → toy_b1 ∉ bs.
Proof.
  intros HI C Ed.
  apply (@reinstalled_block_not_executed HI C Ed pirateship_features toy_cfg toy_keystore [] executed_state
           (mkCBV toy_b1 ∅ ∅ false false) (Some Stored) (mkAEStats 2 false 1 "node2" 0));
    [apply executed_state_inv|left|vm_compute; discriminate|reflexivity|reflexivity|reflexivity|reflexivity].
Defined.
