(* ===== verification/Pacemaker.v ===== *)
(** The pacemaker task (src/src/consensus/pacemaker.rs): it buffers view-change messages
    per (view, configuration), tells staging to join a view once enough nodes have, and
    hands a new leader the forks it must choose from.  The log server answers two queries;
    they are the class [LogQuery]. *)

From stdpp Require Import base numbers list gmap strings option sorting.
From S2P Require Import Prelude Types Config Serialize.

(** The queries other tasks put to the log server: [CheckHash] and [GetHints]. *)
Class LogQuery := {
  lq_check_hash : Z → HashType → bool;
  lq_get_hints : Z → list ProtoBlockHint }.

Abbreviation VcBuffer := (gmap (Z * Z) (gmap SenderType ProtoViewChange)).

Record Pacemaker := mkPacemaker {
  pm_view_num : Z;
  pm_config_num : Z;
  last_view_notified : Z;
  last_new_viewed_view : Z;
  pm_bci : Z;
  vc_buffer : VcBuffer }.

Inductive PacemakerMsg :=
  | PmToStaging (c : PacemakerCommand)
  | PmSendNack (to : string) (nack : ProtoBackfillNack)
  | PmReplyEnough (b : bool).

Definition pacemaker_new : Pacemaker := mkPacemaker 0 0 0 0 0 ∅.

Definition set_vc_buffer (b : VcBuffer) (s : Pacemaker) : Pacemaker :=
  mkPacemaker (pm_view_num s) (pm_config_num s) (last_view_notified s) (last_new_viewed_view s) (pm_bci s) b.
Definition set_last_view_notified (v : Z) (s : Pacemaker) : Pacemaker :=
  mkPacemaker (pm_view_num s) (pm_config_num s) v (last_new_viewed_view s) (pm_bci s) (vc_buffer s).
Definition set_last_new_viewed_view (v : Z) (s : Pacemaker) : Pacemaker :=
  mkPacemaker (pm_view_num s) (pm_config_num s) (last_view_notified s) v (pm_bci s) (vc_buffer s).
Definition set_pm_bci (k : Z) (s : Pacemaker) : Pacemaker :=
  mkPacemaker (pm_view_num s) (pm_config_num s) (last_view_notified s) (last_new_viewed_view s) k (vc_buffer s).

Inductive PacemakerEvent :=
  | PmEvViewChange (vc : ProtoViewChange) (sender : SenderType)
  | PmEvStaging (cmd : PacemakerCommand).

Section pacemaker.
Context `{LogQuery} (feat : Features) (cfg : Config).

Abbreviation PM := (M Pacemaker PacemakerMsg).
Abbreviation cc := (consensus_config cfg).

(** The parent the fork of the message points to; [None] is the failed [unwrap]. *)
Definition fork_parent (vc : ProtoViewChange) : option (Z * HashType) :=
  match vc_fork vc with
  | Some fork =>
      match serialized_blocks fork with
      | first_block :: _ =>
          p ← get_parent_hash_in_proto_block_ser (hs_body first_block);
          Some (hs_n first_block ⊖ 1, p)
      | [] => Some (0, [])
      end
  | None => Some (0, [])
  end.

Definition pm_send_nack (sender : SenderType) (vc : ProtoViewChange) (hints : list ProtoBlockHint) : PM res :=
  s ← get;
  _ ← emit (PmSendNack (fst (to_name_and_sub_id sender))
              (mkNack hints (pm_bci s) (net_name cfg) (Some (OriginVc vc))));
  mret ROk.

(** Buffering a message and signalling staging. *)
Definition buffer_view_change (vc : ProtoViewChange) (sender : SenderType) : PM unit :=
  let key := (vc_view vc, vc_config_num vc) in
  _ ← modify (λ s, set_vc_buffer
        (<[key := <[sender := vc]> (default ∅ (vc_buffer s !! key))]> (vc_buffer s)) s);
  s ← get;
  let len := Z.of_nat (size (default ∅ (vc_buffer s !! key))) in
  _ ← (if (pacemaker_view_update_threshold feat cc <=? len) && (vc_view vc >? last_view_notified s)
       then _ ← emit (PmToStaging (PmUpdateView (vc_view vc) (vc_config_num vc)));
            modify (set_last_view_notified (vc_view vc))
       else mret tt);
  s ← get;
  if (new_view_bcast_threshold feat cc <=? len) && (vc_view vc >? last_new_viewed_view s) then
    buf ← unwrap (vc_buffer s !! key);
    _ ← modify (set_vc_buffer (delete key (vc_buffer s)));
    _ ← emit (PmToStaging (NewViewForks (vc_view vc) (vc_config_num vc) buf));
    modify (set_last_new_viewed_view (vc_view vc))
  else mret tt.

Definition handle_view_change (vc : ProtoViewChange) (sender : SenderType) : PM res :=
  s ← get;
  if (vc_view vc <? pm_view_num s) || (vc_config_num vc <? pm_config_num s) then mret ROk
  else if vc_view vc <=? last_new_viewed_view s then mret ROk
  else
    '(fork_parent_n, fork_parent_hash) ← unwrap (fork_parent vc);
    let hash_match := lq_check_hash fork_parent_n fork_parent_hash in
    if negb hash_match && (fork_parent_n <=? pm_bci s) then mret ROk
    else if negb hash_match then
      try_ (pm_send_nack sender vc (lq_get_hints (pm_bci s))) (mret ROk)
    else
      _ ← buffer_view_change vc sender;
      mret ROk.

Definition handle_my_view_jump (view_num config_num : Z) (vc : ProtoViewChange) : PM res :=
  _ ← modify (λ s, set_vc_buffer
        (filter (λ kv, (view_num <=? kv.1.1) && (config_num <=? kv.1.2) = true) (vc_buffer s)) s);
  try_ (handle_view_change vc (Auth (net_name cfg) 0)) (mret ROk).

(** One iteration of the select loop. *)
Definition pacemaker_worker (ev : PacemakerEvent) : PM res :=
  match ev with
  | PmEvViewChange vc sender => try_ (handle_view_change vc sender) (mret ROk)
  | PmEvStaging (MyViewJumped v c vc) => try_ (handle_my_view_jump v c vc) (mret ROk)
  | PmEvStaging (PmUpdateBCI bci) => _ ← modify (set_pm_bci bci); mret ROk
  | PmEvStaging (QueryEnoughVCMsg view config) =>
      s ← get;
      if view <=? last_new_viewed_view s then _ ← emit (PmReplyEnough true); mret ROk
      else
        let len := match vc_buffer s !! (view, config) with Some m => Z.of_nat (size m) | None => 0 end in
        _ ← emit (PmReplyEnough (new_view_bcast_threshold feat cc <=? len)); mret ROk
  | PmEvStaging _ => mret ROk
  end.

Inductive pm_run : Pacemaker → list PacemakerEvent → Pacemaker → list PacemakerMsg → Prop :=
  | pm_run_nil s : pm_run s [] s []
  | pm_run_cons s ev evs s1 s2 e1 e2 r :
      pacemaker_worker ev s = Some (r, s1, e1) → pm_run s1 evs s2 e2 → pm_run s (ev :: evs) s2 (e1 ++ e2).

(** * Invariant *)

(** Messages are filed under their own view and configuration. *)
Definition buffer_ok (b : VcBuffer) : Prop :=
  ∀ v c m s vc, b !! (v, c) = Some m → m !! s = Some vc → vc_view vc = v ∧ vc_config_num vc = c.

(** The views announced by a sequence of messages. *)
Fixpoint new_views (es : list PacemakerMsg) : list Z :=
  match es with
  | [] => []
  | PmToStaging (NewViewForks v _ _) :: es' => v :: new_views es'
  | _ :: es' => new_views es'
  end.
Fixpoint view_updates (es : list PacemakerMsg) : list Z :=
  match es with
  | [] => []
  | PmToStaging (PmUpdateView v _) :: es' => v :: view_updates es'
  | _ :: es' => view_updates es'
  end.

(** What every message must satisfy. *)
Definition pm_msg_ok (m : PacemakerMsg) : Prop :=
  match m with
  | PmToStaging (NewViewForks v c forks) =>
      new_view_bcast_threshold feat cc ≤ Z.of_nat (size forks) ∧
      ∀ s vc, forks !! s = Some vc → vc_view vc = v ∧ vc_config_num vc = c
  | _ => True
  end.

(** Announced views increase past a recorded one. *)
Definition ascending (lo hi : Z) (l : list Z) : Prop :=
  StronglySorted Z.lt l ∧ lo ≤ hi ∧ ∀ v, v ∈ l → lo < v ≤ hi.

Definition pm_step (s s' : Pacemaker) (es : list PacemakerMsg) : Prop :=
  buffer_ok (vc_buffer s') ∧ Forall pm_msg_ok es ∧
  ascending (last_new_viewed_view s) (last_new_viewed_view s') (new_views es) ∧
  ascending (last_view_notified s) (last_view_notified s') (view_updates es).

Lemma ascending_nil lo : ascending lo lo [].
Proof. split; [constructor|]. split; [lia|]. intros v Hv. by apply not_elem_of_nil in Hv. Qed.

Lemma ascending_one lo v : lo < v → ascending lo v [v].
Proof.
  intros Hv. split; [repeat constructor|]. split; [lia|].
  intros w ->%list_elem_of_singleton. lia.
Qed.

Lemma ascending_app a b c l1 l2 : ascending a b l1 → ascending b c l2 → ascending a c (l1 ++ l2).
Proof.
  intros (S1 & L1 & B1) (S2 & L2 & B2). split; [|split; [lia|]].
  - induction S1 as [|x l1 S1 IH F1]; [done|]. simpl. constructor.
    + apply IH. intros v Hv. apply B1. by right.
    + apply Forall_app. split; [done|]. apply Forall_forall. intros v Hv.
      specialize (B1 x ltac:(left)). specialize (B2 v Hv). lia.
  - intros v [Hv|Hv]%elem_of_app; [specialize (B1 v Hv)|specialize (B2 v Hv)]; lia.
Qed.

Lemma new_views_app es1 es2 : new_views (es1 ++ es2) = new_views es1 ++ new_views es2.
Proof. induction es1 as [|[[]| |] es1 IH]; simpl; rewrite ?IH; done. Qed.

Lemma view_updates_app es1 es2 : view_updates (es1 ++ es2) = view_updates es1 ++ view_updates es2.
Proof. induction es1 as [|[[]| |] es1 IH]; simpl; rewrite ?IH; done. Qed.

Lemma pm_step_trans s1 s2 s3 es1 es2 :
  pm_step s1 s2 es1 → pm_step s2 s3 es2 → pm_step s1 s3 (es1 ++ es2).
Proof.
  intros (B1 & M1 & N1 & U1) (B2 & M2 & N2 & U2). unfold pm_step.
  rewrite new_views_app, view_updates_app. split; [done|]. split; [by apply Forall_app|].
  split; by eapply ascending_app.
Qed.

End pacemaker.

Section pacemaker_proofs.
Context `{LogQuery} (feat : Features) (cfg : Config).

Abbreviation pstep := (pm_step feat cfg).

Lemma pm_step_refl s s' :
  buffer_ok (vc_buffer s') → last_new_viewed_view s' = last_new_viewed_view s →
  last_view_notified s' = last_view_notified s → pstep s s' [].
Proof.
  intros Hb Hn Hv. unfold pm_step. rewrite Hn, Hv. split; [done|]. split; [constructor|].
  split; apply ascending_nil.
Qed.

Lemma pm_step_emit s m : buffer_ok (vc_buffer s) →
  new_views [m] = [] → view_updates [m] = [] → pm_msg_ok feat cfg m → pstep s s [m].
Proof.
  intros Hb Hn Hu Hm. unfold pm_step. rewrite Hn, Hu. split; [done|]. split; [by constructor|].
  split; apply ascending_nil.
Qed.

Lemma buffer_ok_insert b vc sender key :
  key = (vc_view vc, vc_config_num vc) → buffer_ok b →
  buffer_ok (<[key := <[sender := vc]> (default ∅ (b !! key))]> b).
Proof.
  intros -> Hb v c m s vc' Hm Hs.
  destruct (decide ((v, c) = (vc_view vc, vc_config_num vc))) as [E|E].
  - rewrite <-E, lookup_insert_eq in Hm. simplify_eq.
    destruct (decide (s = sender)) as [->|]; [rewrite lookup_insert_eq in Hs; by simplify_eq|].
    rewrite lookup_insert_ne in Hs by done.
    destruct (b !! (vc_view vc, vc_config_num vc)) as [m0|] eqn:Hm0; simpl in Hs; [by eapply Hb|].
    by rewrite lookup_empty in Hs.
  - rewrite lookup_insert_ne in Hm by done. by eapply Hb.
Qed.

Lemma wp_buffer_view_change s vc sender :
  buffer_ok (vc_buffer s) →
  wp (buffer_view_change feat cfg vc sender) (λ _ s' es, pstep s s' es) s.
Proof.
  intros Hb. unfold buffer_view_change. set (key := (vc_view vc, vc_config_num vc)).
  wp_prims. set (s1 := set_vc_buffer _ s).
  assert (buffer_ok (vc_buffer s1)) as Hb1 by by apply buffer_ok_insert.
  assert (vc_buffer s1 !! key = Some (<[sender:=vc]> (default ∅ (vc_buffer s !! key)))) as Hk
    by apply lookup_insert_eq.
  set (len := Z.of_nat (size (default ∅ (vc_buffer s1 !! key)))).
  apply (wp_mono _ (λ _ s2 e2, pstep s s2 e2 ∧ vc_buffer s2 = vc_buffer s1 ∧
                               last_new_viewed_view s2 = last_new_viewed_view s)).
  2:{ destruct (pacemaker_view_update_threshold feat _ <=? len); cbn [andb].
      2:{ wp_prims. split; [by apply pm_step_refl|done]. }
      destruct (Z.gtb_spec (vc_view vc) (last_view_notified s1)).
      2:{ wp_prims. split; [by apply pm_step_refl|done]. }
      wp_prims. split; [|done]. split; [done|]. split; [by repeat constructor|].
      split; [apply ascending_nil|]. by apply ascending_one. }
  intros [] s2 e2 (Hs2 & Hb2 & Hn2). wp_prims. cbn [app].
  destruct (Z.leb_spec (new_view_bcast_threshold feat (consensus_config cfg)) len); cbn [andb].
  2:{ wp_prims. by rewrite app_nil_r. }
  destruct (Z.gtb_spec (vc_view vc) (last_new_viewed_view s2)).
  2:{ wp_prims. by rewrite app_nil_r. }
  wp_prims. rewrite Hb2, Hk. eapply wp_unwrap; [done|]. wp_prims. cbn [app].
  eapply pm_step_trans; [exact Hs2|]. split; [|split; [|split]].
  - cbn. intros v c m x vc' Hm. apply lookup_delete_Some in Hm as [_ Hm]. by eapply Hb1.
  - constructor; [|constructor]. split.
    + unfold len in *. by rewrite Hk in *.
    + intros x vc' Hx. by eapply (Hb1 _ _ _ x).
  - by apply ascending_one.
  - apply ascending_nil.
Qed.

Lemma wlp_handle_view_change s vc sender :
  buffer_ok (vc_buffer s) →
  wlp (handle_view_change feat cfg vc sender) (λ _ s' es, pstep s s' es) s.
Proof.
  intros Hb. unfold handle_view_change. wlp_prims.
  destruct (_ || _); [wlp_prims; by apply pm_step_refl|].
  destruct (_ <=? _); [wlp_prims; by apply pm_step_refl|]. wlp_prims.
  match goal with Hp : fork_parent vc = Some ?p |- _ => destruct p as [fn fh] end.
  destruct (_ && _); [wlp_prims; by apply pm_step_refl|].
  destruct (negb _).
  - unfold pm_send_nack, try_. wlp_prims. cbn [app]. by apply pm_step_emit.
  - wlp_prims. eapply wlp_mono; [|apply wlp_of_wp, wp_buffer_view_change; done].
    intros [] s1 e1 Hs. wlp_prims. by rewrite app_nil_r.
Qed.

Lemma wlp_try_ret (m : M Pacemaker PacemakerMsg res) (Q : Pacemaker → list PacemakerMsg → Prop) s :
  wlp m (λ _ s' es, Q s' es) s → wlp (try_ m (mret ROk)) (λ _ s' es, Q s' es) s.
Proof.
  intros Hm. unfold try_. apply wlp_bind. eapply wlp_mono; [|exact Hm].
  intros [] s1 e1 HQ; wlp_prims; by rewrite app_nil_r.
Qed.

Lemma pacemaker_worker_step s ev r s' es :
  buffer_ok (vc_buffer s) → pacemaker_worker feat cfg ev s = Some (r, s', es) → pstep s s' es.
Proof.
  intros Hb. revert r s' es.
  enough (wlp (pacemaker_worker feat cfg ev) (λ _ s' es, pstep s s' es) s) as Hw by (intros r s' es; apply Hw).
  destruct ev as [vc sender|[v c|v c vc|v c forks|bci|v c]]; cbn [pacemaker_worker].
  - by apply wlp_try_ret, wlp_handle_view_change.
  - wlp_prims. by apply pm_step_refl.
  - apply wlp_try_ret. unfold handle_my_view_jump. wlp_prims. cbn [app].
    set (s1 := set_vc_buffer _ s). apply wlp_try_ret.
    assert (buffer_ok (vc_buffer s1)) as Hb1.
    { intros v' c' m x vc' Hm. apply map_lookup_filter_Some in Hm as [Hm _]. by eapply Hb. }
    eapply wlp_mono; [|by apply wlp_handle_view_change]. intros r s2 e2 Hs2.
    apply (pm_step_trans feat cfg s s1 s2 []); [by apply pm_step_refl|done].
  - wlp_prims. by apply pm_step_refl.
  - wlp_prims. by apply pm_step_refl.
  - wlp_prims. destruct (_ <=? _); wlp_prims; by apply pm_step_emit.
Qed.

Lemma pm_run_step s evs s' es :
  buffer_ok (vc_buffer s) → pm_run feat cfg s evs s' es → pstep s s' es.
Proof.
  intros Hb Hr. induction Hr as [s|s ev evs s1 s2 e1 e2 r Hw Hr IH]; [by apply pm_step_refl|].
  pose proof (pacemaker_worker_step s ev r s1 e1 Hb Hw) as Hs.
  eapply pm_step_trans; [exact Hs|]. apply IH. apply Hs.
Qed.

End pacemaker_proofs.

(** * Properties *)

(** C17: staging is asked to install a new view only with a quorum of view-change messages (one
    per sender identifier), all of that view and configuration; the views it is asked to install, and the views it
    is told to join, are each strictly increasing over the whole run, so no view is
    announced twice. *)
Theorem new_view_quorum `{LogQuery} (feat : Features) (cfg : Config) (evs : list PacemakerEvent)
    (s : Pacemaker) (es : list PacemakerMsg) :
  pm_run feat cfg pacemaker_new evs s es →
  (∀ v c forks, PmToStaging (NewViewForks v c forks) ∈ es →
     new_view_bcast_threshold feat (consensus_config cfg) ≤ Z.of_nat (size forks) ∧
     ∀ sender vc, forks !! sender = Some vc → vc_view vc = v ∧ vc_config_num vc = c) ∧
  StronglySorted Z.lt (new_views es) ∧ StronglySorted Z.lt (view_updates es).
Proof.
  intros Hr. assert (buffer_ok (vc_buffer pacemaker_new)) as Hb by (intros v c m x vc Hm; done).
  destruct (pm_run_step feat cfg _ _ _ _ Hb Hr) as (_ & Hm & (Hn & _) & (Hu & _)).
  split; [|done]. intros v c forks Hin. rewrite Forall_forall in Hm. by apply (Hm _ Hin).
Qed.

(** Running a list of events. *)
Fixpoint pm_exec `{LogQuery} (feat : Features) (cfg : Config) (evs : list PacemakerEvent) (s : Pacemaker)
    : option (Pacemaker * list PacemakerMsg) :=
  match evs with
  | [] => Some (s, [])
  | ev :: evs' =>
      match pacemaker_worker feat cfg ev s with
      | None => None
      | Some (_, s1, e1) =>
          match pm_exec feat cfg evs' s1 with Some (s2, e2) => Some (s2, e1 ++ e2) | None => None end
      end
  end.

Lemma pm_exec_run `{LogQuery} feat cfg evs s s' es :
  pm_exec feat cfg evs s = Some (s', es) → pm_run feat cfg s evs s' es.
Proof.
  revert s s' es. induction evs as [|ev evs IH]; intros s s' es Hex; cbn [pm_exec] in Hex.
  { simplify_eq. constructor. }
  destruct (pacemaker_worker feat cfg ev s) as [[[r s1] e1]|] eqn:Hw; [|done].
  destruct (pm_exec feat cfg evs s1) as [[s2 e2]|] eqn:He; [|done]. simplify_eq.
  econstructor; [done|by apply IH].
Qed.

(** A log that has every hash asked for. *)
Definition all_logs : LogQuery := {| lq_check_hash := λ _ _, true; lq_get_hints := λ _, [] |}.
Definition vc5 : ProtoViewChange := mkVC 5 1 None [] 0 None.
Definition pm_cfg : Config := mkConfig "node1" four_nodes.

Definition three_vcs (a b c : SenderType) : list PacemakerEvent :=
  [PmEvViewChange vc5 a; PmEvViewChange vc5 b; PmEvViewChange vc5 c].

Definition pm_result (evs : list PacemakerEvent) : Pacemaker * list PacemakerMsg :=
  default (pacemaker_new, []) (@pm_exec all_logs pirateship_features pm_cfg evs pacemaker_new).

Definition three_nodes_vc : list PacemakerEvent := three_vcs (Auth "node2" 0) (Auth "node3" 0) (Auth "node4" 0).
Definition one_node_vc : list PacemakerEvent := three_vcs (Auth "node4" 0) (Auth "node4" 1) (Auth "node4" 2).

Lemma new_view_quorum_witness :
  let '(s, es) := pm_result three_nodes_vc in
  (∀ v c forks, PmToStaging (NewViewForks v c forks) ∈ es →
     new_view_bcast_threshold pirateship_features four_nodes ≤ Z.of_nat (size forks) ∧
     ∀ sender vc, forks !! sender = Some vc → vc_view vc = v ∧ vc_config_num vc = c) ∧
  StronglySorted Z.lt (new_views es) ∧ StronglySorted Z.lt (view_updates es).
Proof.
  apply (@new_view_quorum all_logs pirateship_features pm_cfg three_nodes_vc
           (pm_result three_nodes_vc).1 (pm_result three_nodes_vc).2).
  apply pm_exec_run. vm_compute. reflexivity.
Defined.

(** View-change messages are counted per sender, and a sender is a node name together
    with a connection sub-identifier: one node that uses three sub-identifiers is enough,
    among four nodes, to make a quorum for a new view. *)
Lemma sub_ids_count_as_nodes :
  let H := all_logs in
  ∃ s es forks, pm_run pirateship_features pm_cfg pacemaker_new one_node_vc s es ∧
    PmToStaging (NewViewForks 5 1 forks) ∈ es ∧
    ∀ sender, is_Some (forks !! sender) → fst (to_name_and_sub_id sender) = "node4"%string.
Proof.
  intros H. exists (pm_result one_node_vc).1, (pm_result one_node_vc).2,
    (list_to_map [(Auth "node4" 0, vc5); (Auth "node4" 1, vc5); (Auth "node4" 2, vc5)]).
  split; [apply pm_exec_run; vm_compute; reflexivity|]. split.
  - apply (list_elem_of_lookup_2 _ 1). vm_compute. reflexivity.
  - intros sender [vc Hvc]. apply elem_of_list_to_map_2 in Hvc.
    rewrite !elem_of_cons, elem_of_nil in Hvc. by destruct Hvc as [[= -> _]|[[= -> _]|[[= -> _]|[]]]].
Qed.
