(* ===== verification/LogServer.v ===== *)
(** The log server (src/src/consensus/logserver.rs): the in-memory log of accepted blocks,
    the bounded read cache for garbage-collected ones, the answers to backfill requests and
    to the queries of the pacemaker and the fork receiver.  Reading a block from disk is
    the class [BlockStore] (storage plus the hash check of the crypto service). *)

From stdpp Require Import base numbers list gmap strings option.
From S2P Require Import Prelude Types Serialize Chain.

(** [StorageServiceConnector::get_block]; [None] is an error. *)
Class BlockStore := { bs_get : HashType → option CachedBlock }.

(** * ReadCache

    The BTreeMap is the list of its entries in key order. *)

Record ReadCache := mkReadCache {
  rc_cache : list (Z * CachedBlock);
  working_set_size : nat }.

Fixpoint bt_insert (k : Z) (b : CachedBlock) (l : list (Z * CachedBlock)) : list (Z * CachedBlock) :=
  match l with
  | [] => [(k, b)]
  | (k', b') :: l' =>
      match k ?= k' with
      | Lt => (k, b) :: l
      | Eq => (k, b) :: l'
      | Gt => (k', b') :: bt_insert k b l'
      end
  end.

Fixpoint bt_get (k : Z) (l : list (Z * CachedBlock)) : option CachedBlock :=
  match l with
  | [] => None
  | (k', b) :: l' => if k' =? k then Some b else bt_get k l'
  end.

(** [range(n..).next()]. *)
Fixpoint bt_next (n : Z) (l : list (Z * CachedBlock)) : option CachedBlock :=
  match l with
  | [] => None
  | (k, b) :: l' => if n <=? k then Some b else bt_next n l'
  end.

(** [Ok] is [inr]; [Err] is [inl]. *)
Definition rc_get (c : ReadCache) (n : Z) : option CachedBlock + CachedBlock :=
  match rc_cache c with
  | [] => inl None
  | _ =>
      match bt_get n (rc_cache c) with
      | Some b => inr b
      | None => inl (bt_next n (rc_cache c))
      end
  end.

(** The two [first_entry().unwrap()] are on a full, hence non-empty, cache. *)
Definition rc_put (c : ReadCache) (b : CachedBlock) : ReadCache :=
  let full := (working_set_size c <=? length (rc_cache c))%nat in
  match rc_cache c with
  | (k0, _) :: rest =>
      if full && (cb_n b <? k0) then c
      else mkReadCache (bt_insert (cb_n b) b (if full then rest else rc_cache c)) (working_set_size c)
  | [] => mkReadCache (bt_insert (cb_n b) b []) (working_set_size c)
  end.

(** * LogServer *)

Record LogServer := mkLogServer {
  ls_bci : Z;
  ls_log : list CachedBlock;
  ls_read_cache : ReadCache }.

Definition LOGSERVER_READ_CACHE_WSS : nat := 100.

Definition logserver_new : LogServer := mkLogServer 0 [] (mkReadCache [] LOGSERVER_READ_CACHE_WSS).

Inductive LogServerQuery :=
  | CheckHash (n : Z) (hsh : HashType)
  | GetHints (last_needed_n : Z).

Inductive LogServerMsg :=
  | LsReplyHash (b : bool)
  | LsReplyHints (h : list ProtoBlockHint)
  | LsSendBackfill (to : string) (payload : Origin).

Definition set_ls_log (l : list CachedBlock) (s : LogServer) : LogServer :=
  mkLogServer (ls_bci s) l (ls_read_cache s).
Definition set_ls_cache (c : ReadCache) (s : LogServer) : LogServer :=
  mkLogServer (ls_bci s) (ls_log s) c.
Definition set_ls_bci (k : Z) (s : LogServer) : LogServer :=
  mkLogServer k (ls_log s) (ls_read_cache s).

Abbreviation LM := (M LogServer LogServerMsg).

Definition ls_last_n (s : LogServer) : Z :=
  match list.last (ls_log s) with Some b => cb_n b | None => 0 end.

Section logserver.
Context `{BlockStore}.

(** The [while] loop of [get_gced_block]; out of fuel is a panic. *)
Fixpoint fetch_down (fuel : nat) (n : Z) (ret : CachedBlock) : LM CachedBlock :=
  match fuel with
  | O => panic
  | S fuel' =>
      if cb_n ret >? n then
        block ← unwrap (bs_get (cb_parent ret));
        _ ← modify (λ s, set_ls_cache (rc_put (ls_read_cache s) block) s);
        fetch_down fuel' n block
      else mret ret
  end.

(** The walk visits one block per sequence number. *)
Definition gced_fuel (n : Z) (start : CachedBlock) : nat := S (Z.to_nat (cb_n start - n)).

Definition get_gced_block (n : Z) : LM (option CachedBlock) :=
  s ← get;
  match ls_log s with
  | [] => mret None
  | front :: _ =>
      if cb_n front <=? n then mret None
      else
        match rc_get (ls_read_cache s) n with
        | inr b => mret (Some b)
        | inl start =>
            let start := default front start in
            b ← fetch_down (gced_fuel n start) n start;
            mret (Some b)
        end
  end.

Definition get_block (n : Z) : LM (option CachedBlock) :=
  s ← get;
  match ls_log s, list.last (ls_log s) with
  | front :: _, Some back =>
      if (n =? 0) || (n >? cb_n back) then mret None
      else if n <? cb_n front then get_gced_block n
      else mret (binary_search_by (λ e, cb_n e) n (ls_log s) ≫= λ i, ls_log s !! i)
  | _, _ => mret None
  end.

(** [hints.collect::<HashMap>()]: a later hint for the same number wins. *)
Definition hint_map (hints : list ProtoBlockHint) : gmap Z HashType :=
  foldl (λ m h, <[hint_block_n h := hint_digest h]> m) ∅ hints.

(** The loop of [fill_fork] over [(first_n..=last_n).rev()]; [k] counts what is left. *)
Fixpoint fill_loop (k : nat) (i : Z) (hints : gmap Z HashType) (acc : list CachedBlock)
    : LM (list CachedBlock) :=
  match k with
  | O => mret acc
  | S k' =>
      o ← get_block i;
      match o with
      | None => mret acc
      | Some block =>
          match hints !! i with
          | Some h =>
              if bool_decide (h = cb_hash block) then mret acc
              else fill_loop k' (i - 1) hints (block :: acc)
          | None => fill_loop k' (i - 1) hints (block :: acc)
          end
      end
  end.

Definition fill_fork (first_n last_n : Z) (hints : list ProtoBlockHint) : LM ProtoFork :=
  if last_n <? first_n then panic
  else
    l ← fill_loop (Z.to_nat (last_n - first_n + 1)) last_n (hint_map hints) [];
    mret (mkFork (map half_serialize l)).

Definition origin_fork (o : option Origin) : option ProtoFork :=
  match o with
  | Some (OriginAe ae) => ae_fork ae
  | Some (OriginVc vc) => vc_fork vc
  | None => None
  end.

Definition with_fork (o : Origin) (f : ProtoFork) : Origin :=
  match o with
  | OriginAe ae => OriginAe (mkAE (Some f) (ae_commit_index ae) (ae_view ae) (ae_view_is_stable ae)
                               (ae_config_num ae) true)
  | OriginVc vc => OriginVc (mkVC (vc_view vc) (vc_config_num vc) (Some f) (vc_fork_sig vc)
                               (vc_fork_last_n vc) (vc_fork_last_qc vc))
  end.

Definition respond_backfill (req : ProtoBackfillNack) : LM res :=
  match nack_origin req, origin_fork (nack_origin req) with
  | Some origin, Some existing_fork =>
      s ← get;
      let last_n := match list.last (serialized_blocks existing_fork) with
                    | Some b => hs_n b
                    | None => ls_last_n s
                    end in
      new_fork ← fill_fork (nack_last_index_needed req) last_n (nack_hints req);
      _ ← emit (LsSendBackfill (nack_reply_name req) (with_fork origin new_fork));
      mret ROk
  | _, _ => mret ROk
  end.

Definition JUMP_START : Z := 1000.
Definition JUMP_MULTIPLIER : Z := 10.

(** The [while] loop of [GetHints]; out of fuel is a panic. *)
Fixpoint hints_loop (fuel : nat) (last_n curr_n curr_jump used : Z) (hints : list ProtoBlockHint)
    : LM (list ProtoBlockHint) :=
  match fuel with
  | O => panic
  | S fuel' =>
      if curr_n <? last_n then
        o ← get_block curr_n;
        match o with
        | None => mret hints
        | Some b =>
            let hints' := hints ++ [mkHint (cb_n b) (cb_hash b)] in
            let used' := used + 1 in
            if JUMP_MULTIPLIER <=? used'
            then hints_loop fuel' last_n (curr_n ⊕ curr_jump) (u64_mul curr_jump JUMP_MULTIPLIER) 0 hints'
            else hints_loop fuel' last_n (curr_n ⊕ curr_jump) curr_jump used' hints'
        end
      else mret hints
  end.

(** Ten jumps per power of ten: sixteen powers pass 2^63. *)
Definition hints_fuel : nat := 171.

Definition handle_query (q : LogServerQuery) : LM unit :=
  match q with
  | CheckHash n hsh =>
      if n =? 0 then emit (LsReplyHash true)
      else
        o ← get_block n;
        match o with
        | Some b => emit (LsReplyHash (bool_decide (cb_hash b = hsh)))
        | None => emit (LsReplyHash false)
        end
  | GetHints last_needed_n =>
      s ← get;
      let last_n := ls_last_n s in
      let curr_n := if last_needed_n =? 0 then 1 else last_needed_n in
      hints ← hints_loop hints_fuel last_n curr_n JUMP_START 0 [];
      if last_n >? 0 then
        o ← get_block last_n;
        b ← unwrap o;
        emit (LsReplyHints (hints ++ [mkHint (cb_n b) (cb_hash b)]))
      else emit (LsReplyHints hints)
  end.

Definition handle_new_block (block : CachedBlock) : LM unit :=
  s ← get;
  let last_n := ls_last_n s in
  if negb (cb_n block =? (last_n ⊕ 1)) then mret tt
  else if (last_n >? 0)
          && negb (match list.last (ls_log s) with
                   | Some b => bool_decide (cb_parent block = cb_hash b)
                   | None => false
                   end)
  then mret tt
  else modify (λ s, set_ls_log (ls_log s ++ [block]) s).

Definition handle_rollback (n : Z) : LM unit :=
  s ← get;
  let n := if n <=? ls_bci s then ls_bci s ⊕ 1 else n in
  _ ← modify (λ s, set_ls_log (retain (λ b, cb_n b <=? n) (ls_log s)) s);
  modify (λ s, set_ls_cache
    (mkReadCache (retain (λ e, e.1 <=? n) (rc_cache (ls_read_cache s))) (working_set_size (ls_read_cache s))) s).

Definition handle_gc (gc_req : Z) : LM unit :=
  modify (λ s, set_ls_log (retain (λ b, cb_n b >? gc_req) (ls_log s)) s).

Inductive LogServerEvent :=
  | LsCmd (c : LogServerCommand)
  | LsGc (n : Z)
  | LsBackfill (req : ProtoBackfillNack)
  | LsQuery (q : LogServerQuery).

(** One iteration of the select loop. *)
Definition logserver_worker (ev : LogServerEvent) : LM res :=
  match ev with
  | LsCmd (LsNewBlock b) => _ ← handle_new_block b; mret ROk
  | LsCmd (LsRollback n) => _ ← handle_rollback n; mret ROk
  | LsCmd (LsUpdateBCI n) => _ ← modify (set_ls_bci n); mret ROk
  | LsGc n => _ ← handle_gc n; mret ROk
  | LsBackfill req => try_ (respond_backfill req) (mret ROk)
  | LsQuery q => _ ← handle_query q; mret ROk
  end.

End logserver.
