(* ===== verification/LogServerProofs.v ===== *)
(** The log server refines an abstract log: a hash chain [G] numbered from 1, of which the
    first [k] blocks have been garbage-collected to storage.  Every read returns the block
    [G] has at that number, whether it is in memory, cached or on disk; every command moves
    [G] as the abstract operation does. *)

From stdpp Require Import base numbers list gmap strings option sorting.
From S2P Require Import Prelude Types Serialize Chain LogServer.

(** * ReadCache *)

Definition keys_sorted (l : list (Z * CachedBlock)) : Prop := StronglySorted Z.lt l.*1.

(** The cache is a map sorted by key, filed under block numbers, of bounded size. *)
Definition rc_ok (c : ReadCache) : Prop :=
  keys_sorted (rc_cache c) ∧ (1 ≤ working_set_size c)%nat ∧
  (length (rc_cache c) ≤ working_set_size c)%nat ∧
  ∀ k b, (k, b) ∈ rc_cache c → k = cb_n b.

Lemma bt_insert_elem k b l k' b' :
  (k', b') ∈ bt_insert k b l → (k', b') = (k, b) ∨ (k', b') ∈ l.
Proof.
  induction l as [|[k0 b0] l IH]; simpl.
  - intros ->%list_elem_of_singleton. by left.
  - destruct (Z.compare_spec k k0); rewrite !elem_of_cons; [tauto|tauto|].
    intros [?|?]; [tauto|]. destruct IH; tauto.
Qed.

Lemma bt_insert_sorted k b l : keys_sorted l → keys_sorted (bt_insert k b l).
Proof.
  unfold keys_sorted. induction l as [|[k0 b0] l IH]; simpl; intros Hs; [repeat constructor|].
  inversion_clear Hs as [|?? Hs' Hf]. destruct (Z.compare_spec k k0) as [->|Hlt|Hgt]; simpl.
  - by constructor.
  - constructor; [by constructor|]. constructor; [done|].
    eapply Forall_impl; [exact Hf|]. simpl. lia.
  - constructor; [by apply IH|]. apply Forall_forall. intros x Hx.
    apply list_elem_of_fmap in Hx as ([k' b'] & -> & Hin).
    apply bt_insert_elem in Hin as [[= -> ->]|Hin]; [done|].
    rewrite Forall_forall in Hf. apply Hf. apply list_elem_of_fmap. by exists (k', b').
Qed.

Lemma length_bt_insert k b l : (length (bt_insert k b l) ≤ S (length l))%nat.
Proof. induction l as [|[k0 b0] l IH]; simpl; [lia|]. destruct (k ?= k0); simpl; lia. Qed.

Lemma bt_get_elem n l b : bt_get n l = Some b → (n, b) ∈ l.
Proof.
  induction l as [|[k b0] l IH]; simpl; [done|].
  destruct (Z.eqb_spec k n) as [->|]; [intros [= ->]; left|right; auto].
Qed.

Lemma bt_get_none n l b : bt_get n l = None → (n, b) ∉ l.
Proof.
  induction l as [|[k b0] l IH]; simpl; [intros _; apply not_elem_of_nil|].
  destruct (Z.eqb_spec k n) as [->|]; [done|]. intros Hn [[= ? ?]|Hin]%elem_of_cons; [done|by apply IH].
Qed.

Lemma bt_next_elem n l b :
  keys_sorted l → bt_next n l = Some b →
  ∃ k, (k, b) ∈ l ∧ n ≤ k ∧ ∀ k' b', (k', b') ∈ l → n ≤ k' → k ≤ k'.
Proof.
  unfold keys_sorted. induction l as [|[k b0] l IH]; simpl; [done|]. intros Hs.
  inversion_clear Hs as [|?? Hs' Hf]. rewrite Forall_forall in Hf.
  destruct (Z.leb_spec n k).
  - intros [= ->]. exists k. split; [left|]. split; [done|].
    intros k' b' [[= -> ->]|Hin]%elem_of_cons _; [lia|].
    specialize (Hf k'). enough (k < k') by lia. apply Hf. apply list_elem_of_fmap. by exists (k', b').
  - intros Hn. destruct (IH Hs' Hn) as (k1 & Hin & Hle & Hmin). exists k1.
    split; [by right|]. split; [done|]. intros k' b' [[= -> ->]|Hin']%elem_of_cons Hle'; [lia|eauto].
Qed.

Lemma bt_next_none n l k b : bt_next n l = None → (k, b) ∈ l → k < n.
Proof.
  induction l as [|[k0 b0] l IH]; simpl; [intros _ Hin; by apply not_elem_of_nil in Hin|].
  destruct (Z.leb_spec n k0); [done|]. intros Hn [[= -> ->]|Hin]%elem_of_cons; [lia|by apply IH].
Qed.

Lemma rc_put_ok c b : rc_ok c → rc_ok (rc_put c b).
Proof.
  intros (Hs & Hw & Hl & Hk). unfold rc_put.
  destruct (rc_cache c) as [|[k0 b0] rest] eqn:Hc.
  { split; [repeat constructor|]. split; [done|]. split; [simpl; lia|].
    intros k b' [[= -> ->]|?]%bt_insert_elem; [done|by apply not_elem_of_nil in H]. }
  destruct (Nat.leb_spec (working_set_size c) (length ((k0, b0) :: rest))) as [Hfull|Hfree]; cbn [andb].
  - destruct (cb_n b <? k0).
    { unfold rc_ok. rewrite Hc. done. }
    split; [apply bt_insert_sorted; inversion_clear Hs; done|]. split; [done|]. split.
    + cbn [rc_cache working_set_size]. pose proof (length_bt_insert (cb_n b) b rest). simpl in *. lia.
    + cbn [rc_cache]. intros k b' [[= -> ->]|Hin]%bt_insert_elem; [done|]. apply Hk. by right.
  - split; [by apply bt_insert_sorted|]. split; [done|]. split.
    + cbn [rc_cache working_set_size]. pose proof (length_bt_insert (cb_n b) b ((k0, b0) :: rest)). simpl in *. lia.
    + cbn [rc_cache]. intros k b' [[= -> ->]|Hin]%bt_insert_elem; [done|]. by apply Hk.
Qed.

Lemma rc_put_elem c b k b' : (k, b') ∈ rc_cache (rc_put c b) → (k, b') = (cb_n b, b) ∨ (k, b') ∈ rc_cache c.
Proof.
  unfold rc_put. destruct (rc_cache c) as [|[k0 b0] rest] eqn:Hc; [by apply bt_insert_elem|].
  destruct (_ <=? _)%nat; cbn [andb]; [destruct (_ <? _); [rewrite Hc; auto|]|];
    intros [?|Hin]%bt_insert_elem; auto. right. by right.
Qed.

(** * The abstract log *)

(** The block a log has at a sequence number. *)
Definition at_n (G : list CachedBlock) (n : Z) : option CachedBlock :=
  if n <=? 0 then None else G !! Z.to_nat (n - 1).

Lemma at_n_lookup G i b : chain 0 None G → G !! i = Some b → at_n G (cb_n b) = Some b.
Proof.
  intros Hc Hi. rewrite (chain_lookup _ _ _ _ _ Hc Hi). unfold at_n.
  destruct (Z.leb_spec (0 + 1 + Z.of_nat i) 0); [lia|]. rewrite <-Hi. f_equal. lia.
Qed.

Lemma at_n_num G n b : chain 0 None G → at_n G n = Some b → cb_n b = n ∧ 1 ≤ n ≤ Z.of_nat (length G).
Proof.
  unfold at_n. intros Hc. destruct (Z.leb_spec n 0); [done|]. intros Hb.
  rewrite (chain_lookup _ _ _ _ _ Hc Hb). apply lookup_lt_Some in Hb. lia.
Qed.

Lemma at_n_Some G n : 1 ≤ n ≤ Z.of_nat (length G) → is_Some (at_n G n).
Proof.
  intros Hn. unfold at_n. destruct (Z.leb_spec n 0); [lia|]. apply lookup_lt_is_Some_2. lia.
Qed.

(** The parent of a block is the block before it. *)
Lemma at_n_parent G n a b :
  chain 0 None G → at_n G n = Some a → at_n G (n + 1) = Some b → cb_parent b = cb_hash a.
Proof.
  unfold at_n. intros Hc. destruct (Z.leb_spec n 0); [done|]. destruct (Z.leb_spec (n + 1) 0); [lia|].
  intros Ha Hb. apply (chain_link _ _ _ _ _ _ Hc Ha). rewrite <-Hb. f_equal. lia.
Qed.

Section refinement.
Context `{BlockStore}.

(** [G] is the abstract log; its first [k] blocks are only in storage. *)
Record ls_inv (G : list CachedBlock) (k : nat) (s : LogServer) : Prop := {
  li_chain : chain 0 None G;
  li_bound : Z.of_nat (length G) < 2 ^ 63;
  li_log : ls_log s = drop k G;
  li_k : (k < length G)%nat ∨ (k = 0%nat ∧ G = []);
  li_bci : Z.of_nat k ≤ ls_bci s < 2 ^ 63;
  li_store : ∀ n b, at_n G n = Some b → n ≤ Z.of_nat k → bs_get (cb_hash b) = Some b;
  li_rc : rc_ok (ls_read_cache s);
  li_cache : ∀ n b, (n, b) ∈ rc_cache (ls_read_cache s) → n ≤ Z.of_nat k ∧ at_n G n = Some b }.

Lemma li_front G k s :
  ls_inv G k s → G ≠ [] →
  ∃ front, ls_log s !! 0%nat = Some front ∧ cb_n front = Z.of_nat k + 1 ∧ at_n G (Z.of_nat k + 1) = Some front.
Proof.
  intros Hi Hne. destruct (li_k _ _ _ Hi) as [Hk|[_ ?]]; [|done].
  destruct (lookup_lt_is_Some_2 G k Hk) as [b Hb].
  exists b. rewrite (li_log _ _ _ Hi), lookup_drop, Nat.add_0_r. split; [done|].
  pose proof (chain_lookup _ _ _ _ _ (li_chain _ _ _ Hi) Hb). split; [lia|].
  replace (Z.of_nat k + 1) with (cb_n b) by lia. by apply (at_n_lookup G k), Hb; apply Hi.
Qed.

Lemma li_last G k s : ls_inv G k s → list.last (ls_log s) = list.last G.
Proof.
  intros Hi. rewrite (li_log _ _ _ Hi). destruct (li_k _ _ _ Hi) as [Hk|[-> ->]]; [|done].
  rewrite !last_lookup, length_drop, lookup_drop. f_equal. lia.
Qed.

Lemma li_last_n G k s : ls_inv G k s → ls_last_n s = Z.of_nat (length G).
Proof.
  intros Hi. unfold ls_last_n. rewrite (li_last G k s Hi).
  destruct (list.last G) as [b|] eqn:Hl; [|by apply last_None in Hl as ->].
  rewrite last_lookup in Hl. rewrite (chain_lookup _ _ _ _ _ (li_chain _ _ _ Hi) Hl).
  apply lookup_lt_Some in Hl. lia.
Qed.

(** Caching a block of the garbage-collected part. *)
Lemma ls_inv_put G k s b n :
  ls_inv G k s → at_n G n = Some b → n ≤ Z.of_nat k →
  ls_inv G k (set_ls_cache (rc_put (ls_read_cache s) b) s).
Proof.
  intros [I1 I2 I3 I4 I5 I6 I7 I8] Hb Hn. split; cbn; try done; [by apply rc_put_ok|].
  intros n' b' [[= -> ->]|Hin]%rc_put_elem; [|by apply I8].
  destruct (at_n_num G n b I1 Hb) as [-> _]. done.
Qed.

(** Reads leave everything but the cache alone. *)
Definition read_frame (G : list CachedBlock) (k : nat) (s s' : LogServer) : Prop :=
  ls_inv G k s' ∧ ls_log s' = ls_log s ∧ ls_bci s' = ls_bci s.

Lemma read_frame_trans G k s1 s2 s3 : read_frame G k s1 s2 → read_frame G k s2 s3 → read_frame G k s1 s3.
Proof. intros (I1 & L1 & B1) (I2 & L2 & B2). split; [done|]. split; congruence. Qed.

(** The walk down from a block whose predecessors are in storage reaches [n]. *)
Lemma wp_fetch_down G k s fuel n m ret :
  ls_inv G k s → 1 ≤ n ≤ m → m ≤ Z.of_nat k + 1 → at_n G m = Some ret → (Z.to_nat (m - n) < fuel)%nat →
  wp (fetch_down fuel n ret) (λ b s' es, es = [] ∧ read_frame G k s s' ∧ at_n G n = Some b) s.
Proof.
  revert s m ret. induction fuel as [|fuel IH]; intros s m ret Hi Hn Hm Hret Hf; [lia|].
  cbn [fetch_down]. destruct (at_n_num G m ret (li_chain _ _ _ Hi) Hret) as [-> Hlen].
  destruct (Z.gtb_spec m n).
  - destruct (at_n_Some G (m - 1)) as [b Hb]; [lia|].
    assert (cb_parent ret = cb_hash b) as Hpar.
    { apply (at_n_parent G (m - 1)); [apply Hi|done|]. by replace (m - 1 + 1) with m by lia. }
    wp_prims. rewrite Hpar. eapply wp_unwrap; [apply (li_store _ _ _ Hi (m - 1)); [done|lia]|].
    wp_prims. cbn [app]. set (s1 := set_ls_cache _ s).
    assert (ls_inv G k s1) as Hi1 by (apply (ls_inv_put G k s b (m - 1)); [done|done|lia]).
    eapply wp_mono; [|apply (IH s1 (m - 1) b Hi1); [lia|lia|done|lia]].
    intros b' s2 es (-> & Hf2 & Hb'). split; [done|]. split; [|done].
    eapply read_frame_trans; [|exact Hf2]. done.
  - wp_prims. split; [done|]. split; [done|]. by replace n with m by lia.
Qed.

(** Reading a garbage-collected block, from the cache or by walking down the chain. *)
Lemma wp_get_gced_block G k s n :
  ls_inv G k s → 1 ≤ n ≤ Z.of_nat k →
  wp (get_gced_block n) (λ o s' es, es = [] ∧ read_frame G k s s' ∧ o = at_n G n) s.
Proof.
  intros Hi Hn. unfold get_gced_block. wp_prims.
  assert (G ≠ []) as Hne by (destruct (li_k _ _ _ Hi) as [Hk|[-> _]]; [intros ->; simpl in Hk; lia|lia]).
  destruct (li_front G k s Hi Hne) as (front & Hf & Hfn & Hfat).
  destruct (ls_log s) as [|f rest] eqn:Hlog; [done|]. simpl in Hf. simplify_eq.
  destruct (Z.leb_spec (cb_n front) n); [lia|]. unfold rc_get.
  assert (∀ start m, at_n G m = Some start → n ≤ m ≤ Z.of_nat k + 1 →
    wp (mbind (λ b, mret (Some b)) (fetch_down (gced_fuel n start) n start))
      (λ o s' es, es = [] ∧ read_frame G k s s' ∧ o = at_n G n) s) as Hwalk.
  { intros start m Hs Hm. destruct (at_n_num G m start (li_chain _ _ _ Hi) Hs) as [Hsn _].
    apply wp_bind. eapply wp_mono; [|apply (wp_fetch_down G k s _ n m start Hi); [lia|lia|done|unfold gced_fuel; lia]].
    intros b s1 es (-> & Hf1 & Hb). wp_prims. split; [done|]. done. }
  destruct (rc_cache (ls_read_cache s)) as [|e l] eqn:Hc.
  { apply (Hwalk front (Z.of_nat k + 1)); [done|lia]. }
  rewrite <-Hc. destruct (bt_get n (rc_cache (ls_read_cache s))) as [b|] eqn:Hg.
  { wp_prims. split; [done|]. split; [done|]. symmetry. by apply (li_cache _ _ _ Hi), bt_get_elem. }
  destruct (bt_next n (rc_cache (ls_read_cache s))) as [b|] eqn:Hnx; cbn [default from_option id].
  - destruct (bt_next_elem n _ b (proj1 (li_rc _ _ _ Hi)) Hnx) as (m & Hin & Hle & _).
    destruct (li_cache _ _ _ Hi m b Hin) as [Hmk Hat]. apply (Hwalk b m); [done|lia].
  - apply (Hwalk front (Z.of_nat k + 1)); [done|lia].
Qed.

(** The in-memory suffix is found by binary search. *)
Lemma search_log G k s n :
  ls_inv G k s → Z.of_nat k < n ≤ Z.of_nat (length G) →
  (binary_search_by (λ e, cb_n e) n (ls_log s) ≫= λ i, ls_log s !! i) = at_n G n.
Proof.
  intros Hi Hn. destruct (at_n_Some G n) as [b Hb]; [lia|]. rewrite Hb.
  assert (∃ p, chain (Z.of_nat k) p (ls_log s)) as [p Hch].
  { rewrite (li_log _ _ _ Hi). pose proof (li_chain _ _ _ Hi) as Hc.
    rewrite <-(take_drop k G) in Hc. apply chain_app in Hc as [_ Hc]. unfold tip_n in Hc.
    rewrite length_take in Hc. replace (0 + Z.of_nat (k `min` length G)) with (Z.of_nat k) in Hc by lia. eauto. }
  assert (ls_log s !! Z.to_nat (n - 1 - Z.of_nat k) = Some b) as Hl.
  { rewrite (li_log _ _ _ Hi), lookup_drop. unfold at_n in Hb.
    destruct (Z.leb_spec n 0); [lia|]. rewrite <-Hb. f_equal. lia. }
  rewrite (proj2 (binary_search_by_Some (λ e, cb_n e) n (ls_log s) (Z.to_nat (n - 1 - Z.of_nat k))
    (chain_increasing _ _ _ Hch))); [done|].
  exists b. split; [done|]. by apply (at_n_num G n b (li_chain _ _ _ Hi)).
Qed.

(** Every read returns what the abstract log has. *)
Lemma wp_get_block G k s n :
  ls_inv G k s → 0 ≤ n →
  wp (get_block n) (λ o s' es, es = [] ∧ read_frame G k s s' ∧ o = at_n G n) s.
Proof.
  intros Hi Hn. unfold get_block. wp_prims.
  assert (read_frame G k s s) as Hrefl by done.
  destruct (decide (G = [])) as [->|Hne].
  { rewrite (li_log _ _ _ Hi), drop_nil. wp_prims. split; [done|]. split; [done|].
    unfold at_n. by destruct (n <=? 0). }
  destruct (li_front G k s Hi Hne) as (front & Hf & Hfn & Hfat).
  pose proof (li_last_n G k s Hi) as Hlast. unfold ls_last_n in Hlast.
  pose proof (λ Hr, search_log G k s n Hi Hr) as Hsearch.
  destruct (ls_log s) as [|f rest] eqn:Hlog; [done|]. simpl in Hf. simplify_eq.
  destruct (list.last (front :: rest)) as [back|] eqn:Hback; [|by apply last_None in Hback].
  rewrite Hlast. destruct (Z.eqb_spec n 0) as [->|]; cbn [orb]; [wp_prims; done|].
  destruct (Z.gtb_spec n (Z.of_nat (length G))).
  { wp_prims. split; [done|]. split; [done|]. unfold at_n. destruct (n <=? 0); [done|].
    symmetry. apply lookup_ge_None. lia. }
  destruct (Z.ltb_spec n (cb_n front)).
  - apply (wp_get_gced_block G k); [done|lia].
  - wp_prims. split; [done|]. split; [done|]. apply Hsearch. lia.
Qed.


(** * Commands *)

(** The abstract operations. *)
Definition abs_append (G : list CachedBlock) (b : CachedBlock) : list CachedBlock :=
  if (cb_n b =? Z.of_nat (length G) + 1)
     && match list.last G with Some x => bool_decide (cb_parent b = cb_hash x) | None => true end
  then G ++ [b] else G.

Definition rollback_to (bci n : Z) : Z := if n <=? bci then bci + 1 else n.

Lemma at_n_app_l G b n x : at_n G n = Some x → at_n (G ++ [b]) n = Some x.
Proof.
  unfold at_n. destruct (n <=? 0); [done|]. intros Hx. by apply lookup_app_l_Some.
Qed.

Lemma at_n_app_inv G b n x : n ≤ Z.of_nat (length G) → at_n (G ++ [b]) n = Some x → at_n G n = Some x.
Proof.
  unfold at_n. intros Hn. destruct (Z.leb_spec n 0); [done|]. by rewrite lookup_app_l by lia.
Qed.

Lemma at_n_take G j n : n ≤ Z.of_nat j → at_n (take j G) n = at_n G n.
Proof.
  intros Hn. unfold at_n. destruct (Z.leb_spec n 0); [done|]. apply lookup_take_lt. lia.
Qed.

Lemma wp_handle_new_block G k s b :
  ls_inv G k s → Z.of_nat (length G) + 1 < 2 ^ 63 →
  wp (handle_new_block b) (λ _ s' es, es = [] ∧ ls_inv (abs_append G b) k s' ∧ ls_bci s' = ls_bci s) s.
Proof.
  intros Hi Hlen. unfold handle_new_block, abs_append. wp_prims.
  rewrite (li_last_n G k s Hi), (li_last G k s Hi), u64_add_small by lia.
  destruct (Z.eqb_spec (cb_n b) (Z.of_nat (length G) + 1)) as [Hn|]; cbn [negb andb]; [|by wp_prims].
  destruct Hi as [I1 I2 I3 I4 I5 I6 I7 I8].
  assert ((∀ h, tip_hash None G = Some h → cb_parent b = h) →
          ls_inv (G ++ [b]) k (set_ls_log (ls_log s ++ [b]) s)) as Hpush.
  { intros Hpar. assert (k ≤ length G)%nat as Hk by lia. split; cbn; try done.
    - apply chain_snoc. split; [done|]. split; [unfold tip_n; lia|done].
    - rewrite length_app. simpl. lia.
    - rewrite I3. by rewrite drop_app_le by lia.
    - left. rewrite length_app. simpl. lia.
    - intros n x Hx Hnk. apply (I6 n); [|done]. eapply at_n_app_inv; [|exact Hx]. lia.
    - intros n x [Hnk Hx]%I8. split; [done|by apply at_n_app_l]. }
  unfold tip_hash in Hpush. destruct (list.last G) as [x|] eqn:Hl.
  - assert (0 < length G)%nat by (destruct G; [done|simpl; lia]).
    destruct (Z.gtb_spec (Z.of_nat (length G)) 0); [|lia]. cbn [andb].
    destruct (bool_decide_reflect (cb_parent b = cb_hash x)); cbn [negb]; wp_prims; [|by split].
    split; [done|]. split; [|done]. apply Hpush. by intros h [= <-].
  - apply last_None in Hl as ->. simpl. wp_prims. split; [done|]. split; [|done]. by apply Hpush.
Qed.

Lemma wp_handle_rollback G k s n :
  ls_inv G k s → 0 ≤ n →
  wp (handle_rollback n)
    (λ _ s' es, es = [] ∧ ls_inv (take (Z.to_nat (rollback_to (ls_bci s) n)) G) k s' ∧ ls_bci s' = ls_bci s) s.
Proof.
  intros Hi Hn. unfold handle_rollback. wp_prims. cbn.
  assert ((if n <=? ls_bci s then ls_bci s ⊕ 1 else n) = rollback_to (ls_bci s) n) as ->.
  { unfold rollback_to. destruct (n <=? ls_bci s); [|done]. apply u64_add_small. destruct (li_bci _ _ _ Hi). lia. }
  set (j := rollback_to (ls_bci s) n).
  assert (Z.of_nat k < j) as Hj.
  { subst j. unfold rollback_to. destruct (li_bci _ _ _ Hi). destruct (Z.leb_spec n (ls_bci s)); lia. }
  destruct Hi as [I1 I2 I3 I4 I5 I6 [R1 [R2 [R3 R4]]] I8].
  split; [done|]. split; [|done]. split; cbn; try done.
  - by apply chain_take.
  - rewrite length_take. lia.
  - rewrite I3. destruct (decide (k ≤ length G)%nat) as [Hk|]; [|lia].
    rewrite <-(take_drop k G) in I1. apply chain_app in I1 as [_ Hc].
    unfold tip_n in Hc. rewrite length_take in Hc.
    replace (0 + Z.of_nat (k `min` length G)) with (Z.of_nat k) in Hc by lia.
    rewrite <-(map_id (drop k G)) in Hc. etransitivity; [exact (chain_retain_le id _ _ _ j Hc)|].
    rewrite firstn_skipn_comm. f_equal. f_equal. lia.
  - rewrite length_take. destruct I4 as [?|[-> ->]]; [left; lia|right]. by rewrite take_nil.
  - intros m x Hx Hmk. rewrite at_n_take in Hx by lia. by apply (I6 m).
  - split; [|split; [done|split]].
    + clear -R1. unfold keys_sorted in *. induction (rc_cache (ls_read_cache s)) as [|[k' b'] l IH]; [done|].
      simpl in *. inversion_clear R1 as [|?? S F]. destruct (k' <=? j); [|by apply IH]. simpl.
      constructor; [by apply IH|]. rewrite Forall_forall in *. intros x Hx. apply F.
      apply list_elem_of_fmap in Hx as (e & -> & He). apply list_elem_of_fmap. exists e. split; [done|].
      by apply (elem_of_retain (λ e, e.1 <=? j)) in He as [_ He].
    + cbn. etransitivity; [|exact R3]. apply filter_length_le.
    + intros k' b' [_ Hin]%elem_of_retain. by apply R4.
  - intros m x [_ [Hmk Hx]%I8]%elem_of_retain. split; [done|]. by rewrite at_n_take by lia.
Qed.

(** Garbage collection moves the boundary; what it drops must be on disk. *)
Lemma wp_handle_gc G k s g :
  ls_inv G k s → 0 ≤ g ≤ ls_bci s → g < Z.of_nat (length G) →
  (∀ n b, at_n G n = Some b → n ≤ g → bs_get (cb_hash b) = Some b) →
  wp (handle_gc g) (λ _ s' es, es = [] ∧ ls_inv G (k `max` Z.to_nat g) s' ∧ ls_bci s' = ls_bci s) s.
Proof.
  intros [I1 I2 I3 I4 I5 I6 I7 I8] Hg Hlt Hst. unfold handle_gc. wp_prims.
  assert (k < length G)%nat as Hk by (destruct I4 as [?|[_ ->]]; [done|simpl in Hlt; lia]).
  split; [done|]. split; [|done]. split; cbn; try done.
  - rewrite I3. pose proof I1 as Hc. rewrite <-(take_drop k G) in Hc. apply chain_app in Hc as [_ Hc].
    unfold tip_n in Hc. rewrite length_take in Hc.
    replace (0 + Z.of_nat (k `min` length G)) with (Z.of_nat k) in Hc by lia.
    rewrite <-(map_id (drop k G)) in Hc. etransitivity; [exact (chain_retain_gt id _ _ _ g Hc)|].
    rewrite drop_drop. f_equal. lia.
  - left. lia.
  - lia.
  - intros n b Hb Hn. destruct (decide (n ≤ g)); [by apply (Hst n)|apply (I6 n); [done|lia]].
  - intros n b [Hn Hb]%I8. split; [lia|done].
Qed.


(** * Backfill *)

(** What the backfill loop collects: the blocks above the first one the hints confirm. *)
Lemma wp_fill_loop G k s cnt i hints acc :
  ls_inv G k s → 0 ≤ i ≤ Z.of_nat (length G) →
  wp (fill_loop cnt i hints acc)
    (λ l s' es, es = [] ∧ read_frame G k s s' ∧ ∃ j, (j ≤ Z.to_nat i)%nat ∧ (Z.to_nat i ≤ j + cnt)%nat ∧
       l = drop j (take (Z.to_nat i) G) ++ acc ∧
       ((Z.to_nat i < j + cnt)%nat → j = 0%nat ∨
          ∃ b, at_n G (Z.of_nat j) = Some b ∧ hints !! Z.of_nat j = Some (cb_hash b))) s.
Proof.
  revert s i acc. induction cnt as [|cnt IH]; intros s i acc Hi Hr; cbn [fill_loop].
  { wp_prims. split; [done|]. split; [done|]. exists (Z.to_nat i). split; [lia|]. split; [lia|].
    split; [|lia]. by rewrite drop_ge by (rewrite length_take; lia). }
  wp_prims. eapply wp_mono; [|apply (wp_get_block G k s i Hi); lia].
  intros o s1 es (-> & Hf1 & ->). destruct Hf1 as (Hi1 & Hl1 & Hb1).
  assert (drop (Z.to_nat i) (take (Z.to_nat i) G) = []) as Hnil
    by (apply drop_ge; rewrite length_take; lia).
  destruct (at_n G i) as [b|] eqn:Hat.
  2:{ wp_prims. split; [done|]. split; [done|]. exists (Z.to_nat i). split; [lia|]. split; [lia|].
      split; [by rewrite Hnil|]. intros _. left. destruct (decide (i = 0)) as [->|]; [done|].
      destruct (at_n_Some G i) as [x Hx]; [lia|congruence]. }
  assert (wp (fill_loop cnt (i - 1) hints (b :: acc))
    (λ l s' es, [] ++ es = [] ∧ read_frame G k s s' ∧ ∃ j, (j ≤ Z.to_nat i)%nat ∧ (Z.to_nat i ≤ j + S cnt)%nat ∧
       l = drop j (take (Z.to_nat i) G) ++ acc ∧
       ((Z.to_nat i < j + S cnt)%nat → j = 0%nat ∨
          ∃ b, at_n G (Z.of_nat j) = Some b ∧ hints !! Z.of_nat j = Some (cb_hash b))) s1) as Hrec.
  { destruct (at_n_num G i b (li_chain _ _ _ Hi) Hat) as [_ Hi0].
    eapply wp_mono; [|apply (IH s1 (i - 1) (b :: acc) Hi1); lia].
    intros l s2 es2 (-> & Hf2 & j & Hj1 & Hj2 & -> & Hj3). split; [done|].
    split; [eapply read_frame_trans; [|exact Hf2]; done|].
    exists j. split; [lia|]. split; [lia|]. split; [|intros; apply Hj3; lia].
    unfold at_n in Hat. destruct (Z.leb_spec i 0); [lia|].
    replace (Z.to_nat i) with (S (Z.to_nat (i - 1))) by lia.
    rewrite (take_S_r _ _ _ Hat), drop_app_le by (rewrite length_take; lia). by rewrite <-app_assoc. }
  destruct (hints !! i) as [h|] eqn:Hh; [|exact Hrec].
  destruct (bool_decide_reflect (h = cb_hash b)) as [->|]; [|exact Hrec].
  wp_prims. split; [done|]. split; [done|]. exists (Z.to_nat i). split; [lia|]. split; [lia|].
  split; [by rewrite Hnil|]. intros _. right. exists b. rewrite Z2Nat.id by lia. done.
Qed.

(** * Hints *)

(** A hint names a block of the log. *)
Definition hint_ok (G : list CachedBlock) (h : ProtoBlockHint) : Prop :=
  ∃ b, at_n G (hint_block_n h) = Some b ∧ hint_digest h = cb_hash b.

(** After [p] powers of ten and [used] jumps the cursor has passed 1111 (10^p - 1) +
    1000 used 10^p, so 171 iterations reach the end of any log. *)
Lemma wp_hints_loop G k s fuel (p : nat) curr used hints :
  let P := 10 ^ Z.of_nat p in
  ls_inv G k s → (p ≤ 16)%nat → 0 ≤ used < 10 → 1 ≤ curr →
  1111 * (P - 1) + used * 1000 * P ≤ curr →
  171 ≤ Z.of_nat fuel + 10 * Z.of_nat p + used →
  Forall (hint_ok G) hints →
  wp (hints_loop fuel (Z.of_nat (length G)) curr (1000 * P) used hints)
    (λ hs s' es, es = [] ∧ read_frame G k s s' ∧ Forall (hint_ok G) hs) s.
Proof.
  revert s p curr used hints. induction fuel as [|fuel IH]; intros s p curr used hints P Hi Hp Hu Hc Hlow Hf Hh.
  { lia. }
  cbn [hints_loop]. destruct (Z.ltb_spec curr (Z.of_nat (length G))) as [Hlt|].
  2:{ wp_prims. done. }
  pose proof (li_bound _ _ _ Hi) as Hbd.
  assert (1 ≤ P ∧ P ≤ 10 ^ 15 ∧ (p ≤ 15)%nat) as (HP1 & HP15 & Hp15).
  { assert (p ≤ 15)%nat as Hp15.
    { destruct (decide (p = 16%nat)) as [->|]; [|lia]. exfalso. subst P.
      change (10 ^ Z.of_nat 16) with 10000000000000000 in Hlow.
      change (2 ^ 63) with 9223372036854775808 in Hbd. nia. }
    subst P. split; [|split; [|done]].
    - pose proof (Z.pow_pos_nonneg 10 (Z.of_nat p)). lia.
    - apply Z.pow_le_mono_r; lia. }
  change (10 ^ 15) with 1000000000000000 in HP15. change (2 ^ 63) with 9223372036854775808 in Hbd.
  assert ((curr ⊕ 1000 * P) = curr + 1000 * P) as -> by (apply u64_add_small; lia).
  assert (u64_mul (1000 * P) JUMP_MULTIPLIER = 1000 * 10 ^ Z.of_nat (S p)) as ->.
  { unfold u64_mul, JUMP_MULTIPLIER. rewrite wrap64_small by (unfold u64_range; lia).
    rewrite Nat2Z.inj_succ, Z.pow_succ_r by lia. fold P. lia. }
  wp_prims. eapply wp_mono; [|apply (wp_get_block G k s curr Hi); lia].
  intros o s1 es (-> & Hf1 & ->). destruct (at_n_Some G curr) as [b Hb]; [lia|]. rewrite Hb.
  assert (Forall (hint_ok G) (hints ++ [mkHint (cb_n b) (cb_hash b)])) as Hh'.
  { apply Forall_app. split; [done|]. constructor; [|constructor]. exists b. cbn.
    by destruct (at_n_num G curr b (li_chain _ _ _ Hi) Hb) as [-> _]. }
  pose proof Hf1 as (Hi1 & _). unfold JUMP_MULTIPLIER.
  destruct (Z.leb_spec 10 (used + 1)).
  - eapply wp_mono; [|apply (IH s1 (S p) (curr + 1000 * P) 0 _ Hi1); try done; try lia].
    + intros hs s2 es2 (-> & Hf2 & Hhs). split; [done|]. split; [by eapply read_frame_trans|done].
    + rewrite Nat2Z.inj_succ, Z.pow_succ_r by lia. fold P. nia.
  - eapply wp_mono; [|apply (IH s1 p (curr + 1000 * P) (used + 1) _ Hi1); try done; try lia].
    + intros hs s2 es2 (-> & Hf2 & Hhs). split; [done|]. split; [by eapply read_frame_trans|done].
Qed.


(** * The whole task *)

Lemma wp_fill_fork G k s first_n last_n hints :
  ls_inv G k s → 0 ≤ first_n ≤ last_n →
  wp (fill_fork first_n last_n hints)
    (λ f s' es, es = [] ∧ read_frame G k s s' ∧ ∃ l, f = mkFork (map half_serialize l) ∧
       (last_n ≤ Z.of_nat (length G) → ∃ j, (j ≤ Z.to_nat last_n)%nat ∧ (Z.to_nat first_n ≤ S j)%nat ∧
          l = drop j (take (Z.to_nat last_n) G) ∧
          ((Z.to_nat first_n < S j)%nat → j = 0%nat ∨
             ∃ b, at_n G (Z.of_nat j) = Some b ∧ hint_map hints !! Z.of_nat j = Some (cb_hash b)))) s.
Proof.
  intros Hi Hr. unfold fill_fork. destruct (Z.ltb_spec last_n first_n); [lia|]. wp_prims.
  destruct (Z.le_gt_cases last_n (Z.of_nat (length G))) as [Hle|Hgt].
  - eapply wp_mono; [|apply (wp_fill_loop G k s _ last_n (hint_map hints) [] Hi); lia].
    intros l s1 es (-> & Hf & j & Hj1 & Hj2 & -> & Hj3). wp_prims. split; [done|]. split; [done|].
    rewrite app_nil_r. eexists. split; [done|]. intros _. exists j. split; [done|]. split; [lia|].
    split; [done|]. intros; apply Hj3; lia.
  - replace (Z.to_nat (last_n - first_n + 1)) with (S (Z.to_nat (last_n - first_n))) by lia.
    cbn [fill_loop]. wp_prims. eapply wp_mono; [|apply (wp_get_block G k s last_n Hi); lia].
    intros o s1 es (-> & Hf & ->).
    assert (at_n G last_n = None) as ->.
    { unfold at_n. destruct (last_n <=? 0); [done|]. apply lookup_ge_None. lia. }
    wp_prims. split; [done|]. split; [done|]. exists []. split; [done|]. lia.
Qed.

Lemma wp_get_hints G k s n :
  ls_inv G k s → 0 ≤ n →
  wp (handle_query (GetHints n))
    (λ _ s' es, read_frame G k s s' ∧ ∃ hs, es = [LsReplyHints hs] ∧ Forall (hint_ok G) hs ∧
       (G ≠ [] → ∃ h, list.last hs = Some h ∧ hint_block_n h = Z.of_nat (length G))) s.
Proof.
  intros Hi Hn. cbn [handle_query]. wp_prims. rewrite (li_last_n G k s Hi).
  eapply wp_mono; [|apply (wp_hints_loop G k s hints_fuel 0 (if n =? 0 then 1 else n) 0 []); try done; try lia].
  2:{ destruct (Z.eqb_spec n 0); lia. }
  2:{ destruct (Z.eqb_spec n 0); simpl; lia. }
  intros hs s1 es (-> & Hf1 & Hhs). pose proof Hf1 as (Hi1 & _).
  destruct (Z.gtb_spec (Z.of_nat (length G)) 0) as [Hpos|].
  - wp_prims. eapply wp_mono; [|apply (wp_get_block G k s1 (Z.of_nat (length G)) Hi1); lia].
    intros o s2 es2 (-> & Hf2 & ->). destruct (at_n_Some G (Z.of_nat (length G))) as [b Hb]; [lia|].
    wp_prims. rewrite Hb. eapply wp_unwrap; [done|]. wp_prims. cbn [app].
    destruct (at_n_num G _ b (li_chain _ _ _ Hi) Hb) as [Hbn _].
    split; [by eapply read_frame_trans|]. eexists. split; [done|]. split.
    + apply Forall_app. split; [done|]. constructor; [|constructor]. exists b. cbn. by rewrite Hbn.
    + intros _. rewrite last_snoc. eexists. split; [done|]. cbn. done.
  - wp_prims. cbn [app]. split; [done|]. exists hs. split; [done|]. split; [done|].
    intros Hne. destruct G; [done|]. simpl in *. lia.
Qed.

Lemma wp_check_hash G k s n h :
  ls_inv G k s → 0 ≤ n →
  wp (handle_query (CheckHash n h))
    (λ _ s' es, read_frame G k s s' ∧ ∃ b, es = [LsReplyHash b] ∧
       (b = true ↔ n = 0 ∨ ∃ x, at_n G n = Some x ∧ cb_hash x = h)) s.
Proof.
  intros Hi Hn. cbn [handle_query]. destruct (Z.eqb_spec n 0) as [->|].
  { wp_prims. split; [done|]. exists true. split; [done|]. split; [by left|done]. }
  wp_prims. eapply wp_mono; [|apply (wp_get_block G k s n Hi Hn)].
  intros o s1 es (-> & Hf & ->). destruct (at_n G n) as [b|] eqn:Hb; wp_prims; cbn [app];
    (split; [done|]); eexists; (split; [done|]).
  - rewrite bool_decide_eq_true. split; [intros <-; right; eauto|]. intros [?|(x & [= <-] & ?)]; done.
  - split; [done|]. intros [?|(x & ? & _)]; done.
Qed.

(** The abstract effect of an event, and what the channels may deliver. *)
Definition abs_log (bci : Z) (G : list CachedBlock) (ev : LogServerEvent) : list CachedBlock :=
  match ev with
  | LsCmd (LsNewBlock b) => abs_append G b
  | LsCmd (LsRollback n) => take (Z.to_nat (rollback_to bci n)) G
  | _ => G
  end.

Definition backfill_last_n (G : list CachedBlock) (f : ProtoFork) : Z :=
  match list.last (serialized_blocks f) with Some b => hs_n b | None => Z.of_nat (length G) end.

Definition ls_event_ok (G : list CachedBlock) (s : LogServer) (ev : LogServerEvent) : Prop :=
  match ev with
  | LsCmd (LsNewBlock _) => Z.of_nat (length G) + 1 < 2 ^ 63
  | LsCmd (LsRollback n) => 0 ≤ n
  | LsCmd (LsUpdateBCI n) => ls_bci s ≤ n < 2 ^ 63
  | LsGc g => 0 ≤ g ≤ ls_bci s ∧ g < Z.of_nat (length G) ∧
              ∀ n b, at_n G n = Some b → n ≤ g → bs_get (cb_hash b) = Some b
  | LsBackfill req =>
      ∀ f, origin_fork (nack_origin req) = Some f → 0 ≤ nack_last_index_needed req ≤ backfill_last_n G f
  | LsQuery (CheckHash n _) => 0 ≤ n
  | LsQuery (GetHints n) => 0 ≤ n
  end.

Lemma wp_logserver_worker G k s ev :
  ls_inv G k s → ls_event_ok G s ev →
  wp (logserver_worker ev) (λ r s' es, r = ROk ∧ ∃ k', (k ≤ k')%nat ∧ ls_inv (abs_log (ls_bci s) G ev) k' s') s.
Proof.
  intros Hi Hev. destruct ev as [[b|n|n]|g|req|[n h|n]]; cbn [logserver_worker abs_log ls_event_ok] in *.
  - wp_prims. eapply wp_mono; [|by apply (wp_handle_new_block G k s b)].
    intros [] s1 es (-> & Hi1 & _). wp_prims. split; [done|]. by exists k.
  - wp_prims. eapply wp_mono; [|by apply (wp_handle_rollback G k s n)].
    intros [] s1 es (-> & Hi1 & _). wp_prims. split; [done|]. by exists k.
  - wp_prims. split; [done|]. exists k. split; [done|]. destruct Hi as [I1 I2 I3 I4 I5 I6 I7 I8].
    split; try done. cbn in *. lia.
  - destruct Hev as (Hg & Hlt & Hst). wp_prims. eapply wp_mono; [|by apply (wp_handle_gc G k s g)].
    intros [] s1 es (-> & Hi1 & _). wp_prims. split; [done|]. eexists. split; [|exact Hi1]. lia.
  - unfold respond_backfill. destruct (nack_origin req) as [o|] eqn:Ho; [|wp_prims; split; [done|by exists k]].
    destruct (origin_fork (Some o)) as [f|] eqn:Hof; [|wp_prims; split; [done|by exists k]].
    specialize (Hev f eq_refl). unfold backfill_last_n in Hev. wp_prims. rewrite (li_last_n G k s Hi).
    eapply wp_mono; [|by apply (wp_fill_fork G k s)].
    intros f' s1 es (-> & (Hi1 & _) & _). wp_prims. split; [done|]. by exists k.
  - wp_prims. eapply wp_mono; [|by apply (wp_check_hash G k s n h)].
    intros [] s1 es ((Hi1 & _) & _). wp_prims. split; [done|]. by exists k.
  - wp_prims. eapply wp_mono; [|by apply (wp_get_hints G k s n)].
    intros [] s1 es ((Hi1 & _) & _). wp_prims. split; [done|]. by exists k.
Qed.

End refinement.

(** * Properties *)


(** A log of three blocks of which the first is only on disk. *)
Definition mini_block (n : Z) (parent h : HashType) : CachedBlock :=
  mkCached (mkBlock [] n parent 1 [] [] true 1 None) [] h.
Definition mini_1 : CachedBlock := mini_block 1 [] [Byte.x01].
Definition mini_2 : CachedBlock := mini_block 2 [Byte.x01] [Byte.x02].
Definition mini_3 : CachedBlock := mini_block 3 [Byte.x02] [Byte.x03].
Definition mini_log : list CachedBlock := [mini_1; mini_2; mini_3].
Definition mini_store : BlockStore :=
  {| bs_get := λ h, if bool_decide (h = [Byte.x01]) then Some mini_1 else None |}.
Definition mini_server : LogServer := mkLogServer 1 [mini_2; mini_3] (mkReadCache [] 100).

Lemma mini_inv : @ls_inv mini_store mini_log 1 mini_server.
Proof.
  split; cbn; try done.
  - split_and!; try done; by intros h [= <-].
  - left. lia.
  - intros n b Hb Hn. unfold at_n in Hb. destruct (Z.leb_spec n 0); [done|].
    replace n with 1 in Hb by lia. by injection Hb as <-.
  - split; [constructor|]. split; [cbn; lia|]. split; [cbn; lia|]. intros k b Hin. by apply not_elem_of_nil in Hin.
  - intros n b Hin. by apply not_elem_of_nil in Hin.
Qed.


(** A read returns the block the log has at that number, wherever it lives: in memory,
    in the read cache, or on disk reached by following parent hashes; the walk terminates
    within its fuel and a hash check answers accordingly. *)
Lemma get_block_correct `{BlockStore} (G : list CachedBlock) (k : nat) (s : LogServer) (n : Z) (h : HashType) :
  ls_inv G k s → 0 ≤ n →
  (∃ s', get_block n s = Some (at_n G n, s', []) ∧ ls_inv G k s') ∧
  (∃ s' b, handle_query (CheckHash n h) s = Some (tt, s', [LsReplyHash b]) ∧
           (b = true ↔ n = 0 ∨ ∃ x, at_n G n = Some x ∧ cb_hash x = h)).
Proof.
  intros Hi Hn. split.
  - destruct (wp_run _ _ _ (wp_get_block G k s n Hi Hn)) as (o & s' & es & Hr & -> & (Hi' & _) & ->). eauto.
  - destruct (wp_run _ _ _ (wp_check_hash G k s n h Hi Hn)) as ([] & s' & es & Hr & _ & b & -> & Hb). eauto.
Qed.

Lemma get_block_correct_witness :
  let H := mini_store in
  (∃ s', get_block 1 mini_server = Some (Some mini_1, s', []) ∧ ls_inv mini_log 1 s').
Proof.
  intros H. exact (proj1 (@get_block_correct H mini_log 1 mini_server 1 [] mini_inv ltac:(lia))).
Defined.

(** A backfill answer is a contiguous piece of the log ending at the requested block;
    it starts at the requested index unless the chain ends there or a hint of the requester
    names the very block just below it. *)
Lemma backfill_contiguous `{BlockStore} (G : list CachedBlock) (k : nat) (s : LogServer)
    (first_n last_n : Z) (hints : list ProtoBlockHint) :
  ls_inv G k s → 0 ≤ first_n ≤ last_n → last_n ≤ Z.of_nat (length G) →
  ∃ s' l j, fill_fork first_n last_n hints s = Some (mkFork (map half_serialize l), s', []) ∧
    (∃ k' p, chain k' p l) ∧ l = drop j (take (Z.to_nat last_n) G) ∧ (Z.to_nat first_n ≤ S j)%nat ∧
    ((Z.to_nat first_n < S j)%nat → j = 0%nat ∨
       ∃ b, at_n G (Z.of_nat j) = Some b ∧ hint_map hints !! Z.of_nat j = Some (cb_hash b)).
Proof.
  intros Hi Hr Hle.
  destruct (wp_run _ _ _ (wp_fill_fork G k s first_n last_n hints Hi Hr))
    as (f & s' & es & Hrun & -> & _ & l & -> & Hl).
  destruct (Hl Hle) as (j & _ & Hj & -> & Hh). exists s', (drop j (take (Z.to_nat last_n) G)), j.
  split; [done|]. split; [|done]. eapply chain_drop, chain_take, Hi.
Qed.

Lemma backfill_contiguous_witness :
  let H := mini_store in let hints := [mkHint 1 [Byte.x01]] in
  ∃ s' l j, fill_fork 0 3 hints mini_server = Some (mkFork (map half_serialize l), s', []) ∧
    (∃ k' p, chain k' p l) ∧ l = drop j (take (Z.to_nat 3) mini_log) ∧ (Z.to_nat 0 ≤ S j)%nat ∧
    ((Z.to_nat 0 < S j)%nat → j = 0%nat ∨
       ∃ b, at_n mini_log (Z.of_nat j) = Some b ∧ hint_map hints !! Z.of_nat j = Some (cb_hash b)).
Proof.
  intros H hints. apply (@backfill_contiguous H mini_log 1 mini_server 0 3 hints mini_inv); [lia|cbn; lia].
Defined.

(** Rolling back to or below the commit index keeps the uncommitted block right above it:
    the replacement for that block, which the rollback was sent to make room for, is then
    refused and the stale block stays in the log. *)
Lemma rollback_keeps_stale_block `{BlockStore} (G : list CachedBlock) (k : nat) (s : LogServer) (n : Z)
    (b : CachedBlock) :
  ls_inv G k s → 0 ≤ n ≤ ls_bci s → ls_bci s < Z.of_nat (length G) < 2 ^ 63 - 1 → cb_n b = ls_bci s + 1 →
  ∃ s1 s2, handle_rollback n s = Some (tt, s1, []) ∧ handle_new_block b s1 = Some (tt, s2, []) ∧
    list.last (ls_log s2) = at_n G (ls_bci s + 1).
Proof.
  intros Hi Hn Hlen Hb. pose proof (li_bci _ _ _ Hi) as Hbci. pose proof (li_bound _ _ _ Hi) as Hbd.
  destruct (wp_run _ _ _ (wp_handle_rollback G k s n Hi ltac:(lia))) as ([] & s1 & es & Hr1 & -> & Hi1 & Hb1).
  assert (rollback_to (ls_bci s) n = ls_bci s + 1) as E
    by (unfold rollback_to; destruct (Z.leb_spec n (ls_bci s)); lia).
  rewrite E in Hi1. set (G1 := take (Z.to_nat (ls_bci s + 1)) G) in *.
  assert (length G1 = Z.to_nat (ls_bci s + 1)) as Hl1 by (unfold G1; rewrite length_take; lia).
  destruct (wp_run _ _ _ (wp_handle_new_block G1 k s1 b Hi1 ltac:(lia))) as ([] & s2 & es & Hr2 & -> & Hi2 & _).
  exists s1, s2. split; [done|]. split; [done|].
  assert (abs_append G1 b = G1) as Hsame.
  { unfold abs_append. rewrite Hl1. destruct (Z.eqb_spec (cb_n b) (Z.of_nat (Z.to_nat (ls_bci s + 1)) + 1)); [lia|done]. }
  rewrite Hsame in Hi2. rewrite (li_last G1 k s2 Hi2), last_lookup, Hl1. unfold G1, at_n.
  rewrite lookup_take_lt by lia. destruct (Z.leb_spec (ls_bci s + 1) 0); [lia|]. f_equal. lia.
Qed.

Lemma rollback_keeps_stale_block_witness :
  let H := mini_store in
  ∃ s1 s2, handle_rollback 1 mini_server = Some (tt, s1, []) ∧
    handle_new_block (mini_block 2 [Byte.x01] [Byte.xff]) s1 = Some (tt, s2, []) ∧
    list.last (ls_log s2) = at_n mini_log 2.
Proof.
  intros H.
  apply (@rollback_keeps_stale_block H mini_log 1 mini_server 1 (mini_block 2 [Byte.x01] [Byte.xff]) mini_inv);
    cbn; lia.
Defined.

(** Garbage-collecting the whole in-memory log forgets where the log ended: the server
    then answers no read and refuses every block but block 1. *)
Lemma gc_of_everything_wedges `{BlockStore} (G : list CachedBlock) (k : nat) (s : LogServer) (g : Z)
    (b : CachedBlock) (n : Z) :
  ls_inv G k s → Z.of_nat (length G) ≤ g → cb_n b ≠ 1 →
  ∃ s1, handle_gc g s = Some (tt, s1, []) ∧ ls_log s1 = [] ∧
    handle_new_block b s1 = Some (tt, s1, []) ∧ get_block n s1 = Some (None, s1, []).
Proof.
  intros Hi Hg Hb. eexists. split; [reflexivity|].
  assert (retain (λ x, cb_n x >? g) (ls_log s) = []) as Hnil.
  { apply retain_none. intros x Hx. rewrite (li_log _ _ _ Hi) in Hx.
    apply list_elem_of_lookup in Hx as [i Hx]. rewrite lookup_drop in Hx.
    pose proof (chain_lookup _ _ _ _ _ (li_chain _ _ _ Hi) Hx). apply lookup_lt_Some in Hx.
    destruct (Z.gtb_spec (cb_n x) g); [lia|done]. }
  cbn. rewrite Hnil. split; [done|]. split; [|done].
  unfold handle_new_block, mbind, M_bind, get, ls_last_n. cbn.
  destruct (Z.eqb_spec (cb_n b) (0 ⊕ 1)) as [E|]; [|done]. by rewrite u64_add_small in E.
Qed.

Lemma gc_of_everything_wedges_witness :
  let H := mini_store in
  ∃ s1, handle_gc 3 mini_server = Some (tt, s1, []) ∧ ls_log s1 = [] ∧
    handle_new_block (mini_block 4 [Byte.x03] [Byte.x04]) s1 = Some (tt, s1, []) ∧
    get_block 3 s1 = Some (None, s1, []).
Proof.
  intros H.
  apply (@gc_of_everything_wedges H mini_log 1 mini_server 3 (mini_block 4 [Byte.x03] [Byte.x04]) 3 mini_inv);
    [cbn; lia|done].
Defined.
