(* ===== verification/ClientReply.v ===== *)
(** The client reply task (src/src/consensus/client_reply.rs): it pairs the reply channels
    of a batch with the results of the block the batch became, whichever arrives first,
    and hands the replies to a pool of processors.  Theorems: every channel is answered
    exactly once, no handler panics, and the order in which a batch and its
    acknowledgement arrive does not matter. *)

From stdpp Require Import base numbers list gmap strings option sorting.
From S2P Require Import Prelude Types.

(** [MsgAckChanWithTag] (batch_proposal.rs); a channel is named by a number. *)
Record MsgAckChanWithTag := mkAckChan { ack_chan : nat; ack_tag : Z; ack_sender : SenderType }.

(** proto/client.proto *)
Record ProtoTransactionReceipt := mkReceipt {
  req_digest : HashType;
  rcpt_block_n : Z;
  rcpt_tx_n : Z;
  rcpt_results : option ProtoTransactionResult;
  await_byz_response : bool;
  rcpt_byz_responses : list ProtoByzResponse }.
Inductive Reply :=
  | Receipt (r : ProtoTransactionReceipt)
  | TryAgain (serialized_node_infos : string)
  | Leader (name serialized_node_infos : string)
  | TentativeReceipt (bn tn : Z).
Record ProtoClientReply := mkClientReply { client_reply : option Reply; reply_client_tag : Z }.

Inductive ClientReplyCommand :=
  | CrCancelAllRequests
  | CrStopCancelling
  | CrashCommitAck (ack : gmap HashType (Z * list ProtoTransactionResult))
  | ByzCommitAck (ack : gmap HashType (Z * list ProtoByzResponse))
  | UnloggedRequestAck (res_rx : option ProtoTransactionResult) (sender : MsgAckChanWithTag)
  | ProbeRequestAck (block_n : Z) (sender : MsgAckChanWithTag).

Inductive ReplyProcessorCommand :=
  | RpCrashCommit (block_n tx_n : Z) (hsh : HashType) (reply : ProtoTransactionResult)
      (chan : MsgAckChanWithTag) (byz_responses : list ProtoByzResponse)
  | RpByzCommit (block_n tx_n : Z) (result : ProtoTransactionResult) (chan : MsgAckChanWithTag)
  | RpUnlogged (res_rx : option ProtoTransactionResult) (chan : MsgAckChanWithTag)
  | RpProbe (block_n : Z) (reply_vec : list MsgAckChanWithTag).

(** The BTreeMap [probe_buffer] is the list of its entries in key order. *)
Record ClientReplyHandler := mkClientReplyHandler {
  reply_map : gmap HashType (list MsgAckChanWithTag);
  byz_reply_map : gmap HashType (list (Z * SenderType));
  crash_commit_reply_buf : gmap HashType (Z * list ProtoTransactionResult);
  byz_commit_reply_buf : gmap HashType (Z * list ProtoByzResponse);
  byz_response_store : gmap SenderType (list ProtoByzResponse);
  probe_buffer : list (Z * list MsgAckChanWithTag);
  acked_bci : Z;
  must_cancel : bool }.

Definition client_reply_new : ClientReplyHandler := mkClientReplyHandler ∅ ∅ ∅ ∅ ∅ [] 0 false.

(** What the task does to the outside: a command to the reply processors, or a reply sent
    directly. *)
Inductive ClientReplyMsg :=
  | CrProcess (cmd : ReplyProcessorCommand)
  | CrSend (chan : nat) (r : ProtoClientReply).

Definition set_reply_map x s := mkClientReplyHandler x (byz_reply_map s) (crash_commit_reply_buf s)
  (byz_commit_reply_buf s) (byz_response_store s) (probe_buffer s) (acked_bci s) (must_cancel s).
Definition set_byz_reply_map x s := mkClientReplyHandler (reply_map s) x (crash_commit_reply_buf s)
  (byz_commit_reply_buf s) (byz_response_store s) (probe_buffer s) (acked_bci s) (must_cancel s).
Definition set_crash_buf x s := mkClientReplyHandler (reply_map s) (byz_reply_map s) x
  (byz_commit_reply_buf s) (byz_response_store s) (probe_buffer s) (acked_bci s) (must_cancel s).
Definition set_byz_buf x s := mkClientReplyHandler (reply_map s) (byz_reply_map s)
  (crash_commit_reply_buf s) x (byz_response_store s) (probe_buffer s) (acked_bci s) (must_cancel s).
Definition set_byz_store x s := mkClientReplyHandler (reply_map s) (byz_reply_map s)
  (crash_commit_reply_buf s) (byz_commit_reply_buf s) x (probe_buffer s) (acked_bci s) (must_cancel s).
Definition set_probe_buffer x s := mkClientReplyHandler (reply_map s) (byz_reply_map s)
  (crash_commit_reply_buf s) (byz_commit_reply_buf s) (byz_response_store s) x (acked_bci s) (must_cancel s).
Definition set_acked_bci x s := mkClientReplyHandler (reply_map s) (byz_reply_map s)
  (crash_commit_reply_buf s) (byz_commit_reply_buf s) (byz_response_store s) (probe_buffer s) x (must_cancel s).
Definition set_must_cancel x s := mkClientReplyHandler (reply_map s) (byz_reply_map s)
  (crash_commit_reply_buf s) (byz_commit_reply_buf s) (byz_response_store s) (probe_buffer s) (acked_bci s) x.

(** What a processor sends for a command; [None] is the [unwrap] of a dropped result. *)
Definition process_reply_command (cmd : ReplyProcessorCommand) : option (list (nat * ProtoClientReply)) :=
  match cmd with
  | RpCrashCommit block_n tx_n hsh reply chan byz_responses =>
      Some [(ack_chan chan, mkClientReply
        (Some (Receipt (mkReceipt hsh block_n tx_n (Some reply) true byz_responses))) (ack_tag chan))]
  | RpByzCommit _ _ _ _ => Some []
  | RpUnlogged res_rx chan =>
      reply ← res_rx;
      Some [(ack_chan chan, mkClientReply
        (Some (Receipt (mkReceipt [] 0 0 (Some reply) false []))) (ack_tag chan))]
  | RpProbe block_n reply_vec =>
      let reply := mkClientReply (Some (Receipt (mkReceipt [] block_n 0 None false []))) 0 in
      Some (map (λ c, (ack_chan c, reply)) reply_vec)
  end.

(** [get_mut(&k)] and push, or [insert(k, vec![x])], on the BTreeMap. *)
Fixpoint probe_insert (k : Z) (x : MsgAckChanWithTag) (l : list (Z * list MsgAckChanWithTag))
    : list (Z * list MsgAckChanWithTag) :=
  match l with
  | [] => [(k, [x])]
  | (k', v) :: l' =>
      if k =? k' then (k', v ++ [x]) :: l'
      else if k <? k' then (k, [x]) :: l
      else (k', v) :: probe_insert k x l'
  end.

Section client_reply.
Context `{HashIter} (node_infos : string).

Abbreviation CR := (M ClientReplyHandler ClientReplyMsg).

Definition get_try_again_message (client_tag : Z) : ProtoClientReply :=
  mkClientReply (Some (TryAgain node_infos)) client_tag.

Definition send_try_again (c : MsgAckChanWithTag) : CR unit :=
  emit (CrSend (ack_chan c) (get_try_again_message (ack_tag c))).

Definition maybe_clear_probe_buf : CR unit :=
  s ← get;
  let remove_vec := retain (λ e, e.1 <=? acked_bci s) (probe_buffer s) in
  _ ← modify (set_probe_buffer (retain (λ e, negb (e.1 <=? acked_bci s)) (probe_buffer s)));
  mfor remove_vec (λ e, emit (CrProcess (RpProbe e.1 e.2))).

(** The loop of [do_crash_commit_reply] from transaction [tx_n] on. *)
Fixpoint crash_reply_loop (hash : HashType) (n tx_n : Z)
    (l : list (MsgAckChanWithTag * ProtoTransactionResult)) : CR unit :=
  match l with
  | [] => mret tt
  | (c, reply) :: l' =>
      s ← get;
      let byz_responses := default [] (byz_response_store s !! ack_sender c) in
      _ ← modify (set_byz_store (delete (ack_sender c) (byz_response_store s)));
      _ ← emit (CrProcess (RpCrashCommit n tx_n hash reply c byz_responses));
      crash_reply_loop hash n (tx_n + 1) l'
  end.

Definition do_crash_commit_reply (reply_sender_vec : list MsgAckChanWithTag) (hash : HashType) (n : Z)
    (reply_vec : list ProtoTransactionResult) : CR unit :=
  _ ← assert_ (length reply_sender_vec =? length reply_vec)%nat;
  crash_reply_loop hash n 0 (zip reply_sender_vec reply_vec).

Definition store_byz_response (e : (Z * SenderType) * ProtoByzResponse) : CR unit :=
  let '((client_tag, sender), reply) := e in
  let reply := mkByzResponse (br_block_n reply) (br_tx_n reply) client_tag in
  modify (λ s, set_byz_store
    (match byz_response_store s !! sender with
     | Some byz_responses => <[sender := byz_responses ++ [reply]]> (byz_response_store s)
     | None => <[sender := [reply]]> (byz_response_store s)
     end) s).

Definition do_byz_commit_reply (reply_sender_vec : list (Z * SenderType)) (n : Z)
    (reply_vec : list ProtoByzResponse) : CR unit :=
  _ ← assert_ (length reply_sender_vec =? length reply_vec)%nat;
  _ ← mfor (zip reply_sender_vec reply_vec) store_byz_response;
  _ ← modify (λ s, if n >? acked_bci s then set_acked_bci n s else s);
  maybe_clear_probe_buf.

Definition crash_ack_entry (e : HashType * (Z * list ProtoTransactionResult)) : CR unit :=
  let '(hash, (n, reply_vec)) := e in
  s ← get;
  match reply_map s !! hash with
  | Some reply_sender_vec =>
      _ ← modify (set_reply_map (delete hash (reply_map s)));
      do_crash_commit_reply reply_sender_vec hash n reply_vec
  | None => modify (set_crash_buf (<[hash := (n, reply_vec)]> (crash_commit_reply_buf s)))
  end.

Definition byz_ack_entry (e : HashType * (Z * list ProtoByzResponse)) : CR unit :=
  let '(hash, (n, reply_vec)) := e in
  s ← get;
  match byz_reply_map s !! hash with
  | Some reply_sender_vec =>
      _ ← modify (set_byz_reply_map (delete hash (byz_reply_map s)));
      do_byz_commit_reply reply_sender_vec n reply_vec
  | None => modify (set_byz_buf (<[hash := (n, reply_vec)]> (byz_commit_reply_buf s)))
  end.

Definition handle_reply_command (cmd : ClientReplyCommand) : CR unit :=
  match cmd with
  | CrCancelAllRequests =>
      s ← get;
      _ ← mfor (hm_iter (reply_map s)) (λ e, mfor e.2 send_try_again);
      _ ← modify (set_reply_map ∅);
      modify (set_must_cancel true)
  | CrashCommitAck ack => mfor (hm_iter ack) crash_ack_entry
  | ByzCommitAck ack => mfor (hm_iter ack) byz_ack_entry
  | CrStopCancelling => modify (set_must_cancel false)
  | UnloggedRequestAck res_rx sender => emit (CrProcess (RpUnlogged res_rx sender))
  | ProbeRequestAck block_n sender =>
      _ ← modify (λ s, set_probe_buffer (probe_insert block_n sender (probe_buffer s)) s);
      maybe_clear_probe_buf
  end.

(** The byzantine half first, so that the crash reply can carry its responses. *)
Definition maybe_clear_byz_buf (batch_hash : HashType) : CR unit :=
  s ← get;
  match byz_commit_reply_buf s !! batch_hash with
  | Some (n, reply_vec) =>
      _ ← modify (set_byz_buf (delete batch_hash (byz_commit_reply_buf s)));
      match byz_reply_map s !! batch_hash with
      | Some reply_sender_vec =>
          _ ← modify (λ s, set_byz_reply_map (delete batch_hash (byz_reply_map s)) s);
          do_byz_commit_reply reply_sender_vec n reply_vec
      | None => mret tt
      end
  | None => mret tt
  end.

Definition maybe_clear_crash_buf (batch_hash : HashType) : CR unit :=
  s ← get;
  match crash_commit_reply_buf s !! batch_hash with
  | Some (n, reply_vec) =>
      _ ← modify (set_crash_buf (delete batch_hash (crash_commit_reply_buf s)));
      match reply_map s !! batch_hash with
      | Some reply_sender_vec =>
          _ ← modify (λ s, set_reply_map (delete batch_hash (reply_map s)) s);
          do_crash_commit_reply reply_sender_vec batch_hash n reply_vec
      | None => mret tt
      end
  | None => mret tt
  end.

Definition maybe_clear_reply_buf (batch_hash : HashType) : CR unit :=
  _ ← maybe_clear_byz_buf batch_hash;
  maybe_clear_crash_buf batch_hash.

(** A batch: the hash its channel resolves to ([None] when its sender was dropped) and the
    reply channels of its transactions. *)
Inductive ClientReplyEvent :=
  | CrEvBatch (batch_hash : option HashType) (reply_vec : list MsgAckChanWithTag)
  | CrEvCommand (cmd : ClientReplyCommand).

Definition handle_batch (batch_hash : HashType) (reply_vec : list MsgAckChanWithTag) : CR unit :=
  s ← get;
  if bool_decide (batch_hash = []) || must_cancel s then mfor reply_vec send_try_again
  else
    _ ← modify (set_byz_reply_map
          (<[batch_hash := map (λ c, (ack_tag c, ack_sender c)) reply_vec]> (byz_reply_map s)));
    _ ← modify (λ s, set_reply_map (<[batch_hash := reply_vec]> (reply_map s)) s);
    maybe_clear_reply_buf batch_hash.

(** One iteration of the select loop. *)
Definition client_reply_worker (ev : ClientReplyEvent) : CR unit :=
  match ev with
  | CrEvBatch hash_chan reply_vec =>
      batch_hash ← unwrap hash_chan;
      handle_batch batch_hash reply_vec
  | CrEvCommand cmd => handle_reply_command cmd
  end.

End client_reply.

(** * Every channel is answered exactly once *)

(** A request is identified by its channel and the tag its client gave it. *)
Definition chan_of (c : MsgAckChanWithTag) : nat * Z := (ack_chan c, ack_tag c).

Definition msg_chans (m : ClientReplyMsg) : list (nat * Z) :=
  match m with
  | CrProcess (RpCrashCommit _ _ _ _ c _) => [chan_of c]
  | CrProcess (RpByzCommit _ _ _ _) => []
  | CrProcess (RpUnlogged _ c) => [chan_of c]
  | CrProcess (RpProbe _ cs) => map chan_of cs
  | CrSend ch r => [(ch, reply_client_tag r)]
  end.
Definition answered (es : list ClientReplyMsg) : list (nat * Z) := concat (map msg_chans es).

Definition waiting {K} (l : list (K * list MsgAckChanWithTag)) : list (nat * Z) :=
  concat (map (λ e, map chan_of e.2) l).
Definition pending (s : ClientReplyHandler) : list (nat * Z) :=
  waiting (map_to_list (reply_map s)) ++ waiting (probe_buffer s).

Definition incoming (ev : ClientReplyEvent) : list (nat * Z) :=
  match ev with
  | CrEvBatch _ reply_vec => map chan_of reply_vec
  | CrEvCommand (UnloggedRequestAck _ c) => [chan_of c]
  | CrEvCommand (ProbeRequestAck _ c) => [chan_of c]
  | CrEvCommand _ => []
  end.

(** [len h] is the number of transactions of the block with hash [h]: the batch has one
    channel for each of them, and the acknowledgements one result.  [seen] are the hashes
    of the batches received so far. *)
Record lens_ok (len : HashType → nat) (seen : list HashType) (s : ClientReplyHandler) : Prop := {
  lens_reply : ∀ h v, reply_map s !! h = Some v → h ∈ seen ∧ length v = len h;
  lens_byz : ∀ h v, byz_reply_map s !! h = Some v → length v = len h;
  lens_crash_buf : ∀ h n v, crash_commit_reply_buf s !! h = Some (n, v) → length v = len h;
  lens_byz_buf : ∀ h n v, byz_commit_reply_buf s !! h = Some (n, v) → length v = len h }.

Definition cr_event_ok (len : HashType → nat) (ev : ClientReplyEvent) : Prop :=
  match ev with
  | CrEvBatch hash v => ∃ h, hash = Some h ∧ length v = len h
  | CrEvCommand (CrashCommitAck ack) => ∀ h n v, ack !! h = Some (n, v) → length v = len h
  | CrEvCommand (ByzCommitAck ack) => ∀ h n v, ack !! h = Some (n, v) → length v = len h
  | CrEvCommand _ => True
  end.

(** The parts of the state the reply loops leave alone. *)
Definition frame (s s' : ClientReplyHandler) : Prop :=
  reply_map s' = reply_map s ∧ byz_reply_map s' = byz_reply_map s ∧
  crash_commit_reply_buf s' = crash_commit_reply_buf s ∧
  byz_commit_reply_buf s' = byz_commit_reply_buf s.

Lemma answered_app es1 es2 : answered (es1 ++ es2) = answered es1 ++ answered es2.
Proof. unfold answered. by rewrite map_app, concat_app. Qed.

Lemma lens_frame len seen s s' : frame s s' → lens_ok len seen s → lens_ok len seen s'.
Proof. intros (H1 & H2 & H3 & H4) []. split; rewrite ?H1, ?H2, ?H3, ?H4; done. Qed.

Lemma lens_seen_cons len seen h s : lens_ok len seen s → lens_ok len (h :: seen) s.
Proof. intros []. split; try done. intros h' v Hv. split; [right|]; by eapply lens_reply0. Qed.

Lemma waiting_perm {K} (l1 l2 : list (K * list MsgAckChanWithTag)) : l1 ≡ₚ l2 → waiting l1 ≡ₚ waiting l2.
Proof. intros Hp. unfold waiting. by rewrite Hp. Qed.

Lemma waiting_insert (m : gmap HashType (list MsgAckChanWithTag)) h v :
  m !! h = None →
  waiting (map_to_list (<[h := v]> m)) ≡ₚ map chan_of v ++ waiting (map_to_list m).
Proof. intros Hn. by rewrite (waiting_perm _ ((h, v) :: map_to_list m)) by by apply map_to_list_insert. Qed.

Lemma waiting_delete (m : gmap HashType (list MsgAckChanWithTag)) h v :
  m !! h = Some v →
  waiting (map_to_list m) ≡ₚ map chan_of v ++ waiting (map_to_list (delete h m)).
Proof.
  intros Hs. rewrite <-(waiting_insert _ h v) by apply lookup_delete_eq.
  by rewrite insert_delete_id.
Qed.

Lemma waiting_retain (f : Z * list MsgAckChanWithTag → bool) l :
  waiting l ≡ₚ waiting (retain (λ e, negb (f e)) l) ++ waiting (retain f l).
Proof.
  induction l as [|e l IH]; [done|]. unfold waiting in *. simpl. rewrite IH.
  destruct (f e); simpl; [|by rewrite app_assoc].
  by rewrite Permutation_app_swap_app.
Qed.

Lemma waiting_probe_insert k x l : waiting (probe_insert k x l) ≡ₚ waiting l ++ [chan_of x].
Proof.
  unfold waiting. induction l as [|[k' v] l IH]; [done|]. simpl.
  destruct (k =? k'); [|destruct (k <? k')]; simpl.
  - rewrite map_app, <-!app_assoc. f_equiv. by rewrite Permutation_app_comm.
  - by rewrite <-app_assoc, Permutation_cons_append, <-app_assoc.
  - by rewrite IH, app_assoc.
Qed.

Section client_reply_proofs.
Context `{HIt : HashIter} (node_infos : string).
Implicit Types s : ClientReplyHandler.

Lemma wp_emit_for {A} (f : A → ClientReplyMsg) (g : A → list (nat * Z)) (l : list A) s :
  (∀ x, msg_chans (f x) = g x) →
  wp (mfor l (λ x, emit (f x))) (λ _ s' es, s' = s ∧ answered es = concat (map g l)) s.
Proof.
  intros Hg. induction l as [|x l IH]; simpl; wp_prims; [done|].
  eapply wp_mono; [|exact IH]. intros [] s' es [-> He]. split; [done|].
  unfold answered in *. simpl. by rewrite Hg, He.
Qed.

Lemma wp_send_try_again v s :
  wp (mfor v (send_try_again node_infos)) (λ _ s' es, s' = s ∧ answered es = map chan_of v) s.
Proof.
  eapply wp_mono; [|apply (wp_emit_for _ (λ c, [chan_of c])); done].
  intros [] s' es [-> ->]. split; [done|]. induction v; simpl; congruence.
Qed.

Lemma wp_maybe_clear_probe_buf s :
  wp maybe_clear_probe_buf (λ _ s' es,
    frame s s' ∧ waiting (probe_buffer s) ≡ₚ waiting (probe_buffer s') ++ answered es) s.
Proof.
  unfold maybe_clear_probe_buf. wp_prims.
  eapply wp_mono; [|apply (wp_emit_for _ (λ e, map chan_of e.2)); done].
  intros [] s' es [-> He]. split; [done|]. simpl. rewrite He. apply waiting_retain.
Qed.

Lemma wp_crash_reply_loop hash n tx_n v rs s :
  length v = length rs →
  wp (crash_reply_loop hash n tx_n (zip v rs)) (λ _ s' es,
    frame s s' ∧ probe_buffer s' = probe_buffer s ∧ answered es = map chan_of v) s.
Proof.
  revert tx_n rs s. induction v as [|c v IH]; intros tx_n [|r rs] s Hl; simplify_eq/=; wp_prims; [done|].
  eapply wp_mono; [|by apply IH]. intros [] s' es (Hf & Hp & He). simpl in *.
  split; [done|]. split; [done|]. unfold answered in *. simpl. by rewrite He.
Qed.

Lemma wp_do_crash_commit_reply v hash n rs s :
  length v = length rs →
  wp (do_crash_commit_reply v hash n rs) (λ _ s' es,
    frame s s' ∧ probe_buffer s' = probe_buffer s ∧ answered es = map chan_of v) s.
Proof.
  intros Hl. unfold do_crash_commit_reply. wp_prims. apply wp_assert; [by apply Nat.eqb_eq|].
  by apply wp_crash_reply_loop.
Qed.

Lemma wp_store_byz_responses l s :
  wp (mfor l store_byz_response) (λ _ s' es,
    frame s s' ∧ probe_buffer s' = probe_buffer s ∧ es = []) s.
Proof.
  revert s. induction l as [|[[t sd] r] l IH]; intros s; simpl; wp_prims; [done|].
  eapply wp_mono; [|apply IH]. intros [] s' es (Hf & Hp & ->). done.
Qed.

Lemma wp_do_byz_commit_reply v n rs s :
  length v = length rs →
  wp (do_byz_commit_reply v n rs) (λ _ s' es,
    frame s s' ∧ waiting (probe_buffer s) ≡ₚ waiting (probe_buffer s') ++ answered es) s.
Proof.
  intros Hl. unfold do_byz_commit_reply. wp_prims. apply wp_assert; [by apply Nat.eqb_eq|].
  wp_prims. eapply wp_mono; [|apply wp_store_byz_responses].
  intros [] s1 es1 ((H1 & H2 & H3 & H4) & Hp & ->). wp_prims.
  eapply wp_mono; [|apply wp_maybe_clear_probe_buf]. intros [] s2 es2 [(F1 & F2 & F3 & F4) Hw].
  simpl. rewrite <-Hp. destruct (n >? acked_bci s1); simpl in *;
    (split; [unfold frame; split_and!; congruence|exact Hw]).
Qed.

(** A step of the task that takes nothing new in. *)
Definition conserves (len : HashType → nat) (seen : list HashType) (s s' : ClientReplyHandler) (es : list ClientReplyMsg) : Prop :=
  lens_ok len seen s' ∧ pending s ≡ₚ pending s' ++ answered es.

Lemma conserves_frame len seen s s' es :
  lens_ok len seen s → frame s s' → waiting (probe_buffer s) ≡ₚ waiting (probe_buffer s') ++ answered es →
  conserves len seen s s' es.
Proof.
  intros Hl Hf Hw. split; [by eapply lens_frame|]. destruct Hf as (Hr & _).
  unfold pending. by rewrite Hr, Hw, app_assoc.
Qed.

Lemma conserves_app len seen s s1 s2 es1 es2 :
  conserves len seen s s1 es1 → conserves len seen s1 s2 es2 → conserves len seen s s2 (es1 ++ es2).
Proof.
  intros [_ H1] [Hl H2]. split; [done|]. rewrite H1, H2, answered_app, <-!app_assoc. f_equiv.
  apply Permutation_app_comm.
Qed.

Lemma wp_conserves_for {A} len seen (P : A → Prop) (f : A → M ClientReplyHandler ClientReplyMsg unit) l s :
  lens_ok len seen s → Forall P l →
  (∀ x s, P x → lens_ok len seen s → wp (f x) (λ _ s' es, conserves len seen s s' es) s) →
  wp (mfor l f) (λ _ s' es, conserves len seen s s' es) s.
Proof.
  intros Hl HP Hf. revert s Hl. induction HP as [|x l Hx HP IH]; intros s Hl; simpl; wp_prims.
  - split; [done|]. by rewrite app_nil_r.
  - eapply wp_mono; [|by apply Hf]. intros [] s1 es1 Hc1.
    eapply wp_mono; [|apply IH, Hc1]. intros [] s2 es2. by apply conserves_app.
Qed.

(** Taking a batch out of [reply_map] and answering it. *)
Lemma wp_answer_batch len seen h v n rs s :
  lens_ok len seen s → reply_map s !! h = Some v → length rs = len h →
  wp (do_crash_commit_reply v h n rs) (λ _ s' es, conserves len seen s s' es)
    (set_reply_map (delete h (reply_map s)) s).
Proof.
  intros Hl Hv Hrs. destruct (lens_reply _ _ _ Hl _ _ Hv).
  eapply wp_mono; [|apply wp_do_crash_commit_reply; congruence].
  intros [] s' es (Hf & Hp & He). split.
  - eapply lens_frame; [exact Hf|]. destruct Hl. split; try done. simpl.
    intros h' v' [_ ?]%lookup_delete_Some. eauto.
  - destruct Hf as (Hr & _). unfold pending. rewrite Hr, Hp, He. simpl.
    rewrite (waiting_delete _ _ _ Hv). rewrite <-!app_assoc.
    rewrite (Permutation_app_comm (map chan_of v)), <-!app_assoc. done.
Qed.

Lemma wp_answer_byz len seen h v n rs s :
  lens_ok len seen s → byz_reply_map s !! h = Some v → length rs = len h →
  wp (do_byz_commit_reply v n rs) (λ _ s' es, conserves len seen s s' es)
    (set_byz_reply_map (delete h (byz_reply_map s)) s).
Proof.
  intros Hl Hv Hrs. pose proof (lens_byz _ _ _ Hl _ _ Hv).
  eapply wp_mono; [|apply wp_do_byz_commit_reply; congruence].
  intros [] s' es [Hf Hw].
  apply (conserves_frame len seen (set_byz_reply_map (delete h (byz_reply_map s)) s)); [|done..].
  destruct Hl. split; try done. simpl. intros h' v' [_ ?]%lookup_delete_Some. eauto.
Qed.

Lemma wp_crash_ack_entry len seen h n rs s :
  lens_ok len seen s → length rs = len h →
  wp (crash_ack_entry (h, (n, rs))) (λ _ s' es, conserves len seen s s' es) s.
Proof.
  intros Hl Hrs. unfold crash_ack_entry. wp_prims.
  destruct (reply_map s !! h) as [v|] eqn:Hv; wp_prims; [by apply wp_answer_batch|].
  split; [|by rewrite app_nil_r]. destruct Hl. split; try done. simpl.
  intros h' n' v' [[-> [= <- <-]]|[_ ?]]%lookup_insert_Some; eauto.
Qed.

Lemma wp_byz_ack_entry len seen h n rs s :
  lens_ok len seen s → length rs = len h →
  wp (byz_ack_entry (h, (n, rs))) (λ _ s' es, conserves len seen s s' es) s.
Proof.
  intros Hl Hrs. unfold byz_ack_entry. wp_prims.
  destruct (byz_reply_map s !! h) as [v|] eqn:Hv; wp_prims; [by apply wp_answer_byz|].
  split; [|by rewrite app_nil_r]. destruct Hl. split; try done. simpl.
  intros h' n' v' [[-> [= <- <-]]|[_ ?]]%lookup_insert_Some; eauto.
Qed.

Lemma wp_maybe_clear_byz_buf len seen h s :
  lens_ok len seen s → wp (maybe_clear_byz_buf h) (λ _ s' es, conserves len seen s s' es) s.
Proof.
  intros Hl. unfold maybe_clear_byz_buf. wp_prims.
  destruct (byz_commit_reply_buf s !! h) as [[n rs]|] eqn:Hb; wp_prims;
    [|split; [done|by rewrite app_nil_r]].
  assert (lens_ok len seen (set_byz_buf (delete h (byz_commit_reply_buf s)) s)) as Hl1.
  { destruct Hl. split; try done. simpl. intros h' n' v' [_ ?]%lookup_delete_Some. eauto. }
  destruct (byz_reply_map s !! h) as [v|] eqn:Hv; wp_prims; [|split; [done|by rewrite app_nil_r]].
  pose proof (lens_byz_buf _ _ _ Hl _ _ _ Hb) as Hrs.
  exact (wp_answer_byz len seen h v n rs _ Hl1 Hv Hrs).
Qed.

Lemma wp_maybe_clear_crash_buf len seen h s :
  lens_ok len seen s → wp (maybe_clear_crash_buf h) (λ _ s' es, conserves len seen s s' es) s.
Proof.
  intros Hl. unfold maybe_clear_crash_buf. wp_prims.
  destruct (crash_commit_reply_buf s !! h) as [[n rs]|] eqn:Hb; wp_prims;
    [|split; [done|by rewrite app_nil_r]].
  assert (lens_ok len seen (set_crash_buf (delete h (crash_commit_reply_buf s)) s)) as Hl1.
  { destruct Hl. split; try done. simpl. intros h' n' v' [_ ?]%lookup_delete_Some. eauto. }
  destruct (reply_map s !! h) as [v|] eqn:Hv; wp_prims; [|split; [done|by rewrite app_nil_r]].
  pose proof (lens_crash_buf _ _ _ Hl _ _ _ Hb) as Hrs.
  exact (wp_answer_batch len seen h v n rs _ Hl1 Hv Hrs).
Qed.

Lemma wp_handle_batch len seen h v s :
  lens_ok len seen s → length v = len h → h ∉ seen →
  wp (handle_batch node_infos h v) (λ _ s' es,
    lens_ok len (h :: seen) s' ∧ pending s ++ map chan_of v ≡ₚ pending s' ++ answered es) s.
Proof.
  intros Hl Hv Hh. unfold handle_batch. wp_prims.
  assert (reply_map s !! h = None) as Hn.
  { destruct (reply_map s !! h) eqn:Hr; [|done]. by apply (lens_reply _ _ _ Hl) in Hr as []. }
  apply (lens_seen_cons _ _ h) in Hl.
  destruct (bool_decide (h = []) || must_cancel s).
  { eapply wp_mono; [|apply wp_send_try_again]. intros [] s' es [-> He]. simpl. by rewrite He. }
  unfold maybe_clear_reply_buf. wp_prims. set (s1 := set_reply_map _ _).
  assert (lens_ok len (h :: seen) s1) as Hl1.
  { destruct Hl. split; try done; simpl.
    - intros h' v' [[-> <-]|[_ ?]]%lookup_insert_Some; [split; [left|done]|eauto].
    - intros h' v' [[-> <-]|[_ ?]]%lookup_insert_Some; [by rewrite length_map|eauto]. }
  assert (pending s ++ map chan_of v ≡ₚ pending s1) as Hp.
  { unfold pending, s1. simpl. rewrite (waiting_insert _ _ _ Hn).
    by rewrite Permutation_app_comm, app_assoc. }
  eapply wp_mono; [|by apply wp_maybe_clear_byz_buf]. intros [] s2 es2 Hc2.
  eapply wp_mono; [|apply wp_maybe_clear_crash_buf, Hc2]. intros [] s3 es3 Hc3. simpl.
  destruct (conserves_app _ _ _ _ _ _ _ Hc2 Hc3) as [Hl3 Hp3]. split; [done|]. by rewrite Hp, Hp3.
Qed.

Lemma answered_cancel (l : list (HashType * list MsgAckChanWithTag)) s :
  wp (mfor l (λ e, mfor e.2 (send_try_again node_infos)))
    (λ _ s' es, s' = s ∧ answered es = waiting l) s.
Proof.
  induction l as [|e l IH]; simpl; wp_prims; [done|].
  eapply wp_mono; [|apply wp_send_try_again]. intros [] s1 es1 [-> He1].
  eapply wp_mono; [|exact IH]. intros [] s2 es2 [-> He2]. split; [done|].
  rewrite answered_app, He1, He2. done.
Qed.

Lemma wp_handle_reply_command len seen cmd s :
  lens_ok len seen s → cr_event_ok len (CrEvCommand cmd) →
  wp (handle_reply_command node_infos cmd) (λ _ s' es,
    lens_ok len seen s' ∧ pending s ++ incoming (CrEvCommand cmd) ≡ₚ pending s' ++ answered es) s.
Proof.
  intros Hl Hok. destruct cmd as [| |ack|ack|res_rx c|k c]; simpl; wp_prims.
  - eapply wp_mono; [|apply answered_cancel]. intros [] s1 es1 [-> He]. wp_prims. split.
    + by destruct Hl.
    + rewrite !app_nil_r. unfold pending. simpl. rewrite map_to_list_empty, He. simpl.
      rewrite (waiting_perm _ _ (hm_iter_perm (reply_map s))). apply Permutation_app_comm.
  - split; [by destruct Hl|by rewrite !app_nil_r].
  - rewrite app_nil_r. eapply (wp_conserves_for _ _ (λ e, length e.2.2 = len e.1)); [done| |].
    + apply Forall_forall. intros [h [n rs]] Hin%elem_of_hm_iter. simpl. eauto.
    + intros [h [n rs]] s1. simpl. intros ? ?. by apply wp_crash_ack_entry.
  - rewrite app_nil_r. eapply (wp_conserves_for _ _ (λ e, length e.2.2 = len e.1)); [done| |].
    + apply Forall_forall. intros [h [n rs]] Hin%elem_of_hm_iter. simpl. eauto.
    + intros [h [n rs]] s1. simpl. intros ? ?. by apply wp_byz_ack_entry.
  - done.
  - eapply wp_mono; [|apply wp_maybe_clear_probe_buf]. intros [] s1 es1 [Hf Hw]. simpl in *.
    split; [eapply lens_frame; [exact Hf|by destruct Hl]|].
    destruct Hf as (Hr & _). unfold pending. rewrite Hr. simpl.
    by rewrite <-!app_assoc, <-Hw, waiting_probe_insert.
Qed.

Definition batch_hashes (evs : list ClientReplyEvent) : list HashType :=
  omap (λ ev, match ev with CrEvBatch hash _ => hash | CrEvCommand _ => None end) evs.

Lemma wp_client_reply_run len evs seen s :
  lens_ok len seen s → Forall (cr_event_ok len) evs → NoDup (batch_hashes evs ++ seen) →
  wp (mfor evs (client_reply_worker node_infos)) (λ _ s' es,
    pending s ++ concat (map incoming evs) ≡ₚ pending s' ++ answered es) s.
Proof.
  intros Hl Hevs Hnd. revert seen s Hl Hnd. induction Hevs as [|ev evs Hev Hevs IH]; intros seen s Hl Hnd.
  { simpl. by wp_prims. }
  assert (∃ seen', NoDup (batch_hashes evs ++ seen') ∧
    wp (client_reply_worker node_infos ev) (λ _ s' es,
      lens_ok len seen' s' ∧ pending s ++ incoming ev ≡ₚ pending s' ++ answered es) s)
    as (seen' & Hnd' & Hstep).
  { destruct ev as [hash v|cmd]; simpl in *.
    - destruct Hev as (h & -> & Hlen). exists (h :: seen). simpl in Hnd.
      split; [by rewrite <-Permutation_middle|]. wp_prims. eapply wp_unwrap; [done|].
      apply NoDup_cons in Hnd as [Hh _].
      apply wp_handle_batch; [done..|]. intros ?. apply Hh, elem_of_app. by right.
    - exists seen. split; [done|]. by apply wp_handle_reply_command. }
  cbn [mfor]. wp_prims. eapply wp_mono; [|exact Hstep]. intros [] s1 es1 [Hl1 Hp1]. cbv beta.
  eapply wp_mono; [|by eapply IH]. intros [] s2 es2 Hp2. simpl.
  rewrite app_assoc, Hp1, answered_app, <-app_assoc, (Permutation_app_comm (answered es1)).
  by rewrite app_assoc, Hp2, <-app_assoc, (Permutation_app_comm (answered es1)).
Qed.

End client_reply_proofs.

(** No request is lost or answered twice.  Whatever the order in which batches,
    commit acknowledgements, unlogged and probe requests and cancellations arrive, no
    handler panics, and the channels taken in are, as a multiset, those still waiting in
    the maps together with those answered, each under the tag of its client; a batch and
    its acknowledgements agree on the number of transactions, and batches have distinct
    hashes. *)
Lemma replies_conserved `{HIt : HashIter} node_infos len evs :
  Forall (cr_event_ok len) evs → NoDup (batch_hashes evs) →
  ∃ s' es, mfor evs (client_reply_worker node_infos) client_reply_new = Some (tt, s', es) ∧
    concat (map incoming evs) ≡ₚ pending s' ++ answered es.
Proof.
  intros Hok Hnd. destruct (wp_run _ _ _ (wp_client_reply_run node_infos len evs [] client_reply_new
    ltac:(done) Hok ltac:(by rewrite app_nil_r))) as ([] & s' & es & Hr & Hp).
  by exists s', es.
Qed.

Definition toy_chan (k : nat) : MsgAckChanWithTag := mkAckChan k (Z.of_nat k + 100) (Auth "c" 0).
Definition toy_events : list ClientReplyEvent :=
  [CrEvCommand (CrashCommitAck {[ [Byte.x01] := (1, [mkTxResult []; mkTxResult []]) ]});
   CrEvCommand (ProbeRequestAck 1 (toy_chan 7));
   CrEvBatch (Some [Byte.x01]) [toy_chan 1; toy_chan 2];
   CrEvCommand (ByzCommitAck {[ [Byte.x01] := (1, [mkByzResponse 1 0 0; mkByzResponse 1 1 0]) ]});
   CrEvBatch (Some [Byte.x02]) [toy_chan 3; toy_chan 4];
   CrEvCommand CrCancelAllRequests].

Lemma replies_conserved_witness :
  ∃ s' es, mfor toy_events (client_reply_worker (H := map_to_list_iter) "n") client_reply_new = Some (tt, s', es) ∧
    concat (map incoming toy_events) ≡ₚ pending s' ++ answered es.
Proof.
  apply (replies_conserved (HIt := map_to_list_iter) "n" (λ _, 2%nat) toy_events).
  - repeat (constructor; [first [by eexists | done |
      intros h n v Hs; apply lookup_singleton_Some in Hs as [_ [= <- <-]]; done]|]). constructor.
  - by_compute.
Defined.

Section reply_order.
Context `{HIt : HashIter} (node_infos : string).

Lemma bind_silent {A B} (m : M ClientReplyHandler ClientReplyMsg A)
    (f : A → M ClientReplyHandler ClientReplyMsg B) s a s1 :
  m s = Some (a, s1, []) → (mbind f m : M _ _ B) s = f a s1.
Proof.
  intros Hm. change (M_bind A B f m s = f a s1). unfold M_bind. rewrite Hm.
  by destruct (f a s1) as [[[b s2] e2]|].
Qed.

Lemma bind_ret_unit (m : M ClientReplyHandler ClientReplyMsg unit) s :
  (mbind (λ _, mret tt) m : M _ _ unit) s = m s.
Proof.
  change (M_bind _ _ (λ _, mret tt) m s = m s). unfold M_bind.
  destruct (m s) as [[[[] s1] e1]|]; [|done]. simpl. by rewrite app_nil_r.
Qed.

Lemma hm_iter_singleton {A} (h : HashType) (a : A) : hm_iter {[ h := a ]} = [(h, a)].
Proof. apply Permutation_singleton_r. by rewrite hm_iter_perm, map_to_list_singleton. Qed.

Lemma mfor_two (ev1 ev2 : ClientReplyEvent) s s1 :
  client_reply_worker node_infos ev1 s = Some (tt, s1, []) →
  mfor [ev1; ev2] (client_reply_worker node_infos) s = client_reply_worker node_infos ev2 s1.
Proof. intros H1. cbn [mfor]. erewrite bind_silent by exact H1. apply bind_ret_unit. Qed.

Definition with_batch (h : HashType) (v : list MsgAckChanWithTag) (s : ClientReplyHandler) : ClientReplyHandler :=
  set_reply_map (<[h := v]> (reply_map s))
    (set_byz_reply_map (<[h := map (λ c, (ack_tag c, ack_sender c)) v]> (byz_reply_map s)) s).

Lemma handle_batch_stores h v s :
  h ≠ [] → must_cancel s = false →
  crash_commit_reply_buf s !! h = None → byz_commit_reply_buf s !! h = None →
  client_reply_worker node_infos (CrEvBatch (Some h) v) s = Some (tt, with_batch h v s, []).
Proof.
  intros Hh Hc Hcb Hbb. unfold client_reply_worker, handle_batch.
  erewrite bind_silent by done. erewrite bind_silent by done.
  rewrite bool_decide_false, Hc by done. simpl.
  erewrite bind_silent by done. erewrite bind_silent by done.
  unfold maybe_clear_reply_buf, maybe_clear_byz_buf, maybe_clear_crash_buf.
  erewrite bind_silent; [|erewrite bind_silent by done; simpl; by rewrite Hbb].
  erewrite bind_silent by done. simpl. by rewrite Hcb.
Qed.

Lemma mfor_one {A} (f : A → M ClientReplyHandler ClientReplyMsg unit) x s : mfor [x] f s = f x s.
Proof. apply bind_ret_unit. Qed.

Lemma crash_ack_order h v n rs s :
  h ≠ [] → must_cancel s = false →
  reply_map s !! h = None → crash_commit_reply_buf s !! h = None → byz_commit_reply_buf s !! h = None →
  let batch := CrEvBatch (Some h) v in
  let ack := CrEvCommand (CrashCommitAck {[ h := (n, rs) ]}) in
  mfor [batch; ack] (client_reply_worker node_infos) s = mfor [ack; batch] (client_reply_worker node_infos) s.
Proof.
  intros Hh Hc Hr Hcb Hbb batch ack.
  rewrite (mfor_two batch ack s (with_batch h v s)) by by apply handle_batch_stores.
  rewrite (mfor_two ack batch s (set_crash_buf (<[h := (n, rs)]> (crash_commit_reply_buf s)) s)).
  2: { simpl. rewrite hm_iter_singleton, mfor_one. simpl. erewrite bind_silent by done. by rewrite Hr. }
  simpl. rewrite hm_iter_singleton, mfor_one. simpl. erewrite bind_silent by done. simpl.
  rewrite lookup_insert_eq. erewrite bind_silent by done.
  erewrite bind_silent by done. unfold handle_batch. erewrite bind_silent by done. simpl.
  rewrite bool_decide_false, Hc by done. simpl. erewrite bind_silent by done. erewrite bind_silent by done.
  unfold maybe_clear_reply_buf, maybe_clear_byz_buf, maybe_clear_crash_buf.
  erewrite bind_silent; [|erewrite bind_silent by done; simpl; by rewrite Hbb].
  erewrite bind_silent by done. simpl. rewrite lookup_insert_eq.
  erewrite bind_silent by done. simpl. rewrite lookup_insert_eq. erewrite bind_silent by done.
  f_equal. unfold set_reply_map, set_crash_buf. simpl. by rewrite !delete_insert_id.
Qed.

Lemma clear_crash_noop (m : M ClientReplyHandler ClientReplyMsg unit) h s :
  wp m (λ _ s' _, crash_commit_reply_buf s' !! h = None) s →
  (mbind (λ _, maybe_clear_crash_buf h) m : M _ _ unit) s = m s.
Proof.
  intros Hm. rewrite <-(bind_ret_unit m s). apply M_bind_ext. intros [] s1 e1 Hr.
  unfold wp in Hm. rewrite Hr in Hm. unfold maybe_clear_crash_buf.
  erewrite bind_silent by done. by rewrite Hm.
Qed.

Lemma clear_crash_bind (m m' : M ClientReplyHandler ClientReplyMsg unit) h s s' :
  m s = m' s' →
  (mbind (λ _, maybe_clear_crash_buf h) m : M _ _ unit) s =
  (mbind (λ _, maybe_clear_crash_buf h) m' : M _ _ unit) s'.
Proof.
  intros Hm. change (M_bind _ _ (λ _ : unit, maybe_clear_crash_buf h) m s =
    M_bind _ _ (λ _ : unit, maybe_clear_crash_buf h) m' s'). unfold M_bind. by rewrite Hm.
Qed.

Lemma byz_ack_order h v n rs s :
  h ≠ [] → must_cancel s = false → length v = length rs → byz_reply_map s !! h = None →
  crash_commit_reply_buf s !! h = None → byz_commit_reply_buf s !! h = None →
  let batch := CrEvBatch (Some h) v in
  let ack := CrEvCommand (ByzCommitAck {[ h := (n, rs) ]}) in
  mfor [batch; ack] (client_reply_worker node_infos) s = mfor [ack; batch] (client_reply_worker node_infos) s.
Proof.
  intros Hh Hc Hlen Hr Hcb Hbb batch ack.
  rewrite (mfor_two batch ack s (with_batch h v s)) by by apply handle_batch_stores.
  rewrite (mfor_two ack batch s (set_byz_buf (<[h := (n, rs)]> (byz_commit_reply_buf s)) s)).
  2: { simpl. rewrite hm_iter_singleton, mfor_one. simpl. erewrite bind_silent by done. by rewrite Hr. }
  simpl. rewrite hm_iter_singleton, mfor_one. simpl. erewrite bind_silent by done. simpl.
  rewrite lookup_insert_eq. erewrite bind_silent by done.
  erewrite bind_silent by done. unfold handle_batch. erewrite bind_silent by done. simpl.
  rewrite bool_decide_false, Hc by done. simpl. erewrite bind_silent by done. erewrite bind_silent by done.
  unfold maybe_clear_reply_buf, maybe_clear_byz_buf.
  set (v' := map _ v). assert (length v' = length rs) as Hlen' by (unfold v'; by rewrite length_map).
  set (s0 := with_batch h v s).
  assert (wp (do_byz_commit_reply v' n rs) (λ _ s' _, crash_commit_reply_buf s' !! h = None)
            (set_byz_reply_map (delete h (byz_reply_map s0)) s0)) as Hnone.
  { eapply wp_mono; [|by apply wp_do_byz_commit_reply]. intros [] s' es [(_ & _ & Hf & _) _]. by rewrite Hf. }
  etransitivity; [symmetry; exact (clear_crash_noop _ h _ Hnone)|]. symmetry.
  eapply clear_crash_bind. erewrite bind_silent by done. simpl. rewrite lookup_insert_eq.
  erewrite bind_silent by done. simpl. rewrite lookup_insert_eq. erewrite bind_silent by done.
  f_equal. unfold s0, with_batch, set_reply_map, set_byz_buf, set_byz_reply_map. simpl.
  by rewrite !delete_insert_id.
Qed.

End reply_order.

(** The order in which a batch and an acknowledgement of its block arrive does not
    matter: the client replies, and the state of the task afterwards, are the same
    whether the batch is registered before the block commits or after, for the crash
    commit and for the byzantine commit. *)
Lemma reply_order_independent `{HIt : HashIter} node_infos h v n rs brs s :
  h ≠ [] → must_cancel s = false → length v = length brs →
  reply_map s !! h = None → byz_reply_map s !! h = None →
  crash_commit_reply_buf s !! h = None → byz_commit_reply_buf s !! h = None →
  let batch := CrEvBatch (Some h) v in
  let crash := CrEvCommand (CrashCommitAck {[ h := (n, rs) ]}) in
  let byz := CrEvCommand (ByzCommitAck {[ h := (n, brs) ]}) in
  mfor [batch; crash] (client_reply_worker node_infos) s = mfor [crash; batch] (client_reply_worker node_infos) s ∧
  mfor [batch; byz] (client_reply_worker node_infos) s = mfor [byz; batch] (client_reply_worker node_infos) s.
Proof. intros. split; [by apply crash_ack_order|by apply byz_ack_order]. Qed.

Lemma reply_order_independent_witness :
  let _ := map_to_list_iter in
  mfor [CrEvBatch (Some [Byte.x01]) [toy_chan 1];
        CrEvCommand (CrashCommitAck {[ [Byte.x01] := (1, [mkTxResult []]) ]})] (client_reply_worker "n") client_reply_new =
  mfor [CrEvCommand (CrashCommitAck {[ [Byte.x01] := (1, [mkTxResult []]) ]});
        CrEvBatch (Some [Byte.x01]) [toy_chan 1]] (client_reply_worker "n") client_reply_new.
Proof.
  intros it. apply (reply_order_independent "n" [Byte.x01] [toy_chan 1] 1 [mkTxResult []] [mkByzResponse 1 0 0]
    client_reply_new); by vm_compute.
Defined.
