(* ===== verification/App.v ===== *)
(** The application task (src/src/consensus/app.rs): it feeds committed blocks to an
    engine, keeps the statistics the garbage collector depends on, and acknowledges the
    blocks to the client reply task.  The engine is the class [AppEngine] (the trait of the
    same name) with the shape laws in [AppEngineLaws]; the engines are in Kvs.v.
    Theorem: every acknowledgement is one the client reply task accepts. *)

From stdpp Require Import base numbers list gmap strings option sorting.
From S2P Require Import Prelude Types Config ClientReply.

(** The trait [AppEngine]; [None] is a panic of the engine. *)
Class AppEngine (E : Type) := {
  eng_new : Config → E;
  eng_crash_commit : list CachedBlock → E → option (list (list ProtoTransactionResult) * E);
  eng_byz_commit : list CachedBlock → E → option (list (list ProtoByzResponse) * E);
  eng_rollback : Z → E → E;
  eng_unlogged : ProtoTransaction → E → option (ProtoTransactionResult * E) }.

(** One entry per transaction of a block. *)
Definition per_tx {A} (b : CachedBlock) (r : list A) : Prop :=
  length r = length (pb_tx_list (cb_block b)).

(** What the application relies on: a result for each transaction of each block. *)
Class AppEngineLaws (E : Type) `{AppEngine E} := {
  crash_shape : ∀ bs e rs e', eng_crash_commit bs e = Some (rs, e') → Forall2 per_tx bs rs;
  byz_shape : ∀ bs e rs e', eng_byz_commit bs e = Some (rs, e') → Forall2 per_tx bs rs }.

Record LogStats := mkLogStats {
  st_ci : Z;
  st_bci : Z;
  st_view : Z;
  st_i_am_leader : bool;
  st_view_is_stable : bool;
  st_last_n : Z;
  st_last_qc : Z;
  st_last_hash : HashType;
  total_requests : Z;
  total_crash_committed_txs : Z;
  total_byz_committed_txs : Z;
  total_unlogged_txs : Z;
  total_2pc_txs : Z }.

Definition stats_new (feat : Features) (default_hash : HashType) : LogStats :=
  mkLogStats 0 0 (if f_view_change feat then 0 else 1) false (negb (f_view_change feat))
    0 0 default_hash 0 0 0 0 0.

Record Application (E : Type) := mkApplication { app_engine : E; app_stats : LogStats }.
Arguments mkApplication {E}.
Arguments app_engine {E}.
Arguments app_stats {E}.

Inductive AppMsg :=
  | AmClientReply (cmd : ClientReplyCommand)
  | AmGc (k : Z)
  | AmUnloggedReply (r : ProtoTransactionResult)
  | AmTwoPc (tx : ProtoTransaction).

(** [reply_alive]: the receiving half of the reply channel has not been dropped. *)
Inductive AppEvent :=
  | AppEvStaging (cmd : AppCommand)
  | AppEvUnlogged (req : ProtoTransaction) (reply_alive : bool)
  | AppEvCheckpoint
  | AppEvLogTimer.

(** [iter.collect::<HashMap<_, _>>()]: a later entry replaces an earlier one. *)
Definition collect_map {K A} `{Countable K} (l : list (K * A)) : gmap K A :=
  fold_left (λ m e, <[e.1 := e.2]> m) l ∅.

(** [results.iter().map(|e| e.len() as u64).sum::<u64>()] *)
Definition count_txs {A} (results : list (list A)) : Z :=
  fold_left (λ acc r, acc ⊕ Z.of_nat (length r)) results 0.

(** The running maxima of the two commit handlers. *)
Definition max_block_n (start : Z) (blocks : list CachedBlock) : Z :=
  fold_left (λ acc b, if acc <? pb_n (cb_block b) then pb_n (cb_block b) else acc) blocks start.
Definition max_qc_n (start : Z) (blocks : list CachedBlock) : Z :=
  fold_left (λ acc b, fold_left (λ acc q, if acc <? qc_n q then qc_n q else acc) (pb_qc (cb_block b)) acc)
    blocks start.

Definition result_map {A} (blocks : list CachedBlock) (results : list A) : gmap HashType (Z * A) :=
  collect_map (zip (map cb_hash blocks) (zip (map (λ b, pb_n (cb_block b)) blocks) results)).

Section application.
Context {E : Type} `{AppEngine E} (feat : Features).

Abbreviation AP := (M (Application E) AppMsg).

Definition set_stats (st : LogStats) (s : Application E) : Application E := mkApplication (app_engine s) st.
Definition set_engine (e : E) (s : Application E) : Application E := mkApplication e (app_stats s).

(** Runs an operation of the engine. *)
Definition on_engine {A} (f : E → option (A * E)) : AP A :=
  s ← get;
  '(a, e) ← unwrap (f (app_engine s));
  _ ← modify (set_engine e);
  mret a.

Definition stats_batch (n view : Z) (view_is_stable i_am_leader : bool) (len : nat) (last_hash : HashType)
    (st : LogStats) : LogStats :=
  mkLogStats (st_ci st) (st_bci st) view i_am_leader view_is_stable n (st_last_qc st) last_hash
    (total_requests st ⊕ Z.of_nat len) (total_crash_committed_txs st) (total_byz_committed_txs st)
    (total_unlogged_txs st) (total_2pc_txs st).
Definition stats_crash (ci last_qc count : Z) (st : LogStats) : LogStats :=
  mkLogStats ci (st_bci st) (st_view st) (st_i_am_leader st) (st_view_is_stable st) (st_last_n st) last_qc
    (st_last_hash st) (total_requests st) (total_crash_committed_txs st ⊕ count) (total_byz_committed_txs st)
    (total_unlogged_txs st) (total_2pc_txs st).
Definition stats_byz (bci count : Z) (st : LogStats) : LogStats :=
  mkLogStats (st_ci st) bci (st_view st) (st_i_am_leader st) (st_view_is_stable st) (st_last_n st) (st_last_qc st)
    (st_last_hash st) (total_requests st) (total_crash_committed_txs st) (total_byz_committed_txs st ⊕ count)
    (total_unlogged_txs st) (total_2pc_txs st).
Definition stats_rollback (ci last_n : Z) (st : LogStats) : LogStats :=
  mkLogStats ci (st_bci st) (st_view st) (st_i_am_leader st) (st_view_is_stable st) last_n (st_last_qc st)
    (st_last_hash st) (total_requests st) (total_crash_committed_txs st) (total_byz_committed_txs st)
    (total_unlogged_txs st) (total_2pc_txs st).
Definition stats_unlogged (st : LogStats) : LogStats :=
  mkLogStats (st_ci st) (st_bci st) (st_view st) (st_i_am_leader st) (st_view_is_stable st) (st_last_n st)
    (st_last_qc st) (st_last_hash st) (total_requests st ⊕ 1) (total_crash_committed_txs st)
    (total_byz_committed_txs st) (total_unlogged_txs st ⊕ 1) (total_2pc_txs st).
Definition stats_2pc (st : LogStats) : LogStats :=
  mkLogStats (st_ci st) (st_bci st) (st_view st) (st_i_am_leader st) (st_view_is_stable st) (st_last_n st)
    (st_last_qc st) (st_last_hash st) (total_requests st) (total_crash_committed_txs st)
    (total_byz_committed_txs st) (total_unlogged_txs st) (total_2pc_txs st ⊕ 1).

Definition update_stats (f : LogStats → LogStats) : AP unit := modify (λ s, set_stats (f (app_stats s)) s).

Definition app_crash_commit (blocks : list CachedBlock) : AP unit :=
  s ← get;
  let new_ci := max_block_n (st_ci (app_stats s)) blocks in
  let new_last_qc := max_qc_n (st_last_qc (app_stats s)) blocks in
  results ← on_engine (eng_crash_commit blocks);
  _ ← update_stats (stats_crash new_ci new_last_qc (count_txs results));
  _ ← assert_ (length blocks =? length results)%nat;
  emit (AmClientReply (CrashCommitAck (result_map blocks results))).

Definition app_byz_commit (blocks : list CachedBlock) : AP unit :=
  s ← get;
  let new_bci := max_block_n (st_bci (app_stats s)) blocks in
  results ← on_engine (eng_byz_commit blocks);
  _ ← update_stats (stats_byz new_bci (count_txs results));
  _ ← assert_ (length blocks =? length results)%nat;
  emit (AmClientReply (ByzCommitAck (result_map blocks results))).

Definition app_rollback (new_last_block : Z) : AP unit :=
  s ← get;
  let bci := st_bci (app_stats s) in
  let new_last_block := if new_last_block <=? bci then bci ⊕ 1 else new_last_block in
  let ci := st_ci (app_stats s) in
  _ ← update_stats (stats_rollback (if ci >? new_last_block then new_last_block else ci) new_last_block);
  modify (λ s, set_engine (eng_rollback new_last_block (app_engine s)) s).

Definition handle_staging_command (cmd : AppCommand) : AP unit :=
  match cmd with
  | NewRequestBatch n view view_is_stable i_am_leader len last_hash =>
      update_stats (stats_batch n view view_is_stable i_am_leader len last_hash)
  | CrashCommit blocks => app_crash_commit blocks
  | ByzCommit blocks => app_byz_commit blocks
  | Rollback new_last_block => app_rollback new_last_block
  end.

Definition handle_unlogged_request (request : ProtoTransaction) (reply_alive : bool) : AP unit :=
  if extra_2pc feat && is_2pc request then
    _ ← emit (AmTwoPc request);
    update_stats stats_2pc
  else
    result ← on_engine (eng_unlogged request);
    _ ← update_stats stats_unlogged;
    _ ← assert_ reply_alive;
    emit (AmUnloggedReply result).

(** Everything below the byzantine commit index may be collected. *)
Definition checkpoint : AP unit :=
  s ← get;
  if st_bci (app_stats s) >? 1 then emit (AmGc (st_bci (app_stats s) ⊖ 1)) else mret tt.

Definition app_worker (ev : AppEvent) : AP unit :=
  match ev with
  | AppEvStaging cmd => handle_staging_command cmd
  | AppEvUnlogged req reply_alive => handle_unlogged_request req reply_alive
  | AppEvCheckpoint => checkpoint
  | AppEvLogTimer => mret tt
  end.

End application.

(** * Lemmas *)

Lemma collect_map_lookup {K A} `{Countable K} (l : list (K * A)) k a :
  collect_map l !! k = Some a → (k, a) ∈ l.
Proof.
  unfold collect_map.
  assert (∀ m : gmap K A, fold_left (λ m (e : K * A), <[e.1 := e.2]> m) l m !! k = Some a →
    (k, a) ∈ l ∨ m !! k = Some a) as Hg.
  { induction l as [|[k' a'] l IH]; intros m; simpl; [by right|].
    intros [?|Hi]%IH; [left; by right|]. simpl in Hi.
    apply lookup_insert_Some in Hi as [[-> ->]|[_ ?]]; [left; left|by right]. }
  intros [?|Hn]%Hg; [done|]. by rewrite lookup_empty in Hn.
Qed.

Lemma collect_map_elem {K A} `{Countable K} (l : list (K * A)) k a :
  NoDup l.*1 → (k, a) ∈ l → collect_map l !! k = Some a.
Proof.
  unfold collect_map.
  assert (∀ m : gmap K A, NoDup l.*1 →
    ((k, a) ∈ l → fold_left (λ m (e : K * A), <[e.1 := e.2]> m) l m !! k = Some a) ∧
    (k ∉ l.*1 → fold_left (λ m (e : K * A), <[e.1 := e.2]> m) l m !! k = m !! k)) as Hg.
  { induction l as [|[k' a'] l IH]; intros m Hnd; simpl.
    - split; [intros Hin; by apply not_elem_of_nil in Hin|done].
    - apply NoDup_cons in Hnd as [Hk' Hnd]. destruct (IH (<[k' := a']> m) Hnd) as [IH1 IH2]. split.
      + intros [[= -> ->]|Hin]%elem_of_cons; [|by apply IH1].
        rewrite IH2 by done. apply lookup_insert_eq.
      + intros [Hne Hni]%not_elem_of_cons. rewrite IH2 by done. by rewrite lookup_insert_ne. }
  intros Hnd. apply (Hg ∅ Hnd).
Qed.

Lemma max_block_n_spec start blocks :
  start ≤ max_block_n start blocks ∧ ∀ b, b ∈ blocks → pb_n (cb_block b) ≤ max_block_n start blocks.
Proof.
  unfold max_block_n. revert start. induction blocks as [|b bs IH]; intros start; simpl.
  - split; [done|]. intros b Hb. by apply not_elem_of_nil in Hb.
  - destruct (Z.ltb_spec start (pb_n (cb_block b)));
      match goal with |- context [fold_left _ bs ?x] => destruct (IH x) as [H1 H2] end;
      (split; [lia|]); intros b' [->|?]%elem_of_cons; try lia; by apply H2.
Qed.

Section application_proofs.
Context {E : Type} `{AppEngineLaws E}.

Lemma result_map_shape {A} (blocks : list CachedBlock) (rs : list (list A)) len h n v :
  Forall2 per_tx blocks rs →
  (∀ b, b ∈ blocks → len (cb_hash b) = length (pb_tx_list (cb_block b))) →
  result_map blocks rs !! h = Some (n, v) → length v = len h.
Proof.
  intros Hs Hlen Hl%collect_map_lookup. revert Hlen Hl. induction Hs as [|b r bs rs Hb Hs IH]; simpl.
  - intros _ Hin. by apply not_elem_of_nil in Hin.
  - intros Hlen [[= -> -> ->]|Hin]%elem_of_cons; [rewrite Hlen by left; apply Hb|].
    apply IH; [|done]. intros b' Hb'. apply Hlen. by right.
Qed.

Lemma result_map_elem {A} (blocks : list CachedBlock) (rs : list A) i b r :
  NoDup (map cb_hash blocks) → blocks !! i = Some b → rs !! i = Some r →
  result_map blocks rs !! cb_hash b = Some (pb_n (cb_block b), r).
Proof.
  intros Hnd Hb Hr. apply collect_map_elem.
  - eapply sublist_NoDup; [exact Hnd|]. clear. revert rs.
    induction blocks as [|b bs IH]; intros [|r rs]; simpl; try constructor; auto using sublist_nil_l.
  - apply list_elem_of_lookup. exists i. rewrite !lookup_zip_with, !lookup_map, Hb, Hr. done.
Qed.

Lemma wp_on_engine {A} (f : E → option (A * E)) (a : A) (e' : E) (Q : A → Application E → list AppMsg → Prop) s :
  f (app_engine s) = Some (a, e') → Q a (set_engine e' s) [] → wp (on_engine f) Q s.
Proof. intros Hf HQ. unfold on_engine. wp_prims. eapply wp_unwrap; [exact Hf|]. by wp_prims. Qed.

End application_proofs.

(** * The null engine (engines/null_app.rs) *)

Inductive NullApp : Set := null_app.

Definition null_phase_result (p : option ProtoTransactionPhase) : ProtoTransactionResult :=
  mkTxResult (map (λ _, mkOpResult true []) (from_option phase_ops [] p)).

Definition null_crash_commit (blocks : list CachedBlock) (e : NullApp) :=
  Some (map (λ b, map (λ tx, null_phase_result (on_crash_commit tx)) (pb_tx_list (cb_block b))) blocks, e).
Definition null_byz_commit (blocks : list CachedBlock) (e : NullApp) :=
  Some (map (λ b, imap (λ tx_n (_ : ProtoTransaction), mkByzResponse (pb_n (cb_block b)) (Z.of_nat tx_n) 0)
                    (pb_tx_list (cb_block b))) blocks, e).

#[export] Instance null_engine : AppEngine NullApp := {
  eng_new := λ _, null_app;
  eng_crash_commit := null_crash_commit;
  eng_byz_commit := null_byz_commit;
  eng_rollback := λ _ e, e;
  eng_unlogged := λ req e, Some (null_phase_result (on_receive req), e) }.

#[export] Instance null_engine_laws : AppEngineLaws NullApp.
Proof.
  split; intros bs e rs e' [= <- <-]; induction bs as [|b bs IH]; constructor; try done.
  - unfold per_tx. by rewrite length_map.
  - unfold per_tx. by rewrite length_imap.
Qed.

(** The application's acknowledgements are the ones the client reply task expects.
    When the engine executes a list of committed blocks, the commit handlers do not panic;
    each sends exactly one acknowledgement, in which every block appears under its hash with
    its number and one result per transaction, so that the client reply task accepts it for
    batches with one channel per transaction; and the commit index becomes at least the
    number of each block. *)
Lemma app_commit_acks {E} `{AppEngineLaws E} (len : HashType → nat) blocks s rs e' brs e'' :
  (∀ b, b ∈ blocks → len (cb_hash b) = length (pb_tx_list (cb_block b))) →
  NoDup (map cb_hash blocks) →
  eng_crash_commit blocks (app_engine s) = Some (rs, e') →
  eng_byz_commit blocks (app_engine s) = Some (brs, e'') →
  (∃ s1 ack, app_crash_commit blocks s = Some (tt, s1, [AmClientReply (CrashCommitAck ack)]) ∧
     app_engine s1 = e' ∧ cr_event_ok len (CrEvCommand (CrashCommitAck ack)) ∧
     (∀ i b r, blocks !! i = Some b → rs !! i = Some r →
        ack !! cb_hash b = Some (pb_n (cb_block b), r) ∧ pb_n (cb_block b) ≤ st_ci (app_stats s1))) ∧
  (∃ s2 ack, app_byz_commit blocks s = Some (tt, s2, [AmClientReply (ByzCommitAck ack)]) ∧
     app_engine s2 = e'' ∧ cr_event_ok len (CrEvCommand (ByzCommitAck ack)) ∧
     (∀ i b r, blocks !! i = Some b → brs !! i = Some r →
        ack !! cb_hash b = Some (pb_n (cb_block b), r) ∧ pb_n (cb_block b) ≤ st_bci (app_stats s2))).
Proof.
  intros Hlen Hnd Hc Hb. pose proof (crash_shape _ _ _ _ Hc) as Hcs. pose proof (byz_shape _ _ _ _ Hb) as Hbs.
  split.
  - eexists _, (result_map blocks rs). split_and!; [| |by intros h n v; eapply result_map_shape|].
    + unfold app_crash_commit, on_engine, mbind, M_bind, get, unwrap, assert_. rewrite Hc. simpl.
      rewrite (proj2 (Nat.eqb_eq _ _)) by by eapply Forall2_length. reflexivity.
    + done.
    + intros i b r Hi Hr. split; [by eapply result_map_elem|].
      apply max_block_n_spec. by eapply list_elem_of_lookup_2.
  - eexists _, (result_map blocks brs). split_and!; [| |by intros h n v; eapply result_map_shape|].
    + unfold app_byz_commit, on_engine, mbind, M_bind, get, unwrap, assert_. rewrite Hb. simpl.
      rewrite (proj2 (Nat.eqb_eq _ _)) by by eapply Forall2_length. reflexivity.
    + done.
    + intros i b r Hi Hr. split; [by eapply result_map_elem|].
      apply max_block_n_spec. by eapply list_elem_of_lookup_2.
Qed.

Definition toy_tx : ProtoTransaction := mkTx None None None false false.
Definition toy_app_block (n : Z) (h : HashType) : CachedBlock :=
  mkCached (mkBlock [toy_tx; toy_tx] n [] 1 [] [] true 0 None) [] h.

Lemma app_commit_acks_witness :
  let blocks := [toy_app_block 1 [Byte.x01]; toy_app_block 2 [Byte.x02]] in
  let s := mkApplication null_app (stats_new pirateship_features []) in
  ∃ s1 ack, app_crash_commit blocks s = Some (tt, s1, [AmClientReply (CrashCommitAck ack)]) ∧
     app_engine s1 = null_app ∧ cr_event_ok (λ _, 2%nat) (CrEvCommand (CrashCommitAck ack)) ∧
     (∀ i b r, blocks !! i = Some b → [[mkTxResult []; mkTxResult []]; [mkTxResult []; mkTxResult []]] !! i = Some r →
        ack !! cb_hash b = Some (pb_n (cb_block b), r) ∧ pb_n (cb_block b) ≤ st_ci (app_stats s1)).
Proof.
  intros blocks s.
  apply (app_commit_acks (λ _, 2%nat) blocks s _ _
    [[mkByzResponse 1 0 0; mkByzResponse 1 1 0]; [mkByzResponse 2 0 0; mkByzResponse 2 1 0]] null_app).
  - intros b Hb. repeat (apply elem_of_cons in Hb as [->|Hb]; [done|]). by apply not_elem_of_nil in Hb.
  - by_compute.
  - done.
  - done.
Defined.
