(* ===== verification/Kvs.v ===== *)
(** The key-value engine (src/src/consensus/engines/kvs.rs).  Crash-committed writes are
    versions tagged with their block in [ci_state]; byzantine commits move them to
    [bci_state], rollbacks drop them.  The specification executes the transactions of the
    blocks of a log, in order, on a plain map.  Theorem: under any sequence of crash
    commits, byzantine commits and rollbacks, the engine answers like the specification
    run from scratch on the blocks that are left. *)

From stdpp Require Import base numbers list gmap strings option sorting.
From S2P Require Import Prelude Types Config ClientReply App.

(** Runs [f] along a list, collecting its results; [None] is a panic. *)
Fixpoint run_all {S A B} (f : S → A → option (S * B)) (s : S) (l : list A) : option (S * list B) :=
  match l with
  | [] => Some (s, [])
  | x :: l' =>
      '(s1, b) ← f s x;
      '(s2, bs) ← run_all f s1 l';
      Some (s2, b :: bs)
  end.

(** * The engine *)

Record KVSState := mkKVSState {
  ci_state : gmap bytes (list (Z * bytes));
  bci_state : gmap bytes bytes }.

Record KVSAppEngine := mkKVS { last_ci : Z; last_bci : Z; kvs_state : KVSState }.

Definition kvs_new : KVSAppEngine := mkKVS 0 0 (mkKVSState ∅ ∅).

(** [read]; the outer [None] is the [unwrap] of the last version of an empty list. *)
Definition kvs_read (s : KVSState) (key : bytes) : option (option bytes) :=
  match ci_state s !! key with
  | Some v => match list.last v with Some (_, res) => Some (Some res) | None => None end
  | None => Some (bci_state s !! key)
  end.

Definition push_version (n : Z) (key val : bytes) (s : KVSState) : KVSState :=
  mkKVSState
    (match ci_state s !! key with
     | Some v => <[key := v ++ [(n, val)]]> (ci_state s)
     | None => <[key := [(n, val)]]> (ci_state s)
     end) (bci_state s).

(** [i64::from_be_bytes(buf.as_slice().try_into())]; [None] is the failed [try_into]. *)
Definition i64_from_be (l : bytes) : option Z :=
  if (length l =? 8)%nat then Some (as_i64 (from_be l)) else None.

(** The two optional operands of an increment, and the value it writes back. *)
Definition increment_by (ops : list bytes) : Z :=
  match ops with [_; incr_val] => default 1 (i64_from_be incr_val) | _ => 1 end.
Definition must_increment (ops : list bytes) (result : Z) : bool :=
  match ops with
  | [_; _; check_val] =>
      match i64_from_be check_val with Some c => result =? c | None => true end
  | _ => true
  end.
Definition increment_result (ops : list bytes) (result : Z) : bytes :=
  be_bytes 8 (if must_increment ops result then i64_add result (increment_by ops) else result).

(** The (key, swap value, compare value) triples of a compare-and-swap. *)
Fixpoint cas_ops (l : list bytes) : list (bytes * bytes * bytes) :=
  match l with
  | key :: swap_val :: compare_val :: l' => (key, swap_val, compare_val) :: cas_ops l'
  | _ => []
  end.
Definition cas_matches (read_vals : list bytes) (ops : list (bytes * bytes * bytes)) : bool :=
  forallb (λ e, bool_decide (e.1 = e.2.2)) (zip read_vals ops).

Definition exec_increment (n : Z) (s : KVSState) (ops : list bytes)
    : option (KVSState * list ProtoTransactionOpResult) :=
  match ops with
  | [] | _ :: _ :: _ :: _ :: _ => Some (s, [])
  | key :: _ =>
      read ← kvs_read s key;
      result ← match read with None => Some 0 | Some v => i64_from_be v end;
      let val := increment_result ops result in
      Some (push_version n key val s, [mkOpResult true [val]])
  end.

Definition exec_cas (n : Z) (s : KVSState) (ops : list bytes)
    : option (KVSState * list ProtoTransactionOpResult) :=
  if negb (length ops mod 3 =? 0)%nat then Some (s, [])
  else
    let cas := cas_ops ops in
    read_vals ← mapM (λ o, r ← kvs_read s o.1.1; Some (default [] r)) cas;
    let must_operate := cas_matches read_vals cas in
    let s' := if must_operate then fold_left (λ s o, push_version n o.1.1 o.1.2 s) cas s else s in
    Some (s', [mkOpResult must_operate read_vals]).

(** One operation of the crash-commit phase of a transaction of block [n]. *)
Definition exec_op (n : Z) (s : KVSState) (op : ProtoTransactionOp)
    : option (KVSState * list ProtoTransactionOpResult) :=
  match op_type_from_i32 (op_type op) with
  | Some Write =>
      match operands op with
      | [key; val] => Some (push_version n key val s, [mkOpResult true []])
      | _ => Some (s, [])
      end
  | Some Read =>
      match operands op with
      | [key] =>
          result ← kvs_read s key;
          Some (s, match result with Some value => [mkOpResult true [value]] | None => [] end)
      | _ => Some (s, [])
      end
  | Some Increment => exec_increment n s (operands op)
  | Some Cas => exec_cas n s (operands op)
  | _ => Some (s, [])
  end.

Section traversal.
Context {S : Type} (step : S → ProtoTransactionOp → option (S * list ProtoTransactionOpResult)).

Definition exec_tx (s : S) (tx : ProtoTransaction) : option (S * ProtoTransactionResult) :=
  match on_crash_commit tx with
  | None => Some (s, mkTxResult [])
  | Some ph =>
      '(s', rs) ← run_all step s (phase_ops ph);
      Some (s', mkTxResult (concat rs))
  end.

Definition exec_txs (s : S) (b : CachedBlock) : option (S * list ProtoTransactionResult) :=
  run_all exec_tx s (pb_tx_list (cb_block b)).

End traversal.

Definition exec_block (e : KVSAppEngine) (b : CachedBlock) : option (KVSAppEngine * list ProtoTransactionResult) :=
  let n := pb_n (cb_block b) in
  '(s, rs) ← exec_txs (exec_op n) (kvs_state e) b;
  Some (mkKVS n (last_bci e) s, rs).

Definition kvs_crash_commit (blocks : list CachedBlock) (e : KVSAppEngine)
    : option (list (list ProtoTransactionResult) * KVSAppEngine) :=
  '(e', final_result) ← run_all exec_block e blocks;
  Some (final_result, e').

(** The byzantine phase of a block writes straight to [bci_state]. *)
Definition byz_op (bci : gmap bytes bytes) (op : ProtoTransactionOp) : gmap bytes bytes :=
  match operands op with
  | [key; val] =>
      if bool_decide (op_type_from_i32 (op_type op) = Some Write) then <[key := val]> bci else bci
  | _ => bci
  end.
Definition byz_tx (bci : gmap bytes bytes) (tx : ProtoTransaction) : gmap bytes bytes :=
  match on_byzantine_commit tx with
  | Some ph => fold_left byz_op (phase_ops ph) bci
  | None => bci
  end.
Definition byz_results (b : CachedBlock) : list ProtoByzResponse :=
  imap (λ tx_n (_ : ProtoTransaction), mkByzResponse (pb_n (cb_block b)) (Z.of_nat tx_n) 0) (pb_tx_list (cb_block b)).

(** Moving the versions of a key up to [b] to [bci_state]: the last one stays. *)
Definition move_versions (b : Z) (bci : gmap bytes bytes) (e : bytes * list (Z * bytes)) : gmap bytes bytes :=
  fold_left (λ bci v, if v.1 <=? b then <[e.1 := v.2]> bci else bci) e.2 bci.

(** [for v in ci_state.iter_mut() { v.retain(f) }; ci_state.retain(|_, v| v.len() > 0)] *)
Definition retain_versions (f : Z * bytes → bool) (ci : gmap bytes (list (Z * bytes))) : gmap bytes (list (Z * bytes)) :=
  hm_retain (λ v, (0 <? length v)%nat) (retain f <$> ci).

Definition kvs_byz_commit `{HashIter} (blocks : list CachedBlock) (e : KVSAppEngine)
    : option (list (list ProtoByzResponse) * KVSAppEngine) :=
  let last_bci' := fold_left (λ _ b, pb_n (cb_block b)) blocks (last_bci e) in
  let bci := fold_left (λ bci b, fold_left byz_tx (pb_tx_list (cb_block b)) bci) blocks (bci_state (kvs_state e)) in
  let bci' := fold_left (move_versions last_bci') (hm_iter (ci_state (kvs_state e))) bci in
  let ci' := retain_versions (λ v, v.1 >? last_bci') (ci_state (kvs_state e)) in
  Some (map byz_results blocks, mkKVS (last_ci e) last_bci' (mkKVSState ci' bci')).

Definition kvs_rollback (rolled_back_blocks : Z) (e : KVSAppEngine) : KVSAppEngine :=
  mkKVS (last_ci e) (last_bci e)
    (mkKVSState (retain_versions (λ v, v.1 <=? rolled_back_blocks) (ci_state (kvs_state e))) (bci_state (kvs_state e))).

Definition kvs_unlogged_op (s : KVSState) (op : ProtoTransactionOp) : option (list ProtoTransactionOpResult) :=
  match operands op with
  | [key] =>
      result ← kvs_read s key;
      Some [match result with Some value => mkOpResult true [value] | None => mkOpResult false [] end]
  | _ => Some []
  end.

Definition kvs_unlogged (request : ProtoTransaction) (e : KVSAppEngine) : option (ProtoTransactionResult * KVSAppEngine) :=
  match on_receive request with
  | None => Some (mkTxResult [], e)
  | Some ph =>
      rs ← mapM (kvs_unlogged_op (kvs_state e)) (phase_ops ph);
      Some (mkTxResult (concat rs), e)
  end.

#[export] Instance kvs_engine `{HashIter} : AppEngine KVSAppEngine := {
  eng_new := λ _, kvs_new;
  eng_crash_commit := kvs_crash_commit;
  eng_byz_commit := kvs_byz_commit;
  eng_rollback := kvs_rollback;
  eng_unlogged := kvs_unlogged }.

(** * The specification: transactions on a plain map *)

Definition spec_op (m : gmap bytes bytes) (op : ProtoTransactionOp)
    : option (gmap bytes bytes * list ProtoTransactionOpResult) :=
  match op_type_from_i32 (op_type op), operands op with
  | Some Write, [key; val] => Some (<[key := val]> m, [mkOpResult true []])
  | Some Read, [key] => Some (m, match m !! key with Some v => [mkOpResult true [v]] | None => [] end)
  | Some Increment, ([key] as ops | [key; _] as ops | [key; _; _] as ops) =>
      result ← from_option i64_from_be (Some 0) (m !! key);
      let val := increment_result ops result in
      Some (<[key := val]> m, [mkOpResult true [val]])
  | Some Cas, ops =>
      if (length ops mod 3 =? 0)%nat then
        let cas := cas_ops ops in
        let read_vals := map (λ o, default [] (m !! o.1.1)) cas in
        if cas_matches read_vals cas
        then Some (fold_left (λ m o, <[o.1.1 := o.1.2]> m) cas m, [mkOpResult true read_vals])
        else Some (m, [mkOpResult false read_vals])
      else Some (m, [])
  | _, _ => Some (m, [])
  end.

Definition spec_block (m : gmap bytes bytes) (b : CachedBlock)
    : option (gmap bytes bytes * list ProtoTransactionResult) := exec_txs spec_op m b.

(** The store after the blocks of a log. *)
Definition spec_store (log : list CachedBlock) : option (gmap bytes bytes) := fst <$> run_all spec_block ∅ log.

Definition block_n (b : CachedBlock) : Z := pb_n (cb_block b).
Definition upto (m : Z) (log : list CachedBlock) : list CachedBlock := retain (λ b, block_n b <=? m) log.

(** The log an engine has executed, its byzantine commit index and its last block number. *)
Record EngineLog := mkEngineLog { el_blocks : list CachedBlock; el_bci : Z; el_top : Z }.

Fixpoint numbered_above (t : Z) (bs : list CachedBlock) : bool :=
  match bs with
  | [] => true
  | b :: bs' => (t <? block_n b) && numbered_above (block_n b) bs'
  end.
Definition last_n_or (d : Z) (bs : list CachedBlock) : Z := fold_left (λ _ b, block_n b) bs d.
(** No transaction has a byzantine phase. *)
Definition byz_silent (bs : list CachedBlock) : bool :=
  forallb (λ b, forallb (λ tx, bool_decide (on_byzantine_commit tx = None)) (pb_tx_list (cb_block b))) bs.

(** What a command does to the log: commits above the last block extend it, byzantine
    commits raise the index, rollbacks (not below the index) cut it. *)
Definition log_step (st : EngineLog) (cmd : AppCommand) : option (EngineLog * list (list ProtoTransactionResult)) :=
  let '(mkEngineLog E b t) := st in
  match cmd with
  | CrashCommit bs =>
      if numbered_above t bs then
        m ← spec_store E;
        '(_, rs) ← run_all spec_block m bs;
        Some (mkEngineLog (E ++ bs) b (last_n_or t bs), rs)
      else None
  | ByzCommit bs =>
      let b' := last_n_or b bs in
      if byz_silent bs && (b <=? b') && (b' <=? t) then Some (mkEngineLog E b' t, []) else None
  | Rollback r => if b <=? r then Some (mkEngineLog (upto r E) b (Z.min t r), []) else None
  | NewRequestBatch _ _ _ _ _ _ => Some (st, [])
  end.

Definition kvs_step `{HashIter} (e : KVSAppEngine) (cmd : AppCommand)
    : option (KVSAppEngine * list (list ProtoTransactionResult)) :=
  match cmd with
  | CrashCommit bs => '(rs, e') ← eng_crash_commit bs e; Some (e', rs)
  | ByzCommit bs => '(_, e') ← eng_byz_commit bs e; Some (e', [])
  | Rollback r => Some (eng_rollback r e, [])
  | NewRequestBatch _ _ _ _ _ _ => Some (e, [])
  end.

(** * Traversals *)

Section run_all_lemmas.
Context {S T A B : Type}.

Lemma run_all_sim (R : S → T → Prop) (f : S → A → option (S * B)) (g : T → A → option (T * B)) l s t t' bs :
  (∀ s t x t' b, x ∈ l → R s t → g t x = Some (t', b) → ∃ s', f s x = Some (s', b) ∧ R s' t') →
  R s t → run_all g t l = Some (t', bs) → ∃ s', run_all f s l = Some (s', bs) ∧ R s' t'.
Proof.
  revert s t t' bs. induction l as [|x l IH]; intros s t t' bs Hsim HR Hg; simplify_eq/=; [eauto|].
  destruct (g t x) as [[t1 b]|] eqn:Hx; simplify_eq/=.
  destruct (run_all g t1 l) as [[t2 bs']|] eqn:Hl; simplify_eq/=.
  destruct (Hsim s t x t1 b) as (s1 & -> & HR1); [left|done..|].
  destruct (IH s1 t1 t' bs') as (s2 & Hs2 & HR2); [|done..|].
  { intros s3 t3 x3 t4 b3 Hin. apply Hsim. by right. }
  exists s2. simpl. by rewrite Hs2.
Qed.

Lemma run_all_app (f : S → A → option (S * B)) l1 l2 s :
  run_all f s (l1 ++ l2) =
  ('(s1, b1) ← run_all f s l1; '(s2, b2) ← run_all f s1 l2; Some (s2, b1 ++ b2)).
Proof.
  revert s. induction l1 as [|x l1 IH]; intros s; simpl.
  - by destruct (run_all f s l2) as [[s2 b2]|].
  - destruct (f s x) as [[s1 b]|]; simpl; [|done]. rewrite IH.
    destruct (run_all f s1 l1) as [[s2 bs]|]; simpl; [|done].
    by destruct (run_all f s2 l2) as [[s3 bs']|].
Qed.

Lemma run_all_Forall2 (P : A → B → Prop) (f : S → A → option (S * B)) l s s' bs :
  (∀ s x s' b, f s x = Some (s', b) → P x b) → run_all f s l = Some (s', bs) → Forall2 P l bs.
Proof.
  intros HP. revert s s' bs. induction l as [|x l IH]; intros s s' bs Hr; simplify_eq/=; [constructor|].
  destruct (f s x) as [[s1 b]|] eqn:Hx; simplify_eq/=.
  destruct (run_all f s1 l) as [[s2 bs']|] eqn:Hl; simplify_eq/=. constructor; eauto.
Qed.

End run_all_lemmas.

#[export] Instance kvs_engine_laws `{HashIter} : AppEngineLaws KVSAppEngine.
Proof.
  split; intros bs e rs e'; simpl.
  - unfold kvs_crash_commit. destruct (run_all exec_block e bs) as [[e1 rs1]|] eqn:Hr; [|done].
    intros [= <- <-]. revert Hr. apply run_all_Forall2. intros e2 b e3 r Hb. unfold exec_block, exec_txs in Hb.
    destruct (run_all _ _ _) as [[s4 r4]|] eqn:Ht in Hb; simplify_eq/=.
    apply (run_all_Forall2 (λ _ _, True)) in Ht; [|done]. by apply Forall2_length in Ht.
  - unfold kvs_byz_commit. intros [= <- <-]. induction bs as [|b bs IH]; constructor; [|done].
    unfold per_tx, byz_results. by rewrite length_imap.
Qed.

(** * Versions *)

Definition versions (s : KVSState) (k : bytes) : list (Z * bytes) := default [] (ci_state s !! k).

(** What key [k] reads as at block [m]: its last version up to [m], or the value moved to
    [bci_state]. *)
Definition read_versions (m : Z) (vs : list (Z * bytes)) (d : option bytes) : option bytes :=
  from_option (λ v, Some v.2) d (list.last (retain (λ v, v.1 <=? m) vs)).
Definition read_at (m : Z) (s : KVSState) (k : bytes) : option bytes :=
  read_versions m (versions s k) (bci_state s !! k).

(** The state reads, without a panic, as the map [m]. *)
Definition reads (s : KVSState) (m : gmap bytes bytes) : Prop := ∀ k, kvs_read s k = Some (m !! k).

(** [s'] is [s] after some writes by block [n]. *)
Definition extends (n : Z) (s s' : KVSState) : Prop :=
  bci_state s' = bci_state s ∧
  ∀ k, ∃ l, versions s' k = versions s k ++ l ∧ Forall (λ v, v.1 = n) l.

Lemma extends_refl n s : extends n s s.
Proof. split; [done|]. intros k. exists []. by rewrite app_nil_r. Qed.

Lemma versions_push n key val s k :
  versions (push_version n key val s) k =
  if decide (k = key) then versions s k ++ [(n, val)] else versions s k.
Proof.
  unfold versions, push_version. simpl. case_decide as Hk; subst.
  - by destruct (ci_state s !! key) eqn:Hs; rewrite lookup_insert_eq.
  - by destruct (ci_state s !! key) eqn:Hs; rewrite lookup_insert_ne by done.
Qed.

Lemma extends_push n key val s0 s : extends n s0 s → extends n s0 (push_version n key val s).
Proof.
  intros [Hb Hv]. split; [done|]. intros k. destruct (Hv k) as (l & Hl & Hn).
  rewrite versions_push, Hl. case_decide; [|by eauto].
  exists (l ++ [(n, val)]). rewrite app_assoc. split; [done|]. apply Forall_app. split; [done|]. by repeat constructor.
Qed.

Lemma reads_push n key val s m : reads s m → reads (push_version n key val s) (<[key := val]> m).
Proof.
  intros Hr k. specialize (Hr k). unfold kvs_read, push_version in *. simpl.
  destruct (decide (k = key)) as [->|Hne].
  - rewrite lookup_insert_eq. destruct (ci_state s !! key); rewrite lookup_insert_eq; simpl; [|done].
    by rewrite last_snoc.
  - rewrite (lookup_insert_ne m) by done. destruct (ci_state s !! key); by rewrite lookup_insert_ne by done.
Qed.

(** * One operation *)

Definition op_rel (n : Z) (s0 : KVSState) (s : KVSState) (m : gmap bytes bytes) : Prop :=
  reads s m ∧ extends n s0 s.

Lemma op_rel_push n s0 key val s m :
  op_rel n s0 s m → op_rel n s0 (push_version n key val s) (<[key := val]> m).
Proof. intros []. split; [by apply reads_push|by apply extends_push]. Qed.

Lemma op_rel_cas n s0 (cas : list (bytes * bytes * bytes)) s m :
  op_rel n s0 s m →
  op_rel n s0 (fold_left (λ s o, push_version n o.1.1 o.1.2 s) cas s) (fold_left (λ m o, <[o.1.1 := o.1.2]> m) cas m).
Proof. revert s m. induction cas as [|o cas IH]; intros s m Hr; simpl; [done|]. by apply IH, op_rel_push. Qed.

Lemma cas_reads n s0 s m (cas : list (bytes * bytes * bytes)) :
  op_rel n s0 s m →
  mapM (λ o, r ← kvs_read s o.1.1; Some (default [] r)) cas = Some (map (λ o, default [] (m !! o.1.1)) cas).
Proof.
  intros [Hr _]. induction cas as [|o cas IH]; [done|]. simpl. rewrite (Hr o.1.1). simpl. by rewrite IH.
Qed.

Lemma exec_increment_spec n s0 s m key ops :
  op_rel n s0 s m → (length ops < 3)%nat →
  ∀ m' rs,
  (result ← from_option i64_from_be (Some 0) (m !! key);
   let val := increment_result (key :: ops) result in
   Some (<[key := val]> m, [mkOpResult true [val]])) = Some (m', rs) →
  ∃ s', exec_increment n s (key :: ops) = Some (s', rs) ∧ op_rel n s0 s' m'.
Proof.
  intros HR Hlen m' rs Hspec. pose proof (proj1 HR key) as Hk.
  assert (exec_increment n s (key :: ops) =
    (result ← from_option i64_from_be (Some 0) (m !! key);
     let val := increment_result (key :: ops) result in
     Some (push_version n key val s, [mkOpResult true [val]]))) as ->.
  { destruct ops as [|o1 [|o2 [|]]]; [..|simpl in Hlen; lia]; cbn [exec_increment]; rewrite Hk; simpl;
      by destruct (m !! key). }
  destruct (from_option i64_from_be (Some 0) (m !! key)) as [r|]; simplify_eq/=.
  eexists. split; [done|]. by apply op_rel_push.
Qed.

Lemma exec_op_spec n s0 s m op m' rs :
  op_rel n s0 s m → spec_op m op = Some (m', rs) → ∃ s', exec_op n s op = Some (s', rs) ∧ op_rel n s0 s' m'.
Proof.
  intros HR. unfold spec_op, exec_op. destruct (op_type_from_i32 (op_type op)) as [[]|]; try (intros; simplify_eq; by eauto).
  - destruct (operands op) as [|key [|]]; intros; simplify_eq; try by eauto.
    rewrite (proj1 HR key). simpl. eauto.
  - destruct (operands op) as [|key [|val [|]]]; intros; simplify_eq; try by eauto.
    eexists. split; [done|]. by apply op_rel_push.
  - destruct (operands op) as [|key [|o1 [|o2 [|o3 l]]]]; intros Hs;
      try (eapply exec_increment_spec; [done|simpl; lia|exact Hs]); simplify_eq; by eauto.
  - unfold exec_cas. set (ops := operands op). intros Hs.
    assert (op_rel n s0 s m) as HR' by done.
    destruct (length ops mod 3 =? 0)%nat eqn:Hm; simpl; [|destruct ops as [|? [|? [|? [|]]]]; simplify_eq; by eauto].
    rewrite (cas_reads n s0 s m) by done. simpl.
    assert ((if cas_matches (map (λ o, default [] (m !! o.1.1)) (cas_ops ops)) (cas_ops ops)
             then Some (fold_left (λ m o, <[o.1.1 := o.1.2]> m) (cas_ops ops) m,
                        [mkOpResult true (map (λ o, default [] (m !! o.1.1)) (cas_ops ops))])
             else Some (m, [mkOpResult false (map (λ o, default [] (m !! o.1.1)) (cas_ops ops))])) =
            Some (m', rs)) as Hs' by (rewrite <-Hs; by destruct ops as [|? [|? [|? [|]]]]).
    destruct (cas_matches _ _); simplify_eq; eexists; (split; [done|]); [by apply op_rel_cas|done].
Qed.

Lemma exec_txs_spec n s m b m' rs :
  reads s m → spec_block m b = Some (m', rs) →
  ∃ s', exec_txs (exec_op n) s b = Some (s', rs) ∧ reads s' m' ∧ extends n s s'.
Proof.
  intros Hr. unfold spec_block, exec_txs. apply (run_all_sim (op_rel n s)); [|by split; [|apply extends_refl]].
  intros s1 m1 tx m2 r _ HR. unfold exec_tx. destruct (on_crash_commit tx) as [ph|]; [|intros; simplify_eq; by eauto].
  destruct (run_all spec_op m1 (phase_ops ph)) as [[m3 rss]|] eqn:Hops; intros; simplify_eq/=.
  destruct (run_all_sim (op_rel n s) (exec_op n) spec_op (phase_ops ph) s1 m1 m2 rss) as (s2 & -> & HR2);
    [|done..|by eauto].
  intros s3 m4 op m5 r5 _. apply exec_op_spec.
Qed.

(** * The invariant *)

(** At every block from the byzantine commit index on, the versions read as the
    specification run on the log up to that block. *)
Record kvs_inv (L : EngineLog) (s : KVSState) : Prop := {
  kvs_ne : ∀ k vs, ci_state s !! k = Some vs → vs ≠ [];
  kvs_sorted : ∀ k, StronglySorted Z.le (map fst (versions s k));
  kvs_top : ∀ k v, v ∈ versions s k → v.1 ≤ el_top L;
  kvs_log_top : ∀ b, b ∈ el_blocks L → block_n b ≤ el_top L;
  kvs_bci_top : el_bci L ≤ el_top L;
  kvs_reads : ∀ m, el_bci L ≤ m →
    ∃ M, spec_store (upto m (el_blocks L)) = Some M ∧ ∀ k, read_at m s k = M !! k }.

Lemma upto_all m log : (∀ b, b ∈ log → block_n b ≤ m) → upto m log = log.
Proof. intros Hm. apply retain_all. intros b Hb. apply Z.leb_le. by apply Hm. Qed.

Lemma upto_app m l1 l2 : upto m (l1 ++ l2) = upto m l1 ++ upto m l2.
Proof. apply retain_app. Qed.

Lemma upto_upto m r log : upto m (upto r log) = upto (Z.min m r) log.
Proof. unfold upto. rewrite retain_retain. apply retain_ext. intros b _. lia. Qed.

Lemma read_versions_all m vs d :
  (∀ v, v ∈ vs → v.1 ≤ m) → read_versions m vs d = from_option (λ v, Some v.2) d (list.last vs).
Proof.
  intros Hm. unfold read_versions. rewrite retain_all; [done|]. intros v Hv. apply Z.leb_le. by apply Hm.
Qed.

(** Above every version, reading is [kvs_read]. *)
Lemma read_at_top m s k :
  (∀ k vs, ci_state s !! k = Some vs → vs ≠ []) → (∀ v, v ∈ versions s k → v.1 ≤ m) →
  kvs_read s k = Some (read_at m s k).
Proof.
  intros Hne Hm. unfold read_at. rewrite read_versions_all by done. unfold kvs_read, versions in *.
  destruct (ci_state s !! k) as [vs|] eqn:Hk; simpl; [|done].
  destruct (list.last vs) as [[p v]|] eqn:Hl; simpl; [done|]. apply last_None in Hl. by destruct (Hne k vs).
Qed.

Lemma kvs_inv_reads L s :
  kvs_inv L s → ∃ M, spec_store (el_blocks L) = Some M ∧ reads s M.
Proof.
  intros [Hne _ Ht Hlt Hb Hr]. destruct (Hr (el_top L) Hb) as (M & HM & HMr).
  rewrite upto_all in HM by done. exists M. split; [done|]. intros k.
  rewrite (read_at_top (el_top L)), HMr; eauto.
Qed.

Lemma reads_ne s M : reads s M → ∀ k vs, ci_state s !! k = Some vs → vs ≠ [].
Proof. intros Hr k vs Hk ->. specialize (Hr k). unfold kvs_read in Hr. by rewrite Hk in Hr. Qed.

Lemma spec_store_snoc E b : spec_store (E ++ [b]) = (m ← spec_store E; fst <$> spec_block m b).
Proof.
  unfold spec_store. rewrite run_all_app. destruct (run_all spec_block ∅ E) as [[m rs]|]; simpl; [|done].
  by destruct (spec_block m b) as [[m' r]|].
Qed.

Lemma sorted_app_const n (l1 l2 : list (Z * bytes)) :
  StronglySorted Z.le (map fst l1) → (∀ v, v ∈ l1 → v.1 ≤ n) → Forall (λ v, v.1 = n) l2 →
  StronglySorted Z.le (map fst (l1 ++ l2)).
Proof.
  intros Hs Hle Hn. induction l1 as [|v l1 IH]; simpl in *.
  - clear Hle. induction Hn as [|v l2 Hv Hn IH]; simpl; constructor; [done|].
    rewrite Hv. apply Forall_map. eapply Forall_impl; [exact Hn|]. simpl. intros ? ->. lia.
  - apply StronglySorted_inv in Hs as [Hs Hf]. constructor.
    + apply IH; [done|]. intros w Hw. apply Hle. by right.
    + rewrite map_app. apply Forall_app. split; [done|]. apply Forall_map. eapply Forall_impl; [exact Hn|].
      simpl. intros w ->. apply Hle. left.
Qed.

(** ** Crash commit *)

Lemma kvs_inv_block E bc t b s s' M M' rs :
  kvs_inv (mkEngineLog E bc t) s → t < block_n b →
  spec_store E = Some M → spec_block M b = Some (M', rs) →
  reads s' M' → extends (block_n b) s s' →
  kvs_inv (mkEngineLog (E ++ [b]) bc (block_n b)) s'.
Proof.
  intros [Hne Hs Ht Hlt Hb Hr] Hn HM Hspec Hr' [Hbci Hv]. simpl in *.
  assert (∀ k v, v ∈ versions s' k → v.1 ≤ block_n b) as Ht'.
  { intros k v Hin. destruct (Hv k) as (l & Hl & Hf). rewrite Hl in Hin.
    apply elem_of_app in Hin as [Hin|Hin]; [apply Ht in Hin; lia|].
    rewrite Forall_forall in Hf. apply Hf in Hin. lia. }
  split; simpl; [by eapply reads_ne| |done| |lia|].
  - intros k. destruct (Hv k) as (l & -> & Hf). apply (sorted_app_const (block_n b)); [done| |done].
    intros v Hin. apply Ht in Hin. lia.
  - intros b' [Hin| ->%list_elem_of_singleton]%elem_of_app; [|lia]. apply Hlt in Hin. lia.
  - intros m Hm. rewrite upto_app. destruct (Z.lt_ge_cases m (block_n b)) as [Hlt'|Hge].
    + assert (upto m [b] = []) as -> by (simpl; by rewrite (proj2 (Z.leb_gt _ _))).
      rewrite app_nil_r. destruct (Hr m Hm) as (Mm & HMm & Hrd). exists Mm. split; [done|].
      intros k. rewrite <-Hrd. unfold read_at. rewrite Hbci. destruct (Hv k) as (l & -> & Hf).
      unfold read_versions. rewrite retain_app, (retain_none _ l), app_nil_r; [done|].
      intros v Hin. rewrite Forall_forall in Hf. apply Hf in Hin. apply Z.leb_gt. lia.
    + rewrite (upto_all m E), (upto_all m [b]).
      * exists M'. rewrite spec_store_snoc, HM. simpl. rewrite Hspec. split; [done|]. intros k.
        assert (Some (read_at m s' k) = Some (M' !! k)) as [= ?]; [|done].
        rewrite <-(Hr' k). symmetry. apply read_at_top; [by eapply reads_ne|].
        intros v Hin. apply Ht' in Hin. lia.
      * intros b' ->%list_elem_of_singleton. lia.
      * intros b' Hin. apply Hlt in Hin. lia.
Qed.

Lemma kvs_crash_blocks bs E bc t e M M' rs :
  kvs_inv (mkEngineLog E bc t) (kvs_state e) → numbered_above t bs = true →
  spec_store E = Some M → run_all spec_block M bs = Some (M', rs) →
  ∃ e', run_all exec_block e bs = Some (e', rs) ∧ last_bci e' = last_bci e ∧
    kvs_inv (mkEngineLog (E ++ bs) bc (last_n_or t bs)) (kvs_state e').
Proof.
  revert E t e M rs. induction bs as [|b bs IH]; intros E t e M rs Hinv Hab HM Hrun; simplify_eq/=.
  { exists e. by rewrite app_nil_r. }
  apply andb_true_iff in Hab as [Hn%Z.ltb_lt Hab].
  destruct (spec_block M b) as [[M1 r]|] eqn:Hb; simplify_eq/=.
  destruct (run_all spec_block M1 bs) as [[M2 rs']|] eqn:Hbs; simplify_eq/=.
  destruct (kvs_inv_reads _ _ Hinv) as (M0 & HM0 & Hr). simpl in HM0. rewrite HM in HM0. injection HM0 as <-.
  destruct (exec_txs_spec (block_n b) _ _ _ _ _ Hr Hb) as (s' & Hex & Hr' & Hext).
  assert (exec_block e b = Some (mkKVS (block_n b) (last_bci e) s', r)) as Heb
    by (unfold exec_block; fold (block_n b); by rewrite Hex).
  destruct (IH (E ++ [b]) (block_n b) (mkKVS (block_n b) (last_bci e) s') M1 rs') as (e' & He' & Hl & Hinv');
    [by eapply kvs_inv_block|done| |done|].
  { rewrite spec_store_snoc, HM. simpl. by rewrite Hb. }
  exists e'. rewrite Heb. simpl. rewrite He'. simpl. by rewrite <-app_assoc in Hinv'.
Qed.

(** ** Rollback and byzantine commit *)

Lemma versions_retain f ci bci k :
  versions (mkKVSState (retain_versions f ci) bci) k = retain f (default [] (ci !! k)).
Proof.
  unfold versions, retain_versions, hm_retain. simpl.
  destruct (filter _ (retain f <$> ci) !! k) as [vs|] eqn:Hk; simpl.
  - apply map_lookup_filter_Some in Hk as [Hk _]. rewrite lookup_fmap in Hk.
    by destruct (ci !! k); simplify_eq/=.
  - rewrite map_lookup_filter_None, lookup_fmap in Hk. destruct (ci !! k) as [vs|]; simpl in *; [|done].
    destruct Hk as [|Hk]; [done|]. specialize (Hk _ eq_refl). simpl in Hk. by destruct (retain f vs).
Qed.

Lemma retain_versions_ne f ci k vs : retain_versions f ci !! k = Some vs → vs ≠ [].
Proof. intros [_ Hl]%lookup_hm_retain. by destruct vs. Qed.

Lemma sorted_retain f (l : list (Z * bytes)) :
  StronglySorted Z.le (map fst l) → StronglySorted Z.le (map fst (retain f l)).
Proof.
  induction l as [|v l IH]; simpl; intros Hs; [done|].
  apply StronglySorted_inv in Hs as [Hs Hf]. destruct (f v); simpl; [|by apply IH].
  constructor; [by apply IH|]. rewrite Forall_forall in Hf |- *. intros z (w & -> & Hw)%elem_of_map.
  apply elem_of_retain in Hw as [_ Hw]. apply Hf, elem_of_map. eauto.
Qed.

Lemma kvs_inv_rollback E bc t r s :
  kvs_inv (mkEngineLog E bc t) s → bc ≤ r →
  kvs_inv (mkEngineLog (upto r E) bc (Z.min t r))
    (mkKVSState (retain_versions (λ v, v.1 <=? r) (ci_state s)) (bci_state s)).
Proof.
  intros [Hne Hs Ht Hlt Hb Hr] Hbr. simpl in *. split; simpl; [by eapply retain_versions_ne| | | |lia|].
  - intros k. rewrite versions_retain. by apply sorted_retain, Hs.
  - intros k v. rewrite versions_retain. intros [Hv%Z.leb_le Hin]%elem_of_retain. apply Ht in Hin. lia.
  - intros b [Hv%Z.leb_le Hin]%elem_of_retain. apply Hlt in Hin. lia.
  - intros m Hm. rewrite upto_upto. destruct (Hr (Z.min m r)) as (M & HM & HMr); [lia|]. exists M.
    split; [done|]. intros k. rewrite <-HMr. unfold read_at, read_versions. rewrite versions_retain. simpl.
    rewrite retain_retain. fold (versions s k). f_equal. f_equal. apply retain_ext. intros v _. lia.
Qed.

Lemma move_versions_lookup b bci key vs k :
  move_versions b bci (key, vs) !! k =
  if decide (k = key) then read_versions b vs (bci !! k) else bci !! k.
Proof.
  unfold move_versions, read_versions. simpl. revert bci.
  induction vs as [|v vs IH] using rev_ind; intros bci; [by case_decide|].
  rewrite fold_left_app. simpl. rewrite retain_app. simpl. destruct (v.1 <=? b).
  - rewrite last_snoc. simpl. case_decide as Hk; [subst; by rewrite lookup_insert_eq|].
    rewrite lookup_insert_ne by done. rewrite IH. by destruct (decide (k = key)).
  - rewrite app_nil_r. apply IH.
Qed.

Lemma move_all_lookup b (l : list (bytes * list (Z * bytes))) bci k :
  NoDup l.*1 →
  (∀ vs, (k, vs) ∈ l → fold_left (move_versions b) l bci !! k = read_versions b vs (bci !! k)) ∧
  (k ∉ l.*1 → fold_left (move_versions b) l bci !! k = bci !! k).
Proof.
  revert bci. induction l as [|[key vs] l IH]; intros bci Hnd; simpl.
  - split; [intros vs Hin; by apply not_elem_of_nil in Hin|done].
  - apply NoDup_cons in Hnd as [Hkey Hnd]. destruct (IH (move_versions b bci (key, vs)) Hnd) as [IH1 IH2]. split.
    + intros vs' [[= -> ->]|Hin]%elem_of_cons.
      * rewrite IH2 by done. rewrite move_versions_lookup. by rewrite decide_True.
      * rewrite (IH1 _ Hin), move_versions_lookup, decide_False; [done|].
        intros ->. apply Hkey, list_elem_of_fmap. by exists (key, vs').
    + intros [Hne Hni]%not_elem_of_cons. rewrite IH2, move_versions_lookup by done. by rewrite decide_False.
Qed.

Lemma byz_moved_lookup `{HIt : HashIter} b ci bci k :
  fold_left (move_versions b) (hm_iter ci) bci !! k = read_versions b (default [] (ci !! k)) (bci !! k).
Proof.
  destruct (move_all_lookup b (hm_iter ci) bci k (NoDup_hm_keys ci)) as [H1 H2].
  destruct (ci !! k) as [vs|] eqn:Hk; simpl.
  - by apply H1, elem_of_hm_iter.
  - rewrite H2; [done|]. intros [vs Hs]%(elem_of_hm_keys ci). congruence.
Qed.

Lemma retain_split b m (vs : list (Z * bytes)) :
  StronglySorted Z.le (map fst vs) → b ≤ m →
  retain (λ v, v.1 <=? m) vs = retain (λ v, v.1 <=? b) vs ++ retain (λ v, v.1 <=? m) (retain (λ v, v.1 >? b) vs).
Proof.
  intros Hs Hbm. induction vs as [|v vs IH]; [done|]. simpl in *. apply StronglySorted_inv in Hs as [Hs Hf].
  destruct (Z.leb_spec v.1 b) as [Hle|Hgt].
  - rewrite Z.gtb_ltb, (proj2 (Z.ltb_ge _ _)), (proj2 (Z.leb_le v.1 m)) by lia. simpl. by rewrite IH.
  - rewrite Z.gtb_ltb, (proj2 (Z.ltb_lt _ _)) by lia.
    rewrite (retain_none (λ v, v.1 <=? b) vs).
    + simpl. rewrite (retain_all (λ v, v.1 >? b) vs); [done|]. intros w Hw. rewrite Forall_forall in Hf.
      specialize (Hf w.1 ltac:(apply elem_of_map; eauto)). lia.
    + intros w Hw. rewrite Forall_forall in Hf. specialize (Hf w.1 ltac:(apply elem_of_map; eauto)). lia.
Qed.

Lemma byz_silent_noop (bs : list CachedBlock) (bci : gmap bytes bytes) :
  byz_silent bs = true → fold_left (λ bci b, fold_left byz_tx (pb_tx_list (cb_block b)) bci) bs bci = bci.
Proof.
  intros Hs. induction bs as [|b bs IH]; [done|]. simpl in Hs. apply andb_true_iff in Hs as [Hb Hs].
  simpl. rewrite <-(IH Hs) at 2. f_equal. revert Hb. clear. induction (pb_tx_list (cb_block b)) as [|tx txs IH]; [done|].
  simpl. intros [Htx%bool_decide_eq_true_1 Htxs]%andb_true_iff. unfold byz_tx at 2. rewrite Htx. by apply IH.
Qed.

Lemma kvs_inv_byz `{HIt : HashIter} E bc b t s :
  kvs_inv (mkEngineLog E bc t) s → bc ≤ b → b ≤ t →
  kvs_inv (mkEngineLog E b t)
    (mkKVSState (retain_versions (λ v, v.1 >? b) (ci_state s))
       (fold_left (move_versions b) (hm_iter (ci_state s)) (bci_state s))).
Proof.
  intros [Hne Hs Ht Hlt Hb Hr] Hbb Hbt. simpl in *. split; simpl; [by eapply retain_versions_ne| | |done|lia|].
  - intros k. rewrite versions_retain. by apply sorted_retain, Hs.
  - intros k v. rewrite versions_retain. intros [_ Hin]%elem_of_retain. by eapply Ht.
  - intros m Hm. destruct (Hr m) as (M & HM & HMr); [lia|]. exists M. split; [done|]. intros k. rewrite <-HMr.
    unfold read_at. rewrite versions_retain. simpl. rewrite byz_moved_lookup. fold (versions s k).
    unfold read_versions. rewrite (retain_split b m (versions s k)) by (done || lia).
    rewrite last_app. by destruct (list.last (retain _ (retain _ _))).
Qed.

(** ** Every command *)

Definition engine_rel (e : KVSAppEngine) (L : EngineLog) : Prop :=
  kvs_inv L (kvs_state e) ∧ last_bci e = el_bci L.

Lemma engine_rel_new : engine_rel kvs_new (mkEngineLog [] 0 0).
Proof.
  split; [|done]. split; simpl.
  - intros k vs Hk. by rewrite lookup_empty in Hk.
  - intros k. constructor.
  - intros k v Hin. by apply not_elem_of_nil in Hin.
  - intros b Hin. by apply not_elem_of_nil in Hin.
  - done.
  - intros m _. exists ∅. split; [done|]. done.
Qed.

Lemma kvs_step_spec `{HIt : HashIter} e L cmd L' rs :
  engine_rel e L → log_step L cmd = Some (L', rs) → ∃ e', kvs_step e cmd = Some (e', rs) ∧ engine_rel e' L'.
Proof.
  intros [Hinv Hbc] Hstep. destruct L as [E bc t], cmd as [?????? |bs|bs|r]; simpl in *.
  - simplify_eq. by exists e.
  - destruct (numbered_above t bs) eqn:Hab; [|done].
    destruct (spec_store E) as [M|] eqn:HM; simplify_eq/=.
    destruct (run_all spec_block M bs) as [[M' rs']|] eqn:Hrun; simplify_eq/=.
    destruct (kvs_crash_blocks bs E (last_bci e) t e M M' rs) as (e' & He' & Hl & Hinv'); [done..|].
    exists e'. unfold kvs_crash_commit. rewrite He'. done.
  - destruct (byz_silent bs) eqn:Hsil, (Z.leb_spec bc (last_n_or bc bs)), (Z.leb_spec (last_n_or bc bs) t);
      simplify_eq/=.
    eexists. split; [done|]. split; simpl; [|done].
    rewrite byz_silent_noop by done. by apply (kvs_inv_byz E (last_bci e)).
  - destruct (Z.leb_spec bc r); simplify_eq/=. eexists. split; [done|]. split; simpl; [|done].
    by apply kvs_inv_rollback.
Qed.

(** C12: The versioned store implements the replicated log.  Take any sequence of
    crash commits of blocks numbered above the last one, byzantine commits of executed
    prefixes without byzantine phases, and rollbacks to blocks at or above the byzantine
    commit index, in any interleaving, for which the transactions are well formed.  The
    engine executes it without a panic, returns for every transaction the results of
    executing the log in order on a plain map, and afterwards every key reads as the map
    obtained by executing, from scratch, just the blocks left in the log. *)
Theorem kvs_refines_log `{HIt : HashIter} cmds L outs :
  run_all log_step (mkEngineLog [] 0 0) cmds = Some (L, outs) →
  ∃ e M, run_all kvs_step kvs_new cmds = Some (e, outs) ∧
    spec_store (el_blocks L) = Some M ∧ ∀ k, kvs_read (kvs_state e) k = Some (M !! k).
Proof.
  intros Hrun.
  destruct (run_all_sim engine_rel kvs_step log_step cmds kvs_new (mkEngineLog [] 0 0) L outs)
    as (e & He & [Hinv _]); [|by apply engine_rel_new|done|].
  { intros e L1 cmd L2 rs _. apply kvs_step_spec. }
  destruct (kvs_inv_reads _ _ Hinv) as (M & HM & Hr). by exists e, M.
Qed.

Definition toy_op (t : ProtoTransactionOpType) (args : list bytes) : ProtoTransactionOp := mkOp (op_type_to_i32 t) args.
Definition toy_block (n : Z) (ops : list ProtoTransactionOp) : CachedBlock :=
  mkCached (mkBlock [mkTx None (Some (mkPhase ops)) None false false] n [] 1 [] [] true 0 None) [] [].
Definition key_a : bytes := [Byte.x61].
Definition toy_commands : list AppCommand :=
  [CrashCommit [toy_block 1 [toy_op Increment [key_a]]; toy_block 2 [toy_op Increment [key_a; be_bytes 8 5]]];
   ByzCommit [toy_block 1 [toy_op Increment [key_a]]];
   CrashCommit [toy_block 3 [toy_op Write [key_a; [Byte.xff]]]];
   Rollback 1;
   CrashCommit [toy_block 2 [toy_op Cas [key_a; [Byte.x07]; be_bytes 8 1]; toy_op Read [key_a]]]].

Lemma kvs_refines_log_witness :
  let it := map_to_list_iter in
  ∃ e M, run_all kvs_step kvs_new toy_commands =
      Some (e, [[[mkTxResult [mkOpResult true [be_bytes 8 1]]]; [mkTxResult [mkOpResult true [be_bytes 8 6]]]]; [];
                [[mkTxResult [mkOpResult true []]]]; [];
                [[mkTxResult [mkOpResult true [be_bytes 8 1]; mkOpResult true [[Byte.x07]]]]]]) ∧
    spec_store (el_blocks (mkEngineLog
      [toy_block 1 [toy_op Increment [key_a]];
       toy_block 2 [toy_op Cas [key_a; [Byte.x07]; be_bytes 8 1]; toy_op Read [key_a]]] 1 2)) = Some M ∧
    ∀ k, kvs_read (kvs_state e) k = Some (M !! k).
Proof. intros it. apply kvs_refines_log. vm_compute. reflexivity. Defined.

(** * Divergences *)

(** A rollback to the byzantine commit index leaves one block too many in the engine.
    When staging asks for a rollback to a block at or below the index [b], the application
    rolls the engine back to [b + 1]: a key written by the discarded block [b + 1] still
    reads as that write, while the rollback staging asked for restores the value before
    it. *)
Lemma app_rollback_keeps_block `{HIt : HashIter} (s : Application KVSAppEngine) r key v vs :
  let e := app_engine s in
  let b := st_bci (app_stats s) in
  0 ≤ r ≤ b → b + 1 < 2 ^ 64 →
  versions (kvs_state e) key = vs ++ [(b + 1, v)] → Forall (λ w, w.1 ≤ b) vs →
  ∃ s', app_rollback r s = Some (tt, s', []) ∧
    kvs_read (kvs_state (app_engine s')) key = Some (Some v) ∧
    kvs_read (kvs_state (kvs_rollback r e)) key = Some (read_versions r vs (bci_state (kvs_state e) !! key)).
Proof.
  intros e b Hr Hb Hv Hvs. eexists. split; [done|].
  assert (∀ m, kvs_read (kvs_state (kvs_rollback m e)) key =
    Some (read_versions m (vs ++ [(b + 1, v)]) (bci_state (kvs_state e) !! key))) as Hread.
  { intros m. rewrite (read_at_top m) by
      (first [apply retain_versions_ne | intros w Hw; unfold kvs_rollback in Hw; simpl in Hw;
        rewrite versions_retain in Hw; apply elem_of_retain in Hw as [Hw _]; by apply Z.leb_le]).
    unfold read_at, read_versions, kvs_rollback. simpl. rewrite versions_retain, retain_retain.
    fold (versions (kvs_state e) key). rewrite Hv. do 3 f_equal. apply retain_ext. intros w _. by destruct (_ <=? _). }
  split.
  - change (kvs_read (kvs_state (kvs_rollback (if r <=? b then b ⊕ 1 else r) e)) key = Some (Some v)).
    rewrite (proj2 (Z.leb_le r b)), u64_add_small, Hread by lia. unfold read_versions. rewrite retain_app. simpl. rewrite (proj2 (Z.leb_le _ _)) by lia.
    by rewrite last_snoc.
  - rewrite Hread. unfold read_versions. rewrite retain_app. simpl. rewrite (proj2 (Z.leb_gt _ _)) by lia.
    by rewrite app_nil_r.
Qed.

Lemma app_rollback_keeps_block_witness :
  let it := map_to_list_iter in
  let st := mkLogStats 2 1 1 false true 2 0 [] 0 0 0 0 0 in
  let s := mkApplication (mkKVS 2 1 (mkKVSState {[ key_a := [(2, [Byte.x02])] ]} {[ key_a := [Byte.x01] ]})) st in
  ∃ s', app_rollback 1 s = Some (tt, s', []) ∧
    kvs_read (kvs_state (app_engine s')) key_a = Some (Some [Byte.x02]) ∧
    kvs_read (kvs_state (kvs_rollback 1 (app_engine s))) key_a = Some (Some [Byte.x01]).
Proof.
  intros it st s.
  apply (app_rollback_keeps_block s 1 key_a [Byte.x02] []); [simpl; lia|simpl; lia|done|constructor].
Defined.

(** A client can stop every replica.  A transaction that writes a value which is
    not eight bytes long and increments the key panics the engine of each node that
    crash-commits it, whatever the state of the store: the handler has no result. *)
Lemma increment_short_value_aborts (e : KVSAppEngine) n h key val :
  length val ≠ 8%nat →
  kvs_crash_commit
    [mkCached (mkBlock [mkTx None (Some (mkPhase [toy_op Write [key; val]; toy_op Increment [key]])) None false false]
                 n [] 1 [] [] true 0 None) [] h] e = None.
Proof.
  intros Hval. unfold kvs_crash_commit. simpl. unfold exec_block, exec_txs. simpl. unfold exec_tx. simpl.
  assert (kvs_read (push_version n key val (kvs_state e)) key = Some (Some val)) as Hr.
  { unfold kvs_read, push_version. simpl.
    destruct (ci_state (kvs_state e) !! key); rewrite lookup_insert_eq; [by rewrite last_snoc|done]. }
  assert (i64_from_be val = None) as Hi by (unfold i64_from_be; by rewrite (proj2 (Nat.eqb_neq _ _))).
  unfold exec_op at 1. simpl. unfold exec_op. simpl. rewrite Hr. simpl. by rewrite Hi.
Qed.

Lemma increment_short_value_aborts_witness :
  kvs_crash_commit [toy_block 1 [toy_op Write [key_a; [Byte.x01]]; toy_op Increment [key_a]]] kvs_new = None.
Proof. apply (increment_short_value_aborts kvs_new 1 [] key_a [Byte.x01]). done. Defined.
