(* ===== verification/Sequencer.v ===== *)
(** The batch proposer (src/src/consensus/batch_proposal.rs) and the block sequencer
    (src/src/consensus/block_sequencer.rs): transactions are collected into batches, and
    batches become blocks chained to the previous one, signed at least every
    [signature_max_delay_blocks] blocks.  Theorems: batches lose, duplicate and reorder no
    request; a leader's term is one hash chain from the fork it chose. *)

From stdpp Require Import base numbers list gmap strings option sorting.
From S2P Require Import Prelude Types Config Serialize Crypto Chain ClientReply.

(** * Batch proposer *)

Abbreviation RawBatch := (list ProtoTransaction).
Abbreviation TxWithAckChanTag := (option ProtoTransaction * MsgAckChanWithTag)%type.

(** [last_batch_proposed] and the timer appear as the flag of the timer events. *)
Record BatchProposer := mkBatchProposer {
  current_raw_batch : RawBatch;
  current_reply_vec : list MsgAckChanWithTag;
  make_new_batches : bool;
  current_leader : string }.

Inductive BatchMsg :=
  | BmBatch (batch : RawBatch) (replies : list MsgAckChanWithTag)
  | BmUnlogged (tx : ProtoTransaction) (chan : MsgAckChanWithTag)
  | BmProbe (block_n : Z) (chan : MsgAckChanWithTag)
  | BmReplyLeader (chan : nat) (r : ProtoClientReply).

(** [elapsed]: more than [batch_max_delay_ms] since the last batch. *)
Inductive BatchEvent :=
  | BpTx (tx : TxWithAckChanTag) (elapsed : bool)
  | BpCommand (make_new_batches : bool) (current_leader : string)
  | BpTick.

Section batch_proposer.
Context (feat : Features) (cfg : Config) (node_infos : string).

Abbreviation BP := (M BatchProposer BatchMsg).

(** [None] is a panic of [get_leader_for_view]. *)
Definition batch_proposer_new : option BatchProposer :=
  if f_view_change feat then Some (mkBatchProposer [] [] false "")
  else
    leader ← get_leader_for_view feat (consensus_config cfg) 1;
    Some (mkBatchProposer [] [] (bool_decide (leader = net_name cfg)) leader).

Definition bp_i_am_leader (s : BatchProposer) : bool := bool_decide (net_name cfg = current_leader s).

Definition is_probe_tx (tx : ProtoTransaction) : bool * Z :=
  match on_receive tx with
  | Some (mkPhase [mkOp t [block_n]]) =>
      if t =? op_type_to_i32 Probe then
        if (length block_n =? 8)%nat then (true, from_be block_n) else (false, 0)
      else (false, 0)
  | _ => (false, 0)
  end.

Definition filter_unlogged_request (tx : TxWithAckChanTag) : BP (option TxWithAckChanTag) :=
  let '(tx, ack_chan) := tx in
  tx ← unwrap tx;
  match on_receive tx with
  | Some _ =>
      let '(is_probe, block_n) := is_probe_tx tx in
      _ ← emit (if is_probe then BmProbe block_n ack_chan else BmUnlogged tx ack_chan);
      mret None
  | None => mret (Some (Some tx, ack_chan))
  end.

Definition reply_leader (c : MsgAckChanWithTag) : BP unit :=
  s ← get;
  emit (BmReplyLeader (ack_chan c) (mkClientReply (Some (Leader (current_leader s) node_infos)) (ack_tag c))).

Definition propose_new_batch : BP unit :=
  s ← get;
  _ ← modify (λ s, mkBatchProposer [] [] (make_new_batches s) (current_leader s));
  emit (BmBatch (current_raw_batch s) (current_reply_vec s)).

(** The tail of the worker: propose when the batch is full or the timer has fired. *)
Definition maybe_propose (batch_timer_tick : bool) : BP unit :=
  s ← get;
  if (max_backlog_batch_size (consensus_config cfg) <=? length (current_raw_batch s))%nat
     || (make_new_batches s && batch_timer_tick)
  then propose_new_batch else mret tt.

Definition bp_handle_tx (tx : TxWithAckChanTag) (elapsed : bool) : BP unit :=
  new_tx ← filter_unlogged_request tx;
  match new_tx with
  | None => maybe_propose elapsed
  | Some (tx, c) =>
      s ← get;
      if negb (bp_i_am_leader s) then reply_leader c
      else
        match tx with
        | None => mret tt
        | Some tx =>
            _ ← modify (λ s, mkBatchProposer (current_raw_batch s ++ [tx]) (current_reply_vec s ++ [c])
                               (make_new_batches s) (current_leader s));
            maybe_propose elapsed
        end
  end.

Definition batch_worker (ev : BatchEvent) : BP unit :=
  match ev with
  | BpTx tx elapsed => bp_handle_tx tx elapsed
  | BpCommand b l => modify (λ s, mkBatchProposer (current_raw_batch s) (current_reply_vec s) b l)
  | BpTick => maybe_propose true
  end.

End batch_proposer.

(** * Block sequencer *)

Record BlockSequencer := mkSequencer {
  current_qc_list : list ProtoQuorumCertificate;
  parent_hash_rx : FutureHash;
  seq_num : Z;
  sq_view : Z;
  sq_config_num : Z;
  sq_view_is_stable : bool;
  force_sign_next_batch : bool;
  last_signed_seq_num : Z;
  last_qc_n_seen : Z;
  blocks_proposed_in_this_view : Z }.

Inductive SequencerMsg :=
  | SqClientReply (batch_hash : HashType) (replies : list MsgAckChanWithTag)
  | SqBroadcast (n : Z) (b : CachedBlock).

Inductive SequencerEvent :=
  | SqQcs (qcs : list ProtoQuorumCertificate)
  | SqTick
  | SqBatch (batch : RawBatch) (replies : list MsgAckChanWithTag)
  | SqControl (cmd : BlockSequencerControlCommand).

Section sequencer.
Context `{Codec, Ed25519} (feat : Features) (cfg : Config) (ks : KeyStore).

Abbreviation SQ := (M BlockSequencer SequencerMsg).

Definition sequencer_new : BlockSequencer :=
  let vc := f_view_change feat in
  mkSequencer [] FHNone 0 (if vc then 0 else 1) (if vc then 0 else 1) (negb vc) false 0 0 0.

(** [None] is a panic of [get_leader_for_view]. *)
Definition sq_i_am_leader (s : BlockSequencer) : option bool :=
  leader ← get_leader_for_view feat (consensus_config cfg) (sq_view s);
  Some (bool_decide (leader = net_name cfg)).

(** The certificates of another view are dropped. *)
Definition add_qc (s : BlockSequencer) (qc : ProtoQuorumCertificate) : BlockSequencer :=
  if negb (qc_view qc =? sq_view s) then s
  else mkSequencer (current_qc_list s ++ [qc]) (parent_hash_rx s) (seq_num s) (sq_view s) (sq_config_num s)
         (sq_view_is_stable s) (force_sign_next_batch s) (last_signed_seq_num s)
         (if qc_n qc >? last_qc_n_seen s then qc_n qc else last_qc_n_seen s) (blocks_proposed_in_this_view s).
Definition add_qcs (qcs : list ProtoQuorumCertificate) : SQ unit := modify (λ s, fold_left add_qc qcs s).

Definition must_sign (s : BlockSequencer) : SQ bool :=
  match sign_mode feat with
  | AlwaysSign => mret true
  | NeverSign => mret false
  | DynamicSign =>
      if force_sign_next_batch s
         || (signature_max_delay_blocks (consensus_config cfg) <=? seq_num s ⊖ last_signed_seq_num s)
      then mret true
      else
        i_am_leader ← unwrap (sq_i_am_leader s);
        mret (i_am_leader && negb (sq_view_is_stable s))
  end.

(** The crypto service prepares the block; the hash of the block is the parent of the next. *)
Definition handle_new_batch (batch : RawBatch) (replies : list MsgAckChanWithTag)
    (fork_validation : list ProtoForkValidation) : SQ unit :=
  _ ← modify (λ s, mkSequencer (current_qc_list s) (parent_hash_rx s) (seq_num s ⊕ 1) (sq_view s) (sq_config_num s)
        (sq_view_is_stable s) (force_sign_next_batch s) (last_signed_seq_num s) (last_qc_n_seen s)
        (blocks_proposed_in_this_view s));
  s ← get;
  let n := seq_num s in
  sign ← must_sign s;
  let sign : bool := sign in
  let qc_list := if sign then current_qc_list s else [] in
  let block := mkBlock batch n [] (sq_view s) qc_list fork_validation (sq_view_is_stable s) (sq_config_num s) (Some NoSig) in
  cb ← unwrap (prepare_block ks block sign (parent_hash_rx s));
  _ ← modify (λ s, mkSequencer (if sign then [] else current_qc_list s) (FHFuture (Some (cb_hash cb))) (seq_num s)
        (sq_view s) (sq_config_num s) (sq_view_is_stable s) (if sign then false else force_sign_next_batch s)
        (if sign then n else last_signed_seq_num s) (last_qc_n_seen s) (blocks_proposed_in_this_view s));
  _ ← emit (SqClientReply (cb_hash cb) replies);
  emit (SqBroadcast n cb).

Definition follow_view (v c : Z) (stable : bool) (keep : ProtoQuorumCertificate → bool) (last_qc : Z)
    (s : BlockSequencer) : BlockSequencer :=
  mkSequencer (retain keep (current_qc_list s)) (parent_hash_rx s) (seq_num s) v c stable
    (force_sign_next_batch s) (last_signed_seq_num s) last_qc 0.

Definition handle_control_command (cmd : BlockSequencerControlCommand) : SQ unit :=
  match cmd with
  | NewUnstableView v c => modify (λ s, follow_view v c false (λ e, v <=? qc_view e) (seq_num s) s)
  | ViewStabilised v c => modify (λ s, follow_view v c true (λ e, v <=? qc_view e) (seq_num s) s)
  | NewViewMessage v c fork_validation new_parent_hash new_seq_num =>
      _ ← modify (λ s, follow_view v c false (λ e, qc_view e =? v) new_seq_num s);
      s ← get;
      leader ← unwrap (sq_i_am_leader s);
      if negb leader then mret tt
      else
        _ ← modify (λ s, mkSequencer (current_qc_list s) (FHImmediate new_parent_hash) new_seq_num (sq_view s)
              (sq_config_num s) (sq_view_is_stable s) (force_sign_next_batch s) (last_signed_seq_num s)
              (last_qc_n_seen s) (blocks_proposed_in_this_view s));
        handle_new_batch [] [] fork_validation
  end.

(** One iteration of the select loop: [queued] is what is waiting in [qc_rx] at its start.
    A tick is not listened to outside a stable view, and a batch that arrives then is
    cancelled with an empty hash. *)
Definition sequencer_worker (queued : list ProtoQuorumCertificate) (ev : SequencerEvent) : SQ unit :=
  s ← get;
  listen_for_new_batch ← (if sq_view_is_stable s then unwrap (sq_i_am_leader s) else mret false);
  let listen_for_new_batch : bool := listen_for_new_batch in
  _ ← (if negb (no_qc feat) && (0 <? length queued)%nat
          && (negb (no_pipeline feat) || (length (current_qc_list s) =? 0)%nat)
       then add_qcs queued else mret tt);
  match ev with
  | SqQcs qcs => add_qcs qcs
  | SqControl cmd => handle_control_command cmd
  | SqTick =>
      if listen_for_new_batch then
        modify (λ s, mkSequencer (current_qc_list s) (parent_hash_rx s) (seq_num s) (sq_view s) (sq_config_num s)
          (sq_view_is_stable s) true (last_signed_seq_num s) (last_qc_n_seen s) (blocks_proposed_in_this_view s))
      else mret tt
  | SqBatch batch replies =>
      if listen_for_new_batch then
        _ ← modify (λ s, mkSequencer (current_qc_list s) (parent_hash_rx s) (seq_num s) (sq_view s) (sq_config_num s)
              (sq_view_is_stable s) (force_sign_next_batch s) (last_signed_seq_num s) (last_qc_n_seen s)
              (blocks_proposed_in_this_view s ⊕ 1));
        handle_new_batch batch replies []
      else emit (SqClientReply [] replies)
  end.

End sequencer.

(** * Batches *)

Definition bp_queue (s : BatchProposer) : list (ProtoTransaction * MsgAckChanWithTag) :=
  zip (current_raw_batch s) (current_reply_vec s).

(** The requests of the batches sent, in order, and the channels of the requests that went
    elsewhere. *)
Definition proposed (es : list BatchMsg) : list (ProtoTransaction * MsgAckChanWithTag) :=
  concat (map (λ m, match m with BmBatch b r => zip b r | _ => [] end) es).
Definition routed (es : list BatchMsg) : list (nat * Z) :=
  concat (map (λ m, match m with
                    | BmBatch _ _ => []
                    | BmUnlogged _ c | BmProbe _ c => [chan_of c]
                    | BmReplyLeader ch r => [(ch, reply_client_tag r)]
                    end) es).
Definition requests (evs : list BatchEvent) : list (ProtoTransaction * MsgAckChanWithTag) :=
  concat (map (λ ev, match ev with BpTx (Some tx, c) _ => [(tx, c)] | _ => [] end) evs).

(** A batch carries a channel for each transaction and respects the size limit. *)
Definition batch_ok (max : nat) (m : BatchMsg) : Prop :=
  match m with BmBatch b r => length b = length r ∧ (length b ≤ max)%nat | _ => True end.
Definition has_tx (ev : BatchEvent) : Prop := match ev with BpTx (None, _) _ => False | _ => True end.
Definition bp_inv (max : nat) (s : BatchProposer) : Prop :=
  length (current_raw_batch s) = length (current_reply_vec s) ∧ (length (current_raw_batch s) < max)%nat.

(** The step from the requests [old] in the queue, with [new] arriving. *)
Definition bp_step (max : nat) (old new : list (ProtoTransaction * MsgAckChanWithTag)) (s' : BatchProposer)
    (es : list BatchMsg) : Prop :=
  bp_inv max s' ∧ Forall (batch_ok max) es ∧
  proposed es ++ bp_queue s' `sublist_of` old ++ new ∧
  map (λ x, chan_of x.2) (proposed es ++ bp_queue s') ++ routed es ≡ₚ map (λ x, chan_of x.2) (old ++ new).

Lemma proposed_app es1 es2 : proposed (es1 ++ es2) = proposed es1 ++ proposed es2.
Proof. unfold proposed. by rewrite map_app, concat_app. Qed.
Lemma routed_app es1 es2 : routed (es1 ++ es2) = routed es1 ++ routed es2.
Proof. unfold routed. by rewrite map_app, concat_app. Qed.

Section batch_proofs.
Context (cfg : Config) (node_infos : string).
Abbreviation max := (max_backlog_batch_size (consensus_config cfg)).

Lemma wp_maybe_propose tick s :
  (1 ≤ max)%nat → length (current_raw_batch s) = length (current_reply_vec s) →
  (length (current_raw_batch s) ≤ max)%nat →
  wp (maybe_propose cfg tick) (λ _ s' es, bp_inv max s' ∧ Forall (batch_ok max) es ∧
    proposed es ++ bp_queue s' = bp_queue s ∧ routed es = []) s.
Proof.
  intros Hm Hlen Hmax. unfold maybe_propose. wp_prims.
  destruct ((max <=? length (current_raw_batch s))%nat || _) eqn:Hc.
  - unfold propose_new_batch. wp_prims. split_and!; simpl.
    + by split; [|simpl; lia].
    + by repeat constructor.
    + unfold proposed, bp_queue. simpl. by rewrite !app_nil_r.
    + done.
  - wp_prims. apply orb_false_iff in Hc as [Hc%Nat.leb_gt _]. done.
Qed.

Lemma bp_step_routed old s' es tx c es0 :
  bp_inv max s' ∧ Forall (batch_ok max) es ∧ proposed es ++ bp_queue s' = old ∧ routed es = [] →
  batch_ok max es0 → proposed [es0] = [] → routed [es0] = [chan_of c] →
  bp_step max old [(tx, c)] s' ([es0] ++ es).
Proof.
  intros (Hi & Hf & Hp & Hr) H0 Hp0 Hr0. split_and!; [done|by apply Forall_app; split; [by repeat constructor|]| |].
  - rewrite proposed_app, Hp0. simpl. rewrite Hp. by apply sublist_inserts_r.
  - rewrite proposed_app, routed_app, Hp0, Hr0, Hr. simpl. by rewrite Hp, map_app.
Qed.

Lemma wp_batch_worker ev s :
  (1 ≤ max)%nat → bp_inv max s → has_tx ev →
  wp (batch_worker cfg node_infos ev) (λ _ s' es, bp_step max (bp_queue s) (requests [ev]) s' es) s.
Proof.
  intros Hm [Hlen Hmax] Htx. destruct ev as [[[tx|] c] elapsed|b l|]; [|done|..]; simpl.
  - unfold bp_handle_tx, filter_unlogged_request. wp_prims. eapply wp_unwrap; [done|].
    destruct (on_receive tx) as [ph|] eqn:Hrx.
    + destruct (is_probe_tx tx) as [is_probe bn] eqn:Hp. wp_prims. simpl.
      eapply wp_mono; [|apply wp_maybe_propose; [done|done|lia]]. intros [] s' es Hs.
      apply (bp_step_routed _ s' es tx c (if is_probe then BmProbe bn c else BmUnlogged tx c)); by destruct is_probe.
    + wp_prims. simpl. wp_prims. destruct (bp_i_am_leader cfg s); simpl.
      * wp_prims. eapply wp_mono; [|apply wp_maybe_propose; [done|simpl; rewrite !length_app; simpl; lia..]].
        intros [] s' es (Hi & Hf & Hp & Hr). simpl in *.
        assert (bp_queue (mkBatchProposer (current_raw_batch s ++ [tx]) (current_reply_vec s ++ [c])
          (make_new_batches s) (current_leader s)) = bp_queue s ++ [(tx, c)]) as Hq
          by (unfold bp_queue; simpl; by rewrite zip_with_app).
        split_and!; [done..| |]; rewrite Hp, Hq; [done|]. by rewrite Hr, app_nil_r.
      * unfold reply_leader. wp_prims. simpl. rewrite <-(app_nil_r [_]).
        apply (bp_step_routed (bp_queue s) s [] tx c); done.
  - wp_prims. split_and!; simpl; [done|done|by rewrite app_nil_r|by rewrite !app_nil_r].
  - eapply wp_mono; [|apply wp_maybe_propose; [done|done|lia]]. intros [] s' es (Hi & Hf & Hp & Hr).
    split_and!; [done..| |]; rewrite Hp, app_nil_r; [done|by rewrite Hr, app_nil_r].
Qed.

Lemma wp_batch_run evs s :
  (1 ≤ max)%nat → bp_inv max s → Forall has_tx evs →
  wp (mfor evs (batch_worker cfg node_infos)) (λ _ s' es, bp_step max (bp_queue s) (requests evs) s' es) s.
Proof.
  intros Hm Hi Hevs. revert s Hi. induction Hevs as [|ev evs Hev Hevs IH]; intros s Hi; cbn [mfor]; wp_prims.
  { split_and!; [done|constructor|by rewrite app_nil_r|by rewrite !app_nil_r]. }
  eapply wp_mono; [|by apply wp_batch_worker]. intros [] s1 es1 (Hi1 & Hf1 & Hs1 & Hp1).
  eapply wp_mono; [|by apply IH]. intros [] s2 es2 (Hi2 & Hf2 & Hs2 & Hp2).
  change (requests (ev :: evs)) with (requests ([ev] ++ evs)).
  replace (requests ([ev] ++ evs)) with (requests [ev] ++ requests evs)
    by (unfold requests; by rewrite map_app, concat_app).
  split_and!; [done|by apply Forall_app| |].
  - rewrite proposed_app, <-app_assoc. transitivity (proposed es1 ++ bp_queue s1 ++ requests evs).
    + by apply sublist_app.
    + rewrite !app_assoc. by apply sublist_app.
  - rewrite app_assoc, (map_app _ (bp_queue s ++ requests [ev])), <-Hp1, proposed_app, routed_app.
    rewrite <-app_assoc, (map_app _ (proposed es1)), (map_app _ (proposed es1) (bp_queue s1)), <-!app_assoc. f_equiv.
    rewrite (app_assoc (map _ (bp_queue s1))), (Permutation_app_comm (map _ (bp_queue s1))), <-app_assoc.
    rewrite <-map_app, <-Hp2. rewrite (Permutation_app_comm (routed es1) (routed es2)), app_assoc.
    by rewrite (Permutation_app_comm _ (routed es1)).
Qed.

End batch_proofs.

(** Batching loses, duplicates and reorders nothing.  Along any sequence of well-formed
    requests, leader changes and timer ticks, the batch proposer does not panic; the
    transactions of the batches it sends, followed by those still collected, are a
    subsequence of the requests in arrival order, each paired with its own reply channel;
    every other request is forwarded or answered with the leader's name, so that each
    channel is accounted for exactly once; and no batch exceeds the configured size. *)
Lemma batches_conserve cfg node_infos evs s :
  (1 ≤ max_backlog_batch_size (consensus_config cfg))%nat →
  bp_inv (max_backlog_batch_size (consensus_config cfg)) s → Forall has_tx evs →
  ∃ s' es, mfor evs (batch_worker cfg node_infos) s = Some (tt, s', es) ∧
    bp_step (max_backlog_batch_size (consensus_config cfg)) (bp_queue s) (requests evs) s' es.
Proof.
  intros Hm Hi Hevs. destruct (wp_run _ _ _ (wp_batch_run cfg node_infos evs s Hm Hi Hevs)) as ([] & s' & es & ? & ?).
  by exists s', es.
Qed.

Definition toy_cfg : Config := mkConfig "node1" (mkConsensusConfig ["node1"; "node2"; "node3"; "node4"] [] 2 0 0 0 3 1 1 0 0).
Definition toy_request (k : nat) : TxWithAckChanTag := (Some (mkTx None None None false false), toy_chan k).

Lemma batches_conserve_witness :
  ∃ s' es, mfor [BpCommand true "node1"; BpTx (toy_request 1) false; BpTx (toy_request 2) false; BpTx (toy_request 3) false;
                 BpTick; BpCommand false "node2"; BpTx (toy_request 4) false]
      (batch_worker toy_cfg "") (mkBatchProposer [] [] false "") = Some (tt, s', es) ∧
    bp_step 2 [] (requests [BpCommand true "node1"; BpTx (toy_request 1) false; BpTx (toy_request 2) false;
      BpTx (toy_request 3) false; BpTick; BpCommand false "node2"; BpTx (toy_request 4) false]) s' es.
Proof.
  apply (batches_conserve toy_cfg "" _ (mkBatchProposer [] [] false "")); [simpl; lia|split; simpl; lia|].
  repeat constructor.
Defined.

(** * A leader's term *)

Definition sq_blocks (es : list SequencerMsg) : list CachedBlock :=
  omap (λ m, match m with SqBroadcast _ b => Some b | _ => None end) es.
Definition sq_replies (es : list SequencerMsg) : list (HashType * list MsgAckChanWithTag) :=
  omap (λ m, match m with SqClientReply h r => Some (h, r) | _ => None end) es.

Definition term_event : Type := list ProtoQuorumCertificate * SequencerEvent.
Definition no_control (e : term_event) : Prop := match e.2 with SqControl _ => False | _ => True end.
Definition batches (evs : list term_event) : list (RawBatch * list MsgAckChanWithTag) :=
  omap (λ e, match e.2 with SqBatch b r => Some (b, r) | _ => None end) evs.

(** [g] blocks without a signature precede [l]: no run of unsigned blocks reaches [d]. *)
Fixpoint sign_gap_ok (d g : Z) (l : list CachedBlock) : bool :=
  match l with
  | [] => true
  | b :: l' => if is_signed (cb_block b) then sign_gap_ok d 0 l' else (g + 1 <? d) && sign_gap_ok d (g + 1) l'
  end.

(** Certificates travel only on signed blocks, and are of the view of the block. *)
Definition qcs_ok (v : Z) (b : CachedBlock) : Prop :=
  pb_view (cb_block b) = v ∧ (is_signed (cb_block b) = false → pb_qc (cb_block b) = []) ∧
  Forall (λ q, qc_view q = v) (pb_qc (cb_block b)).

Fixpoint gap_after (g : Z) (l : list CachedBlock) : Z :=
  match l with
  | [] => g
  | b :: l' => gap_after (if is_signed (cb_block b) then 0 else g + 1) l'
  end.

Lemma sign_gap_app d g l1 l2 :
  sign_gap_ok d g (l1 ++ l2) = sign_gap_ok d g l1 && sign_gap_ok d (gap_after g l1) l2.
Proof.
  revert g. induction l1 as [|b l1 IH]; intros g; simpl; [done|].
  destruct (is_signed (cb_block b)); rewrite IH; [done|]. by rewrite andb_assoc.
Qed.

Lemma gap_after_app g l1 l2 : gap_after g (l1 ++ l2) = gap_after (gap_after g l1) l2.
Proof. revert g. induction l1 as [|b l1 IH]; intros g; simpl; [done|]. apply IH. Qed.

Section term.
Context `{HC : Codec, HE : Ed25519} (feat : Features) (cfg : Config) (ks : KeyStore).
Context (Hdyn : sign_mode feat = DynamicSign).
Context (Hsha : ∀ m, length (sha512 m) = DIGEST_LENGTH).
Context (Hsig : ∀ m, length (ed_sign (priv_key ks) m) = SIGNATURE_LENGTH).
Context (v : Z) (Hme : get_leader_for_view feat (consensus_config cfg) v = Some (net_name cfg)).
Abbreviation delay := (signature_max_delay_blocks (consensus_config cfg)).

(** The block at the tip [p] of the chain, and what the sequencer has pending. *)
Record sq_inv (stable : bool) (p : HashType) (s : BlockSequencer) : Prop := {
  sqi_parent : resolve_parent (parent_hash_rx s) = Some p;
  sqi_len : length p = DIGEST_LENGTH;
  sqi_view : sq_view s = v;
  sqi_stable : sq_view_is_stable s = stable;
  sqi_qcs : Forall (λ q, qc_view q = v) (current_qc_list s) }.

Lemma leader_of_view s : sq_view s = v → sq_i_am_leader feat cfg s = Some true.
Proof. intros Hv. unfold sq_i_am_leader. rewrite Hv, Hme. simpl. by rewrite bool_decide_true. Qed.

(** What sequencing one batch does: a block on top of the chain. *)
Lemma wp_handle_new_batch stable p batch replies fv s :
  sq_inv stable p s → 0 ≤ seq_num s → seq_num s + 1 < 2 ^ 64 →
  wp (handle_new_batch feat cfg ks batch replies fv) (λ _ s' es, ∃ b,
    es = [SqClientReply (cb_hash b) replies; SqBroadcast (seq_num s + 1) b] ∧
    cb_n b = seq_num s + 1 ∧ cb_parent b = p ∧ pb_tx_list (cb_block b) = batch ∧
    pb_fork_validation (cb_block b) = fv ∧ pb_view_is_stable (cb_block b) = stable ∧ qcs_ok v b ∧
    is_signed (cb_block b) = (force_sign_next_batch s || (delay <=? (seq_num s + 1) ⊖ last_signed_seq_num s) || negb stable) ∧
    sq_inv stable (cb_hash b) s' ∧ seq_num s' = seq_num s + 1 ∧
    last_signed_seq_num s' = (if is_signed (cb_block b) then seq_num s + 1 else last_signed_seq_num s)) s.
Proof.
  intros [Hp Hlen Hv Hst Hq] H0 Hn. unfold handle_new_batch. wp_prims. cbn [seq_num].
  rewrite !u64_add_small by lia. unfold must_sign. rewrite Hdyn. cbn [force_sign_next_batch seq_num last_signed_seq_num].
  set (sgn := force_sign_next_batch s || (delay <=? seq_num s + 1 ⊖ last_signed_seq_num s) || negb stable).
  apply (wp_mono _ (λ r s1 e1, r = sgn ∧ e1 = [] ∧ s1 = mkSequencer (current_qc_list s) (parent_hash_rx s) (seq_num s + 1)
    (sq_view s) (sq_config_num s) (sq_view_is_stable s) (force_sign_next_batch s) (last_signed_seq_num s)
    (last_qc_n_seen s) (blocks_proposed_in_this_view s))).
  2: { unfold sgn. destruct (force_sign_next_batch s || _); simpl; wp_prims; [done|].
       eapply wp_unwrap; [by apply leader_of_view|]. wp_prims. by rewrite Hst. }
  intros r s1 e1 (-> & -> & ->). wp_prims. cbn [parent_hash_rx seq_num current_qc_list sq_view sq_view_is_stable sq_config_num].
  eapply wp_unwrap; [apply (prepare_block_eq ks _ sgn _ p Hp Hlen); intros _; apply Hsig|]. wp_prims.
  eexists. split; [done|]. cbn [cb_block cb_hash]. by destruct sgn; simpl; split_and!.
Qed.

Lemma sq_inv_add_qcs stable p qcs s :
  sq_inv stable p s → sq_inv stable p (fold_left add_qc qcs s) ∧ seq_num (fold_left add_qc qcs s) = seq_num s ∧
    last_signed_seq_num (fold_left add_qc qcs s) = last_signed_seq_num s.
Proof.
  revert s. induction qcs as [|q qcs IH]; intros s Hs; simpl; [done|].
  assert (sq_inv stable p (add_qc s q) ∧ seq_num (add_qc s q) = seq_num s ∧
    last_signed_seq_num (add_qc s q) = last_signed_seq_num s) as (Hs1 & <- & <-); [|by apply IH].
  unfold add_qc. destruct (Z.eqb_spec (qc_view q) (sq_view s)) as [Hq|]; simpl; [|done].
  destruct Hs. split_and!; [|done..]. split; try done. simpl. apply Forall_app. split; [done|].
  repeat constructor. congruence.
Qed.

(** The events [evs] have put the blocks [bs] on top of the chain. *)
Record term_post (p : HashType) (s : BlockSequencer) (evs : list term_event) (p' : HashType) (s' : BlockSequencer)
    (es : list SequencerMsg) (bs : list CachedBlock) : Prop := {
  tp_inv : sq_inv true p' s';
  tp_blocks : sq_blocks es = bs;
  tp_chain : chain (seq_num s) (Some p) bs;
  tp_tip : tip_hash (Some p) bs = Some p';
  tp_n : seq_num s' = tip_n (seq_num s) bs;
  tp_signed : 0 ≤ last_signed_seq_num s' ≤ seq_num s';
  tp_gap_after : seq_num s' - last_signed_seq_num s' = gap_after (seq_num s - last_signed_seq_num s) bs;
  tp_gap : sign_gap_ok delay (seq_num s - last_signed_seq_num s) bs = true;
  tp_ok : Forall (λ b, qcs_ok v b ∧ pb_view_is_stable (cb_block b) = true) bs;
  tp_txs : map (λ b, pb_tx_list (cb_block b)) bs = (batches evs).*1;
  tp_replies : sq_replies es = zip (map cb_hash bs) (batches evs).*2 }.

Lemma term_post_silent p s evs s' :
  sq_inv true p s' → seq_num s' = seq_num s → last_signed_seq_num s' = last_signed_seq_num s →
  0 ≤ last_signed_seq_num s ≤ seq_num s → batches evs = [] → term_post p s evs p s' [] [].
Proof.
  intros Hi Hn Hl Hb He. split; rewrite ?He, ?Hn, ?Hl; try done. unfold tip_n. simpl. lia.
Qed.

Lemma term_post_app p s evs1 p1 s1 es1 bs1 evs2 p2 s2 es2 bs2 :
  term_post p s evs1 p1 s1 es1 bs1 → term_post p1 s1 evs2 p2 s2 es2 bs2 →
  term_post p s (evs1 ++ evs2) p2 s2 (es1 ++ es2) (bs1 ++ bs2).
Proof.
  intros [I1 B1 C1 T1 N1 S1 A1 G1 O1 X1 R1] [I2 B2 C2 T2 N2 S2 A2 G2 O2 X2 R2].
  assert (batches (evs1 ++ evs2) = batches evs1 ++ batches evs2) as Hb by apply omap_app.
  split; try done.
  - unfold sq_blocks. rewrite omap_app. by rewrite <-B1, <-B2.
  - apply chain_app. by rewrite T1, <-N1.
  - rewrite <-T2, <-T1. unfold tip_hash. rewrite last_app. by destruct (list.last bs2).
  - rewrite N2, N1. unfold tip_n. rewrite length_app. lia.
  - by rewrite gap_after_app, <-A1.
  - by rewrite sign_gap_app, G1, <-A1, G2.
  - by apply Forall_app.
  - by rewrite map_app, X1, X2, Hb, fmap_app.
  - unfold sq_replies. rewrite omap_app. fold (sq_replies es1) (sq_replies es2).
    rewrite R1, R2, Hb, map_app, fmap_app, zip_with_app; [done|].
    rewrite length_map, length_fmap. apply (f_equal length) in X1. by rewrite length_map, length_fmap in X1.
Qed.

Lemma term_post_block p s batch replies b s' queued :
  sq_inv true (cb_hash b) s' → cb_n b = seq_num s + 1 → cb_parent b = p → pb_tx_list (cb_block b) = batch →
  pb_view_is_stable (cb_block b) = true → qcs_ok v b → 0 ≤ last_signed_seq_num s ≤ seq_num s →
  is_signed (cb_block b) || (seq_num s + 1 - last_signed_seq_num s <? delay) = true →
  seq_num s' = seq_num s + 1 →
  last_signed_seq_num s' = (if is_signed (cb_block b) then seq_num s + 1 else last_signed_seq_num s) →
  term_post p s [(queued, SqBatch batch replies)] (cb_hash b) s'
    [SqClientReply (cb_hash b) replies; SqBroadcast (seq_num s + 1) b] [b].
Proof.
  intros Hi Hn Hp Ht Hst Hq Hl Hs Hn' Hl'. split; simpl; rewrite ?Hn', ?Hl'; try done.
  - split_and!; [done|by intros h [= <-]|done].
  - destruct (is_signed (cb_block b)); lia.
  - destruct (is_signed (cb_block b)); lia.
  - destruct (is_signed (cb_block b)); simpl in *; [done|]. apply Z.ltb_lt in Hs.
    apply andb_true_iff. split; [|done]. apply Z.ltb_lt. lia.
  - by apply Forall_singleton.
  - by rewrite Ht.
Qed.

Lemma wp_term_event p s e :
  sq_inv true p s → no_control e → 0 ≤ last_signed_seq_num s ≤ seq_num s → seq_num s + 1 < 2 ^ 64 →
  wp (sequencer_worker feat cfg ks e.1 e.2) (λ _ s' es, ∃ p' bs,
    term_post p s [e] p' s' es bs ∧ (length bs ≤ 1)%nat) s.
Proof.
  intros Hi Hnc Hl Hn. destruct e as [queued ev]. unfold sequencer_worker. wp_prims.
  rewrite (sqi_stable _ _ _ Hi). eapply wp_unwrap; [apply leader_of_view, Hi|]. wp_prims. cbn [fst snd].
  apply (wp_mono _ (λ _ s1 e1, e1 = [] ∧ sq_inv true p s1 ∧ seq_num s1 = seq_num s ∧
    last_signed_seq_num s1 = last_signed_seq_num s)).
  2: { destruct (negb (no_qc feat) && _ && _); [|by wp_prims]. unfold add_qcs. wp_prims.
       split; [done|]. by apply sq_inv_add_qcs. }
  intros [] s1 e1 (-> & Hi1 & Hn1 & Hl1). destruct ev as [qcs| |batch replies|cmd]; [..|done].
  - unfold add_qcs. wp_prims. exists p, []. destruct (sq_inv_add_qcs true p qcs s1 Hi1) as (Hi2 & Hn2 & Hl2).
    split; [|simpl; lia]. apply term_post_silent; [done|congruence..|done|done].
  - wp_prims. exists p, []. split; [|simpl; lia]. apply term_post_silent; [by destruct Hi1|done..].
  - wp_prims. cbv iota. wp_prims. eapply wp_mono; [|apply (wp_handle_new_batch true p); simpl; [by destruct Hi1|lia..]].
    cbn [seq_num last_signed_seq_num force_sign_next_batch].
    intros [] s2 e2 (b & -> & Hbn & Hbp & Htx & _ & Hst & Hq & Hsg & Hi2 & Hn2 & Hl2).
    rewrite Hn1, Hl1 in *. exists (cb_hash b), [b]. split; [|done]. cbn [app]. apply term_post_block; try done.
    destruct (is_signed (cb_block b)); [done|]. simpl in *. symmetry in Hsg.
    apply orb_false_iff in Hsg as [[_ Hsg]%orb_false_iff _]. apply Z.leb_gt in Hsg.
    rewrite u64_sub_small in Hsg by lia. by apply Z.ltb_lt.
Qed.

Lemma wp_term_run p s evs :
  sq_inv true p s → Forall no_control evs → 0 ≤ last_signed_seq_num s ≤ seq_num s →
  seq_num s + Z.of_nat (length evs) < 2 ^ 64 →
  wp (mfor evs (λ e, sequencer_worker feat cfg ks e.1 e.2)) (λ _ s' es, ∃ p' bs, term_post p s evs p' s' es bs) s.
Proof.
  intros Hi Hnc. revert p s Hi. induction Hnc as [|e evs He Hnc IH]; intros p s Hi Hl Hn; cbn [mfor]; wp_prims.
  { exists p, []. by apply term_post_silent. }
  cbn [length] in Hn. eapply wp_mono; [|apply (wp_term_event p); [done..|lia]].
  intros [] s1 es1 (p1 & bs1 & Hp1 & Hlen). pose proof (tp_n _ _ _ _ _ _ _ Hp1) as Hn1. unfold tip_n in Hn1.
  eapply wp_mono; [|apply (IH p1); [apply Hp1|apply Hp1|lia]].
  intros [] s2 es2 (p2 & bs2 & Hp2). exists p2, (bs1 ++ bs2). by apply (term_post_app _ _ [e] p1 s1).
Qed.

End term.

(** The events that open a term: the new-view message for the chosen fork, and, once the
    view has stabilised, the go-ahead. *)
Definition term_events (v c : Z) (fv : list ProtoForkValidation) (h : HashType) (k : Z) (evs : list term_event)
    : list term_event :=
  ([], SqControl (NewViewMessage v c fv h k)) :: ([], SqControl (ViewStabilised v c)) :: evs.

Lemma wp_term_open `{Codec, Ed25519} feat cfg ks v c fv h k s :
  config_ok (consensus_config cfg) → sign_mode feat = DynamicSign →
  (∀ m, length (sha512 m) = DIGEST_LENGTH) → (∀ m, length (ed_sign (priv_key ks) m) = SIGNATURE_LENGTH) →
  get_leader_for_view feat (consensus_config cfg) v = Some (net_name cfg) →
  length h = DIGEST_LENGTH → 0 ≤ k → k + 1 < 2 ^ 64 →
  wp (mfor (term_events v c fv h k []) (λ e, sequencer_worker feat cfg ks e.1 e.2)) (λ _ s' es, ∃ b,
    es = [SqClientReply (cb_hash b) []; SqBroadcast (k + 1) b] ∧ chain k (Some h) [b] ∧
    is_signed (cb_block b) = true ∧ pb_fork_validation (cb_block b) = fv ∧
    pb_view_is_stable (cb_block b) = false ∧ pb_tx_list (cb_block b) = [] ∧ qcs_ok v b ∧
    sq_inv v true (cb_hash b) s' ∧ seq_num s' = k + 1 ∧ last_signed_seq_num s' = k + 1) s.
Proof.
  intros Hcfg Hdyn Hsha Hsig Hme Hlen Hk Hk'. cbn [mfor term_events fst snd]. wp_prims.
  unfold sequencer_worker at 1. wp_prims.
  apply (wp_mono _ (λ _ s1 e1, e1 = [] ∧ s1 = s)).
  2: { destruct (sq_view_is_stable s); [|by wp_prims]. unfold sq_i_am_leader.
       destruct (config_leader feat _ (sq_view s) Hcfg) as [l Hl]. rewrite Hl. simpl. by eapply wp_unwrap. }
  intros listen s1 e1 [-> ->]. cbn [length Nat.ltb Nat.leb]. rewrite !andb_false_r. cbn [andb]. cbv iota. wp_prims.
  cbn beta iota delta [handle_control_command]. wp_prims. eapply wp_unwrap; [by eapply leader_of_view|]. cbn [negb]. cbv iota. wp_prims.
  eapply wp_mono; [|apply (wp_handle_new_batch feat cfg ks Hdyn Hsha Hsig v Hme false h); [|simpl; lia..]].
  2: { split; try done. simpl. apply Forall_forall. intros q [Hq _]%elem_of_retain. by apply Z.eqb_eq. }
  cbn [seq_num follow_view]. intros [] s2 e2 (b & -> & Hn & Hp & Htx & Hfv & Hst & Hq & Hsg & Hi & Hn' & Hl').
  rewrite orb_true_r in Hsg. rewrite Hsg in Hl'. wp_prims. unfold sequencer_worker. wp_prims.
  rewrite (sqi_stable _ _ _ _ Hi). wp_prims. cbn [length Nat.ltb Nat.leb]. rewrite !andb_false_r. cbn [andb]. cbv iota. wp_prims.
  cbn beta iota delta [handle_control_command]. wp_prims. exists b. split_and!; try done.
  - split_and!; [done|by intros ? [= <-]|done].
  - destruct Hi. split; try done. simpl. apply Forall_forall. intros q [_ Hin]%elem_of_retain.
    rewrite Forall_forall in sqi_qcs0. by apply sqi_qcs0.
Qed.

(** C15: A leader's term is one hash chain.  With dynamic signing, when a node that leads view
    [v] is told to
    open the view on the fork ending at block [k] with hash [h] and the view stabilises,
    then, for any interleaving of batches, certificates and timer ticks, the sequencer
    never panics and the blocks it sends form a hash chain on top of that fork: first a
    signed, unstable new-view block carrying the fork validations, then one stable block
    for each batch, in order, with its transactions, whose hash is what the client reply
    task gets for the batch.  All blocks are of view [v], certificates travel only on
    signed blocks and are of view [v], and fewer than [signature_max_delay_blocks]
    consecutive blocks are unsigned. *)
Theorem leader_term_chain `{Codec, Ed25519} feat cfg ks v c fv h k evs s :
  config_ok (consensus_config cfg) → sign_mode feat = DynamicSign →
  (∀ m, length (sha512 m) = DIGEST_LENGTH) → (∀ m, length (ed_sign (priv_key ks) m) = SIGNATURE_LENGTH) →
  get_leader_for_view feat (consensus_config cfg) v = Some (net_name cfg) →
  length h = DIGEST_LENGTH → 0 ≤ k → k + 1 + Z.of_nat (length evs) < 2 ^ 64 → Forall no_control evs →
  ∃ s' es b0 bs,
    mfor (term_events v c fv h k evs) (λ e, sequencer_worker feat cfg ks e.1 e.2) s = Some (tt, s', es) ∧
    sq_blocks es = b0 :: bs ∧ chain k (Some h) (b0 :: bs) ∧
    (is_signed (cb_block b0) = true ∧ pb_view_is_stable (cb_block b0) = false ∧
     pb_fork_validation (cb_block b0) = fv ∧ qcs_ok v b0) ∧
    Forall (λ b, qcs_ok v b ∧ pb_view_is_stable (cb_block b) = true) bs ∧
    map (λ b, pb_tx_list (cb_block b)) bs = (batches evs).*1 ∧
    sq_replies es = zip (map cb_hash (b0 :: bs)) ([] :: (batches evs).*2) ∧
    sign_gap_ok (signature_max_delay_blocks (consensus_config cfg)) 0 bs = true.
Proof.
  intros Hcfg Hdyn Hsha Hsig Hme Hlen Hk Hk' Hnc.
  assert (wp (mfor (term_events v c fv h k [] ++ evs) (λ e, sequencer_worker feat cfg ks e.1 e.2))
    (λ _ s' es, ∃ b0 bs es1 s1 p, es = [SqClientReply (cb_hash b0) []; SqBroadcast (k + 1) b0] ++ es1 ∧
       chain k (Some h) [b0] ∧ is_signed (cb_block b0) = true ∧ pb_fork_validation (cb_block b0) = fv ∧
       pb_view_is_stable (cb_block b0) = false ∧ qcs_ok v b0 ∧ seq_num s1 = k + 1 ∧ last_signed_seq_num s1 = k + 1 ∧
       term_post cfg v (cb_hash b0) s1 evs p s' es1 bs) s) as Hrun.
  { apply wp_mfor_app. eapply wp_mono; [|apply wp_term_open; auto; lia].
    intros [] s1 e1 (b0 & -> & Hc & Hs & Hfv & Hst & Htx & Hq & Hi & Hn & Hl).
    eapply wp_mono; [|apply (wp_term_run feat cfg ks Hdyn Hsha Hsig v Hme (cb_hash b0)); [done|done|lia|lia]].
    intros [] s2 e2 (p & bs & Hp). by exists b0, bs, e2, s1, p. }
  apply wp_run in Hrun as ([] & s' & es & Hr & b0 & bs & es1 & s1 & p & -> & Hc & Hs & Hfv & Hst & Hq & Hn & Hl & Hp).
  eexists s', _, b0, bs. split; [exact Hr|]. destruct Hp as [_ B C _ _ _ _ G O X R].
  rewrite Hn, Hl, Z.sub_diag in G. split_and!; try done.
  - simpl. by rewrite <-B.
  - destruct Hc as (H1 & H2 & _). split; [done|]. split; [done|]. by rewrite <-Hn.
  - simpl. by rewrite <-R.
Qed.

Lemma leader_term_chain_witness :
  let C := toy_codec (nascent Serialize.toy_block) in let Ed := toy_ed in
  let cfg := mkConfig "node3" four_nodes in
  let evs : list term_event := [([], SqBatch [mkTx None None None false false] [toy_chan 1]); ([], SqTick); ([], SqBatch [] [])] in
  ∃ s' es b0 bs,
    mfor (term_events 3 1 [] default_hash 7 evs) (λ e, sequencer_worker pirateship_features cfg toy_keystore e.1 e.2)
      (sequencer_new pirateship_features) = Some (tt, s', es) ∧
    sq_blocks es = b0 :: bs ∧ chain 7 (Some default_hash) (b0 :: bs) ∧
    (is_signed (cb_block b0) = true ∧ pb_view_is_stable (cb_block b0) = false ∧
     pb_fork_validation (cb_block b0) = [] ∧ qcs_ok 3 b0) ∧
    Forall (λ b, qcs_ok 3 b ∧ pb_view_is_stable (cb_block b) = true) bs ∧
    map (λ b, pb_tx_list (cb_block b)) bs = (batches evs).*1 ∧
    sq_replies es = zip (map cb_hash (b0 :: bs)) ([] :: (batches evs).*2) ∧
    sign_gap_ok (signature_max_delay_blocks (consensus_config cfg)) 0 bs = true.
Proof.
  intros C Ed cfg evs.
  apply (@leader_term_chain C Ed pirateship_features cfg toy_keystore 3 1 [] default_hash 7 evs
    (sequencer_new pirateship_features)); try done.
  - split_and!; try done. by_compute.
  - intros m. cbn [sha512 C toy_codec]. rewrite length_take, length_app, length_zeros. unfold DIGEST_LENGTH. lia.
  - by repeat constructor.
Defined.
