(* ===== verification/ForkReceiver.v ===== *)
(** The fork receiver (src/src/consensus/fork_receiver.rs): it takes AppendEntries from the
    leader, checks that they continue a known prefix and open their views with new-view
    blocks, asks for backfill when they do not, and forwards them for verification in parts,
    one per configuration.  Theorems: the parts are exactly the blocks of the message, in
    order, and the multipart invariant of the source holds; a lost backfill reply leaves the
    task deaf to every later leader. *)

From stdpp Require Import base numbers list gmap strings option sorting.
From S2P Require Import Prelude Types Config Serialize Crypto Pacemaker.

(** [fork_future] holds what the verification of each block resolves to. *)
Record MultipartFork := mkMultipartFork {
  fork_future : list (option (unit + CachedBlock));
  remaining_parts : nat;
  mf_ae_stats : AppendEntriesStats;
  mf_blocks : list HalfSerializedBlock }.

Record ForkReceiver := mkForkReceiver {
  fr_view : Z;
  fr_config_num : Z;
  multipart_buffer : list (list HalfSerializedBlock * AppendEntriesStats);
  blocked_on_multipart : bool;
  last_ae_view : Z;
  last_ae_block_hash : FutureHash;
  waiting_on_nack_reply : bool }.

Inductive ForkReceiverMsg :=
  | FrForward (mf : MultipartFork)
  | FrNack (to : string) (nack : ProtoBackfillNack).

Inductive ForkReceiverEvent :=
  | FrEvFork (ae : ProtoAppendEntries) (sender : SenderType)
  | FrEvCommand (cmd : ForkReceiverCommand).

Definition fr_set_view (v c : Z) (s : ForkReceiver) : ForkReceiver :=
  mkForkReceiver v c (multipart_buffer s) (blocked_on_multipart s) (last_ae_view s) (last_ae_block_hash s) (waiting_on_nack_reply s).
Definition fr_set_buffer (b : list (list HalfSerializedBlock * AppendEntriesStats)) (s : ForkReceiver) : ForkReceiver :=
  mkForkReceiver (fr_view s) (fr_config_num s) b (blocked_on_multipart s) (last_ae_view s) (last_ae_block_hash s) (waiting_on_nack_reply s).
Definition fr_set_blocked (b : bool) (s : ForkReceiver) : ForkReceiver :=
  mkForkReceiver (fr_view s) (fr_config_num s) (multipart_buffer s) b (last_ae_view s) (last_ae_block_hash s) (waiting_on_nack_reply s).
Definition fr_set_last_view (v : Z) (s : ForkReceiver) : ForkReceiver :=
  mkForkReceiver (fr_view s) (fr_config_num s) (multipart_buffer s) (blocked_on_multipart s) v (last_ae_block_hash s) (waiting_on_nack_reply s).
Definition fr_set_hash (h : FutureHash) (s : ForkReceiver) : ForkReceiver :=
  mkForkReceiver (fr_view s) (fr_config_num s) (multipart_buffer s) (blocked_on_multipart s) (last_ae_view s) h (waiting_on_nack_reply s).
Definition fr_set_waiting (b : bool) (s : ForkReceiver) : ForkReceiver :=
  mkForkReceiver (fr_view s) (fr_config_num s) (multipart_buffer s) (blocked_on_multipart s) (last_ae_view s) (last_ae_block_hash s) b.

(** The views a fork opens, from [test_view] on; [None] is a view opened by a stable block. *)
Fixpoint scan_views (test_view : Z) (blocks : list HalfSerializedBlock) : option Z :=
  match blocks with
  | [] => Some test_view
  | b :: bs =>
      if hs_view b >? test_view then
        if hs_view_is_stable b then None else scan_views (hs_view b) bs
      else scan_views test_view bs
  end.

(** Cutting a fork after the first block of each new configuration; [None] is a
    configuration opened by a stable block. *)
Fixpoint split_parts (curr_config : Z) (curr_part : list HalfSerializedBlock)
    (parts : list (list HalfSerializedBlock)) (blocks : list HalfSerializedBlock)
    : option (list (list HalfSerializedBlock)) :=
  match blocks with
  | [] => Some (if (0 <? length curr_part)%nat then parts ++ [curr_part] else parts)
  | b :: bs =>
      if hs_config_num b =? curr_config then split_parts curr_config (curr_part ++ [b]) parts bs
      else if hs_view_is_stable b then None
      else split_parts (hs_config_num b) [] (parts ++ [curr_part ++ [b]]) bs
  end.

Section fork_receiver.
Context `{Codec, Ed25519, LogQuery} (feat : Features) (cfg : Config) (ks : KeyStore).

Abbreviation FR := (M ForkReceiver ForkReceiverMsg).
Abbreviation cc := (consensus_config cfg).

Definition fork_receiver_new : ForkReceiver :=
  let v := if f_view_change feat then 0 else 1 in
  mkForkReceiver v v [] false 0 FHNone false.

(** The hash the last block of a part resolves to. *)
Definition hash_of_result (r : option (unit + CachedBlock)) : option (unit + HashType) :=
  match r with
  | Some (inr b) => Some (inr (cb_hash b))
  | Some (inl e) => Some (inl e)
  | None => None
  end.

(** [crypto.prepare_fork], the send to the broadcaster and the remembered hash; the
    [unwrap] of the last hash fails on an empty part. *)
Definition forward_part (part : list HalfSerializedBlock) (remaining : nat) (stats : AppendEntriesStats) : FR unit :=
  let results := prepare_fork feat ks cc part (fr_byzantine_liveness_threshold feat cc) in
  _ ← emit (FrForward (mkMultipartFork results remaining stats part));
  last ← unwrap (list.last results);
  modify (fr_set_hash (FHFutureResult (hash_of_result last))).

Definition send_nack (sender : string) (ae : ProtoAppendEntries) : FR unit :=
  _ ← modify (fr_set_waiting true);
  first_block_n ← (match ae_fork ae with
                   | Some f => b ← unwrap (head (serialized_blocks f)); mret (hs_n b)
                   | None => mret (ae_commit_index ae)
                   end);
  let last_index_needed := if first_block_n >? 100 then first_block_n ⊖ 100 else 0 in
  let hints := lq_get_hints last_index_needed in
  emit (FrNack sender (mkNack hints last_index_needed (net_name cfg) (Some (OriginAe ae)))).

(** The hash of the last block forwarded, if it verified; it is kept once resolved. *)
Definition last_hash : FR (option HashType) :=
  s ← get;
  match last_ae_block_hash s with
  | FHNone => mret None
  | FHImmediate h => mret (Some h)
  | FHFuture h =>
      h ← unwrap h;
      _ ← modify (fr_set_hash (FHImmediate h));
      mret (Some h)
  | FHFutureResult r =>
      r ← unwrap r;
      match r with
      | inl _ => _ ← modify (fr_set_hash FHNone); mret None
      | inr h => _ ← modify (fr_set_hash (FHImmediate h)); mret (Some h)
      end
  end.

Definition ensure_common_prefix (ae : ProtoAppendEntries) : FR res :=
  fork ← unwrap (ae_fork ae);
  match serialized_blocks fork with
  | [] => mret ROk
  | first :: _ =>
      parent_hash ← unwrap (get_parent_hash_in_proto_block_ser (hs_body first));
      hsh ← last_hash;
      if bool_decide (hsh = Some parent_hash) then mret ROk
      else
        let parent_n := hs_n first ⊖ 1 in
        if lq_check_hash parent_n parent_hash then mret ROk else mret RErr
  end.

Definition ae_stats_of (ae : ProtoAppendEntries) (sender : string) : AppendEntriesStats :=
  mkAEStats (ae_view ae) (ae_view_is_stable ae) (ae_config_num ae) sender (ae_commit_index ae).

(** The fork passed its checks: forward the first part and keep the others. *)
Definition forward_parts (ae : ProtoAppendEntries) (sender : string) (parts : list (list HalfSerializedBlock)) : FR unit :=
  match parts with
  | [] => mret tt
  | first_part :: parts =>
      let stats := ae_stats_of ae sender in
      _ ← forward_part first_part (length parts) stats;
      if (0 <? length parts)%nat then
        s ← get;
        _ ← assert_ (length (multipart_buffer s) =? 0)%nat;
        _ ← modify (fr_set_buffer (multipart_buffer s ++ map (λ p, (p, stats)) parts));
        modify (fr_set_blocked true)
      else mret tt
  end.

(** [get_leader_for_view(ae.view) != sender], checked only in my configuration. *)
Definition wrong_sender (ae : ProtoAppendEntries) (sender : string) : FR bool :=
  s ← get;
  if ae_config_num ae =? fr_config_num s then
    leader ← unwrap (get_leader_for_view feat cc (ae_view ae));
    mret (negb (bool_decide (leader = sender)))
  else mret false.

Definition process_blocks (ae : ProtoAppendEntries) (sender : string) (blocks : list HalfSerializedBlock) : FR unit :=
  s ← get;
  match scan_views (fr_view s) blocks with
  | None => send_nack sender ae
  | Some test_view =>
      if test_view <? ae_view ae then send_nack sender ae
      else
        _ ← modify (fr_set_waiting false);
        match split_parts (fr_config_num s) [] [] blocks with
        | None => mret tt
        | Some parts => forward_parts ae sender parts
        end
  end.

Definition process_fork (ae : ProtoAppendEntries) (sender : string) : FR unit :=
  s ← get;
  if (ae_view ae <? fr_view s) || (ae_config_num ae <? fr_config_num s) then mret tt
  else
    wrong ← wrong_sender ae sender;
    let wrong : bool := wrong in
    if wrong then mret tt
    else
      r ← ensure_common_prefix ae;
      match r with
      | RErr => send_nack sender ae
      | ROk =>
          match ae_fork ae with
          | None => mret tt
          | Some fork => process_blocks ae sender (serialized_blocks fork)
          end
      end.

(** The next buffered part, when the configuration it needs has been installed: the last
    part must come from the leader of the view. *)
Definition next_part : FR unit :=
  s ← get;
  match multipart_buffer s with
  | [] => mret tt
  | (part, ae_stats) :: rest =>
      _ ← modify (fr_set_buffer rest);
      maybe_legit ← (if (length rest =? 0)%nat then
                       leader ← unwrap (get_leader_for_view feat cc (fr_view s));
                       mret (bool_decide (leader = aes_sender ae_stats))
                     else mret true);
      if negb maybe_legit then mret tt else forward_part part (length rest) ae_stats
  end.

Definition maybe_unblock : FR unit :=
  modify (λ s, if (length (multipart_buffer s) =? 0)%nat then fr_set_blocked false s else s).

Definition handle_command (cmd : ForkReceiverCommand) : FR unit :=
  match cmd with
  | FrUpdateView view config_num =>
      s ← get;
      _ ← (if negb (fr_view s =? view) then modify (λ s, fr_set_hash FHNone (fr_set_last_view view s)) else mret tt);
      let config_is_updating := fr_config_num s <? config_num in
      _ ← modify (fr_set_view view config_num);
      _ ← (if config_is_updating && (0 <? length (multipart_buffer s))%nat then next_part else mret tt);
      maybe_unblock
  | MultipartNack n =>
      s ← get;
      _ ← assert_ (n =? length (multipart_buffer s))%nat;
      _ ← modify (fr_set_buffer (drop n (multipart_buffer s)));
      maybe_unblock
  | UseBackfillResponse ae sender => process_fork ae (fst (to_name_and_sub_id sender))
  end.

(** The select loop polls [fork_rx] only when it waits for neither staging nor a backfill. *)
Definition fr_enabled (s : ForkReceiver) (ev : ForkReceiverEvent) : bool :=
  match ev with
  | FrEvFork _ _ => negb (blocked_on_multipart s || waiting_on_nack_reply s)
  | FrEvCommand _ => true
  end.

Definition fork_receiver_worker (ev : ForkReceiverEvent) : FR unit :=
  match ev with
  | FrEvFork ae (Auth sender _) => process_fork ae sender
  | FrEvFork _ Anon => mret tt
  | FrEvCommand cmd => handle_command cmd
  end.

(** The task takes an event it polls for and does not panic. *)
Inductive fr_step (s : ForkReceiver) (ev : ForkReceiverEvent) (s' : ForkReceiver) (es : list ForkReceiverMsg) : Prop :=
  | fr_step_intro : fr_enabled s ev = true → fork_receiver_worker ev s = Some (tt, s', es) → fr_step s ev s' es.

End fork_receiver.

(** * Delivery *)

Definition forwarded (es : list ForkReceiverMsg) : list (list HalfSerializedBlock) :=
  omap (λ m, match m with FrForward mf => Some (mf_blocks mf) | _ => None end) es.
Definition ae_blocks (ae : ProtoAppendEntries) : list HalfSerializedBlock :=
  from_option serialized_blocks [] (ae_fork ae).

(** The parts of a fork received in configuration [c]: each ends with the unstable block
    that opens the next configuration, except the last one, which may lie within one. *)
Fixpoint parts_ok (c : Z) (ps : list (list HalfSerializedBlock)) : Prop :=
  match ps with
  | [] => True
  | p :: ps' =>
      (Forall (λ b, hs_config_num b = c) p ∧ ps' = []) ∨
      ∃ q b, p = q ++ [b] ∧ Forall (λ b, hs_config_num b = c) q ∧ hs_config_num b ≠ c ∧
        hs_view_is_stable b = false ∧ parts_ok (hs_config_num b) ps'
  end.

Lemma split_parts_spec c curr parts blocks ps :
  split_parts c curr parts blocks = Some ps → Forall (λ b, hs_config_num b = c) curr →
  ∃ ps', ps = parts ++ ps' ∧ concat ps' = curr ++ blocks ∧ Forall (λ p, p ≠ []) ps' ∧ parts_ok c ps'.
Proof.
  revert c curr parts. induction blocks as [|b bs IH]; intros c curr parts; simpl.
  - destruct curr as [|b0 curr]; simpl; intros [= <-] Hf.
    + exists []. by rewrite app_nil_r.
    + exists [b0 :: curr]. simpl. split_and!; [done|by rewrite !app_nil_r|by repeat constructor|by left].
  - destruct (Z.eqb_spec (hs_config_num b) c) as [Hc|Hc].
    + intros Hs Hf. apply IH in Hs as (ps' & -> & Hcat & Hne & Hok); [|apply Forall_app; by repeat constructor].
      exists ps'. by rewrite <-app_assoc in Hcat.
    + destruct (hs_view_is_stable b) eqn:Hst; [done|]. intros Hs Hf.
      apply IH in Hs as (ps' & -> & Hcat & Hne & Hok); [|constructor].
      exists ((curr ++ [b]) :: ps'). simpl. rewrite Hcat, <-!app_assoc. split_and!; [done|done| |].
      * constructor; [|done]. by destruct curr.
      * right. by exists curr, b.
Qed.

Section delivery.
Context `{HC : Codec, HE : Ed25519, HQ : LogQuery} (feat : Features) (cfg : Config) (ks : KeyStore).
Context (Hcfg : config_ok (consensus_config cfg)).
Abbreviation cc := (consensus_config cfg).

(** Verification of the block returns (an error, or the block). *)
Definition verifiable (b : HalfSerializedBlock) : Prop :=
  is_Some (verify_block_ser feat ks cc (fr_byzantine_liveness_threshold feat cc) (hs_body b)).

Definition hash_resolves (h : FutureHash) : Prop :=
  match h with FHFuture None | FHFutureResult None => False | _ => True end.

(** The invariant <blocked_on_multipart> of the source, and what forwarding relies on. *)
Record fr_inv (s : ForkReceiver) : Prop := {
  fri_blocked : blocked_on_multipart s = (0 <? length (multipart_buffer s))%nat;
  fri_parts : Forall (λ e, e.1 ≠ [] ∧ Forall verifiable e.1) (multipart_buffer s);
  fri_hash : hash_resolves (last_ae_block_hash s) }.

Definition ae_ok (ae : ProtoAppendEntries) : Prop := ae_blocks ae ≠ [] ∧ Forall verifiable (ae_blocks ae).

Definition fr_event_ok (s : ForkReceiver) (ev : ForkReceiverEvent) : Prop :=
  match ev with
  | FrEvFork ae _ => ae_ok ae
  | FrEvCommand (UseBackfillResponse ae _) => ae_ok ae ∧ multipart_buffer s = []
  | FrEvCommand (MultipartNack n) => n = length (multipart_buffer s)
  | FrEvCommand (FrUpdateView _ _) => True
  end.

(** What an event delivers: of an AppendEntries everything, the first part now and the
    others in the buffer, or nothing; a view update at most the next part. *)
Definition delivered (s : ForkReceiver) (ev : ForkReceiverEvent) (s' : ForkReceiver) (es : list ForkReceiverMsg) : Prop :=
  match ev with
  | FrEvFork ae _ | FrEvCommand (UseBackfillResponse ae _) =>
      (forwarded es = [] ∧ multipart_buffer s' = []) ∨
      (∃ p, forwarded es = [p] ∧ p ++ concat (multipart_buffer s').*1 = ae_blocks ae ∧
         parts_ok (fr_config_num s) (p :: (multipart_buffer s').*1))
  | FrEvCommand (FrUpdateView _ _) =>
      (forwarded es = [] ∧ multipart_buffer s' = multipart_buffer s) ∨
      (∃ p st, multipart_buffer s = (p, st) :: multipart_buffer s' ∧
         (forwarded es = [p] ∨ forwarded es = [] ∧ multipart_buffer s' = []))
  | FrEvCommand (MultipartNack _) => forwarded es = [] ∧ multipart_buffer s' = []
  end.

Lemma verifiable_parent b : verifiable b → is_Some (get_parent_hash_in_proto_block_ser (hs_body b)).
Proof.
  intros [r Hr]. unfold verify_block_ser in Hr.
  assert (is_Some (hash_proto_block_ser (hs_body b))) as [h Hh].
  { destruct (deserialize_proto_block (hs_body b)); [|done]. simpl in Hr. by destruct (hash_proto_block_ser (hs_body b)). }
  unfold hash_proto_block_ser in Hh. unfold get_parent_hash_in_proto_block_ser, slice.
  destruct (Nat.ltb_spec (length (hs_body b)) (DIGEST_LENGTH + SIGNATURE_LENGTH)); [done|].
  rewrite (proj2 (Nat.leb_le (SIGNATURE_LENGTH + DIGEST_LENGTH) _)) by lia. simpl. eauto.
Qed.

Lemma wp_forward_part part k st s :
  part ≠ [] → Forall verifiable part →
  wp (forward_part feat cfg ks part k st) (λ _ s' es,
    forwarded es = [part] ∧ ∃ h, hash_resolves h ∧ s' = fr_set_hash h s) s.
Proof.
  intros Hne Hv. unfold forward_part. wp_prims.
  destruct (list.last part) as [b|] eqn:Hlast; [|by apply last_None in Hlast].
  eapply wp_unwrap; [unfold prepare_fork; rewrite last_map, Hlast; reflexivity|]. wp_prims.
  split; [done|]. eexists. split; [|done]. apply last_Some_elem_of in Hlast.
  rewrite Forall_forall in Hv. destruct (Hv b Hlast) as [[e|cb] Hr]; by rewrite Hr.
Qed.

Lemma wp_send_nack sender ae s :
  ae_blocks ae ≠ [] →
  wp (send_nack cfg sender ae) (λ _ s' es, forwarded es = [] ∧ s' = fr_set_waiting true s) s.
Proof.
  unfold send_nack, ae_blocks. intros Hb. wp_prims. destruct (ae_fork ae) as [f|]; [|done]. simpl in Hb.
  destruct (serialized_blocks f) as [|b bs]; [done|]. wp_prims. eapply wp_unwrap; [done|]. by wp_prims.
Qed.

Lemma wp_last_hash s :
  hash_resolves (last_ae_block_hash s) →
  wp last_hash (λ _ s' es, es = [] ∧ ∃ h, hash_resolves h ∧ s' = fr_set_hash h s) s.
Proof.
  intros Hh. unfold last_hash. wp_prims. destruct s as [v c buf bl lv h w]. simpl in *.
  destruct h as [|h|[h|]|[[[]|h]|]]; simpl in *; try done; wp_prims.
  - split; [done|]. by exists FHNone.
  - split; [done|]. by exists (FHImmediate h).
  - eapply wp_unwrap; [done|]. wp_prims. split; [done|]. by exists (FHImmediate h).
  - eapply wp_unwrap; [done|]. wp_prims. split; [done|]. by exists FHNone.
  - eapply wp_unwrap; [done|]. wp_prims. split; [done|]. by exists (FHImmediate h).
Qed.

Lemma wp_ensure_common_prefix ae s :
  ae_ok ae → hash_resolves (last_ae_block_hash s) →
  wp (ensure_common_prefix ae) (λ _ s' es, es = [] ∧ ∃ h, hash_resolves h ∧ s' = fr_set_hash h s) s.
Proof.
  intros [Hb Hv] Hh. unfold ensure_common_prefix, ae_blocks in *. destruct (ae_fork ae) as [f|]; [|done].
  wp_prims. eapply wp_unwrap; [done|]. simpl in *. destruct (serialized_blocks f) as [|b bs]; [done|].
  inversion Hv as [|? ? Hb1 _]; subst. destruct (verifiable_parent b Hb1) as [ph Hph].
  wp_prims. eapply wp_unwrap; [exact Hph|]. wp_prims. eapply wp_mono; [|by apply wp_last_hash].
  intros oh s1 e1 [-> Hs1]. cbv beta. destruct (bool_decide _); [by wp_prims|].
  destruct (lq_check_hash _ _); by wp_prims.
Qed.

(** What processing a fork in configuration [c] may leave. *)
Definition fork_done (c : Z) (ae : ProtoAppendEntries) (s' : ForkReceiver) (es : list ForkReceiverMsg) : Prop :=
  fr_inv s' ∧
  ((forwarded es = [] ∧ multipart_buffer s' = []) ∨
   (∃ p, forwarded es = [p] ∧ p ++ concat (multipart_buffer s').*1 = ae_blocks ae ∧
      parts_ok c (p :: (multipart_buffer s').*1))).

Lemma fork_done_nothing c ae s es :
  multipart_buffer s = [] → blocked_on_multipart s = false → hash_resolves (last_ae_block_hash s) →
  forwarded es = [] → fork_done c ae s es.
Proof. intros Hb Hbl Hh He. split; [|by left]. split; [by rewrite Hbl, Hb|by rewrite Hb|done]. Qed.

Lemma parts_buffered (st : AppendEntriesStats) (l : list (list HalfSerializedBlock)) :
  Forall (λ p, p ≠ []) l → Forall verifiable (concat l) →
  Forall (λ e, e.1 ≠ [] ∧ Forall verifiable e.1) (map (λ p, (p, st)) l).
Proof.
  intros Hne Hv. induction l as [|p l IH]; simpl in *; [constructor|].
  apply Forall_cons in Hne as [Hp Hne]. apply Forall_app in Hv as [Hvp Hv]. constructor; [done|]. by apply IH.
Qed.

Lemma wp_forward_parts c ae sender parts s :
  multipart_buffer s = [] → blocked_on_multipart s = false → hash_resolves (last_ae_block_hash s) →
  Forall (λ p, p ≠ []) parts → Forall verifiable (concat parts) → concat parts = ae_blocks ae → parts_ok c parts →
  wp (forward_parts feat cfg ks ae sender parts) (λ _ s' es, fork_done c ae s' es) s.
Proof.
  intros Hb Hbl Hh Hne Hv Hcat Hok. destruct parts as [|p ps]; simpl; wp_prims.
  { by apply fork_done_nothing. }
  inversion Hne as [|? ? Hp Hps]; subst. simpl in Hv, Hcat. apply Forall_app in Hv as [Hvp Hvps].
  eapply wp_mono; [|by apply wp_forward_part]. intros [] s1 e1 (Hf & h & Hh1 & ->).
  destruct ps as [|p2 ps]; cbn [length Nat.ltb Nat.leb]; wp_prims.
  - rewrite app_nil_r. split.
    + split; simpl; [by rewrite Hbl, Hb|by rewrite Hb|done].
    + right. exists p. simpl. by rewrite Hb.
  - apply wp_assert; [simpl; by rewrite Hb|]. wp_prims. rewrite !app_nil_r. simpl. rewrite Hb. simpl.
    assert (∀ st : AppendEntriesStats, (map (λ p, (p, st)) ps).*1 = ps) as Hmap.
    { intros st. clear. induction ps as [|q ps IH]; [done|]. simpl. by f_equal. }
    split.
    + split; simpl; [done| |done]. by apply (parts_buffered (ae_stats_of ae sender) (p2 :: ps)).
    + right. exists p. split; [done|]. simpl. rewrite Hmap. by split.
Qed.

Lemma wp_process_blocks ae sender s :
  fr_inv s → multipart_buffer s = [] → ae_ok ae →
  wp (process_blocks feat cfg ks ae sender (ae_blocks ae)) (λ _ s' es, fork_done (fr_config_num s) ae s' es) s.
Proof.
  intros [Hbl _ Hh] Hb [Hne Hv]. rewrite Hb in Hbl. unfold process_blocks. wp_prims.
  assert (wp (send_nack cfg sender ae) (λ _ s' es, fork_done (fr_config_num s) ae s' es) s) as Hnack.
  { eapply wp_mono; [|by apply wp_send_nack]. intros [] s1 e1 [Hf ->]. by apply fork_done_nothing. }
  destruct (scan_views (fr_view s) (ae_blocks ae)) as [tv|]; [|exact Hnack].
  destruct (tv <? ae_view ae); [exact Hnack|]. wp_prims.
  destruct (split_parts (fr_config_num s) [] [] (ae_blocks ae)) as [parts|] eqn:Hsp; wp_prims.
  - apply split_parts_spec in Hsp as (ps' & -> & Hcat & Hpne & Hok); [|constructor]. simpl in *.
    apply (wp_forward_parts (fr_config_num s)); try done. by rewrite Hcat.
  - by apply fork_done_nothing.
Qed.

Lemma wp_process_fork ae sender s :
  fr_inv s → multipart_buffer s = [] → ae_ok ae →
  wp (process_fork feat cfg ks ae sender) (λ _ s' es, fork_done (fr_config_num s) ae s' es) s.
Proof.
  intros Hi Hb Hae. pose proof (fri_blocked _ Hi) as Hbl. rewrite Hb in Hbl. pose proof (fri_hash _ Hi) as Hh.
  unfold process_fork. wp_prims. destruct ((ae_view ae <? fr_view s) || _); [wp_prims; by apply fork_done_nothing|].
  wp_prims. apply (wp_mono _ (λ _ s1 e1, e1 = [] ∧ s1 = s)).
  2: { unfold wrong_sender. wp_prims. destruct (ae_config_num ae =? fr_config_num s); [|by wp_prims].
       destruct (config_leader feat _ (ae_view ae) Hcfg) as [l Hl]. wp_prims. eapply wp_unwrap; [exact Hl|]. by wp_prims. }
  intros wrong s1 e1 [-> ->]. destruct wrong; [wp_prims; by apply fork_done_nothing|]. wp_prims.
  eapply wp_mono; [|by apply wp_ensure_common_prefix]. intros r s1 e1 (-> & h & Hh1 & ->).
  assert (fr_inv (fr_set_hash h s)) as Hi1 by (destruct Hi; by split).
  destruct r; [|eapply wp_mono; [|apply wp_send_nack, Hae]; intros [] s2 e2 [Hf ->]; by apply fork_done_nothing].
  pose proof (wp_process_blocks ae sender _ Hi1 Hb Hae) as Hw. destruct Hae as [Hne Hv].
  unfold ae_blocks in Hw, Hne. destruct (ae_fork ae) as [f|]; [|done]. simpl in Hw.
  eapply wp_mono; [|exact Hw]. done.
Qed.

Lemma wp_next_part s :
  fr_inv s →
  wp (next_part feat cfg ks) (λ _ s' es,
    Forall (λ e, e.1 ≠ [] ∧ Forall verifiable e.1) (multipart_buffer s') ∧ hash_resolves (last_ae_block_hash s') ∧
    blocked_on_multipart s' = blocked_on_multipart s ∧
    ((forwarded es = [] ∧ multipart_buffer s' = multipart_buffer s) ∨
     (∃ p st, multipart_buffer s = (p, st) :: multipart_buffer s' ∧
        (forwarded es = [p] ∨ forwarded es = [] ∧ multipart_buffer s' = [])))) s.
Proof.
  intros [Hbl Hp Hh]. unfold next_part. wp_prims. destruct (multipart_buffer s) as [|[part st] rest] eqn:Hb; wp_prims.
  { rewrite Hb. split_and!; [done..|by left]. }
  inversion Hp as [|? ? [Hpne Hpv] Hrest]; subst. simpl in Hpne, Hpv.
  apply (wp_mono _ (λ r s1 e1, e1 = [] ∧ s1 = fr_set_buffer rest s ∧ (r = false → rest = []))).
  2: { destruct (Nat.eqb_spec (length rest) 0) as [Hl|]; [|by wp_prims].
       destruct (config_leader feat _ (fr_view s) Hcfg) as [l Hld]. wp_prims. eapply wp_unwrap; [exact Hld|]. wp_prims.
       split_and!; [done..|]. intros _. by apply nil_length_inv. }
  intros legit s1 e1 (-> & -> & Hlegit). destruct legit; simpl; wp_prims.
  - eapply wp_mono; [|by apply wp_forward_part]. intros [] s2 e2 (Hf & h & Hh2 & ->). simpl.
    split_and!; [done..|]. right. exists part, st. simpl. by split; [|left].
  - split_and!; [done..|]. right. exists part, st. simpl. split; [done|]. right. by split; [|apply Hlegit].
Qed.

Lemma fr_inv_unblock s :
  Forall (λ e, e.1 ≠ [] ∧ Forall verifiable e.1) (multipart_buffer s) → hash_resolves (last_ae_block_hash s) →
  (multipart_buffer s ≠ [] → blocked_on_multipart s = true) →
  fr_inv (if (length (multipart_buffer s) =? 0)%nat then fr_set_blocked false s else s).
Proof.
  intros Hp Hh Hbl. destruct (multipart_buffer s) as [|e l] eqn:Hb; simpl.
  - split; simpl; by rewrite ?Hb.
  - split; rewrite ?Hb; [by apply Hbl|done|done].
Qed.

Lemma wp_fork_receiver_worker s ev :
  fr_inv s → fr_enabled s ev = true → fr_event_ok s ev →
  wp (fork_receiver_worker feat cfg ks ev) (λ _ s' es, fr_inv s' ∧ delivered s ev s' es) s.
Proof.
  intros Hi Hen Hok. pose proof Hi as [Hbl Hp Hh]. destruct ev as [ae sender|cmd]; simpl in *.
  - assert (multipart_buffer s = []) as Hb.
    { rewrite Hbl in Hen. by destruct (multipart_buffer s). }
    destruct sender as [|name sid]; [wp_prims; split; [done|by left]|]. by apply wp_process_fork.
  - destruct cmd as [v c|n|ae sender]; simpl.
    + wp_prims. apply (wp_mono _ (λ _ s1 e1, e1 = [] ∧ hash_resolves (last_ae_block_hash s1) ∧
        multipart_buffer s1 = multipart_buffer s ∧ blocked_on_multipart s1 = blocked_on_multipart s)).
      2: { destruct (negb _); by wp_prims. }
      intros [] s1 e1 (-> & Hh1 & Hb1 & Hbl1). wp_prims.
      assert (fr_inv (fr_set_view v c s1)) as Hi1 by (split; simpl; rewrite ?Hb1, ?Hbl1; done).
      apply (wp_mono _ (λ _ s2 e2, Forall (λ e, e.1 ≠ [] ∧ Forall verifiable e.1) (multipart_buffer s2) ∧
        hash_resolves (last_ae_block_hash s2) ∧ blocked_on_multipart s2 = blocked_on_multipart s ∧
        delivered s (FrEvCommand (FrUpdateView v c)) s2 e2)).
      2: { destruct ((fr_config_num s <? c) && _).
           - eapply wp_mono; [|by apply wp_next_part]. intros [] s2 e2. simpl. by rewrite Hb1, Hbl1.
           - wp_prims. simpl. rewrite Hb1, Hbl1. split_and!; [done..|by left]. }
      intros [] s2 e2 (Hp2 & Hh2 & Hbl2 & Hd). unfold maybe_unblock. wp_prims. rewrite !app_nil_r. split.
      * apply fr_inv_unblock; [done..|]. intros Hne. rewrite Hbl2, Hbl. apply Nat.ltb_lt.
        simpl in Hd. destruct (multipart_buffer s); [|simpl; lia]. by destruct Hd as [[_ ?]|(? & ? & ? & _)].
      * simpl in *. by destruct (length (multipart_buffer s2) =? 0)%nat.
    + wp_prims. apply wp_assert; [by apply Nat.eqb_eq|]. unfold maybe_unblock. wp_prims. subst n. simpl.
      rewrite drop_all. simpl. split; [|done]. by split.
    + destruct Hok as [Hae Hb]. by apply wp_process_fork.
Qed.

End delivery.


Definition toy_log_query : LogQuery := {| lq_check_hash := λ n _, n =? 0; lq_get_hints := λ _, [] |}.
Definition toy_half (n c : Z) (stable : bool) : HalfSerializedBlock :=
  mkHalf n 1 stable c (zeros 64 ++ zeros 64 ++ [Byte.x2a]).
Definition toy_ae : ProtoAppendEntries :=
  mkAE (Some (mkFork [toy_half 1 1 false; toy_half 2 2 false; toy_half 3 2 true])) 0 1 true 2 false.


(** * A lost backfill reply *)

(** A run of the task that receives no backfill response. *)
Inductive fr_run `{Codec, Ed25519, LogQuery} (feat : Features) (cfg : Config) (ks : KeyStore) (s : ForkReceiver)
    : list ForkReceiverEvent → ForkReceiver → Prop :=
  | fr_run_nil : fr_run feat cfg ks s [] s
  | fr_run_step evs ev s1 s2 es :
      fr_run feat cfg ks s evs s1 → (∀ ae sender, ev ≠ FrEvCommand (UseBackfillResponse ae sender)) →
      fr_step feat cfg ks s1 ev s2 es → fr_run feat cfg ks s (evs ++ [ev]) s2.

Lemma waiting_forward `{Codec, Ed25519, LogQuery} feat cfg ks part k st s :
  wlp (forward_part feat cfg ks part k st) (λ _ s' _, waiting_on_nack_reply s' = waiting_on_nack_reply s) s.
Proof. unfold forward_part. by wlp_prims. Qed.

Lemma waiting_update_view `{Codec, Ed25519, LogQuery} feat cfg ks v c s :
  wlp (handle_command feat cfg ks (FrUpdateView v c))
    (λ _ s' _, waiting_on_nack_reply s' = waiting_on_nack_reply s) s.
Proof.
  simpl. wlp_prims. eapply (wlp_mono _ (λ _ s1 _, waiting_on_nack_reply s1 = waiting_on_nack_reply s)).
  2: { destruct (negb _); by wlp_prims. }
  intros [] s1 e1 Hw1. wlp_prims.
  eapply (wlp_mono _ (λ _ s2 _, waiting_on_nack_reply s2 = waiting_on_nack_reply s)).
  - intros [] s2 e2 Hw2. unfold maybe_unblock. wlp_prims. by destruct (length (multipart_buffer s2) =? 0)%nat.
  - destruct (_ && _); [|by wlp_prims]. unfold next_part. wlp_prims. simpl.
    destruct (multipart_buffer s1) as [|[part st] rest]; [by wlp_prims|]. wlp_prims.
    eapply (wlp_mono _ (λ _ s2 _, waiting_on_nack_reply s2 = waiting_on_nack_reply s)).
    + intros legit s2 e2 Hw2. destruct (negb legit); [by wlp_prims|].
      eapply wlp_mono; [|apply waiting_forward]. intros [] s3 e3 Hw3. simpl. congruence.
    + destruct (length rest =? 0)%nat; by wlp_prims.
Qed.

Lemma waiting_step `{Codec, Ed25519, LogQuery} feat cfg ks s ev s' es :
  fr_step feat cfg ks s ev s' es → waiting_on_nack_reply s = true →
  (∀ ae sender, ev ≠ FrEvCommand (UseBackfillResponse ae sender)) →
  waiting_on_nack_reply s' = true ∧ ∀ ae sender, ev ≠ FrEvFork ae sender.
Proof.
  intros [Hen Hr] Hw Hev. destruct ev as [ae sender|[v c|n|ae sender]]; simpl in *.
  - by rewrite Hw, orb_true_r in Hen.
  - split; [|done]. rewrite <-Hw. by eapply (waiting_update_view feat cfg ks v c s).
  - split; [|done]. revert Hr. unfold mbind, M_bind, get, assert_. simpl.
    destruct (n =? length (multipart_buffer s))%nat; [|done]. simpl. intros [= <- <-].
    by destruct (length (drop n (multipart_buffer s)) =? 0)%nat.
  - by destruct (Hev ae sender).
Qed.

(** A lost backfill reply silences the replica.  Once the task has asked for a
    backfill, no sequence of view updates and multipart acknowledgements makes it read
    AppendEntries again: until a backfill response arrives, it stays in the waiting state
    and takes no message from any leader, whatever view it has moved to.  A leader that
    sends one message with an unknown parent and never answers the request thus removes a
    follower from every later view. *)
Lemma nack_silences_replica `{Codec, Ed25519, LogQuery} feat cfg ks s evs s' :
  waiting_on_nack_reply s = true → fr_run feat cfg ks s evs s' →
  waiting_on_nack_reply s' = true ∧ (∀ ae sender, FrEvFork ae sender ∉ evs) ∧
  ∀ ae sender, fr_enabled s' (FrEvFork ae sender) = false.
Proof.
  intros Hw Hrun. assert (waiting_on_nack_reply s' = true ∧ ∀ ae sender, FrEvFork ae sender ∉ evs) as [Hw' Hno].
  { induction Hrun as [|evs ev s1 s2 es Hrun IH Hev Hstep].
    - split; [done|]. intros ae sender. apply not_elem_of_nil.
    - destruct IH as [Hw1 Hno]. destruct (waiting_step _ _ _ _ _ _ _ Hstep Hw1 Hev) as [Hw2 Hne].
      split; [done|]. intros ae sender [Hin|Hin%list_elem_of_singleton]%elem_of_app; [by eapply Hno|].
      by destruct (Hne ae sender). }
  split_and!; [done|done|]. intros ae sender. simpl. by rewrite Hw', orb_true_r.
Qed.

Lemma nack_silences_replica_witness :
  let C := toy_codec (mkBlock [] 1 [] 1 [] [] false 1 None) in let Ed := toy_ed in let Q := toy_log_query in
  let cfg := mkConfig "node3" four_nodes in
  let s := mkForkReceiver 1 1 [] false 0 FHNone true in
  let s' := mkForkReceiver 2 1 [] false 2 FHNone true in
  waiting_on_nack_reply s' = true ∧ (∀ ae sender, FrEvFork ae sender ∉ [] ++ [FrEvCommand (FrUpdateView 2 1)]) ∧
  ∀ ae sender, fr_enabled s' (FrEvFork ae sender) = false.
Proof.
  intros C Ed Q cfg s s'.
  apply (@nack_silences_replica C Ed Q pirateship_features cfg toy_keystore s); [done|].
  eapply (@fr_run_step C Ed Q); [constructor|done|]. split; reflexivity.
Defined.

(** An AppendEntries without a fork aborts the task: any authenticated node can send one
    for a later configuration, which skips the leader check. *)
Lemma missing_fork_aborts `{Codec, Ed25519, LogQuery} feat cfg ks s ae sender sid :
  ae_fork ae = None → fr_view s ≤ ae_view ae → fr_config_num s < ae_config_num ae →
  fork_receiver_worker feat cfg ks (FrEvFork ae (Auth sender sid)) s = None.
Proof.
  intros Hf Hv Hc. simpl. unfold process_fork, wrong_sender, ensure_common_prefix, mbind, M_bind, get. simpl.
  destruct (Z.ltb_spec (ae_view ae) (fr_view s)); [lia|].
  destruct (Z.ltb_spec (ae_config_num ae) (fr_config_num s)); [lia|]. simpl.
  destruct (Z.eqb_spec (ae_config_num ae) (fr_config_num s)); [lia|]. simpl. by rewrite Hf.
Qed.
