(* ===== verification/Broadcaster.v ===== *)
(** The block broadcaster (src/src/consensus/block_broadcaster.rs): it stores every block,
    hands it to staging and, for the node's own blocks, sends it to the other nodes together
    with the prefix of the chosen fork.  The equivocation of the evil feature is included.  Theorem: what a leader hands to its staging is what
    every follower that verifies the message hands to its own. *)

From stdpp Require Import base numbers list gmap strings option sorting.
From S2P Require Import Prelude Types Config Serialize Crypto Pacemaker ForkReceiver.

Record BlockBroadcaster := mkBroadcaster {
  bb_ci : Z;
  fork_prefix_buffer : list CachedBlock;
  evil_last_hash : FutureHash }.

Definition broadcaster_new : BlockBroadcaster := mkBroadcaster 0 [] FHNone.

Definition set_evil_hash (h : FutureHash) (s : BlockBroadcaster) : BlockBroadcaster :=
  mkBroadcaster (bb_ci s) (fork_prefix_buffer s) h.

(** The part of the configuration that exists with the evil feature. *)
Record EvilConfig := mkEvil { simulate_byzantine_behavior : bool; byzantine_start_block : Z }.

Inductive BroadcasterMsg :=
  | BbStore (b : CachedBlock)
  | BbToStaging (b : CachedBlock) (ack : StorageAck) (stats : AppendEntriesStats) (this_is_final_block : bool)
  | BbToApp (cmd : AppCommand)
  | BbToForkReceiver (cmd : ForkReceiverCommand)
  | BbBroadcast (names : list string) (ae : ProtoAppendEntries) (min_success : Z).

(** [None] in a block channel is a dropped sender. *)
Inductive BroadcasterEvent :=
  | BbEvMyBlock (n : Z) (b : option CachedBlock)
  | BbEvOtherBlock (mf : MultipartFork)
  | BbEvControl (cmd : BlockBroadcasterCommand).

(** [if let Err(e) = block] *)
Definition verified (r : unit + CachedBlock) : option CachedBlock :=
  match r with inr b => Some b | inl _ => None end.

Section broadcaster.
Context `{Codec, Ed25519} (feat : Features) (cfg : Config) (ks : KeyStore).
Context (evil : option EvilConfig).        (* [None]: built without the evil feature *)
Context (put_block : CachedBlock → StorageAck).

Abbreviation BB := (M BlockBroadcaster BroadcasterMsg).

(** [MultipartFork::await_all]; the outer [None] is the [unwrap] of a dropped channel. *)
Definition await_all (mf : MultipartFork) : option (list (unit + CachedBlock)) := mapM id (fork_future mf).

(** [UpdateCI] and [NextAEForkPrefix]. *)
Definition bb_handle_control (cmd : BlockBroadcasterCommand) : BB unit :=
  match cmd with
  | UpdateCI ci => modify (λ s, mkBroadcaster ci (fork_prefix_buffer s) (evil_last_hash s))
  | NextAEForkPrefix blocks =>
      mfor blocks (λ b,
        b ← unwrap b;
        modify (λ s, mkBroadcaster (bb_ci s) (fork_prefix_buffer s ++ [b]) (evil_last_hash s)))
  end.

Definition store_and_forward_internally (block : CachedBlock) (ae_stats : AppendEntriesStats)
    (this_is_final_block : bool) : BB unit :=
  _ ← emit (BbStore block);
  emit (BbToStaging block (put_block block) ae_stats this_is_final_block).

(** [for block in blocks { cnt += 1; f(block, cnt == len) }] *)
Fixpoint for_final {A} (f : A → bool → BB unit) (l : list A) : BB unit :=
  match l with
  | [] => mret tt
  | x :: l' => _ ← f x (length l' =? 0)%nat; for_final f l'
  end.

Definition broadcast_ae_fork (names : list string) (ae_fork : list CachedBlock) (view : Z) (view_is_stable : bool)
    (config_num : Z) : BB unit :=
  s ← get;
  emit (BbBroadcast names
    (mkAE (Some (mkFork (map half_serialize ae_fork))) (bb_ci s) view view_is_stable config_num false)
    (get_byzantine_broadcast_threshold feat (consensus_config cfg))).

(** The extra transaction by which the second copy of a block differs. *)
Definition dummy_tx : ProtoTransaction := mkTx None None None false false.
Definition push_tx (tx : ProtoTransaction) (b : ProtoBlock) : ProtoBlock :=
  mkBlock (pb_tx_list b ++ [tx]) (pb_n b) (pb_parent b) (pb_view b) (pb_qc b) (pb_fork_validation b) (pb_view_is_stable b)
    (pb_config_num b) (pb_sig b).

(** Equivocation, for tests: the second half of the nodes gets another last block, chained
    to the previous one of its kind; the names of the first half are returned. *)
Definition maybe_act_evil (names : list string) (ae_fork : list CachedBlock) (view : Z) (view_is_stable : bool)
    (config_num : Z) : BB (list string) :=
  match evil with
  | None => mret names
  | Some e =>
      first_leader ← unwrap (head (node_list (consensus_config cfg)));
      if negb (bool_decide (first_leader = net_name cfg) && simulate_byzantine_behavior e) then mret names else
      block ← unwrap (list.last ae_fork);
      if pb_n (cb_block block) <? byzantine_start_block e then mret names else
      _ ← modify (λ s, match evil_last_hash s with
                       | FHNone => set_evil_hash (FHImmediate (pb_parent (cb_block block))) s
                       | _ => s
                       end);
      s ← get;
      _ ← modify (set_evil_hash FHNone);
      let must_sign := match pb_sig (cb_block block) with Some (ProposerSig _) => true | _ => false end in
      block ← unwrap (prepare_block ks (push_tx dummy_tx (cb_block block)) must_sign (evil_last_hash s));
      _ ← modify (set_evil_hash (FHFuture (Some (cb_hash block))));
      let partition_1_size := (length names / 2)%nat in
      _ ← broadcast_ae_fork (drop partition_1_size names) (removelast ae_fork ++ [block]) view view_is_stable config_num;
      mret (take partition_1_size names)
  end.

Definition new_request_batch (block : CachedBlock) (view : Z) (view_is_stable i_am_leader : bool) : AppCommand :=
  NewRequestBatch (pb_n (cb_block block)) view view_is_stable i_am_leader (length (pb_tx_list (cb_block block)))
    (cb_hash block).

Definition process_my_block (block : CachedBlock) : BB unit :=
  s ← get;
  let view := pb_view (cb_block block) in
  let view_is_stable := pb_view_is_stable (cb_block block) in
  let config_num := pb_config_num (cb_block block) in
  let ae_fork := fork_prefix_buffer s ++ [block] in
  _ ← modify (λ s, mkBroadcaster (bb_ci s) [] (evil_last_hash s));
  _ ← for_final (λ b final, store_and_forward_internally b
        (mkAEStats view (pb_view_is_stable (cb_block b)) config_num (net_name cfg) (bb_ci s)) final) ae_fork;
  _ ← emit (BbToApp (new_request_batch block view view_is_stable true));
  names ← maybe_act_evil (everyone_and_learners_except_me cfg) ae_fork view view_is_stable config_num;
  broadcast_ae_fork names ae_fork view view_is_stable config_num.

(** A part with a block that failed verification is dropped, and so are the parts that
    would follow it. *)
Definition process_other_block (mf : MultipartFork) : BB unit :=
  results ← unwrap (await_all mf);
  match mapM verified results with
  | None => emit (BbToForkReceiver (MultipartNack (remaining_parts mf)))
  | Some blocks =>
      for_final (λ b final,
        _ ← store_and_forward_internally b (mf_ae_stats mf) final;
        emit (BbToApp (new_request_batch b (aes_view (mf_ae_stats mf)) (aes_view_is_stable (mf_ae_stats mf)) false)))
        blocks
  end.

Definition broadcaster_worker (ev : BroadcasterEvent) : BB unit :=
  match ev with
  | BbEvMyBlock _ (Some b) => process_my_block b
  | BbEvMyBlock _ None => mret tt
  | BbEvOtherBlock mf => process_other_block mf
  | BbEvControl cmd => bb_handle_control cmd
  end.

End broadcaster.

(** * From a leader's staging to a follower's *)

(** The blocks handed to staging, each with the flag of the last block of a message. *)
Definition staged (es : list BroadcasterMsg) : list (CachedBlock * bool) :=
  omap (λ m, match m with BbToStaging b _ _ final => Some (b, final) | _ => None end) es.
Definition sent_ae (es : list BroadcasterMsg) : list ProtoAppendEntries :=
  omap (λ m, match m with BbBroadcast _ ae _ => Some ae | _ => None end) es.
Definition bb_nacks (es : list BroadcasterMsg) : list nat :=
  omap (λ m, match m with BbToForkReceiver (MultipartNack k) => Some k | _ => None end) es.

(** The last of the blocks, and only it, is flagged. *)
Fixpoint flag_final (l : list CachedBlock) : list (CachedBlock * bool) :=
  match l with
  | [] => []
  | b :: l' => (b, (length l' =? 0)%nat) :: flag_final l'
  end.

(** The block as a receiver decodes it: an unsigned block has the [NoSig] marker. *)
Definition received (b : CachedBlock) : CachedBlock :=
  mkCached (with_parent_sig (cb_block b) (pb_parent (cb_block b)) (sig_norm (pb_sig (cb_block b)))) (cb_ser b) (cb_hash b).

(** Everything handed to staging has been stored before. *)
Definition stored_before_staged (es : list BroadcasterMsg) : Prop :=
  ∀ i b ack st final, es !! i = Some (BbToStaging b ack st final) →
    ∃ j, (j < i)%nat ∧ es !! j = Some (BbStore b).

Section broadcaster_proofs.
Context `{Codec, Ed25519} (feat : Features) (cfg : Config) (ks : KeyStore) (put_block : CachedBlock → StorageAck).

Lemma staged_app es1 es2 : staged (es1 ++ es2) = staged es1 ++ staged es2.
Proof. apply omap_app. Qed.

Lemma stored_app es1 es2 : stored_before_staged es1 → stored_before_staged es2 → stored_before_staged (es1 ++ es2).
Proof.
  intros H1 H2 i b ack st final Hi. destruct (decide (i < length es1)%nat) as [Hlt|Hge].
  - rewrite lookup_app_l in Hi by done. destruct (H1 _ _ _ _ _ Hi) as (j & Hj & He). exists j.
    split; [done|]. by apply lookup_app_l_Some.
  - rewrite lookup_app_r in Hi by lia. destruct (H2 _ _ _ _ _ Hi) as (j & Hj & He). exists (length es1 + j)%nat.
    split; [lia|]. rewrite lookup_app_r by lia. by replace (length es1 + j - length es1)%nat with j by lia.
Qed.

Lemma stored_one b ack st final es :
  stored_before_staged es → stored_before_staged ([BbStore b; BbToStaging b ack st final] ++ es).
Proof.
  apply stored_app. intros [|[|i]] b' ack' st' final' Hi; simplify_eq/=. exists 0%nat. split; [lia|done].
Qed.

(** The forwarding loop over blocks, with whatever else [g] sends per block. *)
Lemma wp_forward_for (stats : CachedBlock → AppendEntriesStats) (g : CachedBlock → list BroadcasterMsg)
    (f : CachedBlock → bool → M BlockBroadcaster BroadcasterMsg unit) l s :
  (∀ b final s, f b final s =
     Some (tt, s, [BbStore b; BbToStaging b (put_block b) (stats b) final] ++ g b)) →
  (∀ b, staged (g b) = [] ∧ bb_nacks (g b) = [] ∧ sent_ae (g b) = [] ∧ stored_before_staged (g b)) →
  wp (for_final f l) (λ _ s' es, s' = s ∧ staged es = flag_final l ∧ bb_nacks es = [] ∧ sent_ae es = [] ∧
    stored_before_staged es) s.
Proof.
  intros Hf Hg. induction l as [|b l IH]; cbn [for_final flag_final]; wp_prims; [done|].
  eapply wp_of_run; [apply Hf|]. eapply wp_mono; [|exact IH]. intros [] s' es (-> & Hs & Hn & Ha & Hst).
  destruct (Hg b) as (Hgs & Hgn & Hga & Hgst). split_and!; [done|..].
  - rewrite !staged_app, Hgs, Hs. done.
  - unfold bb_nacks in *. by rewrite !omap_app, Hgn, Hn.
  - unfold sent_ae in *. by rewrite !omap_app, Hga, Ha.
  - rewrite <-app_assoc. by apply stored_one, stored_app.
Qed.

Lemma silent_app_msg cmd :
  staged [BbToApp cmd] = [] ∧ bb_nacks [BbToApp cmd] = [] ∧ sent_ae [BbToApp cmd] = [] ∧
  stored_before_staged [BbToApp cmd].
Proof. split_and!; [done..|]. by intros [|i] b ack st final Hi. Qed.

Lemma wp_process_my_block block s :
  wp (process_my_block feat cfg ks None put_block block) (λ _ s' es,
    fork_prefix_buffer s' = [] ∧ staged es = flag_final (fork_prefix_buffer s ++ [block]) ∧
    (∃ ae, sent_ae es = [ae] ∧ ae_blocks ae = map half_serialize (fork_prefix_buffer s ++ [block])) ∧
    stored_before_staged es) s.
Proof.
  unfold process_my_block. wp_prims. eapply wp_mono.
  2: { apply (wp_forward_for (λ b, mkAEStats (pb_view (cb_block block)) (pb_view_is_stable (cb_block b))
         (pb_config_num (cb_block block)) (net_name cfg) (bb_ci s)) (λ _, [])); [done|].
       intros b. split_and!; [done..|]. by intros i b' ack st final Hi. }
  intros [] s1 es (-> & Hs & Hn & Ha & Hst). unfold maybe_act_evil, broadcast_ae_fork. wp_prims. split_and!.
  - done.
  - simpl. rewrite staged_app, Hs. simpl. by rewrite app_nil_r.
  - eexists. split; [unfold sent_ae in *; simpl; rewrite omap_app, Ha; reflexivity|done].
  - simpl. apply stored_app; [done|]. intros [|[|i]] b ack st final Hi; simplify_eq/=.
Qed.

Lemma flag_final_map f l : flag_final (map f l) = map (λ e, (f e.1, e.2)) (flag_final l).
Proof. induction l as [|b l IH]; [done|]. simpl. by rewrite IH, length_map. Qed.

Lemma mapM_id_some {A} (l : list (option A)) (l' : list A) : l = map Some l' → mapM id l = Some l'.
Proof. intros ->. induction l' as [|x l' IH]; simpl; [done|]. by rewrite IH. Qed.

Lemma wp_process_other_block mf results s :
  fork_future mf = map Some results →
  wp (process_other_block put_block mf) (λ _ s' es, s' = s ∧ stored_before_staged es ∧
    match mapM verified results with
    | Some blocks => staged es = flag_final blocks ∧ bb_nacks es = []
    | None => staged es = [] ∧ bb_nacks es = [remaining_parts mf]
    end) s.
Proof.
  intros Hf. unfold process_other_block. wp_prims.
  eapply wp_unwrap; [by apply mapM_id_some|].
  destruct (mapM _ results) as [blocks|].
  - eapply wp_mono; [|apply (wp_forward_for (λ _, mf_ae_stats mf)
      (λ b, [BbToApp (new_request_batch b (aes_view (mf_ae_stats mf)) (aes_view_is_stable (mf_ae_stats mf)) false)]));
      [done|intros b; apply silent_app_msg]].
    intros [] s' es (-> & Hs & Hn & _ & Hst). done.
  - wp_prims. split_and!; [done| |done|done]. by intros [|i] b ack st final Hi.
Qed.

(** The forks sent, with the nodes they are sent to. *)
Definition sent_to (es : list BroadcasterMsg) : list (list string * list HalfSerializedBlock) :=
  omap (λ m, match m with BbBroadcast names ae _ => Some (names, ae_blocks ae) | _ => None end) es.

Lemma sent_to_nil es : sent_ae es = [] → sent_to es = [].
Proof. induction es as [|m es IH]; [done|]. destruct m; simpl; try done; apply IH. Qed.

Lemma maybe_act_evil_run e names prefix block view vis cn s other :
  head (node_list (consensus_config cfg)) = Some (net_name cfg) → simulate_byzantine_behavior e = true →
  byzantine_start_block e ≤ pb_n (cb_block block) →
  prepare_block ks (push_tx dummy_tx (cb_block block))
    (match pb_sig (cb_block block) with Some (ProposerSig _) => true | _ => false end)
    (match evil_last_hash s with FHNone => FHImmediate (pb_parent (cb_block block)) | h => h end) = Some other →
  maybe_act_evil feat cfg ks (Some e) names (prefix ++ [block]) view vis cn s =
    Some (take (length names / 2) names, set_evil_hash (FHFuture (Some (cb_hash other))) s,
      [BbBroadcast (drop (length names / 2) names)
         (mkAE (Some (mkFork (map half_serialize (prefix ++ [other])))) (bb_ci s) view vis cn false)
         (get_byzantine_broadcast_threshold feat (consensus_config cfg))]).
Proof.
  intros Hfirst Hsim Hstart Hprep. unfold maybe_act_evil, broadcast_ae_fork, mbind, M_bind, unwrap, modify, get, emit. rewrite Hfirst, bool_decide_true, Hsim by done.
  cbn [andb negb]. rewrite last_snoc, removelast_last. rewrite (proj2 (Z.ltb_ge _ _)) by done.
  destruct s as [ci buf h]. cbn [evil_last_hash] in *.
  destruct h; cbn [evil_last_hash set_evil_hash bb_ci fork_prefix_buffer]; rewrite Hprep; reflexivity.
Qed.

(** The test leader equivocates on two consistent chains: the first half of the nodes gets
    the fork with the block, the second half the same fork with another block of the same
    number and view, with one more transaction, whose parent is the previous such block (at
    first the parent of the block); to its own staging the leader hands the block. *)
Lemma evil_leader_equivocates e block s p :
  let names := everyone_and_learners_except_me cfg in
  let half := (length names / 2)%nat in
  head (node_list (consensus_config cfg)) = Some (net_name cfg) → simulate_byzantine_behavior e = true →
  byzantine_start_block e ≤ pb_n (cb_block block) →
  resolve_parent (match evil_last_hash s with FHNone => FHImmediate (pb_parent (cb_block block)) | h => h end) = Some p →
  length p = DIGEST_LENGTH → (∀ m, length (ks_sign ks m) = SIGNATURE_LENGTH) →
  ∃ s' es other, process_my_block feat cfg ks (Some e) put_block block s = Some (tt, s', es) ∧
    sent_to es = [(drop half names, map half_serialize (fork_prefix_buffer s ++ [other]));
                  (take half names, map half_serialize (fork_prefix_buffer s ++ [block]))] ∧
    staged es = flag_final (fork_prefix_buffer s ++ [block]) ∧
    pb_n (cb_block other) = pb_n (cb_block block) ∧ pb_view (cb_block other) = pb_view (cb_block block) ∧
    pb_tx_list (cb_block other) = pb_tx_list (cb_block block) ++ [dummy_tx] ∧ pb_parent (cb_block other) = p ∧
    evil_last_hash s' = FHFuture (Some (cb_hash other)).
Proof.
  intros names half Hfirst Hsim Hstart Hp Hlp Hsig.
  set (must_sign := match pb_sig (cb_block block) with Some (ProposerSig _) => true | _ => false end).
  set (h := match evil_last_hash s with FHNone => FHImmediate (pb_parent (cb_block block)) | h => h end) in *.
  pose proof (prepare_block_eq ks (push_tx dummy_tx (cb_block block)) must_sign h p Hp Hlp (λ _, Hsig _)) as Hprep. cbv zeta in Hprep.
  set (other := mkCached _ _ _) in Hprep.
  assert (wp (process_my_block feat cfg ks (Some e) put_block block) (λ _ s' es,
    sent_to es = [(drop half names, map half_serialize (fork_prefix_buffer s ++ [other]));
                  (take half names, map half_serialize (fork_prefix_buffer s ++ [block]))] ∧
    staged es = flag_final (fork_prefix_buffer s ++ [block]) ∧ evil_last_hash s' = FHFuture (Some (cb_hash other))) s) as Hwp.
  { unfold process_my_block. wp_prims. eapply wp_mono.
    2: { apply (wp_forward_for (λ b, mkAEStats (pb_view (cb_block block)) (pb_view_is_stable (cb_block b))
           (pb_config_num (cb_block block)) (net_name cfg) (bb_ci s)) (λ _, [])); [done|].
         intros b. split_and!; [done..|]. by intros i b' ack st final Hi. }
    intros [] s1 es (-> & Hs & Hn & Ha & Hst). wp_prims.
    eapply wp_of_run; [by apply (maybe_act_evil_run e names (fork_prefix_buffer s) block _ _ _ _ other)|].
    unfold broadcast_ae_fork. wp_prims. split_and!; [|..|done].
    - pose proof (sent_to_nil es Ha) as Hnil. unfold sent_to in *. simpl. rewrite !omap_app, Hnil. reflexivity.
    - simpl. rewrite !staged_app, Hs. simpl. by rewrite app_nil_r. }
  destruct (wp_run _ _ _ Hwp) as ([] & s' & es & Hr & H1 & H2 & H3). by exists s', es, other.
Qed.

End broadcaster_proofs.

(** Followers stage what the leader stages.  A leader that proposes a block hands to its
    staging, after storing each, the prefix of the chosen fork and the block, flagging only
    the last, and sends exactly these blocks to the others.  A follower whose verification
    of the message returns these blocks (same bytes, same hash, same contents) forwards the
    part and hands its staging the same blocks with the same flags, each stored first; if the verification of any block returns
    an error, it hands over none of them and cancels the remaining parts. *)
Lemma broadcast_reaches_staging `{Codec, Ed25519, LogQuery} feat cfg cfg' ks ks' put put' block (s t : BlockBroadcaster)
    (fr : ForkReceiver) (remaining : nat) (stats : AppendEntriesStats) (results : list (unit + CachedBlock)) :
  Forall2 (λ b r, verify_block_ser feat ks' (consensus_config cfg')
      (fr_byzantine_liveness_threshold feat (consensus_config cfg')) (cb_ser b) = Some r)
    (fork_prefix_buffer s ++ [block]) results →
  ∃ s' es ae fr' mf t' es',
    process_my_block feat cfg ks None put block s = Some (tt, s', es) ∧
    staged es = flag_final (fork_prefix_buffer s ++ [block]) ∧ stored_before_staged es ∧ sent_ae es = [ae] ∧
    forward_part feat cfg' ks' (ae_blocks ae) remaining stats fr = Some (tt, fr', [FrForward mf]) ∧
    process_other_block put' mf t = Some (tt, t', es') ∧ stored_before_staged es' ∧
    (results = map (λ b, inr (received b)) (fork_prefix_buffer s ++ [block]) →
       staged es' = map (λ e, (received e.1, e.2)) (staged es) ∧ bb_nacks es' = []) ∧
    (inl tt ∈ results → staged es' = [] ∧ bb_nacks es' = [remaining]).
Proof.
  intros Hv.
  destruct (wp_run _ _ _ (wp_process_my_block feat cfg ks put block s)) as ([] & s' & es & Hr & _ & Hst & (ae & Hae & Hbl) & Hsb).
  assert (prepare_fork feat ks' (consensus_config cfg') (ae_blocks ae)
    (fr_byzantine_liveness_threshold feat (consensus_config cfg')) = map Some results) as Hpf.
  { rewrite Hbl. unfold prepare_fork. rewrite map_map. clear -Hv.
    induction Hv as [|b r l rs Hb Hv IH]; simpl; [done|]. f_equal; [exact Hb|exact IH]. }
  set (mf := mkMultipartFork (map Some results) remaining stats (ae_blocks ae)).
  assert (∃ r, list.last results = Some r) as [r Hlast].
  { destruct (list.last results) as [r|] eqn:Hl; [eauto|]. apply last_None in Hl. subst results.
    apply Forall2_length in Hv. rewrite length_app in Hv. simpl in Hv. lia. }
  destruct (wp_run _ _ _ (wp_process_other_block put' mf results t eq_refl)) as ([] & t' & es' & Hr' & _ & Hsb' & Hm).
  eexists s', es, ae, _, mf, t', es'. split_and!; try done.
  - unfold forward_part, mbind, M_bind, emit, unwrap. rewrite Hpf. simpl. rewrite last_map, Hlast. reflexivity.
  - intros ->. rewrite Hst, <-flag_final_map. assert (mapM verified (map (λ b, inr (received b)) (fork_prefix_buffer s ++ [block])) =
      Some (map received (fork_prefix_buffer s ++ [block]))) as Hmm.
    { clear. induction (fork_prefix_buffer s ++ [block]) as [|b l IH]; simpl; [done|]. by rewrite IH. }
    by rewrite Hmm in Hm.
  - intros Hin. assert (mapM verified results = None)
      as Hmm; [|by rewrite Hmm in Hm].
    apply mapM_None, Exists_exists. by exists (inl tt).
Qed.

Definition toy_block_b : ProtoBlock := mkBlock [] 1 [] 1 [] [] true 1 None.
Definition toy_cached : CachedBlock :=
  mkCached (mkBlock [] 1 (zeros 64) 1 [] [] true 1 None) (zeros 64 ++ zeros 64 ++ [Byte.x2a]) (take 64 ([Byte.x2a] ++ zeros 128)).
Definition toy_results : list (unit + CachedBlock) := map (λ b, inr (received b)) [toy_cached; toy_cached].

Lemma broadcast_reaches_staging_witness :
  let C := toy_codec toy_block_b in let Ed := toy_ed in let Q := toy_log_query in
  let s := mkBroadcaster 0 [toy_cached] FHNone in
  ∃ s' es ae fr' mf t' es',
    process_my_block pirateship_features (mkConfig "node1" four_nodes) toy_keystore None (λ _, Some Stored) toy_cached s = Some (tt, s', es) ∧
    staged es = flag_final [toy_cached; toy_cached] ∧ stored_before_staged es ∧ sent_ae es = [ae] ∧
    forward_part pirateship_features (mkConfig "node2" four_nodes) toy_keystore (ae_blocks ae) 0 (mkAEStats 1 true 1 "node1" 0)
      (fork_receiver_new pirateship_features) = Some (tt, fr', [FrForward mf]) ∧
    process_other_block (λ _, Some Stored) mf broadcaster_new = Some (tt, t', es') ∧ stored_before_staged es' ∧
    (toy_results = map (λ b, inr (received b)) [toy_cached; toy_cached] →
       staged es' = map (λ e, (received e.1, e.2)) (staged es) ∧ bb_nacks es' = []) ∧
    (inl tt ∈ toy_results →
       staged es' = [] ∧ bb_nacks es' = [0%nat]).
Proof.
  intros C Ed Q s.
  apply (@broadcast_reaches_staging C Ed Q pirateship_features (mkConfig "node1" four_nodes) (mkConfig "node2" four_nodes)
    toy_keystore toy_keystore (λ _, Some Stored) (λ _, Some Stored) toy_cached s broadcaster_new (fork_receiver_new pirateship_features)
    0 (mkAEStats 1 true 1 "node1" 0) toy_results).
  constructor; [vm_compute; reflexivity|]. constructor; [vm_compute; reflexivity|]. constructor.
Defined.
