(* ===== verification/Framing.v ===== *)
(** Message framing on a connection (src/src/rpc/client.rs, BufferedTlsStream, and
    src/src/rpc/server.rs, FrameReader): a frame is the length of the message as a
    big-endian u32 followed by its bytes; writes go through a fixed buffer that is flushed
    when full, reads through a buffer that is refilled from the socket.  What the socket
    delivers is a list of chunks of any size; what it accepts is the list of slices passed
    to [write_all].  Theorem: whatever the chunks, the reader gets the messages that were
    sent, in order; at end of stream it never returns. *)

From stdpp Require Import base numbers list strings option.
From S2P Require Import Prelude Types Serialize.

(** [io::Result] of an async function, which may also panic or not return. *)
Inductive io (A : Type) :=
  | IoOk (a : A)
  | IoErr
  | IoPanic
  | IoFuel.
Arguments IoOk {A} a.
Arguments IoErr {A}.
Arguments IoPanic {A}.
Arguments IoFuel {A}.

#[export] Instance io_ret : MRet io := λ A a, IoOk a.
#[export] Instance io_bind : MBind io := λ A B f m,
  match m with IoOk a => f a | IoErr => IoErr | IoPanic => IoPanic | IoFuel => IoFuel end.

(** [v[pos..][..k].copy_from_slice(data)] where [k] is the length of [data]. *)
Definition splice (v : bytes) (pos : nat) (data : bytes) : io bytes :=
  if (pos + length data <=? length v)%nat
  then IoOk (take pos v ++ data ++ drop (pos + length data) v) else IoPanic.

(** [&v[a..b]]. *)
Definition slice_io (a b : nat) (v : bytes) : io bytes :=
  match slice a b v with Some s => IoOk s | None => IoPanic end.

(** * Reading *)

(** [rd_stream] is what the coming reads of the socket find: [None] is an error, and past
    the end of the list the peer has closed the connection. *)
Record FrameReader := mkReader {
  rd_buffer : bytes;
  rd_offset : nat;
  rd_bound : nat;
  rd_stream : list (option bytes) }.

(** FrameReader::new has a buffer of 65536 bytes, BufferedTlsStream::new one of 8192. *)
Definition reader_new (capacity : nat) (stream : list (option bytes)) : FrameReader :=
  mkReader (zeros capacity) 0 0 stream.

(** [self.stream.read(self.buffer.as_mut())]: at most the capacity of the buffer is read,
    into its start; 0 bytes at end of stream.  [bound] and [offset] are then set. *)
Definition fetch (r : FrameReader) : io FrameReader :=
  match rd_stream r with
  | [] => IoOk (mkReader (rd_buffer r) 0 0 [])
  | None :: _ => IoErr
  | Some c :: s =>
      let got := take (length (rd_buffer r)) c in
      let left := drop (length (rd_buffer r)) c in
      IoOk (mkReader (got ++ drop (length got) (rd_buffer r)) 0 (length got)
              (match left with [] => s | _ => Some left :: s end))
  end.

(** The [while n > 0] loop; [v] is filled from [pos]. *)
Fixpoint read_next_bytes (fuel : nat) (r : FrameReader) (n pos : nat) (v : bytes) : io (FrameReader * bytes) :=
  match fuel with
  | O => IoFuel
  | S fuel' =>
      if (n =? 0)%nat then IoOk (r, v)
      else
        r ← (if (rd_bound r =? rd_offset r)%nat then fetch r else IoOk r);
        if (n <=? rd_bound r - rd_offset r)%nat then
          data ← slice_io (rd_offset r) (rd_offset r + n) (rd_buffer r);
          v ← splice v pos data;
          read_next_bytes fuel' (mkReader (rd_buffer r) (rd_offset r + n) (rd_bound r) (rd_stream r)) 0 pos v
        else
          let k := (rd_bound r - rd_offset r)%nat in
          data ← slice_io (rd_offset r) (rd_bound r) (rd_buffer r);
          v ← splice v pos data;
          read_next_bytes fuel' (mkReader (rd_buffer r) (rd_bound r) (rd_bound r) (rd_stream r)) (n - k) (pos + k) v
  end.

(** The size of the frame, the message being the first [sz] bytes of the buffer. *)
Definition get_next_frame (fuel : nat) (r : FrameReader) (buff : bytes) : io (FrameReader * bytes * nat) :=
  '(r, sz_vec) ← read_next_bytes fuel r 4 0 (zeros 4);
  let sz := Z.to_nat (from_be sz_vec) in
  let buff := if (length buff <? sz)%nat then buff ++ zeros (sz - length buff) else buff in
  '(r, buff) ← read_next_bytes fuel r sz 0 buff;
  IoOk (r, buff, sz).

(** The reading loop of [handle_stream]: the messages handed to the RPC handler, for as many
    frames as it is run; the buffer is reused from frame to frame. *)
Fixpoint read_frames (fuel rounds : nat) (r : FrameReader) (read_buf : bytes) : io (list bytes * FrameReader) :=
  match rounds with
  | O => IoOk ([], r)
  | S rounds' =>
      '(r, read_buf, sz) ← get_next_frame fuel r read_buf;
      msg ← slice_io 0 sz read_buf;
      '(msgs, r) ← read_frames fuel rounds' r read_buf;
      IoOk (msg :: msgs, r)
  end.

(** * Writing *)

(** The write half of BufferedTlsStream.  [wr_sent] are the slices the socket accepted,
    [wr_alive] whether it still accepts any. *)
Record FrameWriter := mkWriter {
  wr_buffer : bytes;
  wr_offset : nat;
  wr_sent : list bytes;
  wr_alive : bool }.

Definition WRITE_BUFFER_SIZE : nat := Z.to_nat 8192.

Definition writer_new : FrameWriter := mkWriter (zeros WRITE_BUFFER_SIZE) 0 [] true.

(** A failed [write_all] returns before the offset is reset.  The writer is returned with
    the result: it is shared, and survives the error. *)
Definition flush_write_buffer (w : FrameWriter) : FrameWriter * io unit :=
  if wr_alive w then
    match slice_io 0 (wr_offset w) (wr_buffer w) with
    | IoOk data => (mkWriter (wr_buffer w) 0 (wr_sent w ++ [data]) true, IoOk tt)
    | _ => (w, IoPanic)
    end
  else (w, IoErr).

(** The [while n > 0] loop; [n] bytes of [buff] are left, which ends at [len]. *)
Fixpoint write_loop (fuel : nat) (w : FrameWriter) (buff : bytes) (len n : nat) : FrameWriter * io unit :=
  match fuel with
  | O => (w, IoFuel)
  | S fuel' =>
      if (n =? 0)%nat then (w, IoOk tt)
      else
        let space_left := (length (wr_buffer w) - wr_offset w)%nat in
        if (space_left =? 0)%nat then
          let '(w, r) := flush_write_buffer w in
          match r with
          | IoOk _ => write_loop fuel' w buff len n
          | _ => (w, r)
          end
        else
          let to_write := if (n <? space_left)%nat then n else space_left in
          match slice_io (len - n) (len - n + to_write) buff with
          | IoOk data =>
              match splice (wr_buffer w) (wr_offset w) data with
              | IoOk b =>
                  write_loop fuel' (mkWriter b (wr_offset w + to_write) (wr_sent w) (wr_alive w)) buff len (n - to_write)
              | _ => (w, IoPanic)
              end
          | _ => (w, IoPanic)
          end
  end.

(** Every two iterations write at least one byte. *)
Definition write_all_bufffered (w : FrameWriter) (buff : bytes) (len : nat) : FrameWriter * io unit :=
  write_loop (S (2 * len)) w buff len len.

Definition write_u32_buffered (w : FrameWriter) (data : Z) : FrameWriter * io unit :=
  write_all_bufffered w (be_bytes 4 data) 4.

(** A message to be sent: a buffer and the number of its bytes that are the message. *)
Record MessageRef := mkMsgRef { mr_buf : bytes; mr_size : nat }.

(** The two [send_raw] calls and the flush of [PinnedClient::send], on its socket.  The
    length sent is that of the buffer ([Deref] to the vector). *)
Definition send_frame (w : FrameWriter) (m : MessageRef) : FrameWriter * io unit :=
  let '(w, r) := write_u32_buffered w (Z.of_nat (length (mr_buf m))) in
  match r with
  | IoOk _ =>
      let '(w, r) := write_all_bufffered w (mr_buf m) (mr_size m) in
      match r with
      | IoOk _ => flush_write_buffer w
      | _ => (w, r)
      end
  | _ => (w, r)
  end.

Fixpoint send_frames (w : FrameWriter) (ms : list MessageRef) : FrameWriter * io unit :=
  match ms with
  | [] => (w, IoOk tt)
  | m :: ms' =>
      let '(w, r) := send_frame w m in
      match r with IoOk _ => send_frames w ms' | _ => (w, r) end
  end.

(** * Reading returns what the socket delivered *)

Definition rd_data (r : FrameReader) : bytes :=
  take (rd_bound r - rd_offset r) (drop (rd_offset r) (rd_buffer r)) ++ concat (map (default []) (rd_stream r)).

(** The indices are in range and the reads to come succeed with at least one byte. *)
Record reader_ok (r : FrameReader) : Prop := {
  ro_offset : (rd_offset r ≤ rd_bound r)%nat;
  ro_bound : (rd_bound r ≤ length (rd_buffer r))%nat;
  ro_capacity : (0 < length (rd_buffer r))%nat;
  ro_stream : Forall (λ c, ∃ x, c = Some x ∧ x ≠ []) (rd_stream r) }.

Lemma reader_new_ok capacity chunks :
  (0 < capacity)%nat → Forall (λ x, x ≠ []) chunks →
  reader_ok (reader_new capacity (map Some chunks)) ∧ rd_data (reader_new capacity (map Some chunks)) = concat chunks.
Proof.
  intros Hc Hne. split.
  - split; cbn; rewrite ?length_zeros; try lia. apply Forall_map. eapply Forall_impl; [|exact Hne]. cbn. eauto.
  - unfold rd_data. cbn. rewrite map_map. cbn. by rewrite map_id.
Qed.

Lemma splice_ok a m c data :
  length m = length data → splice (a ++ m ++ c) (length a) data = IoOk (a ++ data ++ c).
Proof.
  intros Hl. unfold splice. rewrite !length_app, (proj2 (Nat.leb_le _ _)) by lia.
  rewrite take_app_length, (app_assoc a m c). by rewrite drop_app_length' by (rewrite length_app; lia).
Qed.

Lemma slice_io_ok a b v : (a ≤ b ≤ length v)%nat → slice_io a b v = IoOk (take (b - a) (drop a v)).
Proof.
  intros [Ha Hb]. unfold slice_io, slice.
  by rewrite (proj2 (Nat.leb_le _ _) Ha), (proj2 (Nat.leb_le _ _) Hb).
Qed.

Lemma fetch_ok r :
  reader_ok r → rd_bound r = rd_offset r → rd_stream r ≠ [] →
  ∃ r', fetch r = IoOk r' ∧ reader_ok r' ∧ rd_data r' = rd_data r ∧ (rd_offset r' < rd_bound r')%nat.
Proof.
  intros [Ho Hb Hc Hs] Heq Hne. unfold fetch, rd_data. rewrite Heq, Nat.sub_diag. cbn [take].
  destruct (rd_stream r) as [|c s]; [done|]. inversion_clear Hs as [|?? (x & -> & Hx) Hs'].
  set (got := take (length (rd_buffer r)) x). eexists. split; [reflexivity|].
  assert (length got = (length (rd_buffer r) `min` length x)%nat) as Hg by apply length_take.
  assert (0 < length x)%nat as Hlx by (destruct x; [done|simpl; lia]).
  split; [split; cbn|split; cbn].
  - lia.
  - rewrite length_app, length_drop. lia.
  - rewrite length_app, length_drop. lia.
  - destruct (drop (length (rd_buffer r)) x) eqn:Hd; [done|]. constructor; [|done]. eauto.
  - rewrite drop_0, Nat.sub_0_r, take_app_length. unfold got.
    destruct (drop (length (rd_buffer r)) x) eqn:Hd; cbn [map concat from_option id]; rewrite take_0, app_nil_l.
    + rewrite take_ge; [done|]. apply (f_equal length) in Hd. rewrite length_drop in Hd. simpl in Hd. lia.
    + by rewrite <-Hd, app_assoc, take_drop.
  - lia.
Qed.

(** Taking [k] bytes of what is buffered. *)
Lemma rd_data_advance r k :
  reader_ok r → (k ≤ rd_bound r - rd_offset r)%nat →
  let r' := mkReader (rd_buffer r) (rd_offset r + k) (rd_bound r) (rd_stream r) in
  reader_ok r' ∧ rd_data r' = drop k (rd_data r) ∧
  take k (drop (rd_offset r) (rd_buffer r)) = take k (rd_data r).
Proof.
  intros [Ho Hb Hc Hs] Hk r'. split; [split; cbn; try lia; done|].
  unfold rd_data, r'. cbn [rd_buffer rd_offset rd_bound rd_stream].
  assert (length (take (rd_bound r - rd_offset r) (drop (rd_offset r) (rd_buffer r))) = (rd_bound r - rd_offset r)%nat) as Hl
    by (rewrite length_take, length_drop; lia).
  split.
  - rewrite drop_app_le by lia. f_equal. rewrite skipn_firstn_comm, drop_drop. f_equal. lia.
  - rewrite take_app_le by lia. rewrite take_take. f_equal. lia.
Qed.

Lemma read_next_bytes_ok fuel r a m c :
  reader_ok r → (length m ≤ length (rd_data r))%nat → (length m < fuel)%nat →
  ∃ r', read_next_bytes fuel r (length m) (length a) (a ++ m ++ c) =
          IoOk (r', a ++ take (length m) (rd_data r) ++ c) ∧
        reader_ok r' ∧ rd_data r' = drop (length m) (rd_data r).
Proof.
  revert r a m. induction fuel as [|fuel IH]; intros r a m Hr Hn Hf; [lia|].
  cbn [read_next_bytes]. destruct (Nat.eqb_spec (length m) 0) as [Hz|Hn0].
  { exists r. by destruct m. }
  assert (∃ r1, (if (rd_bound r =? rd_offset r)%nat then fetch r else IoOk r) = IoOk r1 ∧ reader_ok r1 ∧
                rd_data r1 = rd_data r ∧ (rd_offset r1 < rd_bound r1)%nat) as (r1 & -> & Hr1 & Hd1 & Hlt).
  { destruct (Nat.eqb_spec (rd_bound r) (rd_offset r)) as [Heq|Hne].
    - apply fetch_ok; [done|done|]. intros Hnil. unfold rd_data in Hn. rewrite Hnil, Heq, Nat.sub_diag in Hn.
      simpl in Hn. lia.
    - exists r. pose proof (ro_offset r Hr). split; [done|]. split; [done|]. split; [done|lia]. }
  cbn [mbind io_bind]. rewrite <-Hd1 in *. clear Hd1. pose proof (ro_bound r1 Hr1) as Hb1.
  set (k := (rd_bound r1 - rd_offset r1)%nat) in *.
  destruct (Nat.leb_spec (length m) k) as [Hle|Hgt].
  - destruct (rd_data_advance r1 (length m) Hr1 Hle) as (Hr2 & Hd2 & Ht2).
    rewrite slice_io_ok, Nat.add_sub_swap, Nat.sub_diag, Nat.add_0_l, Ht2 by lia. cbn [mbind io_bind].
    rewrite splice_ok by (rewrite length_take; lia). cbn [mbind io_bind].
    eexists. split; [by destruct fuel; [lia|]|done].
  - destruct (rd_data_advance r1 k Hr1 ltac:(lia)) as (Hr2 & Hd2 & Ht2).
    rewrite slice_io_ok by lia. fold k. rewrite Ht2. cbn [mbind io_bind].
    assert (length (take k (rd_data r1)) = k) as Hlk by (rewrite length_take; lia).
    assert (a ++ m ++ c = a ++ take k m ++ (drop k m ++ c)) as -> by by rewrite (app_assoc (take k m)), take_drop.
    rewrite splice_ok by (rewrite Hlk, length_take; lia).
    cbn [mbind io_bind]. replace (rd_offset r1 + k)%nat with (rd_bound r1) in * by lia.
    replace (length m - k)%nat with (length (drop k m)) by apply length_drop.
    replace (length a + k)%nat with (length (a ++ take k (rd_data r1))) by (rewrite length_app; lia).
    rewrite (app_assoc a).
    destruct (IH _ (a ++ take k (rd_data r1)) (drop k m) Hr2) as (r' & Hrun & Hr' & Hd');
      [rewrite Hd2, !length_drop; lia|rewrite length_drop; lia|].
    exists r'. rewrite Hrun. rewrite Hd2, length_drop in *. split; [|split; [done|]].
    + do 2 f_equal. rewrite <-app_assoc. f_equal. rewrite app_assoc. f_equal.
      rewrite take_take_drop. f_equal. lia.
    + rewrite Hd', drop_drop. f_equal. lia.
Qed.

Lemma get_next_frame_ok fuel r buff msg rest :
  reader_ok r → rd_data r = be_bytes 4 (Z.of_nat (length msg)) ++ msg ++ rest →
  Z.of_nat (length msg) < 2 ^ 32 → (4 < fuel)%nat → (length msg < fuel)%nat →
  ∃ r' buff', get_next_frame fuel r buff = IoOk (r', buff', length msg) ∧
    slice_io 0 (length msg) buff' = IoOk msg ∧ reader_ok r' ∧ rd_data r' = rest.
Proof.
  intros Hr Hd Hlen Hf Hf'. unfold get_next_frame.
  destruct (read_next_bytes_ok fuel r [] (zeros 4) [] Hr) as (r1 & Hrun1 & Hr1 & Hd1);
    [rewrite Hd, length_app, length_be_bytes, length_zeros; lia|done|].
  rewrite length_zeros, Hd, app_nil_l, !app_nil_r in *. cbn [length] in Hrun1. rewrite Hrun1. cbn [mbind io_bind].
  rewrite take_app_length' by by rewrite length_be_bytes. cbn [app]. rewrite from_be_be_bytes, Z.mod_small, Nat2Z.id by lia.
  rewrite drop_app_length' in Hd1 by by rewrite length_be_bytes.
  set (buff' := if (length buff <? length msg)%nat then _ else _).
  assert (length msg ≤ length buff')%nat as Hl.
  { subst buff'. destruct (Nat.ltb_spec (length buff) (length msg)); [|lia].
    rewrite length_app, length_zeros. lia. }
  destruct (read_next_bytes_ok fuel r1 [] (take (length msg) buff') (drop (length msg) buff') Hr1)
    as (r2 & Hrun2 & Hr2 & Hd2); [rewrite Hd1, length_app, length_take; lia|rewrite length_take; lia|].
  rewrite length_take_le, app_nil_l, take_drop in Hrun2 by done. rewrite length_take_le in Hd2 by done.
  cbn [length app] in Hrun2. rewrite Hrun2. cbn [mbind io_bind]. rewrite Hd1, take_app_length in *.
  do 2 eexists. split; [done|]. rewrite drop_app_length in Hd2. split; [|done].
  rewrite slice_io_ok by (rewrite length_app; lia). by rewrite drop_0, Nat.sub_0_r, take_app_length.
Qed.

(** The bytes of a sequence of frames. *)
Definition frame (m : bytes) : bytes := be_bytes 4 (Z.of_nat (length m)) ++ m.

Lemma read_frames_ok fuel msgs r buff rest :
  reader_ok r → rd_data r = concat (map frame msgs) ++ rest → (4 < fuel)%nat →
  Forall (λ m, Z.of_nat (length m) < 2 ^ 32 ∧ (length m < fuel)%nat) msgs →
  ∃ r', read_frames fuel (length msgs) r buff = IoOk (msgs, r') ∧ reader_ok r' ∧ rd_data r' = rest.
Proof.
  intros Hr Hd Hf Hall. revert r buff Hr Hd. induction Hall as [|m msgs [Hm Hmf] Hall IH]; intros r buff Hr Hd.
  - by exists r.
  - cbn [length read_frames]. unfold frame in Hd. cbn [map concat] in Hd. rewrite <-!app_assoc in Hd.
    destruct (get_next_frame_ok fuel r buff m _ Hr Hd Hm Hf Hmf) as (r1 & buff1 & -> & Hs & Hr1 & Hd1).
    cbn [mbind io_bind]. rewrite Hs. cbn [mbind io_bind].
    destruct (IH r1 buff1 Hr1 Hd1) as (r2 & -> & Hr2 & Hd2). by exists r2.
Qed.

(** * Writing puts on the socket what was written *)

(** Everything written: what the socket accepted, then what is buffered. *)
Definition wr_data (w : FrameWriter) : bytes := concat (wr_sent w) ++ take (wr_offset w) (wr_buffer w).

Record writer_ok (w : FrameWriter) : Prop := {
  wo_offset : (wr_offset w ≤ length (wr_buffer w))%nat;
  wo_capacity : (0 < length (wr_buffer w))%nat;
  wo_alive : wr_alive w = true }.

Lemma flush_ok w :
  writer_ok w → ∃ w', flush_write_buffer w = (w', IoOk tt) ∧ writer_ok w' ∧ wr_offset w' = 0%nat ∧
                      concat (wr_sent w') = wr_data w ∧ wr_data w' = wr_data w.
Proof.
  intros [Ho Hc Ha]. unfold flush_write_buffer. rewrite Ha, slice_io_ok, Nat.sub_0_r, drop_0 by lia.
  eexists. split; [reflexivity|]. split; [by split; cbn; [lia|..]|]. split; [done|]. unfold wr_data. cbn.
  by rewrite take_0, app_nil_r, concat_app, concat_cons, app_nil_r.
Qed.

Lemma write_loop_ok fuel w buff len n :
  writer_ok w → (n ≤ len ≤ length buff)%nat →
  (if (wr_offset w =? length (wr_buffer w))%nat then 2 * n + 1 ≤ fuel else 1 ≤ fuel ∧ 2 * n ≤ fuel)%nat →
  ∃ w', write_loop fuel w buff len n = (w', IoOk tt) ∧ writer_ok w' ∧
        wr_data w' = wr_data w ++ take n (drop (len - n) buff).
Proof.
  revert w n. induction fuel as [|fuel IH]; intros w n Hw Hn Hf;
    [destruct (wr_offset w =? _)%nat; lia|].
  cbn [write_loop]. destruct (Nat.eqb_spec n 0) as [->|Hn0].
  { exists w. by rewrite take_0, app_nil_r. }
  pose proof (wo_offset w Hw) as Ho.
  destruct (Nat.eqb_spec (wr_offset w) (length (wr_buffer w))) as [Heq|Hne].
  - rewrite Heq, Nat.sub_diag. cbn [Nat.eqb].
    destruct (flush_ok w Hw) as (w1 & -> & Hw1 & Ho1 & _ & Hd1).
    destruct (IH w1 n Hw1 Hn) as (w2 & Hrun & Hw2 & Hd2).
    { pose proof (wo_capacity w1 Hw1). destruct (Nat.eqb_spec (wr_offset w1) (length (wr_buffer w1))); lia. }
    exists w2. rewrite Hd2, Hd1. done.
  - destruct (Nat.eqb_spec (length (wr_buffer w) - wr_offset w) 0); [lia|].
    set (t := if (n <? length (wr_buffer w) - wr_offset w)%nat then n else (length (wr_buffer w) - wr_offset w)%nat).
    assert (1 ≤ t ≤ n ∧ t ≤ length (wr_buffer w) - wr_offset w ∧
            (t = n ∨ t = length (wr_buffer w) - wr_offset w))%nat as (Ht1 & Ht2 & Ht3).
    { subst t. destruct (Nat.ltb_spec n (length (wr_buffer w) - wr_offset w)); lia. }
    rewrite slice_io_ok by lia. replace (len - n + t - (len - n))%nat with t by lia.
    set (data := take t (drop (len - n) buff)).
    assert (length data = t) as Hdl by (subst data; rewrite length_take, length_drop; lia).
    set (pre := take (wr_offset w) (wr_buffer w)). set (post := drop (wr_offset w) (wr_buffer w)).
    assert (length pre = wr_offset w) as Hpl by (subst pre; rewrite length_take; lia).
    assert (wr_buffer w = pre ++ take t post ++ drop t post) as Hb by (rewrite take_drop; subst pre post; by rewrite take_drop).
    assert (length post = (length (wr_buffer w) - wr_offset w)%nat) as Hpost by apply length_drop.
    assert (splice (wr_buffer w) (wr_offset w) data = IoOk (pre ++ data ++ drop t post)) as ->.
    { rewrite Hb, <-Hpl. apply splice_ok. rewrite length_take. lia. }
    destruct (IH (mkWriter (pre ++ data ++ drop t post) (wr_offset w + t) (wr_sent w) (wr_alive w)) (n - t)%nat)
      as (w2 & Hrun & Hw2 & Hd2).
    + destruct Hw as [? ? ?]. split; cbn; rewrite ?length_app, ?Hdl, ?length_drop; try lia. done.
    + lia.
    + cbn [wr_offset wr_buffer]. rewrite !length_app, Hdl, length_drop.
      destruct (Nat.eqb_spec (wr_offset w + t) (length pre + (t + (length post - t)))); lia.
    + exists w2. split; [exact Hrun|]. split; [done|]. rewrite Hd2. unfold wr_data. cbn [wr_sent wr_offset wr_buffer].
      rewrite app_assoc, take_app_length' by (rewrite length_app; lia). fold pre.
      rewrite <-!app_assoc. do 2 f_equal. subst data. replace (len - (n - t))%nat with (len - n + t)%nat by lia.
      rewrite <-drop_drop, take_take_drop. f_equal. lia.
Qed.

Lemma write_all_ok w buff len :
  writer_ok w → (len ≤ length buff)%nat →
  ∃ w', write_all_bufffered w buff len = (w', IoOk tt) ∧ writer_ok w' ∧ wr_data w' = wr_data w ++ take len buff.
Proof.
  intros Hw Hl. destruct (write_loop_ok (S (2 * len)) w buff len len Hw ltac:(lia)) as (w' & ? & ? & Hd).
  { destruct (_ =? _)%nat; lia. }
  exists w'. rewrite Nat.sub_diag, drop_0 in Hd. done.
Qed.

Lemma send_frame_ok w m :
  writer_ok w → mr_size m = length (mr_buf m) →
  ∃ w', send_frame w m = (w', IoOk tt) ∧ writer_ok w' ∧ wr_offset w' = 0%nat ∧
        concat (wr_sent w') = wr_data w ++ frame (mr_buf m) ∧ wr_data w' = wr_data w ++ frame (mr_buf m).
Proof.
  intros Hw Hsz. unfold send_frame, write_u32_buffered.
  destruct (write_all_ok w (be_bytes 4 (Z.of_nat (length (mr_buf m)))) 4 Hw) as (w1 & -> & Hw1 & Hd1);
    [by rewrite length_be_bytes|].
  destruct (write_all_ok w1 (mr_buf m) (mr_size m) Hw1 ltac:(lia)) as (w2 & -> & Hw2 & Hd2).
  destruct (flush_ok w2 Hw2) as (w3 & -> & Hw3 & Ho3 & Hs3 & Hd3). exists w3.
  rewrite Hs3, Hd3, Hd2, Hd1, Hsz. rewrite (take_ge (be_bytes _ _)), take_ge by (rewrite ?length_be_bytes; lia).
  unfold frame. by rewrite <-app_assoc.
Qed.

Lemma send_frames_ok w ms :
  writer_ok w → wr_offset w = 0%nat → Forall (λ m, mr_size m = length (mr_buf m)) ms →
  ∃ w', send_frames w ms = (w', IoOk tt) ∧ writer_ok w' ∧
        concat (wr_sent w') = concat (wr_sent w) ++ concat (map (λ m, frame (mr_buf m)) ms).
Proof.
  intros Hw Ho Hall. revert w Hw Ho. induction Hall as [|m ms Hm Hall IH]; intros w Hw Ho; cbn [send_frames].
  - exists w. by rewrite app_nil_r.
  - destruct (send_frame_ok w m Hw Hm) as (w1 & -> & Hw1 & Ho1 & Hs1 & _).
    destruct (IH w1 Hw1 Ho1) as (w2 & -> & Hw2 & Hs2). exists w2. split; [done|]. split; [done|].
    rewrite Hs2, Hs1. cbn [map concat]. unfold wr_data. by rewrite Ho, take_0, app_nil_r, <-app_assoc.
Qed.

Lemma writer_new_ok : writer_ok writer_new.
Proof. split; cbn [writer_new wr_offset wr_buffer wr_alive]; rewrite ?length_zeros; unfold WRITE_BUFFER_SIZE; [lia..|done]. Qed.

(** * Properties *)

(** C33: framing is transparent.  Sending any messages (each shorter than 4 GiB) on a fresh
    connection succeeds, and however the network cuts the resulting bytes into chunks, and
    whatever the capacity of the reader and the contents of its buffer, reading as many
    frames returns exactly those messages, in order. *)
Theorem frames_roundtrip (ms : list MessageRef) :
  Forall (λ m, mr_size m = length (mr_buf m) ∧ Z.of_nat (length (mr_buf m)) < 2 ^ 32) ms →
  ∃ w, send_frames writer_new ms = (w, IoOk tt) ∧
    ∀ chunks capacity fuel read_buf,
      concat chunks = concat (wr_sent w) → Forall (λ x, x ≠ []) chunks → (0 < capacity)%nat →
      (4 < fuel)%nat → Forall (λ m, (length (mr_buf m) < fuel)%nat) ms →
      ∃ r, read_frames fuel (length ms) (reader_new capacity (map Some chunks)) read_buf =
             IoOk (map mr_buf ms, r).
Proof.
  intros Hms. destruct (send_frames_ok writer_new ms writer_new_ok eq_refl) as (w & Hrun & _ & Hs).
  { eapply Forall_impl; [|exact Hms]. by intros m [? _]. }
  exists w. split; [done|]. intros chunks capacity fuel read_buf Hch Hne Hcap Hf Hf'.
  destruct (reader_new_ok capacity chunks Hcap Hne) as [Hr Hd].
  destruct (read_frames_ok fuel (map mr_buf ms) _ read_buf [] Hr) as (r & Hrd & _).
  - rewrite Hd, Hch, Hs, app_nil_r, map_map. done.
  - done.
  - apply Forall_map. rewrite List.Forall_forall in *. intros m Hm. split; [by apply Hms|by apply Hf'].
  - exists r. by rewrite length_map in Hrd.
Qed.

Lemma frames_roundtrip_witness :
  let m1 := [Byte.x61; Byte.x62; Byte.x63] in let m2 : bytes := [] in
  let ms := [mkMsgRef m1 3; mkMsgRef m2 0] in
  let chunks := [[Byte.x00]; [Byte.x00; Byte.x00; Byte.x03; Byte.x61]; [Byte.x62; Byte.x63; Byte.x00; Byte.x00; Byte.x00; Byte.x00]] in
  ∃ r, read_frames 5 2 (reader_new 3 (map Some chunks)) [Byte.xff] = IoOk ([m1; m2], r).
Proof.
  intros m1 m2 ms chunks.
  destruct (frames_roundtrip ms) as (w & Hs & Hr); [by repeat constructor|].
  apply (Hr chunks 3%nat 5%nat [Byte.xff]).
  - assert (w = (send_frames writer_new ms).1) as -> by by rewrite Hs. vm_compute. reflexivity.
  - by repeat constructor.
  - lia.
  - lia.
  - repeat constructor; cbn; lia.
Defined.

(** On a closed stream the loop makes no progress. *)
Lemma read_closed_spins fuel r :
  rd_stream r = [] → rd_bound r = rd_offset r → read_next_bytes fuel r 4 0 (zeros 4) = IoFuel.
Proof.
  revert r. induction fuel as [|fuel IH]; intros r Hs Hb; [done|]. cbn [read_next_bytes Nat.eqb].
  rewrite (proj2 (Nat.eqb_eq _ _) Hb). unfold fetch. rewrite Hs. cbn [mbind io_bind rd_bound rd_offset rd_buffer rd_stream].
  cbn [Nat.leb Nat.sub]. rewrite slice_io_ok by lia. cbn [mbind io_bind]. by apply IH.
Qed.

(** A closed connection is never noticed.  A read of 0 bytes means the peer has closed
    the connection; the loop takes it for an empty chunk and reads again, so the next frame
    of a closed connection is waited for without end (for every number of iterations the
    loop is still running), and the caller's check for a frame of size 0 is not reached. *)
Lemma closed_connection_spins (fuel : nat) (r : FrameReader) (buff : bytes) :
  rd_stream r = [] → rd_bound r = rd_offset r → get_next_frame fuel r buff = IoFuel.
Proof. intros Hs Hb. unfold get_next_frame. by rewrite read_closed_spins. Qed.

Lemma closed_connection_spins_witness : get_next_frame 1000 (reader_new 8 []) [] = IoFuel.
Proof. by apply closed_connection_spins. Defined.
