(* ===== verification/Storage.v ===== *)
(** Storage (src/src/utils/storage.rs, file_storage.rs, storage_service.rs): the trait of
    storage engines, the RocksDB and file engines, the service task that owns an engine and
    the connector through which the other tasks store and read blocks.  RocksDB, LZ4 and
    hexadecimal encoding are third-party and appear as classes.  The class [StorageLaws]
    states what an engine promises; both engines are shown to keep it, and the connector on
    top of any such engine is the block store the log server relies on. *)

From stdpp Require Import base numbers list gmap strings option.
From S2P Require Import Prelude Types Config Serialize Crypto Chain LogServer LogServerProofs.

(** * Engines *)

(** The trait: [None] is a panic; the result of a write is whether it is [Ok], that of a
    read an error or the bytes.  Reading may change the engine. *)
Class StorageEngine (D : Type) := {
  eng_init : D → option D;
  eng_put : D → bytes → bytes → option (D * bool);
  eng_put_multiple : D → list (bytes * bytes) → option (D * bool);
  eng_get : D → bytes → option (D * (unit + bytes)) }.

(** ** RocksDB *)

(** [db.put_opt], [db.write_without_wal] and [db.get] of the rocksdb crate. *)
Class RocksDB := {
  rocks_db : Type;
  rocks_put : rocks_db → bytes → bytes → rocks_db * bool;
  rocks_write : rocks_db → list (bytes * bytes) → rocks_db * bool;
  rocks_get : rocks_db → bytes → unit + option bytes }.

Section rocks.
Context `{RocksDB}.

Definition rocks_put_block (db : rocks_db) (block_ser block_hash : bytes) : option (rocks_db * bool) :=
  Some (rocks_put db block_hash block_ser).

Definition rocks_put_multiple_blocks (db : rocks_db) (blocks : list (bytes * bytes)) : option (rocks_db * bool) :=
  Some (rocks_write db (map (λ '(val, key), (key, val)) blocks)).

Definition rocks_get_block (db : rocks_db) (block_hash : bytes) : option (rocks_db * (unit + bytes)) :=
  Some (db, match rocks_get db block_hash with
            | inr (Some val) => inr val
            | inr None => inl tt
            | inl e => inl e
            end).

#[export] Instance rocks_engine : StorageEngine rocks_db := {|
  eng_init := λ db, Some db;
  eng_put := rocks_put_block;
  eng_put_multiple := rocks_put_multiple_blocks;
  eng_get := rocks_get_block |}.

End rocks.

(** ** Files *)

(** A file system: directories, files and whether writes succeed (the disk is not full). *)
Record Fs := mkFs {
  fs_dirs : gset string;
  fs_files : gmap string bytes;
  fs_writable : bool }.

Record FileStorageEngine := mkFileStorage { fse_path : string; fse_fs : Fs }.

(** [lz4_flex::{compress_prepend_size, decompress_size_prepended}] and
    [hex::ToHex::encode_hex]. *)
Class Lz4 := { compress : bytes → bytes; decompress : bytes → option bytes }.
Class Hex := { encode_hex : bytes → string }.

Section files.
Context `{Lz4, Hex}.

Definition set_fs (fs : Fs) (d : FileStorageEngine) : FileStorageEngine := mkFileStorage (fse_path d) fs.

(** [exists] and [create_dir], both of which panic on an error: creating fails when the
    parent is missing or the disk is full. *)
Definition create_dir_if_not_exists (fs : Fs) (parent_ok : bool) (dir_path : string) : option Fs :=
  if bool_decide (dir_path ∈ fs_dirs fs) then Some fs
  else if parent_ok && fs_writable fs
  then Some (mkFs ({[dir_path]} ∪ fs_dirs fs) (fs_files fs) (fs_writable fs))
  else None.

(** The file of a key, below a directory named by its first two digits, which is created;
    the slice panics on an empty key. *)
Definition hash_to_fname (d : FileStorageEngine) (block_hash : bytes) : option (FileStorageEngine * string) :=
  let path := encode_hex block_hash in
  if (String.length path <? 2)%nat then None
  else
    let dir_path := (fse_path d +:+ "/" +:+ String.substring 0 2 path)%string in
    fs ← create_dir_if_not_exists (fse_fs d) (bool_decide (fse_path d ∈ fs_dirs (fse_fs d))) dir_path;
    Some (set_fs fs d, (dir_path +:+ "/" +:+ path)%string).

Definition write_file (d : FileStorageEngine) (path : string) (contents : bytes) : FileStorageEngine * bool :=
  let fs := fse_fs d in
  if fs_writable fs
  then (set_fs (mkFs (fs_dirs fs) (<[path := compress contents]> (fs_files fs)) true) d, true)
  else (d, false).

(** The [unwrap] of a failed decompression is a panic. *)
Definition read_file (d : FileStorageEngine) (path : string) : option (unit + bytes) :=
  match fs_files (fse_fs d) !! path with
  | None => Some (inl tt)
  | Some res => match decompress res with Some u => Some (inr u) | None => None end
  end.

Definition file_init (d : FileStorageEngine) : option FileStorageEngine :=
  fs ← create_dir_if_not_exists (fse_fs d) true (fse_path d);
  Some (set_fs fs d).

(** [put_block] calls [persist]. *)
Definition persist (d : FileStorageEngine) (block_hash block_ser : bytes) : option (FileStorageEngine * bool) :=
  '(d, fname) ← hash_to_fname d block_hash;
  Some (write_file d fname block_ser).

Definition file_get_block (d : FileStorageEngine) (block_hash : bytes) : option (FileStorageEngine * (unit + bytes)) :=
  '(d, path) ← hash_to_fname d block_hash;
  r ← read_file d path;
  Some (d, r).

(** The first failed write ends the loop. *)
Fixpoint file_put_multiple_blocks (d : FileStorageEngine) (blocks : list (bytes * bytes))
    : option (FileStorageEngine * bool) :=
  match blocks with
  | [] => Some (d, true)
  | (val, key) :: blocks' =>
      '(d, ok) ← persist d key val;
      if (ok : bool) then file_put_multiple_blocks d blocks' else Some (d, false)
  end.

#[export] Instance file_engine : StorageEngine FileStorageEngine := {|
  eng_init := file_init;
  eng_put := λ d ser hash, persist d hash ser;
  eng_put_multiple := file_put_multiple_blocks;
  eng_get := file_get_block |}.

End files.

(** * The service *)

Inductive StorageServiceCommand :=
  | StPut (key val : bytes)
  | StGet (key : bytes).

Inductive StorageReply :=
  | StPutDone (ok : bool)
  | StGot (r : unit + bytes).

Section service.
Context {D : Type} `{StorageEngine D} (feat : Features).

(** One command of [run]: without the storage feature writes are acknowledged, not made. *)
Definition storage_step (d : D) (cmd : StorageServiceCommand) : option (D * StorageReply) :=
  match cmd with
  | StPut key val =>
      if f_storage feat then '(d, ok) ← eng_put d val key; Some (d, StPutDone ok)
      else Some (d, StPutDone true)
  | StGet key => '(d, r) ← eng_get d key; Some (d, StGot r)
  end.

(** The connector: the command each method sends and what it makes of the answer. *)
Definition conn_put_block (d : D) (block : CachedBlock) : option (D * bool) :=
  '(d, r) ← storage_step d (StPut (cb_hash block) (cb_ser block));
  match r with StPutDone ok => Some (d, ok) | StGot _ => None end.

Definition conn_get_block `{Codec, Ed25519} (d : D) (block_hash : HashType) : option (D * (unit + CachedBlock)) :=
  '(d, r) ← storage_step d (StGet block_hash);
  match r with
  | StGot ser => b ← check_block_ser block_hash (Some ser); Some (d, b)
  | StPutDone _ => None
  end.

Definition put_raw (d : D) (key : string) (val : bytes) : option (D * bool) :=
  '(d, r) ← storage_step d (StPut (String.list_byte_of_string key) val);
  match r with StPutDone ok => Some (d, ok) | StGot _ => None end.

Definition get_raw (d : D) (key : string) : option (D * (unit + bytes)) :=
  '(d, r) ← storage_step d (StGet (String.list_byte_of_string key));
  match r with StGot ser => Some (d, ser) | StPutDone _ => None end.

(** What the log server sees of it. *)
Definition service_block_store `{Codec, Ed25519} (d : D) : BlockStore := {|
  bs_get := λ h, match conn_get_block d h with Some (_, inr b) => Some b | _ => None end |}.

End service.

(** * What an engine promises *)

(** [stores d m]: every key of [m] reads as its value.  A write that is acknowledged is
    readable from then on; one that fails leaves the other keys alone; what was read can
    be read again. *)
Class StorageLaws (D : Type) `{StorageEngine D} := {
  stores : D → gmap bytes bytes → Prop;
  storable : bytes → Prop;
  stores_put : ∀ d m k v d' ok, stores d m → storable k → eng_put d v k = Some (d', ok) →
    stores d' (if ok then <[k := v]> m else delete k m);
  stores_get : ∀ d m k v, stores d m → storable k → m !! k = Some v →
    ∃ d', eng_get d k = Some (d', inr v) ∧ stores d' m;
  stores_read : ∀ d m k v d', stores d m → storable k → eng_get d k = Some (d', inr v) → stores d' (<[k := v]> m);
  stores_miss : ∀ d m k e d', stores d m → storable k → eng_get d k = Some (d', inl e) → stores d' m }.

(** ** RocksDB keeps its promise, given what its documentation says of [put] and [get]. *)

Class RocksLaws `{RocksDB} := {
  rocks_contents : rocks_db → gmap bytes bytes;
  rocks_put_ok : ∀ db k v db', rocks_put db k v = (db', true) →
    rocks_contents db' = <[k := v]> (rocks_contents db);
  rocks_put_failed : ∀ db k v db' k', rocks_put db k v = (db', false) → k' ≠ k →
    rocks_contents db' !! k' = rocks_contents db !! k';
  rocks_get_ok : ∀ db k, rocks_get db k = inr (rocks_contents db !! k) }.

#[export] Program Instance rocks_laws `{RocksLaws} : StorageLaws rocks_db := {|
  stores := λ db m, m ⊆ rocks_contents db;
  storable := λ _, True |}.
Next Obligation.
  intros ? ? db m k v db' ok Hm _ Hp. cbn in Hp. unfold rocks_put_block in Hp. injection Hp as Hp.
  destruct ok; cbn in *.
  - rewrite (rocks_put_ok _ _ _ _ Hp). by apply insert_mono.
  - apply map_subseteq_spec. intros k' x [Hne Hx]%lookup_delete_Some.
    rewrite (rocks_put_failed _ _ _ _ _ Hp) by done. by eapply lookup_weaken.
Qed.
Next Obligation.
  intros ? ? db m k v Hm _ Hk. exists db. cbn. unfold rocks_get_block. rewrite rocks_get_ok.
  by rewrite (lookup_weaken _ _ _ _ Hk Hm).
Qed.
Next Obligation.
  intros ? ? db m k v db' Hm _. cbn. unfold rocks_get_block. rewrite rocks_get_ok.
  destruct (rocks_contents db !! k) as [x|] eqn:Hk; intros; simplify_eq. by apply insert_subseteq_l.
Qed.
Next Obligation. intros ? ? db m k e db' Hm _. cbn. unfold rocks_get_block. by intros [= <- _]. Qed.

(** ** The file engine *)

Lemma string_app_inj_1 (a b c : string) : (a +:+ b = a +:+ c)%string → b = c.
Proof. induction a as [|x a IH]; simpl; [done|]. intros [= ?]. auto. Qed.

Lemma string_app_assoc (a b c : string) : ((a +:+ b) +:+ c = a +:+ (b +:+ c))%string.
Proof. induction a as [|x a IH]; [done|]. exact (f_equal (String x) IH). Qed.

Lemma string_app_inj_len (a a' b b' : string) :
  String.length a = String.length a' → (a +:+ b = a' +:+ b')%string → b = b'.
Proof.
  revert a'. induction a as [|x a IH]; intros [|x' a']; simpl; try done. intros [= Hl] [= _ He]. eauto.
Qed.

Lemma length_substring_2 (s : string) : (2 ≤ String.length s)%nat → String.length (String.substring 0 2 s) = 2%nat.
Proof. destruct s as [|x [|y s]]; simpl; try lia. by destruct s. Qed.

Class FileLaws `{Lz4, Hex} := {
  decompress_compress : ∀ v, decompress (compress v) = Some v;
  encode_hex_inj : ∀ a b, encode_hex a = encode_hex b → a = b;
  encode_hex_length : ∀ a, String.length (encode_hex a) = (2 * length a)%nat }.

Section file_laws.
Context `{FileLaws}.

Definition key_dir (base : string) (k : bytes) : string := (base +:+ "/" +:+ String.substring 0 2 (encode_hex k))%string.
Definition key_path (base : string) (k : bytes) : string := (key_dir base k +:+ "/" +:+ encode_hex k)%string.

Lemma hex_long k : k ≠ [] → (2 ≤ String.length (encode_hex k))%nat.
Proof. intros Hk. rewrite encode_hex_length. destruct k; [done|simpl; lia]. Qed.

Lemma key_path_inj base k k' : k ≠ [] → k' ≠ [] → key_path base k = key_path base k' → k = k'.
Proof.
  intros Hk Hk' Heq. apply encode_hex_inj. unfold key_path, key_dir in Heq.
  rewrite !string_app_assoc in Heq. apply string_app_inj_1 in Heq.
  apply (string_app_inj_1 "/") in Heq. apply string_app_inj_len in Heq.
  - by apply (string_app_inj_1 "/") in Heq.
  - by rewrite !length_substring_2 by by apply hex_long.
Qed.

Definition file_stores (d : FileStorageEngine) (m : gmap bytes bytes) : Prop :=
  fse_path d ∈ fs_dirs (fse_fs d) ∧
  ∀ k v, m !! k = Some v → k ≠ [] →
    key_dir (fse_path d) k ∈ fs_dirs (fse_fs d) ∧
    ∃ f, fs_files (fse_fs d) !! key_path (fse_path d) k = Some f ∧ decompress f = Some v.

(** The name of a file, and the engine with its directory. *)
Lemma hash_to_fname_spec d m k d' f :
  file_stores d m → k ≠ [] → hash_to_fname d k = Some (d', f) →
  f = key_path (fse_path d) k ∧ fse_path d' = fse_path d ∧ file_stores d' m ∧
  key_dir (fse_path d) k ∈ fs_dirs (fse_fs d') ∧ fs_files (fse_fs d') = fs_files (fse_fs d).
Proof.
  intros [Hb Hm] Hk. unfold hash_to_fname.
  destruct (Nat.ltb_spec (String.length (encode_hex k)) 2); [done|].
  fold (key_dir (fse_path d) k). unfold create_dir_if_not_exists.
  destruct (bool_decide_reflect (key_dir (fse_path d) k ∈ fs_dirs (fse_fs d))) as [Hin|Hin]; cbn [mbind option_bind].
  - intros [= <- <-]. destruct d. done.
  - destruct (_ && _); [|done]. cbn [mbind option_bind]. intros [= <- <-]. split; [done|]. split; [done|].
    split; [|split; [set_solver|done]]. split; cbn; [set_solver|]. intros k' v Hk' Hne.
    destruct (Hm k' v Hk' Hne). split; [set_solver|done].
Qed.

#[export] Program Instance file_laws : StorageLaws FileStorageEngine := {|
  stores := file_stores;
  storable := λ k, k ≠ [] |}.
Next Obligation.
  intros d m k v d' ok Hm Hk. cbn. unfold persist.
  destruct (hash_to_fname d k) as [[d1 f]|] eqn:Hf; [|done]. cbn [mbind option_bind]. intros [= Hw].
  destruct (hash_to_fname_spec d m k d1 f Hm Hk Hf) as (-> & Hp & [Hb1 Hm1] & Hd1 & Hfs).
  unfold write_file in Hw. destruct (fs_writable (fse_fs d1)); injection Hw as <- <-.
  - split; [done|]. cbn. intros k' v' [[-> ->]|[Hne Hk']]%lookup_insert_Some Hk'0.
    + rewrite Hp. split; [done|]. exists (compress v'). by rewrite lookup_insert_eq, decompress_compress.
    + destruct (Hm1 k' v' Hk' Hk'0) as (? & f & Hl & Hf'). split; [done|]. exists f.
      rewrite lookup_insert_ne; [done|]. rewrite <-Hp. by intros Heq%key_path_inj.
  - split; [done|]. intros k' v' [_ Hk']%lookup_delete_Some. by apply Hm1.
Qed.
Next Obligation.
  intros d m k v [Hb Hm] Hk Hkv. destruct (Hm k v Hkv Hk) as (Hd & f & Hl & Hf). exists d. cbn. unfold file_get_block, hash_to_fname.
  destruct (Nat.ltb_spec (String.length (encode_hex k)) 2) as [Hs|_]; [pose proof (hex_long k Hk); lia|].
  fold (key_dir (fse_path d) k). unfold create_dir_if_not_exists. rewrite bool_decide_true by done.
  cbn [mbind option_bind]. fold (key_path (fse_path d) k). unfold read_file. destruct d as [base fs]. cbn in *.
  by rewrite Hl, Hf.
Qed.
Next Obligation.
  intros d m k v d' Hm Hk. cbn. unfold file_get_block.
  destruct (hash_to_fname d k) as [[d1 f]|] eqn:Hf; [|done]. cbn [mbind option_bind].
  destruct (hash_to_fname_spec d m k d1 f Hm Hk Hf) as (-> & Hp & [Hb1 Hm1] & Hd1 & Hfs).
  unfold read_file. destruct (fs_files (fse_fs d1) !! key_path (fse_path d) k) as [x|] eqn:Hx; [|done].
  destruct (decompress x) as [y|] eqn:Hy; [|done]. intros [= <- ->]. split; [done|].
  intros k' v' [[<- <-]|[_ Hk']]%lookup_insert_Some Hne; [|by apply Hm1].
  rewrite Hp. split; [done|]. by exists x.
Qed.
Next Obligation.
  intros d m k e d' Hm Hk. cbn. unfold file_get_block.
  destruct (hash_to_fname d k) as [[d1 f]|] eqn:Hf; [|done]. cbn [mbind option_bind].
  destruct (hash_to_fname_spec d m k d1 f Hm Hk Hf) as (-> & Hp & Hm1 & _).
  destruct (read_file d1 _) as [r|]; [|done]. cbn [mbind option_bind]. by intros [= <- _].
Qed.

End file_laws.

(** * The connector is the block store of the log server *)

Section serves.
Context {D : Type} `{HSE : StorageEngine D} `{HSL : !StorageLaws D} `{HCo : Codec, HEd : Ed25519} (feat : Features).

(** Storing blocks one by one, all acknowledged. *)
Fixpoint put_blocks (d : D) (G : list CachedBlock) : option D :=
  match G with
  | [] => Some d
  | b :: G' =>
      '(d, ok) ← conn_put_block feat d b;
      if (ok : bool) then put_blocks d G' else None
  end.

Lemma put_blocks_stores d m G d' :
  f_storage feat = true → stores d m → Forall (λ b, storable (cb_hash b)) G → put_blocks d G = Some d' →
  ∃ m', stores d' m' ∧ (∀ b, b ∈ G → ∃ b', b' ∈ G ∧ cb_hash b' = cb_hash b ∧ m' !! cb_hash b = Some (cb_ser b')) ∧
        ∀ k, (∀ b, b ∈ G → cb_hash b ≠ k) → m' !! k = m !! k.
Proof.
  intros Hf Hm Hk. revert d m Hm. induction Hk as [|b G Hb HG IH]; intros d m Hm.
  - intros [= <-]. exists m. split; [done|]. split; [intros b Hb; by apply not_elem_of_nil in Hb|done].
  - cbn [put_blocks]. unfold conn_put_block, storage_step. rewrite Hf.
    destruct (eng_put d (cb_ser b) (cb_hash b)) as [[d1 ok]|] eqn:Hp; [|done]. cbn [mbind option_bind].
    destruct ok; [|done]. intros Hrun. pose proof (stores_put _ _ _ _ _ _ Hm Hb Hp) as Hm1.
    destruct (IH d1 _ Hm1 Hrun) as (m' & Hs & Hin & Hout). exists m'. split; [done|].
    destruct (decide (cb_hash b ∈ (cb_hash <$> G))) as [[x [Hxb Hx]]%list_elem_of_fmap|Hno].
    + split.
      * intros y [->|Hy]%elem_of_cons.
        -- destruct (Hin x Hx) as (b' & ? & ? & Hl). exists b'. rewrite Hxb. split; [by right|done].
        -- destruct (Hin y Hy) as (b' & ? & ? & Hl). exists b'. split; [by right|done].
      * intros k Hne. rewrite Hout by (intros y Hy; apply Hne; by right).
        apply lookup_insert_ne, Hne. left.
    + assert (∀ y, y ∈ G → cb_hash y ≠ cb_hash b) as Hny by (intros y Hy He; apply Hno, list_elem_of_fmap; eauto).
      split.
      * intros y [->|Hy]%elem_of_cons.
        -- exists b. split; [left|]. split; [done|]. rewrite Hout by done. apply lookup_insert_eq.
        -- destruct (Hin y Hy) as (b' & ? & ? & Hl). exists b'. split; [by right|done].
      * intros k Hne. rewrite Hout by (intros y Hy; apply Hne; by right).
        apply lookup_insert_ne, Hne. left.
Qed.

(** What a verified block carries. *)
Lemma verified_block_ser ks c q ser b : verify_block_ser feat ks c q ser = Some (inr b) →
  cb_ser b = ser ∧ hash_proto_block_ser ser = Some (cb_hash b).
Proof.
  unfold verify_block_ser.
  destruct (deserialize_proto_block ser) as [[|pb]|]; [by destruct (hash_proto_block_ser ser)| |done].
  destruct (hash_proto_block_ser ser) as [h|]; [|done]. cbn [mbind option_bind].
  destruct (get_leader_for_view feat c (pb_view pb)) as [leader|]; cbn [mbind option_bind];
    by repeat (case_match; try done); intros; simplify_eq/=.
Qed.

(** C14: the connector over any engine that keeps its promise is the block store the log
    server relies on.  If every block of the log was verified (its hash is the SHA-512 of
    its bytes), stored and acknowledged, then garbage collecting the in-memory log up to
    any index that is byzantine-committed and below the tip is an event the log server
    handles: every collected block is still found, by hash, exactly as it was. *)
Theorem storage_serves_log (ks : KeyStore) (c : ConsensusConfig) (q : Z) (d d' : D) (m : gmap bytes bytes)
    (G : list CachedBlock) (s : LogServer) (g : Z) :
  f_storage feat = true → stores d m →
  Forall (λ b, storable (cb_hash b) ∧ verify_block_ser feat ks c q (cb_ser b) = Some (inr b)) G →
  (∀ b1 b2, b1 ∈ G → b2 ∈ G →
     sha512 (hash_input (cb_ser b1)) = sha512 (hash_input (cb_ser b2)) →
     hash_input (cb_ser b1) = hash_input (cb_ser b2)) →
  put_blocks d G = Some d' →
  0 ≤ g ≤ ls_bci s → g < Z.of_nat (length G) →
  @ls_event_ok (service_block_store feat d') G s (LsGc g).
Proof.
  intros Hf Hm HG Hcf Hput Hg Hlt. rewrite list.Forall_forall in HG.
  assert (Forall (λ b, storable (cb_hash b)) G) as Hst by (apply list.Forall_forall; intros b Hb; by apply HG).
  destruct (put_blocks_stores d m G d' Hf Hm Hst Hput) as (m' & Hm' & Hin & _).
  split; [done|]. split; [done|]. intros n b Hn _. assert (b ∈ G) as Hb.
  { unfold at_n in Hn. destruct (n <=? 0); [done|]. by eapply list_elem_of_lookup_2. }
  destruct (Hin b Hb) as (b' & Hb' & Hh & Hl).
  destruct (HG b Hb) as [Hk Hv]. destruct (HG b' Hb') as [_ Hv'].
  destruct (verified_block_ser _ _ _ _ _ Hv) as [_ H1]. destruct (verified_block_ser _ _ _ _ _ Hv') as [_ H2].
  rewrite Hh in H2. rewrite <-(block_hash_binding _ _ _ H1 H2 (Hcf b b' Hb Hb')) in Hl.
  destruct (stores_get _ _ _ _ Hm' Hk Hl) as (d2 & Hget & _).
  cbn [bs_get service_block_store]. unfold conn_get_block, storage_step. rewrite Hget. cbn [mbind option_bind].
  by rewrite (proj1 (storage_readback _ _ _ _ _ [] b b Hv)).
Qed.

End serves.

(** A RocksDB that never fails. *)
Definition toy_rocks : RocksDB :=
  {| rocks_db := gmap bytes bytes; rocks_put := λ db k v, (<[k := v]> db, true);
     rocks_write := λ db l, (foldl (λ db '(k, v), <[k := v]> db) db l, true); rocks_get := λ db k, inr (db !! k) |}.

#[local] Program Instance toy_rocks_laws : @RocksLaws toy_rocks :=
  {| rocks_contents := λ db : gmap bytes bytes, db |}.
Next Obligation. by intros db k v db' [= <-]. Qed.
Next Obligation. by intros. Qed.
Next Obligation. by intros. Qed.

Definition toy_stored : CachedBlock :=
  let ser := replicate 64 Byte.x01 ++ zeros 64 ++ [Byte.x2a] in
  mkCached Serialize.toy_block ser (take 64 ([Byte.x2a] ++ zeros 64)).

Lemma storage_serves_log_witness :
  let C := toy_codec (nascent Serialize.toy_block) in let Ed := toy_ed in let R := toy_rocks in
  @bs_get (service_block_store (D := @rocks_db R) pirateship_features
             (<[cb_hash toy_stored := cb_ser toy_stored]> ∅)) (cb_hash toy_stored) = Some toy_stored.
Proof.
  intros C Ed R.
  refine (proj2 (proj2 (storage_serves_log (D := @rocks_db R) pirateship_features toy_keystore four_nodes 3 ∅
    (<[cb_hash toy_stored := cb_ser toy_stored]> ∅) ∅ [toy_stored; toy_stored] (mkLogServer 1 [] (mkReadCache [] 0)) 1
    _ _ _ _ _ _ _)) 1 toy_stored _ _); try done.
  - repeat constructor; vm_compute; reflexivity.
  - intros b1 b2. set_solver.
Defined.
