(* ===== verification/Server.v ===== *)
(** The RPC server: the authentication handshake (src/src/rpc/auth.rs), the accept loop
    with its parked reply streams and the per-connection tasks (src/src/rpc/server.rs),
    and the dispatcher of a consensus node (src/src/consensus/mod.rs, [handle_rpc]).
    TLS, sockets and the protobuf codec are the environment: a connection is the bytes
    the peer sends on it, and the codecs are the classes [HandshakeCodec] and
    [PayloadCodec]. *)

From Stdlib Require Import Ascii.
From stdpp Require Import base numbers list gmap strings option pretty.
From S2P Require Import Prelude Types Config Serialize Crypto Framing.

(** * Messages (proto/auth.proto, proto/rpc.proto, proto/client.proto) *)

Record ProtoHandshakeResponse := mkHandshake {
  hr_name : string;
  hr_signature : bytes;
  hr_is_reply_channel : bool;
  hr_client_sub_id : Z }.

Record ProtoClientRequest := mkClientRequest {
  rq_tx : option ProtoTransaction;
  rq_origin : string;
  rq_sig : bytes;
  rq_client_tag : Z }.

Inductive PayloadMessage :=
  | PmViewChange (vc : ProtoViewChange)
  | PmAppendEntries (ae : ProtoAppendEntries)
  | PmVote (v : ProtoVote)
  | PmClientRequest (rq : ProtoClientRequest)
  | PmBackfillRequest
  | PmBackfillResponse
  | PmBackfillNack (nack : ProtoBackfillNack).

(** [encode_to_vec] and [decode] of the generated code. *)
Class HandshakeCodec := {
  handshake_encode : ProtoHandshakeResponse → bytes;
  handshake_decode : bytes → option ProtoHandshakeResponse }.

Class PayloadCodec := {
  payload_encode : option PayloadMessage → bytes;
  payload_decode : bytes → option (option PayloadMessage) }.

(** * The handshake (auth.rs) *)

Section auth.
Context `{HandshakeCodec, Ed25519}.

Record HandshakeResponse := mkHandshakeResponse { hs_name : string; hs_signature : bytes }.

Definition handshake_serialize (h : HandshakeResponse) (is_reply_channel : bool) (client_sub_id : Z) : bytes :=
  handshake_encode (mkHandshake (hs_name h) (hs_signature h) is_reply_channel client_sub_id).

Definition handshake_deserialize (arr : bytes) : io (HandshakeResponse * bool * Z) :=
  match handshake_decode arr with
  | Some d => IoOk (mkHandshakeResponse (hr_name d) (hr_signature d), hr_is_reply_channel d, hr_client_sub_id d)
  | None => IoErr
  end.

Definition construct_payload (nonce : Z) (name : string) : bytes :=
  be_bytes 4 nonce ++ String.list_byte_of_string name.

(** [read_exact] on what the peer sends: an error at the end of the stream. *)
Definition read_exact (k : nat) (incoming : bytes) : io (bytes * bytes) :=
  if (length incoming <? k)%nat then IoErr else IoOk (take k incoming, drop k incoming).

Definition read_u32 (incoming : bytes) : io (Z * bytes) :=
  '(b, rest) ← read_exact 4 incoming; IoOk (from_be b, rest).

(** The nonce is drawn by the server; [write_ok] says whether sending it succeeds.  The
    bytes left on the stream are returned with the verdict. *)
Definition handshake_server (ks : KeyStore) (nonce : Z) (write_ok : bool) (incoming : bytes)
    : io (string * bool * Z * bytes) :=
  if negb write_ok then IoErr else
  '(sz, incoming) ← read_u32 incoming;
  if sz =? 0 then IoErr else
  '(buf, incoming) ← read_exact (Z.to_nat sz) incoming;
  '(resp, is_reply, sub_id) ← handshake_deserialize buf;
  let name := hs_name resp in
  match get_pubkey ks name with
  | None => IoErr
  | Some _ =>
      let payload := construct_payload nonce name in
      let sig := match sig_try_into (hs_signature resp) with Some s => s | None => zeros SIGNATURE_LENGTH end in
      if negb (ks_verify ks name sig payload) then IoErr
      else IoOk (name, is_reply, sub_id, incoming)
  end.

(** What the client writes in answer to the nonce. *)
Definition handshake_client (ks : KeyStore) (my_name : string) (is_reply_chan : bool) (client_sub_id : Z)
    (nonce : Z) : bytes :=
  let payload := construct_payload nonce my_name in
  let signature := ks_sign ks payload in
  let resp_buf := handshake_serialize (mkHandshakeResponse my_name signature) is_reply_chan client_sub_id in
  be_bytes 4 (Z.of_nat (length resp_buf)) ++ resp_buf.

(** [Server::handle_auth]. *)
Definition handle_auth (do_auth : bool) (ks : KeyStore) (nonce : Z) (write_ok : bool) (incoming : bytes)
    : io (SenderType * bool * Z * bytes) :=
  if do_auth then
    '(name, is_reply, sub_id, rest) ← handshake_server ks nonce write_ok incoming;
    IoOk (Auth name sub_id, is_reply, sub_id, rest)
  else IoOk (Anon, false, 0, incoming).

End auth.

(** * The accept loop (server.rs, [Server::run]) *)

Definition u64_to_string (z : Z) : string := pretty (Z.to_N z).

(** [SenderType::to_string]. *)
Definition sender_to_string (s : SenderType) : string :=
  match s with
  | Anon => "Anon"
  | Auth s id => (s +:+ "#" +:+ u64_to_string id)%string
  end.

Definition map_name (s : SenderType) (client_sub_id : Z) : string :=
  (sender_to_string s +:+ "#" +:+ u64_to_string client_sub_id)%string.

(** A stream after the handshake: which connection it is, who it belongs to and the
    bytes still to be read from it. *)
Record Stream := mkStream {
  st_conn : nat;
  st_in : bytes }.

(** What [listener.accept], [set_nodelay] and the TLS handshake give. *)
Inductive AcceptEvent :=
  | AcceptErr
  | NodelayErr
  | TlsErr
  | Accepted (nonce : Z) (write_ok : bool) (incoming : bytes).

Record Spawned := mkSpawned {
  sp_sender : SenderType;
  sp_stream : Stream;
  sp_stream_out : option Stream }.

Record ServerState := mkServer {
  sv_conns : nat;                         (* connections seen so far *)
  sv_parked : gmap string Stream;
  sv_spawned : list Spawned }.

Definition server_new : ServerState := mkServer 0 ∅ [].

Section run.
Context `{HandshakeCodec, Ed25519} (do_auth : bool) (ks : KeyStore).

(** One iteration: [IoErr] is a [?] that returns from [run]. *)
Definition run_step (sv : ServerState) (ev : AcceptEvent) : io ServerState :=
  match ev with
  | AcceptErr | NodelayErr | TlsErr => IoErr
  | Accepted nonce write_ok incoming =>
      '(sender, is_reply_chan, client_sub_id, rest) ← handle_auth do_auth ks nonce write_ok incoming;
      let stream := mkStream (sv_conns sv) rest in
      let name := map_name sender client_sub_id in
      if (is_reply_chan : bool) then
        IoOk (mkServer (S (sv_conns sv)) (<[name := stream]> (sv_parked sv)) (sv_spawned sv))
      else
        IoOk (mkServer (S (sv_conns sv)) (delete name (sv_parked sv))
                (sv_spawned sv ++ [mkSpawned sender stream (sv_parked sv !! name)]))
  end.

(** The loop over the connections that arrive: where it stands, and whether it still runs. *)
Fixpoint run_server (sv : ServerState) (evs : list AcceptEvent) : ServerState * bool :=
  match evs with
  | [] => (sv, true)
  | ev :: evs' =>
      match run_step sv ev with
      | IoOk sv => run_server sv evs'
      | _ => (sv, false)
      end
  end.

End run.

(** * The dispatcher (consensus/mod.rs, [handle_rpc]) *)

Inductive RespType := Resp | NoResp | NoRespAndReconf | RespAndTrack | RespAndTrackAndReconf.

(** The channels of [ConsensusServerContext] and what is sent on them; the ack channel
    of a client request is that of the connection it came on. *)
Inductive Routed :=
  | ToBatchProposer (tx : option ProtoTransaction) (client_tag : Z) (sender : SenderType)
  | ToForkReceiver (ae : ProtoAppendEntries) (sender : SenderType)
  | ToForkReceiverCommand (cmd : ForkReceiverCommand)
  | ToVoteReceiver (sender : SenderType) (v : ProtoVote)
  | ToViewChangeReceiver (vc : ProtoViewChange) (sender : SenderType)
  | ToBackfillRequest (nack : ProtoBackfillNack).

Section dispatch.
Context `{PayloadCodec}.

(** One branch per message. *)
Definition dispatch (msg : PayloadMessage) (sender : SenderType) : list Routed * RespType :=
  match msg with
  | PmViewChange vc => ([ToViewChangeReceiver vc sender], NoResp)
  | PmAppendEntries ae =>
      if ae_is_backfill_response ae
      then ([ToForkReceiverCommand (UseBackfillResponse ae sender)], NoResp)
      else ([ToForkReceiver ae sender], NoResp)
  | PmVote v => ([ToVoteReceiver sender v], NoResp)
  | PmClientRequest rq => ([ToBatchProposer (rq_tx rq) (rq_client_tag rq) sender], Resp)
  | PmBackfillRequest => ([], NoResp)
  | PmBackfillResponse => ([], NoResp)
  | PmBackfillNack nack => ([ToBackfillRequest nack], NoResp)
  end.

(** The bytes [m.0[0..m.1]] of a message from [sender]. *)
Definition handle_rpc (buf : bytes) (sz : nat) (sender : SenderType) : io (list Routed * RespType) :=
  match sender with
  | Anon => IoErr
  | Auth _ _ =>
      body ← slice_io 0 sz buf;
      match payload_decode body with
      | None => IoErr
      | Some None => IoOk ([], NoResp)
      | Some (Some msg) => IoOk (dispatch msg sender)
      end
  end.

(** ** One connection ([Server::handle_stream]) *)

Inductive StreamEnd := StillOpen | ReadFailed | Dropped.

(** The reading loop, for at most [rounds] frames: what is dispatched, what the
    responding task is told, and how it ends.  A read that never returns is [IoFuel]. *)
Fixpoint stream_loop (fuel rounds : nat) (r : FrameReader) (read_buf : bytes) (sender : SenderType)
    : io (list Routed * list RespType * StreamEnd) :=
  match rounds with
  | O => IoOk ([], [], StillOpen)
  | S rounds' =>
      match get_next_frame fuel r read_buf with
      | IoErr => IoOk ([], [], ReadFailed)
      | IoPanic => IoPanic
      | IoFuel => IoFuel
      | IoOk (r, read_buf, sz) =>
          match handle_rpc read_buf sz sender with
          | IoErr => IoOk ([], [], Dropped)
          | IoPanic => IoPanic
          | IoFuel => IoFuel
          | IoOk (out, resp) =>
              '(outs, resps, e) ← stream_loop fuel rounds' r read_buf sender;
              IoOk (out ++ outs, resp :: resps, e)
          end
      end
  end.

Definition handle_stream (fuel rounds : nat) (recv_buffer_size : nat) (chunks : list (option bytes)) (sender : SenderType)
    : io (list Routed * list RespType * StreamEnd) :=
  stream_loop fuel rounds (reader_new (Z.to_nat 65536) chunks) (zeros recv_buffer_size) sender.

End dispatch.

(** ** The responding task of a connection *)

(** Why it stops, or that it waits for a reply that has not been produced yet. *)
Inductive RespondEnd := RespWaiting | RespFailed.

(** [acks] are the replies queued on the ack channel, [writes_ok] says which writes
    succeed (the size, the body and the flush of each reply), [new_keys] is
    [get_server_keys].  The bytes written and the key store are returned. *)
Fixpoint respond {K} (new_keys : K) (keys : K) (resps : list RespType) (acks : list MessageRef)
    (writes_ok : list bool) : io (bytes * K * RespondEnd) :=
  match resps with
  | [] => IoOk ([], keys, RespWaiting)
  | resp :: resps' =>
      let reply k :=
        match acks with
        | [] => IoOk ([], keys, RespWaiting)
        | m :: acks' =>
            match writes_ok with
            | true :: ok' =>
                body ← slice_io 0 (mr_size m) (mr_buf m);
                '(out, keys, e) ← respond new_keys (k keys) resps' acks' ok';
                IoOk (be_bytes 4 (Z.of_nat (mr_size m)) ++ body ++ out, keys, e)
            | _ => IoOk ([], keys, RespFailed)
            end
        end in
      match resp with
      | Resp | RespAndTrack => reply (λ k, k)
      | RespAndTrackAndReconf => reply (λ _, new_keys)
      | NoRespAndReconf => respond new_keys new_keys resps' acks writes_ok
      | NoResp => respond new_keys keys resps' acks writes_ok
      end
  end.

(** * The handshake *)

Lemma construct_payload_inj n1 n2 a b :
  0 ≤ n1 < 2 ^ 32 → 0 ≤ n2 < 2 ^ 32 → construct_payload n1 a = construct_payload n2 b → n1 = n2 ∧ a = b.
Proof.
  unfold construct_payload. intros H1 H2 [Hn Hs]%app_inj_1; [|by rewrite !length_be_bytes].
  split; [|by apply list_byte_of_string_inj]. apply (f_equal from_be) in Hn.
  by rewrite !from_be_be_bytes, !Z.mod_small in Hn by (cbn; lia).
Qed.

Lemma read_exact_app k a rest : length a = k → read_exact k (a ++ rest) = IoOk (a, rest).
Proof.
  intros <-. unfold read_exact. destruct (Nat.ltb_spec (length (a ++ rest)) (length a)) as [Hl|_].
  - rewrite length_app in Hl. lia.
  - by rewrite take_app_length, drop_app_length.
Qed.

Section handshake.
Context `{HandshakeCodec, Ed25519}.

Lemma handshake_server_sound ks nonce ok incoming name is_reply sub rest :
  handshake_server ks nonce ok incoming = IoOk (name, is_reply, sub, rest) →
  ok = true ∧ ∃ resp k,
    handshake_decode resp = Some (mkHandshake name (hr_signature (default (mkHandshake "" [] false 0) (handshake_decode resp))) is_reply sub) ∧
    incoming = be_bytes 4 (Z.of_nat (length resp)) ++ resp ++ rest ∧
    pub_keys ks !! name = Some k ∧
    ∃ sig, length sig = SIGNATURE_LENGTH ∧ ed_verify k (construct_payload nonce name) sig = true.
Proof.
  unfold handshake_server. destruct ok; [|done]. cbn [negb]. unfold read_u32, read_exact.
  destruct (Nat.ltb_spec (length incoming) 4) as [|H4]; [done|]. cbn [mbind io_bind].
  destruct (from_be (take 4 incoming) =? 0); [done|].
  set (sz := Z.to_nat (from_be (take 4 incoming))).
  destruct (Nat.ltb_spec (length (drop 4 incoming)) sz) as [|Hsz]; [done|]. cbn [mbind io_bind].
  unfold handshake_deserialize. set (resp := take sz (drop 4 incoming)).
  destruct (handshake_decode resp) as [r|] eqn:Hdec; [|done]. cbn [mbind io_bind hs_name hs_signature].
  unfold ks_verify, get_pubkey. destruct (pub_keys ks !! hr_name r) as [k|] eqn:Hk; [|done].
  destruct (ed_verify k _ _) eqn:Hv; [|done]. cbn [negb]. intros [= <- <- <- <-].
  split; [done|]. exists resp, k. split; [rewrite Hdec; by destruct r|]. split.
  - assert (length resp = sz) as -> by (subst resp; by apply length_take_le). subst sz.
    pose proof (from_be_range (take 4 incoming)). rewrite Z2Nat.id by lia.
    assert (length (take 4 incoming) = 4%nat) as Hl by by apply length_take_le.
    rewrite <-Hl at 1. rewrite be_bytes_from_be. subst resp. by rewrite !take_drop.
  - split; [done|]. eexists. split; [|exact Hv]. unfold sig_try_into.
    destruct (Nat.eqb_spec (length (hr_signature r)) SIGNATURE_LENGTH); [done|apply length_zeros].
Qed.


End handshake.

(** A codec that knows the two responses of one client, the signature left out. *)
Definition toy_handshake_codec : HandshakeCodec := {|
  handshake_encode := λ r,
    if bool_decide (hr_name r = "node1") then [if hr_is_reply_channel r then Byte.x01 else Byte.x02] else [];
  handshake_decode := λ b, match b with
    | [] => Some (mkHandshake "" [] false 0)
    | [Byte.x01] => Some (mkHandshake "node1" (@ed_sign toy_ed tt []) true 7)
    | [Byte.x02] => Some (mkHandshake "node1" (@ed_sign toy_ed tt []) false 7)
    | _ => None
    end |}.


(** * The accept loop *)

(** A separator that does not occur in what follows it splits a string in one way. *)
Fixpoint sep_free (s : string) : bool :=
  match s with EmptyString => true | String c s' => negb (Ascii.eqb c "#"%char) && sep_free s' end.

Lemma sep_free_app a d : sep_free (a +:+ "#" +:+ d) = false.
Proof. induction a as [|c a IH]; [done|]. change (negb (Ascii.eqb c "#"%char) && sep_free (a +:+ "#" +:+ d) = false). by rewrite IH, andb_false_r. Qed.

Lemma split_last_sep a a' d d' :
  sep_free d = true → sep_free d' = true → (a +:+ "#" +:+ d = a' +:+ "#" +:+ d')%string → a = a' ∧ d = d'.
Proof.
  intros Hd Hd'. revert a'. induction a as [|c a IH]; intros [|c' a'] Heq.
  - split; [done|]. by injection Heq.
  - assert (d = a' +:+ "#" +:+ d') as He by by injection Heq. by rewrite He, sep_free_app in Hd.
  - assert (a +:+ "#" +:+ d = d') as He by by injection Heq. by rewrite <-He, sep_free_app in Hd'.
  - injection Heq as -> Heq. by destruct (IH a' Heq) as [-> ->].
Qed.

Lemma sep_free_pretty_go x s : sep_free s = true → sep_free (pretty_N_go x s) = true.
Proof.
  revert s. induction (N.lt_wf_0 x) as [x _ IH]; intros s Hs.
  destruct (decide (0 < x)%N) as [Hx|Hx].
  - rewrite pretty_N_go_step by done. apply IH; [by apply N.div_lt|].
    change (negb (Ascii.eqb (pretty_N_char (x `mod` 10)) "#"%char) && sep_free s = true). rewrite Hs, andb_true_r.
    unfold pretty_N_char. by repeat case_match.
  - assert (x = 0%N) as -> by lia. by rewrite pretty_N_go_0.
Qed.

Lemma sep_free_u64 z : sep_free (u64_to_string z) = true.
Proof.
  unfold u64_to_string, pretty, pretty_N. case_decide; [done|]. by apply sep_free_pretty_go.
Qed.

Lemma u64_to_string_inj a b : 0 ≤ a → 0 ≤ b → u64_to_string a = u64_to_string b → a = b.
Proof. intros Ha Hb He. unfold u64_to_string in He. apply (inj (R := (=)) (pretty (A := N))) in He. lia. Qed.

(** The key under which a reply stream is parked determines whose it is. *)
Lemma map_name_inj s1 i1 s2 i2 :
  0 ≤ i1 → 0 ≤ i2 → map_name (Auth s1 i1) i1 = map_name (Auth s2 i2) i2 → s1 = s2 ∧ i1 = i2.
Proof.
  unfold map_name, sender_to_string. intros H1 H2 [Ha Hi]%split_last_sep; [|apply sep_free_u64..].
  apply split_last_sep in Ha as [-> _]; [|apply sep_free_u64..]. split; [done|]. by apply u64_to_string_inj.
Qed.

Section accept.
Context `{HandshakeCodec, Ed25519} (ks : KeyStore).

(** Connection [i] was authenticated as [s], for replies or not, and has [rest] to read. *)
Definition authenticated (evs : list AcceptEvent) (i : nat) (s : SenderType) (is_reply : bool) (rest : bytes) : Prop :=
  ∃ nonce ok incoming name sub, evs !! i = Some (Accepted nonce ok incoming) ∧
    handshake_server ks nonce ok incoming = IoOk (name, is_reply, sub, rest) ∧ s = Auth name sub ∧ 0 ≤ sub.

Lemma authenticated_app evs ev i s f rest : authenticated evs i s f rest → authenticated (evs ++ [ev]) i s f rest.
Proof.
  intros (nonce & ok & incoming & name & sub & Hi & Hh). exists nonce, ok, incoming, name, sub.
  split; [|done]. by apply lookup_app_l_Some.
Qed.

(** The sub-id of [map_name] is that of the sender. *)
Definition park_name (s : SenderType) : string := map_name s (to_name_and_sub_id s).2.

Definition spawned_ok (evs : list AcceptEvent) (sp : Spawned) : Prop :=
  authenticated evs (st_conn (sp_stream sp)) (sp_sender sp) false (st_in (sp_stream sp)) ∧
  ∀ out, sp_stream_out sp = Some out → authenticated evs (st_conn out) (sp_sender sp) true (st_in out).

(** The connections that carry the replies of the spawned tasks. *)
Definition reply_conns (sps : list Spawned) : list nat := omap (λ sp, st_conn <$> sp_stream_out sp) sps.

Record server_inv (evs : list AcceptEvent) (sv : ServerState) : Prop := {
  si_conns : sv_conns sv = length evs;
  si_parked : ∀ k st, sv_parked sv !! k = Some st →
    ∃ s, k = park_name s ∧ authenticated evs (st_conn st) s true (st_in st);
  si_spawned : Forall (spawned_ok evs) (sv_spawned sv);
  si_fresh : ∀ k st, sv_parked sv !! k = Some st → st_conn st ∉ reply_conns (sv_spawned sv);
  si_old : Forall (λ i, i < length evs)%nat (reply_conns (sv_spawned sv));
  si_once : NoDup (reply_conns (sv_spawned sv)) }.

Lemma authenticated_fun evs i s f rest s' f' rest' :
  authenticated evs i s f rest → authenticated evs i s' f' rest' → s = s' ∧ f = f' ∧ rest = rest'.
Proof.
  intros (? & ? & ? & ? & ? & Hi & Hh & -> & _) (? & ? & ? & ? & ? & Hi' & Hh' & -> & _).
  rewrite Hi in Hi'. injection Hi' as <- <- <-. rewrite Hh in Hh'. by injection Hh' as <- <- <- <-.
Qed.

Lemma authenticated_lt evs i s f rest : authenticated evs i s f rest → (i < length evs)%nat.
Proof. intros (? & ? & ? & ? & ? & Hi & _). by eapply lookup_lt_Some. Qed.

Lemma park_name_inj evs i s f r evs' i' s' f' r' :
  authenticated evs i s f r → authenticated evs' i' s' f' r' → park_name s = park_name s' → s = s'.
Proof.
  intros (? & ? & ? & n & sub & _ & _ & -> & Hs) (? & ? & ? & n' & sub' & _ & _ & -> & Hs') Heq.
  destruct (map_name_inj n sub n' sub' Hs Hs' Heq) as [<- <-]. done.
Qed.

Lemma spawned_ok_app evs ev sp : spawned_ok evs sp → spawned_ok (evs ++ [ev]) sp.
Proof. intros [H1 H2]. split; [by apply authenticated_app|]. intros out Ho. by apply authenticated_app, H2. Qed.

Context (decode_u64 : ∀ b r, handshake_decode b = Some r → 0 ≤ hr_client_sub_id r).

Lemma run_step_auth sv ev sv' evs :
  sv_conns sv = length evs → run_step true ks sv ev = IoOk sv' →
  ∃ s f rest, authenticated (evs ++ [ev]) (length evs) s f rest ∧
    let st := mkStream (length evs) rest in
    sv' = if (f : bool) then mkServer (S (length evs)) (<[park_name s := st]> (sv_parked sv)) (sv_spawned sv)
          else mkServer (S (length evs)) (delete (park_name s) (sv_parked sv))
                 (sv_spawned sv ++ [mkSpawned s st (sv_parked sv !! park_name s)]).
Proof.
  intros Hc. destruct ev as [| | |nonce ok incoming]; try done. cbn [run_step handle_auth].
  destruct (handshake_server ks nonce ok incoming) as [[[[name f] sub] rest]| | |] eqn:Hh; try done.
  cbn [mbind io_bind]. intros Hrun. exists (Auth name sub), f, rest. split.
  - exists nonce, ok, incoming, name, sub. rewrite list_lookup_middle by done. split; [done|]. split; [done|].
    split; [done|]. destruct (handshake_server_sound _ _ _ _ _ _ _ _ Hh) as (_ & resp & _ & Hd & _).
    by apply decode_u64 in Hd.
  - rewrite Hc in Hrun. by destruct f; injection Hrun as <-.
Qed.

Lemma server_inv_step evs sv ev sv' :
  server_inv evs sv → run_step true ks sv ev = IoOk sv' → server_inv (evs ++ [ev]) sv'.
Proof.
  intros [Ic Ip Is If Io Iu] Hrun. destruct (run_step_auth sv ev sv' evs Ic Hrun) as (s & f & rest & Ha & ->).
  assert (Forall (spawned_ok (evs ++ [ev])) (sv_spawned sv)) as Is'
    by (eapply Forall_impl; [exact Is|]; intros sp; apply spawned_ok_app).
  assert (Forall (λ i, i < length (evs ++ [ev]))%nat (reply_conns (sv_spawned sv))) as Io'
    by (eapply Forall_impl; [exact Io|]; intros i; rewrite length_app; cbn; lia).
  destruct f.
  - split; cbn; try done.
    + rewrite length_app. cbn. lia.
    + intros k st [[<- <-]|[_ Hk]]%lookup_insert_Some; [by exists s|].
      destruct (Ip k st Hk) as (s' & -> & Ha'). exists s'. split; [done|]. by apply authenticated_app.
    + intros k st [[<- <-]|[_ Hk]]%lookup_insert_Some; [|by eapply If]. cbn. intros Hin.
      rewrite Forall_forall in Io. specialize (Io _ Hin). cbn in Io. lia.
  - assert (reply_conns (sv_spawned sv ++ [mkSpawned s (mkStream (length evs) rest) (sv_parked sv !! park_name s)]) =
            reply_conns (sv_spawned sv) ++ option_list (st_conn <$> sv_parked sv !! park_name s)) as Hr.
    { unfold reply_conns. rewrite omap_app. cbn. by destruct (sv_parked sv !! park_name s). }
    split; cbn -[reply_conns]; rewrite ?Hr.
    + rewrite length_app. cbn. lia.
    + intros k st [_ Hk]%lookup_delete_Some. destruct (Ip k st Hk) as (s' & -> & Ha'). exists s'.
      split; [done|]. by apply authenticated_app.
    + apply Forall_app. split; [done|]. constructor; [|done]. split; [done|]. cbn. intros out Hout.
      destruct (Ip _ _ Hout) as (s' & Heq & Ha'). rewrite (park_name_inj _ _ _ _ _ _ _ _ _ _ Ha Ha' Heq).
      by apply authenticated_app.
    + intros k st [Hne Hk]%lookup_delete_Some. rewrite not_elem_of_app. split; [by eapply If|].
      destruct (sv_parked sv !! park_name s) as [out|] eqn:Hout; cbn; [|apply not_elem_of_nil].
      intros Hin%list_elem_of_singleton. destruct (Ip _ _ Hout) as (s1 & He1 & A1). destruct (Ip _ _ Hk) as (s2 & -> & A2).
      rewrite Hin in A2. destruct (authenticated_fun _ _ _ _ _ _ _ _ A1 A2) as [-> _]. congruence.
    + apply Forall_app. split; [done|]. destruct (sv_parked sv !! park_name s) as [out|] eqn:Hout; cbn; [|done].
      constructor; [|done]. destruct (Ip _ _ Hout) as (s1 & _ & A1). apply authenticated_lt in A1. rewrite length_app. cbn. lia.
    + destruct (sv_parked sv !! park_name s) as [out|] eqn:Hout; cbn; [|by rewrite app_nil_r].
      apply NoDup_app. split; [done|]. split; [|apply NoDup_singleton].
      intros x Hx ->%list_elem_of_singleton. by eapply If in Hout.
Qed.

Lemma server_inv_run evs evs' sv :
  server_inv evs sv → ∃ k, server_inv (evs ++ take k evs') (run_server true ks sv evs').1.
Proof.
  revert evs sv. induction evs' as [|ev evs' IH]; intros evs sv Hi.
  - exists 0%nat. cbn. by rewrite app_nil_r.
  - cbn [run_server]. destruct (run_step true ks sv ev) as [sv1| | |] eqn:Hrun;
      try (exists 0%nat; cbn [take]; by rewrite app_nil_r).
    destruct (IH (evs ++ [ev]) sv1) as [k Hk]; [by eapply server_inv_step|].
    exists (S k). cbn [take]. by rewrite <-app_assoc in Hk.
Qed.

Lemma authenticated_take evs k i s f rest : authenticated (take k evs) i s f rest → authenticated evs i s f rest.
Proof.
  intros (nonce & ok & incoming & name & sub & Hi & Hh). exists nonce, ok, incoming, name, sub.
  split; [|done]. by apply lookup_take_Some in Hi as [? _].
Qed.

(** C31: replies go back to the client that asked.  Whatever connections arrive in whatever
    order, every connection the server serves was authenticated, under the name the
    requests read from it will carry; if its replies are sent on a second stream, that
    stream was authenticated under the same name and sub-id and was opened for replies;
    and no stream carries the replies of two connections. *)
Theorem replies_go_to_requester (evs : list AcceptEvent) (sv : ServerState) (running : bool) :
  run_server true ks server_new evs = (sv, running) →
  Forall (λ sp, authenticated evs (st_conn (sp_stream sp)) (sp_sender sp) false (st_in (sp_stream sp)) ∧
     ∀ out, sp_stream_out sp = Some out → authenticated evs (st_conn out) (sp_sender sp) true (st_in out))
    (sv_spawned sv) ∧
  NoDup (reply_conns (sv_spawned sv)).
Proof.
  intros Hrun. destruct (server_inv_run [] evs server_new) as [k [_ _ Is _ _ Iu]].
  { split; cbn; try done; [intros ? ? Hk; by rewrite lookup_empty in Hk..|constructor]. }
  rewrite Hrun in *. cbn in Is, Iu. split; [|done]. eapply Forall_impl; [exact Is|].
  intros sp [H1 H2]. split; [by eapply authenticated_take|]. intros out Ho. by eapply authenticated_take, H2.
Qed.

(** One bad handshake closes the server.  If any arriving connection fails TLS or
    authentication (a peer that sends nothing valid, hangs up, or has no registered key),
    the accept loop returns: the state is what it was before, the loop does not run any
    more, and no later connection is served. *)
Lemma bad_handshake_stops_server (do_auth : bool) (evs1 : list AcceptEvent) (bad : AcceptEvent) (evs2 : list AcceptEvent)
    (sv : ServerState) :
  run_server do_auth ks server_new evs1 = (sv, true) →
  (∀ nonce ok incoming, bad = Accepted nonce ok incoming →
     ¬ ∃ r, handle_auth do_auth ks nonce ok incoming = IoOk r) →
  run_server do_auth ks server_new (evs1 ++ bad :: evs2) = (sv, false).
Proof.
  intros Hrun Hbad. revert Hrun. generalize server_new as sv0. induction evs1 as [|ev evs1 IH]; intros sv0 Hrun.
  - injection Hrun as ->. cbn [app run_server]. destruct bad as [| | |nonce ok incoming]; try done. cbn [run_step].
    specialize (Hbad nonce ok incoming eq_refl).
    destruct (handle_auth do_auth ks nonce ok incoming) as [r| | |]; [by destruct Hbad; exists r|done..].
  - cbn [app run_server] in *. destruct (run_step do_auth ks sv0 ev); [by apply IH|done..].
Qed.

End accept.

(** Node 1 opens a reply stream, then its main stream. *)
Definition toy_accepts : list AcceptEvent :=
  let HC := toy_handshake_codec in let Ed := toy_ed in
  [Accepted 3 true (handshake_client toy_keystore "node1" true 7 3);
   Accepted 4 true (handshake_client toy_keystore "node1" false 7 4)].

Definition toy_served : ServerState :=
  mkServer 2 ∅ [mkSpawned (Auth "node1" 7) (mkStream 1 []) (Some (mkStream 0 []))].

Lemma replies_go_to_requester_witness :
  let HC := toy_handshake_codec in let Ed := toy_ed in
  authenticated toy_keystore toy_accepts 0 (Auth "node1" 7) true [].
Proof.
  intros HC Ed.
  refine (proj2 (Forall_inv (proj1 (replies_go_to_requester toy_keystore _ toy_accepts toy_served true _)))
            (mkStream 0 []) eq_refl).
  - intros b r. cbn. repeat case_match; intros; simplify_eq/=; lia.
  - vm_compute. reflexivity.
Defined.

(** A peer that hangs up without answering the nonce. *)
Lemma bad_handshake_stops_server_witness :
  let HC := toy_handshake_codec in let Ed := toy_ed in
  run_server true toy_keystore server_new (toy_accepts ++ Accepted 5 true [] :: toy_accepts) = (toy_served, false).
Proof.
  intros HC Ed.
  apply (bad_handshake_stops_server toy_keystore true toy_accepts (Accepted 5 true []) toy_accepts toy_served).
  - vm_compute. reflexivity.
  - intros nonce ok incoming [= <- <- <-] [r Hr]. vm_compute in Hr. done.
Defined.

(** * From the sender's messages to the tasks of the node *)

Section delivery.
Context `{PayloadCodec}.

(** What a message is dispatched to, a nil message included. *)
Definition dispatch_opt (m : option PayloadMessage) (sender : SenderType) : list Routed * RespType :=
  match m with Some msg => dispatch msg sender | None => ([], NoResp) end.

Lemma handle_rpc_ok buf m name sub :
  payload_decode (payload_encode m) = Some m →
  slice_io 0 (length (payload_encode m)) buf = IoOk (payload_encode m) →
  handle_rpc buf (length (payload_encode m)) (Auth name sub) = IoOk (dispatch_opt m (Auth name sub)).
Proof. intros Hc Hs. unfold handle_rpc. rewrite Hs. cbn [mbind io_bind]. rewrite Hc. by destruct m. Qed.

Lemma stream_loop_ok fuel msgs r buff rest name sub :
  reader_ok r → rd_data r = concat (map (λ m, frame (payload_encode m)) msgs) ++ rest → (4 < fuel)%nat →
  Forall (λ m, payload_decode (payload_encode m) = Some m ∧ Z.of_nat (length (payload_encode m)) < 2 ^ 32 ∧
               (length (payload_encode m) < fuel)%nat) msgs →
  stream_loop fuel (length msgs) r buff (Auth name sub) =
    IoOk (concat (map (λ m, (dispatch_opt m (Auth name sub)).1) msgs),
          map (λ m, (dispatch_opt m (Auth name sub)).2) msgs, StillOpen).
Proof.
  intros Hr Hd Hf Hall. revert r buff Hr Hd. induction Hall as [|m msgs (Hc & Hm & Hmf) Hall IH]; intros r buff Hr Hd; [done|].
  cbn [length stream_loop]. unfold frame in Hd. cbn [map concat] in Hd. rewrite <-!app_assoc in Hd.
  destruct (get_next_frame_ok fuel r buff _ _ Hr Hd Hm Hf Hmf) as (r1 & buff1 & -> & Hs & Hr1 & Hd1).
  rewrite (handle_rpc_ok _ _ name sub Hc Hs). destruct (dispatch_opt m (Auth name sub)) as [out resp] eqn:Hdis.
  rewrite (IH r1 buff1 Hr1 Hd1). cbn [mbind io_bind map concat]. by rewrite Hdis.
Qed.


End delivery.

(** A codec for the messages without content. *)
Definition toy_payload_codec : PayloadCodec := {|
  payload_encode := λ m, match m with
    | Some (PmClientRequest _) => [Byte.x04]
    | Some PmBackfillRequest => [Byte.x05]
    | _ => []
    end;
  payload_decode := λ b, match b with
    | [] => Some None
    | [Byte.x04] => Some (Some (PmClientRequest (mkClientRequest None "" [] 9)))
    | [Byte.x05] => Some (Some PmBackfillRequest)
    | _ => None
    end |}.

