(* ===== verification/RpcClient.v ===== *)
(** The RPC client (src/src/rpc/client.rs): the map of open sockets, connecting and
    reconnecting, sending, and waiting for replies, for half- and full-duplex clients.
    Sockets are shared ([Arc]): the map holds handles into a heap, so a caller keeps its
    socket after the map has dropped it.  What a connection attempt gives (name resolution,
    TCP, TLS, the handshake) is the environment. *)

From stdpp Require Import base numbers list gmap strings option.
From S2P Require Import Prelude Types Serialize Framing.

(** * State *)

(** BufferedTlsStream: both halves of a socket. *)
Record Sock := mkSock {
  sk_tx : FrameWriter;
  sk_rx : FrameReader }.

Definition READ_BUFFER_SIZE : nat := Z.to_nat 8192.

(** [BufferedTlsStream::new] on a stream that will deliver [incoming]. *)
Definition sock_new (incoming : list (option bytes)) : Sock :=
  mkSock writer_new (reader_new READ_BUFFER_SIZE incoming).

(** The outcome of an attempt: an error of any of its steps, or a stream. *)
Inductive Attempt :=
  | AttemptErr
  | AttemptOk (incoming : list (option bytes)).

(** The immutable fields of [Client], and its state. *)
Record ClientConf := mkClientConf {
  cc_nodes : gset string;                 (* config.net_config.nodes *)
  cc_max_retry : nat;                     (* config.net_config.client_max_retry *)
  cc_full_duplex : bool;
  cc_sub_id : Z;
  cc_do_auth : bool }.

Record Client := mkClient {
  cl_sock_map : gmap string nat;
  cl_heap : gmap nat Sock;
  cl_next : nat;                          (* handles given out so far *)
  cl_net : list Attempt }.                (* the attempts to come *)

Definition set_sock_map (m : gmap string nat) (c : Client) : Client := mkClient m (cl_heap c) (cl_next c) (cl_net c).
Definition set_heap (h : gmap nat Sock) (c : Client) : Client := mkClient (cl_sock_map c) h (cl_next c) (cl_net c).

(** [Client::new] and [Client::new_unauthenticated]: no socket is open. *)
Definition client_conf (nodes : gset string) (max_retry : nat) (full_duplex : bool) (sub_id : Z) : ClientConf :=
  mkClientConf nodes max_retry full_duplex sub_id true.
Definition client_conf_unauthenticated (nodes : gset string) (max_retry : nat) : ClientConf :=
  mkClientConf nodes max_retry false 0 false.
Definition client_new (net : list Attempt) : Client := mkClient ∅ ∅ 0 net.

(** Operations change the client and return a result; an error keeps the changes. *)
Definition op (A : Type) : Type := Client → Client * io A.

#[export] Instance op_ret : MRet op := λ A a c, (c, IoOk a).
#[export] Instance op_bind : MBind op := λ A B f m c,
  let '(c, r) := m c in
  match r with IoOk a => f a c | IoErr => (c, IoErr) | IoPanic => (c, IoPanic) | IoFuel => (c, IoFuel) end.

Definition op_err {A} : op A := λ c, (c, IoErr).
Definition op_panic {A} : op A := λ c, (c, IoPanic).
Definition op_get : op Client := λ c, (c, IoOk c).
Definition op_modify (f : Client → Client) : op unit := λ c, (f c, IoOk tt).
(** [match] on the result of an operation instead of [?]. *)
Definition op_try {A} (m : op A) : op (option A) := λ c,
  let '(c, r) := m c in
  match r with IoOk a => (c, IoOk (Some a)) | IoErr => (c, IoOk None) | IoPanic => (c, IoPanic) | IoFuel => (c, IoFuel) end.

(** A locked socket: an operation on its write half, which keeps what was written before
    an error. *)
Definition on_tx (h : nat) (f : FrameWriter → FrameWriter * io unit) : op unit := λ c,
  match cl_heap c !! h with
  | None => (c, IoPanic)
  | Some s => let '(w, r) := f (sk_tx s) in (set_heap (<[h := mkSock w (sk_rx s)]> (cl_heap c)) c, r)
  end.

(** The reader after an error: everything before the failed read has been consumed. *)
Fixpoint until_failure (s : list (option bytes)) : list (option bytes) :=
  match s with Some _ :: s' => until_failure s' | _ => s end.
Definition failed_reader (r : FrameReader) : FrameReader :=
  mkReader (rd_buffer r) 0 0 (until_failure (rd_stream r)).

(** [get_next_frame] into a buffer of [size] bytes. *)
Definition on_rx (fuel : nat) (h : nat) (size : nat) : op (bytes * nat) := λ c,
  match cl_heap c !! h with
  | None => (c, IoPanic)
  | Some s =>
      match get_next_frame fuel (sk_rx s) (zeros size) with
      | IoOk (r, buff, sz) => (set_heap (<[h := mkSock (sk_tx s) r]> (cl_heap c)) c, IoOk (buff, sz))
      | IoErr => (set_heap (<[h := mkSock (sk_tx s) (failed_reader (sk_rx s))]> (cl_heap c)) c, IoErr)
      | IoPanic => (c, IoPanic)
      | IoFuel => (c, IoFuel)
      end
  end.

(** * Operations *)

Section client.
Context (cc : ClientConf) (fuel : nat).

Definition get_reply_name (name : string) : string :=
  if cc_full_duplex cc then (name +:+ ":reply")%string else name.

(** The next attempt, and a new socket for the stream it gives. *)
Definition attempt : op nat := λ c,
  match cl_net c with
  | AttemptOk incoming :: net =>
      (mkClient (cl_sock_map c) (<[cl_next c := sock_new incoming]> (cl_heap c)) (S (cl_next c)) net, IoOk (cl_next c))
  | AttemptErr :: net => (mkClient (cl_sock_map c) (cl_heap c) (cl_next c) net, IoErr)
  | [] => (c, IoErr)
  end.

Definition connect (name : string) : op (nat * option nat) :=
  if negb (bool_decide (name ∈ cc_nodes cc)) then op_err else
  stream_safe ← attempt;
  _ ← op_modify (λ c, set_sock_map (<[get_reply_name name := stream_safe]> (cl_sock_map c)) c);
  stream_safe2 ←
    (if cc_full_duplex cc && cc_do_auth cc then
       s ← attempt;
       _ ← op_modify (λ c, set_sock_map (<[name := s]> (cl_sock_map c)) c);
       mret (Some s)
     else mret None);
  if cc_full_duplex cc then
    match stream_safe2 with
    | Some s2 => mret (s2, Some stream_safe)
    | None => op_panic
    end
  else mret (stream_safe, None).

Definition get_sock (name : string) (is_reply_chan : bool) : op nat :=
  c ← op_get;
  let name' := if negb is_reply_chan then name else get_reply_name name in
  match cl_sock_map c !! name' with
  | Some h => mret h
  | None => '(h, _) ← connect name; mret h
  end.

Inductive SendDataType :=
  | ByteType (m : MessageRef)
  | SizeType (sz : Z).

Definition send_raw (name : string) (h : nat) (data : SendDataType) : op unit :=
  e ← op_try (match data with
              | ByteType d => on_tx h (λ w, write_all_bufffered w (mr_buf d) (mr_size d))
              | SizeType d => on_tx h (λ w, write_u32_buffered w d)
              end);
  match e with
  | Some _ => mret tt
  | None =>
      _ ← op_modify (λ c, set_sock_map (delete name (cl_sock_map c)) c);
      op_err
  end.

(** [data.len() as u32]: the length of the underlying vector. *)
Definition len_u32 (m : MessageRef) : Z := Z.of_nat (length (mr_buf m)) mod 2 ^ 32.

Definition send_buffered (name : string) (data : MessageRef) : op unit :=
  sock ← get_sock name false;
  _ ← send_raw name sock (SizeType (len_u32 data));
  send_raw name sock (ByteType data).

Definition send (name : string) (data : MessageRef) : op unit :=
  sock ← get_sock name false;
  _ ← send_raw name sock (SizeType (len_u32 data));
  _ ← send_raw name sock (ByteType data);
  on_tx sock flush_write_buffer.

Definition force_flush (name : string) : op unit :=
  sock ← get_sock name false;
  on_tx sock flush_write_buffer.

(** A reply: the buffer and the size of the message in it; the sender is
    [Auth name client_sub_id]. *)
Definition PinnedMessage : Type := bytes * nat * SenderType.

Definition read_reply (name : string) (h : nat) : op PinnedMessage :=
  '(resp_buf, sz) ← on_rx fuel h 256;
  if (sz =? 0)%nat then op_err
  else mret (resp_buf, sz, Auth name (cc_sub_id cc)).

Definition await_reply (name : string) : op PinnedMessage :=
  sock ← get_sock name (cc_full_duplex cc);
  read_reply name sock.

Definition send_and_await_reply (name : string) (data : MessageRef) : op PinnedMessage :=
  sock ← get_sock name false;
  _ ← send_raw name sock (SizeType (len_u32 data));
  _ ← send_raw name sock (ByteType data);
  _ ← on_tx sock flush_write_buffer;
  repl_sock ← get_sock name (cc_full_duplex cc);
  read_reply name repl_sock.

(** [WouldBlock] is an error as any other to the callers. *)
Definition try_await_reply (name : string) : op PinnedMessage :=
  sock ← get_sock name (cc_full_duplex cc);
  c ← op_get;
  match cl_heap c !! sock with
  | None => op_panic
  | Some s =>
      if (rd_bound (sk_rx s) =? rd_offset (sk_rx s))%nat then op_err
      else await_reply name
  end.

Fixpoint broadcast_and_await_reply (send_list : list string) (data : MessageRef) : op (list PinnedMessage) :=
  match send_list with
  | [] => mret []
  | name :: l =>
      res ← send_and_await_reply name data;
      rest ← broadcast_and_await_reply l data;
      mret (res :: rest)
  end.

(** The loop of [reliable_send] with [i] tries left. *)
Fixpoint send_retry (i : nat) (name : string) (data : MessageRef) : op unit :=
  match i with
  | O => op_err
  | S i' =>
      done ← op_try (send name data);
      match done with
      | Some _ => mret tt
      | None => send_retry i' name data
      end
  end.

Definition reliable_send (name : string) (data : MessageRef) : op unit := send_retry (cc_max_retry cc) name data.

Definition drop_connection (name : string) : op unit :=
  op_modify (λ c, set_sock_map (delete (get_reply_name name) (delete name (cl_sock_map c))) c).

Fixpoint drop_connections (names : list string) : op unit :=
  match names with
  | [] => mret tt
  | name :: l => _ ← drop_connection name; drop_connections l
  end.

Definition drop_all_connections `{HashIter} : op unit :=
  c ← op_get;
  drop_connections (hm_keys (cl_sock_map c)).

End client.

(** * Any sequence of calls *)

Inductive ClientCall :=
  | CSend (name : string) (m : MessageRef)
  | CSendBuffered (name : string) (m : MessageRef)
  | CForceFlush (name : string)
  | CSendAndAwaitReply (name : string) (m : MessageRef)
  | CAwaitReply (name : string)
  | CTryAwaitReply (name : string)
  | CBroadcastAndAwaitReply (names : list string) (m : MessageRef)
  | CReliableSend (name : string) (m : MessageRef)
  | CDropConnection (name : string)
  | CDropAllConnections
  | CPeerCloses (h : nat).               (* the environment: writes to socket [h] fail from now on *)

Definition close_tx (w : FrameWriter) : FrameWriter := mkWriter (wr_buffer w) (wr_offset w) (wr_sent w) false.

(** The replies a call returns. *)
Definition run_call `{HashIter} (cc : ClientConf) (fuel : nat) (call : ClientCall) : op (list PinnedMessage) :=
  match call with
  | CSend name m => _ ← send cc name m; mret []
  | CSendBuffered name m => _ ← send_buffered cc name m; mret []
  | CForceFlush name => _ ← force_flush cc name; mret []
  | CSendAndAwaitReply name m => r ← send_and_await_reply cc fuel name m; mret [r]
  | CAwaitReply name => r ← await_reply cc fuel name; mret [r]
  | CTryAwaitReply name => r ← try_await_reply cc fuel name; mret [r]
  | CBroadcastAndAwaitReply names m => broadcast_and_await_reply cc fuel names m
  | CReliableSend name m => _ ← reliable_send cc name m; mret []
  | CDropConnection name => _ ← drop_connection cc name; mret []
  | CDropAllConnections => _ ← drop_all_connections cc; mret []
  | CPeerCloses h => λ c,
      (match cl_heap c !! h with
       | Some s => set_heap (<[h := mkSock (close_tx (sk_tx s)) (sk_rx s)]> (cl_heap c)) c
       | None => c
       end, IoOk [])
  end.

(** The result of each call; a call that never returns or panics is the last. *)
Fixpoint run_calls `{HashIter} (cc : ClientConf) (fuel : nat) (calls : list ClientCall) (c : Client)
    : Client * list (io (list PinnedMessage)) :=
  match calls with
  | [] => (c, [])
  | call :: calls' =>
      let '(c, r) := run_call cc fuel call c in
      match r with
      | IoOk _ | IoErr => let '(c, rs) := run_calls cc fuel calls' c in (c, r :: rs)
      | _ => (c, [r])
      end
  end.

(** * Writers and readers stay in range *)

Definition writer_wf (w : FrameWriter) : Prop :=
  (wr_offset w ≤ length (wr_buffer w))%nat ∧ length (wr_buffer w) = WRITE_BUFFER_SIZE.
Definition reader_wf (r : FrameReader) : Prop :=
  (rd_offset r ≤ rd_bound r ≤ length (rd_buffer r))%nat ∧ length (rd_buffer r) = READ_BUFFER_SIZE.

Lemma length_splice v pos data v' : splice v pos data = IoOk v' → length v' = length v.
Proof.
  unfold splice. destruct (Nat.leb_spec (pos + length data) (length v)); [|done]. intros [= <-].
  rewrite !length_app, length_take, length_drop. lia.
Qed.

Lemma splice_in_range v pos data : (pos + length data ≤ length v)%nat → ∃ v', splice v pos data = IoOk v' ∧ length v' = length v.
Proof.
  intros Hl. destruct (splice v pos data) as [v'| | |] eqn:Hs; [|unfold splice in Hs; by rewrite (proj2 (Nat.leb_le _ _) Hl) in Hs..].
  exists v'. split; [done|]. by eapply length_splice.
Qed.

Lemma slice_in_range a b v : (a ≤ b ≤ length v)%nat → ∃ d, slice_io a b v = IoOk d ∧ length d = (b - a)%nat.
Proof.
  intros Hl. rewrite slice_io_ok by done. eexists. split; [done|]. rewrite length_take, length_drop. lia.
Qed.

(** Outcomes of a write: what was written stays in range, and the only failure is an
    error of the socket. *)
Definition tx_safe (w : FrameWriter) (p : FrameWriter * io unit) : Prop :=
  writer_wf p.1 ∧ (p.2 = IoOk tt ∨ p.2 = IoErr ∧ wr_alive w = false).

Lemma flush_safe w : writer_wf w → tx_safe w (flush_write_buffer w) ∧ wr_alive (flush_write_buffer w).1 = wr_alive w.
Proof.
  intros [Hw Hl]. unfold flush_write_buffer, tx_safe. destruct (wr_alive w) eqn:Ha; cbn;
    [|split; [split; [done|by right]|done]].
  destruct (slice_in_range 0 (wr_offset w) (wr_buffer w)) as (d & -> & _); [lia|].
  cbn. split; [|done]. split; [|by left]. split; cbn; [lia|done].
Qed.

Lemma write_loop_safe fuel w buff len n :
  writer_wf w → (n ≤ len ≤ length buff)%nat →
  (if (wr_offset w =? length (wr_buffer w))%nat then 2 * n + 1 ≤ fuel else 1 ≤ fuel ∧ 2 * n ≤ fuel)%nat →
  tx_safe w (write_loop fuel w buff len n).
Proof.
  revert w n. induction fuel as [|fuel IH]; intros w n Hw Hn Hf.
  { destruct (wr_offset w =? length (wr_buffer w))%nat; lia. }
  cbn [write_loop]. destruct (Nat.eqb_spec n 0) as [->|Hn0]; [split; [done|by left]|].
  destruct Hw as [Hoff Hlen]. assert (0 < WRITE_BUFFER_SIZE)%nat as Hcap by (unfold WRITE_BUFFER_SIZE; lia).
  destruct (Nat.eqb_spec (length (wr_buffer w) - wr_offset w) 0) as [Hfull|Hroom].
  - assert (wr_offset w = length (wr_buffer w)) as He by lia. rewrite (proj2 (Nat.eqb_eq _ _) He) in Hf.
    pose proof (flush_safe w (conj Hoff Hlen)) as [[Hw1 [Hr|[Hr Hdead]]] Hal];
      destruct (flush_write_buffer w) as [w1 r1] eqn:Hfl; cbn in Hw1, Hr, Hal; subst r1.
    + assert (wr_offset w1 = 0%nat) as Ho1.
      { revert Hfl. unfold flush_write_buffer. destruct (wr_alive w); [|done]. by case_match; intros; simplify_eq. }
      specialize (IH w1 n Hw1 Hn). rewrite Ho1, (proj2 (Nat.eqb_neq _ _)) in IH by (destruct Hw1; lia).
      unfold tx_safe in *. rewrite <-Hal. apply IH. lia.
    + split; [done|]. by right.
  - set (tw := if (n <? _)%nat then n else _).
    assert (0 < tw ≤ n ∧ tw ≤ length (wr_buffer w) - wr_offset w)%nat as Htw
      by (subst tw; destruct (Nat.ltb_spec n (length (wr_buffer w) - wr_offset w)); lia).
    destruct (slice_in_range (len - n) (len - n + tw) buff) as (d & -> & Hd); [lia|].
    destruct (splice_in_range (wr_buffer w) (wr_offset w) d) as (b & -> & Hb); [lia|].
    apply (IH (mkWriter b (wr_offset w + tw) (wr_sent w) (wr_alive w))).
    + split; cbn; lia.
    + lia.
    + cbn. revert Hf. destruct (Nat.eqb_spec (wr_offset w) (length (wr_buffer w))); [lia|]. intros [Hf1 Hf2].
      destruct (Nat.eqb_spec (wr_offset w + tw) (length b)); [lia|].
      subst tw. destruct (Nat.ltb_spec n (length (wr_buffer w) - wr_offset w)); lia.
Qed.

Lemma write_all_safe w buff len : writer_wf w → (len ≤ length buff)%nat → tx_safe w (write_all_bufffered w buff len).
Proof.
  intros Hw Hl. unfold write_all_bufffered. apply write_loop_safe; [done|lia|].
  destruct (wr_offset w =? length (wr_buffer w))%nat; lia.
Qed.

Lemma fetch_safe r : reader_wf r →
  match fetch r with IoOk r' => reader_wf r' | IoErr => True | _ => False end.
Proof.
  intros [_ Hl]. unfold fetch. destruct (rd_stream r) as [|[chunk|] s]; [|..|done]; (split; cbn; [|]); try lia.
  - rewrite length_app, length_drop, length_take. lia.
  - rewrite length_app, length_drop, length_take. lia.
Qed.

Lemma read_next_bytes_safe fuel r n pos v :
  reader_wf r → (pos + n ≤ length v)%nat →
  match read_next_bytes fuel r n pos v with
  | IoOk (r', v') => reader_wf r' ∧ length v' = length v
  | IoErr | IoFuel => True
  | IoPanic => False
  end.
Proof.
  revert r n pos v. induction fuel as [|fuel IH]; intros r n pos v Hr Hn; [done|]. cbn [read_next_bytes].
  destruct (n =? 0)%nat; [done|].
  assert (match (if (rd_bound r =? rd_offset r)%nat then fetch r else IoOk r) with
          | IoOk r' => reader_wf r' | IoErr => True | _ => False end) as Hf
    by (destruct (rd_bound r =? rd_offset r)%nat; [by apply fetch_safe|done]).
  destruct (if (rd_bound r =? rd_offset r)%nat then fetch r else IoOk r) as [r1| | |]; try done.
  cbn [mbind io_bind]. destruct Hf as [Hr1 Hl1].
  destruct (Nat.leb_spec n (rd_bound r1 - rd_offset r1)) as [Hle|Hgt].
  - destruct (slice_in_range (rd_offset r1) (rd_offset r1 + n) (rd_buffer r1)) as (d & -> & Hd); [lia|].
    cbn [mbind io_bind]. destruct (splice_in_range v pos d) as (v1 & -> & Hv1); [lia|]. cbn [mbind io_bind].
    rewrite <-Hv1. apply IH; [|lia]. split; cbn; [lia|done].
  - destruct (slice_in_range (rd_offset r1) (rd_bound r1) (rd_buffer r1)) as (d & -> & Hd); [lia|].
    cbn [mbind io_bind]. destruct (splice_in_range v pos d) as (v1 & -> & Hv1); [lia|]. cbn [mbind io_bind].
    rewrite <-Hv1. apply IH; [|lia]. split; cbn; [lia|done].
Qed.

Lemma get_next_frame_safe fuel r buff :
  reader_wf r →
  match get_next_frame fuel r buff with
  | IoOk (r', buff', sz) => reader_wf r' ∧ (sz ≤ length buff')%nat
  | IoErr | IoFuel => True
  | IoPanic => False
  end.
Proof.
  intros Hr. unfold get_next_frame.
  pose proof (read_next_bytes_safe fuel r 4 0 (zeros 4) Hr) as H1. rewrite length_zeros in H1. specialize (H1 ltac:(lia)).
  destruct (read_next_bytes fuel r 4 0 (zeros 4)) as [[r1 sz_vec]| | |]; try done. cbn [mbind io_bind]. destruct H1 as [Hr1 _].
  set (sz := Z.to_nat (from_be sz_vec)). set (buff1 := if (length buff <? sz)%nat then _ else _).
  assert (sz ≤ length buff1)%nat as Hb
    by (subst buff1; destruct (Nat.ltb_spec (length buff) sz); [rewrite length_app, length_zeros; lia|lia]).
  pose proof (read_next_bytes_safe fuel r1 sz 0 buff1 Hr1 ltac:(lia)) as H2.
  destruct (read_next_bytes fuel r1 sz 0 buff1) as [[r2 buff2]| | |]; try done. cbn [mbind io_bind].
  destruct H2 as [Hr2 Hl2]. split; [done|lia].
Qed.

(** * Every operation keeps the client well formed *)

Definition sock_wf (s : Sock) : Prop := writer_wf (sk_tx s) ∧ reader_wf (sk_rx s).

(** Open sockets exist, are in range, and no two names share one. *)
Record client_inv (c : Client) : Prop := {
  ci_open : ∀ n h, cl_sock_map c !! n = Some h → is_Some (cl_heap c !! h);
  ci_fresh : ∀ h, is_Some (cl_heap c !! h) → (h < cl_next c)%nat;
  ci_wf : ∀ h s, cl_heap c !! h = Some s → sock_wf s;
  ci_inj : ∀ n1 n2 h, cl_sock_map c !! n1 = Some h → cl_sock_map c !! n2 = Some h → n1 = n2 }.

(** [m] keeps the invariant, does not panic, drops no socket from the heap, and its value
    satisfies [Q]. *)
Definition safe {A} (m : op A) (Q : A → Client → Prop) (c : Client) : Prop :=
  client_inv (m c).1 ∧ (m c).2 ≠ IoPanic ∧
  (∀ h, is_Some (cl_heap c !! h) → is_Some (cl_heap (m c).1 !! h)) ∧
  ∀ a, (m c).2 = IoOk a → Q a (m c).1.

Lemma safe_ret {A} (a : A) Q c : client_inv c → Q a c → safe (mret a) Q c.
Proof. intros Hi Hq. split; [done|]. split; [done|]. split; [done|]. by intros ? [= <-]. Qed.

Lemma safe_err {A} (Q : A → Client → Prop) c : client_inv c → safe op_err Q c.
Proof. intros Hi. split; [done|]. split; [done|]. by split. Qed.

Lemma safe_mono {A} (m : op A) (Q Q' : A → Client → Prop) c :
  safe m Q c → (∀ a c', Q a c' → Q' a c') → safe m Q' c.
Proof. intros (H1 & H2 & H3 & H4) HQ. split; [done|]. split; [done|]. split; [done|]. auto. Qed.

Lemma safe_bind {A B} (m : op A) (f : A → op B) Q R c :
  safe m R c →
  (∀ a c', client_inv c' → (∀ h, is_Some (cl_heap c !! h) → is_Some (cl_heap c' !! h)) → R a c' → safe (f a) Q c') →
  safe (m ≫= f) Q c.
Proof.
  unfold safe, mbind, op_bind. destruct (m c) as [c1 [a| | |]]; cbn; intros (H1 & H2 & H3 & H4) Hf; try (split_and!; done).
  destruct (Hf a c1 H1 H3 (H4 a eq_refl)) as (G1 & G2 & G3 & G4). split_and!; auto.
Qed.

Lemma safe_get Q c : client_inv c → Q c c → safe op_get Q c.
Proof. intros Hi Hq. split; [done|]. split; [done|]. split; [done|]. by intros ? [= <-]. Qed.

Lemma safe_modify f Q c :
  client_inv (f c) → (∀ h, is_Some (cl_heap c !! h) → is_Some (cl_heap (f c) !! h)) → Q tt (f c) → safe (op_modify f) Q c.
Proof. intros Hi Hh Hq. split; [done|]. split; [done|]. split; [done|]. by intros [] _. Qed.

Lemma safe_try {A} (m : op A) Q c :
  safe m (λ a c', Q (Some a) c') c → (∀ c', client_inv c' → Q None c') → safe (op_try m) Q c.
Proof.
  unfold safe, op_try. destruct (m c) as [c1 [a| | |]]; cbn; intros (H1 & H2 & H3 & H4) HN; try (split_and!; done).
  - split; [done|]. split; [done|]. split; [done|]. intros ? [= <-]. auto.
  - split; [done|]. split; [done|]. split; [done|]. intros ? [= <-]. auto.
Qed.

(** Replacing a socket by a well-formed one. *)
Lemma client_inv_update c h s s' :
  client_inv c → cl_heap c !! h = Some s → sock_wf s' →
  client_inv (set_heap (<[h := s']> (cl_heap c)) c) ∧
  ∀ h', is_Some (cl_heap c !! h') → is_Some (<[h := s']> (cl_heap c) !! h').
Proof.
  intros [I1 I2 I3 I4] Hs Hwf.
  assert (∀ h', is_Some (cl_heap c !! h') ↔ is_Some (<[h := s']> (cl_heap c) !! h')) as Hdom.
  { intros h'. destruct (decide (h' = h)) as [->|Hne]; [rewrite lookup_insert_eq, Hs; split; eauto|].
    by rewrite lookup_insert_ne. }
  split; [|intros h'; apply Hdom]. split; cbn.
  - intros n h' Hn. apply Hdom. by eapply I1.
  - intros h' Hh. by apply I2, Hdom.
  - intros h' x [[<- <-]|[_ Hx]]%lookup_insert_Some; [done|by eapply I3].
  - done.
Qed.

Lemma safe_on_tx h f (c : Client) :
  client_inv c → is_Some (cl_heap c !! h) → (∀ w, writer_wf w → tx_safe w (f w)) → safe (on_tx h f) (λ _ _, True) c.
Proof.
  intros Hi [s Hs] Hf. unfold safe, on_tx. rewrite Hs. destruct (ci_wf c Hi h s Hs) as [Hw Hr].
  destruct (Hf _ Hw) as [Hw' Hres]. destruct (f (sk_tx s)) as [w r]. cbn in *.
  destruct (client_inv_update c h s (mkSock w (sk_rx s)) Hi Hs (conj Hw' Hr)) as [Hi' Hh].
  split; [done|]. split; [by destruct Hres as [->|[-> _]]|]. by split.
Qed.

Lemma reader_wf_failed r : reader_wf r → reader_wf (failed_reader r).
Proof. intros [_ Hl]. split; cbn; [lia|done]. Qed.

Lemma safe_on_rx fuel h size (c : Client) :
  client_inv c → is_Some (cl_heap c !! h) → safe (on_rx fuel h size) (λ p _, p.2 ≤ length p.1)%nat c.
Proof.
  intros Hi [s Hs]. unfold safe, on_rx. rewrite Hs. destruct (ci_wf c Hi h s Hs) as [Hw Hr].
  pose proof (get_next_frame_safe fuel (sk_rx s) (zeros size) Hr) as Hg.
  destruct (get_next_frame fuel (sk_rx s) (zeros size)) as [[[r buff] sz]| | |]; try done; cbn.
  - destruct Hg as [Hr' Hsz]. destruct (client_inv_update c h s (mkSock (sk_tx s) r) Hi Hs (conj Hw Hr')) as [Hi' Hh].
    split; [done|]. split; [done|]. split; [done|]. by intros ? [= <-].
  - destruct (client_inv_update c h s (mkSock (sk_tx s) (failed_reader (sk_rx s))) Hi Hs
                (conj Hw (reader_wf_failed _ Hr))) as [Hi' Hh]. split; [done|]. split; [done|]. by split.
Qed.

Lemma sock_new_wf incoming : sock_wf (sock_new incoming).
Proof.
  split; (split; cbn [sock_new sk_tx sk_rx writer_new wr_offset wr_buffer reader_new rd_offset rd_bound rd_buffer];
    rewrite ?length_zeros; unfold WRITE_BUFFER_SIZE, READ_BUFFER_SIZE; lia).
Qed.

(** Closing names keeps the invariant; opening one needs a socket that is not in the map. *)
Lemma client_inv_delete c n : client_inv c → client_inv (set_sock_map (delete n (cl_sock_map c)) c).
Proof.
  intros [I1 I2 I3 I4]. split; cbn; [|done..|].
  - intros n' h [_ Hn]%lookup_delete_Some. by eapply I1.
  - intros n1 n2 h [_ H1]%lookup_delete_Some [_ H2]%lookup_delete_Some. by eapply I4.
Qed.

Lemma client_inv_open c n h :
  client_inv c → is_Some (cl_heap c !! h) → (∀ n', cl_sock_map c !! n' ≠ Some h) →
  client_inv (set_sock_map (<[n := h]> (cl_sock_map c)) c).
Proof.
  intros [I1 I2 I3 I4] Hh Hno. split; cbn; [|done..|].
  - intros n' h' [[<- <-]|[_ Hn]]%lookup_insert_Some; [done|by eapply I1].
  - intros n1 n2 h' [[<- <-]|[N1 H1]]%lookup_insert_Some [[<- Hh2]|[N2 H2]]%lookup_insert_Some; try done.
    + by destruct (Hno n2).
    + subst. by destruct (Hno n1).
    + by eapply I4.
Qed.

Lemma safe_attempt c : client_inv c →
  safe attempt (λ h c', is_Some (cl_heap c' !! h) ∧ ∀ n, cl_sock_map c' !! n ≠ Some h) c.
Proof.
  intros Hi. pose proof Hi as [I1 I2 I3 I4]. unfold safe, attempt.
  destruct (cl_net c) as [|[|incoming] net]; cbn.
  - by split_and!.
  - by split_and!.
  - assert (cl_heap c !! cl_next c = None) as Hfresh.
    { apply eq_None_not_Some. intros Hs%I2. lia. }
    assert (∀ h, is_Some (cl_heap c !! h) → is_Some (<[cl_next c := sock_new incoming]> (cl_heap c) !! h)) as Hh.
    { intros h Hs. rewrite lookup_insert_ne; [done|]. intros <-. rewrite Hfresh in Hs. by destruct Hs. }
    split_and!; try done.
    + split; cbn; [by eauto| | |done].
      * intros h Hs. destruct (decide (h = cl_next c)) as [->|Hne]; [lia|].
        rewrite lookup_insert_ne in Hs by done. apply I2 in Hs. lia.
      * intros h s [[_ <-]|[_ Hs]]%lookup_insert_Some; [apply sock_new_wf|by eapply I3].
    + intros a [= <-]. split; [rewrite lookup_insert_eq; eauto|].
      intros n Hn. apply I1 in Hn. rewrite Hfresh in Hn. by destruct Hn.
Qed.

Lemma client_new_inv net : client_inv (client_new net).
Proof.
  split; cbn; [intros ? ? Hn; by rewrite lookup_empty in Hn|intros ? Hn; by rewrite lookup_empty in Hn; destruct Hn|
    intros ? ? Hn; by rewrite lookup_empty in Hn|intros ? ? ? Hn; by rewrite lookup_empty in Hn].
Qed.

Section safety.
Context (cc : ClientConf) (fuel : nat) (duplex_auth : cc_full_duplex cc = true → cc_do_auth cc = true).

Lemma safe_connect name c : client_inv c → safe (connect cc name) (λ p c', is_Some (cl_heap c' !! p.1)) c.
Proof.
  intros Hi. unfold connect. destruct (negb _); [by apply safe_err|].
  eapply safe_bind; [by apply safe_attempt|]. intros h1 c1 Hi1 _ [Hh1 Hno1].
  eapply safe_bind; [apply (safe_modify _ (λ _ c', is_Some (cl_heap c' !! h1))); [by apply client_inv_open|done|done]|].
  intros [] c2 Hi2 _ Hh1'. destruct (cc_full_duplex cc) eqn:Hfd.
  - rewrite duplex_auth by done. cbn [andb].
    eapply (safe_bind _ _ _ (λ o c', ∃ h2, o = Some h2 ∧ is_Some (cl_heap c' !! h2))).
    + eapply safe_bind; [by apply safe_attempt|]. intros h2 c3 Hi3 _ [Hh2 Hno2].
      eapply safe_bind; [apply (safe_modify _ (λ _ c', is_Some (cl_heap c' !! h2))); [by apply client_inv_open|done|done]|].
      intros [] c4 Hi4 _ Hh. apply safe_ret; [done|]. by exists h2.
    + intros o c3 Hi3 _ (h2 & -> & Hh). by apply safe_ret.
  - cbn [andb]. eapply (safe_bind _ _ _ (λ o c', is_Some (cl_heap c' !! h1))); [by apply safe_ret|].
    intros o c3 Hi3 _ Hh. by apply safe_ret.
Qed.

Lemma safe_get_sock name b c : client_inv c → safe (get_sock cc name b) (λ h c', is_Some (cl_heap c' !! h)) c.
Proof.
  intros Hi. unfold get_sock. eapply (safe_bind _ _ _ (λ x c', x = c')); [by apply safe_get|].
  intros ? c1 Hi1 _ ->. destruct (cl_sock_map c1 !! _) as [h|] eqn:Hm.
  - apply safe_ret; [done|]. by eapply ci_open.
  - eapply safe_bind; [by apply safe_connect|]. intros [h o] c2 Hi2 _ Hh. by apply safe_ret.
Qed.

Definition data_ok (d : SendDataType) : Prop :=
  match d with ByteType m => (mr_size m ≤ length (mr_buf m))%nat | SizeType _ => True end.

Lemma safe_send_raw name h d c :
  client_inv c → is_Some (cl_heap c !! h) → data_ok d → safe (send_raw name h d) (λ _ _, True) c.
Proof.
  intros Hi Hh Hd. unfold send_raw. eapply (safe_bind _ _ _ (λ _ _, True)).
  - apply safe_try; [|done]. destruct d as [m|sz]; cbn in Hd.
    + apply safe_on_tx; [done..|]. intros w Hw. by apply write_all_safe.
    + apply safe_on_tx; [done..|]. intros w Hw. apply write_all_safe; [done|]. by rewrite length_be_bytes.
  - intros [[]|] c1 Hi1 _ _; [by apply safe_ret|].
    eapply (safe_bind _ _ _ (λ _ _, True)); [apply safe_modify; [by apply client_inv_delete|done..]|].
    intros [] c2 Hi2 _ _. by apply safe_err.
Qed.

Lemma safe_flush h c : client_inv c → is_Some (cl_heap c !! h) → safe (on_tx h flush_write_buffer) (λ _ _, True) c.
Proof. intros Hi Hh. apply safe_on_tx; [done..|]. intros w Hw. by apply flush_safe. Qed.

(** One bind of an operation whose lemma is known. *)
Ltac safe_step lem := eapply safe_bind; [apply lem; first [done|by eauto]|cbn beta].

Lemma safe_send name m c : client_inv c → (mr_size m ≤ length (mr_buf m))%nat → safe (send cc name m) (λ _ _, True) c.
Proof.
  intros Hi Hm. unfold send. safe_step safe_get_sock. intros h c1 Hi1 _ Hh.
  safe_step safe_send_raw. intros [] c2 Hi2 K2 _. safe_step safe_send_raw. intros [] c3 Hi3 K3 _.
  apply safe_flush; auto.
Qed.

Lemma safe_send_buffered name m c :
  client_inv c → (mr_size m ≤ length (mr_buf m))%nat → safe (send_buffered cc name m) (λ _ _, True) c.
Proof.
  intros Hi Hm. unfold send_buffered. safe_step safe_get_sock. intros h c1 Hi1 _ Hh.
  safe_step safe_send_raw. intros [] c2 Hi2 K2 _. apply safe_send_raw; auto.
Qed.

Definition reply_ok (p : PinnedMessage) : Prop := (0 < p.1.2 ≤ length p.1.1)%nat.

Lemma safe_read_reply name h c :
  client_inv c → is_Some (cl_heap c !! h) → safe (read_reply cc fuel name h) (λ p _, reply_ok p) c.
Proof.
  intros Hi Hh. unfold read_reply. eapply safe_bind; [by apply safe_on_rx|]. cbn beta.
  intros [buf sz] c1 Hi1 _ Hsz. cbn in Hsz. destruct (Nat.eqb_spec sz 0); [by apply safe_err|].
  apply safe_ret; [done|]. unfold reply_ok. cbn. lia.
Qed.

Lemma safe_await_reply name c : client_inv c → safe (await_reply cc fuel name) (λ p _, reply_ok p) c.
Proof. intros Hi. unfold await_reply. safe_step safe_get_sock. intros h c1 Hi1 _ Hh. by apply safe_read_reply. Qed.

Lemma safe_send_and_await_reply name m c :
  client_inv c → (mr_size m ≤ length (mr_buf m))%nat → safe (send_and_await_reply cc fuel name m) (λ p _, reply_ok p) c.
Proof.
  intros Hi Hm. unfold send_and_await_reply. safe_step safe_get_sock. intros h c1 Hi1 _ Hh.
  safe_step safe_send_raw. intros [] c2 Hi2 K2 _. safe_step safe_send_raw. intros [] c3 Hi3 K3 _.
  eapply safe_bind; [apply safe_flush; auto|]. intros [] c4 Hi4 K4 _.
  safe_step safe_get_sock. intros h' c5 Hi5 _ Hh'. by apply safe_read_reply.
Qed.

Lemma safe_try_await_reply name c : client_inv c → safe (try_await_reply cc fuel name) (λ p _, reply_ok p) c.
Proof.
  intros Hi. unfold try_await_reply. safe_step safe_get_sock. intros h c1 Hi1 _ Hh.
  eapply (safe_bind _ _ _ (λ x c', x = c' ∧ is_Some (cl_heap c' !! h))); [by apply safe_get|].
  intros ? c2 Hi2 _ [-> [s Hs]]. rewrite Hs. destruct (_ =? _)%nat; [by apply safe_err|]. by apply safe_await_reply.
Qed.

Lemma safe_broadcast_and_await_reply names m c :
  client_inv c → (mr_size m ≤ length (mr_buf m))%nat →
  safe (broadcast_and_await_reply cc fuel names m) (λ l _, Forall reply_ok l ∧ length l = length names) c.
Proof.
  intros Hi Hm. revert c Hi. induction names as [|name names IH]; intros c Hi; cbn [broadcast_and_await_reply].
  - by apply safe_ret.
  - safe_step safe_send_and_await_reply. intros r c1 Hi1 _ Hr.
    eapply safe_bind; [by apply IH|]. cbn beta. intros l c2 Hi2 _ [Hl Hn]. apply safe_ret; [done|].
    split; [by constructor|cbn; lia].
Qed.

Lemma safe_reliable_send name m c :
  client_inv c → (mr_size m ≤ length (mr_buf m))%nat → safe (reliable_send cc name m) (λ _ _, True) c.
Proof.
  intros Hi Hm. unfold reliable_send. generalize (cc_max_retry cc) as i. intros i. revert c Hi.
  induction i as [|i IH]; intros c Hi; cbn [send_retry]; [by apply safe_err|].
  eapply (safe_bind _ _ _ (λ _ _, True)).
  - apply safe_try; [|done]. by eapply safe_mono; [apply safe_send|].
  - intros [[]|] c1 Hi1 _ _; [by apply safe_ret|by apply IH].
Qed.

Lemma safe_drop_connection name c : client_inv c → safe (drop_connection cc name) (λ _ _, True) c.
Proof.
  intros Hi. apply safe_modify; [|done..].
  pose proof (client_inv_delete (set_sock_map (delete name (cl_sock_map c)) c) (get_reply_name cc name)
                (client_inv_delete c name Hi)) as Hd. by destruct c.
Qed.

Lemma safe_drop_connections names c : client_inv c → safe (drop_connections cc names) (λ _ _, True) c.
Proof.
  revert c. induction names as [|n names IH]; intros c Hi; cbn [drop_connections]; [by apply safe_ret|].
  safe_step safe_drop_connection. intros [] c1 Hi1 _ _. by apply IH.
Qed.

Definition call_ok (call : ClientCall) : Prop :=
  match call with
  | CSend _ m | CSendBuffered _ m | CSendAndAwaitReply _ m | CBroadcastAndAwaitReply _ m | CReliableSend _ m =>
      (mr_size m ≤ length (mr_buf m))%nat
  | _ => True
  end.

Lemma safe_nil {A} (m : op A) c : safe m (λ _ _, True) c → safe (_ ← m; mret ([] : list PinnedMessage)) (λ l _, Forall reply_ok l) c.
Proof. intros Hm. eapply safe_bind; [exact Hm|]. intros a c1 Hi1 _ _. by apply safe_ret. Qed.

Lemma safe_one (m : op PinnedMessage) c : safe m (λ p _, reply_ok p) c → safe (r ← m; mret [r]) (λ l _, Forall reply_ok l) c.
Proof. intros Hm. eapply safe_bind; [exact Hm|]. intros a c1 Hi1 _ Ha. apply safe_ret; [done|]. by constructor. Qed.

Lemma safe_run_call `{HashIter} call c :
  client_inv c → call_ok call → safe (run_call cc fuel call) (λ l _, Forall reply_ok l) c.
Proof.
  intros Hi Hok. destruct call as [n m|n m|n|n m|n|n|ns m|n m|n| |h]; cbn [run_call call_ok] in *.
  - by apply safe_nil, safe_send.
  - by apply safe_nil, safe_send_buffered.
  - apply safe_nil. unfold force_flush. safe_step safe_get_sock. intros h c1 Hi1 _ Hh. by apply safe_flush.
  - by apply safe_one, safe_send_and_await_reply.
  - by apply safe_one, safe_await_reply.
  - by apply safe_one, safe_try_await_reply.
  - eapply safe_mono; [by apply safe_broadcast_and_await_reply|]. by intros l c' [Hl _].
  - by apply safe_nil, safe_reliable_send.
  - by apply safe_nil, safe_drop_connection.
  - apply safe_nil. unfold drop_all_connections.
    eapply (safe_bind _ _ _ (λ _ _, True)); [by apply safe_get|]. intros x c1 Hi1 _ _. by apply safe_drop_connections.
  - destruct (cl_heap c !! h) as [s|] eqn:Hs.
    + destruct (ci_wf c Hi h s Hs) as [Hw Hr].
      destruct (client_inv_update c h s (mkSock (close_tx (sk_tx s)) (sk_rx s)) Hi Hs (conj Hw Hr)) as [Hi' Hh].
      unfold safe. rewrite Hs. split_and!; try done. by intros ? [= <-].
    + unfold safe. rewrite Hs. split_and!; try done. by intros ? [= <-].
Qed.

(** C32: the client is memory- and index-safe and never crosses wires.  From a fresh
    client, after any sequence of calls, with any connection attempts failing, any bytes
    arriving and any sockets dying at any time: no call panics (no slice of a buffer is
    out of range), every reply returned is a non-empty message that lies within its
    buffer, every name in the socket map has a socket, and no two names (nor a name and
    its reply channel) share one. *)
Theorem client_calls_safe `{HashIter} (calls : list ClientCall) (net : list Attempt) :
  Forall call_ok calls →
  let '(c, results) := run_calls cc fuel calls (client_new net) in
  client_inv c ∧ Forall (λ r, r ≠ IoPanic ∧ ∀ l, r = IoOk l → Forall reply_ok l) results.
Proof.
  intros Hok. pose proof (client_new_inv net) as Hi. revert Hi. generalize (client_new net) as c. induction Hok as [|call calls Hc Hok IH]; intros c Hi; [done|].
  cbn [run_calls]. pose proof (safe_run_call call c Hi Hc) as (Hi1 & Hp & _ & Hq).
  destruct (run_call cc fuel call c) as [c1 r]. cbn in Hi1, Hp, Hq.
  destruct r as [l| | |]; try done.
  - specialize (IH c1 Hi1). destruct (run_calls cc fuel calls c1) as [c2 rs]. destruct IH as [Hi2 Hrs].
    split; [done|]. constructor; [|done]. split; [done|]. by intros ? [= <-]; apply Hq.
  - specialize (IH c1 Hi1). destruct (run_calls cc fuel calls c1) as [c2 rs]. destruct IH as [Hi2 Hrs].
    split; [done|]. constructor; [|done]. by split.
  - split; [done|]. constructor; [|done]. by split.
Qed.

End safety.

(** Two nodes, full duplex; the first send connects twice, the socket dies, a reply comes. *)
Lemma client_calls_safe_witness :
  let H := map_to_list_iter in
  let cc := client_conf {["node1"; "node2"]} 2 true 0 in
  let m := mkMsgRef [Byte.x61; Byte.x62] 2 in
  let calls := [CSend "node1" m; CPeerCloses 1; CSend "node1" m; CAwaitReply "node1"; CSend "node3" m] in
  let net := [AttemptOk [Some [Byte.x00; Byte.x00; Byte.x00; Byte.x01; Byte.x07]]; AttemptOk []] in
  client_inv (run_calls cc 10 calls (client_new net)).1.
Proof.
  intros H cc m calls net.
  pose proof (client_calls_safe cc 10 (λ _, eq_refl) calls net) as Hs.
  destruct (run_calls cc 10 calls (client_new net)) as [c rs]. apply Hs.
  repeat constructor.
Defined.

(** * A request and its reply *)

Lemma on_tx_eq h f c s w r :
  cl_heap c !! h = Some s → f (sk_tx s) = (w, r) →
  on_tx h f c = (set_heap (<[h := mkSock w (sk_rx s)]> (cl_heap c)) c, r).
Proof. intros Hs Hf. unfold on_tx. by rewrite Hs, Hf. Qed.

Lemma send_raw_eq name h d c s w :
  cl_heap c !! h = Some s →
  (match d with
   | ByteType m => write_all_bufffered (sk_tx s) (mr_buf m) (mr_size m)
   | SizeType z => write_u32_buffered (sk_tx s) z
   end) = (w, IoOk tt) →
  send_raw name h d c = (set_heap (<[h := mkSock w (sk_rx s)]> (cl_heap c)) c, IoOk tt).
Proof.
  intros Hs Hf. unfold send_raw, op_try, mbind, op_bind.
  destruct d as [m|z]; by rewrite (on_tx_eq _ _ _ _ _ _ Hs Hf).
Qed.

Lemma len_u32_small m : Z.of_nat (length (mr_buf m)) < 2 ^ 32 → len_u32 m = Z.of_nat (length (mr_buf m)).
Proof. intros Hl. unfold len_u32. apply Z.mod_small. lia. Qed.

(** The three writes of a request on an open, live socket put one frame on the wire. *)
Lemma send_live {A} (k : op A) name h m c s :
  cl_heap c !! h = Some s → writer_ok (sk_tx s) → wr_data (sk_tx s) = [] → mr_size m = length (mr_buf m) →
  Z.of_nat (length (mr_buf m)) < 2 ^ 32 →
  ∃ w, concat (wr_sent w) = frame (mr_buf m) ∧
    (_ ← send_raw name h (SizeType (len_u32 m)); _ ← send_raw name h (ByteType m); _ ← on_tx h flush_write_buffer; k) c =
    k (set_heap (<[h := mkSock w (sk_rx s)]> (cl_heap c)) c).
Proof.
  intros Hs Hw He Hm Hl. rewrite len_u32_small by done.
  destruct (write_all_ok (sk_tx s) (be_bytes 4 (Z.of_nat (length (mr_buf m)))) 4 Hw) as (w1 & Hr1 & Hw1 & Hd1);
    [by rewrite length_be_bytes|].
  destruct (write_all_ok w1 (mr_buf m) (mr_size m) Hw1) as (w2 & Hr2 & Hw2 & Hd2); [lia|].
  destruct (flush_ok w2 Hw2) as (w3 & Hr3 & Hw3 & _ & Hd3 & _). exists w3. split.
  - rewrite Hd3, Hd2, Hd1, He, Hm. unfold frame. by rewrite !take_ge by (rewrite ?length_be_bytes; lia).
  - unfold mbind at 1, op_bind at 1. rewrite (send_raw_eq _ _ _ _ s w1) by done.
    unfold mbind at 1, op_bind at 1. rewrite (send_raw_eq _ _ _ _ (mkSock w1 (sk_rx s)) w2) by (cbn; try rewrite lookup_insert_eq; done).
    unfold mbind at 1, op_bind at 1. rewrite (on_tx_eq _ _ _ (mkSock w2 (sk_rx s)) w3 (IoOk tt)) by (cbn; try rewrite lookup_insert_eq; done).
    f_equal. unfold set_heap. cbn. by rewrite !insert_insert_eq.
Qed.

Lemma connect_half cc name sm hp nx in1 net :
  cc_full_duplex cc = false → name ∈ cc_nodes cc →
  connect cc name (mkClient sm hp nx (AttemptOk in1 :: net)) =
    (mkClient (<[name := nx]> sm) (<[nx := sock_new in1]> hp) (S nx) net, IoOk (nx, None)).
Proof.
  intros Hfd Hin. unfold connect. rewrite bool_decide_true, Hfd by done. cbn [negb andb].
  unfold get_reply_name. by rewrite Hfd.
Qed.

Lemma connect_full cc (name : string) sm hp nx in1 in2 net :
  cc_full_duplex cc = true → cc_do_auth cc = true → name ∈ cc_nodes cc →
  connect cc name (mkClient sm hp nx (AttemptOk in1 :: AttemptOk in2 :: net)) =
    (mkClient (<[name := S nx]> (<[(name +:+ ":reply")%string := nx]> sm))
       (<[S nx := sock_new in2]> (<[nx := sock_new in1]> hp)) (S (S nx)) net, IoOk (S nx, Some nx)).
Proof.
  intros Hfd Ha Hin. unfold connect. rewrite bool_decide_true, Hfd, Ha by done. cbn [negb andb].
  unfold get_reply_name. by rewrite Hfd.
Qed.

Lemma get_sock_open cc name (b : bool) c h :
  cl_sock_map c !! (if b then get_reply_name cc name else name) = Some h → get_sock cc name b c = (c, IoOk h).
Proof. intros Hm. unfold get_sock, mbind, op_bind, op_get. destruct b; cbn [negb]; by rewrite Hm. Qed.

Lemma get_sock_closed cc name (b : bool) c c' h o :
  cl_sock_map c !! (if b then get_reply_name cc name else name) = None →
  connect cc name c = (c', IoOk (h, o)) → get_sock cc name b c = (c', IoOk h).
Proof. intros Hm Hc. unfold get_sock, mbind, op_bind, op_get. destruct b; cbn [negb]; by rewrite Hm, Hc. Qed.

Lemma reply_name_ne (name : string) : (name +:+ ":reply")%string ≠ name.
Proof. induction name as [|x name IH]; [done|]. intros He. apply IH. by injection He. Qed.

Lemma read_reply_ok cc fuel name h c s chunks reply rest :
  cl_heap c !! h = Some s → sk_rx s = reader_new READ_BUFFER_SIZE (map Some chunks) →
  Forall (λ x, x ≠ []) chunks → concat chunks = frame reply ++ rest →
  reply ≠ [] → Z.of_nat (length reply) < 2 ^ 32 → (4 < fuel)%nat → (length reply < fuel)%nat →
  ∃ r' buf, read_reply cc fuel name h c =
    (set_heap (<[h := mkSock (sk_tx s) r']> (cl_heap c)) c, IoOk (buf, length reply, Auth name (cc_sub_id cc))) ∧
    take (length reply) buf = reply.
Proof.
  intros Hs Hrx Hne Hch Hr Hl Hf Hf'. destruct (reader_new_ok READ_BUFFER_SIZE chunks) as [Hok Hd];
    [unfold READ_BUFFER_SIZE; lia|done|]. rewrite <-Hrx in Hok, Hd. rewrite Hch in Hd. unfold frame in Hd. rewrite <-app_assoc in Hd.
  destruct (get_next_frame_ok fuel (sk_rx s) (zeros 256) reply rest Hok Hd Hl Hf Hf') as (r' & buf & Hg & Hsl & _ & _).
  exists r', buf. unfold read_reply, mbind, op_bind, on_rx. rewrite Hs, Hg.
  destruct (Nat.eqb_spec (length reply) 0) as [H0|_]; [by destruct reply|]. split; [done|].
  unfold slice_io in Hsl. destruct (slice 0 (length reply) buf) as [x|] eqn:Hx; [|done]. injection Hsl as ->.
  unfold slice in Hx. destruct (_ && _); [|done]. injection Hx as Hx. by rewrite Nat.sub_0_r, drop_0 in Hx.
Qed.

(** A request gets its reply.  For a client with no open connection whose attempts to
    connect succeed: [send_and_await_reply] puts exactly the frame of the request on the
    stream it requests on, and returns exactly the reply the server framed on the stream
    replies come on (the same stream, or for a full-duplex client the one opened first),
    however the network cuts it. *)
Lemma request_gets_reply (cc : ClientConf) (fuel : nat) (name : string) (m : MessageRef) (reply : bytes)
    (chunks : list bytes) (in2 : list (option bytes)) (net : list Attempt) :
  name ∈ cc_nodes cc → (cc_full_duplex cc = true → cc_do_auth cc = true) →
  mr_size m = length (mr_buf m) → Z.of_nat (length (mr_buf m)) < 2 ^ 32 →
  reply ≠ [] → Z.of_nat (length reply) < 2 ^ 32 → (4 < fuel)%nat → (length reply < fuel)%nat →
  Forall (λ x, x ≠ []) chunks → concat chunks = frame reply →
  ∃ c' buf h sock,
    send_and_await_reply cc fuel name m
      (client_new (AttemptOk (map Some chunks) :: (if cc_full_duplex cc then AttemptOk in2 :: net else net))) =
      (c', IoOk (buf, length reply, Auth name (cc_sub_id cc))) ∧
    take (length reply) buf = reply ∧
    cl_sock_map c' !! name = Some h ∧ cl_heap c' !! h = Some sock ∧ concat (wr_sent (sk_tx sock)) = frame (mr_buf m).
Proof.
  intros Hin Hauth Hm Hml Hr Hrl Hf Hf' Hne Hch. unfold send_and_await_reply, client_new.
  destruct (cc_full_duplex cc) eqn:Hfd.
  - unfold mbind at 1, op_bind at 1. erewrite get_sock_closed; [|done|by apply connect_full; auto].
    set (c1 := mkClient _ _ _ _).
    destruct (send_live (repl_sock ← get_sock cc name true; read_reply cc fuel name repl_sock) name 1 m c1 (sock_new in2)
                eq_refl writer_new_ok eq_refl Hm Hml) as (w & Hw & ->).
    set (c2 := set_heap _ c1). unfold mbind at 1, op_bind at 1.
    rewrite (get_sock_open cc name true c2 0%nat).
    2:{ unfold get_reply_name. rewrite Hfd. cbn [c2 c1 cl_sock_map set_heap].
        rewrite lookup_insert_ne by (symmetry; apply reply_name_ne). by rewrite lookup_insert_eq. }
    destruct (read_reply_ok cc fuel name 0 c2 (sock_new (map Some chunks)) chunks reply []) as (r' & buf & -> & Hb);
      try done; [by rewrite app_nil_r|].
    do 2 eexists. exists 1%nat. eexists. split; [done|]. split; [done|].
    split; [cbn; by rewrite lookup_insert_eq|]. split; [done|done].
  - unfold mbind at 1, op_bind at 1. erewrite get_sock_closed; [|done|by apply connect_half].
    set (c1 := mkClient _ _ _ _).
    destruct (send_live (repl_sock ← get_sock cc name false; read_reply cc fuel name repl_sock) name 0 m c1
                (sock_new (map Some chunks)) eq_refl writer_new_ok eq_refl Hm Hml) as (w & Hw & ->).
    set (c2 := set_heap _ c1). unfold mbind at 1, op_bind at 1.
    rewrite (get_sock_open cc name false c2 0%nat) by (cbn; by rewrite lookup_insert_eq).
    destruct (read_reply_ok cc fuel name 0 c2 (mkSock w (sk_rx (sock_new (map Some chunks)))) chunks reply [])
      as (r' & buf & -> & Hb); try done; [by rewrite app_nil_r|].
    do 2 eexists. exists 0%nat. eexists. split; [done|]. split; [done|].
    split; [cbn; by rewrite lookup_insert_eq|]. split; [done|done].
Qed.

Lemma request_gets_reply_witness :
  let cc := client_conf {["node1"]} 2 true 5 in
  ∃ c' buf h sock,
    send_and_await_reply cc 9 "node1" (mkMsgRef [Byte.x61; Byte.x62] 2)
      (client_new [AttemptOk (map Some [[Byte.x00; Byte.x00]; [Byte.x00; Byte.x01; Byte.x07]]); AttemptOk []]) =
      (c', IoOk (buf, 1%nat, Auth "node1" 5)) ∧
    take 1 buf = [Byte.x07] ∧ cl_sock_map c' !! "node1"%string = Some h ∧ cl_heap c' !! h = Some sock ∧
    concat (wr_sent (sk_tx sock)) = frame [Byte.x61; Byte.x62].
Proof.
  intros cc.
  apply (request_gets_reply cc 9 "node1" (mkMsgRef [Byte.x61; Byte.x62] 2) [Byte.x07]
           [[Byte.x00; Byte.x00]; [Byte.x00; Byte.x01; Byte.x07]] [] []); try done; try (cbn; lia).
  by repeat constructor.
Defined.

(** * Dead sockets *)

Lemma write_fits w buff len :
  writer_wf w → (len ≤ length buff)%nat → (wr_offset w + len ≤ length (wr_buffer w))%nat →
  ∃ w', write_all_bufffered w buff len = (w', IoOk tt) ∧ writer_wf w' ∧
        wr_offset w' = (wr_offset w + len)%nat ∧ wr_alive w' = wr_alive w.
Proof.
  intros [Hw Hl] Hb Hfit. unfold write_all_bufffered. cbn [write_loop].
  destruct (Nat.eqb_spec len 0) as [->|Hn0]; [exists w; split_and!; try done; lia|].
  destruct (Nat.eqb_spec (length (wr_buffer w) - wr_offset w) 0); [lia|].
  assert ((if (len <? length (wr_buffer w) - wr_offset w)%nat then len else (length (wr_buffer w) - wr_offset w)%nat) = len) as ->
    by (destruct (Nat.ltb_spec len (length (wr_buffer w) - wr_offset w)); lia).
  destruct (slice_in_range (len - len) (len - len + len) buff) as (d & -> & Hd); [lia|].
  destruct (splice_in_range (wr_buffer w) (wr_offset w) d) as (b & -> & Hb'); [lia|].
  rewrite Nat.sub_diag. destruct (2 * len)%nat as [|k] eqn:Hk; [lia|]. cbn [write_loop Nat.eqb].
  eexists. split; [done|]. split; [split; cbn; lia|]. done.
Qed.

(** One send on a dead socket with room in its buffer fails at the flush. *)
Lemma send_dead cc name m c h s :
  cl_sock_map c !! name = Some h → cl_heap c !! h = Some s → writer_wf (sk_tx s) → wr_alive (sk_tx s) = false →
  (mr_size m ≤ length (mr_buf m))%nat → (wr_offset (sk_tx s) + (4 + mr_size m) ≤ WRITE_BUFFER_SIZE)%nat →
  ∃ w, send cc name m c = (set_heap (<[h := mkSock w (sk_rx s)]> (cl_heap c)) c, IoErr) ∧ writer_wf w ∧
       wr_alive w = false ∧ wr_offset w = (wr_offset (sk_tx s) + (4 + mr_size m))%nat.
Proof.
  intros Hn Hs Hw Hdead Hm Hfit.
  destruct (write_fits (sk_tx s) (be_bytes 4 (len_u32 m)) 4 Hw) as (w1 & Hr1 & Hw1 & Ho1 & Ha1);
    [by rewrite length_be_bytes|destruct Hw; lia|].
  destruct (write_fits w1 (mr_buf m) (mr_size m) Hw1 Hm) as (w2 & Hr2 & Hw2 & Ho2 & Ha2); [destruct Hw1; lia|].
  exists w2. split; [|split; [done|]; split; [congruence|lia]].
  unfold send. unfold mbind at 1, op_bind at 1. rewrite (get_sock_open _ _ false _ h) by done.
  unfold mbind at 1, op_bind at 1. rewrite (send_raw_eq _ _ _ _ s w1) by done.
  unfold mbind at 1, op_bind at 1. rewrite (send_raw_eq _ _ _ _ (mkSock w1 (sk_rx s)) w2) by (cbn; try rewrite lookup_insert_eq; done).
  rewrite (on_tx_eq _ _ _ (mkSock w2 (sk_rx s)) w2 IoErr).
  - f_equal. unfold set_heap. cbn. by rewrite !insert_insert_eq.
  - cbn. by rewrite lookup_insert_eq.
  - cbn. unfold flush_write_buffer. by rewrite Ha2, Ha1, Hdead.
Qed.

(** A dead connection is not replaced.  Only the failure of a write to a full buffer
    removes a socket from the map; [send] leaves it there when the flush fails.  So while
    the retries of [reliable_send] fit in the 8192-byte buffer of a dead socket, every one
    of them fails on it: the call returns an error, the map still names the dead socket
    and no new connection was attempted, however many attempts would have succeeded. *)
Lemma reliable_send_keeps_dead_socket (cc : ClientConf) (name : string) (m : MessageRef) (c : Client) (h : nat) (s : Sock) :
  cl_sock_map c !! name = Some h → cl_heap c !! h = Some s → writer_wf (sk_tx s) → wr_alive (sk_tx s) = false →
  (mr_size m ≤ length (mr_buf m))%nat →
  (wr_offset (sk_tx s) + cc_max_retry cc * (4 + mr_size m) ≤ WRITE_BUFFER_SIZE)%nat →
  ∃ c', reliable_send cc name m c = (c', IoErr) ∧ cl_sock_map c' !! name = Some h ∧ cl_net c' = cl_net c ∧
        ∃ s', cl_heap c' !! h = Some s' ∧ wr_alive (sk_tx s') = false.
Proof.
  intros Hn Hs Hw Hdead Hm. unfold reliable_send. generalize (cc_max_retry cc) as i. intros i. revert c s Hn Hs Hw Hdead.
  induction i as [|i IH]; intros c s Hn Hs Hw Hdead Hfit; cbn [send_retry].
  - exists c. split_and!; try done. by exists s.
  - destruct (send_dead cc name m c h s Hn Hs Hw Hdead Hm) as (w & Hsend & Hw' & Hdead' & Ho); [lia|].
    unfold mbind, op_bind, op_try. rewrite Hsend.
    apply (IH (set_heap (<[h := mkSock w (sk_rx s)]> (cl_heap c)) c) (mkSock w (sk_rx s))); cbn; try done.
    + by rewrite lookup_insert_eq.
    + lia.
Qed.

Lemma reliable_send_keeps_dead_socket_witness :
  let cc := client_conf {["node1"]} 10 false 0 in
  let s := mkSock (close_tx writer_new) (reader_new READ_BUFFER_SIZE []) in
  let c := mkClient {["node1"%string := 0%nat]} {[0%nat := s]} 1 [AttemptOk []; AttemptOk []] in
  ∃ c', reliable_send cc "node1" (mkMsgRef (zeros 800) 800) c = (c', IoErr) ∧
        cl_sock_map c' !! "node1"%string = Some 0%nat ∧ cl_net c' = [AttemptOk []; AttemptOk []] ∧
        ∃ s', cl_heap c' !! 0%nat = Some s' ∧ wr_alive (sk_tx s') = false.
Proof.
  intros cc s c. apply (reliable_send_keeps_dead_socket cc "node1" (mkMsgRef (zeros 800) 800) c 0 s); try done.
  - split; cbn [s sk_tx close_tx writer_new wr_offset wr_buffer]; rewrite length_zeros; [lia|done].
  - unfold WRITE_BUFFER_SIZE. cbn [s sk_tx close_tx writer_new wr_offset cc client_conf cc_max_retry mr_size]. lia.
Defined.

(** A full-duplex client that has to reconnect while waiting waits on the wrong stream.
    [get_sock] asked for the reply stream finds none, connects, and returns the request
    stream; the server answers on the reply stream.  Whatever replies are waiting there,
    and with nothing arriving on the request stream, [await_reply] never returns. *)
Lemma await_reply_wrong_stream (cc : ClientConf) (fuel : nat) (name : string) (sm : gmap string nat) (hp : gmap nat Sock)
    (nx : nat) (replies : list (option bytes)) (net : list Attempt) :
  cc_full_duplex cc = true → cc_do_auth cc = true → name ∈ cc_nodes cc →
  sm !! (name +:+ ":reply")%string = None →
  let r := await_reply cc fuel name (mkClient sm hp nx (AttemptOk replies :: AttemptOk [] :: net)) in
  r.2 = IoFuel ∧
  cl_sock_map r.1 !! (name +:+ ":reply")%string = Some nx ∧ cl_heap r.1 !! nx = Some (sock_new replies).
Proof.
  intros Hfd Ha Hin Hno r.
  assert (r = (mkClient (<[name := S nx]> (<[(name +:+ ":reply")%string := nx]> sm))
                 (<[S nx := sock_new []]> (<[nx := sock_new replies]> hp)) (S (S nx)) net, IoFuel)) as ->.
  { subst r. unfold await_reply. rewrite Hfd. unfold mbind at 1, op_bind at 1.
    erewrite get_sock_closed; [|unfold get_reply_name; by rewrite Hfd|by apply connect_full].
    unfold read_reply, mbind, op_bind, on_rx. cbn [cl_heap]. rewrite lookup_insert_eq.
    unfold get_next_frame. by rewrite read_closed_spins. }
  split; [done|]. cbn. rewrite lookup_insert_ne by (symmetry; apply reply_name_ne). rewrite lookup_insert_eq.
  split; [done|]. rewrite lookup_insert_ne by lia. by rewrite lookup_insert_eq.
Qed.

Lemma await_reply_wrong_stream_witness :
  let cc := client_conf {["node1"]} 10 true 0 in
  let replies := [Some [Byte.x00; Byte.x00; Byte.x00; Byte.x01; Byte.x07]] in
  (await_reply cc 1000 "node1" (client_new [AttemptOk replies; AttemptOk []])).2 = IoFuel.
Proof.
  intros cc replies. by apply (await_reply_wrong_stream cc 1000 "node1" ∅ ∅ 0 replies []).
Defined.
