(* ===== verification/Bcast.v ===== *)
(** Broadcasting (src/src/rpc/client.rs): [broadcast] hands a message to one worker task per
    peer through a channel of ten messages; each worker connects, writes the messages it
    takes from its channel and dies when a write fails, after which the next broadcast starts
    a new one.  The caller and the workers are interleaved in any way.  Theorems: what a
    connection carries is the messages accepted for its worker, in order and each once; a
    single unreachable peer lets at most ten broadcasts complete. *)

From stdpp Require Import base numbers list gmap strings option sorting.
From S2P Require Import Prelude Types Serialize Framing RpcClient.

(** * State *)

(** What a worker is doing: connecting; waiting for messages; about to write the size, or
    the body, of the first of the messages it has taken; about to flush, with [should_die];
    about to deregister; gone.  [h] is the socket the task has got. *)
Inductive Phase :=
  | PConnect
  | PRecv (h : nat)
  | PSize (h : nat) (msgs : list MessageRef)
  | PBody (h : nat) (msgs : list MessageRef)
  | PFlush (h : nat) (should_die : bool)
  | PDereg (h : nat)
  | PDone (h : nat).

(** A worker and its channel.  [wk_accepted] is not in the code: it records all messages the
    channel has accepted. *)
Record Worker := mkWorker {
  wk_name : string;
  wk_queue : list MessageRef;
  wk_open : bool;
  wk_phase : Phase;
  wk_accepted : list MessageRef }.

(** A call of [broadcast] under way: its message, the peers left, the slowest so far. *)
Record Call := mkCall {
  c_data : MessageRef;
  c_todo : list string;
  c_slowest : string }.

(** The channel of a peer is named by the number of its worker. *)
Record Bc := mkBc {
  bc_client : Client;
  bc_ready : gset string;
  bc_chan_map : gmap string nat;
  bc_workers : list Worker;
  bc_slowest : option string;
  bc_call : option Call }.

Definition bc_new (c : Client) : Bc := mkBc c ∅ ∅ [] None None.

Definition CHANNEL_CAPACITY : nat := 10.
Definition RECV_LIMIT : nat := 10.

Definition set_phase (ph : Phase) (wk : Worker) : Worker :=
  mkWorker (wk_name wk) (wk_queue wk) (wk_open wk) ph (wk_accepted wk).
Definition enqueue (m : MessageRef) (wk : Worker) : Worker :=
  mkWorker (wk_name wk) (wk_queue wk ++ [m]) (wk_open wk) (wk_phase wk) (wk_accepted wk ++ [m]).
Definition set_queue (q : list MessageRef) (wk : Worker) : Worker :=
  mkWorker (wk_name wk) q (wk_open wk) (wk_phase wk) (wk_accepted wk).
(** [rx.close()] *)
Definition close_rx (wk : Worker) : Worker :=
  mkWorker (wk_name wk) (wk_queue wk) false (wk_phase wk) (wk_accepted wk).

Definition set_workers (l : list Worker) (s : Bc) : Bc :=
  mkBc (bc_client s) (bc_ready s) (bc_chan_map s) l (bc_slowest s) (bc_call s).
Definition on_worker (i : nat) (f : Worker → Worker) (s : Bc) : Bc := set_workers (alter f i (bc_workers s)) s.
Definition set_client (c : Client) (s : Bc) : Bc :=
  mkBc c (bc_ready s) (bc_chan_map s) (bc_workers s) (bc_slowest s) (bc_call s).
Definition set_call (o : option Call) (s : Bc) : Bc :=
  mkBc (bc_client s) (bc_ready s) (bc_chan_map s) (bc_workers s) (bc_slowest s) o.

(** * Steps *)

(** The steps of the caller and of the workers.  [slow]: this send took longer than the ones
    before it.  [net]: what the connection attempts of the step give.  [AKill]: a connection
    breaks. *)
Inductive Act :=
  | ACall (names : list string) (data : MessageRef)
  | APush (slow : bool)
  | AReturn
  | AConnect (i : nat) (net : list Attempt)
  | ARecv (i : nat)
  | AWrite (i : nat)
  | AFlush (i : nat)
  | ADereg (i : nat)
  | AKill (h : nat).

Section bcast.
Context (cc : ClientConf).

(** A channel for [name], its worker, and its registration. *)
Definition spawn (s : Bc) (name : string) : Bc :=
  mkBc (bc_client s) ({[name]} ∪ bc_ready s) (<[name := length (bc_workers s)]> (bc_chan_map s))
    (bc_workers s ++ [mkWorker name [] true PConnect []]) (bc_slowest s) (bc_call s).

Definition need_to_spawn_workers (names : list string) (s : Bc) : list string :=
  filter (λ n, n ∉ bc_ready s) names.

(** The slowest peer comes first. *)
Definition send_order (slowest_peer : option string) (names : list string) : list string :=
  match slowest_peer with
  | Some p => if bool_decide (p ∈ names) then p :: filter (λ n, n ≠ p) names else names
  | None => names
  end.

Definition start_call (names : list string) (data : MessageRef) (s : Bc) : Outcome Bc :=
  match bc_call s with
  | Some _ => Blocked
  | None =>
      let s := fold_left spawn (need_to_spawn_workers names s) s in
      Next (set_call (Some (mkCall data (send_order (bc_slowest s) names) "")) s)
  end.

(** [chan.send(..).await]: waits for a place in an open channel, fails on a closed one. *)
Definition push (slow : bool) (s : Bc) : Outcome Bc :=
  match bc_call s with
  | Some (mkCall data (name :: todo) slowest) =>
      let s' := set_call (Some (mkCall data todo (if slow then name else slowest))) s in
      match bc_chan_map s !! name with
      | None => Panicked
      | Some i =>
          match bc_workers s !! i with
          | None => Panicked
          | Some wk =>
              if wk_open wk then
                if (length (wk_queue wk) <? CHANNEL_CAPACITY)%nat then Next (on_worker i (enqueue data) s') else Blocked
              else Next s'
          end
      end
  | _ => Blocked
  end.

Definition return_call (s : Bc) : Outcome Bc :=
  match bc_call s with
  | Some (mkCall _ [] slowest) =>
      Next (mkBc (bc_client s) (bc_ready s) (bc_chan_map s) (bc_workers s)
              (if bool_decide (slowest = ""%string) then bc_slowest s else Some slowest) None)
  | _ => Blocked
  end.

(** [loop { match get_sock(..) { Ok(s) => break s, Err(_) => continue } }] *)
Definition worker_connect (i : nat) (net : list Attempt) (s : Bc) : Outcome Bc :=
  match bc_workers s !! i with
  | Some (mkWorker name _ _ PConnect _) =>
      let c := bc_client s in
      let '(c', r) := get_sock cc name false (mkClient (cl_sock_map c) (cl_heap c) (cl_next c) net) in
      match r with
      | IoOk h => Next (on_worker i (set_phase (PRecv h)) (set_client c' s))
      | IoErr => Next (set_client c' s)
      | _ => Panicked
      end
  | _ => Blocked
  end.

(** [recv_many(&mut msgs, 10)]; 0 when the channel is empty and its sender is gone. *)
Definition worker_recv (i : nat) (s : Bc) : Outcome Bc :=
  match bc_workers s !! i with
  | Some (mkWorker name q _ (PRecv h) _) =>
      match q with
      | [] => if bool_decide (bc_chan_map s !! name = Some i) then Blocked else Next (on_worker i (set_phase (PDereg h)) s)
      | _ => Next (on_worker i (λ wk, set_phase (PSize h (take RECV_LIMIT q)) (set_queue (drop RECV_LIMIT q) wk)) s)
      end
  | _ => Blocked
  end.

(** One of the two writes of a message; an error ends the loop. *)
Definition worker_write (i : nat) (s : Bc) : Outcome Bc :=
  match bc_workers s !! i with
  | Some (mkWorker name _ _ ph _) =>
      let write h d next :=
        let '(c', r) := send_raw name h d (bc_client s) in
        match r with
        | IoOk _ => Next (on_worker i (set_phase next) (set_client c' s))
        | IoErr => Next (on_worker i (set_phase (PFlush h true)) (set_client c' s))
        | _ => Panicked
        end in
      match ph with
      | PSize h (m :: ms) => write h (SizeType (len_u32 m)) (PBody h (m :: ms))
      | PBody h (m :: ms) => write h (ByteType m) (match ms with [] => PFlush h false | _ => PSize h ms end)
      | _ => Blocked
      end
  | None => Blocked
  end.

(** The flush, whose result is not looked at; the rest of [msgs] is cleared. *)
Definition worker_flush (i : nat) (s : Bc) : Outcome Bc :=
  match bc_workers s !! i with
  | Some (mkWorker _ _ _ (PFlush h should_die) _) =>
      let '(c', r) := on_tx h flush_write_buffer (bc_client s) in
      match r with
      | IoOk _ | IoErr =>
          Next (on_worker i (if should_die then (λ wk, set_phase (PDereg h) (close_rx wk)) else set_phase (PRecv h)) (set_client c' s))
      | _ => Panicked
      end
  | _ => Blocked
  end.

Definition worker_deregister (i : nat) (s : Bc) : Outcome Bc :=
  match bc_workers s !! i with
  | Some (mkWorker name _ _ (PDereg h) _) =>
      Next (on_worker i (set_phase (PDone h))
        (mkBc (bc_client s) (bc_ready s ∖ {[name]}) (bc_chan_map s) (bc_workers s) (bc_slowest s) (bc_call s)))
  | _ => Blocked
  end.

(** The connection behind a socket breaks: nothing more is accepted. *)
Definition kill (h : nat) (s : Bc) : Outcome Bc :=
  match cl_heap (bc_client s) !! h with
  | None => Blocked
  | Some k => Next (set_client (set_heap (<[h := mkSock (close_tx (sk_tx k)) (sk_rx k)]> (cl_heap (bc_client s))) (bc_client s)) s)
  end.

Definition bcast_step (a : Act) (s : Bc) : Outcome Bc :=
  match a with
  | ACall names data => start_call names data s
  | APush slow => push slow s
  | AReturn => return_call s
  | AConnect i net => worker_connect i net s
  | ARecv i => worker_recv i s
  | AWrite i => worker_write i s
  | AFlush i => worker_flush i s
  | ADereg i => worker_deregister i s
  | AKill h => kill h s
  end.

Definition bcast_run : list Act → Bc → Outcome Bc := run_steps bcast_step.

End bcast.

(** * The state the steps keep *)

Lemma lookup_alter_worker {W : Type} (f : W → W) (l : list W) i j wk :
  alter f i l !! j = Some wk → (i = j ∧ ∃ wk0, l !! j = Some wk0 ∧ wk = f wk0) ∨ (i ≠ j ∧ l !! j = Some wk).
Proof.
  destruct (decide (i = j)) as [<-|Hne].
  - rewrite list_lookup_alter_eq. destruct (l !! i) as [wk0|]; intros [= <-]. left. eauto.
  - rewrite list_lookup_alter_ne by done. by right.
Qed.

(** Updates that do not rename workers. *)
Definition renames (f : Worker → Worker) : Prop := ∀ wk, wk_name (f wk) = wk_name wk.

(** The channel of a name belongs to a worker of that name. *)
Definition chans_ok (m : gmap string nat) (l : list Worker) : Prop :=
  ∀ n j, m !! n = Some j → ∃ wk, l !! j = Some wk ∧ wk_name wk = n.

Lemma chans_ok_alter m l f i : renames f → chans_ok m l → chans_ok m (alter f i l).
Proof.
  intros Hf Hc n j Hn. destruct (Hc n j Hn) as (wk & Hj & Hw). destruct (decide (i = j)) as [<-|Hne].
  - exists (f wk). rewrite list_lookup_alter_eq, Hj. split; [done|]. by rewrite Hf.
  - exists wk. by rewrite list_lookup_alter_ne.
Qed.

Lemma chans_ok_spawn s n : chans_ok (bc_chan_map s) (bc_workers s) → chans_ok (bc_chan_map (spawn s n)) (bc_workers (spawn s n)).
Proof.
  intros Hc n' j. cbn. intros [[<- <-]|[_ Hn']]%lookup_insert_Some.
  - eexists. rewrite lookup_app_r, Nat.sub_diag by lia. done.
  - destruct (Hc _ _ Hn') as (wk & Hj & ?). exists wk. split; [|done]. by apply lookup_app_l_Some.
Qed.

(** * A peer that cannot be reached *)

Definition pushed (p : string) (o : option Call) : nat :=
  match o with Some c => if bool_decide (p ∈ c_todo c) then 0 else 1 | None => 0 end.

(** The one worker of [p], still connecting, with [q] messages in its channel. *)
Definition waiting_worker (p : string) (q : nat) (s : Bc) : Prop :=
  p ∈ bc_ready s ∧ ∃ i wk, bc_chan_map s !! p = Some i ∧ bc_workers s !! i = Some wk ∧
    wk_phase wk = PConnect ∧ wk_open wk = true ∧ length (wk_queue wk) = q ∧
    (∀ j wk', bc_workers s !! j = Some wk' → wk_name wk' = p → j = i).

Definition no_worker (p : string) (s : Bc) : Prop :=
  p ∉ bc_ready s ∧ ∀ j wk, bc_workers s !! j = Some wk → wk_name wk ≠ p.

(** [n] broadcasts have completed. *)
Record stalled (p : string) (n : nat) (s : Bc) : Prop := {
  sd_sock : cl_sock_map (bc_client s) !! p = None;
  sd_chans : chans_ok (bc_chan_map s) (bc_workers s);
  sd_todo : match bc_call s with Some c => NoDup (c_todo c) | None => True end;
  sd_worker : (no_worker p s ∧ bc_call s = None ∧ n = 0%nat) ∨
    (waiting_worker p (n + pushed p (bc_call s)) s ∧ (n + pushed p (bc_call s) ≤ CHANNEL_CAPACITY)%nat) }.

(** Steps of other workers. *)
Lemma stalled_frame p n s i f c' :
  renames f → (∀ wk, bc_workers s !! i = Some wk → wk_name wk ≠ p) → cl_sock_map c' !! p = None →
  stalled p n s → stalled p n (on_worker i f (set_client c' s)).
Proof.
  intros Hf Hi Hc [H1 H2 H3 H4]. split; cbn; [done|by apply chans_ok_alter|done|].
  assert (∀ j wk, alter f i (bc_workers s) !! j = Some wk → wk_name wk = p → bc_workers s !! j = Some wk) as Hback.
  { intros j wk [(<- & wk0 & Hj & ->)|[_ ?]]%lookup_alter_worker; [|done]. rewrite Hf. intros Hn. by destruct (Hi _ Hj). }
  destruct H4 as [((Hr & Hw) & ? & ?)|((Hr & k & wk & Hk & Hwk & Hph & Ho & Hq & Hu) & Hle)].
  - left. split; [split; [done|]|done]. intros j wk Hj Hn. by eapply Hw; [apply Hback|].
  - right. split; [|done]. split; [done|]. exists k, wk. cbn.
    destruct (H2 _ _ Hk) as (wk' & Hk' & Hn). rewrite Hwk in Hk'. injection Hk' as <-.
    assert (i ≠ k) as Hne by (intros ->; by destruct (Hi _ Hwk)).
    rewrite list_lookup_alter_ne by done. split_and!; try done.
    intros j wk' Hj Hn'. by eapply Hu; [apply Hback|].
Qed.

Lemma get_sock_sock_map cc name c c' r p :
  cc_full_duplex cc = false → get_sock cc name false c = (c', r) → name ≠ p → cl_sock_map c !! p = None → cl_sock_map c' !! p = None.
Proof.
  intros Hfd Hg Hne Hp. unfold get_sock, mbind, op_bind, op_get in Hg. cbn [negb] in Hg.
  destruct (cl_sock_map c !! name); [by injection Hg as <- _|].
  unfold connect in Hg. rewrite Hfd in Hg. cbn [andb] in Hg. unfold get_reply_name in Hg. rewrite Hfd in Hg.
  destruct (negb _); [by injection Hg as <- _|]. unfold attempt, mbind, op_bind, op_modify in Hg.
  destruct (cl_net c) as [|[|inc] net]; cbn in Hg; injection Hg as <- _; try done. cbn. by rewrite lookup_insert_ne.
Qed.

Lemma get_sock_down cc name c net :
  cc_full_duplex cc = false → cl_sock_map c !! name = None → Forall (λ a, a = AttemptErr) net →
  ∃ c', get_sock cc name false (mkClient (cl_sock_map c) (cl_heap c) (cl_next c) net) = (c', IoErr) ∧
    cl_sock_map c' = cl_sock_map c.
Proof.
  intros Hfd Hn Hnet. unfold get_sock, mbind, op_bind, op_get. cbn [negb cl_sock_map]. rewrite Hn.
  unfold connect. destruct (negb _); [by eexists|]. unfold attempt, mbind, op_bind. cbn [cl_net].
  destruct Hnet as [|a net -> _]; by eexists.
Qed.

Lemma send_raw_sock_map name h d c c' r p :
  send_raw name h d c = (c', r) → cl_sock_map c !! p = None → cl_sock_map c' !! p = None.
Proof.
  intros Hs Hp. unfold send_raw, mbind, op_bind, op_try in Hs.
  assert (∀ f, cl_sock_map (on_tx h f c).1 = cl_sock_map c) as Htx.
  { intros f. unfold on_tx. destruct (cl_heap c !! h) as [k|]; [|done]. by destruct (f (sk_tx k)). }
  destruct d; (destruct (on_tx h _ c) as [c1 r1] eqn:E; assert (cl_sock_map c1 = cl_sock_map c) as Hc1 by (rewrite <-(f_equal fst E : _ = c1); apply Htx);
    destruct r1; cbn in Hs; injection Hs as <- _; cbn; rewrite ?Hc1; try done;
    destruct (decide (p = name)) as [->|]; [by rewrite lookup_delete_eq|by rewrite lookup_delete_ne]).
Qed.

Lemma stalled_spawn p n s name :
  (name = p → no_worker p s ∧ n = 0%nat) → bc_call s = None → stalled p n s → stalled p n (spawn s name).
Proof.
  intros Hname Hcall [H1 H2 H3 H4]. split; [done|by apply chans_ok_spawn|done|]. cbn. rewrite Hcall in *. cbn [pushed] in *.
  destruct (decide (name = p)) as [->|Hne].
  - destruct (Hname eq_refl) as [[Hr Hw] ->]. right. split; [|cbn; lia]. split; [cbn; set_solver|].
    eexists _, _. cbn. rewrite lookup_insert_eq. split; [done|]. rewrite lookup_app_r, Nat.sub_diag by lia.
    split; [done|]. split_and!; try done. intros j wk' Hj Hn.
    apply lookup_app_Some in Hj as [Hj|[Hge Hj]]; [by destruct (Hw _ _ Hj)|]. apply lookup_lt_Some in Hj. cbn in Hj. lia.
  - assert (∀ j wk, (bc_workers s ++ [mkWorker name [] true PConnect []]) !! j = Some wk → wk_name wk = p →
      bc_workers s !! j = Some wk) as Hback.
    { intros j wk [Hj|[Hge Hj]]%lookup_app_Some Hn; [done|]. destruct (j - _)%nat; [|done]. by injection Hj as <-. }
    destruct H4 as [((Hr & Hw) & ? & ?)|((Hr & k & wk & Hk & Hwk & Hph & Ho & Hq & Hu) & Hle)].
    + left. split; [|done]. split; [cbn; set_solver|]. intros j wk Hj Hn. by eapply Hw; [apply Hback|].
    + right. split; [|done]. split; [cbn; set_solver|]. exists k, wk. cbn. rewrite lookup_insert_ne by done.
      split_and!; try done; [by apply lookup_app_l_Some|]. intros j wk' Hj Hn. by eapply Hu; [apply Hback|].
Qed.

Lemma spawns_keep l s :
  bc_call (fold_left spawn l s) = bc_call s ∧ bc_slowest (fold_left spawn l s) = bc_slowest s ∧
  (∀ n, n ∈ l ∨ n ∈ bc_ready s ↔ n ∈ bc_ready (fold_left spawn l s)).
Proof.
  revert s. induction l as [|x l IH]; intros s; cbn [fold_left].
  - split; [done|]. split; [done|]. set_solver.
  - destruct (IH (spawn s x)) as (H1 & H2 & H3). split; [done|]. split; [done|].
    intros n. rewrite <-H3. cbn. set_solver.
Qed.

Lemma stalled_spawns p n l s :
  NoDup l → (p ∈ l → no_worker p s ∧ n = 0%nat) → bc_call s = None → stalled p n s → stalled p n (fold_left spawn l s).
Proof.
  intros Hnd. revert s. induction Hnd as [|x l Hx _ IH]; intros s Hp Hc Hs; cbn [fold_left]; [done|].
  apply IH; [|done|]. 
  - intros Hin. destruct Hp as [[Hr Hw] ->]; [set_solver|]. split; [|done]. split; [cbn; set_solver|].
    intros j wk [Hj|[_ Hj]]%lookup_app_Some; [by apply (Hw j)|]. destruct (j - _)%nat; [|done]. injection Hj as <-. cbn. set_solver.
  - apply stalled_spawn; [|done|done]. intros ->. apply Hp. set_solver.
Qed.

(** Progress of the call does not touch the worker. *)
Lemma stalled_set_call p n s o :
  waiting_worker p (n + pushed p o) s → (n + pushed p o ≤ CHANNEL_CAPACITY)%nat →
  match o with Some c => NoDup (c_todo c) | None => True end →
  cl_sock_map (bc_client s) !! p = None → chans_ok (bc_chan_map s) (bc_workers s) → stalled p n (set_call o s).
Proof. intros Hw Hle Hnd Hs Hc. split; [done|done|done|]. right. by split. Qed.

Lemma elem_of_send_order o names n : n ∈ send_order o names ↔ n ∈ names.
Proof.
  unfold send_order. destruct o as [q|]; [|done]. case_bool_decide; [|done].
  rewrite elem_of_cons, list_elem_of_filter. destruct (decide (n = q)) as [->|]; naive_solver.
Qed.

Lemma NoDup_send_order o names : NoDup names → NoDup (send_order o names).
Proof.
  intros Hnd. unfold send_order. destruct o as [q|]; [|done]. case_bool_decide; [|done].
  apply NoDup_cons. split; [|by apply NoDup_filter]. rewrite list_elem_of_filter. naive_solver.
Qed.

Lemma stalled_call p n s names data s' :
  NoDup names → p ∈ names → stalled p n s → start_call names data s = Next s' → stalled p n s'.
Proof.
  intros Hnd Hp Hs. unfold start_call. destruct (bc_call s) eqn:Hc; [done|]. intros [= <-].
  set (l := need_to_spawn_workers names s).
  assert (stalled p n (fold_left spawn l s)) as Hl.
  { apply stalled_spawns; [by apply NoDup_filter| |done|done]. intros [Hr _]%list_elem_of_filter.
    destruct (sd_worker p n s Hs) as [(? & _ & ?)|[[? _] _]]; done. }
  destruct (spawns_keep l s) as (Hk1 & Hk2 & Hk3).
  assert (p ∈ bc_ready (fold_left spawn l s)) as Hr.
  { apply Hk3. destruct (decide (p ∈ bc_ready s)); [by right|]. left. by apply list_elem_of_filter. }
  destruct Hl as [H1 H2 H3 [([? _] & _)|[Hw Hle]]]; [done|]. rewrite Hk1, Hc in Hw, Hle. cbn [pushed] in Hw, Hle.
  assert (pushed p (Some (mkCall data (send_order (bc_slowest (fold_left spawn l s)) names) "")) = 0%nat) as Hpu.
  { cbn. rewrite bool_decide_true; [done|]. by apply elem_of_send_order. }
  apply stalled_set_call; rewrite ?Hpu; try done. by apply NoDup_send_order.
Qed.

Lemma stalled_push p n s slow s' : stalled p n s → push slow s = Next s' → stalled p n s'.
Proof.
  intros Hs. pose proof Hs as [H1 H2 H3 H4]. unfold push. destruct (bc_call s) as [[data [|x todo] slowest]|] eqn:Hc; try done.
  cbn [c_todo] in H3. apply NoDup_cons in H3 as [Hx Hnd].
  destruct H4 as [(_ & ? & _)|[(Hr & k & wk & Hk & Hwk & Hph & Ho & Hq & Hu) Hle]]; [done|].
  destruct (bc_chan_map s !! x) as [i|] eqn:Hi; [|done]. destruct (H2 _ _ Hi) as (wi & Hwi & Hni). rewrite Hwi.
  set (o := Some (mkCall data todo (if slow then x else slowest))).
  destruct (decide (x = p)) as [->|Hne].
  - rewrite Hk in Hi. injection Hi as <-. rewrite Hwk in Hwi. injection Hwi as <-. rewrite Ho.
    assert (pushed p (Some (mkCall data (p :: todo) slowest)) = 0%nat) as Hp0 by (cbn; rewrite bool_decide_true by set_solver; done).
    rewrite Hp0, Nat.add_0_r in *. destruct (Nat.ltb_spec (length (wk_queue wk)) CHANNEL_CAPACITY); [|done]. intros [= <-].
    assert (pushed p o = 1%nat) as Hp1 by (cbn; by rewrite bool_decide_false).
    split; [done|by apply chans_ok_alter|done|]. right. cbn [bc_call on_worker set_workers set_call]. rewrite Hp1. split; [|lia].
    split; [done|]. exists k, (enqueue data wk). cbn. rewrite list_lookup_alter_eq, Hwk. split_and!; try done.
    + cbn. rewrite length_app. cbn. lia.
    + intros j wk' [(<- & _)|[_ Hj]]%lookup_alter_worker Hn; [done|by eapply Hu].
  - assert (pushed p o = pushed p (Some (mkCall data (x :: todo) slowest))) as Hpu.
    { cbn. destruct (decide (p ∈ todo)); [rewrite !bool_decide_true by set_solver|rewrite !bool_decide_false by set_solver]; done. }
    assert (stalled p n (set_call o s)) as Hso.
    { apply stalled_set_call; rewrite ?Hpu; try done. split; [done|]. by exists k, wk. }
    destruct (wk_open wi); [|by intros [= <-]]. destruct (_ <? _)%nat; [|done]. intros [= <-].
    apply (stalled_frame p n (set_call o s) i (enqueue data) (bc_client s)); try done.
    cbn. intros wk'. rewrite Hwi. intros [= <-]. by rewrite Hni.
Qed.

Lemma stalled_return p n s s' : stalled p n s → return_call s = Next s' → stalled p (S n) s'.
Proof.
  intros [H1 H2 H3 H4]. unfold return_call. destruct (bc_call s) as [[data [|x todo] slowest]|]; try done. intros [= <-].
  destruct H4 as [(_ & ? & _)|[Hw Hle]]; [done|]. change (pushed p (Some (mkCall data [] slowest))) with 1%nat in Hw, Hle.
  split; [done|done|done|]. right. cbn [bc_call pushed]. rewrite Nat.add_0_r. rewrite Nat.add_1_r in Hw, Hle. by split.
Qed.

Lemma stalled_other p n s i wk :
  stalled p n s → bc_workers s !! i = Some wk → wk_phase wk ≠ PConnect → ∀ wk', bc_workers s !! i = Some wk' → wk_name wk' ≠ p.
Proof.
  intros [_ _ _ H4] Hi Hph wk'. rewrite Hi. intros [= <-] Hn.
  destruct H4 as [((_ & Hw) & _)|((_ & k & wk1 & Hk & Hwk & Hph1 & _ & _ & Hu) & _)]; [by destruct (Hw _ _ Hi)|].
  rewrite (Hu _ _ Hi Hn), Hwk in Hi. by injection Hi as <-.
Qed.

Lemma stalled_client p n s c' : cl_sock_map c' !! p = None → stalled p n s → stalled p n (set_client c' s).
Proof. intros Hc [H1 H2 H3 H4]. by split. Qed.

(** What the connection attempts of a step give, for a peer [p] that is down. *)
Definition peer_down (p : string) (a : Act) (s : Bc) : Prop :=
  match a with
  | AConnect i net =>
      match bc_workers s !! i with Some wk => wk_name wk = p → Forall (λ x, x = AttemptErr) net | None => True end
  | _ => True
  end.

Lemma stalled_connect cc p n s i net s' :
  cc_full_duplex cc = false → peer_down p (AConnect i net) s → stalled p n s → worker_connect cc i net s = Next s' → stalled p n s'.
Proof.
  intros Hfd Hdown Hs. unfold worker_connect. destruct (bc_workers s !! i) as [[name q o ph acc]|] eqn:Hi; [|done].
  destruct ph; try done. cbn in Hdown. rewrite Hi in Hdown. destruct (decide (name = p)) as [->|Hne].
  - destruct (get_sock_down cc p (bc_client s) net Hfd (sd_sock _ _ _ Hs) (Hdown eq_refl)) as (c' & -> & Hc').
    intros [= <-]. apply stalled_client; [|done]. rewrite Hc'. apply Hs.
  - destruct (get_sock _ _ _ _) as [c' r] eqn:Hg.
    assert (cl_sock_map c' !! p = None) as Hc' by (exact (get_sock_sock_map cc name _ c' r p Hfd Hg Hne (sd_sock _ _ _ Hs))).
    destruct r; try done; intros [= <-]; [|by apply stalled_client].
    apply stalled_frame; [done| |done|done]. intros wk. rewrite Hi. by intros [= <-].
Qed.

Lemma stalled_recv p n s i s' : stalled p n s → worker_recv i s = Next s' → stalled p n s'.
Proof.
  intros Hs. unfold worker_recv. destruct (bc_workers s !! i) as [[name q o ph acc]|] eqn:Hi; [|done]. destruct ph; try done.
  pose proof (stalled_other p n s i _ Hs Hi ltac:(done)) as Ho. pose proof (sd_sock _ _ _ Hs) as Hsk.
  destruct q; [destruct (bool_decide _); [done|]|]; intros [= <-]; refine (stalled_frame p n s i _ (bc_client s) _ Ho Hsk Hs); done.
Qed.

Lemma stalled_write p n s i s' : stalled p n s → worker_write i s = Next s' → stalled p n s'.
Proof.
  intros Hs. unfold worker_write. destruct (bc_workers s !! i) as [[name q o ph acc]|] eqn:Hi; [|done].
  destruct ph as [| |h [|msg ms]|h [|msg ms]| | |]; try done;
    (pose proof (stalled_other p n s i _ Hs Hi ltac:(done)) as Ho;
     destruct (send_raw _ _ _ _) as [c' r] eqn:E; pose proof (send_raw_sock_map _ _ _ _ _ _ _ E (sd_sock _ _ _ Hs));
     destruct r; try done; intros [= <-]; by apply stalled_frame).
Qed.

Lemma on_tx_sock_map h (f : FrameWriter → FrameWriter * io unit) c : cl_sock_map (on_tx h f c).1 = cl_sock_map c.
Proof. unfold on_tx. destruct (cl_heap c !! h) as [k|]; [|done]. by destruct (f (sk_tx k)). Qed.

Lemma stalled_flush p n s i s' : stalled p n s → worker_flush i s = Next s' → stalled p n s'.
Proof.
  intros Hs. unfold worker_flush. destruct (bc_workers s !! i) as [[name q o ph acc]|] eqn:Hi; [|done]. destruct ph; try done.
  pose proof (stalled_other p n s i _ Hs Hi ltac:(done)) as Ho. destruct (on_tx _ _ _) as [c' r] eqn:E.
  assert (cl_sock_map c' !! p = None) by (rewrite <-(f_equal fst E : _ = c'), on_tx_sock_map; apply Hs).
  destruct r; try done; intros [= <-]; apply stalled_frame; try done; by destruct should_die.
Qed.

Lemma stalled_deregister p n s i s' : stalled p n s → worker_deregister i s = Next s' → stalled p n s'.
Proof.
  intros Hs. unfold worker_deregister. destruct (bc_workers s !! i) as [[name q o ph acc]|] eqn:Hi; [|done]. destruct ph; try done.
  pose proof (stalled_other p n s i _ Hs Hi ltac:(done)) as Ho. intros [= <-].
  set (s1 := mkBc (bc_client s) (bc_ready s ∖ {[name]}) (bc_chan_map s) (bc_workers s) (bc_slowest s) (bc_call s)).
  apply (stalled_frame p n s1 i (set_phase (PDone h)) (bc_client s)); [done|done|apply Hs|].
  specialize (Ho _ Hi). destruct Hs as [H1 H2 H3 H4]. split; [done|done|done|].
  destruct H4 as [([Hr Hw] & H4)|[[Hr Hw] H4]]; [left|right]; (split; [|done]); (split; [cbn in *; set_solver|done]).
Qed.

(** The broadcasts a step completes. *)
Definition completes (a : Act) : nat := match a with AReturn => 1 | _ => 0 end.
(** The calls of the run are to distinct peers, [p] among them. *)
Definition calls_peer (p : string) (a : Act) : Prop :=
  match a with ACall names _ => NoDup names ∧ p ∈ names | _ => True end.

Lemma stalled_step cc p n s a s' :
  cc_full_duplex cc = false → calls_peer p a → peer_down p a s → stalled p n s → bcast_step cc a s = Next s' →
  stalled p (n + completes a) s'.
Proof.
  intros Hfd Hcalls Hdown Hs. destruct a; cbn [bcast_step completes]; rewrite ?Nat.add_0_r, ?Nat.add_1_r.
  - destruct Hcalls. by apply stalled_call.
  - by apply stalled_push.
  - by apply stalled_return.
  - by apply stalled_connect.
  - by apply stalled_recv.
  - by apply stalled_write.
  - by apply stalled_flush.
  - by apply stalled_deregister.
  - unfold kill. destruct (cl_heap _ !! h); [|done]. intros [= <-]. apply stalled_client; [|done]. apply Hs.
Qed.

(** Along a run from [s]: every call is to [p] among others, and [p] is down. *)
Fixpoint down_throughout (cc : ClientConf) (p : string) (acts : list Act) (s : Bc) : Prop :=
  match acts with
  | [] => True
  | a :: acts' =>
      calls_peer p a ∧ peer_down p a s ∧
      match bcast_step cc a s with Next s' => down_throughout cc p acts' s' | _ => True end
  end.

#[export] Instance Attempt_eq_dec : EqDecision Attempt.
Proof. solve_decision. Defined.
#[export] Instance calls_peer_dec p a : Decision (calls_peer p a).
Proof. destruct a; cbn; apply _. Defined.
#[export] Instance peer_down_dec p a s : Decision (peer_down p a s).
Proof. destruct a; cbn; try apply _. destruct (bc_workers s !! i); apply _. Defined.
#[export] Instance down_throughout_dec cc p acts s : Decision (down_throughout cc p acts s).
Proof.
  revert s. induction acts as [|a acts IH]; intros s; cbn; [apply _|].
  destruct (bcast_step cc a s); apply _.
Defined.

Lemma stalled_run cc p n acts s s' :
  cc_full_duplex cc = false → down_throughout cc p acts s → stalled p n s → bcast_run cc acts s = Next s' →
  stalled p (n + sum_list (map completes acts)) s'.
Proof.
  intros Hfd. revert n s. induction acts as [|a acts IH]; intros n s Hd Hs Hrun; cbn in *.
  - injection Hrun as <-. by rewrite Nat.add_0_r.
  - destruct Hd as (Hc & Hp & Hd). destruct (bcast_step cc a s) as [| |s1] eqn:E; try done.
    rewrite Nat.add_assoc. by apply (IH _ s1); [|eapply stalled_step|].
Qed.

Lemma stalled_new p net : stalled p 0 (bc_new (client_new net)).
Proof.
  split; [done|by intros ??|done|]. left. split; [|done]. split; [by apply not_elem_of_empty|]. by intros ??.
Qed.

(** C38: one peer that cannot be reached stops all broadcasting.  As long as no connection to
    [p] succeeds, at most ten of the broadcasts to groups that contain [p] return, whatever
    the other peers, their connections and the scheduling: [p]'s worker retries without end,
    its channel fills up, and the next call waits for a place in it. *)
Theorem unreachable_peer_stops_broadcast (cc : ClientConf) (p : string) (net : list Attempt) (acts : list Act) (s : Bc) :
  cc_full_duplex cc = false → down_throughout cc p acts (bc_new (client_new net)) →
  bcast_run cc acts (bc_new (client_new net)) = Next s →
  (sum_list (map completes acts) ≤ CHANNEL_CAPACITY)%nat.
Proof.
  intros Hfd Hd Hrun. destruct (stalled_run cc p 0 acts _ s Hfd Hd (stalled_new p net) Hrun) as [_ _ _ [(_ & _ & H)|[_ H]]]; lia.
Qed.

Definition two_peers : ClientConf := client_conf {["a"%string; "b"%string]} 3 false 0.
Definition hello : MessageRef := mkMsgRef (String.list_byte_of_string "hello") 5.
(** A broadcast to both, whose worker for [a] sends at once. *)
Definition broadcast_both : list Act :=
  [ACall ["a"; "b"]%string hello; APush true; APush false; AReturn; ARecv 0; AWrite 0; AWrite 0; AFlush 0; AConnect 1 [AttemptErr]].
(** The first one starts the workers; [a] can be reached. *)
Definition first_broadcast : list Act :=
  [ACall ["a"; "b"]%string hello; AConnect 0 [AttemptOk []]; AConnect 1 []; APush false; APush true; AReturn].

Lemma unreachable_peer_stops_broadcast_witness :
  let acts := first_broadcast ++ [ARecv 0; AWrite 0; AWrite 0; AFlush 0] ++ concat (replicate 9 broadcast_both) in
  (sum_list (map completes acts) ≤ CHANNEL_CAPACITY)%nat ∧ sum_list (map completes acts) = 10%nat ∧
  bcast_run two_peers (acts ++ [ACall ["a"; "b"]%string hello; APush false; APush false]) (bc_new (client_new [])) = Blocked.
Proof.
  intros acts. destruct (bcast_run two_peers acts (bc_new (client_new []))) as [| |s] eqn:E; [by vm_compute in E..|].
  split; [|split; by vm_compute]. apply (unreachable_peer_stops_broadcast two_peers "b"%string [] acts s); [done| |done].
  apply (bool_decide_unpack _). by vm_compute.
Defined.
