(* ===== verification/BcastOrder.v ===== *)
(** What the peers of a broadcast get (src/src/rpc/client.rs): in every interleaving of the
    caller with the workers, and whatever connections fail, the bytes accepted by a
    connection are a prefix of the frames of consecutive broadcasts to that peer, all of
    them once the worker is idle and the connection is still up. *)

From stdpp Require Import base numbers list gmap strings option.
From S2P Require Import Prelude Types Serialize Framing RpcClient Bcast.

(** * Writers that may have failed *)

(** A write of [payload]: on a live connection it succeeds and appends; on a broken one the
    connection accepts nothing more. *)
Definition tx_spec (payload : bytes) (w : FrameWriter) (p : FrameWriter * io unit) : Prop :=
  tx_safe w p ∧
  (wr_alive w = true → p.2 = IoOk tt ∧ wr_alive p.1 = true ∧ wr_data p.1 = wr_data w ++ payload) ∧
  (wr_alive w = false → wr_alive p.1 = false ∧ wr_sent p.1 = wr_sent w).

Lemma writer_wf_ok w : writer_wf w → wr_alive w = true → writer_ok w.
Proof. intros [? Hl] ?. split; [done| |done]. rewrite Hl. unfold WRITE_BUFFER_SIZE. lia. Qed.

Lemma write_loop_dead fuel w buff len n :
  wr_alive w = false → wr_alive (write_loop fuel w buff len n).1 = false ∧ wr_sent (write_loop fuel w buff len n).1 = wr_sent w.
Proof.
  revert w n. induction fuel as [|fuel IH]; intros w n Hw; [done|]. cbn [write_loop].
  destruct (n =? 0)%nat; [done|]. destruct (_ =? 0)%nat; [unfold flush_write_buffer; by rewrite Hw|].
  destruct (slice_io _ _ _); try done. destruct (splice _ _ _); try done.
  match goal with |- context [write_loop fuel ?w' buff len ?n'] => by destruct (IH w' n' Hw) end.
Qed.

Lemma write_all_spec w buff len :
  writer_wf w → (len ≤ length buff)%nat → tx_spec (take len buff) w (write_all_bufffered w buff len).
Proof.
  intros Hw Hl. split; [by apply write_all_safe|]. split; intros Ha; [|by apply write_loop_dead].
  destruct (write_all_ok w buff len (writer_wf_ok w Hw Ha) Hl) as (w' & -> & Hw' & Hd). cbn.
  split; [done|]. split; [by apply Hw'|done].
Qed.

Lemma write_u32_spec w sz : writer_wf w → tx_spec (be_bytes 4 sz) w (write_u32_buffered w sz).
Proof.
  intros Hw. pose proof (write_all_spec w (be_bytes 4 sz) 4 Hw) as Hx.
  rewrite length_be_bytes, take_ge in Hx by (rewrite length_be_bytes; lia). apply Hx. lia.
Qed.

Lemma flush_spec w :
  writer_wf w → tx_spec [] w (flush_write_buffer w) ∧ (wr_alive w = true → wr_offset (flush_write_buffer w).1 = 0%nat).
Proof.
  intros Hw. split; [|intros Ha; by destruct (flush_ok w (writer_wf_ok w Hw Ha)) as (w' & -> & _ & ? & _)].
  split; [by apply flush_safe|]. split; intros Ha.
  - destruct (flush_ok w (writer_wf_ok w Hw Ha)) as (w' & -> & Hw' & _ & _ & Hd). cbn. rewrite app_nil_r.
    split; [done|]. split; [by apply Hw'|done].
  - unfold flush_write_buffer. by rewrite Ha.
Qed.

(** * The operations of a worker *)

Definition payload (d : SendDataType) : bytes :=
  match d with ByteType m => take (mr_size m) (mr_buf m) | SizeType sz => be_bytes 4 sz end.

Lemma on_tx_cases h f P c c' r k :
  client_inv c → cl_heap c !! h = Some k → (∀ w, writer_wf w → tx_spec P w (f w)) → on_tx h f c = (c', r) →
  ∃ w', tx_spec P (sk_tx k) (w', r) ∧ c' = set_heap (<[h := mkSock w' (sk_rx k)]> (cl_heap c)) c ∧ client_inv c'.
Proof.
  intros Hi Hk Hf Ho. destruct (ci_wf c Hi h k Hk) as [Hw Hr]. specialize (Hf _ Hw).
  unfold on_tx in Ho. rewrite Hk in Ho. destruct (f (sk_tx k)) as [w' r'] eqn:E. injection Ho as <- <-.
  exists w'. split; [done|]. split; [done|]. eapply client_inv_update; [done|done|]. split; [apply Hf|done].
Qed.

Lemma send_raw_cases name h d c c' r k :
  client_inv c → cl_heap c !! h = Some k → data_ok d → send_raw name h d c = (c', r) →
  ∃ w', tx_spec (payload d) (sk_tx k) (w', r) ∧ client_inv c' ∧ cl_heap c' = <[h := mkSock w' (sk_rx k)]> (cl_heap c) ∧
    cl_sock_map c' = (match r with IoOk _ => cl_sock_map c | _ => delete name (cl_sock_map c) end).
Proof.
  intros Hi Hk Hd Hs. unfold send_raw, mbind, op_bind, op_try in Hs.
  set (m := match d with ByteType d => _ | SizeType d => _ end) in Hs.
  assert (∃ f, m = on_tx h f ∧ ∀ w, writer_wf w → tx_spec (payload d) w (f w)) as (f & Hm & Hf).
  { subst m. destruct d as [msg|sz]; eexists; (split; [reflexivity|]); intros w Hw; [by apply write_all_spec|].
    apply write_u32_spec, Hw. }
  rewrite Hm in Hs. destruct (on_tx h f c) as [c1 r1] eqn:E.
  destruct (on_tx_cases h f _ c c1 r1 k Hi Hk Hf E) as (w' & Hw' & -> & Hi'). exists w'.
  destruct Hw' as [[Hwf Hres] [Ha Hdead]]. cbn in Hres.
  destruct Hres as [->|[-> Hal]]; cbn in Hs; injection Hs as <- <-.
  - split; [split; [split; [done|by left]|done]|]. done.
  - split; [split; [split; [done|by right]|done]|]. split; [|done].
    by apply (client_inv_delete (set_heap (<[h := mkSock w' (sk_rx k)]> (cl_heap c)) c)).
Qed.

Lemma get_sock_cases cc name net c c' r :
  cc_full_duplex cc = false → client_inv c → cl_sock_map c !! name = None →
  get_sock cc name false (mkClient (cl_sock_map c) (cl_heap c) (cl_next c) net) = (c', r) →
  client_inv c' ∧
  ((r = IoErr ∧ cl_sock_map c' = cl_sock_map c ∧ cl_heap c' = cl_heap c) ∨
   (∃ inc, r = IoOk (cl_next c) ∧ cl_sock_map c' = <[name := cl_next c]> (cl_sock_map c) ∧
           cl_heap c' = <[cl_next c := sock_new inc]> (cl_heap c))).
Proof.
  intros Hfd Hi Hn Hg. split.
  - rewrite <-(f_equal fst Hg : _ = c'). apply (safe_get_sock cc ltac:(by rewrite Hfd)). destruct Hi as [H1 H2 H3 H4]. by split.
  - unfold get_sock, mbind, op_bind, op_get in Hg. cbn [negb cl_sock_map] in Hg. rewrite Hn in Hg.
    unfold connect in Hg. rewrite Hfd in Hg. cbn [andb] in Hg. unfold get_reply_name in Hg. rewrite Hfd in Hg.
    destruct (negb _); [injection Hg as <- <-; by left|]. unfold attempt, mbind, op_bind, op_modify in Hg.
    destruct net as [|[|inc] net]; cbn in Hg; injection Hg as <- <-; [by left|by left|]. right. by exists inc.
Qed.

(** * The invariant *)

(** The broadcasts so far: the peers and the message of each; those to [n]. *)
Notation History := (list (list string * MessageRef)) (only parsing).
Definition addressed (n : string) (H : History) : list MessageRef := map snd (filter (λ x, n ∈ x.1) H).
(** The message the call under way has yet to hand to [n]. *)
Definition pending (n : string) (o : option Call) : list MessageRef :=
  match o with Some c => if bool_decide (n ∈ c_todo c) then [c_data c] else [] | None => [] end.

Definition wire (m : MessageRef) : bytes := be_bytes 4 (len_u32 m) ++ take (mr_size m) (mr_buf m).
Definition wires (l : list MessageRef) : bytes := concat (map wire l).

Definition phase_sock (ph : Phase) : option nat :=
  match ph with
  | PConnect => None
  | PRecv h | PSize h _ | PBody h _ | PFlush h _ | PDereg h | PDone h => Some h
  end.
(** No write has failed. *)
Definition healthy (ph : Phase) : bool :=
  match ph with PRecv _ | PSize _ _ | PBody _ _ | PFlush _ false => true | _ => false end.

(** What has been written, when the connection is up. *)
Definition in_step (wk : Worker) (w : FrameWriter) : Prop :=
  match wk_phase wk with
  | PRecv _ => ∃ W, wk_accepted wk = W ++ wk_queue wk ∧ wr_data w = wires W ∧ wr_offset w = 0%nat
  | PSize _ ms => ∃ W, wk_accepted wk = W ++ ms ++ wk_queue wk ∧ wr_data w = wires W ∧ ms ≠ []
  | PBody _ ms => ∃ W m ms', ms = m :: ms' ∧ wk_accepted wk = W ++ ms ++ wk_queue wk ∧
      wr_data w = wires W ++ be_bytes 4 (len_u32 m)
  | PFlush _ false => ∃ W, wk_accepted wk = W ++ wk_queue wk ∧ wr_data w = wires W
  | _ => True
  end.
Definition carries (wk : Worker) (w : FrameWriter) : Prop :=
  concat (wr_sent w) `prefix_of` wires (wk_accepted wk) ∧ (wr_alive w = true → healthy (wk_phase wk) = true ∧ in_step wk w).

(** The messages a worker accepts are consecutive broadcasts to its peer, up to now while
    its channel is open. *)
Definition consecutive (H : History) (o : option Call) (wk : Worker) : Prop :=
  ∃ before after, addressed (wk_name wk) H = before ++ wk_accepted wk ++ after ++ pending (wk_name wk) o ∧
    (wk_open wk = true → after = []).

(** The messages a worker has taken from its channel and not yet written. *)
Definition taken (ph : Phase) : list MessageRef := match ph with PSize _ ms | PBody _ ms => ms | _ => [] end.

(** About one worker, with its own socket. *)
Record worker_ok (c : Client) (wk : Worker) : Prop := {
  wo_closed : wk_open wk = true → match wk_phase wk with PDereg _ | PDone _ => False | _ => True end;
  wo_connect : wk_phase wk = PConnect → wk_accepted wk = wk_queue wk;
  wo_left : taken (wk_phase wk) ++ wk_queue wk ⊆ wk_accepted wk;
  wo_carries : ∀ h, phase_sock (wk_phase wk) = Some h → ∃ k, cl_heap c !! h = Some k ∧ carries wk (sk_tx k) }.

Definition live (ph : Phase) : bool := match ph with PDone _ => false | _ => true end.

Record bc_inv (H : History) (s : Bc) : Prop := {
  bi_client : client_inv (bc_client s);
  bi_chans : chans_ok (bc_chan_map s) (bc_workers s);
  bi_ready : ∀ n, n ∈ bc_ready s → is_Some (bc_chan_map s !! n);
  bi_msgs : Forall (λ x, (mr_size x.2 ≤ length (mr_buf x.2))%nat) H;
  bi_todo : match bc_call s with Some c => NoDup (c_todo c) | None => True end;
  bi_live : ∀ i wk, bc_workers s !! i = Some wk → live (wk_phase wk) = true →
    wk_name wk ∈ bc_ready s ∧ bc_chan_map s !! wk_name wk = Some i;
  bi_worker : ∀ i wk, bc_workers s !! i = Some wk → worker_ok (bc_client s) wk ∧ consecutive H (bc_call s) wk;
  bi_socks : ∀ i j wi wj h, bc_workers s !! i = Some wi → bc_workers s !! j = Some wj →
    phase_sock (wk_phase wi) = Some h → phase_sock (wk_phase wj) = Some h → i = j;
  bi_map : ∀ n h, cl_sock_map (bc_client s) !! n = Some h →
    ∃ i wk, bc_workers s !! i = Some wk ∧ wk_name wk = n ∧ phase_sock (wk_phase wk) = Some h ∧ healthy (wk_phase wk) = true }.

Lemma open_live c wk : worker_ok c wk → wk_open wk = true → live (wk_phase wk) = true.
Proof. intros Hw Ho. pose proof (wo_closed c wk Hw Ho). by destruct (wk_phase wk). Qed.

(** A step of worker [i], which may change its socket and the map entry of its peer. *)
Lemma bc_inv_worker H s i wk f c' :
  bc_inv H s → bc_workers s !! i = Some wk → live (wk_phase wk) = true →
  renames f → wk_accepted (f wk) = wk_accepted wk → (wk_open (f wk) = true → wk_open wk = true) →
  client_inv c' → worker_ok c' (f wk) →
  (∀ n h, n ≠ wk_name wk → cl_sock_map c' !! n = Some h → cl_sock_map (bc_client s) !! n = Some h) →
  (∀ h, cl_sock_map c' !! wk_name wk = Some h → phase_sock (wk_phase (f wk)) = Some h ∧ healthy (wk_phase (f wk)) = true) →
  (∀ j wj h, j ≠ i → bc_workers s !! j = Some wj → phase_sock (wk_phase wj) = Some h →
     phase_sock (wk_phase (f wk)) ≠ Some h ∧ cl_heap c' !! h = cl_heap (bc_client s) !! h) →
  bc_inv H (on_worker i f (set_client c' s)).
Proof.
  intros [I1 I2 I3 I4 I5 I6 I7 I8 I9] Hi Hlive Hf Hacc Hopen Hc' Hok Hmap1 Hmap2 Hheap. split; cbn; try done.
  - by apply chans_ok_alter.
  - intros j wj [(<- & w0 & Hj & ->)|[_ Hj]]%lookup_alter_worker Hl; [|by apply I6].
    rewrite Hi in Hj. injection Hj as <-. rewrite Hf. by apply I6.
  - intros j wj [(<- & w0 & Hj & ->)|[Hne Hj]]%lookup_alter_worker.
    + rewrite Hi in Hj. injection Hj as <-. split; [done|].
      destruct (I7 _ _ Hi) as (_ & before & after & He & Ha). exists before, after. rewrite Hf, Hacc. auto.
    + destruct (I7 _ _ Hj) as [[W1 W2 W3 W4] Hcons]. split; [|done]. split; [done|done|done|]. intros h Hh.
      rewrite (proj2 (Hheap j wj h ltac:(done) Hj Hh)). by apply W4.
  - intros j1 j2 w1 w2 h [(<- & w0 & Hj1 & ->)|[Hne1 Hj1]]%lookup_alter_worker [(<- & w0' & Hj2 & ->)|[Hne2 Hj2]]%lookup_alter_worker Hs1 Hs2; try done.
    + rewrite Hi in Hj1. injection Hj1 as <-. by destruct (Hheap j2 w2 h ltac:(done) Hj2 Hs2).
    + rewrite Hi in Hj2. injection Hj2 as <-. by destruct (Hheap j1 w1 h ltac:(done) Hj1 Hs1).
    + by eapply I8.
  - intros n h Hn. destruct (decide (n = wk_name wk)) as [->|Hne].
    + exists i, (f wk). rewrite list_lookup_alter_eq, Hi. split; [done|]. rewrite Hf. split; [done|]. by apply Hmap2.
    + destruct (I9 n h (Hmap1 n h Hne Hn)) as (j & wj & Hj & Hnj & Hrest). exists j, wj. split; [|done].
      rewrite list_lookup_alter_ne; [done|]. intros <-. rewrite Hi in Hj. injection Hj as <-. done.
Qed.

(** Live workers of one peer are one. *)
Lemma live_unique H s i j wi wj :
  bc_inv H s → bc_workers s !! i = Some wi → bc_workers s !! j = Some wj → wk_name wi = wk_name wj →
  live (wk_phase wi) = true → live (wk_phase wj) = true → i = j.
Proof.
  intros Hinv Hi Hj Hn Li Lj. destruct (bi_live H s Hinv i wi Hi Li) as [_ H1]. destruct (bi_live H s Hinv j wj Hj Lj) as [_ H2].
  rewrite Hn, H2 in H1. by injection H1 as ->.
Qed.

Lemma healthy_live ph : healthy ph = true → live ph = true.
Proof. by destruct ph. Qed.

(** The open socket of the worker's peer is the worker's. *)
Lemma mapped_own H s i wk h :
  bc_inv H s → bc_workers s !! i = Some wk → live (wk_phase wk) = true →
  cl_sock_map (bc_client s) !! wk_name wk = Some h → phase_sock (wk_phase wk) = Some h ∧ healthy (wk_phase wk) = true.
Proof.
  intros Hinv Hi Hl Hm. destruct (bi_map H s Hinv _ _ Hm) as (j & wj & Hj & Hn & Hs & Hh).
  rewrite (live_unique H s j i wj wk Hinv Hj Hi Hn (healthy_live _ Hh) Hl) in Hj. rewrite Hi in Hj. by injection Hj as <-.
Qed.

(** * The steps of the workers *)

Lemma wires_app l1 l2 : wires (l1 ++ l2) = wires l1 ++ wires l2.
Proof. unfold wires. by rewrite map_app, concat_app. Qed.

Lemma wires_cons m l : wires (m :: l) = wire m ++ wires l.
Proof. done. Qed.

Lemma wires_prefix l1 l2 : wires l1 `prefix_of` wires (l1 ++ l2).
Proof. rewrite wires_app. by eexists. Qed.

(** A write by a worker that has kept step. *)
Lemma carries_tx wk wk' P w w' r :
  carries wk w → tx_spec P w (w', r) → wk_accepted wk' = wk_accepted wk →
  (wr_alive w = true → wr_data w' = wr_data w ++ P → in_step wk w →
     healthy (wk_phase wk') = true ∧ in_step wk' w' ∧ wr_data w' `prefix_of` wires (wk_accepted wk)) →
  carries wk' w'.
Proof.
  intros [Hpre Hal] (_ & Hup & Hdown) Hacc Hstep. unfold carries. rewrite Hacc. destruct (wr_alive w) eqn:Ha.
  - destruct (Hup eq_refl) as (_ & _ & Hd). destruct (Hal eq_refl) as [_ Hin]. destruct (Hstep eq_refl Hd Hin) as (Hh & Hin' & Hp).
    split; [|done]. etrans; [|exact Hp]. unfold wr_data. by eexists.
  - destruct (Hdown eq_refl) as [Hdead Hsent]. cbn in Hdead, Hsent. rewrite Hsent, Hdead. done.
Qed.

Lemma bc_inv_client H s c' :
  bc_inv H s → client_inv c' → cl_sock_map c' = cl_sock_map (bc_client s) → cl_heap c' = cl_heap (bc_client s) →
  bc_inv H (set_client c' s).
Proof.
  intros [I1 I2 I3 I4 I5 I6 I7 I8 I9] Hc Hm Hh. split; cbn; try done; [|by rewrite Hm].
  intros i wk Hi. destruct (I7 i wk Hi) as [[W1 W2 W3 W4] ?]. split; [|done]. split; [done|done|done|]. by rewrite Hh.
Qed.

Lemma bc_inv_connect cc H s i net s' :
  cc_full_duplex cc = false → bc_inv H s → worker_connect cc i net s = Next s' → bc_inv H s'.
Proof.
  intros Hfd Hinv. unfold worker_connect. destruct (bc_workers s !! i) as [wk|] eqn:Hi; [|done].
  destruct wk as [name q o ph acc] eqn:Ewk; rewrite <-Ewk in Hi. destruct ph; try done.
  assert (wk_phase wk = PConnect ∧ wk_name wk = name) as [Hph Hname] by (by rewrite Ewk).
  destruct (get_sock _ _ _ _) as [c' r] eqn:Hg.
  assert (cl_sock_map (bc_client s) !! name = None) as Hnone.
  { apply eq_None_not_Some. rewrite <-Hname. intros [h Hh]. destruct (mapped_own H s i wk h Hinv Hi) as [Hx _]; [by rewrite Hph|done|].
    by rewrite Hph in Hx. }
  destruct (get_sock_cases cc name net _ c' r Hfd (bi_client H s Hinv) Hnone Hg) as [Hc' [(-> & Hm & Hh)|(inc & -> & Hm & Hh)]].
  { intros [= <-]. by apply bc_inv_client. }
  intros [= <-]. destruct (bi_worker H s Hinv i wk Hi) as [Hok _]. apply (bc_inv_worker H s i wk); try done.
  - by rewrite Hph.
  - split; [done|done|cbn; by rewrite <-(wo_connect _ _ Hok Hph)|]. cbn. intros h [= <-]. rewrite Hh. eexists. rewrite lookup_insert_eq. split; [done|].
    split; [by apply prefix_nil|]. intros _. split; [done|]. exists []. cbn [wk_accepted wk_queue set_phase]. split; [by apply (wo_connect _ _ Hok)|done].
  - intros n h Hne. rewrite Hm, lookup_insert_ne by (by rewrite <-Hname). done.
  - intros h. rewrite Hm, Hname, lookup_insert_eq. by intros [= <-].
  - intros j wj h Hj Hwj Hsj. destruct (bi_worker H s Hinv j wj Hwj) as [[_ _ _ W4] _]. destruct (W4 h Hsj) as (k & Hk & _).
    assert (h < cl_next (bc_client s))%nat by (eapply ci_fresh; [apply Hinv|eauto]). cbn. split; [intros [= Hx]; lia|].
    rewrite Hh, lookup_insert_ne; [done|lia].
Qed.

Lemma bc_inv_recv H s i s' : bc_inv H s → worker_recv i s = Next s' → bc_inv H s'.
Proof.
  intros Hinv. unfold worker_recv. destruct (bc_workers s !! i) as [wk|] eqn:Hi; [|done].
  destruct wk as [name q o ph acc] eqn:Ewk; rewrite <-Ewk in Hi. destruct ph as [|h| | | | |]; try done.
  assert (wk_phase wk = PRecv h ∧ wk_name wk = name ∧ wk_queue wk = q) as (Hph & Hname & Hq) by (by rewrite Ewk).
  destruct (bi_live H s Hinv i wk Hi) as [_ Hch]; [by rewrite Hph|]. rewrite Hname in Hch.
  destruct (bi_worker H s Hinv i wk Hi) as [Hok _].
  destruct q as [|m q]; [by rewrite bool_decide_true by done|]. intros [= <-].
  apply (bc_inv_worker H s i wk _ (bc_client s)); try done; [by rewrite Hph|apply Hinv| | |].
  - split; [done|done| |].
    { pose proof (wo_left _ _ Hok) as Hsub. rewrite Hph, Hq in Hsub. cbn [wk_phase wk_queue set_phase set_queue taken]. by rewrite <-app_comm_cons, take_drop. }
    intros h' [= <-]. destruct (wo_carries _ _ Hok h) as (k & Hk & Hcar); [by rewrite Hph|].
    exists k. split; [done|]. destruct Hcar as [Hpre Hal]. split; [done|]. intros Ha. destruct (Hal Ha) as [_ Hin].
    split; [done|]. unfold in_step in *. rewrite Hph in Hin. destruct Hin as (W & Hacc & Hd & _). exists W.
    cbn [wk_accepted wk_queue set_phase set_queue]. by rewrite Hacc, Hq, <-app_comm_cons, take_drop.
  - intros h' Hm. destruct (mapped_own H s i wk h' Hinv Hi) as [Hx _]; [by rewrite Hph|done|]. rewrite Hph in Hx. by injection Hx as <-.
  - intros j wj h' Hj Hwj Hsj. split; [|done]. intros [= <-]. apply Hj. eapply (bi_socks H s Hinv); [done|done|done|by rewrite Hph].
Qed.

(** A write step of worker [i] on its socket. *)
Lemma bc_inv_tx H s i wk h k P w' r c' f :
  bc_inv H s → bc_workers s !! i = Some wk → live (wk_phase wk) = true →
  phase_sock (wk_phase wk) = Some h → cl_heap (bc_client s) !! h = Some k →
  tx_spec P (sk_tx k) (w', r) → client_inv c' → cl_heap c' = <[h := mkSock w' (sk_rx k)]> (cl_heap (bc_client s)) →
  (∀ n h', cl_sock_map c' !! n = Some h' → cl_sock_map (bc_client s) !! n = Some h' ∧
     (n = wk_name wk → healthy (wk_phase wk) = true → healthy (wk_phase (f wk)) = true)) →
  renames f → wk_accepted (f wk) = wk_accepted wk → phase_sock (wk_phase (f wk)) = Some h →
  (wk_open (f wk) = true → wk_open wk = true ∧ match wk_phase (f wk) with PDereg _ | PDone _ => False | _ => True end) →
  taken (wk_phase (f wk)) ++ wk_queue (f wk) ⊆ taken (wk_phase wk) ++ wk_queue wk →
  (wr_alive (sk_tx k) = true → wr_data w' = wr_data (sk_tx k) ++ P → in_step wk (sk_tx k) →
     healthy (wk_phase (f wk)) = true ∧ in_step (f wk) w' ∧ wr_data w' `prefix_of` wires (wk_accepted wk)) →
  bc_inv H (on_worker i f (set_client c' s)).
Proof.
  intros Hinv Hi Hl Hs Hk Htx Hc' Hh Hm Hf Hacc Hs' Hopen Hleft Hstep.
  destruct (bi_worker H s Hinv i wk Hi) as [Hok _]. destruct (wo_carries _ _ Hok h Hs) as (k' & Hk' & Hcar).
  rewrite Hk in Hk'. injection Hk' as <-.
  apply (bc_inv_worker H s i wk); try done; [by apply Hopen| | | |].
  - split; [by apply Hopen|intros Hp; by rewrite Hp in Hs'|rewrite Hacc; etrans; [done|apply Hok]|]. rewrite Hs'. intros h' [= <-]. rewrite Hh, lookup_insert_eq.
    eexists. split; [done|]. cbn. by eapply carries_tx.
  - intros n h' _ Hn. by apply Hm.
  - intros h' Hn. destruct (Hm _ _ Hn) as [Hn' Hhe]. destruct (mapped_own H s i wk h' Hinv Hi Hl Hn') as [Hx ?].
    rewrite Hs in Hx. injection Hx as <-. auto.
  - intros j wj h' Hj Hwj Hsj. assert (h ≠ h') as Hne by (intros <-; by apply Hj; eapply (bi_socks H s Hinv)).
    split; [by rewrite Hs'; intros [= ?]|]. by rewrite Hh, lookup_insert_ne.
Qed.

(** The messages of a worker were broadcast. *)
Lemma accepted_size H s i wk m :
  bc_inv H s → bc_workers s !! i = Some wk → m ∈ wk_accepted wk → (mr_size m ≤ length (mr_buf m))%nat.
Proof.
  intros Hinv Hi Hm. destruct (bi_worker H s Hinv i wk Hi) as (_ & before & after & He & _).
  assert (m ∈ addressed (wk_name wk) H) as Ha by (rewrite He; set_solver).
  apply list_elem_of_fmap in Ha as (x & -> & [_ Hx]%list_elem_of_filter).
  pose proof (bi_msgs H s Hinv) as Hall. rewrite List.Forall_forall in Hall. apply Hall. by apply list_elem_of_In.
Qed.

(** The socket of a live worker. *)
Lemma worker_socket H s i wk h :
  bc_inv H s → bc_workers s !! i = Some wk → phase_sock (wk_phase wk) = Some h →
  ∃ k, cl_heap (bc_client s) !! h = Some k ∧ carries wk (sk_tx k).
Proof. intros Hinv Hi Hs. destruct (bi_worker H s Hinv i wk Hi) as [Hok _]. by apply (wo_carries _ _ Hok). Qed.

Lemma taken_size H s i wk m :
  bc_inv H s → bc_workers s !! i = Some wk → m ∈ taken (wk_phase wk) → (mr_size m ≤ length (mr_buf m))%nat.
Proof.
  intros Hinv Hi Hm. eapply accepted_size; [done|done|]. destruct (bi_worker H s Hinv i wk Hi) as [Hok _].
  apply (wo_left _ _ Hok). set_solver.
Qed.

(** What the map keeps after [send_raw]. *)
Lemma send_raw_map name c c' (r : io unit) n h :
  cl_sock_map c' = (match r with IoOk _ => cl_sock_map c | _ => delete name (cl_sock_map c) end) →
  cl_sock_map c' !! n = Some h → cl_sock_map c !! n = Some h ∧ (n = name → r = IoOk tt).
Proof. intros ->. destruct r as [[]| | |]; [done|..]; by intros [? ?]%lookup_delete_Some. Qed.

Lemma bc_inv_size H s i wk h m ms c' r s' :
  bc_inv H s → bc_workers s !! i = Some wk → wk_phase wk = PSize h (m :: ms) →
  send_raw (wk_name wk) h (SizeType (len_u32 m)) (bc_client s) = (c', r) →
  match r with
  | IoOk _ => Next (on_worker i (set_phase (PBody h (m :: ms))) (set_client c' s))
  | IoErr => Next (on_worker i (set_phase (PFlush h true)) (set_client c' s))
  | _ => Panicked
  end = Next s' → bc_inv H s'.
Proof.
  intros Hinv Hi Hph Hs. destruct (worker_socket H s i wk h Hinv Hi) as (k & Hk & _); [by rewrite Hph|].
  destruct (send_raw_cases _ _ _ _ _ _ k (bi_client H s Hinv) Hk (I : data_ok (SizeType (len_u32 m))) Hs) as (w' & Htx & Hc' & Hh & Hm).
  pose proof Htx as (_ & Hup & _). pose proof (λ n h', send_raw_map _ _ _ _ n h' Hm) as Hmap.
  destruct r as [[]| | |]; try done; intros [= <-];
    apply (bc_inv_tx H s i wk h k _ w' _ c' _ Hinv Hi ltac:(by rewrite Hph) ltac:(by rewrite Hph) Hk Htx Hc' Hh); try done.
  - intros n h' Hn. by destruct (Hmap n h' Hn).
  - by rewrite Hph.
  - intros _ Hd Hin. unfold in_step in *. rewrite Hph in Hin. destruct Hin as (W & Hacc & Hw & _).
    cbn [set_phase wk_phase wk_accepted wk_queue healthy]. rewrite Hd, Hw, Hacc. split; [done|]. split; [by exists W, m, ms|].
    rewrite wires_app, <-app_comm_cons, wires_cons. apply prefix_app. unfold wire. rewrite <-!app_assoc. by eexists.
  - intros n h' Hn. destruct (Hmap n h' Hn) as [? Hx]. split; [done|]. by intros ?%Hx.
  - rewrite Hph. cbn. set_solver.
  - intros Ha. by destruct (Hup Ha).
Qed.

Lemma bc_inv_body H s i wk h m ms c' r s' :
  bc_inv H s → bc_workers s !! i = Some wk → wk_phase wk = PBody h (m :: ms) →
  send_raw (wk_name wk) h (ByteType m) (bc_client s) = (c', r) →
  match r with
  | IoOk _ => Next (on_worker i (set_phase (match ms with [] => PFlush h false | _ => PSize h ms end)) (set_client c' s))
  | IoErr => Next (on_worker i (set_phase (PFlush h true)) (set_client c' s))
  | _ => Panicked
  end = Next s' → bc_inv H s'.
Proof.
  intros Hinv Hi Hph Hs. destruct (worker_socket H s i wk h Hinv Hi) as (k & Hk & _); [by rewrite Hph|].
  assert (data_ok (ByteType m)) as Hok by (eapply taken_size; [done|done|rewrite Hph; set_solver]).
  destruct (send_raw_cases _ _ _ _ _ _ k (bi_client H s Hinv) Hk Hok Hs) as (w' & Htx & Hc' & Hh & Hm).
  pose proof Htx as (_ & Hup & _). pose proof (λ n h', send_raw_map _ _ _ _ n h' Hm) as Hmap.
  destruct r as [[]| | |]; try done; intros [= <-];
    apply (bc_inv_tx H s i wk h k _ w' _ c' _ Hinv Hi ltac:(by rewrite Hph) ltac:(by rewrite Hph) Hk Htx Hc' Hh); try done.
  - intros n h' Hn. destruct (Hmap n h' Hn). split; [done|]. by destruct ms.
  - by destruct ms.
  - by destruct ms.
  - rewrite Hph. destruct ms; cbn; set_solver.
  - intros _ Hd Hin. unfold in_step in Hin. rewrite Hph in Hin. destruct Hin as (W & m' & ms' & [= <- <-] & Hacc & Hw).
    assert (wr_data w' = wires (W ++ [m])) as Hd'.
    { rewrite Hd, Hw, wires_app. unfold wires at 3. cbn [map concat payload]. rewrite app_nil_r. unfold wire. by rewrite <-app_assoc. }
    assert (wk_accepted wk = (W ++ [m]) ++ ms ++ wk_queue wk) as Hacc' by (by rewrite Hacc, <-app_assoc).
    rewrite Hd', Hacc'. split; [by destruct ms|]. split; [|apply wires_prefix].
    unfold in_step. destruct ms; cbn [set_phase wk_phase wk_accepted wk_queue]; by exists (W ++ [m]).
  - intros n h' Hn. destruct (Hmap n h' Hn) as [? Hx]. split; [done|]. by intros ?%Hx.
  - rewrite Hph. cbn. set_solver.
  - intros Ha. by destruct (Hup Ha).
Qed.

Lemma bc_inv_write H s i s' : bc_inv H s → worker_write i s = Next s' → bc_inv H s'.
Proof.
  intros Hinv. unfold worker_write. destruct (bc_workers s !! i) as [wk|] eqn:Hi; [|done].
  destruct wk as [name q o ph acc] eqn:Ewk; rewrite <-Ewk in Hi.
  assert (wk_phase wk = ph ∧ wk_name wk = name) as [Hph <-] by (by rewrite Ewk).
  destruct ph as [| |h [|m ms]|h [|m ms]| | |]; try done; destruct (send_raw _ _ _ _) as [c' r] eqn:E; intros Hr.
  - by eapply bc_inv_size.
  - by eapply bc_inv_body.
Qed.

Lemma bc_inv_flush H s i s' : bc_inv H s → worker_flush i s = Next s' → bc_inv H s'.
Proof.
  intros Hinv. unfold worker_flush. destruct (bc_workers s !! i) as [wk|] eqn:Hi; [|done].
  destruct wk as [name q o ph acc] eqn:Ewk; rewrite <-Ewk in Hi.
  assert (wk_phase wk = ph) as Hph by (by rewrite Ewk). destruct ph as [| | | |h should_die| |]; try done. clear Ewk.
  destruct (worker_socket H s i wk h Hinv Hi) as (k & Hk & _); [by rewrite Hph|].
  destruct (on_tx h flush_write_buffer (bc_client s)) as [c' r] eqn:E.
  destruct (on_tx_cases h _ [] _ c' r k (bi_client H s Hinv) Hk (λ w Hw, proj1 (flush_spec w Hw)) E) as (w' & Htx & -> & Hc').
  assert (wr_alive (sk_tx k) = true → wr_offset w' = 0%nat) as Hoff.
  { destruct (ci_wf _ (bi_client H s Hinv) h k Hk) as [Hwf _]. intros Ha. pose proof (proj2 (flush_spec _ Hwf) Ha) as Ho.
    unfold on_tx in E. rewrite Hk in E. destruct (flush_write_buffer (sk_tx k)) as [w1 r1]. injection E as E1 _.
    apply (f_equal (lookup h)) in E1. rewrite !lookup_insert_eq in E1. injection E1 as <-. done. }
  set (f := if should_die then _ else _). assert (match r with IoOk _ | IoErr => True | _ => False end) as Hr.
  { destruct Htx as [[_ [Hx|[Hx _]]] _]; cbn in Hx; by rewrite Hx. }
  intros Hs'. assert (s' = on_worker i f (set_client (set_heap (<[h := mkSock w' (sk_rx k)]> (cl_heap (bc_client s))) (bc_client s)) s)) as ->
    by (destruct r; try done; by injection Hs' as <-).
  apply (bc_inv_tx H s i wk h k [] w' r _ f Hinv Hi ltac:(by rewrite Hph) ltac:(by rewrite Hph) Hk Htx Hc' eq_refl).
  - intros n h' Hn. split; [done|]. intros _. rewrite Hph. by subst f; destruct should_die.
  - subst f. by destruct should_die.
  - subst f. by destruct should_die.
  - subst f. by destruct should_die.
  - subst f. by destruct should_die.
  - rewrite Hph. subst f. by destruct should_die.
  - intros Ha Hd Hin. destruct (worker_socket H s i wk h Hinv Hi) as (k' & Hk' & _ & Hal); [by rewrite Hph|].
    rewrite Hk in Hk'. injection Hk' as <-. destruct (Hal Ha) as [Hhe _]. rewrite Hph in Hhe. destruct should_die; [done|].
    unfold in_step in Hin. rewrite Hph in Hin. destruct Hin as (W & Hacc & Hw). rewrite app_nil_r in Hd. rewrite Hd, Hw, Hacc.
    split; [done|]. split; [|apply wires_prefix]. exists W. cbn [f set_phase wk_accepted wk_queue]. rewrite Hd. auto.
Qed.

Lemma bc_inv_unready H s n :
  bc_inv H s → (∀ i wk, bc_workers s !! i = Some wk → live (wk_phase wk) = true → wk_name wk ≠ n) →
  bc_inv H (mkBc (bc_client s) (bc_ready s ∖ {[n]}) (bc_chan_map s) (bc_workers s) (bc_slowest s) (bc_call s)).
Proof.
  intros [I1 I2 I3 I4 I5 I6 I7 I8 I9] Hn. split; cbn; try done.
  - intros n' Hn'. apply I3. set_solver.
  - intros i wk Hi Hl. specialize (Hn i wk Hi Hl). destruct (I6 i wk Hi Hl). split; [set_solver|done].
Qed.

Lemma bc_inv_deregister H s i s' : bc_inv H s → worker_deregister i s = Next s' → bc_inv H s'.
Proof.
  intros Hinv. unfold worker_deregister. destruct (bc_workers s !! i) as [wk|] eqn:Hi; [|done].
  destruct wk as [name q o ph acc] eqn:Ewk; rewrite <-Ewk in Hi.
  assert (wk_phase wk = ph ∧ wk_name wk = name) as [Hph <-] by (by rewrite Ewk). destruct ph as [| | | | |h|]; try done. clear Ewk.
  destruct (bi_worker H s Hinv i wk Hi) as [Hok _]. intros [= <-].
  assert (bc_inv H (on_worker i (set_phase (PDone h)) (set_client (bc_client s) s))) as Hinv'.
  { destruct (worker_socket H s i wk h Hinv Hi) as (k & Hk & Hpre & Hal); [by rewrite Hph|].
    apply (bc_inv_worker H s i wk); try done; [by rewrite Hph|apply Hinv| | |].
    - split; [|done| |].
      + intros Ho. pose proof (wo_closed _ _ Hok Ho) as Hc. by rewrite Hph in Hc.
      + pose proof (wo_left _ _ Hok) as Hl. by rewrite Hph in Hl.
      + intros h' [= <-]. exists k. split; [done|]. split; [done|]. intros Ha. destruct (Hal Ha) as [Hhe _]. by rewrite Hph in Hhe.
    - intros h' Hm. destruct (mapped_own H s i wk h' Hinv Hi) as [_ Hhe]; [by rewrite Hph|done|]. by rewrite Hph in Hhe.
    - intros j wj h' Hj Hwj Hsj. split; [|done]. intros [= <-]. apply Hj. eapply (bi_socks H s Hinv); [done|done|done|by rewrite Hph]. }
  apply (bc_inv_unready _ _ (wk_name wk) Hinv'). cbn.
  intros j wj [(<- & w0 & Hj & ->)|[Hne Hj]]%lookup_alter_worker Hl; [done|].
  intros Hn. apply Hne. eapply (live_unique H s i j wk wj); try done. by rewrite Hph.
Qed.

Lemma bc_inv_kill H s h s' : bc_inv H s → kill h s = Next s' → bc_inv H s'.
Proof.
  intros [I1 I2 I3 I4 I5 I6 I7 I8 I9]. unfold kill. destruct (cl_heap _ !! h) as [k|] eqn:Hk; [|done]. intros [= <-].
  destruct (ci_wf _ I1 h k Hk) as [Hw Hr]. split; cbn; try done.
  - by apply (client_inv_update _ h k).
  - intros i wk Hi. destruct (I7 i wk Hi) as [[W1 W2 W3 W4] Hc]. split; [|done]. split; [done|done|done|]. cbn.
    intros h' Hh'. destruct (W4 h' Hh') as (k' & Hk' & Hcar). destruct (decide (h = h')) as [<-|Hne].
    + rewrite Hk in Hk'. injection Hk' as <-. rewrite lookup_insert_eq. eexists. split; [done|]. split; [apply Hcar|done].
    + rewrite lookup_insert_ne by done. by exists k'.
Qed.

(** * The steps of the caller *)

Lemma bc_inv_spawn H s n : bc_inv H s → bc_call s = None → n ∉ bc_ready s → bc_inv H (spawn s n).
Proof.
  intros [I1 I2 I3 I4 I5 I6 I7 I8 I9] Hc Hn.
  set (new := mkWorker n [] true PConnect []).
  assert (∀ j wk, (bc_workers s ++ [new]) !! j = Some wk → bc_workers s !! j = Some wk ∨ (j = length (bc_workers s) ∧ wk = new)) as Hnew.
  { intros j wk [Hj|[Hge Hj]]%lookup_app_Some; [by left|]. right. destruct (j - _)%nat eqn:Hd; [|done]. injection Hj as <-. split; [lia|done]. }
  split; cbn; try done.
  - by apply chans_ok_spawn.
  - intros n' [->%elem_of_singleton|Hn']%elem_of_union; [rewrite lookup_insert_eq; eauto|].
    destruct (decide (n = n')) as [<-|]; [rewrite lookup_insert_eq; eauto|]. rewrite lookup_insert_ne by done. by apply I3.
  - intros j wk [Hj|[-> ->]]%Hnew Hl; [|cbn; rewrite lookup_insert_eq; set_solver].
    destruct (I6 j wk Hj Hl) as [Hr Hm]. rewrite lookup_insert_ne by (by intros ->). set_solver.
  - intros j wk [Hj|[-> ->]]%Hnew; [by apply (I7 j)|]. split; [by split|]. exists (addressed n H), []. rewrite Hc. cbn.
    by rewrite app_nil_r.
  - intros j1 j2 w1 w2 h [Hj1|[-> ->]]%Hnew [Hj2|[-> ->]]%Hnew; try done. by apply I8.
  - intros n' h Hm. destruct (I9 n' h Hm) as (j & wk & Hj & Hrest). exists j, wk. split; [by apply lookup_app_l_Some|done].
Qed.

Lemma bc_inv_spawns H l s :
  NoDup l → (∀ n, n ∈ l → n ∉ bc_ready s) → bc_call s = None → bc_inv H s → bc_inv H (fold_left spawn l s).
Proof.
  intros Hnd. revert s. induction Hnd as [|n l Hn _ IH]; intros s Hl Hc Hinv; cbn [fold_left]; [done|].
  apply IH; [|done|apply bc_inv_spawn; [done|done|apply Hl; set_solver]].
  intros n' Hn'. cbn. intros [->%elem_of_singleton|Hr]%elem_of_union; [done|]. by apply (Hl n'); [set_solver|].
Qed.

Lemma addressed_snoc n H names m :
  addressed n (H ++ [(names, m)]) = addressed n H ++ (if bool_decide (n ∈ names) then [m] else []).
Proof.
  unfold addressed. rewrite list.filter_app, map_app. f_equal. rewrite list.filter_cons. cbn [fst].
  destruct (decide (n ∈ names)); [by rewrite bool_decide_true|by rewrite bool_decide_false].
Qed.

Lemma bc_inv_call H s names data s' :
  NoDup names → (mr_size data ≤ length (mr_buf data))%nat → bc_inv H s → start_call names data s = Next s' →
  bc_inv (H ++ [(names, data)]) s'.
Proof.
  intros Hnd Hsz Hinv. unfold start_call. destruct (bc_call s) eqn:Hc; [done|]. intros [= <-].
  set (l := need_to_spawn_workers names s). destruct (spawns_keep l s) as (Hk & _). rewrite Hc in Hk.
  assert (bc_inv H (fold_left spawn l s)) as [I1 I2 I3 I4 I5 I6 I7 I8 I9].
  { apply bc_inv_spawns; [by apply list.NoDup_filter| |done|done]. by intros n [Hn _]%list_elem_of_filter. }
  set (order := send_order _ names). split; cbn; try done.
  - apply Forall_app. split; [done|]. by constructor.
  - by apply NoDup_send_order.
  - intros i wk Hi. destruct (I7 i wk Hi) as (Hok & before & after & He & Ha). split; [done|]. exists before, after.
    rewrite addressed_snoc, He, Hk. cbn [pending c_todo c_data]. rewrite app_nil_r, <-!app_assoc. split; [|done].
    destruct (decide (wk_name wk ∈ names)); [rewrite !bool_decide_true|rewrite !bool_decide_false]; try done; unfold order; by rewrite elem_of_send_order.
Qed.

Lemma worker_ok_enqueue c m wk : worker_ok c wk → worker_ok c (enqueue m wk).
Proof.
  intros [W1 W2 W3 W4]. split; cbn; [done|by intros ->%W2|set_solver|].
  intros h Hh. destruct (W4 h Hh) as (k & Hk & Hpre & Hal). exists k. split; [done|].
  split; [cbn [enqueue wk_accepted]; rewrite wires_app; by apply prefix_app_r|]. intros Ha. destruct (Hal Ha) as [Hhe Hin]. split; [done|].
  unfold in_step in *. cbn. destruct (wk_phase wk) as [| | | |? []| |]; try done.
  - destruct Hin as (W & -> & ?). exists W. by rewrite <-app_assoc.
  - destruct Hin as (W & -> & ?). exists W. by rewrite <-!app_assoc.
  - destruct Hin as (W & m' & ms' & ? & -> & ?). exists W, m', ms'. by rewrite <-!app_assoc.
  - destruct Hin as (W & -> & ?). exists W. by rewrite <-app_assoc.
Qed.

(** The call moves on, with some messages added to channels. *)
Lemma bc_inv_advance H s g o :
  bc_inv H s → (∀ i wk, wk_name (g i wk) = wk_name wk ∧ wk_phase (g i wk) = wk_phase wk) →
  match o with Some c => NoDup (c_todo c) | None => True end →
  (∀ i wk, bc_workers s !! i = Some wk → worker_ok (bc_client s) (g i wk) ∧ consecutive H o (g i wk)) →
  bc_inv H (set_call o (set_workers (imap g (bc_workers s)) s)).
Proof.
  intros [I1 I2 I3 I4 I5 I6 I7 I8 I9] Hg Ho Hw. split; cbn; try done.
  - intros n j Hn. destruct (I2 n j Hn) as (wk & Hj & <-). exists (g j wk). rewrite list_lookup_imap, Hj. split; [done|]. apply Hg.
  - intros i wk. rewrite list_lookup_imap. intros (w & Hi & ->)%fmap_Some_1. destruct (Hg i w) as [-> ->]. by apply I6.
  - intros i wk. rewrite list_lookup_imap. intros (w & Hi & ->)%fmap_Some_1. by apply Hw.
  - intros i j wi wj h. rewrite !list_lookup_imap. intros (w & Hi & ->)%fmap_Some_1 (w' & Hj & ->)%fmap_Some_1.
    destruct (Hg i w) as [_ ->]. destruct (Hg j w') as [_ ->]. by apply I8.
  - intros n h Hn. destruct (I9 n h Hn) as (j & wk & Hj & Hrest). exists j, (g j wk). rewrite list_lookup_imap, Hj. split; [done|].
    destruct (Hg j wk) as [-> ->]. done.
Qed.

Lemma alter_imap {A : Type} (f : A → A) i (l : list A) : alter f i l = imap (λ j x, if decide (j = i) then f x else x) l.
Proof.
  apply list_eq. intros j. rewrite list_lookup_imap. destruct (decide (i = j)) as [->|Hne].
  - rewrite list_lookup_alter_eq. destruct (l !! j); cbn; [by rewrite decide_True|done].
  - rewrite list_lookup_alter_ne by done. destruct (l !! j); cbn; [by rewrite decide_False|done].
Qed.

Lemma imap_id {A : Type} (l : list A) : imap (λ _ x, x) l = l.
Proof. apply list_eq. intros j. rewrite list_lookup_imap. by destruct (l !! j). Qed.

(** The channel that takes the message grows by it; closed channels miss it. *)
Lemma consecutive_push H s x data todo sl sl' i wi j wk :
  bc_inv H s → bc_call s = Some (mkCall data (x :: todo) sl) → x ∉ todo →
  bc_chan_map s !! x = Some i → bc_workers s !! i = Some wi → bc_workers s !! j = Some wk →
  consecutive H (Some (mkCall data todo sl')) (if decide (j = i) then if wk_open wi then enqueue data wk else wk else wk).
Proof.
  intros Hinv Hc Hx Hch Hi Hj. destruct (bi_worker H s Hinv j wk Hj) as (Hok & before & after & He & Ha). rewrite Hc in He.
  assert (wk_name wk = x → wk_open wk = true → j = i) as Hji.
  { intros Hn Ho. destruct (bi_live H s Hinv j wk Hj (open_live _ _ Hok Ho)) as [_ Hm]. rewrite Hn, Hch in Hm. by injection Hm. }
  destruct (bi_chans H s Hinv x i Hch) as (wi' & Hi' & Hni). rewrite Hi in Hi'. injection Hi' as <-.
  destruct (decide (wk_name wk = x)) as [Hn|Hn].
  - cbn [pending c_todo c_data] in He. rewrite bool_decide_true in He by (rewrite Hn; set_solver).
    assert (pending x (Some (mkCall data todo sl')) = []) as Hp by (cbn; by rewrite bool_decide_false).
    destruct (wk_open wk) eqn:Ho.
    + specialize (Hji Hn eq_refl) as ->. rewrite Hj in Hi. injection Hi as <-. rewrite decide_True, Ho by done.
      exists before, []. cbn [enqueue wk_name wk_accepted]. rewrite Hn, Hp, <-Hn, He, (Ha eq_refl), !app_nil_r. split; [|done].
      by rewrite ?app_nil_l, ?app_nil_r, <-?app_assoc.
    + exists before, (after ++ [data]).
      assert ((if decide (j = i) then if wk_open wi then enqueue data wk else wk else wk) = wk) as ->.
      { destruct (decide (j = i)) as [->|]; [|done]. rewrite Hj in Hi. injection Hi as <-. by rewrite Ho. }
      rewrite Hn, Hp, <-Hn, He, app_nil_r, <-?app_assoc. by rewrite Ho.
  - rewrite decide_False by (intros ->; rewrite Hj in Hi; by injection Hi as <-). exists before, after. rewrite He. split; [|done].
    cbn [pending c_todo c_data]. repeat f_equal. 
    destruct (decide (wk_name wk ∈ todo)); [rewrite !bool_decide_true by set_solver|rewrite !bool_decide_false by set_solver]; done.
Qed.

Lemma bc_inv_push H s slow s' : bc_inv H s → push slow s = Next s' → bc_inv H s'.
Proof.
  intros Hinv. unfold push. destruct (bc_call s) as [[data [|x todo] sl]|] eqn:Hc; try done.
  destruct (bc_chan_map s !! x) as [i|] eqn:Hch; [|done]. destruct (bc_workers s !! i) as [wi|] eqn:Hi; [|done].
  pose proof (bi_todo H s Hinv) as Hnd. rewrite Hc in Hnd. cbn in Hnd. apply list.NoDup_cons in Hnd as [Hx Hnd].
  set (o := Some (mkCall data todo (if slow then x else sl))). intros Hs'.
  set (g := λ (j : nat) wk, if decide (j = i) then if wk_open wi then enqueue data wk else wk else wk).
  assert (s' = set_call o (set_workers (imap g (bc_workers s)) s)) as ->.
  { subst g. destruct (wk_open wi); [destruct (_ <? _)%nat; [|done]|]; injection Hs' as <-; unfold on_worker, set_call, set_workers; cbn; f_equal.
    - apply alter_imap.
    - rewrite <-(imap_id (bc_workers s)) at 1. apply imap_ext. intros j wk _. by destruct (decide (j = i)). }
  apply bc_inv_advance; [done| |done|].
  - intros j wk. subst g. cbn. destruct (decide (j = i)); [|done]. by destruct (wk_open wi).
  - intros j wk Hj. split; [|by eapply consecutive_push]. destruct (bi_worker H s Hinv j wk Hj) as [Hok _]. subst g. cbn.
    destruct (decide (j = i)); [|done]. destruct (wk_open wi); [by apply worker_ok_enqueue|done].
Qed.

Lemma bc_inv_return H s s' : bc_inv H s → return_call s = Next s' → bc_inv H s'.
Proof.
  intros [I1 I2 I3 I4 I5 I6 I7 I8 I9]. unfold return_call. destruct (bc_call s) as [[data [|x todo] sl]|] eqn:Hc; try done.
  intros [= <-]. by split.
Qed.

(** * Runs *)

(** The broadcasts of a run. *)
Definition calls (acts : list Act) : list (list string * MessageRef) :=
  flat_map (λ a, match a with ACall names data => [(names, data)] | _ => [] end) acts.

Definition message_ok (m : MessageRef) : Prop := mr_size m = length (mr_buf m) ∧ Z.of_nat (length (mr_buf m)) < 2 ^ 32.
Definition bcast_ok (x : list string * MessageRef) : Prop := NoDup x.1 ∧ message_ok x.2.

Lemma bc_inv_step cc H s a s' :
  cc_full_duplex cc = false → Forall bcast_ok (calls [a]) → bc_inv H s → bcast_step cc a s = Next s' → bc_inv (H ++ calls [a]) s'.
Proof.
  intros Hfd Hok Hinv Hs. destruct a; cbn [bcast_step calls flat_map app] in *; rewrite ?app_nil_r.
  - inversion_clear Hok as [|?? [Hnd [Hsz _]] _]. eapply bc_inv_call; [done| |done|done]. cbn in Hsz. lia.
  - by eapply bc_inv_push.
  - by eapply bc_inv_return.
  - by eapply bc_inv_connect.
  - by eapply bc_inv_recv.
  - by eapply bc_inv_write.
  - by eapply bc_inv_flush.
  - by eapply bc_inv_deregister.
  - by eapply bc_inv_kill.
Qed.

Lemma bc_inv_run cc H acts s s' :
  cc_full_duplex cc = false → Forall bcast_ok (calls acts) → bc_inv H s → bcast_run cc acts s = Next s' → bc_inv (H ++ calls acts) s'.
Proof.
  intros Hfd. revert H s. induction acts as [|a acts IH]; intros H s Hok Hinv Hrun; cbn [bcast_run run_steps] in Hrun.
  - injection Hrun as <-. by rewrite app_nil_r.
  - change (calls (a :: acts)) with (calls ([a] ++ acts)) in *. unfold calls in *. rewrite flat_map_app in *.
    apply Forall_app in Hok as [Hok1 Hok2]. destruct (bcast_step cc a s) as [| |s1] eqn:E; try done.
    rewrite app_assoc. eapply IH; [done| |done]. by eapply bc_inv_step.
Qed.

Lemma bc_inv_new net : bc_inv [] (bc_new (client_new net)).
Proof. split; try done. by apply client_new_inv. Qed.

Lemma wire_frame m : message_ok m → wire m = frame (mr_buf m).
Proof. intros [Hsz Hlt]. unfold wire, frame, len_u32. rewrite Z.mod_small, take_ge by lia. done. Qed.

Lemma wires_frames l : Forall message_ok l → wires l = concat (map frame (map mr_buf l)).
Proof.
  induction 1 as [|m l Hm _ IH]; [done|]. rewrite wires_cons, IH, (wire_frame m Hm). done.
Qed.

Lemma addressed_ok n H : Forall bcast_ok H → Forall message_ok (addressed n H).
Proof.
  rewrite !List.Forall_forall. intros Hall m Hm. apply list_elem_of_In, list_elem_of_fmap in Hm as (x & -> & [_ Hx]%list_elem_of_filter).
  apply list_elem_of_In in Hx. by apply Hall.
Qed.

(** * Properties *)

(** C23: every peer gets the broadcasts in order.  In every interleaving of broadcasts (to
    distinct peers, of messages below 4 GiB) with the workers, and whatever connections fail
    to open or break: a worker's connection is its own; the messages its channel has accepted
    are consecutive broadcasts to its peer, up to the last one handed out as long as the
    channel is open; the bytes its connection has accepted are a prefix of the frames of
    those messages; and once the worker is idle with an unbroken connection, the peer reads
    exactly those messages, however the network cuts the bytes. *)
Theorem broadcast_in_order (cc : ClientConf) (net : list Attempt) (acts : list Act) (s : Bc) :
  cc_full_duplex cc = false → Forall bcast_ok (calls acts) → bcast_run cc acts (bc_new (client_new net)) = Next s →
  ∀ i wk h, bc_workers s !! i = Some wk → phase_sock (wk_phase wk) = Some h →
  (∀ j wj, bc_workers s !! j = Some wj → phase_sock (wk_phase wj) = Some h → j = i) ∧
  (∃ before after, addressed (wk_name wk) (calls acts) = before ++ wk_accepted wk ++ after ++ pending (wk_name wk) (bc_call s) ∧
     (wk_open wk = true → after = [])) ∧
  ∃ k, cl_heap (bc_client s) !! h = Some k ∧
    concat (wr_sent (sk_tx k)) `prefix_of` concat (map frame (map mr_buf (wk_accepted wk))) ∧
    (wk_phase wk = PRecv h → wk_queue wk = [] → wr_alive (sk_tx k) = true →
     ∀ chunks capacity fuel read_buf,
       concat chunks = concat (wr_sent (sk_tx k)) → Forall (λ x, x ≠ []) chunks → (0 < capacity)%nat →
       (4 < fuel)%nat → Forall (λ m, (length (mr_buf m) < fuel)%nat) (wk_accepted wk) →
       ∃ r, read_frames fuel (length (wk_accepted wk)) (reader_new capacity (map Some chunks)) read_buf =
              IoOk (map mr_buf (wk_accepted wk), r)).
Proof.
  intros Hfd Hok Hrun i wk h Hi Hs. pose proof (bc_inv_run cc [] acts _ s Hfd Hok (bc_inv_new net) Hrun) as Hinv. cbn [app] in Hinv.
  destruct (bi_worker _ _ Hinv i wk Hi) as (Hwok & Hcons). destruct (wo_carries _ _ Hwok h Hs) as (k & Hk & Hpre & Hal).
  assert (Forall message_ok (wk_accepted wk)) as Hmsgs.
  { pose proof (addressed_ok (wk_name wk) _ Hok) as Ha. destruct Hcons as (before & after & He & _). rewrite He in Ha.
    apply Forall_app in Ha as [_ Ha]. by apply Forall_app in Ha as [? _]. }
  split; [intros j wj Hj Hsj; by eapply (bi_socks _ _ Hinv)|]. split; [done|]. exists k. split; [done|].
  split; [by rewrite <-wires_frames|]. intros Hph Hq Ha chunks capacity fuel read_buf Hch Hne Hcap Hf Hf'.
  destruct (Hal Ha) as [_ Hin]. unfold in_step in Hin. rewrite Hph in Hin. destruct Hin as (W & Hacc & Hd & Hoff).
  rewrite Hq, app_nil_r in Hacc. subst W. unfold wr_data in Hd. rewrite Hoff, take_0, app_nil_r in Hd.
  destruct (reader_new_ok capacity chunks Hcap Hne) as [Hr Hrd].
  destruct (read_frames_ok fuel (map mr_buf (wk_accepted wk)) _ read_buf [] Hr) as (r & Hread & _).
  - by rewrite Hrd, Hch, Hd, app_nil_r, wires_frames.
  - done.
  - apply Forall_map. rewrite List.Forall_forall in *. intros m Hm. split; [by apply Hmsgs|by apply Hf'].
  - exists r. by rewrite length_map in Hread.
Qed.

(** A property of the socket a run ends with, by evaluation. *)
Lemma by_socket {A : Type} (f : Sock → A) (o : option Sock) k a : o = Some k → f <$> o = Some a → f k = a.
Proof. intros ->. by intros [= <-]. Qed.

Definition hello_run : list Act := first_broadcast ++ [ARecv 0; AWrite 0; AWrite 0; AFlush 0].
Definition hello_state : Bc :=
  match bcast_run two_peers hello_run (bc_new (client_new [])) with Next s => s | _ => bc_new (client_new []) end.
Definition hello_worker : Worker := mkWorker "a" [] true (PRecv 0) [hello].

Lemma broadcast_in_order_witness :
  bc_workers hello_state !! 0%nat = Some hello_worker ∧
  let chunks := [[Byte.x00; Byte.x00; Byte.x00]; [Byte.x05; Byte.x68; Byte.x65; Byte.x6c; Byte.x6c; Byte.x6f]] in
  ∃ r, read_frames 10 1 (reader_new 4 (map Some chunks)) [] = IoOk ([mr_buf hello], r).
Proof.
  split; [vm_compute; reflexivity|]. intros chunks.
  destruct (broadcast_in_order two_peers [] hello_run hello_state eq_refl) with (i := 0%nat) (wk := hello_worker) (h := 0%nat)
    as (_ & _ & k & Hk & _ & Hread).
  - constructor; [|constructor]. split; [apply (bool_decide_unpack _); by vm_compute|]. split; [done|]. vm_compute. reflexivity.
  - vm_compute. reflexivity.
  - vm_compute. reflexivity.
  - done.
  - apply Hread; [done|done| | |by repeat constructor|lia|lia|constructor; [cbn; lia|constructor]].
    + apply (by_socket (λ k, wr_alive (sk_tx k)) _ _ _ Hk). vm_compute. reflexivity.
    + symmetry. apply (by_socket (λ k, concat (wr_sent (sk_tx k))) _ _ _ Hk). vm_compute. reflexivity.
Defined.

(** * Delivery *)

(** The connection of the worker is up. *)
Definition unbroken (s : Bc) (wk : Worker) : Prop :=
  ∃ h k, phase_sock (wk_phase wk) = Some h ∧ cl_heap (bc_client s) !! h = Some k ∧ wr_alive (sk_tx k) = true.
Definition own_step (i : nat) (a : Act) : Prop := a = ARecv i ∨ a = AWrite i ∨ a = AFlush i.

(** Steps left until the worker is idle, at most. *)
Definition work (wk : Worker) : nat :=
  5 * length (wk_queue wk) +
  match wk_phase wk with
  | PSize _ ms => 2 * length ms + 2
  | PBody _ ms => 2 * length ms + 1
  | PFlush _ _ => 1
  | _ => 0
  end.

(** After a step of worker [i]: same peer, connection and messages, less work. *)
Record advanced (i : nat) (wk : Worker) (s' : Bc) : Prop := {
  ad_worker : ∃ wk', bc_workers s' !! i = Some wk' ∧ unbroken s' wk' ∧ wk_accepted wk' = wk_accepted wk ∧
    phase_sock (wk_phase wk') = phase_sock (wk_phase wk) ∧ (work wk' < work wk)%nat }.

Lemma advance_recv H s i wk h :
  bc_inv H s → bc_workers s !! i = Some wk → unbroken s wk → wk_phase wk = PRecv h → wk_queue wk ≠ [] →
  ∃ s', worker_recv i s = Next s' ∧ advanced i wk s'.
Proof.
  intros Hinv Hi Hu Hph Hq. destruct wk as [name q o ph acc]. cbn in Hph, Hq. subst ph. unfold worker_recv. rewrite Hi.
  destruct q as [|m q]; [done|]. eexists. split; [reflexivity|]. split. eexists. cbn [bc_workers on_worker set_workers].
  rewrite list_lookup_alter_eq, Hi. split; [reflexivity|]. split; [done|]. split; [done|]. split; [done|].
  unfold work. cbn [wk_queue wk_phase set_phase set_queue]. rewrite length_take, length_drop. unfold RECV_LIMIT. cbn [length]. lia.
Qed.

Lemma advance_write H s i wk h m ms d ph' :
  bc_inv H s → bc_workers s !! i = Some wk → unbroken s wk → phase_sock (wk_phase wk) = Some h → data_ok d →
  (wk_phase wk = PSize h (m :: ms) ∧ d = SizeType (len_u32 m) ∧ ph' = PBody h (m :: ms)) ∨
  (wk_phase wk = PBody h (m :: ms) ∧ d = ByteType m ∧ ph' = match ms with [] => PFlush h false | _ => PSize h ms end) →
  ∃ s', worker_write i s = Next s' ∧ advanced i wk s'.
Proof.
  intros Hinv Hi (h' & k & Hs & Hk & Ha) Hs' Hd Hcases. rewrite Hs' in Hs. injection Hs as <-.
  destruct (send_raw (wk_name wk) h d (bc_client s)) as [c' r] eqn:E.
  destruct (send_raw_cases _ _ _ _ _ _ k (bi_client H s Hinv) Hk Hd E) as (w' & (_ & Hup & _) & _ & Hh & _).
  destruct (Hup Ha) as (Hr & Ha' & _). cbn in Hr, Ha'. subst r.
  exists (on_worker i (set_phase ph') (set_client c' s)).
  assert (phase_sock ph' = Some h ∧ (work (set_phase ph' wk) < work wk)%nat) as [Hps Hwork].
  { unfold work. destruct Hcases as [(-> & _ & ->)|(-> & _ & ->)]; cbn [set_phase wk_phase wk_queue];
      [|destruct ms]; cbn [length]; (split; [done|lia]). }
  split.
  - destruct wk as [name q o ph acc]. cbn in Hcases, E. unfold worker_write. rewrite Hi.
    destruct Hcases as [(-> & -> & ->)|(-> & -> & ->)]; by rewrite E.
  - split. exists (set_phase ph' wk). cbn [bc_workers on_worker set_workers set_client]. rewrite list_lookup_alter_eq, Hi.
    split; [done|]. split; [|split; [done|]; split; [by rewrite Hs'|done]].
    exists h. cbn. rewrite Hh, lookup_insert_eq. eexists. split; [done|]. by split.
Qed.

Lemma advance_flush H s i wk h :
  bc_inv H s → bc_workers s !! i = Some wk → unbroken s wk → wk_phase wk = PFlush h false →
  ∃ s', worker_flush i s = Next s' ∧ advanced i wk s'.
Proof.
  intros Hinv Hi (h' & k & Hs & Hk & Ha) Hph. rewrite Hph in Hs. injection Hs as <-.
  destruct (on_tx h flush_write_buffer (bc_client s)) as [c' r] eqn:E.
  destruct (on_tx_cases h _ [] _ c' r k (bi_client H s Hinv) Hk (λ w Hw, proj1 (flush_spec w Hw)) E) as (w' & (_ & Hup & _) & -> & _).
  destruct (Hup Ha) as (Hr & Ha' & _). cbn in Hr, Ha'. subst r.
  destruct wk as [name q o ph acc]. cbn in Hph. subst ph. unfold worker_flush. rewrite Hi, E. eexists. split; [reflexivity|].
  split. eexists. cbn [bc_workers on_worker set_workers set_client]. rewrite list_lookup_alter_eq, Hi. split; [reflexivity|].
  split; [|split; [done|]; split; [done|unfold work; cbn; lia]].
  exists h. cbn. rewrite lookup_insert_eq. eexists. split; [done|]. by split.
Qed.

Lemma worker_advances cc H s i wk :
  bc_inv H s → bc_workers s !! i = Some wk → unbroken s wk →
  (∃ h, wk_phase wk = PRecv h ∧ wk_queue wk = []) ∨ ∃ a s', own_step i a ∧ bcast_step cc a s = Next s' ∧ advanced i wk s'.
Proof.
  intros Hinv Hi Hu. pose proof Hu as (h & k & Hs & Hk & Ha). destruct (worker_socket H s i wk h Hinv Hi Hs) as (k' & Hk' & _ & Hal).
  rewrite Hk in Hk'. injection Hk' as <-. destruct (Hal Ha) as [Hhe Hin]. unfold in_step in Hin.
  destruct (wk_phase wk) as [|h'|h' ms|h' ms|h' []| |] eqn:Hph; try done; injection Hs as <-.
  - destruct (wk_queue wk) as [|m q] eqn:Hq; [left; by exists h'|]. right.
    destruct (advance_recv H s i wk h' Hinv Hi Hu Hph ltac:(by rewrite Hq)) as (s' & Hst & Had). exists (ARecv i), s'. split; [by left|done].
  - right. destruct Hin as (W & _ & _ & Hne). destruct ms as [|m ms]; [done|].
    destruct (advance_write H s i wk h' m ms (SizeType (len_u32 m)) _ Hinv Hi Hu ltac:(by rewrite Hph) I ltac:(left; done)) as (s' & Hst & Had).
    exists (AWrite i), s'. split; [by right; left|done].
  - right. destruct Hin as (W & m & ms' & -> & _ & _).
    destruct (advance_write H s i wk h' m ms' (ByteType m) _ Hinv Hi Hu ltac:(by rewrite Hph)
      (taken_size H s i wk m Hinv Hi ltac:(rewrite Hph; set_solver)) ltac:(right; done)) as (s' & Hst & Had).
    exists (AWrite i), s'. split; [by right; left|done].
  - right. destruct (advance_flush H s i wk h' Hinv Hi Hu Hph) as (s' & Hst & Had). exists (AFlush i), s'. split; [by right; right|done].
Qed.

Lemma drain cc H n s i wk :
  cc_full_duplex cc = false → bc_inv H s → bc_workers s !! i = Some wk → unbroken s wk → (work wk ≤ n)%nat →
  ∃ acts s' wk' h, Forall (own_step i) acts ∧ (length acts ≤ work wk)%nat ∧ bcast_run cc acts s = Next s' ∧ bc_inv H s' ∧
    bc_workers s' !! i = Some wk' ∧ unbroken s' wk' ∧ wk_accepted wk' = wk_accepted wk ∧
    phase_sock (wk_phase wk) = Some h ∧ wk_phase wk' = PRecv h ∧ wk_queue wk' = [].
Proof.
  intros Hfd. revert s wk. induction n as [|n IH]; intros s wk Hinv Hi Hu Hn;
    (destruct (worker_advances cc H s i wk Hinv Hi Hu) as [(h & Hph & Hq)|(a & s1 & Ha & Hst & [(wk1 & Hi1 & Hu1 & Hacc1 & Hs1 & Hw1)])];
     [exists [], s, wk, h; split_and!; try done; [cbn; lia|by rewrite Hph]|]); [lia|].
  assert (bc_inv H s1) as Hinv1.
  { rewrite <-(app_nil_r H). assert (calls [a] = []) as <- by (destruct Ha as [->|[->| ->]]; done).
    eapply bc_inv_step; [done| |done|done]. destruct Ha as [->|[->| ->]]; constructor. }
  destruct (IH s1 wk1 Hinv1 Hi1 Hu1 ltac:(lia)) as (acts & s2 & wk2 & h & Hacts & Hlen & Hrun & Hinv2 & Hi2 & Hu2 & Hacc2 & Hs2 & Hrest).
  exists (a :: acts), s2, wk2, h. split; [by constructor|]. split; [cbn [length]; lia|]. split; [cbn; by rewrite Hst|].
  split; [done|]. split; [done|]. split; [done|]. split; [by rewrite Hacc2|]. by rewrite <-Hs1.
Qed.

(** After the worker's own steps its connection carries all it accepted, which are
    consecutive broadcasts to its peer. *)
Lemma worker_delivers cc net acts s i wk :
  cc_full_duplex cc = false → Forall bcast_ok (calls acts) → bcast_run cc acts (bc_new (client_new net)) = Next s →
  bc_workers s !! i = Some wk → unbroken s wk →
  consecutive (calls acts) (bc_call s) wk ∧ Forall message_ok (wk_accepted wk) ∧
  ∃ acts' s' h k, Forall (own_step i) acts' ∧ (length acts' ≤ work wk)%nat ∧ bcast_run cc acts' s = Next s' ∧
    phase_sock (wk_phase wk) = Some h ∧ cl_heap (bc_client s') !! h = Some k ∧
    concat (wr_sent (sk_tx k)) = concat (map frame (map mr_buf (wk_accepted wk))).
Proof.
  intros Hfd Hok Hrun Hi Hu. pose proof (bc_inv_run cc [] acts _ s Hfd Hok (bc_inv_new net) Hrun) as Hinv. cbn [app] in Hinv.
  destruct (bi_worker _ _ Hinv i wk Hi) as (_ & Hcons).
  assert (Forall message_ok (wk_accepted wk)) as Hmsgs.
  { pose proof (addressed_ok (wk_name wk) _ Hok) as Hall. destruct Hcons as (before & after & He & _). rewrite He in Hall.
    apply Forall_app in Hall as [_ Hall]. by apply Forall_app in Hall as [? _]. }
  split; [done|]. split; [done|].
  destruct (drain cc _ (work wk) s i wk Hfd Hinv Hi Hu (le_n _))
    as (acts' & s' & wk' & h & Hacts & Hlen & Hrun' & Hinv' & Hi' & Hu' & Hacc & Hs & Hph & Hq).
  destruct Hu' as (h' & k & Hs' & Hk & Ha). rewrite Hph in Hs'. injection Hs' as <-.
  exists acts', s', h, k. do 5 (split; [done|]).
  destruct (worker_socket _ s' i wk' h Hinv' Hi' ltac:(by rewrite Hph)) as (k' & Hk' & _ & Hal). rewrite Hk in Hk'. injection Hk' as <-.
  destruct (Hal Ha) as [_ Hin]. unfold in_step in Hin. rewrite Hph in Hin. destruct Hin as (W & HW & Hd & Hoff).
  rewrite Hq, app_nil_r, Hacc in HW. subst W.
  unfold wr_data in Hd. rewrite Hoff, take_0, app_nil_r in Hd. rewrite Hd. by apply wires_frames.
Qed.

(** What an unbroken connection's channel accepts is delivered.  From every reachable
    state, the steps of a worker with an unbroken connection are enabled without any help of
    the other tasks, and after at most [work] of them all messages its channel has accepted,
    the queued ones included, are on the wire, in order. *)
Lemma accepted_is_delivered (cc : ClientConf) (net : list Attempt) (acts : list Act) (s : Bc) (i : nat) (wk : Worker) :
  cc_full_duplex cc = false → Forall bcast_ok (calls acts) → bcast_run cc acts (bc_new (client_new net)) = Next s →
  bc_workers s !! i = Some wk → unbroken s wk →
  ∃ acts' s' h k, Forall (own_step i) acts' ∧ (length acts' ≤ work wk)%nat ∧ bcast_run cc acts' s = Next s' ∧
    phase_sock (wk_phase wk) = Some h ∧ cl_heap (bc_client s') !! h = Some k ∧
    concat (wr_sent (sk_tx k)) = concat (map frame (map mr_buf (wk_accepted wk))).
Proof. intros Hfd Hok Hrun Hi Hu. by destruct (worker_delivers cc net acts s i wk Hfd Hok Hrun Hi Hu) as (_ & _ & ?). Qed.

Lemma accepted_is_delivered_witness :
  let s := match bcast_run two_peers first_broadcast (bc_new (client_new [])) with Next s => s | _ => bc_new (client_new []) end in
  ∃ acts' s' h k, Forall (own_step 0) acts' ∧ (length acts' ≤ 5)%nat ∧ bcast_run two_peers acts' s = Next s' ∧
    Some 0%nat = Some h ∧ cl_heap (bc_client s') !! h = Some k ∧
    concat (wr_sent (sk_tx k)) = [Byte.x00; Byte.x00; Byte.x00; Byte.x05; Byte.x68; Byte.x65; Byte.x6c; Byte.x6c; Byte.x6f].
Proof.
  intros s. apply (accepted_is_delivered two_peers [] first_broadcast s 0 (mkWorker "a" [hello] true (PRecv 0) [hello])).
  - reflexivity.
  - constructor; [|constructor]. split; [apply (bool_decide_unpack _); vm_compute; exact I|]. split; [done|]. vm_compute. reflexivity.
  - vm_compute. reflexivity.
  - vm_compute. reflexivity.
  - destruct (cl_heap (bc_client s) !! 0%nat) as [k|] eqn:E; [|vm_compute in E; discriminate].
    exists 0%nat, k. split; [reflexivity|]. split; [exact E|]. apply (by_socket (λ k, wr_alive (sk_tx k)) _ _ _ E). vm_compute. reflexivity.
Defined.

(** * Two senders on one connection *)

Definition vote : MessageRef := mkMsgRef (String.list_byte_of_string "vote") 4.

(** The size and the body of a frame are written under separate locks of the socket.  A
    [send] between the two writes of a broadcast worker to the same peer (the vote and the
    view change of the staging task go through one client) puts its frame inside the other:
    the peer reads neither message. *)
Lemma interleaved_sends_garble :
  match bcast_run two_peers (first_broadcast ++ [ARecv 0; AWrite 0]) (bc_new (client_new [])) with
  | Next s =>
      let '(c, sent) := RpcClient.send two_peers "a" vote (bc_client s) in
      sent = IoOk tt ∧
      match bcast_run two_peers [AWrite 0; AFlush 0] (set_client c s) with
      | Next s' =>
          option_map (λ k, match read_frames 20 1 (reader_new 64 [Some (concat (wr_sent (sk_tx k)))]) [] with
                           | IoOk (msgs, _) => (msgs, wr_alive (sk_tx k))
                           | _ => ([], true)
                           end) (cl_heap (bc_client s') !! 0%nat)
          = Some ([[Byte.x00; Byte.x00; Byte.x00; Byte.x04; Byte.x76]], true)
      | _ => False
      end
  | _ => False
  end.
Proof. vm_compute. done. Qed.
