(* ===== verification/QuorumReply.v ===== *)
(** Asking all peers and waiting for a quorum of replies (src/src/rpc/client.rs,
    [broadcast_and_await_quorum_reply]): one worker task per peer, which sends each message
    it takes from its channel and waits for the reply; a oneshot channel per message for the
    reply; a task that collects the replies and stops keeping them after [quorum]; the caller,
    which drains what was kept.  All are interleaved in any way.  Theorems: what a call
    returns; a peer whose reply once could not be read is never asked again. *)

From stdpp Require Import base numbers list gmap strings option sorting.
From S2P Require Import Prelude Types Serialize Framing RpcClient Bcast.

(** * State *)

(** A oneshot channel: waiting, or resolved by a reply or by the loss of its sender. *)
Inductive Slot :=
  | SWait
  | SReply (m : PinnedMessage)
  | SDropped.

(** A message and the number of the oneshot channel for its reply. *)
Definition Job : Type := MessageRef * nat.

(** What a worker is doing: connecting; getting the socket for replies; waiting for
    messages; writing the size, the body, flushing and reading the reply for the first of
    the messages it has taken; about to deregister; gone; gone through [?]. *)
Inductive QPhase :=
  | QConnect
  | QReplySock (h : nat)
  | QRecv (h hr : nat)
  | QSize (h hr : nat) (jobs : list Job)
  | QBody (h hr : nat) (jobs : list Job)
  | QFlush (h hr : nat) (jobs : list Job)
  | QRead (h hr : nat) (jobs : list Job)
  | QDereg
  | QDone
  | QAborted.

Record QWorker := mkQWorker {
  qw_name : string;
  qw_queue : list Job;
  qw_open : bool;
  qw_phase : QPhase }.

(** A call: handing out the message, with the oneshot channels created so far; or
    collecting, with the replies not yet looked at, the number of replies so far, the
    channel to the caller and what the caller has taken from it. *)
Inductive QCall :=
  | Sending (data : MessageRef) (todo : list string) (quorum : nat) (receivers : list nat)
  | Collecting (futures : list nat) (count quorum : nat) (chan result : list PinnedMessage).

(** The oneshot channels are numbered in the order of their creation, with the peer asked.
    [q_returned] is what the last call returned. *)
Record Qs := mkQs {
  q_client : Client;
  q_ready : gset string;
  q_chan_map : gmap string nat;
  q_workers : list QWorker;
  q_slots : list (string * Slot);
  q_call : option QCall;
  q_returned : option (list PinnedMessage) }.

Definition q_new (c : Client) : Qs := mkQs c ∅ ∅ [] [] None None.

Definition q_set_client (c : Client) (s : Qs) : Qs :=
  mkQs c (q_ready s) (q_chan_map s) (q_workers s) (q_slots s) (q_call s) (q_returned s).
Definition q_set_slots (l : list (string * Slot)) (s : Qs) : Qs :=
  mkQs (q_client s) (q_ready s) (q_chan_map s) (q_workers s) l (q_call s) (q_returned s).
Definition q_set_call (o : option QCall) (s : Qs) : Qs :=
  mkQs (q_client s) (q_ready s) (q_chan_map s) (q_workers s) (q_slots s) o (q_returned s).
Definition q_on_worker (i : nat) (f : QWorker → QWorker) (s : Qs) : Qs :=
  mkQs (q_client s) (q_ready s) (q_chan_map s) (alter f i (q_workers s)) (q_slots s) (q_call s) (q_returned s).

Definition qset_phase (ph : QPhase) (wk : QWorker) : QWorker := mkQWorker (qw_name wk) (qw_queue wk) (qw_open wk) ph.
Definition qset_queue (q : list Job) (wk : QWorker) : QWorker := mkQWorker (qw_name wk) q (qw_open wk) (qw_phase wk).
Definition qclose (wk : QWorker) : QWorker := mkQWorker (qw_name wk) (qw_queue wk) false (qw_phase wk).

(** A oneshot channel is resolved once. *)
Definition settle (v : Slot) (x : string * Slot) : string * Slot := match x.2 with SWait => (x.1, v) | _ => x end.
Definition resolve (k : nat) (v : Slot) (l : list (string * Slot)) : list (string * Slot) := alter (settle v) k l.
(** Dropping messages drops the senders of their replies. *)
Definition drop_jobs (jobs : list Job) (l : list (string * Slot)) : list (string * Slot) :=
  fold_left (λ l (j : Job), resolve j.2 SDropped l) jobs l.

(** * Steps *)

Inductive QAct :=
  | QaCall (names : list string) (data : MessageRef) (quorum : nat)
  | QaSend
  | QaCollect
  | QaNext (k : nat)
  | QaTake
  | QaReturn
  | QaConnect (i : nat) (net : list Attempt)
  | QaReplySock (i : nat) (net : list Attempt)
  | QaRecv (i : nat)
  | QaWrite (i : nat)
  | QaFlush (i : nat)
  | QaRead (i : nat)
  | QaDereg (i : nat)
  | QaArrive (h : nat) (data : list (option bytes))      (* the network: bytes or an error for socket [h] *)
  | QaKill (h : nat).                                    (* the network: writes to socket [h] fail *)

Section quorum_reply.
Context (cc : ClientConf) (fuel : nat).

Definition q_spawn (s : Qs) (name : string) : Qs :=
  mkQs (q_client s) ({[name]} ∪ q_ready s) (<[name := length (q_workers s)]> (q_chan_map s))
    (q_workers s ++ [mkQWorker name [] true QConnect]) (q_slots s) (q_call s) (q_returned s).

Definition q_start (names : list string) (data : MessageRef) (quorum : nat) (s : Qs) : Outcome Qs :=
  match q_call s with
  | Some _ => Blocked
  | None =>
      if (quorum <=? length names)%nat then
        Next (q_set_call (Some (Sending data names quorum [])) (fold_left q_spawn (filter (λ n, n ∉ q_ready s) names) s))
      else Panicked
  end.

(** A failed [chan.send] drops the message and, with it, the sender of its reply. *)
Definition q_send (s : Qs) : Outcome Qs :=
  match q_call s with
  | Some (Sending data (name :: todo) quorum receivers) =>
      let k := length (q_slots s) in
      let o := Some (Sending data todo quorum (receivers ++ [k])) in
      match q_chan_map s !! name with
      | None => Panicked
      | Some i =>
          match q_workers s !! i with
          | None => Panicked
          | Some wk =>
              if qw_open wk then
                if (length (qw_queue wk) <? CHANNEL_CAPACITY)%nat then
                  Next (q_on_worker i (λ wk, qset_queue (qw_queue wk ++ [(data, k)]) wk)
                    (q_set_slots (q_slots s ++ [(name, SWait)]) (q_set_call o s)))
                else Blocked
              else Next (q_set_slots (q_slots s ++ [(name, SDropped)]) (q_set_call o s))
          end
      end
  | _ => Blocked
  end.

(** [make_channel(quorum)] panics on 0. *)
Definition q_collect (s : Qs) : Outcome Qs :=
  match q_call s with
  | Some (Sending _ [] quorum receivers) =>
      if (quorum =? 0)%nat then Panicked else Next (q_set_call (Some (Collecting receivers 0 quorum [] [])) s)
  | _ => Blocked
  end.

(** The next of the futures that is ready, in any order. *)
Definition q_next (k : nat) (s : Qs) : Outcome Qs :=
  match q_call s with
  | Some (Collecting futures count quorum chan result) =>
      if bool_decide (k ∈ futures) then
        let rest := filter (λ j, j ≠ k) futures in
        match q_slots s !! k with
        | Some (_, SReply m) =>
            if (count <? quorum)%nat then
              if (length chan <? quorum)%nat then
                Next (q_set_call (Some (Collecting rest (S count) quorum (chan ++ [m]) result)) s)
              else Blocked
            else Next (q_set_call (Some (Collecting rest (S count) quorum chan result)) s)
        | Some (_, SDropped) => Next (q_set_call (Some (Collecting rest count quorum chan result)) s)
        | _ => Blocked
        end
      else Blocked
  | _ => Blocked
  end.

Definition q_take (s : Qs) : Outcome Qs :=
  match q_call s with
  | Some (Collecting futures count quorum (m :: chan) result) =>
      Next (q_set_call (Some (Collecting futures count quorum chan (result ++ [m]))) s)
  | _ => Blocked
  end.

(** The channel is closed when the collecting task ends, after the last future. *)
Definition q_return (s : Qs) : Outcome Qs :=
  match q_call s with
  | Some (Collecting [] _ _ [] result) =>
      Next (mkQs (q_client s) (q_ready s) (q_chan_map s) (q_workers s) (q_slots s) None (Some result))
  | _ => Blocked
  end.

Definition q_connect (i : nat) (net : list Attempt) (s : Qs) : Outcome Qs :=
  match q_workers s !! i with
  | Some (mkQWorker name _ _ QConnect) =>
      let c := q_client s in
      let '(c', r) := get_sock cc name false (mkClient (cl_sock_map c) (cl_heap c) (cl_next c) net) in
      match r with
      | IoOk h => Next (q_on_worker i (qset_phase (QReplySock h)) (q_set_client c' s))
      | IoErr => Next (q_set_client c' s)
      | _ => Panicked
      end
  | _ => Blocked
  end.

(** The task ends through [?]: everything it holds is dropped, and it stays registered. *)
Definition abort (i : nat) (jobs queue : list Job) (s : Qs) : Qs :=
  q_on_worker i (λ wk, qset_phase QAborted (qset_queue [] (qclose wk))) (q_set_slots (drop_jobs (jobs ++ queue) (q_slots s)) s).

(** [get_sock(.., full_duplex).await?] *)
Definition q_reply_sock (i : nat) (net : list Attempt) (s : Qs) : Outcome Qs :=
  match q_workers s !! i with
  | Some (mkQWorker name q _ (QReplySock h)) =>
      let c := q_client s in
      let '(c', r) := get_sock cc name (cc_full_duplex cc) (mkClient (cl_sock_map c) (cl_heap c) (cl_next c) net) in
      match r with
      | IoOk hr => Next (q_on_worker i (qset_phase (QRecv h hr)) (q_set_client c' s))
      | IoErr => Next (abort i [] q (q_set_client c' s))
      | _ => Panicked
      end
  | _ => Blocked
  end.

Definition q_recv (i : nat) (s : Qs) : Outcome Qs :=
  match q_workers s !! i with
  | Some (mkQWorker name q _ (QRecv h hr)) =>
      match q with
      | [] => if bool_decide (q_chan_map s !! name = Some i) then Blocked else Next (q_on_worker i (qset_phase QDereg) s)
      | _ => Next (q_on_worker i (λ wk, qset_phase (QSize h hr (take RECV_LIMIT q)) (qset_queue (drop RECV_LIMIT q) wk)) s)
      end
  | _ => Blocked
  end.

(** The worker holds the lock of the socket for replies: when the two sockets are one, it
    waits for itself.  A failed write drops the messages taken. *)
Definition q_write (i : nat) (s : Qs) : Outcome Qs :=
  match q_workers s !! i with
  | Some (mkQWorker name _ _ ph) =>
      let write h hr jobs d next :=
        if (h =? hr)%nat then Blocked else
        let '(c', r) := send_raw name h d (q_client s) in
        match r with
        | IoOk _ => Next (q_on_worker i (qset_phase next) (q_set_client c' s))
        | IoErr =>
            Next (q_on_worker i (λ wk, qset_phase QDereg (qclose wk))
              (q_set_slots (drop_jobs jobs (q_slots s)) (q_set_client c' s)))
        | _ => Panicked
        end in
      match ph with
      | QSize h hr (j :: jobs) => write h hr (j :: jobs) (SizeType (len_u32 j.1)) (QBody h hr (j :: jobs))
      | QBody h hr (j :: jobs) => write h hr (j :: jobs) (ByteType j.1) (QFlush h hr (j :: jobs))
      | _ => Blocked
      end
  | None => Blocked
  end.

Definition q_flush (i : nat) (s : Qs) : Outcome Qs :=
  match q_workers s !! i with
  | Some (mkQWorker _ _ _ (QFlush h hr jobs)) =>
      let '(c', r) := on_tx h flush_write_buffer (q_client s) in
      match r with
      | IoOk _ | IoErr => Next (q_on_worker i (qset_phase (QRead h hr jobs)) (q_set_client c' s))
      | _ => Panicked
      end
  | _ => Blocked
  end.

(** The reply; while it has not arrived the worker waits. *)
Definition q_read (i : nat) (s : Qs) : Outcome Qs :=
  match q_workers s !! i with
  | Some (mkQWorker name q _ (QRead h hr (j :: jobs))) =>
      let '(c', r) := on_rx fuel hr 4096 (q_client s) in
      match r with
      | IoOk (resp_buf, sz) =>
          if (sz =? 0)%nat then Next (abort i (j :: jobs) q (q_set_client c' s))
          else
            Next (q_on_worker i (qset_phase (match jobs with [] => QRecv h hr | _ => QSize h hr jobs end))
              (q_set_slots (resolve j.2 (SReply (resp_buf, sz, Auth name (cc_sub_id cc))) (q_slots s)) (q_set_client c' s)))
      | IoErr => Next (abort i (j :: jobs) q (q_set_client c' s))
      | IoFuel => Blocked
      | IoPanic => Panicked
      end
  | _ => Blocked
  end.

Definition q_deregister (i : nat) (s : Qs) : Outcome Qs :=
  match q_workers s !! i with
  | Some (mkQWorker name q _ QDereg) =>
      Next (q_on_worker i (λ wk, qset_phase QDone (qset_queue [] wk))
        (mkQs (q_client s) (q_ready s ∖ {[name]}) (q_chan_map s) (q_workers s) (drop_jobs q (q_slots s)) (q_call s) (q_returned s)))
  | _ => Blocked
  end.

Definition on_sock (h : nat) (f : Sock → Sock) (s : Qs) : Outcome Qs :=
  match cl_heap (q_client s) !! h with
  | None => Blocked
  | Some k => Next (q_set_client (set_heap (<[h := f k]> (cl_heap (q_client s))) (q_client s)) s)
  end.

Definition arrive (data : list (option bytes)) (k : Sock) : Sock :=
  mkSock (sk_tx k) (mkReader (rd_buffer (sk_rx k)) (rd_offset (sk_rx k)) (rd_bound (sk_rx k)) (rd_stream (sk_rx k) ++ data)).

Definition quorum_step (a : QAct) (s : Qs) : Outcome Qs :=
  match a with
  | QaCall names data quorum => q_start names data quorum s
  | QaSend => q_send s
  | QaCollect => q_collect s
  | QaNext k => q_next k s
  | QaTake => q_take s
  | QaReturn => q_return s
  | QaConnect i net => q_connect i net s
  | QaReplySock i net => q_reply_sock i net s
  | QaRecv i => q_recv i s
  | QaWrite i => q_write i s
  | QaFlush i => q_flush i s
  | QaRead i => q_read i s
  | QaDereg i => q_deregister i s
  | QaArrive h data => on_sock h (arrive data) s
  | QaKill h => on_sock h (λ k, mkSock (close_tx (sk_tx k)) (sk_rx k)) s
  end.

Definition quorum_run : list QAct → Qs → Outcome Qs := run_steps quorum_step.

End quorum_reply.

(** * Oneshot channels *)

Definition resolved (v : Slot) : bool := match v with SWait => false | _ => true end.

(** What may happen to the channels between two states: owners stay, and what is resolved
    stays as it is. *)
Definition evolves (l l' : list (string * Slot)) : Prop :=
  ∀ k n v, l !! k = Some (n, v) → ∃ v', l' !! k = Some (n, v') ∧ (resolved v = true → v' = v).

#[export] Instance evolves_preorder : PreOrder evolves.
Proof.
  split.
  - intros l k n v Hk. by exists v.
  - intros l1 l2 l3 H12 H23 k n v Hk. destruct (H12 k n v Hk) as (v2 & Hk2 & Hr2). destruct (H23 k n v2 Hk2) as (v3 & Hk3 & Hr3).
    exists v3. split; [done|]. intros Hv. rewrite <-(Hr2 Hv) in Hv |- *. auto.
Qed.

Lemma evolves_resolve k v l : evolves l (resolve k v l).
Proof.
  intros j n v0 Hj. unfold resolve. destruct (decide (k = j)) as [->|Hne]; [|rewrite list_lookup_alter_ne by done; eauto].
  rewrite list_lookup_alter_eq, Hj. cbn. destruct v0; cbn; eauto. eexists. split; [done|done].
Qed.

Lemma evolves_drop jobs l : evolves l (drop_jobs jobs l).
Proof.
  revert l. induction jobs as [|j jobs IH]; intros l; cbn; [reflexivity|]. etrans; [apply evolves_resolve|apply IH].
Qed.

Lemma evolves_app l l2 : evolves l (l ++ l2).
Proof. intros k n v Hk. exists v. split; [by apply lookup_app_l_Some|done]. Qed.

Lemma length_resolve k v l : length (resolve k v l) = length l.
Proof. apply length_alter. Qed.

Lemma length_drop_jobs jobs l : length (drop_jobs jobs l) = length l.
Proof. revert l. induction jobs as [|j jobs IH]; intros l; cbn; [done|]. by rewrite IH, length_resolve. Qed.

(** Replies carry the name of the peer asked. *)
Definition replies_ok (cc : ClientConf) (l : list (string * Slot)) : Prop :=
  ∀ k n m, l !! k = Some (n, SReply m) → m.2 = Auth n (cc_sub_id cc).

Lemma replies_ok_drop cc jobs l : replies_ok cc l → replies_ok cc (drop_jobs jobs l).
Proof.
  revert l. induction jobs as [|j jobs IH]; intros l Hl; cbn; [done|]. apply IH. intros k n m.
  unfold resolve. destruct (decide (j.2 = k)) as [->|Hne]; [|rewrite list_lookup_alter_ne by done; apply Hl].
  rewrite list_lookup_alter_eq. intros ([n0 v0] & Hk & He)%fmap_Some_1. destruct v0; cbn in He; try done. injection He as -> ->. by eapply Hl.
Qed.

Lemma replies_ok_resolve cc l k n0 v0 m :
  replies_ok cc l → l !! k = Some (n0, v0) → m.2 = Auth n0 (cc_sub_id cc) → replies_ok cc (resolve k (SReply m) l).
Proof.
  intros Hl Hk Hm j n m'. unfold resolve. destruct (decide (k = j)) as [->|Hne]; [|rewrite list_lookup_alter_ne by done; apply Hl].
  rewrite list_lookup_alter_eq, Hk. cbn. destruct v0; cbn; try done; intros [= <- <-]; [done|]. by eapply Hl.
Qed.

(** * The invariant of the workers *)

Definition in_flight (ph : QPhase) : list Job :=
  match ph with QSize _ _ js | QBody _ _ js | QFlush _ _ js | QRead _ _ js => js | _ => [] end.
Definition jobs_of (wk : QWorker) : list Job := in_flight (qw_phase wk) ++ qw_queue wk.
Definition q_live (ph : QPhase) : bool := match ph with QDone => false | _ => true end.
(** A task that is ending takes no messages, one that has ended holds none. *)
Definition ending_ok (wk : QWorker) : Prop :=
  match qw_phase wk with
  | QDereg => qw_open wk = false
  | QDone | QAborted => qw_open wk = false ∧ qw_queue wk = []
  | _ => True
  end.

Record q_inv (cc : ClientConf) (s : Qs) : Prop := {
  qi_chans : ∀ n j, q_chan_map s !! n = Some j → ∃ wk, q_workers s !! j = Some wk ∧ qw_name wk = n;
  qi_live : ∀ i wk, q_workers s !! i = Some wk → q_live (qw_phase wk) = true →
    qw_name wk ∈ q_ready s ∧ q_chan_map s !! qw_name wk = Some i;
  qi_jobs : ∀ i wk j, q_workers s !! i = Some wk → j ∈ jobs_of wk → ∃ v, q_slots s !! j.2 = Some (qw_name wk, v);
  qi_ending : ∀ i wk, q_workers s !! i = Some wk → ending_ok wk;
  qi_replies : replies_ok cc (q_slots s) }.

(** A step of worker [i]. *)
Record q_worker_step (i : nat) (s s' : Qs) : Prop := {
  qs_call : q_call s' = q_call s;
  qs_returned : q_returned s' = q_returned s;
  qs_map : q_chan_map s' = q_chan_map s;
  qs_ready : ∀ n, n ∈ q_ready s' → n ∈ q_ready s;
  qs_slots : evolves (q_slots s) (q_slots s');
  qs_length : length (q_slots s') = length (q_slots s);
  qs_workers : ∀ j, i ≠ j → q_workers s' !! j = q_workers s !! j;
  qs_self : ∀ wk', q_workers s' !! i = Some wk' → ∃ wk, q_workers s !! i = Some wk ∧ qw_name wk' = qw_name wk;
  qs_kept : ∀ wk, q_workers s !! i = Some wk → q_live (qw_phase wk) = true ∧ qw_phase wk ≠ QAborted ∧ is_Some (q_workers s' !! i) }.

Lemma worker_effect cc s i wk f l' c' :
  q_inv cc s → q_workers s !! i = Some wk → q_live (qw_phase wk) = true → qw_phase wk ≠ QAborted →
  (∀ w, qw_name (f w) = qw_name w) → jobs_of (f wk) ⊆ jobs_of wk → ending_ok (f wk) →
  evolves (q_slots s) l' → length l' = length (q_slots s) → replies_ok cc l' →
  let s' := q_on_worker i f (q_set_slots l' (q_set_client c' s)) in q_inv cc s' ∧ q_worker_step i s s'.
Proof.
  intros [I1 I2 I3 I4 I5] Hi Hl Hna Hf Hj He Hev Hlen Hr s'. split.
  - split; cbn; [| | | |done].
    + intros n j Hn. destruct (I1 n j Hn) as (w & Hw & <-). destruct (decide (i = j)) as [<-|Hne].
      * exists (f w). rewrite list_lookup_alter_eq, Hw. split; [done|apply Hf].
      * exists w. by rewrite list_lookup_alter_ne.
    + intros j w [(<- & w0 & Hw & ->)|[_ Hw]]%lookup_alter_worker Hlw; [|by apply I2].
      rewrite Hi in Hw. injection Hw as <-. rewrite Hf. by apply I2.
    + assert (∀ k n, (∃ v, q_slots s !! k = Some (n, v)) → ∃ v, l' !! k = Some (n, v)) as Hk.
      { intros k n [v Hv]. destruct (Hev k n v Hv) as (v' & ? & _). eauto. }
      intros j w job [(<- & w0 & Hw & ->)|[_ Hw]]%lookup_alter_worker Hjob; apply Hk; [|by apply (I3 j)].
      rewrite Hi in Hw. injection Hw as <-. rewrite Hf. apply (I3 i); [done|]. by apply Hj.
    + intros j w [(<- & w0 & Hw & ->)|[_ Hw]]%lookup_alter_worker; [|by apply (I4 j)]. rewrite Hi in Hw. by injection Hw as <-.
  - split; cbn; try done.
    + intros j Hne. by rewrite list_lookup_alter_ne.
    + intros w' [(_ & w0 & Hw & ->)|[Hx _]]%lookup_alter_worker; [|done]. exists w0. split; [done|apply Hf].
    + intros w Hw. rewrite Hi in Hw. injection Hw as <-. rewrite list_lookup_alter_eq, Hi. cbn. eauto.
Qed.

(** The steps of workers, but the last. *)
Definition worker_act (a : QAct) : option nat :=
  match a with
  | QaConnect i _ | QaReplySock i _ | QaRecv i | QaWrite i | QaFlush i | QaRead i | QaDereg i => Some i
  | _ => None
  end.

(** Open the worker of a step, keeping it as one variable. *)
Ltac open_worker s i :=
  destruct (q_workers s !! i) as [wk|] eqn:Hi; [|done];
  let E := fresh in let n := fresh "name" in let q := fresh "q" in let ph := fresh "ph" in
  destruct wk as [n q ? ph] eqn:E; rewrite <-E in Hi;
  assert (qw_name wk = n ∧ qw_queue wk = q ∧ qw_phase wk = ph) as (<- & <- & Hph) by (by rewrite E); clear E.

Lemma q_on_worker_id i s : q_on_worker i id s = s.
Proof. unfold q_on_worker. rewrite list_alter_id; [by destruct s|done]. Qed.

Section steps.
Context (cc : ClientConf) (fuel : nat).

Lemma step_connect i net s s' : q_inv cc s → q_connect cc i net s = Next s' → q_inv cc s' ∧ q_worker_step i s s'.
Proof.
  intros Hinv. unfold q_connect. open_worker s i. destruct ph; try done.
  destruct (get_sock _ _ _ _) as [c' r]. pose proof (λ f, worker_effect cc s i wk f (q_slots s) c' Hinv Hi) as He.
  rewrite Hph in He. pose proof (qi_replies cc s Hinv). destruct r; try done; intros [= <-].
  - apply He; try done. unfold jobs_of. by rewrite Hph.
  - rewrite <-(q_on_worker_id i (q_set_client c' s)). apply (He id); try done. by apply (qi_ending cc s Hinv i).
Qed.

(** Ending through [?]. *)
Lemma step_abort i wk jobs c' s :
  q_inv cc s → q_workers s !! i = Some wk → q_live (qw_phase wk) = true → qw_phase wk ≠ QAborted →
  let s' := abort i jobs (qw_queue wk) (q_set_client c' s) in q_inv cc s' ∧ q_worker_step i s s'.
Proof.
  intros Hinv Hi Hl Hna. apply (worker_effect cc s i wk _ _ c' Hinv Hi Hl Hna); try done.
  - apply list_subseteq_nil.
  - apply evolves_drop.
  - apply length_drop_jobs.
  - apply replies_ok_drop, Hinv.
Qed.

Lemma step_reply_sock i net s s' : q_inv cc s → q_reply_sock cc i net s = Next s' → q_inv cc s' ∧ q_worker_step i s s'.
Proof.
  intros Hinv. unfold q_reply_sock. open_worker s i. destruct ph; try done. destruct (get_sock _ _ _ _) as [c' r].
  pose proof (qi_replies cc s Hinv). destruct r; try done; intros [= <-].
  - apply (worker_effect cc s i wk _ (q_slots s)); rewrite ?Hph; try done. unfold jobs_of. by rewrite Hph.
  - by apply step_abort; rewrite ?Hph.
Qed.

Lemma step_recv i s s' : q_inv cc s → q_recv i s = Next s' → q_inv cc s' ∧ q_worker_step i s s'.
Proof.
  intros Hinv. unfold q_recv. open_worker s i. destruct ph; try done.
  pose proof (qi_replies cc s Hinv). destruct (qi_live cc s Hinv i wk Hi) as [_ Hch]; [by rewrite Hph|].
  destruct (qw_queue wk) as [|j q] eqn:Hq; [by rewrite bool_decide_true|]. intros [= <-].
  apply (worker_effect cc s i wk _ (q_slots s) (q_client s)); rewrite ?Hph; try done.
  unfold jobs_of. rewrite Hph, Hq. cbn [qset_phase qset_queue qw_phase qw_queue in_flight app]. by rewrite take_drop.
Qed.

Lemma step_write i s s' : q_inv cc s → q_write i s = Next s' → q_inv cc s' ∧ q_worker_step i s s'.
Proof.
  intros Hinv. unfold q_write. open_worker s i. pose proof (qi_replies cc s Hinv).
  destruct ph as [| | |h hr [|j jobs]|h hr [|j jobs]| | | | |]; try done; (destruct (h =? hr)%nat; [done|]);
    destruct (send_raw _ _ _ _) as [c' r]; destruct r; try done; intros [= <-].
  1,3: apply (worker_effect cc s i wk _ (q_slots s)); rewrite ?Hph; try done; unfold jobs_of; by rewrite Hph.
  all: apply (worker_effect cc s i wk _ _ c'); rewrite ?Hph; try done;
    [unfold jobs_of; rewrite Hph; cbn; set_solver|apply (evolves_drop (j :: jobs))|apply (length_drop_jobs (j :: jobs))|by apply (replies_ok_drop cc (j :: jobs))].
Qed.

Lemma step_flush i s s' : q_inv cc s → q_flush i s = Next s' → q_inv cc s' ∧ q_worker_step i s s'.
Proof.
  intros Hinv. unfold q_flush. open_worker s i. pose proof (qi_replies cc s Hinv). destruct ph; try done.
  destruct (on_tx _ _ _) as [c' r]. destruct r; try done; intros [= <-];
    (apply (worker_effect cc s i wk _ (q_slots s)); rewrite ?Hph; try done; unfold jobs_of; by rewrite Hph).
Qed.

Lemma step_read i s s' : q_inv cc s → q_read cc fuel i s = Next s' → q_inv cc s' ∧ q_worker_step i s s'.
Proof.
  intros Hinv. unfold q_read. open_worker s i. destruct ph as [| | | | | |h hr [|j jobs]| | |]; try done.
  destruct (on_rx _ _ _ _) as [c' r]. pose proof (step_abort i wk (j :: jobs) c' s Hinv Hi ltac:(by rewrite Hph) ltac:(by rewrite Hph)) as Hab.
  destruct r as [[resp_buf sz]| | |]; try done; [|by intros [= <-]]. destruct (sz =? 0)%nat; [by intros [= <-]|]. intros [= <-].
  destruct (qi_jobs cc s Hinv i wk j Hi) as [v Hv]; [unfold jobs_of; rewrite Hph; set_solver|].
  apply (worker_effect cc s i wk _ _ c'); rewrite ?Hph; try done.
  - unfold jobs_of. rewrite Hph. destruct jobs; cbn; set_solver.
  - unfold ending_ok. by destruct jobs.
  - apply evolves_resolve.
  - apply length_resolve.
  - eapply replies_ok_resolve; [apply Hinv|exact Hv|done].
Qed.

Lemma q_inv_unready s n :
  q_inv cc s → (∀ i wk, q_workers s !! i = Some wk → q_live (qw_phase wk) = true → qw_name wk ≠ n) →
  q_inv cc (mkQs (q_client s) (q_ready s ∖ {[n]}) (q_chan_map s) (q_workers s) (q_slots s) (q_call s) (q_returned s)).
Proof.
  intros [I1 I2 I3 I4 I5] Hn. split; cbn; try done. intros i wk Hi Hl. specialize (Hn i wk Hi Hl). destruct (I2 i wk Hi Hl).
  split; [set_solver|done].
Qed.

Lemma step_deregister i s s' : q_inv cc s → q_deregister i s = Next s' → q_inv cc s' ∧ q_worker_step i s s'.
Proof.
  intros Hinv. unfold q_deregister. open_worker s i. destruct ph; try done. intros [= <-].
  destruct (worker_effect cc s i wk (λ wk, qset_phase QDone (qset_queue [] wk)) (drop_jobs (qw_queue wk) (q_slots s)) (q_client s) Hinv Hi)
    as [Hinv' [S1 S2 S3 S4 S5 S6 S7 S8 S9]]; rewrite ?Hph; try done.
  { apply list_subseteq_nil. }
  { pose proof (qi_ending cc s Hinv i wk Hi) as He. unfold ending_ok in *. rewrite Hph in He. by cbn. }
  { apply evolves_drop. }
  { apply length_drop_jobs. }
  { apply replies_ok_drop, Hinv. }
  split; [|split; try done; cbn; set_solver]. apply (q_inv_unready _ (qw_name wk) Hinv'). cbn.
  intros j wj [(<- & w0 & Hj & ->)|[Hne Hj]]%lookup_alter_worker Hl; [done|]. intros Hn. apply Hne.
  destruct (qi_live cc s Hinv j wj Hj Hl) as [_ Hc]. destruct (qi_live cc s Hinv i wk Hi) as [_ Hc']; [by rewrite Hph|].
  rewrite Hn, Hc' in Hc. by injection Hc.
Qed.

Lemma step_worker a i s s' :
  q_inv cc s → worker_act a = Some i → quorum_step cc fuel a s = Next s' → q_inv cc s' ∧ q_worker_step i s s'.
Proof.
  intros Hinv Ha. destruct a; try done; injection Ha as <-; cbn [quorum_step].
  - by apply step_connect.
  - by apply step_reply_sock.
  - by apply step_recv.
  - by apply step_write.
  - by apply step_flush.
  - by apply step_read.
  - by apply step_deregister.
Qed.

(** ** The caller *)

Lemma q_inv_same s s' :
  q_chan_map s' = q_chan_map s → q_ready s' = q_ready s → q_workers s' = q_workers s → q_slots s' = q_slots s → q_inv cc s → q_inv cc s'.
Proof. intros H1 H2 H3 H4 [I1 I2 I3 I4 I5]. by split; rewrite ?H1, ?H2, ?H3, ?H4. Qed.

Lemma q_inv_spawn s n : q_inv cc s → n ∉ q_ready s → q_inv cc (q_spawn s n).
Proof.
  intros [I1 I2 I3 I4 I5] Hn. set (new := mkQWorker n [] true QConnect).
  assert (∀ j wk, (q_workers s ++ [new]) !! j = Some wk → q_workers s !! j = Some wk ∨ (j = length (q_workers s) ∧ wk = new)) as Hnew.
  { intros j wk [Hj|[Hge Hj]]%lookup_app_Some; [by left|]. right. destruct (j - _)%nat eqn:Hd; [|done]. injection Hj as <-. split; [lia|done]. }
  split; cbn; [| | | |done].
  - intros n' j [[<- <-]|[_ Hm]]%lookup_insert_Some; [exists new; rewrite lookup_app_r, Nat.sub_diag by lia; done|].
    destruct (I1 n' j Hm) as (wk & Hj & ?). exists wk. split; [by apply lookup_app_l_Some|done].
  - intros j wk [Hj|[-> ->]]%Hnew Hl; [|cbn; rewrite lookup_insert_eq; set_solver].
    destruct (I2 j wk Hj Hl) as [Hr Hm]. rewrite lookup_insert_ne by (by intros ->). set_solver.
  - intros j wk job [Hj|[-> ->]]%Hnew Hjob; [by apply (I3 j)|]. cbn in Hjob. set_solver.
  - intros j wk [Hj|[-> ->]]%Hnew; [by apply (I4 j)|done].
Qed.

Lemma q_inv_spawns l s : NoDup l → (∀ n, n ∈ l → n ∉ q_ready s) → q_inv cc s → q_inv cc (fold_left q_spawn l s).
Proof.
  intros Hnd. revert s. induction Hnd as [|n l Hn _ IH]; intros s Hl Hinv; cbn [fold_left]; [done|].
  apply IH; [|apply q_inv_spawn; [done|apply Hl; set_solver]].
  intros n' Hn'. cbn. intros [->%elem_of_singleton|Hr]%elem_of_union; [done|]. by apply (Hl n'); [set_solver|].
Qed.

Lemma spawns_slots l s : q_slots (fold_left q_spawn l s) = q_slots s.
Proof. revert s. induction l as [|n l IH]; intros s; cbn; [done|]. by rewrite IH. Qed.

Lemma q_inv_send s s' : q_inv cc s → q_send s = Next s' → q_inv cc s'.
Proof.
  intros [I1 I2 I3 I4 I5]. unfold q_send. destruct (q_call s) as [[data [|name todo] quorum receivers|]|]; try done.
  destruct (q_chan_map s !! name) as [i|] eqn:Hch; [|done]. destruct (I1 name i Hch) as (wk & Hi & Hn). rewrite Hi.
  assert (∀ v, (∀ m, v ≠ SReply m) → replies_ok cc (q_slots s ++ [(name, v)])) as Hrep.
  { intros v Hv k n m [Hk|[_ Hk]]%lookup_app_Some; [by eapply I5|]. destruct (k - _)%nat; [|done]. injection Hk as _ ->. by destruct (Hv m). }
  assert (∀ k n v0, (∃ v, q_slots s !! k = Some (n, v)) → ∃ v, (q_slots s ++ [(name, v0)]) !! k = Some (n, v)) as Hslot.
  { intros k n v0 [v Hv]. exists v. by apply lookup_app_l_Some. }
  destruct (qw_open wk) eqn:Ho; [destruct (_ <? _)%nat; [|done]|]; intros [= <-]; split; cbn; try done.
  - intros n j Hm. destruct (I1 n j Hm) as (w & Hw & <-). destruct (decide (i = j)) as [<-|Hne].
    + eexists. rewrite list_lookup_alter_eq, Hw. done.
    + exists w. by rewrite list_lookup_alter_ne.
  - intros j w [(<- & w0 & Hw & ->)|[_ Hw]]%lookup_alter_worker Hlw; by apply (I2 _ _ Hw).
  - intros j w job [(<- & w0 & Hw & ->)|[_ Hw]]%lookup_alter_worker Hjob; [|apply Hslot; by apply (I3 j)].
    unfold jobs_of in Hjob. cbn in Hjob. rewrite app_assoc in Hjob. apply elem_of_app in Hjob as [Hjob|Hjob]; [|apply list_elem_of_singleton in Hjob as ->].
    + apply Hslot. by apply (I3 i w0).
    + exists SWait. cbn. rewrite lookup_app_r, Nat.sub_diag by lia. rewrite Hi in Hw. injection Hw as <-. by rewrite Hn.
  - intros j w [(<- & w0 & Hw & ->)|[_ Hw]]%lookup_alter_worker; [|by apply (I4 j)].
    pose proof (I4 _ _ Hw) as He. unfold ending_ok in *. cbn. rewrite Hi in Hw. injection Hw as <-. rewrite Ho in *.
    destruct (qw_phase wk); try done; by destruct He.
  - by apply Hrep.
  - intros j w job Hw Hjob. apply Hslot. by apply (I3 j).
  - by apply Hrep.
Qed.

(** Calls are to distinct peers. *)
Definition q_act_ok (a : QAct) : Prop := match a with QaCall names _ _ => NoDup names | _ => True end.

(** Everything but the steps of workers. *)
Lemma step_caller a s s' :
  q_inv cc s → q_act_ok a → worker_act a = None → quorum_step cc fuel a s = Next s' → q_inv cc s' ∧ evolves (q_slots s) (q_slots s').
Proof.
  intros Hinv Hok Ha. destruct a; try done; cbn [quorum_step].
  - unfold q_start. destruct (q_call s); [done|]. destruct (_ <=? _)%nat; [|done]. intros [= <-]. cbn. rewrite spawns_slots. split; [|reflexivity].
    eapply (q_inv_same (fold_left q_spawn (filter (λ n, n ∉ q_ready s) names) s)); try done; apply q_inv_spawns; try done; [by apply NoDup_filter|].
    by intros n [? _]%list_elem_of_filter.
  - intros Hs. split; [by eapply q_inv_send|]. revert Hs. unfold q_send. repeat case_match; intros; simplify_eq; apply evolves_app.
  - unfold q_collect. repeat case_match; intros; simplify_eq. split; [by apply (q_inv_same s)|reflexivity].
  - unfold q_next. repeat case_match; intros; simplify_eq; (split; [by apply (q_inv_same s)|reflexivity]).
  - unfold q_take. repeat case_match; intros; simplify_eq. split; [by apply (q_inv_same s)|reflexivity].
  - unfold q_return. repeat case_match; intros; simplify_eq. split; [by apply (q_inv_same s)|reflexivity].
  - unfold on_sock. repeat case_match; intros; simplify_eq. split; [by apply (q_inv_same s)|reflexivity].
  - unfold on_sock. repeat case_match; intros; simplify_eq. split; [by apply (q_inv_same s)|reflexivity].
Qed.

Lemma q_inv_step a s s' : q_inv cc s → q_act_ok a → quorum_step cc fuel a s = Next s' → q_inv cc s' ∧ evolves (q_slots s) (q_slots s').
Proof.
  intros Hinv Hok Hs. destruct (worker_act a) as [i|] eqn:Ha; [|by eapply step_caller].
  destruct (step_worker a i s s' Hinv Ha Hs) as [? Hw]. split; [done|]. by apply Hw.
Qed.

Lemma q_inv_run acts s s' :
  q_inv cc s → Forall q_act_ok acts → quorum_run cc fuel acts s = Next s' → q_inv cc s' ∧ evolves (q_slots s) (q_slots s').
Proof.
  intros Hinv Hok. revert s Hinv. induction Hok as [|a acts Ha _ IH]; intros s Hinv Hrun; cbn [quorum_run run_steps] in Hrun.
  - injection Hrun as <-. by split.
  - destruct (quorum_step cc fuel a s) as [| |s1] eqn:E; try done. destruct (q_inv_step a s s1 Hinv Ha E) as [Hinv1 He1].
    destruct (IH s1 Hinv1 Hrun) as [? He2]. split; [done|]. by etrans.
Qed.

Lemma q_inv_new net : q_inv cc (q_new (client_new net)).
Proof. split; try done. Qed.

(** * One call *)

Definition reply (v : Slot) : option PinnedMessage := match v with SReply m => Some m | _ => None end.
Definition reply_at (l : list (string * Slot)) (k : nat) : option PinnedMessage := l !! k ≫= λ x, reply x.2.
Definition resolved_at (l : list (string * Slot)) (k : nat) : Prop := ∃ n v, l !! k = Some (n, v) ∧ resolved v = true.

(** A call to [names] that has created the oneshot channels from [b] on: each is for one of
    the names; what has been kept are the first [quorum] replies, in the order in which the
    channels were looked at. *)
Definition call_ok (b : nat) (names : list string) (quorum : nat) (s : Qs) : Prop :=
  (b ≤ length (q_slots s))%nat ∧
  match q_call s with
  | Some (Sending _ todo q receivers) =>
      q = quorum ∧ map fst (drop b (q_slots s)) ++ todo = names ∧ receivers = seq b (length (q_slots s) - b)
  | Some (Collecting futures count q chan result) =>
      q = quorum ∧ map fst (drop b (q_slots s)) = names ∧
      ∃ order, order ++ futures ≡ₚ seq b (length names) ∧ Forall (resolved_at (q_slots s)) order ∧
        count = length (omap (reply_at (q_slots s)) order) ∧
        result ++ chan = take quorum (omap (reply_at (q_slots s)) order)
  | None => False
  end.

Lemma evolves_owners l l' b : evolves l l' → length l' = length l → map fst (drop b l') = map fst (drop b l).
Proof.
  intros He Hl. apply list_eq. intros j. rewrite !list_lookup_fmap, !lookup_drop.
  destruct (l !! (b + j)%nat) as [[n v]|] eqn:Hk.
  - by destruct (He _ _ _ Hk) as (v' & -> & _).
  - apply lookup_ge_None in Hk. by rewrite (proj2 (lookup_ge_None l' _)) by lia.
Qed.

Lemma evolves_reply l l' k : evolves l l' → resolved_at l k → resolved_at l' k ∧ reply_at l' k = reply_at l k.
Proof.
  intros He (n & v & Hk & Hv). destruct (He k n v Hk) as (v' & Hk' & Hr). rewrite (Hr Hv) in Hk'.
  split; [by exists n, v|]. unfold reply_at. by rewrite Hk, Hk'.
Qed.

Lemma evolves_replies l l' order : evolves l l' → Forall (resolved_at l) order →
  Forall (resolved_at l') order ∧ omap (reply_at l') order = omap (reply_at l) order.
Proof.
  intros He. induction 1 as [|k order Hk _ [IH1 IH2]]; [done|]. destruct (evolves_reply l l' k He Hk) as [Hk' Hr].
  split; [by constructor|]. cbn. by rewrite Hr, IH2.
Qed.

(** Workers and the network. *)
Lemma call_ok_frame b names quorum s s' :
  q_call s' = q_call s → evolves (q_slots s) (q_slots s') → length (q_slots s') = length (q_slots s) →
  call_ok b names quorum s → call_ok b names quorum s'.
Proof.
  intros Hc He Hl [Hb Hcall]. unfold call_ok. rewrite Hc, Hl. split; [done|]. rewrite (evolves_owners _ _ b He Hl).
  destruct (q_call s) as [[]|]; try done. destruct Hcall as (? & ? & order & Ho & Hr & Hn & Hres). split; [done|]. split; [done|].
  exists order. destruct (evolves_replies _ _ order He Hr) as [? ->]. done.
Qed.

Lemma call_ok_send b names quorum s s' : call_ok b names quorum s → q_send s = Next s' → call_ok b names quorum s'.
Proof.
  intros [Hb Hcall]. unfold q_send. destruct (q_call s) as [[data [|name todo] q receivers|]|] eqn:Hc; try done.
  destruct Hcall as (-> & Hn & ->). intros Hs.
  assert (∃ v, q_slots s' = q_slots s ++ [(name, v)] ∧
    q_call s' = Some (Sending data todo quorum (seq b (length (q_slots s) - b) ++ [length (q_slots s)]))) as (v & Hsl & Hcl).
  { revert Hs. repeat case_match; intros; simplify_eq; eexists; split; reflexivity. }
  unfold call_ok. rewrite Hsl, Hcl, length_app. cbn [length]. split; [lia|]. split; [done|]. split.
  - rewrite drop_app_le, map_app, <-app_assoc by done. by rewrite <-Hn.
  - replace (length (q_slots s) + 1 - b)%nat with (S (length (q_slots s) - b)) by lia. rewrite seq_S. do 2 f_equal. lia.
Qed.

Lemma call_ok_collect b names quorum s s' : call_ok b names quorum s → q_collect s = Next s' → call_ok b names quorum s'.
Proof.
  intros [Hb Hcall]. unfold q_collect. destruct (q_call s) as [[data [|name todo] q receivers|]|] eqn:Hc; try done.
  destruct Hcall as (-> & Hn & ->). destruct (quorum =? 0)%nat; [done|]. intros [= <-]. rewrite app_nil_r in Hn.
  split; [done|]. cbn. split; [done|]. split; [done|]. exists []. split; [by rewrite <-Hn, length_map, length_drop|].
  split; [done|]. split; [done|]. by destruct quorum.
Qed.

Lemma NoDup_filter_ne (k : nat) l : NoDup l → k ∈ l → l ≡ₚ k :: filter (λ j, j ≠ k) l.
Proof.
  intros Hnd Hk. apply NoDup_Permutation; [done| |].
  - apply NoDup_cons. split; [|by apply NoDup_filter]. rewrite list_elem_of_filter. naive_solver.
  - intros x. rewrite elem_of_cons, list_elem_of_filter. destruct (decide (x = k)) as [->|]; naive_solver.
Qed.

(** Looking at one more channel. *)
Lemma order_next l order futures k b n :
  order ++ futures ≡ₚ seq b n → k ∈ futures → Forall (resolved_at l) order → resolved_at l k →
  (order ++ [k]) ++ filter (λ j, j ≠ k) futures ≡ₚ seq b n ∧ Forall (resolved_at l) (order ++ [k]).
Proof.
  intros Hp Hk Hr Hrk. split; [|apply Forall_app; split; [done|by constructor]].
  rewrite <-app_assoc. cbn. rewrite <-Hp. f_equiv. symmetry. apply NoDup_filter_ne; [|done].
  assert (NoDup (order ++ futures)) as Hnd by (rewrite Hp; apply NoDup_seq). by apply NoDup_app in Hnd as (_ & _ & ?).
Qed.

Lemma call_ok_next b names quorum k s s' : call_ok b names quorum s → q_next k s = Next s' → call_ok b names quorum s'.
Proof.
  intros [Hb Hcall]. unfold q_next. destruct (q_call s) as [[|futures count q chan result]|] eqn:Hc; try done.
  destruct Hcall as (-> & Hn & order & Hp & Hr & Hcount & Hres). case_bool_decide as Hk; [|done].
  destruct (q_slots s !! k) as [[n v]|] eqn:Hsl; [|done].
  assert (resolved v = true → resolved_at (q_slots s) k) as Hrk by (intros Hv; by exists n, v).
  assert (reply_at (q_slots s) k = reply v) as Hrep by (unfold reply_at; by rewrite Hsl).
  set (X := omap (reply_at (q_slots s)) order) in *. intros Hs.
  assert (∃ count' chan', resolved v = true ∧ s' = q_set_call (Some (Collecting (filter (λ j, j ≠ k) futures) count' quorum chan' result)) s ∧
    count' = length (X ++ option_list (reply v)) ∧ result ++ chan' = take quorum (X ++ option_list (reply v)))
    as (count' & chan' & Hv & -> & -> & Hres').
  { destruct v as [|m|]; try done.
    - destruct (Nat.ltb_spec count quorum) as [Hlt|Hge]; [destruct (_ <? _)%nat; [|done]|]; injection Hs as <-;
        eexists _, _; (split; [done|]); (split; [done|]); rewrite length_app; cbn; (split; [lia|]).
      + rewrite (app_assoc result), Hres, !take_ge by (rewrite ?length_app; cbn; lia). done.
      + rewrite take_app_le by lia. done.
    - injection Hs as <-. exists count, chan. cbn. rewrite app_nil_r. done. }
  destruct (order_next (q_slots s) order futures k b (length names) Hp Hk Hr (Hrk Hv)) as [Hp' Hr'].
  split; [done|]. cbn. split; [done|]. split; [done|]. exists (order ++ [k]).
  assert (omap (reply_at (q_slots s)) (order ++ [k]) = X ++ option_list (reply v)) as ->.
  { rewrite omap_app. cbn. rewrite Hrep. by destruct (reply v). }
  done.
Qed.

Lemma call_ok_step a b names quorum s s' :
  q_inv cc s → call_ok b names quorum s → a ≠ QaReturn → quorum_step cc fuel a s = Next s' → call_ok b names quorum s'.
Proof.
  intros Hinv Hcall Ha Hs. destruct (worker_act a) as [i|] eqn:Hw.
  { destruct (step_worker a i s s' Hinv Hw Hs) as [_ [H1 _ _ _ H2 H3 _ _ _]]. by apply (call_ok_frame b names quorum s). }
  destruct a; try done; cbn [quorum_step] in Hs.
  - unfold q_start in Hs. destruct Hcall as [_ Hcall]. by destruct (q_call s).
  - by eapply call_ok_send.
  - by eapply call_ok_collect.
  - by eapply call_ok_next.
  - destruct Hcall as [Hb Hcall]. unfold q_take in Hs. destruct (q_call s) as [[|futures count q [|m chan] result]|]; try done.
    injection Hs as <-. split; [done|]. cbn. destruct Hcall as (? & ? & order & ? & ? & ? & Hres). split; [done|]. split; [done|].
    exists order. rewrite <-app_assoc. done.
  - unfold on_sock in Hs. destruct (cl_heap _ !! h); [|done]. injection Hs as <-. by apply (call_ok_frame b names quorum s).
  - unfold on_sock in Hs. destruct (cl_heap _ !! h); [|done]. injection Hs as <-. by apply (call_ok_frame b names quorum s).
Qed.

Lemma call_ok_run acts b names quorum s s' :
  q_inv cc s → Forall q_act_ok acts → call_ok b names quorum s → QaReturn ∉ acts → quorum_run cc fuel acts s = Next s' →
  q_inv cc s' ∧ call_ok b names quorum s'.
Proof.
  intros Hinv Hok. revert s Hinv. induction Hok as [|a acts Ha _ IH]; intros s Hinv Hcall Hno Hrun; cbn [quorum_run run_steps] in Hrun.
  - by injection Hrun as <-.
  - destruct (quorum_step cc fuel a s) as [| |s1] eqn:E; try done.
    destruct (q_inv_step a s s1 Hinv Ha E) as [Hinv1 _]. apply (IH s1); try done; [|set_solver].
    apply (call_ok_step a b names quorum s s1); try done. set_solver.
Qed.

End steps.

(** * What a call returns *)

Lemma omap_seq {A B : Type} (f : A → option B) (p r : list A) :
  omap (λ k, (p ++ r) !! k ≫= f) (seq (length p) (length r)) = omap f r.
Proof.
  revert p. induction r as [|x r IH]; intros p; [done|]. cbn [seq length].
  specialize (IH (p ++ [x])). rewrite <-app_assoc, length_app, Nat.add_1_r in IH. cbn [app] in IH.
  assert (∀ C (g : C → option B) k l, omap g (k :: l) = option_list (g k) ++ omap g l) as Hcons
    by (intros C g k l; cbn; by destruct (g k)).
  rewrite !Hcons, IH, lookup_app_r, Nat.sub_diag by lia. done.
Qed.

Lemma replies_of_call l b : (b ≤ length l)%nat →
  omap (reply_at l) (seq b (length (drop b l))) = omap (λ x, reply x.2) (drop b l).
Proof.
  intros Hb. rewrite <-(omap_seq _ (take b l) (drop b l)), take_drop, length_take_le by done. done.
Qed.

Lemma NoDup_omap_senders l (order : list nat) :
  NoDup order →
  (∀ k1 k2 m1 m2, k1 ∈ order → k2 ∈ order → reply_at l k1 = Some m1 → reply_at l k2 = Some m2 → m1.2 = m2.2 → k1 = k2) →
  NoDup (map snd (omap (reply_at l) order)).
Proof.
  induction 1 as [|k order Hk _ IH]; intros Hinj; [constructor|]. cbn.
  specialize (IH ltac:(intros; eapply Hinj; [..|done|done|done]; set_solver)).
  destruct (reply_at l k) as [m|] eqn:Hm; [|done]. cbn. constructor; [|done].
  intros (m' & He & Hin)%list_elem_of_fmap. apply list_elem_of_omap in Hin as (k' & Hk' & Hm').
  assert (k = k') as ->; [|done]. eapply Hinj; [set_solver|set_solver|done|done|done].
Qed.

(** The state in which a call returns. *)
Lemma call_result cc b names quorum s futures count result :
  q_inv cc s → NoDup names → call_ok b names quorum s → q_call s = Some (Collecting [] count futures [] result) →
  let mine := drop b (q_slots s) in
  map fst mine = names ∧ Forall (λ x, resolved x.2 = true) mine ∧
  length result = (quorum `min` length (omap (λ x, reply x.2) mine))%nat ∧
  NoDup (map snd result) ∧
  Forall (λ m, ∃ n, n ∈ names ∧ (n, SReply m) ∈ mine ∧ m.2 = Auth n (cc_sub_id cc)) result.
Proof.
  intros Hinv Hnd [Hb Hcall] Hc mine. rewrite Hc in Hcall. destruct Hcall as (-> & Hn & order & Hp & Hr & _ & Hres).
  rewrite app_nil_r in Hp, Hres. subst result.
  assert (length names = length mine) as Hlen by (subst names; by rewrite length_map). rewrite Hlen in Hp.
  assert (∀ k, k ∈ order ↔ (b ≤ k < b + length mine)%nat) as Hin by (intros k; rewrite Hp, elem_of_seq; lia).
  assert (∀ k m, reply_at (q_slots s) k = Some m → k ∈ order →
    ∃ n, names !! (k - b)%nat = Some n ∧ (n, SReply m) ∈ mine ∧ m.2 = Auth n (cc_sub_id cc)) as Hrep.
  { intros k m Hk Hko. unfold reply_at in Hk. destruct (q_slots s !! k) as [[n v]|] eqn:Hsl; [|done]. cbn in Hk.
    destruct v as [|m'|]; try done. injection Hk as ->. exists n. apply Hin in Hko.
    assert (mine !! (k - b)%nat = Some (n, SReply m)) as Hmine.
    { subst mine. rewrite lookup_drop. by replace (b + (k - b))%nat with k by lia. }
    split; [rewrite <-Hn, list_lookup_fmap; fold mine; by rewrite Hmine|]. split; [by eapply list_elem_of_lookup_2|].
    by eapply (qi_replies cc s Hinv). }
  split; [done|]. split_and!.
  - apply Forall_lookup. intros j [n v] Hj. assert ((b + j)%nat ∈ order) as Hk by (apply Hin; apply lookup_lt_Some in Hj; lia).
    rewrite Forall_forall in Hr. destruct (Hr _ Hk) as (n' & v' & Hsl & Hv). subst mine. rewrite lookup_drop, Hsl in Hj. by injection Hj as <- <-.
  - rewrite length_take. f_equal. subst mine. rewrite <-replies_of_call by done. by rewrite Hp.
  - rewrite <-firstn_map. eapply sublist_NoDup; [|apply sublist_take]. apply NoDup_omap_senders; [rewrite Hp; apply NoDup_seq|].
    intros k1 k2 m1 m2 H1 H2 R1 R2 He. destruct (Hrep _ _ R1 H1) as (n1 & N1 & _ & A1). destruct (Hrep _ _ R2 H2) as (n2 & N2 & _ & A2).
    rewrite A1, A2 in He. injection He as ->. pose proof (NoDup_lookup names _ _ _ Hnd N1 N2). apply Hin in H1, H2. lia.
  - apply Forall_take, Forall_forall. intros m Hm. apply list_elem_of_omap in Hm as (k & Hk & Hkm).
    destruct (Hrep k m Hkm Hk) as (n & Hn' & Hrest). exists n. split; [by eapply list_elem_of_lookup_2|done].
Qed.

Lemma call_ok_start cc fuel names data quorum s s' :
  quorum_step cc fuel (QaCall names data quorum) s = Next s' → call_ok (length (q_slots s)) names quorum s'.
Proof.
  cbn. unfold q_start. destruct (q_call s); [done|]. destruct (_ <=? _)%nat; [|done]. intros [= <-].
  unfold call_ok. cbn. rewrite spawns_slots, drop_all, Nat.sub_diag. done.
Qed.

(** * A peer lost for good *)

(** The worker of [n] has ended through [?]; no message to [n] from the [b]-th on is answered. *)
Definition gone (n : string) (i : nat) (s : Qs) : Prop :=
  ∃ wk, q_workers s !! i = Some wk ∧ qw_name wk = n ∧ qw_phase wk = QAborted.
Definition silent (n : string) (b : nat) (l : list (string * Slot)) : Prop :=
  ∀ k v, (b ≤ k)%nat → l !! k = Some (n, v) → v = SDropped.

Lemma silent_evolves n b l l' : evolves l l' → length l' = length l → silent n b l → silent n b l'.
Proof.
  intros He Hl Hs k v Hb Hk. assert (is_Some (l !! k)) as [[n0 v0] H0].
  { apply lookup_lt_is_Some. rewrite <-Hl. by eapply lookup_lt_Some. }
  destruct (He k n0 v0 H0) as (v1 & Hk1 & Hr). rewrite Hk in Hk1. injection Hk1 as <- <-.
  rewrite (Hs k v0 Hb H0) in Hr. by apply Hr.
Qed.

Lemma spawns_workers l s i wk : q_workers s !! i = Some wk → q_workers (fold_left q_spawn l s) !! i = Some wk.
Proof. revert s. induction l as [|n l IH]; intros s Hi; cbn; [done|]. apply IH. cbn. by apply lookup_app_l_Some. Qed.

Lemma gone_send cc n i b s s' :
  q_inv cc s → gone n i s → silent n b (q_slots s) → q_send s = Next s' → gone n i s' ∧ silent n b (q_slots s').
Proof.
  intros Hinv (wk & Hi & Hn & Hph) Hs. unfold q_send. destruct (q_call s) as [[data [|name todo] quorum receivers|]|]; try done.
  destruct (q_chan_map s !! name) as [j|] eqn:Hch; [|done]. destruct (qi_chans cc s Hinv name j Hch) as (wj & Hj & Hnj). rewrite Hj.
  destruct (qi_live cc s Hinv i wk Hi) as [_ Hm]; [by rewrite Hph|]. rewrite Hn in Hm.
  pose proof (qi_ending cc s Hinv i wk Hi) as He. unfold ending_ok in He. rewrite Hph in He. destruct He as [Ho _].
  assert (∀ v0, (name = n → v0 = SDropped) → silent n b (q_slots s ++ [(name, v0)])) as Hsil.
  { intros v0 Hv0 k v Hb [Hk|[_ Hk]]%lookup_app_Some; [by apply (Hs k)|]. destruct (k - _)%nat; [|done]. injection Hk as -> <-. auto. }
  destruct (decide (name = n)) as [->|Hne].
  - rewrite Hm in Hch. injection Hch as <-. rewrite Hi in Hj. injection Hj as <-. rewrite Ho. intros [= <-].
    split; [by exists wk|]. by apply Hsil.
  - assert (i ≠ j) as Hij by (intros ->; rewrite Hi in Hj; injection Hj as <-; congruence).
    destruct (qw_open wj); [destruct (_ <? _)%nat; [|done]|]; intros [= <-]; (split; [|by apply Hsil]).
    + exists wk. cbn. by rewrite list_lookup_alter_ne.
    + by exists wk.
Qed.

Lemma gone_step cc fuel a n i b s s' :
  q_inv cc s → gone n i s → silent n b (q_slots s) → quorum_step cc fuel a s = Next s' → gone n i s' ∧ silent n b (q_slots s').
Proof.
  intros Hinv Hg Hs Hst. pose proof Hg as (wk & Hi & Hn & Hph). destruct (worker_act a) as [j|] eqn:Ha.
  - destruct (step_worker cc fuel a j s s' Hinv Ha Hst) as [_ [_ _ _ _ S5 S6 S7 _ S9]]. split; [|by eapply silent_evolves].
    exists wk. rewrite S7; [done|]. intros ->. by destruct (S9 wk Hi) as (_ & ? & _).
  - destruct a; try done; cbn [quorum_step] in Hst; [|by eapply gone_send|..].
    { unfold q_start in Hst. destruct (q_call s); [done|]. destruct (_ <=? _)%nat; [|done]. injection Hst as <-. cbn. rewrite spawns_slots.
      split; [|done]. exists wk. split; [by apply spawns_workers|done]. }
    all: revert Hst; unfold q_collect, q_next, q_take, q_return, on_sock; repeat case_match; intros; simplify_eq; (split; [by exists wk|done]).
Qed.

Lemma gone_run cc fuel acts n i b s s' :
  q_inv cc s → Forall q_act_ok acts → gone n i s → silent n b (q_slots s) → quorum_run cc fuel acts s = Next s' → silent n b (q_slots s').
Proof.
  intros Hinv Hok. revert s Hinv. induction Hok as [|a acts Ha _ IH]; intros s Hinv Hg Hs Hrun; cbn [quorum_run run_steps] in Hrun.
  - by injection Hrun as <-.
  - destruct (quorum_step cc fuel a s) as [| |s1] eqn:E; try done. destruct (q_inv_step cc fuel a s s1 Hinv Ha E) as [Hinv1 _].
    destruct (gone_step cc fuel a n i b s s1 Hinv Hg Hs E). by apply (IH s1).
Qed.

(** * Properties *)

(** C28: what a quorum call returns.  In every interleaving with the workers and the network,
    when a call to distinct peers returns, every peer's answer is settled (the call waits for
    all of them, not for a quorum); it returns as many replies as have come, at most
    [quorum]; they are from distinct peers among those asked, each marked with the name of
    the peer whose worker read it. *)
Theorem quorum_call_result (cc : ClientConf) (fuel : nat) (net : list Attempt) (before during : list QAct)
    (names : list string) (data : MessageRef) (quorum : nat) (s1 s2 s3 s4 : Qs) :
  Forall q_act_ok before → Forall q_act_ok during → NoDup names → QaReturn ∉ during →
  quorum_run cc fuel before (q_new (client_new net)) = Next s1 →
  quorum_step cc fuel (QaCall names data quorum) s1 = Next s2 →
  quorum_run cc fuel during s2 = Next s3 → quorum_step cc fuel QaReturn s3 = Next s4 →
  let mine := drop (length (q_slots s1)) (q_slots s4) in
  map fst mine = names ∧ Forall (λ x, resolved x.2 = true) mine ∧
  ∃ result, q_returned s4 = Some result ∧
    length result = (quorum `min` length (omap (λ x, reply x.2) mine))%nat ∧ NoDup (map snd result) ∧
    Forall (λ m, ∃ n, n ∈ names ∧ (n, SReply m) ∈ mine ∧ m.2 = Auth n (cc_sub_id cc)) result.
Proof.
  intros Hb Hd Hnd Hno R1 E2 R3 E4. destruct (q_inv_run cc fuel before _ s1 (q_inv_new cc net) Hb R1) as [Hinv1 _].
  destruct (q_inv_step cc fuel (QaCall names data quorum) s1 s2 Hinv1 Hnd E2) as [Hinv2 _].
  destruct (call_ok_run cc fuel during _ names quorum s2 s3 Hinv2 Hd (call_ok_start cc fuel _ _ _ _ _ E2) Hno R3) as [Hinv3 Hcall3].
  cbn in E4. unfold q_return in E4. destruct (q_call s3) as [[|[|? ?] count q [|? ?] result]|] eqn:Hc; try done. injection E4 as <-.
  destruct (call_result cc _ names quorum s3 q count result Hinv3 Hnd Hcall3 Hc) as (H1 & H2 & H3 & H4 & H5).
  split; [done|]. split; [done|]. by exists result.
Qed.

(** Three peers of a full-duplex client; [b] answers before [a], and [c]'s connection breaks. *)
Definition three_peers : ClientConf := client_conf {["a"%string; "b"%string; "c"%string]} 3 true 50.
Definition ask_all : QAct := QaCall ["a"; "b"; "c"]%string hello 2.
Definition answer (b : Byte.byte) : list (option bytes) := [Some [Byte.x00; Byte.x00; Byte.x00; Byte.x01; b]].
Definition both : list Attempt := [AttemptOk []; AttemptOk []].
(** Worker [i] connects and sends its first message; its reply socket is [2 * i]. *)
Definition start_worker (i : nat) : list QAct :=
  [QaConnect i both; QaReplySock i []; QaRecv i; QaWrite i; QaWrite i; QaFlush i].
Definition asked : list QAct :=
  [QaSend; QaSend; QaSend; QaCollect] ++ start_worker 0 ++ start_worker 1 ++ start_worker 2 ++
  [QaArrive 2 (answer Byte.x62); QaRead 1; QaArrive 4 [None]; QaRead 2; QaNext 1; QaNext 2; QaTake;
   QaArrive 0 (answer Byte.x61); QaRead 0; QaNext 0; QaTake].
Definition q_state (acts : list QAct) : Qs :=
  match quorum_run three_peers 20 acts (q_new (client_new [])) with Next s => s | _ => q_new (client_new []) end.

Lemma quorum_call_result_witness :
  option_map (map snd) (q_returned (q_state (ask_all :: asked ++ [QaReturn]))) = Some [Auth "b" 50; Auth "a" 50] ∧
  ∃ result, q_returned (q_state (ask_all :: asked ++ [QaReturn])) = Some result ∧ NoDup (map snd result).
Proof.
  split; [vm_compute; reflexivity|].
  destruct (quorum_call_result three_peers 20 [] [] asked ["a"; "b"; "c"]%string hello 2 (q_new (client_new []))
    (q_state [ask_all]) (q_state (ask_all :: asked)) (q_state (ask_all :: asked ++ [QaReturn])))
    as (_ & _ & result & Hr & _ & Hd & _).
  - constructor.
  - repeat (constructor; [exact I|]). constructor.
  - apply (bool_decide_unpack _). vm_compute. exact I.
  - intros Hin. cbn in Hin. repeat (apply elem_of_cons in Hin as [Hin|Hin]; [done|]). by apply elem_of_nil in Hin.
  - vm_compute. reflexivity.
  - vm_compute. reflexivity.
  - vm_compute. reflexivity.
  - vm_compute. reflexivity.
  - exists result. exact (conj Hr Hd).
Defined.

(** One failed read loses a peer for good.  When the worker of a peer has ended through
    [?] (its reply could not be read, was empty, or its reply connection could not be
    opened), it stays registered with a closed channel: whatever happens later, every
    message to that peer is dropped and none is answered. *)
Lemma failed_read_is_permanent (cc : ClientConf) (fuel : nat) (net : list Attempt) (before after : list QAct) (n : string) (i : nat) (s s' : Qs) :
  Forall q_act_ok before → Forall q_act_ok after →
  quorum_run cc fuel before (q_new (client_new net)) = Next s → gone n i s →
  quorum_run cc fuel after s = Next s' →
  ∀ k v, (length (q_slots s) ≤ k)%nat → q_slots s' !! k = Some (n, v) → v = SDropped.
Proof.
  intros Hb Ha R1 Hg R2. destruct (q_inv_run cc fuel before _ s (q_inv_new cc net) Hb R1) as [Hinv _].
  apply (gone_run cc fuel after n i _ s s' Hinv Ha Hg); [|done]. intros k v Hk Hl. apply lookup_lt_Some in Hl. lia.
Qed.

Definition ask_again : list QAct := [ask_all; QaSend; QaSend; QaSend; QaCollect].

Lemma failed_read_is_permanent_witness :
  gone "c" 2 (q_state (ask_all :: asked ++ [QaReturn])) ∧
  (∀ v, q_slots (q_state ((ask_all :: asked ++ [QaReturn]) ++ ask_again)) !! 5%nat = Some ("c"%string, v) → v = SDropped) ∧
  "c"%string ∈ q_ready (q_state ((ask_all :: asked ++ [QaReturn]) ++ ask_again)).
Proof.
  assert (gone "c" 2 (q_state (ask_all :: asked ++ [QaReturn]))) as Hg.
  { eexists. split; [vm_compute; reflexivity|]. split; reflexivity. }
  split; [exact Hg|]. split; [|apply (bool_decide_unpack _); vm_compute; exact I].
  intros v Hv. apply (failed_read_is_permanent three_peers 20 [] (ask_all :: asked ++ [QaReturn]) ask_again "c" 2
    (q_state (ask_all :: asked ++ [QaReturn])) (q_state ((ask_all :: asked ++ [QaReturn]) ++ ask_again))) with (k := 5%nat).
  - constructor; [apply (bool_decide_unpack _); vm_compute; exact I|repeat (constructor; [exact I|]); constructor].
  - constructor; [apply (bool_decide_unpack _); vm_compute; exact I|repeat (constructor; [exact I|]); constructor].
  - vm_compute. reflexivity.
  - exact Hg.
  - vm_compute. reflexivity.
  - apply Nat.leb_le. vm_compute. reflexivity.
  - exact Hv.
Defined.

(** On a half-duplex client the socket for replies is the socket for messages: the worker
    holds its lock and waits for it before the first write. *)
Lemma half_duplex_deadlocks :
  let acts := [QaCall ["a"]%string hello 1; QaSend; QaCollect; QaConnect 0 [AttemptOk []]; QaReplySock 0 []; QaRecv 0] in
  match quorum_run two_peers 20 acts (q_new (client_new [])) with
  | Next s => qw_phase <$> q_workers s !! 0%nat = Some (QSize 0 0 [(hello, 0%nat)]) ∧ q_write 0 s = Blocked
  | _ => False
  end.
Proof. vm_compute. split; reflexivity. Qed.
