(* ===== verification/TwoPC.v ===== *)
(** The two-phase-commit handler of the extra_2pc feature (src/src/consensus/extra_2pc.rs):
    storing a key on a majority of nodes, outside consensus, before a vote is released.
    The peers of a round are the environment: which of them answer, in which order, and
    what a faulty one says; a correct peer runs [handle_phase_message] on its own storage.
    The storage service is that of Storage.v, the reply that of ClientReply.v. *)

From stdpp Require Import base numbers list gmap strings option.
From S2P Require Import Prelude Types Config Serialize Crypto Staging ClientReply Storage.

(** * UTF-8 ([String::from_utf8]) *)

Definition in_range (lo hi : Z) (b : Byte.byte) : bool := (lo <=? byte_val b) && (byte_val b <=? hi).

(** Well-formed byte sequences: no overlong forms, no surrogates, at most U+10FFFF. *)
Fixpoint utf8_valid (l : bytes) : bool :=
  match l with
  | [] => true
  | b0 :: r0 =>
      if in_range 0 127 b0 then utf8_valid r0
      else match r0 with
      | [] => false
      | b1 :: r1 =>
          if in_range 194 223 b0 then in_range 128 191 b1 && utf8_valid r1
          else match r1 with
          | [] => false
          | b2 :: r2 =>
              if in_range 224 239 b0 then
                in_range (if byte_val b0 =? 224 then 160 else 128) (if byte_val b0 =? 237 then 159 else 191) b1 &&
                in_range 128 191 b2 && utf8_valid r2
              else match r2 with
              | [] => false
              | b3 :: r3 =>
                  in_range 240 244 b0 &&
                  in_range (if byte_val b0 =? 240 then 144 else 128) (if byte_val b0 =? 244 then 143 else 191) b1 &&
                  in_range 128 191 b2 && in_range 128 191 b3 && utf8_valid r3
              end
          end
      end
  end.

(** * State *)

Record TwoPCHandler := mkTwoPC {
  local_index_counter : gmap string Z;
  client_tag_counter : Z }.

Definition twopc_new : TwoPCHandler := mkTwoPC ∅ 0.

(** What a peer does in a round: it handles the request and its reply arrives, or is lost;
    or something else arrives in its name ([None]: bytes that do not decode). *)
Inductive PeerBehaviour :=
  | Answers
  | LosesReply
  | Says (r : option ProtoClientReply).

(** The peers of a round in the order in which things happen. *)
Definition Round : Type := list (string * PeerBehaviour).

Section twopc.
Context {D : Type} `{StorageEngine D} (feat : Features) (cfg : Config).

(** * A peer *)

(** [Receiver<StorageAck>]: [None] when the storage task is gone, and then the storage is
    as it was.  The write's own error is inside. *)
Definition put_ack (d : D) (key : string) (val : bytes) : D * option bool :=
  match put_raw feat d key val with Some (d, ok) => (d, Some ok) | None => (d, None) end.

Definition failure : ProtoTransactionResult := mkTxResult [mkOpResult false []].
Definition success : ProtoTransactionResult := mkTxResult [mkOpResult true []].

(** [None] is a panic ([get_raw] without its storage task). *)
Definition handle_phase_message (d : D) (tx : ProtoTransaction) : option (D * ProtoTransactionResult) :=
  if negb (is_2pc tx) then Some (d, failure) else
  match on_receive tx with
  | None => Some (d, failure)
  | Some phase =>
      match phase_ops phase with
      | [] => Some (d, failure)
      | op :: _ =>
          match operands op with
          | key :: val :: _ =>
              if negb (utf8_valid key) then Some (d, failure) else
              let key := String.string_of_list_byte key in
              match op_type_from_i32 (op_type op) with
              | Some Write =>
                  let '(d, ack) := put_ack d key val in
                  match ack with
                  | None => Some (d, failure)
                  | Some _ => Some (d, success)
                  end
              | Some Custom =>
                  '(d, stored_val) ← get_raw feat d key;
                  match stored_val with
                  | inl _ => Some (d, failure)
                  | inr stored_val =>
                      if negb (bool_decide (stored_val = val)) then Some (d, failure) else Some (d, success)
                  end
              | _ => Some (d, failure)
              end
          | _ => Some (d, failure)
          end
      end
  end.

(** * A round *)

Definition phase_tx (key : string) (value : bytes) (op : ProtoTransactionOpType) : ProtoTransaction :=
  mkTx (Some (mkPhase [mkOp (op_type_to_i32 op) [String.list_byte_of_string key; value; zeros 1024]])) None None false true.

(** The reply the peer's client-reply task sends for the request (an unlogged request). *)
Definition peer_reply (tag : Z) (res : ProtoTransactionResult) : option ProtoClientReply :=
  match process_reply_command (RpUnlogged (Some res) (mkAckChan 0 tag (Auth (net_name cfg) 50))) with
  | Some [(_, r)] => Some r
  | _ => None
  end.

(** One peer: what becomes of its storage, and its reply if one arrives. *)
Definition peer_step (tag : Z) (tx : ProtoTransaction) (nodes : gmap string D) (name : string) (b : PeerBehaviour)
    : gmap string D * list (string * option ProtoClientReply) :=
  match b with
  | Says r => (nodes, [(name, r)])
  | Answers | LosesReply =>
      match nodes !! name with
      | None => (nodes, [])
      | Some d =>
          match handle_phase_message d tx with
          | None => (nodes, [])
          | Some (d, res) =>
              (<[name := d]> nodes, match b with Answers => [(name, peer_reply tag res)] | _ => [] end)
          end
      end
  end.

Fixpoint run_round (tag : Z) (tx : ProtoTransaction) (nodes : gmap string D) (evs : Round)
    : gmap string D * list (string * option ProtoClientReply) :=
  match evs with
  | [] => (nodes, [])
  | (name, b) :: evs' =>
      let '(nodes, r) := peer_step tag tx nodes name b in
      let '(nodes, rs) := run_round tag tx nodes evs' in
      (nodes, r ++ rs)
  end.

(** The closure that decides whether a reply counts. *)
Definition counts (tag : Z) (r : option ProtoClientReply) : bool :=
  match r with
  | None => false
  | Some payload =>
      if negb (reply_client_tag payload =? tag) then false else
      match client_reply payload with
      | Some (Receipt rcpt) =>
          match rcpt_results rcpt with
          | None => false
          | Some results => match tx_result results with [] => false | result :: _ => op_success result end
          end
      | _ => false
      end
  end.

(** [n / 2 + 1] of the configured nodes. *)
Definition majority : nat := (length (node_list (consensus_config cfg)) / 2 + 1)%nat.

(** [None]: the assertion of [broadcast_and_await_quorum_reply] fails, or its channel of
    capacity 0 panics. *)
Definition generic_phase (s : TwoPCHandler) (nodes : gmap string D) (key : string) (value : bytes)
    (op : ProtoTransactionOpType) (evs : Round) : option (TwoPCHandler * gmap string D * bool) :=
  let tag := client_tag_counter s ⊕ 1 in
  let s := mkTwoPC (local_index_counter s) tag in
  let send_list := everyone_except_me cfg in
  let quorum := (majority - 1)%nat in
  if negb (quorum <=? length send_list)%nat || (quorum =? 0)%nat then None else
  let '(nodes, replies) := run_round tag (phase_tx key value op) nodes evs in
  let success_acks := (length (retain (λ r, counts tag r.2) (take quorum replies)) + 1)%nat in
  Some (s, nodes, (majority <=? success_acks)%nat).

(** [while !self.phaseN(..)]: the rounds left after the one that succeeds. *)
Inductive PhaseResult :=
  | PhaseDone (s : TwoPCHandler) (nodes : gmap string D) (rest : list Round)
  | PhaseRetrying (s : TwoPCHandler) (nodes : gmap string D)
  | PhasePanic.

Fixpoint phase_loop (s : TwoPCHandler) (nodes : gmap string D) (key : string) (value : bytes)
    (op : ProtoTransactionOpType) (rounds : list Round) : PhaseResult :=
  match rounds with
  | [] => PhaseRetrying s nodes
  | evs :: rounds' =>
      match generic_phase s nodes key value op evs with
      | None => PhasePanic
      | Some (s, nodes, true) => PhaseDone s nodes rounds'
      | Some (s, nodes, false) => phase_loop s nodes key value op rounds'
      end
  end.

(** * A command *)

Inductive CommandResult :=
  | Released (a : EngraftActionAfterFutureDone) (s : TwoPCHandler) (nodes : gmap string D) (rest : list Round)
  | NotStored (s : TwoPCHandler)
  | StillRetrying (s : TwoPCHandler) (nodes : gmap string D)
  | CommandPanic.

Definition final_key_name (key : string) : string := (net_name cfg +:+ ":" +:+ key)%string.

Definition handle_command (s : TwoPCHandler) (nodes : gmap string D) (cmd : TwoPCCommand) (rounds : list Round)
    : CommandResult :=
  let index := default 0 (local_index_counter s !! tp_key cmd) ⊕ 1 in
  let s := mkTwoPC (<[tp_key cmd := index]> (local_index_counter s)) (client_tag_counter s) in
  let key := final_key_name (tp_key cmd) in
  let val := be_bytes 8 index ++ tp_value cmd in
  match nodes !! net_name cfg with
  | None => CommandPanic
  | Some d =>
      let '(d, ack) := put_ack d key val in
      let nodes := <[net_name cfg := d]> nodes in
      match ack with
      | None => NotStored s
      | Some _ =>
          match phase_loop s nodes key val Write rounds with
          | PhasePanic => CommandPanic
          | PhaseRetrying s nodes => StillRetrying s nodes
          | PhaseDone s nodes rounds =>
              match phase_loop s nodes key val Custom rounds with
              | PhasePanic => CommandPanic
              | PhaseRetrying s nodes => StillRetrying s nodes
              | PhaseDone s nodes rounds => Released (tp_action cmd) s nodes rounds
              end
          end
      end
  end.

End twopc.

(** * The future that joins two commands ([EngraftTwoPCFuture]) *)

(** A oneshot receiver: nothing yet, a value, or its sender dropped.  [try_recv] takes the
    value out. *)
Inductive Oneshot := OsEmpty | OsValue (v : Z) | OsClosed.

Record EngraftTwoPCFuture := mkFuture {
  fu_block_n : Z;
  fu_raft_rx : Oneshot;
  fu_log_rx : Oneshot;
  fu_raft_val : option Z;
  fu_log_val : option Z;
  fu_action : option EngraftActionAfterFutureDone }.

Definition future_new (n : Z) (raft log : Oneshot) (a : EngraftActionAfterFutureDone) : EngraftTwoPCFuture :=
  mkFuture n raft log None None (Some a).

Definition try_recv (rx : Oneshot) (v : option Z) : Oneshot * option Z :=
  match v with
  | Some _ => (rx, v)
  | None => match rx with OsValue x => (OsClosed, Some x) | _ => (rx, None) end
  end.

Definition is_ready (f : EngraftTwoPCFuture) : EngraftTwoPCFuture * bool :=
  let '(r, rv) := try_recv (fu_raft_rx f) (fu_raft_val f) in
  let '(l, lv) := try_recv (fu_log_rx f) (fu_log_val f) in
  (mkFuture (fu_block_n f) r l rv lv (fu_action f), bool_decide (is_Some rv) && bool_decide (is_Some lv)).

(** [Pending] is [inl], [Ready] is [inr]; [None] is the [unwrap] of an action already taken. *)
Definition poll (f : EngraftTwoPCFuture) : option (EngraftTwoPCFuture * (unit + EngraftActionAfterFutureDone)) :=
  let '(f, ready) := is_ready f in
  if ready then
    match fu_action f with
    | Some a => Some (mkFuture (fu_block_n f) (fu_raft_rx f) (fu_log_rx f) (fu_raft_val f) (fu_log_val f) None, inr a)
    | None => None
    end
  else Some (f, inl tt).

(** [wait], once both receivers have resolved. *)
Definition wait_result (f : EngraftTwoPCFuture) : bool := (is_ready f).2.

(** The future yields its action when both values have come, and only once. *)
Lemma poll_joins n raft log a :
  (∃ f, poll (future_new n raft log a) = Some (f, inr a) ∧ poll f = None) ↔ (∃ x, raft = OsValue x) ∧ (∃ y, log = OsValue y).
Proof.
  unfold poll, is_ready, future_new. split.
  - intros (f & Hf & _). destruct raft as [|x|], log as [|y|]; cbn in Hf; try done. eauto.
  - intros [[x ->] [y ->]]. eexists. split; reflexivity.
Qed.

(** * What a released action guarantees *)

Section proofs.
Context {D : Type} `{HSE : StorageEngine D} `{HSL : !StorageLaws D} (feat : Features) (cfg : Config).
Context (storage_on : f_storage feat = true).

(** The storage is healthy and holds [v] under [key]. *)
Definition holds (d : D) (key : string) (v : bytes) : Prop :=
  ∃ m, stores d m ∧ m !! String.list_byte_of_string key = Some v.
Definition healthy (d : D) : Prop := ∃ m, stores d m.

Lemma holds_get d key v : storable (String.list_byte_of_string key) → holds d key v → ∃ d', get_raw feat d key = Some (d', inr v).
Proof.
  intros Hk (m & Hm & Hv). destruct (stores_get _ _ _ _ Hm Hk Hv) as (d' & Hg & _). exists d'.
  unfold get_raw, storage_step. rewrite Hg. done.
Qed.

Lemma put_ack_ok d key v d' ack :
  storable (String.list_byte_of_string key) → healthy d → put_ack feat d key v = (d', ack) →
  healthy d' ∧ (ack = Some true → holds d' key v).
Proof.
  intros Hk [m Hm]. unfold put_ack, put_raw, storage_step. rewrite storage_on.
  destruct (eng_put d v (String.list_byte_of_string key)) as [[d1 ok]|] eqn:Hp; cbn [mbind option_bind]; intros [= <- <-].
  - pose proof (stores_put _ _ _ _ _ _ Hm Hk Hp) as Hm1. split; [by eexists|]. intros [= ->]. eexists. split; [exact Hm1|].
    apply lookup_insert_eq.
  - split; [by exists m|done].
Qed.

Lemma phase_message_health d key v op d' res :
  storable (String.list_byte_of_string key) → healthy d →
  handle_phase_message feat d (phase_tx key v op) = Some (d', res) →
  healthy d' ∧ (op = Custom → res = success → holds d' key v).
Proof.
  intros Hk Hd. unfold handle_phase_message, phase_tx. cbn [is_2pc on_receive phase_ops operands op_type negb].
  destruct (utf8_valid _); cbn [negb]; [|by intros [= <- <-]].
  assert (op_type_from_i32 (op_type_to_i32 op) = Some op) as -> by by destruct op.
  assert (String.string_of_list_byte (String.list_byte_of_string key) = key) as -> by apply String.string_of_list_byte_of_string.
  destruct op; try (by intros [= <- <-]).
  - destruct (put_ack feat d key v) as [d1 ack] eqn:Hp. destruct (put_ack_ok _ _ _ _ _ Hk Hd Hp) as [H1 _].
    destruct ack; intros [= <- <-]; by split.
  - unfold get_raw, storage_step. destruct Hd as [m Hm].
    destruct (eng_get d (String.list_byte_of_string key)) as [[d1 [e|x]]|] eqn:Hg; cbn [mbind option_bind]; [| |done].
    + intros [= <- <-]. split; [|done]. exists m. by eapply stores_miss.
    + pose proof (stores_read _ _ _ _ _ Hm Hk Hg) as Hm1.
      destruct (bool_decide_reflect (x = v)) as [->|Hne]; cbn [negb]; intros [= <- <-]; (split; [by eexists|]); [|done].
      intros _ _. eexists. split; [exact Hm1|]. apply lookup_insert_eq.
Qed.

(** What a peer said that its handler did not say never counts. *)
Definition round_ok (evs : Round) : Prop :=
  NoDup evs.*1 ∧ Forall (λ e, e.1 ∈ everyone_except_me cfg) evs ∧
  Forall (λ e, ∀ r tag, e.2 = Says r → counts tag r = false) evs.

Lemma counts_peer_reply tag res : counts tag (peer_reply cfg tag res) = true → ∃ o l, tx_result res = o :: l ∧ op_success o = true.
Proof.
  unfold counts, peer_reply. cbn. rewrite Z.eqb_refl. cbn. destruct (tx_result res) as [|o l]; [done|]. eauto.
Qed.

Lemma phase_result_cases (d : D) tx d' res : handle_phase_message feat d tx = Some (d', res) → res = success ∨ res = failure.
Proof.
  unfold handle_phase_message. repeat (case_match; try done); intros; simplify_eq; auto.
  all: repeat match goal with H : (_ ≫= _) = Some _ |- _ => apply bind_Some in H as ([? ?] & _ & H) end;
    repeat (case_match; try done); simplify_eq; auto.
Qed.

Lemma peer_step_spec tag key v op nodes name b nodes' rs :
  storable (String.list_byte_of_string key) → map_Forall (λ _, healthy) nodes →
  (∀ r, b = Says r → counts tag r = false) →
  peer_step feat cfg tag (phase_tx key v op) nodes name b = (nodes', rs) →
  map_Forall (λ _, healthy) nodes' ∧ (rs = [] ∨ ∃ r, rs = [(name, r)]) ∧
  (∀ n, n ≠ name → nodes' !! n = nodes !! n) ∧
  (op = Custom → ∀ n r, (n, r) ∈ rs → counts tag r = true → n = name ∧ ∃ d, nodes' !! name = Some d ∧ holds d key v).
Proof.
  intros Hk Hh Hsay. unfold peer_step.
  destruct b as [| |r0].
  3:{ intros [= <- <-]. split; [done|]. split; [by right; exists r0|]. split; [done|]. intros _ n r Hin Hc.
      apply list_elem_of_singleton in Hin as [= -> ->]. by rewrite (Hsay r0) in Hc. }
  all: destruct (nodes !! name) as [d|] eqn:Hd; [|intros [= <- <-]; split_and!; [done|by left|done|intros _ n r Hin; by apply not_elem_of_nil in Hin]].
  all: destruct (handle_phase_message feat d (phase_tx key v op)) as [[d1 res]|] eqn:Hm; [|intros [= <- <-]; split_and!; [done|by left|done|intros _ n r Hin; by apply not_elem_of_nil in Hin]].
  all: destruct (phase_message_health _ _ _ _ _ _ Hk (Hh _ _ Hd) Hm) as [Hd1 Hc]; intros [= <- <-].
  all: split; [by apply map_Forall_insert_2|].
  2:{ split_and!; [by left|intros n Hn; by rewrite lookup_insert_ne|intros _ n r Hin; by apply not_elem_of_nil in Hin]. }
  split; [by eauto|]. split; [intros n Hn; by rewrite lookup_insert_ne|]. intros Hop n r Hin Hct.
  apply list_elem_of_singleton in Hin as [= -> ->]. split; [done|]. exists d1. rewrite lookup_insert_eq. split; [done|].
  apply Hc; [done|]. apply counts_peer_reply in Hct as (o & l & He & Ho).
  destruct (phase_result_cases _ _ _ _ Hm) as [->| ->]; [done|]. by injection He as <- <-.
Qed.

Lemma run_round_spec tag key v op evs nodes nodes' rs :
  storable (String.list_byte_of_string key) → map_Forall (λ _, healthy) nodes →
  NoDup evs.*1 → Forall (λ e, ∀ r tag, e.2 = Says r → counts tag r = false) evs →
  run_round feat cfg tag (phase_tx key v op) nodes evs = (nodes', rs) →
  map_Forall (λ _, healthy) nodes' ∧ rs.*1 `sublist_of` evs.*1 ∧
  (∀ n, n ∉ evs.*1 → nodes' !! n = nodes !! n) ∧
  (op = Custom → ∀ n r, (n, r) ∈ rs → counts tag r = true → ∃ d, nodes' !! n = Some d ∧ holds d key v).
Proof.
  intros Hk. revert nodes nodes' rs. induction evs as [|[name b] evs IH]; intros nodes nodes' rs Hh Hnd Hsay.
  - intros [= <- <-]. split_and!; try done. intros _ n r Hin. by apply not_elem_of_nil in Hin.
  - cbn [run_round fmap list_fmap fst]. apply list.NoDup_cons in Hnd as [Hnin Hnd].
    apply Forall_cons_1 in Hsay as [Hsay1 Hsay].
    destruct (peer_step feat cfg tag (phase_tx key v op) nodes name b) as [nodes1 r1] eqn:Hstep.
    destruct (peer_step_spec _ _ _ _ _ _ _ _ _ Hk Hh (λ r, Hsay1 r tag) Hstep) as (P1 & P2 & P3 & P4).
    destruct (run_round feat cfg tag (phase_tx key v op) nodes1 evs) as [nodes2 rs2] eqn:Hrun. intros [= <- <-].
    destruct (IH _ _ _ P1 Hnd Hsay Hrun) as (H1 & H2 & H3 & H4). split; [done|]. split.
    { destruct P2 as [->|[r ->]]; cbn; by constructor. }
    split.
    { intros n [Hn1 Hn2]%not_elem_of_cons. rewrite H3, P3 by done. done. }
    intros Hop n r [Hin|Hin]%elem_of_app Hct; [|by eauto].
    destruct (P4 Hop n r Hin Hct) as (-> & d & Hd & Hv). exists d. by rewrite H3.
Qed.

Lemma retain_full {A} (f : A → bool) (l : list A) k :
  (length l ≤ k)%nat → (k ≤ length (retain f l))%nat → length l = k ∧ ∀ x, x ∈ l → f x = true.
Proof.
  revert k. induction l as [|x l IH]; intros k H1 H2.
  - cbn in *. split; [lia|]. intros x Hx. by apply not_elem_of_nil in Hx.
  - unfold retain in H2. cbn [List.filter length] in *. fold (retain f l) in H2.
    assert (length (retain f l) ≤ length l)%nat as Hle by apply List.filter_length_le.
    destruct (f x) eqn:Hf; cbn [length] in *; [|lia].
    destruct k as [|k]; [lia|]. destruct (IH k) as [He Hall]; [lia..|].
    split; [lia|]. intros y [->|Hy]%elem_of_cons; auto.
Qed.

(** A quorum of peers that hold [v] under [key]. *)
Definition quorum_holds (nodes : gmap string D) (key : string) (v : bytes) : Prop :=
  ∃ Q : list string, NoDup Q ∧ Forall (λ n, n ∈ everyone_except_me cfg) Q ∧ length Q = (majority cfg - 1)%nat ∧
    Forall (λ n, ∃ d, nodes !! n = Some d ∧ holds d key v) Q.

Lemma generic_phase_spec s nodes key v op evs s' nodes' b :
  storable (String.list_byte_of_string key) → map_Forall (λ _, healthy) nodes → round_ok evs →
  generic_phase feat cfg s nodes key v op evs = Some (s', nodes', b) →
  map_Forall (λ _, healthy) nodes' ∧ nodes' !! net_name cfg = nodes !! net_name cfg ∧
  (op = Custom → b = true → quorum_holds nodes' key v).
Proof.
  intros Hk Hh (Hnd & Hin & Hsay). unfold generic_phase. destruct (_ || _); [done|].
  set (tag := client_tag_counter s ⊕ 1).
  destruct (run_round feat cfg tag (phase_tx key v op) nodes evs) as [nodes1 rs] eqn:Hrun. intros [= <- <- <-].
  destruct (run_round_spec _ _ _ _ _ _ _ _ Hk Hh Hnd Hsay Hrun) as (H1 & H2 & H3 & H4). split; [done|]. split.
  { apply H3. intros ([n b] & Hn & Hb)%list_elem_of_fmap. cbn in Hn. subst n.
    rewrite list.Forall_forall in Hin. apply Hin in Hb. cbn in Hb. unfold everyone_except_me in Hb.
    apply elem_of_retain in Hb as [Hb _]. by rewrite bool_decide_true in Hb. }
  intros Hop Hm%Nat.leb_le.
  destruct (retain_full (λ r, counts tag r.2) (take (majority cfg - 1) rs) (majority cfg - 1)) as [Hlen Hall];
    [rewrite length_take; lia|lia|].
  exists (take (majority cfg - 1) rs).*1.
  assert ((take (majority cfg - 1) rs).*1 `sublist_of` evs.*1) as Hsub.
  { etrans; [|exact H2]. rewrite fmap_take. apply sublist_take. }
  split; [by eapply sublist_NoDup|]. split; [|split; [by rewrite length_fmap|]].
  - apply list.Forall_forall. intros n Hn. 
    pose proof (elem_of_sublist _ _ _ Hn Hsub) as (e & -> & He)%list_elem_of_fmap. rewrite list.Forall_forall in Hin. by apply Hin.
  - apply list.Forall_forall. intros n ([n' r] & -> & Hr)%list_elem_of_fmap. apply (H4 Hop n' r); [|by apply (Hall (n', r))].
    apply elem_of_take in Hr as (i & Hi & _). by eapply list_elem_of_lookup_2.
Qed.

Lemma phase_loop_spec key v op rounds s nodes s' nodes' rest :
  storable (String.list_byte_of_string key) → map_Forall (λ _, healthy) nodes → Forall round_ok rounds →
  phase_loop feat cfg s nodes key v op rounds = PhaseDone s' nodes' rest →
  map_Forall (λ _, healthy) nodes' ∧ nodes' !! net_name cfg = nodes !! net_name cfg ∧ Forall round_ok rest ∧
  (op = Custom → quorum_holds nodes' key v).
Proof.
  intros Hk Hh Hr. revert s nodes Hh. induction Hr as [|evs rounds Hok Hr IH]; intros s nodes Hh; [done|].
  cbn [phase_loop]. destruct (generic_phase feat cfg s nodes key v op evs) as [[[s1 nodes1] b]|] eqn:Hg; [|done].
  destruct (generic_phase_spec _ _ _ _ _ _ _ _ _ Hk Hh Hok Hg) as (H1 & H2 & H3). destruct b.
  - intros [= <- <- <-]. auto.
  - intros Hl. destruct (IH _ _ H1 Hl) as (G1 & G2 & G3 & G4). rewrite <-H2. auto.
Qed.


End proofs.

(** * Runs *)

(** A disk that works or fails every write. *)
Definition ToyDisk : Type := bool * gmap bytes bytes.

#[local] Instance toy_disk : StorageEngine ToyDisk := {|
  eng_init := λ d, Some d;
  eng_put := λ (d : ToyDisk) v k, Some (if d.1 then ((true, <[k := v]> d.2), true) else (d, false));
  eng_put_multiple := λ d l, Some (d, false);
  eng_get := λ (d : ToyDisk) k, Some (d, match d.2 !! k with Some v => inr v | None => inl tt end) |}.

#[local] Program Instance toy_disk_laws : StorageLaws ToyDisk := {|
  stores := λ d m, m ⊆ d.2;
  storable := λ _, True |}.
Next Obligation.
  intros [up c] m k v d' ok Hm _ [= Hp]. destruct up; cbn in *; injection Hp as <- <-; [by apply insert_mono|].
  etrans; [apply delete_subseteq|done].
Qed.
Next Obligation. intros [up c] m k v Hm _ Hk. exists (up, c). cbn in *. by rewrite (lookup_weaken _ _ _ _ Hk Hm). Qed.
Next Obligation.
  intros [up c] m k v d' Hm _. cbn in *. destruct (c !! k) as [x|] eqn:Hk; intros; simplify_eq. by apply insert_subseteq_l.
Qed.
Next Obligation. intros [up c] m k e d' Hm _. cbn in *. by intros [= <- _]. Qed.

(** Node 1 of four; the first attempt at the first phase loses a reply. *)
Definition toy_2pc_config : Config := mkConfig "node1" four_nodes.
Definition toy_2pc_nodes (up : bool) : gmap string ToyDisk :=
  list_to_map [("node1", (up, ∅)); ("node2", (true, ∅)); ("node3", (true, ∅)); ("node4", (true, ∅))]%string.
Definition toy_2pc_cmd : TwoPCCommand := mk2PC "raft_meta" [Byte.x07] ActNone.
Definition toy_2pc_rounds : list Round :=
  [[("node2", Answers); ("node3", LosesReply); ("node4", Says None)];
   [("node2", Answers); ("node3", Answers)];
   [("node3", Answers); ("node2", Answers); ("node4", Says None)]]%string.

Definition is_released {D} (r : @CommandResult D) : bool := match r with Released _ _ _ _ => true | _ => false end.

(** The nodes of the cluster where the value is readable when the command ends. *)
Definition holders (r : @CommandResult ToyDisk) (key : string) (val : bytes) : list string :=
  match r with
  | Released _ _ nodes _ =>
      retain (λ n, match nodes !! n with
                   | Some d => match get_raw pirateship_features d key with
                               | Some (_, inr v) => bool_decide (v = val)
                               | _ => false
                               end
                   | None => false
                   end) (node_list four_nodes)
  | _ => []
  end.

Definition result_nodes {D} (r : @CommandResult D) : gmap string D := match r with Released _ _ nodes _ => nodes | _ => ∅ end.
Definition result_handler {D} (r : @CommandResult D) : TwoPCHandler := match r with Released _ s _ _ => s | _ => twopc_new end.


(** A failed local write is counted as a success.  The handler only checks that the
    storage task answered, not what it answered, and counts itself: with four nodes and a
    local disk that refuses every write, the action is released although the value is
    readable on two nodes only, one less than the majority of three. *)
Lemma twopc_counts_failed_local_write :
  let r := handle_command pirateship_features toy_2pc_config twopc_new (toy_2pc_nodes false) toy_2pc_cmd toy_2pc_rounds in
  is_released r = true ∧
  holders r "node1:raft_meta" (be_bytes 8 1 ++ [Byte.x07]) = ["node2"; "node3"]%string ∧
  majority toy_2pc_config = 3%nat.
Proof. vm_compute. auto. Qed.
