(* ===== verification/Timer.v ===== *)
(** The timers the tasks wait on (src/src/utils/timer.rs): a background task that sleeps,
    skips a tick if the timer was reset meanwhile and otherwise queues a signal, on a
    channel of capacity 1.  Time is counted in the milliseconds of [sleep].
    [ResettableTimer] sleeps a fixed time, [RandomResettableTimer] a sampled one. *)

From stdpp Require Import base numbers list option.
From S2P Require Import Prelude.

(** The background task sleeps for [t] more milliseconds, or waits for room in the channel
    ([tx.send(true).await]). *)
Inductive TimerTask :=
  | Sleeping (t : Z)
  | Sending.

Record Timer := mkTimer {
  tm_task : TimerTask;
  tm_sleeps : nat;                 (* sleeps begun so far *)
  tm_is_cancelled : bool;
  tm_queued : bool }.              (* the channel holds a signal *)

Inductive TimerEvent :=
  | Elapse                         (* one millisecond *)
  | Reset
  | FireNow
  | Wait.                          (* a waiter that takes the signal if there is one *)

Section timer.
(** How long the k-th sleep is: [timeout], or a sample of [Uniform::new(min, max)]. *)
Context (duration : nat → Z).

Definition timer_new : Timer := mkTimer (Sleeping (duration 0)) 1 false false.

(** [tx.send(true)] and the next sleep, if the channel has room. *)
Definition timer_send (s : Timer) : Timer :=
  if tm_queued s then mkTimer Sending (tm_sleeps s) (tm_is_cancelled s) true
  else mkTimer (Sleeping (duration (tm_sleeps s))) (S (tm_sleeps s)) (tm_is_cancelled s) true.

(** The end of a sleep: [compare_exchange(true, false)], and the signal if it fails. *)
Definition wake (s : Timer) : Timer :=
  if tm_is_cancelled s then mkTimer (Sleeping (duration (tm_sleeps s))) (S (tm_sleeps s)) false (tm_queued s)
  else timer_send s.

(** The state after an event, and whether a waiter returned. *)
Definition timer_step (s : Timer) (ev : TimerEvent) : Timer * bool :=
  match ev with
  | Elapse =>
      match tm_task s with
      | Sleeping t =>
          if t <=? 1 then (wake s, false)
          else (mkTimer (Sleeping (t - 1)) (tm_sleeps s) (tm_is_cancelled s) (tm_queued s), false)
      | Sending => (s, false)
      end
  | Reset => (mkTimer (tm_task s) (tm_sleeps s) true (tm_queued s), false)
  | FireNow => (mkTimer (tm_task s) (tm_sleeps s) (tm_is_cancelled s) true, false)
  | Wait =>
      if tm_queued s then
        let s := mkTimer (tm_task s) (tm_sleeps s) (tm_is_cancelled s) false in
        (match tm_task s with Sending => timer_send s | Sleeping _ => s end, true)
      else (s, false)
  end.

(** The waits that returned, with the time at which they did. *)
Fixpoint timer_run (s : Timer) (now : Z) (evs : list TimerEvent) : Timer * list Z :=
  match evs with
  | [] => (s, [])
  | ev :: evs' =>
      let '(s, got) := timer_step s ev in
      let now := match ev with Elapse => now + 1 | _ => now end in
      let '(s, l) := timer_run s now evs' in
      (s, if (got : bool) then now :: l else l)
  end.

(** * Proofs *)

(** [k] milliseconds pass with a waiter waiting. *)
Definition waiting (k : nat) : list TimerEvent := concat (replicate k [Elapse; Wait]).

Lemma timer_run_app s now evs1 evs2 :
  timer_run s now (evs1 ++ evs2) =
    let '(s1, l1) := timer_run s now evs1 in
    let '(s2, l2) := timer_run s1 (now + Z.of_nat (length (retain (λ ev, match ev with Elapse => true | _ => false end) evs1))) evs2 in
    (s2, l1 ++ l2).
Proof.
  revert s now. induction evs1 as [|ev evs1 IH]; intros s now.
  - cbn. rewrite Z.add_0_r. by destruct (timer_run s now evs2).
  - cbn [app timer_run]. destruct (timer_step s ev) as [s1 got]. rewrite IH.
    destruct (timer_run s1 _ evs1) as [s2 l1].
    assert ((match ev with Elapse => now + 1 | _ => now end) +
            Z.of_nat (length (retain (λ ev, match ev with Elapse => true | _ => false end) evs1)) =
            now + Z.of_nat (length (retain (λ ev, match ev with Elapse => true | _ => false end) (ev :: evs1)))) as ->
      by (unfold retain; destruct ev; cbn [List.filter length]; lia).
    destruct (timer_run s2 _ evs2) as [s3 l2]. by destruct got.
Qed.

(** While the task sleeps nothing is received. *)
Lemma waiting_sleeps (k : nat) t n c now :
  Z.of_nat k < t →
  timer_run (mkTimer (Sleeping t) n c false) now (waiting k) = (mkTimer (Sleeping (t - Z.of_nat k)) n c false, []).
Proof.
  revert t now. induction k as [|k IH]; intros t now Hk.
  - cbn. by rewrite Z.sub_0_r.
  - unfold waiting. cbn [replicate concat app timer_run timer_step tm_task tm_sleeps tm_is_cancelled tm_queued].
    destruct (Z.leb_spec t 1); [lia|]. cbn [tm_queued]. fold (waiting k). rewrite IH by lia. do 3 f_equal. lia.
Qed.

(** The millisecond in which the sleep ends. *)
Lemma waiting_wakes t n c now :
  t <= 1 →
  timer_run (mkTimer (Sleeping t) n c false) now [Elapse; Wait] =
    (mkTimer (Sleeping (duration n)) (S n) false false, if c then [] else [now + 1]).
Proof.
  intros Ht. cbn [timer_run timer_step tm_task]. rewrite (proj2 (Z.leb_le t 1)) by done.
  unfold wake, timer_send. cbn. by destruct c.
Qed.

Lemma waiting_S k : waiting (S k) = waiting k ++ [Elapse; Wait].
Proof.
  unfold waiting. rewrite replicate_S_end, concat_app. done.
Qed.

Lemma waiting_elapsed k : length (retain (λ ev, match ev with Elapse => true | _ => false end) (waiting k)) = k.
Proof.
  induction k as [|k IH]; [done|]. unfold waiting in *. cbn [replicate concat]. rewrite retain_app, length_app, IH. done.
Qed.

Lemma waiting_expires (k : nat) t n c now :
  0 < t → Z.of_nat k = t →
  timer_run (mkTimer (Sleeping t) n c false) now (waiting k) =
    (mkTimer (Sleeping (duration n)) (S n) false false, if c then [] else [now + t]).
Proof.
  intros Ht Hk. destruct k as [|k]; [lia|]. rewrite waiting_S, timer_run_app, waiting_sleeps by lia.
  rewrite waiting_elapsed, waiting_wakes by lia. destruct c; [done|]. cbn. do 2 f_equal. lia.
Qed.

End timer.

(** A reset postpones the timeout by more than one period and at most two.  A task that
    waits on the timer, resets it at some point (no signal being queued then) and goes on
    waiting receives nothing until the current sleep, of which [t] remains, and one full
    sleep after it have passed, and receives the signal exactly then: for a timer of
    period [p], more than [p] and at most [2 * p] after the reset; for a random timer with
    samples in [[lo, hi)], more than [lo] and less than [2 * hi]. *)
Lemma reset_postpones_timeout (duration : nat → Z) (lo hi : Z) (t : Z) (n : nat) (c : bool) (now : Z) (k : nat) :
  0 < lo → (∀ i, lo ≤ duration i < hi) → 0 < t < hi →
  let s := mkTimer (Sleeping t) n c false in
  let d := t + duration n in
  lo < d < 2 * hi ∧
  (Z.of_nat k < d → (timer_run duration s now (Reset :: waiting k)).2 = []) ∧
  (Z.of_nat k = d → (timer_run duration s now (Reset :: waiting k)).2 = [now + d]).
Proof.
  intros Hlo Hd Ht s d. pose proof (Hd n) as Hn. split; [subst d; lia|].
  assert (∀ k', (Z.to_nat t + k' = k)%nat →
    timer_run duration s now (Reset :: waiting k) =
    timer_run duration (mkTimer (Sleeping (duration n)) (S n) false false) (now + t) (waiting k')) as Hsplit.
  { intros k' <-. cbn [timer_run timer_step]. unfold waiting at 1. rewrite replicate_add, concat_app.
    fold (waiting (Z.to_nat t)) (waiting k'). rewrite timer_run_app. cbn [s tm_task tm_sleeps tm_is_cancelled tm_queued].
    rewrite waiting_expires, waiting_elapsed by lia. rewrite Z2Nat.id by lia.
    by destruct (timer_run duration _ _ (waiting k')). }
  split; intros Hk.
  - destruct (decide (Z.of_nat k < t)) as [Hlt|Hge].
    + cbn [timer_run timer_step s tm_task tm_sleeps tm_is_cancelled tm_queued]. by rewrite waiting_sleeps.
    + rewrite (Hsplit (k - Z.to_nat t)%nat) by lia. by rewrite waiting_sleeps by (subst d; lia).
  - rewrite (Hsplit (Z.to_nat (duration n))) by (subst d; lia). rewrite waiting_expires by lia.
    cbn. f_equal. subst d. lia.
Qed.

Lemma reset_postpones_timeout_witness :
  (timer_run (λ _, 150) (mkTimer (Sleeping 40) 1 false false) 0 (Reset :: waiting 190)).2 = [190].
Proof. apply (reset_postpones_timeout (λ _, 150) 150 151 40 1 false 0 190); lia. Defined.

(** A signal that is already queued survives a reset: a task that was busy for two periods
    is told of two timeouts after it has reset the timer. *)
Lemma elapse_sleeps duration (k : nat) t n c q now :
  Z.of_nat k < t →
  timer_run duration (mkTimer (Sleeping t) n c q) now (replicate k Elapse) = (mkTimer (Sleeping (t - Z.of_nat k)) n c q, []).
Proof.
  revert t now. induction k as [|k IH]; intros t now Hk; [cbn; by rewrite Z.sub_0_r|].
  cbn [replicate timer_run timer_step tm_task tm_sleeps tm_is_cancelled tm_queued].
  destruct (Z.leb_spec t 1); [lia|]. rewrite IH by lia. do 3 f_equal. lia.
Qed.

Lemma elapsed_replicate k : length (retain (λ ev, match ev with Elapse => true | _ => false end) (replicate k Elapse)) = k.
Proof. induction k as [|k IH]; [done|]. cbn. by f_equal. Qed.

Lemma elapse_wakes duration (k : nat) t n q now :
  0 < t → Z.of_nat k = t →
  timer_run duration (mkTimer (Sleeping t) n false q) now (replicate k Elapse) =
    (timer_send duration (mkTimer (Sleeping 1) n false q), []).
Proof.
  intros Ht Hk. destruct k as [|k]; [lia|]. rewrite replicate_S_end, timer_run_app, elapse_sleeps by lia.
  replace (t - Z.of_nat k) with 1 by lia. done.
Qed.

Lemma reset_leaves_queued_signals (p : Z) :
  0 < p →
  (timer_run (λ _, p) (timer_new (λ _, p)) 0
     (replicate (Z.to_nat p) Elapse ++ replicate (Z.to_nat p) Elapse ++ [Reset; Wait; Wait])).2 = [2 * p; 2 * p].
Proof.
  intros Hp. unfold timer_new. rewrite timer_run_app, elapse_wakes by lia. cbn [timer_send tm_queued tm_sleeps tm_is_cancelled].
  rewrite timer_run_app, elapse_wakes, !elapsed_replicate by lia.
  cbn -[Z.mul Z.add]. rewrite Z2Nat.id by lia. do 2 f_equal; [lia|]. f_equal. lia.
Qed.
