(* ===== verification/ClientWorker.v ===== *)
(** The closed-loop client (src/src/client/worker.rs): a generator task that sends requests
    and a checker task that waits for their replies, connected by two channels of the
    capacity of [max_concurrent_requests].  A token travels between them: as a task on the
    generator channel while its request is in flight, as a response on the backpressure
    channel otherwise.  Times are the readings of the clock the code takes; how often a
    send fails before it succeeds, and what replies arrive, are the environment. *)

From stdpp Require Import base numbers list gmap strings option sorting.
From S2P Require Import Prelude Types Serialize ClientReply Server.

(** * Data *)

(** workload_generators/mod.rs *)
Inductive Executor := ExLeader | ExAny.
#[export] Instance Executor_eq_dec : EqDecision Executor.
Proof. solve_decision. Defined.

Record WorkloadUnit := mkWorkloadUnit { wu_tx : ProtoTransaction; wu_executor : Executor }.

Record CheckerTask := mkTask {
  ct_start_time : Z;
  ct_wait_from : string;
  ct_id : Z;
  ct_executor_mode : Executor }.

Inductive CheckerResponse :=
  | CkTryAgain (task : CheckerTask) (node_vec : option (list string)) (leader : option nat)
  | CkSuccess (id : Z).

Record OutstandingRequest := mkOutstanding {
  or_id : Z;
  or_payload : bytes;
  or_executor_mode : Executor;
  or_last_sent_to : string;
  or_start_time : Z }.

Definition get_checker_task (r : OutstandingRequest) : CheckerTask :=
  mkTask (or_start_time r) (or_last_sent_to r) (or_id r) (or_executor_mode r).

(** client/logger.rs *)
Inductive ClientWorkerStat :=
  | CrashCommitLatency (latency : Z)
  | ByzCommitLatency (latency : Z)
  | ByzCommitPending (client_id : nat) (pending : nat).

(** [NodeInfo::deserialize] (serde_json): the names of the nodes; [None] is its panic. *)
Class NodeInfoCodec := {
  node_info_names : string → option (list string) }.

(** * The generator task *)

Record Generator := mkGenerator {
  g_outstanding : gmap Z OutstandingRequest;
  g_total_requests : Z;                    (* an i32 *)
  g_node_list : list string;
  g_curr_leader_id : nat;
  g_curr_round_robin_id : nat;
  g_complaining : nat }.

(** [keys().collect()] and [sort()]. *)
Definition sort_names (l : list string) : list string := merge_sort String.le l.

Definition generator_new (nodes : list string) (id : nat) : option Generator :=
  match nodes with
  | [] => None
  | _ => Some (mkGenerator ∅ 0 (sort_names nodes) 0 (id mod length nodes) 0)
  end.

(** What the generator does to the outside. *)
Inductive GenOut :=
  | OutSend (to : string) (payload : bytes) (ok : bool)
  | OutTask (t : CheckerTask)
  | OutToken (r : CheckerResponse)
  | OutBackoff.

Definition i32_incr (z : Z) : Z := (z + 1 + 2 ^ 31) mod 2 ^ 32 - 2 ^ 31.
Definition as_u64 (z : Z) : Z := z mod 2 ^ 64.

(** [send_request]: [fails] attempts fail before one succeeds.  [None] is an index out of
    range or a division by zero. *)
Fixpoint send_request (fails : nat) (g : Generator) (req : OutstandingRequest)
    : option (Generator * OutstandingRequest * list GenOut) :=
  let len := length (g_node_list g) in
  let i := match or_executor_mode req with
           | ExLeader => g_curr_leader_id g
           | ExAny => (g_curr_round_robin_id g mod len)%nat
           end in
  if (len =? 0)%nat then None else
  node ← g_node_list g !! i;
  let req := mkOutstanding (or_id req) (or_payload req) (or_executor_mode req) node (or_start_time req) in
  match fails with
  | O => Some (g, req, [OutSend node (or_payload req) true])
  | S fails' =>
      let g := match or_executor_mode req with
               | ExLeader => mkGenerator ∅ (g_total_requests g) (g_node_list g)
                   ((g_curr_leader_id g + 1) mod len) (g_curr_round_robin_id g) (g_complaining g)
               | ExAny => mkGenerator ∅ (g_total_requests g) (g_node_list g)
                   (g_curr_leader_id g) ((g_curr_round_robin_id g + 1) mod len) (g_complaining g)
               end in
      '(g, req, out) ← send_request fails' g req;
      Some (g, req, OutSend node (or_payload req) false :: out)
  end.

Section generator.
Context `{PayloadCodec} (max_inflight_requests : nat) (my_name : string).

(** One iteration of the loop on a response.  [now] is [Instant::now()] when the request is
    made, [unit] what the workload generator gives, [fails] the failed sends. *)
Definition generator_step (g : Generator) (resp : CheckerResponse) (now : Z) (unit : WorkloadUnit) (fails : nat)
    : option (Generator * list GenOut) :=
  match resp with
  | CkSuccess id =>
      let outstanding := delete id (g_outstanding g) in
      let req_id := as_u64 (i32_incr (g_total_requests g)) in
      let payload := payload_encode (Some (PmClientRequest (mkClientRequest (Some (wu_tx unit)) my_name (zeros 1) req_id))) in
      let req := mkOutstanding req_id payload (wu_executor unit) "" now in
      let g := mkGenerator outstanding (g_total_requests g) (g_node_list g) (g_curr_leader_id g)
                 (g_curr_round_robin_id g) (g_complaining g) in
      '(g, req, out) ← send_request fails g req;
      Some (mkGenerator (<[or_id req := req]> (g_outstanding g)) (i32_incr (g_total_requests g)) (g_node_list g)
              (g_curr_leader_id g) (g_curr_round_robin_id g) (g_complaining g),
            out ++ [OutTask (get_checker_task req)])
  | CkTryAgain task node_vec leader =>
      let '(complaining, backoff) :=
        match leader with
        | None => (let c := S (g_complaining g) in if (max_inflight_requests <=? c)%nat then O else c,
                   if (g_complaining g =? 0)%nat then [OutBackoff] else [])
        | Some _ => (g_complaining g, [])
        end in
      old_leader_name ← g_node_list g !! g_curr_leader_id g;
      let leader_id := match leader with Some l => l | None => g_curr_leader_id g end in
      let nodes := match node_vec with Some l => l | None => g_node_list g end in
      new_leader_name ← nodes !! leader_id;
      let outstanding := if bool_decide (old_leader_name ≠ new_leader_name) then ∅ else g_outstanding g in
      let req := outstanding !! ct_id task in
      let g := mkGenerator (delete (ct_id task) outstanding) (g_total_requests g) nodes leader_id
                 (g_curr_round_robin_id g) complaining in
      match req with
      | None => Some (g, backoff ++ [OutToken (CkSuccess 0)])
      | Some req =>
          '(g, req, out) ← send_request fails g req;
          Some (mkGenerator (<[or_id req := req]> (g_outstanding g)) (g_total_requests g) (g_node_list g)
                  (g_curr_leader_id g) (g_curr_round_robin_id g) (g_complaining g),
                backoff ++ out ++ [OutTask (get_checker_task req)])
      end
  end.

End generator.

(** * The checker task *)

Record Checker := mkChecker {
  ck_waiting_for_byz_response : gmap Z CheckerTask;
  ck_out_of_order_byz_response : gmap Z Z;
  ck_alleged_leader : string }.

Definition checker_new : Checker := mkChecker ∅ ∅ "".

Inductive ChkOut :=
  | OutResponse (r : CheckerResponse)
  | OutStat (s : ClientWorkerStat)
  | OutConfigNodes (names : list string).

(** What [await_reply] and the decoder give: [None] is an error of either. *)
Definition AwaitedReply : Type := option (option Reply).

Section checker.
Context `{NodeInfoCodec} (id : nat).

(** The bookkeeping for a new task, at time [now]. *)
Definition checker_register (s : Checker) (req : CheckerTask) : Checker * list ChkOut :=
  let alleged := if bool_decide (ck_alleged_leader s = "") && bool_decide (ct_executor_mode req = ExLeader)
                 then ct_wait_from req else ck_alleged_leader s in
  let '(s, out) :=
    match ck_out_of_order_byz_response s !! ct_id req with
    | Some byz_resp_time =>
        (mkChecker (ck_waiting_for_byz_response s) (delete (ct_id req) (ck_out_of_order_byz_response s)) alleged,
         if ct_start_time req <? byz_resp_time then [OutStat (ByzCommitLatency (byz_resp_time - ct_start_time req))] else [])
    | None =>
        (mkChecker (if bool_decide (ct_executor_mode req = ExLeader)
                    then <[ct_id req := req]> (ck_waiting_for_byz_response s) else ck_waiting_for_byz_response s)
           (ck_out_of_order_byz_response s) alleged, [])
    end in
  (s, out ++ if bool_decide (ct_executor_mode req = ExLeader)
             then [OutStat (ByzCommitPending id (size (ck_waiting_for_byz_response s)))] else []).

(** One byzantine response of a receipt, at time [now]. *)
Definition checker_byz (now : Z) (p : Checker * list ChkOut) (r : ProtoByzResponse) : Checker * list ChkOut :=
  let '(s, out) := p in
  match ck_waiting_for_byz_response s !! br_client_tag r with
  | Some task =>
      (mkChecker (delete (br_client_tag r) (ck_waiting_for_byz_response s)) (ck_out_of_order_byz_response s) (ck_alleged_leader s),
       out ++ [OutStat (ByzCommitLatency (now - ct_start_time task))])
  | None =>
      (mkChecker (ck_waiting_for_byz_response s) (<[br_client_tag r := now]> (ck_out_of_order_byz_response s)) (ck_alleged_leader s), out)
  end.

Fixpoint position (x : string) (l : list string) : option nat :=
  match l with
  | [] => None
  | y :: l' => if bool_decide (y = x) then Some 0%nat else S <$> position x l'
  end.

(** One task; [None] is the panic on malformed node information. *)
Definition checker_step (s : Checker) (req : CheckerTask) (now : Z) (res : AwaitedReply) : option (Checker * list ChkOut) :=
  let '(s, out) := checker_register s req in
  let again := OutResponse (CkTryAgain req None None) in
  match res with
  | None => Some (s, out ++ [again])
  | Some None => Some (s, out ++ [again])
  | Some (Some (Receipt receipt)) =>
      let out := out ++ [OutResponse (CkSuccess (ct_id req)); OutStat (CrashCommitLatency (now - ct_start_time req))] in
      Some (fold_left (checker_byz now) (rcpt_byz_responses receipt) (s, out))
  | Some (Some (TryAgain _)) => Some (s, out ++ [again])
  | Some (Some (TentativeReceipt _ _)) =>
      Some (s, out ++ [OutResponse (CkSuccess (ct_id req)); OutStat (CrashCommitLatency (now - ct_start_time req))])
  | Some (Some (Leader curr_leader infos)) =>
      names ← node_info_names infos;
      let node_list_vec := sort_names names in
      match position curr_leader node_list_vec with
      | None => Some (s, out ++ [again])
      | Some new_leader_id =>
          let s := if bool_decide (ck_alleged_leader s ≠ curr_leader) then mkChecker ∅ ∅ curr_leader else s in
          Some (s, out ++ [OutConfigNodes names; OutResponse (CkTryAgain req (Some node_list_vec) (Some new_leader_id))])
      end
  end.

End checker.

(** * The two tasks and their channels *)

Record Worker := mkWorker {
  w_gen : Generator;
  w_chk : Checker;
  w_backpressure : list CheckerResponse;
  w_tasks : list CheckerTask }.

(** [launch]: the backpressure channel is filled with [Success(0)]. *)
Definition launch (max nodes_id : nat) (nodes : list string) : option Worker :=
  g ← generator_new nodes nodes_id;
  Some (mkWorker g checker_new (replicate max (CkSuccess 0)) []).

Inductive WorkerEvent :=
  | EvGenerate (now : Z) (unit : WorkloadUnit) (fails : nat)
  | EvCheck (now : Z) (res : AwaitedReply).

Definition out_tasks (l : list GenOut) : list CheckerTask := omap (λ o, match o with OutTask t => Some t | _ => None end) l.
Definition out_tokens (l : list GenOut) : list CheckerResponse := omap (λ o, match o with OutToken r => Some r | _ => None end) l.
Definition out_responses (l : list ChkOut) : list CheckerResponse := omap (λ o, match o with OutResponse r => Some r | _ => None end) l.

(** A task that receives from an empty channel waits, and so does one that sends to a full
    one; a panic ends the worker. *)
Inductive StepResult := Stepped (w : Worker) | Waits | BlockedOnSend | Panicked.

Section worker.
Context `{PayloadCodec, NodeInfoCodec} (max : nat) (my_name : string) (id : nat).

Definition worker_step (w : Worker) (ev : WorkerEvent) : StepResult :=
  match ev with
  | EvGenerate now unit fails =>
      match w_backpressure w with
      | [] => Waits
      | resp :: rest =>
          match generator_step max my_name (w_gen w) resp now unit fails with
          | None => Panicked
          | Some (g, out) =>
              let bp := rest ++ out_tokens out in
              let tasks := w_tasks w ++ out_tasks out in
              if (max <? length bp)%nat || (max <? length tasks)%nat then BlockedOnSend
              else Stepped (mkWorker g (w_chk w) bp tasks)
          end
      end
  | EvCheck now res =>
      match w_tasks w with
      | [] => Waits
      | req :: rest =>
          match checker_step id (w_chk w) req now res with
          | None => Panicked
          | Some (c, out) =>
              let bp := w_backpressure w ++ out_responses out in
              if (max <? length bp)%nat then BlockedOnSend
              else Stepped (mkWorker (w_gen w) c bp rest)
          end
      end
  end.

(** A schedule of the two tasks; where it stands after it, or why it stopped. *)
Fixpoint worker_run (w : Worker) (evs : list WorkerEvent) : StepResult :=
  match evs with
  | [] => Stepped w
  | ev :: evs' =>
      match worker_step w ev with
      | Stepped w => worker_run w evs'
      | Waits => worker_run w evs'
      | r => r
      end
  end.

End worker.

(** * Proofs *)

(** [send_request] returns, keeps the leader in range, and at most empties the map. *)
Lemma send_request_spec fails g req :
  (g_curr_leader_id g < length (g_node_list g))%nat →
  ∃ g' req' out, send_request fails g req = Some (g', req', out) ∧
    g_total_requests g' = g_total_requests g ∧ g_node_list g' = g_node_list g ∧
    (g_curr_leader_id g' < length (g_node_list g'))%nat ∧ g_outstanding g' ⊆ g_outstanding g ∧
    or_id req' = or_id req ∧ out_tasks out = [] ∧ out_tokens out = [].
Proof.
  revert g req. induction fails as [|fails IH]; intros g req Hl; cbn [send_request].
  all: destruct (Nat.eqb_spec (length (g_node_list g)) 0) as [H0|H0]; [lia|].
  all: set (i := match or_executor_mode req with ExLeader => _ | ExAny => _ end).
  all: assert (i < length (g_node_list g))%nat as Hi
    by (subst i; destruct (or_executor_mode req); [done|by apply Nat.mod_upper_bound]).
  all: destruct (lookup_lt_is_Some_2 _ _ Hi) as [node ->]; cbn [mbind option_bind].
  - do 3 eexists. split; [done|]. by split_and!.
  - set (g1 := match _ with ExLeader => _ | ExAny => _ end).
    destruct (IH g1 (mkOutstanding (or_id req) (or_payload req) (or_executor_mode req) node (or_start_time req)))
      as (g' & req' & out & -> & H1 & H2 & H3 & H4 & H5 & H6 & H7).
    { subst g1. cbn. destruct (or_executor_mode req); cbn; [by apply Nat.mod_upper_bound|done]. }
    do 3 eexists. split; [done|]. subst g1. cbn in *.
    split_and!; try done; (destruct (or_executor_mode req); cbn in *; try done).
    all: etrans; [exact H4|]; apply map_empty_subseteq.
Qed.

(** The request a response is about; the initial tokens are about none. *)
Definition resp_id (r : CheckerResponse) : option Z :=
  match r with
  | CkTryAgain t _ _ => Some (ct_id t)
  | CkSuccess id => if id =? 0 then None else Some id
  end.

Definition resp_ok (r : CheckerResponse) : Prop :=
  match r with
  | CkTryAgain _ None None => True
  | CkTryAgain _ (Some names) (Some i) => (i < length names)%nat
  | CkTryAgain _ _ _ => False
  | CkSuccess _ => True
  end.

(** The requests whose token is not at the generator. *)
Definition inflight (tasks : list CheckerTask) (bp : list CheckerResponse) : list Z := map ct_id tasks ++ omap resp_id bp.

Record worker_inv (max : nat) (w : Worker) : Prop := {
  wi_tokens : (length (w_backpressure w) + length (w_tasks w) = max)%nat;
  wi_leader : (g_curr_leader_id (w_gen w) < length (g_node_list (w_gen w)))%nat;
  wi_resp : Forall resp_ok (w_backpressure w);
  wi_ids : NoDup (inflight (w_tasks w) (w_backpressure w));
  wi_range : Forall (λ i, 0 < i ≤ g_total_requests (w_gen w)) (inflight (w_tasks w) (w_backpressure w));
  wi_total : 0 ≤ g_total_requests (w_gen w);
  wi_out : ∀ i r, g_outstanding (w_gen w) !! i = Some r →
    or_id r = i ∧ i ∈ inflight (w_tasks w) (w_backpressure w) }.

(** Requests in flight with one response taken off the channel. *)
Lemma inflight_cons tasks resp bp :
  inflight tasks (resp :: bp) ≡ₚ option_list (resp_id resp) ++ inflight tasks bp.
Proof.
  unfold inflight. cbn. destruct (resp_id resp) as [i|]; cbn; [|done].
  rewrite Permutation_middle. done.
Qed.

Lemma inflight_task tasks t bp : inflight (tasks ++ [t]) bp ≡ₚ ct_id t :: inflight tasks bp.
Proof. unfold inflight. rewrite map_app, <-app_assoc. cbn. by rewrite <-Permutation_middle. Qed.

Lemma inflight_token tasks bp : inflight tasks (bp ++ [CkSuccess 0]) = inflight tasks bp.
Proof. unfold inflight. rewrite omap_app. cbn. by rewrite app_nil_r. Qed.

Lemma out_tasks_app l1 l2 : out_tasks (l1 ++ l2) = out_tasks l1 ++ out_tasks l2.
Proof. apply omap_app. Qed.
Lemma out_tokens_app l1 l2 : out_tokens (l1 ++ l2) = out_tokens l1 ++ out_tokens l2.
Proof. apply omap_app. Qed.

Lemma i32_incr_small z : 0 ≤ z < 2 ^ 31 - 1 → as_u64 (i32_incr z) = z + 1 ∧ i32_incr z = z + 1.
Proof. intros Hz. unfold as_u64, i32_incr. rewrite (Z.mod_small (z + 1 + 2 ^ 31)) by lia. rewrite Z.mod_small by lia. lia. Qed.

(** The map after a request was sent and registered: its entries are in flight. *)
Lemma send_request_registers fails g req L :
  (g_curr_leader_id g < length (g_node_list g))%nat →
  (∀ i r, g_outstanding g !! i = Some r → or_id r = i ∧ i ∈ L) →
  ∃ g' req' out, send_request fails g req = Some (g', req', out) ∧
    g_total_requests g' = g_total_requests g ∧ (g_curr_leader_id g' < length (g_node_list g'))%nat ∧
    or_id req' = or_id req ∧ out_tasks out = [] ∧ out_tokens out = [] ∧
    (∀ i r, <[or_id req' := req']> (g_outstanding g') !! i = Some r → or_id r = i ∧ i ∈ or_id req :: L).
Proof.
  intros Hl Ho. destruct (send_request_spec fails g req Hl) as (g' & req' & out & Hs & H1 & H2 & H3 & H4 & H5 & H6 & H7).
  exists g', req', out. split_and!; try done. intros i r [[<- <-]|[_ Hi]]%lookup_insert_Some.
  - split; [done|]. rewrite H5. left.
  - destruct (Ho i r) as [He Hin]; [by eapply lookup_weaken|]. split; [done|]. by right.
Qed.

(** One token more or less on each channel keeps them within capacity. *)
Lemma channels_have_room (max : nat) (bp : list CheckerResponse) (tasks : list CheckerTask) (out : list GenOut) :
  (length bp + length (out_tokens out) + (length tasks + length (out_tasks out)) ≤ max)%nat →
  (max <? length (bp ++ out_tokens out))%nat || (max <? length (tasks ++ out_tasks out))%nat = false.
Proof. intros Hl. rewrite !length_app. apply orb_false_iff. rewrite !Nat.ltb_ge. lia. Qed.

Section invariant.
Context `{PayloadCodec, NodeInfoCodec} (max : nat) (my_name : string) (id : nat).

(** What one iteration of the generator does to the requests in flight. *)
Record generated (g : Generator) (tasks : list CheckerTask) (bp : list CheckerResponse) (g' : Generator) (out : list GenOut) : Prop := {
  ge_leader : (g_curr_leader_id g' < length (g_node_list g'))%nat;
  ge_total : g_total_requests g ≤ g_total_requests g' ≤ g_total_requests g + 1;
  ge_token : (length (out_tokens out) + length (out_tasks out) = 1)%nat;
  ge_resp : Forall resp_ok (out_tokens out);
  ge_ids : NoDup (inflight (tasks ++ out_tasks out) (bp ++ out_tokens out));
  ge_range : Forall (λ i, 0 < i ≤ g_total_requests g') (inflight (tasks ++ out_tasks out) (bp ++ out_tokens out));
  ge_out : ∀ i r, g_outstanding g' !! i = Some r → or_id r = i ∧ i ∈ inflight (tasks ++ out_tasks out) (bp ++ out_tokens out) }.

(** A request sent and handed to the checker. *)
Lemma generated_task g tasks bp fails g1 req pre n total' :
  let L := inflight tasks bp in
  (g_curr_leader_id g1 < length (g_node_list g1))%nat → (∀ i r, g_outstanding g1 !! i = Some r → or_id r = i ∧ i ∈ L) →
  out_tasks pre = [] → out_tokens pre = [] → or_id req = n →
  NoDup L → n ∉ L → Forall (λ i, 0 < i ≤ total') (n :: L) → g_total_requests g ≤ total' ≤ g_total_requests g + 1 →
  ∃ g2 req' out, send_request fails g1 req = Some (g2, req', out) ∧ g_total_requests g2 = g_total_requests g1 ∧
    generated g tasks bp
      (mkGenerator (<[or_id req' := req']> (g_outstanding g2)) total' (g_node_list g2)
         (g_curr_leader_id g2) (g_curr_round_robin_id g2) (g_complaining g2))
      (pre ++ out ++ [OutTask (get_checker_task req')]).
Proof.
  intros L Hl Ho Hp1 Hp2 Hn Hnd Hnin Hr Ht.
  destruct (send_request_registers fails g1 req L Hl Ho) as (g' & req' & out & Hs & H1 & H2 & H3 & H4 & H5 & H6).
  exists g', req', out. split; [done|]. split; [done|].
  assert (out_tasks (pre ++ out ++ [OutTask (get_checker_task req')]) = [get_checker_task req']) as Et
    by by rewrite !out_tasks_app, Hp1, H4.
  assert (out_tokens (pre ++ out ++ [OutTask (get_checker_task req')]) = []) as Ek by by rewrite !out_tokens_app, Hp2, H5.
  assert (inflight (tasks ++ [get_checker_task req']) bp ≡ₚ n :: L) as Hperm
    by by rewrite inflight_task; cbn; rewrite H3, Hn.
  split; rewrite ?Et, ?Ek, ?app_nil_r; cbn [g_curr_leader_id g_node_list g_total_requests g_outstanding length]; rewrite ?Hperm; try done.
  - by constructor.
  - intros i r Hi. rewrite Hperm, <-Hn. by apply H6.
Qed.

Lemma generator_success g sid bp tasks now unit fails :
  let L := inflight tasks bp in
  (g_curr_leader_id g < length (g_node_list g))%nat → 0 ≤ g_total_requests g < 2 ^ 31 - 1 →
  NoDup L → Forall (λ i, 0 < i ≤ g_total_requests g) L →
  (∀ i r, g_outstanding g !! i = Some r → or_id r = i ∧ (i = sid ∨ i ∈ L)) →
  ∃ g' out, generator_step max my_name g (CkSuccess sid) now unit fails = Some (g', out) ∧ generated g tasks bp g' out.
Proof.
  intros L Hl Ht Hnd Hr Ho. cbn [generator_step]. destruct (i32_incr_small (g_total_requests g) Ht) as [Hid Hinc]. rewrite Hid.
  set (req := mkOutstanding _ _ _ _ _). set (g1 := mkGenerator _ _ _ _ _ _).
  destruct (generated_task g tasks bp fails g1 req [] (g_total_requests g + 1) (g_total_requests g + 1))
    as (g2 & req' & out & -> & Htot & Hgen); try done; try lia.
  - cbn. intros i r [Hne Hi]%lookup_delete_Some. destruct (Ho i r Hi) as [He [Hs|Hin]]; [congruence|done].
  - intros Hin. rewrite Forall_forall in Hr. apply Hr in Hin. lia.
  - constructor; [lia|]. eapply Forall_impl; [exact Hr|]. cbn. lia.
  - cbn [mbind option_bind]. rewrite Htot. cbn [g1 g_total_requests]. rewrite Hinc. eauto.
Qed.

Lemma generator_try_again g task nv leader bp tasks now unit fails :
  let L := inflight tasks bp in
  (g_curr_leader_id g < length (g_node_list g))%nat → resp_ok (CkTryAgain task nv leader) →
  NoDup L → ct_id task ∉ L → Forall (λ i, 0 < i ≤ g_total_requests g) (ct_id task :: L) →
  (∀ i r, g_outstanding g !! i = Some r → or_id r = i ∧ (i = ct_id task ∨ i ∈ L)) →
  ∃ g' out, generator_step max my_name g (CkTryAgain task nv leader) now unit fails = Some (g', out) ∧ generated g tasks bp g' out.
Proof.
  intros L Hl Hok Hnd Hnin Hr Ho. cbn [generator_step].
  set (bo := match leader with None => _ | Some _ => _ end). destruct bo as [complaining backoff] eqn:Hbo.
  assert (out_tasks backoff = [] ∧ out_tokens backoff = []) as [Hb1 Hb2].
  { subst bo. destruct leader; simplify_eq; [done|]. by destruct (g_complaining g =? 0)%nat. }
  destruct (lookup_lt_is_Some_2 _ _ Hl) as [old ->]. cbn [mbind option_bind].
  set (lid := match leader with Some l => l | None => _ end). set (nodes := match nv with Some l => l | None => _ end).
  assert (lid < length nodes)%nat as Hlid by (subst lid nodes; destruct nv, leader; cbn in Hok; done).
  destruct (lookup_lt_is_Some_2 _ _ Hlid) as [new ->]. cbn [mbind option_bind].
  set (O := if bool_decide (old ≠ new) then ∅ else g_outstanding g).
  assert (∀ i r, O !! i = Some r → or_id r = i ∧ (i = ct_id task ∨ i ∈ L)) as HO
    by (subst O; case_bool_decide; [intros ? ? Hi; by rewrite lookup_empty in Hi|done]).
  set (g1 := mkGenerator _ _ _ _ _ _).
  assert (∀ i r, g_outstanding g1 !! i = Some r → or_id r = i ∧ i ∈ L) as Ho1.
  { cbn. intros i r [Hne Hi]%lookup_delete_Some. destruct (HO i r Hi) as [He [Hs|Hin]]; [congruence|done]. }
  destruct (O !! ct_id task) as [req|] eqn:Hreq.
  - destruct (generated_task g tasks bp fails g1 req backoff (ct_id task) (g_total_requests g))
      as (g2 & req' & out & -> & Htot & Hgen); try done; [by apply (HO (ct_id task))|lia|].
    cbn [mbind option_bind]. rewrite Htot. cbn [g1 g_total_requests]. eauto.
  - do 2 eexists. split; [done|].
    assert (out_tokens (backoff ++ [OutToken (CkSuccess 0)]) = [CkSuccess 0]) as Ek by by rewrite out_tokens_app, Hb2.
    assert (out_tasks (backoff ++ [OutToken (CkSuccess 0)]) = []) as Et by by rewrite out_tasks_app, Hb1.
    apply Forall_cons_1 in Hr as [_ Hr]. split; rewrite ?Et, ?Ek, ?app_nil_r, ?inflight_token; try done; [cbn; lia|].
    by constructor.
Qed.

Lemma generator_step_spec g resp bp tasks now unit fails :
  (g_curr_leader_id g < length (g_node_list g))%nat → resp_ok resp →
  0 ≤ g_total_requests g < 2 ^ 31 - 1 →
  NoDup (inflight tasks (resp :: bp)) → Forall (λ i, 0 < i ≤ g_total_requests g) (inflight tasks (resp :: bp)) →
  (∀ i r, g_outstanding g !! i = Some r → or_id r = i ∧ i ∈ inflight tasks (resp :: bp)) →
  ∃ g' out, generator_step max my_name g resp now unit fails = Some (g', out) ∧ generated g tasks bp g' out.
Proof.
  intros Hl Hok Ht Hnd Hr Ho. rewrite inflight_cons in Hnd, Hr. apply NoDup_app in Hnd as (_ & Hdis & Hnd).
  apply Forall_app in Hr as [Hri Hr].
  assert (∀ i r, g_outstanding g !! i = Some r → or_id r = i ∧ (resp_id resp = Some i ∨ i ∈ inflight tasks bp)) as Ho'.
  { intros i r Hi. destruct (Ho i r Hi) as [He Hin]. split; [done|]. rewrite inflight_cons in Hin.
    apply elem_of_app in Hin as [Hin|Hin]; [left|by right]. destruct (resp_id resp); cbn in Hin; [|by apply not_elem_of_nil in Hin].
    by apply list_elem_of_singleton in Hin as ->. }
  destruct resp as [task nv leader|sid]; cbn in Ho'.
  - apply generator_try_again; try done.
    + apply Hdis. left.
    + constructor; [by apply Forall_inv in Hri|done].
    + intros i r Hi. destruct (Ho' i r Hi) as [He [Hs|Hin]]; [|by auto]. split; [done|]. left. congruence.
  - apply generator_success; try done. intros i r Hi. destruct (Ho' i r Hi) as [He [Hs|Hin]]; [|by auto].
    split; [done|]. left. destruct (sid =? 0); congruence.
Qed.

(** One task of the checker gives one response, about that task. *)
Definition reply_parses (res : AwaitedReply) : Prop :=
  ∀ l infos, res = Some (Some (Leader l infos)) → is_Some (node_info_names infos).

Lemma position_lt x l i : position x l = Some i → (i < length l)%nat.
Proof.
  revert i. induction l as [|y l IH]; intros i; cbn; [done|]. case_bool_decide; [intros [= <-]; lia|].
  destruct (position x l) as [j|]; cbn; [|done]. intros [= <-]. specialize (IH j eq_refl). lia.
Qed.

Lemma out_responses_app l1 l2 : out_responses (l1 ++ l2) = out_responses l1 ++ out_responses l2.
Proof. apply omap_app. Qed.

Lemma checker_byz_responses now rs p : out_responses (fold_left (checker_byz now) rs p).2 = out_responses p.2.
Proof.
  revert p. induction rs as [|r rs IH]; intros [s out]; [done|]. cbn [fold_left]. rewrite IH. unfold checker_byz.
  destruct (_ !! _); cbn; [|done]. rewrite out_responses_app. cbn. apply app_nil_r.
Qed.

Lemma checker_register_responses s req : out_responses (checker_register id s req).2 = [].
Proof.
  unfold checker_register. destruct (_ !! ct_id req); cbn [snd]; rewrite out_responses_app; repeat case_match; done.
Qed.

Lemma checker_step_spec s req now res :
  reply_parses res → ∃ c out resp, checker_step id s req now res = Some (c, out) ∧ out_responses out = [resp] ∧
    resp_ok resp ∧ (resp_id resp = Some (ct_id req) ∨ ct_id req = 0).
Proof.
  intros Hp. unfold checker_step. pose proof (checker_register_responses s req) as Hr.
  destruct (checker_register id s req) as [s1 out1]. cbn [snd] in Hr.
  assert (resp_id (CkSuccess (ct_id req)) = Some (ct_id req) ∨ ct_id req = 0) as Hs
    by (cbn; destruct (Z.eqb_spec (ct_id req) 0); auto).
  assert (∀ l, out_responses (out1 ++ l) = out_responses l) as Hout by (intros l; by rewrite out_responses_app, Hr).
  destruct res as [[[rcpt|infos|l infos|bn tn]|]|];
    try (do 3 eexists; split; [done|]; rewrite Hout; cbn; split; [done|]; split; [done|by auto]).
  - destruct (fold_left _ _ _) as [c out] eqn:Hf. exists c, out, (CkSuccess (ct_id req)). split; [done|].
    assert (out = (fold_left (checker_byz now) (rcpt_byz_responses rcpt)
      (s1, out1 ++ [OutResponse (CkSuccess (ct_id req)); OutStat (CrashCommitLatency (now - ct_start_time req))])).2) as ->
      by by rewrite Hf.
    rewrite checker_byz_responses. cbn [snd]. by rewrite Hout.
  - destruct (Hp l infos eq_refl) as [names ->]. cbn [mbind option_bind].
    destruct (position l (sort_names names)) as [i|] eqn:Hpos; do 3 eexists; (split; [done|]); rewrite Hout; cbn;
      (split; [done|]); (split; [|by auto]); [by eapply position_lt|done].
Qed.

Lemma worker_inv_step w ev :
  worker_inv max w → g_total_requests (w_gen w) < 2 ^ 31 - 1 →
  (∀ now res, ev = EvCheck now res → reply_parses res) →
  worker_step max my_name id w ev = Waits ∨
  ∃ w', worker_step max my_name id w ev = Stepped w' ∧ worker_inv max w' ∧
        g_total_requests (w_gen w') ≤ g_total_requests (w_gen w) + 1.
Proof.
  intros [I1 I2 I3 I4 I5 I6 I7] Ht Hp. destruct ev as [now unit fails|now res]; cbn [worker_step].
  - destruct (w_backpressure w) as [|resp bp] eqn:Hbp; [by left|right]. apply Forall_cons_1 in I3 as [Hok I3].
    destruct (generator_step_spec (w_gen w) resp bp (w_tasks w) now unit fails I2 Hok (conj I6 Ht) I4 I5 I7)
      as (g' & out & -> & [H1 H2 H3 H4 H5 H6 H7]).
    cbn [length] in I1. rewrite channels_have_room by lia.
    eexists. split; [done|]. split; [|cbn; lia]. split; cbn; try done.
    + rewrite !length_app. lia.
    + by apply Forall_app.
    + lia.
  - destruct (w_tasks w) as [|req tasks] eqn:Htk; [by left|right].
    destruct (checker_step_spec (w_chk w) req now res (Hp now res eq_refl)) as (c & out & resp & -> & Hout & Hok & Hid).
    rewrite Hout. cbn [length] in I1. rewrite length_app. cbn [length].
    destruct (Nat.ltb_spec max (length (w_backpressure w) + 1)) as [Hlt|_]; [lia|].
    assert (inflight tasks (w_backpressure w ++ [resp]) ≡ₚ inflight (req :: tasks) (w_backpressure w)) as Hperm.
    { destruct Hid as [Hid|Hz].
      - unfold inflight. rewrite omap_app. cbn. rewrite Hid. cbn. by rewrite app_assoc, <-Permutation_cons_append.
      - rewrite Forall_forall in I5. specialize (I5 (ct_id req)). rewrite Hz in I5. destruct I5; [|lia].
        unfold inflight. cbn. rewrite Hz. left. }
    eexists. split; [done|]. split; [|cbn; lia]. split; cbn; rewrite ?Hperm; try done.
    + rewrite length_app. cbn. lia.
    + apply Forall_app. split; [done|]. by constructor.
    + intros i r Hi. rewrite Hperm. by apply I7.
Qed.

Lemma worker_inv_run evs w :
  worker_inv max w → g_total_requests (w_gen w) + Z.of_nat (length evs) < 2 ^ 31 →
  Forall (λ ev, ∀ now res, ev = EvCheck now res → reply_parses res) evs →
  ∃ w', worker_run max my_name id w evs = Stepped w' ∧ worker_inv max w'.
Proof.
  intros Hi Ht Hp. revert w Hi Ht. induction Hp as [|ev evs Hev Hp IH]; intros w Hi Ht; [by exists w|].
  cbn [worker_run length] in *. destruct (worker_inv_step w ev Hi ltac:(lia) Hev) as [->|(w' & -> & Hi' & Hle)];
    apply IH; try done; lia.
Qed.

(** The requests of the map are in flight, so there are no more of them than tokens. *)
Lemma outstanding_bound w : worker_inv max w → (size (g_outstanding (w_gen w)) ≤ max)%nat.
Proof.
  intros [I1 _ _ I4 _ _ I7]. rewrite <-(size_dom (D := gset Z)). transitivity (length (inflight (w_tasks w) (w_backpressure w))).
  - rewrite <-(size_list_to_set (C := gset Z)) by done. apply subseteq_size. intros i [r Hr]%elem_of_dom.
    apply elem_of_list_to_set. by apply (I7 i r).
  - unfold inflight. rewrite length_app, length_map. 
    assert (length (omap resp_id (w_backpressure w)) ≤ length (w_backpressure w))%nat; [|lia].
    clear. induction (w_backpressure w) as [|r l IH]; cbn; [done|]. destruct (resp_id r); cbn; lia.
Qed.

(** The client's flow control works.  Under any schedule of the two tasks, any replies,
    failures and changes of leader, for fewer than [2^31] steps: the worker never panics
    and neither task is ever blocked on a full channel; the tokens are conserved, so at
    most [max_concurrent_requests] requests are in flight, under distinct client tags; and
    the map of outstanding requests holds no more than that. *)
Lemma worker_flow_control (nodes : list string) (evs : list WorkerEvent) :
  nodes ≠ [] → Z.of_nat (length evs) < 2 ^ 31 →
  Forall (λ ev, ∀ now res, ev = EvCheck now res → reply_parses res) evs →
  ∃ w0 w, launch max id nodes = Some w0 ∧ worker_run max my_name id w0 evs = Stepped w ∧
    (length (w_backpressure w) + length (w_tasks w) = max)%nat ∧
    NoDup (map ct_id (w_tasks w)) ∧ (size (g_outstanding (w_gen w)) ≤ max)%nat.
Proof.
  intros Hn Hl Hp. destruct nodes as [|n nodes]; [done|].
  set (g0 := mkGenerator ∅ 0 (sort_names (n :: nodes)) 0 (id mod length (n :: nodes)) 0).
  assert (worker_inv max (mkWorker g0 checker_new (replicate max (CkSuccess 0)) [])) as Hi.
  { assert (omap resp_id (replicate max (CkSuccess 0)) = []) as Hnil by (clear; induction max; [done|done]).
    split; cbn -[sort_names]; unfold inflight; rewrite ?Hnil; try done.
    - rewrite length_replicate. lia.
    - unfold sort_names. rewrite merge_sort_Permutation. cbn. lia.
    - by apply Forall_replicate.
    - constructor. }
  destruct (worker_inv_run evs _ Hi) as (w & Hrun & Hw); [cbn; lia|done|].
  eexists _, w. split; [done|]. split; [exact Hrun|]. pose proof (outstanding_bound w Hw) as Hb.
  destruct Hw as [I1 _ _ I4 _ _ _]. split_and!; try done. by apply NoDup_app in I4 as [? _].
Qed.

End invariant.

(** Two tokens; one request succeeds, one is refused by a node that is not the leader. *)
Lemma worker_flow_control_witness :
  let PC := toy_payload_codec in
  let NC := {| node_info_names := λ _, Some ["n2"; "n1"]%string |} in
  let unit := mkWorkloadUnit (mkTx None None None false false) ExLeader in
  let evs := [EvGenerate 1 unit 0; EvGenerate 2 unit 1; EvCheck 5 (Some (Some (TentativeReceipt 1 0)));
              EvCheck 6 (Some (Some (Leader "n2" ""))); EvGenerate 7 unit 0; EvGenerate 8 unit 0] in
  ∃ w0 w, launch 2 0 ["n1"; "n2"] = Some w0 ∧ worker_run 2 "client1" 0 w0 evs = Stepped w ∧
    (length (w_backpressure w) + length (w_tasks w) = 2)%nat ∧
    NoDup (map ct_id (w_tasks w)) ∧ (size (g_outstanding (w_gen w)) ≤ 2)%nat.
Proof.
  intros PC NC unit evs. apply (worker_flow_control 2 "client1" 0 ["n1"; "n2"]%string evs).
  - done.
  - cbn. lia.
  - apply Forall_true. intros ev now res _ l infos _. by eexists.
Defined.
