(* ===== verification/Workload.v ===== *)
(** The workload generators of the client (src/src/client/workload_generators): blank
    transactions, the mock SQL script, uniform key-value reads and writes, and YCSB.  The
    draws of the random generators are arguments, each with the range its distribution has;
    the ratios of a configuration are the integer weights the code makes of them. *)

From stdpp Require Import base numbers list gmap strings option pretty.
From S2P Require Import Prelude Types Serialize Kvs ClientWorker.

Definition usize_to_string (n : nat) : string := pretty (N.of_nat n).

Definition phase_of (ops : list ProtoTransactionOp) : option ProtoTransactionPhase := Some (mkPhase ops).
Definition op_of (t : ProtoTransactionOpType) (l : list bytes) : ProtoTransactionOp := mkOp (op_type_to_i32 t) l.

Definition tx_unlogged (ops : list ProtoTransactionOp) : ProtoTransaction := mkTx (phase_of ops) None None false false.
Definition tx_crash (ops : list ProtoTransactionOp) : ProtoTransaction := mkTx None (phase_of ops) None false false.
Definition tx_byz (ops : list ProtoTransactionOp) : ProtoTransaction := mkTx None None (phase_of ops) false false.

(** * blanks.rs, mocksql.rs *)

(** [payload] are the 512 random bytes. *)
Definition blank_next (payload : bytes) : WorkloadUnit := mkWorkloadUnit (tx_crash [op_of Noop [payload]]) ExLeader.

(** The state is [query_num]. *)
Definition mocksql_next (query_num : nat) : nat * WorkloadUnit :=
  let query :=
    (match query_num with
     | 0%nat => "CREATE TABLE foo(id INT PRIMARY KEY, num INT);"
     | 1%nat => "INSERT INTO foo VALUES (1, 1);"
     | n => if Nat.even n then "UPDATE foo SET num = num + 1;" else "SELECT * FROM foo;"
     end)%string in
  (S query_num, mkWorkloadUnit (tx_crash [op_of Custom [String.list_byte_of_string query]]) ExLeader).

(** * kv_uniform.rs *)

Inductive UniformOpType := UoRead | UoWriteCrash | UoWriteByz.

Record KVUniform := mkKVUniform {
  ku_num_keys : nat;
  ku_val_size : nat;
  ku_sample_item : list (UniformOpType * Z) }.

Definition weight_ok (w : Z) : bool := (0 <=? w) && (w <=? 1000).

(** [None] is a panic: a weight out of range, weights that are all zero, or no keys. *)
Definition kv_uniform_new (read_w byz_w crash_w : Z) (num_keys val_size : nat) : option KVUniform :=
  let items := [(UoRead, read_w); (UoWriteByz, byz_w); (UoWriteCrash, crash_w)] in
  if negb (forallb (λ e, weight_ok e.2) items) then None
  else if forallb (λ e, e.2 =? 0) items then None
  else if (num_keys =? 0)%nat then None
  else Some (mkKVUniform num_keys val_size items).

Definition uniform_key (key_num : nat) : bytes := String.list_byte_of_string ("key:" +:+ usize_to_string key_num).

(** The index drawn from the weights and the key number drawn below [num_keys]. *)
Definition kv_uniform_next (g : KVUniform) (op_draw key_draw : nat) : option WorkloadUnit :=
  '(next_op, _) ← ku_sample_item g !! op_draw;
  let key := uniform_key key_draw in
  let val := zeros (ku_val_size g) in
  Some match next_op with
       | UoRead => mkWorkloadUnit (tx_unlogged [op_of Read [key]]) ExAny
       | UoWriteCrash => mkWorkloadUnit (tx_crash [op_of Write [key; val]]) ExLeader
       | UoWriteByz => mkWorkloadUnit (tx_byz [op_of Write [key; val]]) ExLeader
       end.

(** * kv_ycsb.rs *)

Inductive YcsbOpType := YoRead | YoUpdate.
Inductive YcsbPhaseType := YpCrash | YpByz.

Record KVReadWriteYCSB := mkYcsbConfig {
  yc_num_keys : nat;
  yc_num_fields : nat;
  yc_val_size : nat;
  yc_linearizable_reads : bool;
  yc_load_phase : bool }.

Record YCSB := mkYcsb {
  yg_config : KVReadWriteYCSB;
  yg_read_write_weights : list (YcsbOpType * Z);
  yg_crash_byz_weights : list (YcsbPhaseType * Z);
  yg_last_request_type : YcsbOpType;
  yg_load_phase_cnt : nat;
  yg_total_clients : nat }.

Definition ycsb_new (c : KVReadWriteYCSB) (read_w update_w byz_w crash_w : Z) (client_idx total_clients : nat) : option YCSB :=
  if negb (weight_ok read_w && weight_ok update_w && weight_ok byz_w && weight_ok crash_w) then None
  else if (read_w =? 0) && (update_w =? 0) || (byz_w =? 0) && (crash_w =? 0) then None
  else if (yc_num_keys c =? 0)%nat then None
  else Some (mkYcsb c [(YoRead, read_w); (YoUpdate, update_w)] [(YpByz, byz_w); (YpCrash, crash_w)] YoRead client_idx total_clients).

Definition get_key_str_from_num (num : nat) : string := "user" +:+ usize_to_string num.
Definition get_field_str_from_num (num : nat) : string := ":field" +:+ usize_to_string num.

Definition KEY_OFFSET : nat := Z.to_nat 1000000.

Definition transform_key_num (c : KVReadWriteYCSB) (key_num : nat) : nat :=
  ((if (yc_num_keys c <=? key_num)%nat then yc_num_keys c - 1 else key_num) + KEY_OFFSET)%nat.

(** The key of field [i] of the record [num]. *)
Definition field_key (num i : nat) : bytes := String.list_byte_of_string (get_key_str_from_num num +:+ get_field_str_from_num i).

(** [vals i] is the value drawn for field [i]. *)
Definition read_ops (c : KVReadWriteYCSB) (num : nat) : list ProtoTransactionOp :=
  map (λ i, op_of Read [field_key num i]) (seq 0 (yc_num_fields c)).
Definition write_ops (c : KVReadWriteYCSB) (num : nat) (vals : nat → bytes) : list ProtoTransactionOp :=
  map (λ i, op_of Write [field_key num i; vals i]) (seq 0 (yc_num_fields c)).

Definition load_phase_next (g : YCSB) (vals : nat → bytes) : YCSB * WorkloadUnit :=
  let num := transform_key_num (yg_config g) (yg_load_phase_cnt g) in
  (mkYcsb (yg_config g) (yg_read_write_weights g) (yg_crash_byz_weights g) YoUpdate
     (yg_load_phase_cnt g + yg_total_clients g) (yg_total_clients g),
   mkWorkloadUnit (tx_crash (write_ops (yg_config g) num vals)) ExLeader).

(** The draws of a request: which operation, which phase, which key, which values. *)
Definition run_phase_next (g : YCSB) (op_draw phase_draw zipf_draw : nat) (vals : nat → bytes) : option (YCSB * WorkloadUnit) :=
  let c := yg_config g in
  '(next_op, _) ← yg_read_write_weights g !! op_draw;
  '(phase, _) ← yg_crash_byz_weights g !! phase_draw;
  let num := transform_key_num c zipf_draw in
  let tx := match next_op with
            | YoRead =>
                if yc_linearizable_reads c then
                  match phase with YpCrash => tx_crash (read_ops c num) | YpByz => tx_byz (read_ops c num) end
                else tx_unlogged (read_ops c num)
            | YoUpdate =>
                match phase with YpCrash => tx_crash (write_ops c num vals) | YpByz => tx_byz (write_ops c num vals) end
            end in
  let executor := match next_op with
                  | YoRead => if yc_linearizable_reads c then ExLeader else ExAny
                  | YoUpdate => ExLeader
                  end in
  Some (mkYcsb c (yg_read_write_weights g) (yg_crash_byz_weights g) next_op (yg_load_phase_cnt g) (yg_total_clients g),
        mkWorkloadUnit tx executor).

Definition ycsb_next (g : YCSB) (op_draw phase_draw zipf_draw : nat) (vals : nat → bytes) : option (YCSB * WorkloadUnit) :=
  if yc_load_phase (yg_config g) && (yg_load_phase_cnt g <? yc_num_keys (yg_config g))%nat
  then Some (load_phase_next g vals)
  else run_phase_next g op_draw phase_draw zipf_draw vals.

(** [check_result]: the verdict, and the end of the load phase. *)
Definition ycsb_check_result (g : YCSB) (result : option ProtoTransactionResult) : YCSB * bool :=
  let c := yg_config g in
  match yg_last_request_type g with
  | YoRead =>
      (g, match result with
          | None => false
          | Some r =>
              (length (tx_result r) =? yc_num_fields c)%nat &&
              forallb (λ res, match op_values res with v :: _ => (length v =? yc_val_size c)%nat | [] => false end) (tx_result r)
          end)
  | YoUpdate =>
      (if yc_load_phase c && (yc_num_keys c <=? yg_load_phase_cnt g)%nat
       then mkYcsb (mkYcsbConfig (yc_num_keys c) (yc_num_fields c) (yc_val_size c) (yc_linearizable_reads c) false)
              (yg_read_write_weights g) (yg_crash_byz_weights g) (yg_last_request_type g) (yg_load_phase_cnt g) (yg_total_clients g)
       else g, true)
  end.

(** [check_result] of the uniform generator, for the type of the last request. *)
Definition kv_uniform_check_result (last : UniformOpType) (result : option ProtoTransactionResult) : bool :=
  match last with
  | UoRead => match result with Some r => negb (length (tx_result r) =? 0)%nat | None => false end
  | _ => true
  end.

(** * What is loaded, and what is asked for *)

(** The requests of the load phase; [vals k i] is the value drawn for field [i] of the
    record loaded when the counter is [k]. *)
Fixpoint load_txs (fuel : nat) (g : YCSB) (vals : nat → nat → bytes) : list WorkloadUnit :=
  match fuel with
  | O => []
  | S fuel' =>
      if yc_load_phase (yg_config g) && (yg_load_phase_cnt g <? yc_num_keys (yg_config g))%nat then
        let '(g', u) := load_phase_next g (vals (yg_load_phase_cnt g)) in
        u :: load_txs fuel' g' vals
      else []
  end.

(** The keys a transaction names. *)
Definition phase_keys (p : option ProtoTransactionPhase) : list bytes :=
  match p with Some p => omap (λ o, head (operands o)) (phase_ops p) | None => [] end.
Definition tx_keys (tx : ProtoTransaction) : list bytes :=
  phase_keys (on_receive tx) ++ phase_keys (on_crash_commit tx) ++ phase_keys (on_byzantine_commit tx).

(** The counters of client [i] of [c]. *)
Fixpoint stride (fuel i c n : nat) : list nat :=
  match fuel with
  | O => []
  | S fuel' => if (i <? n)%nat then i :: stride fuel' (i + c) c n else []
  end.

Lemma stride_spec fuel i c n k :
  (0 < c)%nat → (n ≤ i + fuel)%nat →
  k ∈ stride fuel i c n ↔ (i ≤ k < n)%nat ∧ (k mod c = i mod c)%nat.
Proof.
  intros Hc. revert i. induction fuel as [|fuel IH]; intros i Hf; cbn [stride].
  - split; [intros Hin; by apply not_elem_of_nil in Hin|lia].
  - destruct (Nat.ltb_spec i n) as [Hlt|Hge]; [|split; [intros Hin; by apply not_elem_of_nil in Hin|lia]].
    rewrite elem_of_cons, IH by lia. rewrite Nat.Div0.add_mod, Nat.Div0.mod_same, Nat.add_0_r, Nat.Div0.mod_mod.
    split; [intros [->|[? ?]]; [done|lia]|]. intros [Hk Hm]. destruct (decide (k = i)) as [->|Hne]; [by left|right].
    split; [|done]. split; [|lia]. apply Nat.nlt_ge. intros Hlt'.
    pose proof (Nat.div_mod_eq k c). pose proof (Nat.div_mod_eq i c). rewrite Hm in *.
    assert (k / c = i / c ∨ i / c + 1 ≤ k / c)%nat as [Hd|Hd] by (assert (i / c ≤ k / c)%nat by (apply Nat.Div0.div_le_mono; lia); lia); [rewrite Hd in *; lia|nia].
Qed.

Lemma stride_NoDup fuel i c n : (0 < c)%nat → NoDup (stride fuel i c n).
Proof.
  intros Hc. revert i. induction fuel as [|fuel IH]; intros i; cbn [stride]; [constructor|].
  destruct (i <? n)%nat; [|constructor]. constructor; [|apply IH].
  assert (∀ f j, (i < j)%nat → i ∉ stride f j c n) as Hlt; [|apply Hlt; lia].
  induction f as [|f IHf]; intros j Hj; cbn [stride]; [apply not_elem_of_nil|].
  destruct (j <? n)%nat; [|apply not_elem_of_nil]. apply not_elem_of_cons. split; [lia|]. apply IHf. lia.
Qed.

Lemma load_txs_stride fuel g vals :
  yc_load_phase (yg_config g) = true →
  load_txs fuel g vals =
    map (λ k, mkWorkloadUnit (tx_crash (write_ops (yg_config g) (k + KEY_OFFSET) (vals k))) ExLeader)
      (stride fuel (yg_load_phase_cnt g) (yg_total_clients g) (yc_num_keys (yg_config g))).
Proof.
  revert g. induction fuel as [|fuel IH]; intros g Hl; [done|]. cbn [load_txs stride]. rewrite Hl. cbn [andb].
  destruct (Nat.ltb_spec (yg_load_phase_cnt g) (yc_num_keys (yg_config g))) as [Hlt|Hge]; [|done].
  cbn [load_phase_next]. unfold load_phase_next. rewrite IH by done. cbn [map yg_config yg_load_phase_cnt yg_total_clients].
  unfold transform_key_num. by rewrite (proj2 (Nat.leb_gt _ _)) by done.
Qed.

Lemma phase_keys_ops t c num (args : nat → list bytes) :
  phase_keys (phase_of (map (λ i, op_of t (field_key num i :: args i)) (seq 0 (yc_num_fields c)))) =
    map (field_key num) (seq 0 (yc_num_fields c)).
Proof. unfold phase_keys, phase_of. cbn. induction (seq 0 (yc_num_fields c)) as [|i l IH]; [done|]. cbn. by f_equal. Qed.

(** The YCSB workload loads every record once and asks only for loaded records.  With
    [total] clients, the requests of client [i]'s load phase write, each once and with all
    their fields, exactly the records whose number is [i] modulo [total], so together the
    clients load every record once; and whatever is drawn in the run phase, a request
    names exactly the fields of one loaded record. *)
Lemma ycsb_reads_what_it_loads (c : KVReadWriteYCSB) (rw uw bw cw : Z) (i total : nat) (g : YCSB) (vals : nat → nat → bytes) :
  (0 < total)%nat → (i < total)%nat → yc_load_phase c = true → ycsb_new c rw uw bw cw i total = Some g →
  (∃ ks, load_txs (yc_num_keys c) g vals =
           map (λ k, mkWorkloadUnit (tx_crash (write_ops c (k + KEY_OFFSET) (vals k))) ExLeader) ks ∧
         NoDup ks ∧ ∀ k, k ∈ ks ↔ (k < yc_num_keys c)%nat ∧ (k mod total = i)%nat) ∧
  ∀ op_draw phase_draw zipf_draw v g' u,
    run_phase_next g op_draw phase_draw zipf_draw v = Some (g', u) →
    ∃ k, (k < yc_num_keys c)%nat ∧ tx_keys (wu_tx u) = map (field_key (k + KEY_OFFSET)) (seq 0 (yc_num_fields c)) ∧
         (wu_executor u = ExAny ↔ is_Some (on_receive (wu_tx u))).
Proof.
  intros Ht Hi Hl. unfold ycsb_new. destruct (negb _); [done|]. destruct (_ || _); [done|].
  destruct (Nat.eqb_spec (yc_num_keys c) 0) as [|Hn]; [done|]. intros [= <-]. split.
  - eexists. split; [by apply load_txs_stride|]. cbn [yg_config yg_load_phase_cnt yg_total_clients].
    split; [by apply stride_NoDup|]. intros k. rewrite stride_spec by lia. rewrite (Nat.mod_small i) by done.
    split; [|intros [? <-]]; [intuition lia|]. split; [|done]. split; [apply Nat.Div0.mod_le|done].
  - intros op_draw phase_draw zipf_draw v g' u. unfold run_phase_next. cbn [yg_config yg_read_write_weights yg_crash_byz_weights].
    destruct (_ !! op_draw) as [[next_op w1]|]; [|done]. cbn [mbind option_bind].
    destruct (_ !! phase_draw) as [[phase w2]|]; [|done]. cbn [mbind option_bind]. intros [= <- <-].
    exists (if (yc_num_keys c <=? zipf_draw)%nat then (yc_num_keys c - 1)%nat else zipf_draw).
    split; [destruct (Nat.leb_spec (yc_num_keys c) zipf_draw); lia|]. fold (transform_key_num c zipf_draw).
    unfold tx_keys, read_ops, write_ops. destruct next_op; [destruct (yc_linearizable_reads c)|]; [destruct phase| |destruct phase];
      cbn [wu_tx wu_executor tx_crash tx_byz tx_unlogged on_receive on_crash_commit on_byzantine_commit];
      (split; [cbn [phase_keys app]; rewrite ?app_nil_r; apply phase_keys_ops|]); split; try done; by intros [? ?].
Qed.

Lemma ycsb_reads_what_it_loads_witness :
  let c := mkYcsbConfig 5 2 10 false true in
  ∃ ks, load_txs 5 (mkYcsb c [(YoRead, 500); (YoUpdate, 500)] [(YpByz, 0); (YpCrash, 1000)] YoRead 1 2) (λ _ _, []) =
          map (λ k, mkWorkloadUnit (tx_crash (write_ops c (k + KEY_OFFSET) (λ _, []))) ExLeader) ks ∧
        NoDup ks ∧ ∀ k, k ∈ ks ↔ (k < 5)%nat ∧ (k mod 2 = 1)%nat.
Proof.
  intros c. refine (proj1 (ycsb_reads_what_it_loads c 500 500 0 1000 1 2 _ (λ _ _, []) _ _ _ _)); [lia|lia|done|done].
Defined.

(** The Zipf distribution draws ranks from 1 to [num_keys]; clipped but not shifted, they
    never select record 0, and select the last record for two ranks. *)
Lemma ycsb_never_asks_record_0 (c : KVReadWriteYCSB) (rank : nat) :
  (1 < yc_num_keys c)%nat → (1 ≤ rank ≤ yc_num_keys c)%nat →
  transform_key_num c rank ≠ KEY_OFFSET ∧
  (transform_key_num c (yc_num_keys c) = transform_key_num c (yc_num_keys c - 1))%nat.
Proof.
  intros Hn Hr. unfold transform_key_num.
  destruct (Nat.leb_spec (yc_num_keys c) rank), (Nat.leb_spec (yc_num_keys c) (yc_num_keys c)),
    (Nat.leb_spec (yc_num_keys c) (yc_num_keys c - 1)); lia.
Qed.
