(* ===== verification/Agreement.v ===== *)
(** Agreement within a term: what a node signs while its view is stable, and what two
    quorum certificates collected in that term can certify.  The first half follows the
    signatures through the handlers of Staging.v; the second combines the terms of several
    nodes with the quorum intersection of Config.v.  The last section is the transition the
    handlers leave open, a stable view made unstable by its own leader. *)

From stdpp Require Import base numbers list gmap strings option.
From S2P Require Import Prelude Types Config Serialize Crypto Chain ForkChoice Staging StagingProofs StagingTheorems.

(** * Signatures and the log *)

Definition blocks (s : Staging) : list CachedBlock := map cv_block (pending_blocks s).

Section signing.
Context `{HCo : Codec, HEd : Ed25519} (ks : KeyStore).

Abbreviation SM := (M Staging StagingMsg).

(** The entry a node puts in a vote for [b]. *)
Definition signature_on (b : CachedBlock) : ProtoSignatureArrayEntry :=
  mkSigEntry (cb_n b) (ks_sign ks (cb_hash b)).

(** Every signature kept for the next vote is on the block that has its number. *)
Definition sigs_ok (G : list CachedBlock) (s : Staging) : Prop :=
  ∀ n e, (n, e) ∈ pending_signatures s → ∃ b, b ∈ G ++ blocks s ∧ cb_n b = n ∧ e = signature_on b.

(** Every signature of every vote sent is on a block of [l]. *)
Definition votes_on (l : list CachedBlock) (es : list StagingMsg) : Prop :=
  ∀ leader v e, SendVote leader v ∈ es → e ∈ sig_array v → ∃ b, b ∈ l ∧ e = signature_on b.

(** A step of the task with [G] committed so far.  A strict one stays in its stable view,
    only appends to the log, and votes for what the log holds. *)
Definition vote_step (strict : bool) (G : list CachedBlock) (s s' : Staging) (es : list StagingMsg) : Prop :=
  sigs_ok (G ++ byz_blocks es) s' ∧
  (strict = true →
     (∃ new, byz_blocks es ++ blocks s' = blocks s ++ new) ∧
     votes_on (G ++ byz_blocks es ++ blocks s') es ∧
     st_view s' = st_view s ∧ (st_view_is_stable s = true → st_view_is_stable s' = true)).

Definition locks {A} (strict : bool) (m : SM A) : Prop :=
  ∀ G s, sigs_ok G s → wlp m (λ _ s' es, vote_step strict G s s' es) s.

Lemma votes_on_mono l l' es : votes_on l es → l ⊆ l' → votes_on l' es.
Proof. intros Hv Hl leader v e H1 H2. destruct (Hv leader v e H1 H2) as (b & Hb & ->). eauto. Qed.

Lemma votes_on_app l es1 es2 : votes_on l es1 → votes_on l es2 → votes_on l (es1 ++ es2).
Proof. intros H1 H2 leader v e [He|He]%elem_of_app; [by apply (H1 leader v)|by apply (H2 leader v)]. Qed.

Lemma vote_step_trans strict G s1 s2 s3 es1 es2 :
  vote_step strict G s1 s2 es1 → vote_step strict (G ++ byz_blocks es1) s2 s3 es2 →
  vote_step strict G s1 s3 (es1 ++ es2).
Proof.
  intros [S1 R1] [S2 R2]. unfold vote_step. rewrite byz_blocks_app.
  split; [by rewrite app_assoc|]. intros Hst.
  destruct (R1 Hst) as ((new1 & E1) & V1 & W1 & T1), (R2 Hst) as ((new2 & E2) & V2 & W2 & T2).
  split; [|split; [|split; [congruence|auto]]].
  - exists (new1 ++ new2). by rewrite <-app_assoc, E2, !app_assoc, E1.
  - apply votes_on_app.
    + eapply votes_on_mono; [exact V1|]. rewrite <-app_assoc, E2. set_solver.
    + by rewrite <-!app_assoc in *.
Qed.

(** Steps that touch neither the log, the kept signatures nor the view. *)
Lemma vote_step_frame strict G s s' es :
  sigs_ok G s → blocks s' = blocks s → pending_signatures s' ⊆ pending_signatures s →
  byz_blocks es = [] → (∀ leader v, SendVote leader v ∉ es) → st_view s' = st_view s →
  (st_view_is_stable s = true → st_view_is_stable s' = true) → vote_step strict G s s' es.
Proof.
  intros Hs Hb Hp He Hv Hw Ht. unfold vote_step. rewrite He, app_nil_r. cbn [app]. split.
  - intros n e Hin. rewrite Hb. by apply Hs, Hp.
  - intros _. split; [exists []; by rewrite app_nil_r|]. split; [|done].
    intros leader v e H1. by destruct (Hv leader v).
Qed.

Lemma locks_bind {A B} strict (m : SM A) (f : A → SM B) :
  locks strict m → (∀ a, locks strict (f a)) → locks strict (mbind f m).
Proof.
  intros Hm Hf G s Hs. apply wlp_bind. eapply wlp_mono; [|by apply Hm].
  intros a s1 e1 H1. eapply wlp_mono; [|exact (Hf a _ s1 (proj1 H1))].
  intros b s2 e2 H2. exact (vote_step_trans _ _ _ _ _ _ _ H1 H2).
Qed.

(** A handler that starts by reading the state. *)
Lemma locks_get {B} strict (f : Staging → SM B) :
  (∀ G s, sigs_ok G s → wlp (f s) (λ _ s' es, vote_step strict G s s' es) s) →
  locks strict (mbind f get).
Proof. intros Hf G s Hs. apply wlp_bind. eapply wlp_prim_run; [reflexivity|]. by apply Hf. Qed.

Lemma locks_pure {A} strict (m : SM A) (f : Staging → option A) :
  (∀ s, m s = a ← f s; Some (a, s, [])) → locks strict m.
Proof.
  intros Hm G s Hs a s' es. rewrite Hm. destruct (f s); simpl; [|done]. intros [= <- <- <-].
  apply vote_step_frame; try done. intros leader v. apply not_elem_of_nil.
Qed.

Lemma locks_ret {A} strict (a : A) : locks strict (mret a).
Proof. by apply (locks_pure _ _ (λ _, Some a)). Qed.
Lemma locks_get_only strict : locks strict get.
Proof. by apply (locks_pure _ _ Some). Qed.
Lemma locks_gets {A} strict (f : Staging → A) : locks strict (gets f).
Proof. by apply (locks_pure _ _ (λ s, Some (f s))). Qed.
Lemma locks_unwrap {A} strict (o : option A) : locks strict (unwrap o).
Proof. apply (locks_pure _ _ (λ _, o)). by destruct o. Qed.
Lemma locks_panic {A} strict : locks strict (@panic Staging StagingMsg A).
Proof. by apply (locks_pure _ _ (λ _, None)). Qed.

Lemma locks_modify strict f :
  (∀ s, blocks (f s) = blocks s ∧ pending_signatures (f s) ⊆ pending_signatures s ∧
        st_view (f s) = st_view s ∧ (st_view_is_stable s = true → st_view_is_stable (f s) = true)) →
  locks strict (modify f).
Proof.
  intros Hf G s Hs a s' es [= <- <- <-]. destruct (Hf s) as (? & ? & ? & ?).
  apply vote_step_frame; try done. intros leader v. apply not_elem_of_nil.
Qed.

Lemma locks_emit strict m :
  (∀ leader v, m ≠ SendVote leader v) → byz_blocks [m] = [] → locks strict (emit m).
Proof.
  intros Hm Hb G s Hs a s' es [= <- <- <-]. apply vote_step_frame; try done.
  intros leader v Hin%list_elem_of_singleton. by apply (Hm leader v).
Qed.

Lemma locks_try strict (m k : SM res) : locks strict m → locks strict k → locks strict (try_ m k).
Proof. intros Hm Hk. apply locks_bind; [done|]. intros []; [done|]. apply locks_ret. Qed.

Lemma locks_mfor {A} strict (l : list A) (f : A → SM unit) :
  (∀ a, locks strict (f a)) → locks strict (mfor l f).
Proof. intros Hf. induction l as [|a l IH]; simpl; [apply locks_ret|]. by apply locks_bind. Qed.

End signing.

Create HintDb locks.
#[export] Hint Resolve locks_ret locks_get_only locks_gets locks_unwrap locks_panic : locks.

(** Walks through a handler, closing each primitive. *)
Ltac locked :=
  repeat first
    [ solve [auto with locks]
    | apply locks_bind; [|intros ?]
    | apply locks_try
    | apply locks_mfor; intros ?
    | apply locks_modify; intros ?; repeat split; solve [done | set_solver]
    | apply locks_emit; [intros ? ?; discriminate|reflexivity]
    | case_match ].

Lemma pop_committed_blocks new_bci l parent rest p popped :
  pop_committed new_bci l parent = (rest, p, popped) → map cv_block l = popped ++ map cv_block rest.
Proof.
  revert parent rest p popped. induction l as [|e l IH]; intros parent rest p popped; cbn [pop_committed].
  { by intros [= <- <- <-]. }
  destruct (cv_n e >? new_bci); [by intros [= <- <- <-]|].
  destruct (pop_committed new_bci l _) as [[rest' p'] popped'] eqn:E. intros [= <- <- <-].
  simpl. f_equal. exact (IH _ _ _ _ E).
Qed.

Lemma collect_qcs_blocks `{HashIter} t ft view l :
  map cv_block (collect_qcs t ft view l).1 = map cv_block l.
Proof.
  induction l as [|e l IH]; [done|]. cbn [collect_qcs].
  destruct (collect_qcs t ft view l) as [l2 qcs]. cbn [fst] in IH.
  destruct (_ && _); [by cbn; rewrite IH|]. destruct (_ <=? _); cbn; by rewrite IH.
Qed.

Section handlers.
Context `{HIt : HashIter, HCo : Codec, HEd : Ed25519} (feat : Features) (cfg : Config) (ks : KeyStore).

Abbreviation SM := (M Staging StagingMsg).
Abbreviation locks := (locks ks).

Lemma locks_i_am_leader st : locks st (i_am_leader feat cfg).
Proof. unfold i_am_leader. locked. Qed.
#[local] Hint Resolve locks_i_am_leader : locks.

Lemma locks_do_byzantine_commit st old_bci new_bci : locks st (do_byzantine_commit old_bci new_bci).
Proof.
  unfold do_byzantine_commit. destruct (_ <=? _); [locked|].
  apply locks_bind; [locked|]. intros []. apply locks_get. intros G s Hs.
  destruct (pop_committed _ _ _) as [[rest p] popped] eqn:E. apply pop_committed_blocks in E.
  wlp_prims. cbn [app]. unfold vote_step. cbn [byz_blocks]. rewrite app_nil_r. split.
  - intros n e Hin. destruct (Hs n e Hin) as (b & Hb & Hbn). exists b. split; [|done].
    unfold blocks in *. cbn. by rewrite <-app_assoc, <-E.
  - intros _. split; [exists []; unfold blocks; cbn; by rewrite app_nil_r|]. split; [|done].
    intros leader v e Hin. exfalso. set_solver.
Qed.
#[local] Hint Resolve locks_do_byzantine_commit : locks.

Lemma locks_do_crash_commit st old_ci new_ci : locks st (do_crash_commit old_ci new_ci).
Proof. unfold do_crash_commit. locked. Qed.
#[local] Hint Resolve locks_do_crash_commit : locks.

Lemma locks_maybe_crash_commit st : locks st (maybe_crash_commit feat cfg).
Proof. unfold maybe_crash_commit. locked. Qed.
#[local] Hint Resolve locks_maybe_crash_commit : locks.

Lemma locks_maybe_update_last_qc st q : locks st (maybe_update_last_qc q).
Proof. apply locks_modify. intros s. destruct (qc_n q >? _); repeat split; done || set_solver. Qed.
#[local] Hint Resolve locks_maybe_update_last_qc : locks.

Lemma locks_maybe_byzantine_commit st q : locks st (maybe_byzantine_commit feat cfg q).
Proof.
  unfold maybe_byzantine_commit. locked. apply locks_modify. intros s. repeat split; [|done].
  intros x. cbn. by intros [_ ?]%elem_of_retain.
Qed.
#[local] Hint Resolve locks_maybe_byzantine_commit : locks.

Lemma locks_maybe_stabilize_view st q : locks st (maybe_stabilize_view feat cfg q).
Proof. unfold maybe_stabilize_view. locked. Qed.
#[local] Hint Resolve locks_maybe_stabilize_view : locks.

Lemma locks_propose_qcs st qcs : locks st (propose_qcs feat cfg qcs).
Proof. induction qcs; simpl; locked. Qed.
#[local] Hint Resolve locks_propose_qcs : locks.

(** Changing only the votes of the pending entries. *)
Lemma locks_revote st f :
  (∀ s, map cv_block (f s) = blocks s) → locks st (modify (λ s, set_pending (f s) s)).
Proof. intros Hf. apply locks_modify. intros s. split; [exact (Hf s)|]. repeat split; set_solver. Qed.

Lemma locks_maybe_create_qcs st : locks st (maybe_create_qcs feat cfg).
Proof.
  unfold maybe_create_qcs. apply locks_bind; [locked|]. intros t. apply locks_get. intros G s Hs.
  pose proof (collect_qcs_blocks t (byzantine_fast_path_threshold (consensus_config cfg)) (st_view s)
                (pending_blocks s)) as Hc.
  destruct (collect_qcs _ _ _ _) as [l qcs]. cbn [fst] in Hc. wlp_prims. cbn [app].
  assert (blocks (set_pending l s) = blocks s) as Hb by done.
  eapply wlp_mono; [|apply (locks_propose_qcs st qcs G)].
  - intros r s' es Hv. eapply (vote_step_trans ks st G s (set_pending l s) s' []); [|by rewrite app_nil_r].
    apply vote_step_frame; try done; set_solver.
  - intros n e Hin. rewrite Hb. by apply Hs.
Qed.
#[local] Hint Resolve locks_maybe_create_qcs : locks.

Lemma locks_process_vote st sender vote : locks st (process_vote feat cfg sender vote).
Proof. unfold process_vote. locked. apply locks_revote. intros s. apply apply_vote_blocks. Qed.
#[local] Hint Resolve locks_process_vote : locks.

Lemma locks_verify_and_process_vote st sender vote : locks st (verify_and_process_vote feat cfg ks sender vote).
Proof. unfold verify_and_process_vote. locked. Qed.
#[local] Hint Resolve locks_verify_and_process_vote : locks.

Lemma locks_vote_on_last_block_for_self st ack : locks st (vote_on_last_block_for_self feat cfg ks ack).
Proof. unfold vote_on_last_block_for_self, await_acks, engraft_2pc. locked. Qed.
#[local] Hint Resolve locks_vote_on_last_block_for_self : locks.

Lemma await_acks_frame ack s :
  wlp (await_acks ack) (λ _ s' es, es = [] ∧ s' = set_ack_buffer [] s) s.
Proof.
  unfold await_acks. wlp_prims. set (s1 := set_ack_buffer [] s).
  apply (wlp_mono _ (λ _ s' es, es = [] ∧ s' = s1)).
  - intros [] s2 es [-> ->]. wlp_prims. done.
  - clearbody s1. induction (storage_ack_buffer s) as [|a l IH]; cbn [mfor]; wlp_prims; [done|].
    eapply wlp_mono; [|exact IH]. by intros [] s2 es [-> ->].
Qed.

(** What a vote for [b] carries. *)
Lemma vote_entries_signed G s b :
  sigs_ok ks G s → b ∈ G ++ blocks s →
  ∀ e, e ∈ (if is_signed (cb_block b) then map snd (pending_signatures s) ++ [signature_on ks b] else []) →
  ∃ b0, b0 ∈ G ++ blocks s ∧ e = signature_on ks b0.
Proof.
  intros Hs Hb e. destruct (is_signed _); [|by intros He%not_elem_of_nil]. intros [He|He]%elem_of_app.
  - apply list_elem_of_In, in_map_iff in He as ([n e'] & <- & Hin%list_elem_of_In).
    destruct (Hs n e' Hin) as (b0 & H0 & _ & ->). eauto.
  - apply list_elem_of_singleton in He as ->. eauto.
Qed.

(** The follower's vote: the kept signatures and one on the last block, which is kept too. *)
Lemma locks_send_vote st ack : locks st (send_vote_on_last_block_to_leader feat cfg ks ack).
Proof.
  unfold send_vote_on_last_block_to_leader. apply locks_get. intros G s Hs.
  destruct (list.last (pending_blocks s)) as [last|] eqn:Hl; [|by apply locks_ret].
  apply wlp_bind. eapply wlp_mono; [|apply await_acks_frame]. intros [] s1 e1 [-> ->]. cbn [app].
  set (b := cv_block last). fold (signature_on ks b).
  assert (b ∈ G ++ blocks s) as Hb.
  { apply elem_of_app. right. unfold blocks. apply list_elem_of_In, in_map, list_elem_of_In.
    rewrite last_lookup in Hl. by eapply list_elem_of_lookup_2. }
  pose proof (vote_entries_signed G s b Hs Hb) as Hsigs. set (sigs := if is_signed (cb_block b) then _ else _) in *.
  clearbody sigs. wlp_prim.
  apply (wlp_mono _ (λ _ s' es, es = [] ∧ vote_step ks st G s s' [] ∧ blocks s' = blocks s)).
  2:{ destruct (is_signed _); wlp_prims; (split; [done|]); (split; [|done]).
      - unfold vote_step. cbn [byz_blocks app]. rewrite app_nil_r. split.
        + intros n e [He|He]%elem_of_app; [by apply Hs|].
          apply list_elem_of_singleton in He as [= -> ->]. eauto.
        + intros _. split; [exists []; by rewrite app_nil_r|]. split; [|done].
          intros leader v e He. by apply not_elem_of_nil in He.
      - apply vote_step_frame; try done. intros leader v. apply not_elem_of_nil. }
  intros [] s2 e2 (-> & Hv2 & Hb2). cbn [app]. wlp_prim. apply wlp_unwrap. intros leader Hld. cbn [app].
  destruct (extra_2pc feat); unfold engraft_2pc; wlp_prims; cbn [app];
    match goal with |- vote_step _ _ _ _ _ ?es => apply (vote_step_trans ks st G s s2 s2 [] es Hv2) end;
    cbn [byz_blocks]; rewrite app_nil_r; pose proof (proj1 Hv2) as Hs2;
    cbn [byz_blocks] in Hs2; rewrite app_nil_r in Hs2.
  - apply vote_step_frame; try done. intros l v [?|[?|?%not_elem_of_nil]%elem_of_cons]%elem_of_cons; done.
  - unfold vote_step. cbn [byz_blocks app]. rewrite app_nil_r. split; [done|]. intros _.
    split; [exists []; by rewrite app_nil_r|]. split; [|done].
    intros l v e [= -> ->]%list_elem_of_singleton. cbn [sig_array]. rewrite Hb2. apply Hsigs.
Qed.
#[local] Hint Resolve locks_send_vote : locks.

(** * Blocks *)

Lemma locks_push_block st b fin : locks st (push_block b fin).
Proof.
  unfold push_block. apply locks_bind; [locked|]. intros []. apply locks_bind; [locked|]. intros [] G s Hs.
  wlp_prims. unfold vote_step. cbn [byz_blocks app]. rewrite app_nil_r.
  match goal with |- sigs_ok _ _ ?s' ∧ _ => assert (blocks s' = blocks s ++ [b]) as Hb
    by (unfold blocks; cbn; by rewrite map_app) end.
  split.
  - intros n e Hin. destruct (Hs n e Hin) as (b0 & H0 & ?). exists b0. rewrite Hb. set_solver.
  - intros _. split; [by exists [b]|]. split; [|done]. intros leader v e He. by apply not_elem_of_nil in He.
Qed.
#[local] Hint Resolve locks_push_block : locks.

Lemma locks_follow_qcs st stable qcs k : locks st k → locks st (follow_qcs feat cfg stable qcs k).
Proof. intros Hk. induction qcs; simpl; locked. Qed.

Lemma locks_leader_accept st b ack fin : locks st (leader_accept feat cfg ks b ack fin).
Proof. unfold leader_accept, buffer_ack. locked. Qed.

Lemma locks_follower_accept st b ack stats fin : locks st (follower_accept feat cfg ks b ack stats fin).
Proof.
  unfold follower_accept. locked. apply locks_follow_qcs. unfold follower_tail, buffer_ack. locked.
Qed.
#[local] Hint Resolve locks_leader_accept locks_follower_accept : locks.

(** Cutting the log and the signatures at the same number. *)
Lemma sigs_ok_cut (p : Z → bool) G s s' :
  sigs_ok ks G s → blocks s' = map cv_block (retain (λ e, p (cv_n e)) (pending_blocks s)) →
  pending_signatures s' = retain (λ e, p e.1) (pending_signatures s) → sigs_ok ks G s'.
Proof.
  intros Hs Hp Hg n e. rewrite Hp, Hg. intros [Hn Hin]%elem_of_retain. cbn in Hn.
  destruct (Hs n e Hin) as (b & Hb & Hbn & He). exists b. split; [|done].
  apply elem_of_app in Hb as [Hb|Hb]; [by apply elem_of_app; left|]. apply elem_of_app. right.
  apply list_elem_of_In, in_map_iff in Hb as (x & Hx & Hin2%list_elem_of_In).
  apply list_elem_of_In, in_map_iff. exists x. split; [done|]. apply list_elem_of_In, elem_of_retain.
  by rewrite Hx, Hbn.
Qed.

Lemma locks_rollback n : locks false (rollback n).
Proof.
  intros G s Hs. unfold rollback. wlp_prims. split; [|done]. cbn [byz_blocks app]. rewrite app_nil_r.
  by apply (sigs_ok_cut (λ m, m <=? n) G s).
Qed.
#[local] Hint Resolve locks_rollback : locks.

(** Outside a stable term only the kept signatures matter. *)
Lemma locks_modify_loose f :
  (∀ s, blocks (f s) = blocks s ∧ pending_signatures (f s) = pending_signatures s) →
  locks false (modify f).
Proof.
  intros Hf G s Hs. wlp_prims. destruct (Hf s) as [Hb Hp]. split; [|done]. cbn [byz_blocks].
  rewrite app_nil_r. intros n e. rewrite Hb, Hp. apply Hs.
Qed.

Lemma clear_votes_blocks l : map cv_block (clear_votes l) = map cv_block l.
Proof. unfold clear_votes. by rewrite map_map. Qed.

Lemma locks_jump_view_as_leader b stats : locks false (jump_view_as_leader b stats).
Proof.
  unfold jump_view_as_leader. apply locks_bind; [by apply locks_modify_loose|]. intros []. locked.
  apply locks_revote. intros s. apply clear_votes_blocks.
Qed.

Lemma locks_jump_view_as_follower b stats : locks false (jump_view_as_follower b stats).
Proof.
  intros G s Hs. unfold jump_view_as_follower. wlp_prims. split; [|done]. cbn [byz_blocks app].
  rewrite app_nil_r. eapply (sigs_ok_cut (λ m, m <? cb_n b) G s); [done| |done].
  unfold blocks. cbn. apply clear_votes_blocks.
Qed.
#[local] Hint Resolve locks_jump_view_as_leader locks_jump_view_as_follower : locks.

Lemma locks_accept_same_view b stats : locks false (accept_same_view b stats).
Proof.
  unfold accept_same_view. locked. by apply locks_modify_loose.
Qed.
#[local] Hint Resolve locks_accept_same_view : locks.

Lemma locks_process_block fuel b ack stats fin :
  locks false (process_block_as_leader feat cfg ks fuel b ack stats fin) ∧
  locks false (process_block_as_follower feat cfg ks fuel b ack stats fin).
Proof. induction fuel as [|fuel [IHl IHf]]; simpl; split; locked. Qed.

(** A block of a stable view, delivered as stable, is appended. *)
Definition stable_event (v : Z) (ev : StagingEvent) : Prop :=
  match ev with
  | EvBlock _ _ stats _ => aes_view stats < v ∨ aes_view stats = v ∧ aes_view_is_stable stats = true
  | EvVote _ _ => True
  | _ => False
  end.

Lemma stable_block_locks (k : SM res) b stats G s :
  locks true k → sigs_ok ks G s → st_view_is_stable s = true → aes_view_is_stable stats = true →
  wlp (ok ← accept_same_view b stats; if negb ok then mret ROk else k)
    (λ _ s' es, vote_step ks true G s s' es) s.
Proof.
  intros Hk Hs Hst Hst'. unfold accept_same_view. wlp_prims. rewrite Hst, Hst'. cbn [orb negb].
  wlp_prims. change (st_view_is_stable (set_stable true s)) with true. cbn [negb]. wlp_prims. cbn [app].
  assert (vote_step ks true G s (set_stable true s) []) as Hv.
  { apply vote_step_frame; try done. intros leader v. apply not_elem_of_nil. }
  assert (∀ m : SM res, locks true m →
            wlp m (λ _ s' es, vote_step ks true G s s' es) (set_stable true s)) as Hall.
  { intros m Hm. eapply wlp_mono; [|apply (Hm G)].
    - intros r s' es Hv'. apply (vote_step_trans ks true G s _ s' [] es Hv). by rewrite app_nil_r.
    - destruct Hv as [Hv _]. cbn [byz_blocks] in Hv. by rewrite app_nil_r in Hv. }
  destruct (check_continuity _ _); apply Hall; [done|apply locks_ret].
Qed.

Lemma stable_worker_locks ev G s :
  extra_2pc feat = false → sigs_ok ks G s → st_view_is_stable s = true → stable_event (st_view s) ev →
  wlp (worker feat cfg ks ev) (λ _ s' es, vote_step ks true G s s' es) s.
Proof.
  intros H2 Hs Hst Hev. unfold worker. apply wlp_bind. intros me s1 e1 [-> ->]%i_am_leader_frame. cbn [app].
  destruct ev as [|b ack stats fin|sender vote| |]; try done; cbn [stable_event] in Hev.
  - destruct me; cbn [process_block_as_leader process_block_as_follower]; wlp_prims; cbn [app];
      (destruct (Z.ltb_spec (aes_view stats) (st_view s)); [by apply locks_ret|]);
      (destruct Hev as [?|[-> Hst']]; [lia|]); rewrite Z.eqb_refl; apply stable_block_locks; auto with locks.
  - destruct me; [by apply locks_verify_and_process_vote|by apply locks_ret].
Qed.

Lemma loose_worker_locks ev :
  extra_2pc feat = false → is_new_view ev = false → locks false (worker feat cfg ks ev).
Proof.
  intros H2 Hev. unfold worker. apply locks_bind; [apply locks_i_am_leader|]. intros me.
  destruct ev as [enough|b ack stats fin|sender vote|[]|[]]; try discriminate Hev; rewrite ?H2.
  all: unfold handle_view_change_timer_tick, process_view_change_message, maybe_update_view, update_view.
  all: try (destruct me; apply locks_process_block).
  all: locked.
  all: by apply locks_modify_loose.
Qed.

End handlers.

(** * Terms *)

Section terms.
Context `{HIt : HashIter, HCo : Codec, HEd : Ed25519} (feat : Features) (cfg : Config) (ks : KeyStore).
Context (Hdep : deployed feat cfg ks).

Lemma sigs_ok_new G : sigs_ok ks G (staging_new feat).
Proof. intros n e He. by apply not_elem_of_nil in He. Qed.

Lemma run_keeps_sigs G s evs s' es :
  sigs_ok ks G s → good_run feat cfg ks s evs s' es → Forall (λ ev, is_new_view ev = false) evs →
  sigs_ok ks (G ++ byz_blocks es) s'.
Proof.
  intros Hs Hrun. revert G Hs. induction Hrun as [s|s ev evs s1 s2 e1 e2 r Hev Hw Hrun IH]; intros G Hs Hall.
  - cbn. by rewrite app_nil_r.
  - inversion_clear Hall as [|? ? Hnv Hall']. rewrite byz_blocks_app, app_assoc. apply IH; [|done].
    by eapply (loose_worker_locks feat cfg ks ev (dep_2pc _ _ _ Hdep) Hnv G s Hs).
Qed.

Lemma stable_run_step G s evs s' es :
  sigs_ok ks G s → st_view_is_stable s = true → good_run feat cfg ks s evs s' es →
  Forall (stable_event (st_view s)) evs → vote_step ks true G s s' es.
Proof.
  intros Hs Hst Hrun. revert G Hs Hst.
  induction Hrun as [s|s ev evs s1 s2 e1 e2 r Hev Hw Hrun IH]; intros G Hs Hst Hall.
  - apply vote_step_frame; try done. intros leader v. apply not_elem_of_nil.
  - inversion_clear Hall as [|? ? Hse Hall'].
    pose proof (stable_worker_locks feat cfg ks ev G s (dep_2pc _ _ _ Hdep) Hs Hst Hse _ _ _ Hw) as Hv.
    apply (vote_step_trans ks true G s s1 s2 e1 e2 Hv). destruct Hv as [Hs1 R].
    destruct (R eq_refl) as (_ & _ & Hview & Hst1). apply IH; [done|by apply Hst1|by rewrite Hview].
Qed.

(** A stable term of a node: it got there by a run without installing a view itself, and
    from then on it received votes and stable blocks of its view only.  [l] is its log at
    the end of the term, [sent] what it sent during the term. *)
Definition in_term (view : Z) (l : list CachedBlock) (sent : list StagingMsg) : Prop :=
  ∃ evs1 s1 es1 evs2 s2,
    good_run feat cfg ks (staging_new feat) evs1 s1 es1 ∧ Forall (λ ev, is_new_view ev = false) evs1 ∧
    st_view s1 = view ∧ st_view_is_stable s1 = true ∧
    good_run feat cfg ks s1 evs2 s2 sent ∧ Forall (stable_event view) evs2 ∧
    l = (byz_blocks es1 ++ byz_blocks sent) ++ blocks s2.

Lemma term_log view l sent :
  in_term view l sent → chain 0 None l ∧ votes_on ks l sent.
Proof.
  intros (evs1 & s1 & es1 & evs2 & s2 & R1 & Hnv & <- & Hst & R2 & Hev & ->).
  pose proof (good_run_safe feat cfg ks Hdep [] _ _ _ _ (inv_new feat ks) R1) as (I1 & _ & _).
  pose proof (good_run_safe feat cfg ks Hdep _ _ _ _ _ I1 R2) as (I2 & _ & _).
  pose proof (run_keeps_sigs [] _ _ _ _ (sigs_ok_new []) R1 Hnv) as Hs1.
  pose proof (stable_run_step _ _ _ _ _ Hs1 Hst R2 Hev) as [_ R]. destruct (R eq_refl) as (_ & V & _).
  split; [exact (inv_chain _ _ _ I2)|]. by rewrite <-app_assoc.
Qed.

End terms.

Lemma chain_elem_lookup k p l b : chain k p l → b ∈ l → l !! Z.to_nat (cb_n b - k - 1) = Some b.
Proof.
  intros Hc [i Hi]%list_elem_of_lookup. rewrite (chain_lookup _ _ _ _ _ Hc Hi).
  by replace (Z.to_nat (k + 1 + Z.of_nat i - k - 1)) with i by lia.
Qed.

(** * Properties *)

(** The log lock: over a stable term (votes and stable blocks of the current view, after
    any run from the initial state) the node stays in its view, its log is only appended to,
    and every signature in every vote it sends is on the one block its log holds at that number;
    so it never signs two different blocks with the same number in a term. *)
Lemma term_votes_lock_log `{HashIter, Codec, Ed25519} (feat : Features) (cfg : Config) (ks : KeyStore)
    (evs1 evs2 : list StagingEvent) (s1 s2 : Staging) (es1 es2 : list StagingMsg) :
  deployed feat cfg ks → good_run feat cfg ks (staging_new feat) evs1 s1 es1 →
  Forall (λ ev, is_new_view ev = false) evs1 → st_view_is_stable s1 = true →
  good_run feat cfg ks s1 evs2 s2 es2 → Forall (stable_event (st_view s1)) evs2 →
  st_view s2 = st_view s1 ∧ st_view_is_stable s2 = true ∧
  byz_blocks es1 ++ blocks s1 `prefix_of` (byz_blocks es1 ++ byz_blocks es2) ++ blocks s2 ∧
  ∀ leader v e, SendVote leader v ∈ es2 → e ∈ sig_array v →
    ∃ b, ((byz_blocks es1 ++ byz_blocks es2) ++ blocks s2) !! Z.to_nat (se_n e - 1) = Some b ∧
         e = signature_on ks b.
Proof.
  intros Hdep R1 Hnv Hst R2 Hev.
  pose proof (run_keeps_sigs feat cfg ks Hdep [] _ _ _ _ (sigs_ok_new feat ks []) R1 Hnv) as Hs1.
  pose proof (stable_run_step feat cfg ks Hdep _ _ _ _ _ Hs1 Hst R2 Hev) as [_ R].
  destruct (R eq_refl) as ((new & E) & _ & Hview & Hst2). split; [done|]. split; [by apply Hst2|].
  split; [exists new; by rewrite <-!app_assoc, E|].
  destruct (term_log feat cfg ks Hdep (st_view s1) _ es2
              (ex_intro _ evs1 (ex_intro _ s1 (ex_intro _ es1 (ex_intro _ evs2 (ex_intro _ s2
                (conj R1 (conj Hnv (conj eq_refl (conj Hst (conj R2 (conj Hev eq_refl))))))))))))
    as [Hc V].
  intros leader v e He Hin. destruct (V leader v e He Hin) as (b & Hb & ->). exists b. split; [|done].
  pose proof (chain_elem_lookup _ _ _ _ Hc Hb) as Hl. cbn [signature_on se_n].
  by rewrite Z.sub_0_r in Hl.
Qed.

(** * A concrete term, for the witnesses *)

(** A scheme whose signature is the padded message: it verifies for that message only. *)
Definition bound_sign (m : bytes) : bytes := take 64 (m ++ zeros 64).
Definition bound_ed : Ed25519 :=
  {| PubKey := string; PrivKey := unit;
     ed_sign := λ _ m, bound_sign m;
     ed_verify := λ _ m s, bool_decide (s = bound_sign m);
     ed_verify_batch := λ ms ss ks,
       (length ms =? length ss)%nat && (length ss =? length ks)%nat &&
       forallb (λ '(m, s), bool_decide (s = bound_sign m)) (zip ms ss) |}.

Lemma bound_ed_batch ms ss ks :
  @ed_verify_batch bound_ed ms ss ks = true →
  Forall2 (λ '(m, s) k, @ed_verify bound_ed k m s = true) (zip ms ss) ks.
Proof.
  cbn [ed_verify_batch ed_verify bound_ed]. rewrite !andb_true_iff, !Nat.eqb_eq. intros [[H1 H2] Hb].
  revert ms ks H1 H2 Hb.
  induction ss as [|s ss IH]; intros [|m ms] [|k ks]; simpl in *; try done.
  intros [= Hm] [= Hk] [Hs Hb]%andb_true_iff. constructor; [done|]. by apply IH.
Qed.

Definition bound_keystore : @KeyStore bound_ed :=
  @mkKeyStore bound_ed (list_to_map [("node1", "k1"); ("node2", "k2"); ("node3", "k3"); ("node4", "k4")]%string) tt.

Definition bound_cfg (name : string) : Config := mkConfig name four_nodes.

Lemma bound_deployed (C : Codec) (name : string) :
  is_Some (pub_keys bound_keystore !! name) →
  @deployed C bound_ed pirateship_features (bound_cfg name) bound_keystore.
Proof.
  intros [k Hk]. split; [|done|done| |].
  - split; [by apply (bool_decide_unpack _); vm_compute|]. by repeat split.
  - intros m. unfold ks_sign, ks_verify, get_pubkey. cbn [net_name bound_cfg]. rewrite Hk.
    cbn [ed_sign ed_verify bound_ed]. split; [|by apply bool_decide_true].
    unfold bound_sign, SIGNATURE_LENGTH. rewrite length_take, length_app, length_zeros. lia.
  - cbn [ed_verify ed_verify_batch bound_ed]. intros d sigs keys Hf.
    rewrite length_replicate, (Forall2_length Hf), !Nat.eqb_refl. cbn [andb].
    induction Hf as [|x k' sigs keys Hx Hf IH]; [done|].
    cbn [length replicate zip zip_with forallb]. apply andb_true_iff. by split.
Qed.

(** Block 3, on top of [toy_b2]; a follower receives the three in view 1, the last one after
    the certificate of block 2 made the view stable. *)
Definition toy_b3 : CachedBlock :=
  toy_signed_block 3 1 true (cb_hash toy_b2) Byte.x2c [mkQC (cb_hash toy_b2) 2 [] 1].
Definition open_events : list StagingEvent :=
  [EvBlock toy_b1 (Some Stored) (mkAEStats 1 false 1 "node1" 0) true;
   EvBlock toy_b2 (Some Stored) (mkAEStats 1 true 1 "node1" 0) true].
Definition term_events : list StagingEvent :=
  [EvBlock toy_b3 (Some Stored) (mkAEStats 1 true 1 "node1" 0) true].

Definition bound_exec (name : string) (evs : list StagingEvent) (s : Staging) : Staging * list StagingMsg :=
  match @exec map_to_list_iter (toy_codec toy_block) bound_ed pirateship_features (bound_cfg name)
          bound_keystore evs s with
  | Some r => r
  | None => (s, [])
  end.
Definition opened (name : string) : Staging * list StagingMsg :=
  bound_exec name open_events (staging_new pirateship_features).
Definition closed (name : string) : Staging * list StagingMsg := bound_exec name term_events (opened name).1.

Lemma toy_b3_ok : @block_ok (toy_codec toy_block) toy_b3.
Proof.
  split; [split; vm_compute; reflexivity|vm_compute; split; [discriminate|reflexivity]|].
  intros q ->%list_elem_of_singleton. vm_compute. reflexivity.
Qed.

(** The state after one event, and delivering events each of which is in order. *)
Definition after `{HashIter, Codec, Ed25519} (feat : Features) (cfg : Config) (ks : KeyStore)
    (ev : StagingEvent) (s : Staging) : Staging :=
  match worker feat cfg ks ev s with Some (_, s1, _) => s1 | None => s end.
Fixpoint deliverable `{HashIter, Codec, Ed25519} (feat : Features) (cfg : Config) (ks : KeyStore)
    (evs : list StagingEvent) (s : Staging) : Prop :=
  match evs with
  | [] => True
  | ev :: evs' => event_ok s ev ∧ deliverable feat cfg ks evs' (after feat cfg ks ev s)
  end.

Lemma exec_deliverable `{HashIter, Codec, Ed25519} feat cfg ks evs s s' es :
  deliverable feat cfg ks evs s → exec feat cfg ks evs s = Some (s', es) →
  good_run feat cfg ks s evs s' es.
Proof.
  revert s s' es. induction evs as [|ev evs IH]; intros s s' es Hd Hex; cbn [exec deliverable] in *.
  { simplify_eq. constructor. }
  destruct Hd as [Hev Hd]. unfold after in Hd.
  destruct (worker feat cfg ks ev s) as [[[r s1] e1]|] eqn:Hw; [|done].
  destruct (exec feat cfg ks evs s1) as [[s2 e2]|] eqn:Hex'; [|done]. simplify_eq.
  econstructor; [done|done|]. by apply IH.
Qed.

(** A block of a new number is fresh. *)
Lemma fresh_number s b stats :
  forallb (λ e, negb (cv_n e =? cb_n b)) (pending_blocks s) = true → fresh s b stats.
Proof.
  intros Hf _ _ e He Hn. rewrite forallb_forall in Hf.
  specialize (Hf e (proj1 (list_elem_of_In _ _) He)). rewrite Hn, Z.eqb_refl in Hf. done.
Qed.

(** The other three nodes. *)
Definition followers : list string := ["node2"; "node3"; "node4"]%string.

Ltac each_follower := intros Hn; unfold followers in Hn; rewrite !elem_of_cons, elem_of_nil in Hn;
  destruct Hn as [->|[->|[->|[]]]].

Lemma opened_run name :
  name ∈ followers →
  @good_run map_to_list_iter (toy_codec toy_block) bound_ed pirateship_features (bound_cfg name)
    bound_keystore (staging_new pirateship_features) open_events (opened name).1 (opened name).2.
Proof.
  each_follower; (apply exec_deliverable; [|vm_compute; reflexivity]); (split; [|split; [|done]]);
    (split; [apply toy_b1_ok || apply toy_b2_ok|eauto|intros _; apply fresh_number; vm_compute; reflexivity]).
Qed.

Lemma closed_run name :
  name ∈ followers →
  @good_run map_to_list_iter (toy_codec toy_block) bound_ed pirateship_features (bound_cfg name)
    bound_keystore (opened name).1 term_events (closed name).1 (closed name).2.
Proof.
  each_follower; (apply exec_deliverable; [|vm_compute; reflexivity]); (split; [|done]);
    (split; [apply toy_b3_ok|eauto|intros _; apply fresh_number; vm_compute; reflexivity]).
Qed.

Lemma term_votes_lock_log_witness :
  let s1 := (opened "node2").1 in let s2 := (closed "node2").1 in
  st_view s2 = st_view s1 ∧ st_view_is_stable s2 = true ∧
  [toy_b1; toy_b2] `prefix_of` [toy_b1; toy_b2; toy_b3] ∧
  SendVote "node1" (mkVote (map (signature_on (HEd := bound_ed) bound_keystore) [toy_b3])
                      (cb_hash toy_b3) 3 1 1) ∈ (closed "node2").2.
Proof.
  intros s1 s2.
  destruct (@term_votes_lock_log map_to_list_iter (toy_codec toy_block) bound_ed pirateship_features
    (bound_cfg "node2") bound_keystore open_events term_events s1 s2 (opened "node2").2 (closed "node2").2)
    as (Hv & Hst & Hp & _).
  - apply bound_deployed. eexists. reflexivity.
  - apply opened_run. left.
  - by repeat constructor.
  - vm_compute. reflexivity.
  - apply closed_run. left.
  - constructor; [|constructor]. right. split; vm_compute; reflexivity.
  - split; [exact Hv|]. split; [exact Hst|]. split; [exact Hp|].
    apply list_elem_of_In. vm_compute. tauto.
Defined.

(** * Certificates of a term *)

Section certificates.
Context `{HIt : HashIter, HCo : Codec, HEd : Ed25519} (feat : Features) (c : ConsensusConfig).
(** The verifier's keys; the keys, final log and messages of each node; the faulty nodes. *)
Context (ks : KeyStore) (keys : string → KeyStore) (logs : string → list CachedBlock)
        (sent : string → list StagingMsg) (F : gset string) (view : Z).

(** The signatures an honest node makes on block hashes during the term: those of its votes,
    and the leader's own, on a block of its log. *)
Definition issued (name : string) (sg : bytes) : Prop :=
  (∃ leader v e, SendVote leader v ∈ sent name ∧ e ∈ sig_array v ∧ sg = se_sig e) ∨
  (get_leader_for_view feat c view = Some name ∧
   ∃ b, b ∈ logs name ∧ sg = ks_sign (keys name) (cb_hash b)).

(** A certificate for block [b] with [t] entries that verifies and names every signer once,
    its honest entries issued in the term.  Unforgeability: a signature an honest node
    made on one hash is not one of another digest; and the block hash fixes the number. *)
Record certifies (t : Z) (q : ProtoQuorumCertificate) (b : CachedBlock) : Prop := {
  ct_verifies : verify_qc ks q t = true;
  ct_names : NoDup (map ns_name (qc_sig q));
  ct_nodes : ∀ e, e ∈ qc_sig q → ns_name e ∈ node_list c;
  ct_issued : ∀ e, e ∈ qc_sig q → ns_name e ∉ F → issued (ns_name e) (ns_sig e);
  ct_digest : qc_digest q = cb_hash b;
  ct_unforged : ∀ name b', name ∉ F → b' ∈ logs name →
    ks_verify ks name (ks_sign (keys name) (cb_hash b')) (qc_digest q) = true → cb_hash b' = qc_digest q;
  ct_number : ∀ name b', name ∉ F → b' ∈ logs name → cb_hash b' = cb_hash b → cb_n b' = cb_n b }.

Definition signers (q : ProtoQuorumCertificate) : gset string := list_to_set (map ns_name (qc_sig q)).

Lemma certificate_quorum t q b :
  certifies t q b → is_quorum c t (signers q).
Proof.
  intros [Hv Hnd Hn _ _ _ _]. apply verify_qc_true in Hv as (ks' & _ & _ & Hmin & _). split.
  - intros x. unfold signers. rewrite elem_of_list_to_set. intros (e & <- & He)%list_elem_of_In%in_map_iff.
    apply elem_of_list_to_set, Hn. by apply list_elem_of_In.
  - unfold signers. rewrite size_list_to_set by done. by rewrite length_map.
Qed.

Context (Hbatch : ∀ ms ss ks', ed_verify_batch ms ss ks' = true →
           Forall2 (λ '(m, s) k, ed_verify k m s = true) (zip ms ss) ks').
Context (Hterm : ∀ name, name ∈ node_list c → name ∉ F →
           deployed feat (mkConfig name c) (keys name) ∧
           in_term feat (mkConfig name c) (keys name) view (logs name) (sent name)).

(** An honest signer has the certified block in its log. *)
Lemma honest_signer_has_block t q b name :
  certifies t q b → name ∈ signers q → name ∉ F →
  ∃ b', b' ∈ logs name ∧ cb_hash b' = cb_hash b ∧ cb_n b' = cb_n b.
Proof.
  intros Hq Hin Hf. unfold signers in Hin. rewrite elem_of_list_to_set in Hin.
  apply list_elem_of_In, in_map_iff in Hin as (e & <- & He%list_elem_of_In).
  destruct (Hterm _ (ct_nodes _ _ _ Hq e He) Hf) as [Hdep Ht].
  destruct (term_log _ _ _ Hdep _ _ _ Ht) as [_ Hvotes].
  assert (∃ b', b' ∈ logs (ns_name e) ∧ ns_sig e = ks_sign (keys (ns_name e)) (cb_hash b')) as (b' & Hb' & Hsg).
  { destruct (ct_issued _ _ _ Hq e He Hf) as [(ld & v & se & H1 & H2 & ->)|(_ & b' & H1 & H2)]; [|eauto].
    destruct (Hvotes ld v se H1 H2) as (b' & Hb' & ->). eauto. }
  destruct (verify_qc_signers ks t Hbatch q (ct_verifies _ _ _ Hq)) as [_ Hall].
  rewrite list.Forall_forall in Hall. destruct (Hall e He) as (k & Hk & Hv).
  assert (cb_hash b' = qc_digest q) as Hd.
  { apply (ct_unforged _ _ _ Hq _ _ Hf Hb'). unfold ks_verify, get_pubkey. by rewrite Hk, <-Hsg. }
  rewrite (ct_digest _ _ _ Hq) in Hd. exists b'. split; [done|]. split; [done|].
  by eapply (ct_number _ _ _ Hq).
Qed.

End certificates.


(** Two certificates of block 3, one with the signature of the faulty leader. *)
Definition cert_of (b : CachedBlock) (names : list string) : ProtoQuorumCertificate :=
  mkQC (cb_hash b) (cb_n b) (map (λ x, mkNameSig x (bound_sign (cb_hash b))) names) 1.
Definition bound_cert (names : list string) : ProtoQuorumCertificate := cert_of toy_b3 names.
Definition bound_log : list CachedBlock := [toy_b1; toy_b2; toy_b3].

Lemma bound_certifies names :
  names ⊆ node_list four_nodes → NoDup names →
  @verify_qc bound_ed bound_keystore (bound_cert names) 3 = true →
  @certifies bound_ed pirateship_features four_nodes bound_keystore (λ _, bound_keystore) (λ _, bound_log)
    (λ name, (closed name).2) {["node1"]} 1 3 (bound_cert names) toy_b3.
Proof.
  intros Hsub Hnd Hv.
  assert (∀ e, e ∈ qc_sig (bound_cert names) → ns_name e ∈ names ∧ ns_sig e = bound_sign (cb_hash toy_b3)) as Hin.
  { intros e (x & <- & Hx%list_elem_of_In)%list_elem_of_In%in_map_iff. done. }
  split; [done| | | |done| |].
  - unfold bound_cert, cert_of. cbn [qc_sig]. rewrite map_map. by rewrite map_id.
  - intros e [? _]%Hin. by apply Hsub.
  - intros e [Hn ->]%Hin Hf. left. exists "node1"%string,
      (mkVote (map (signature_on (HEd := bound_ed) bound_keystore) [toy_b3]) (cb_hash toy_b3) 3 1 1),
      (signature_on (HEd := bound_ed) bound_keystore toy_b3).
    split; [|split; [left|reflexivity]].
    apply Hsub in Hn. cbn in Hn. revert Hf. rewrite not_elem_of_singleton. intros Hf.
    rewrite !elem_of_cons, elem_of_nil in Hn.
    destruct Hn as [E|[E|[E|[E|[]]]]]; [done|rewrite E; apply list_elem_of_In; vm_compute; tauto..].
  - intros name b' _ Hb Hver. cbn [qc_digest bound_cert]. unfold bound_log in Hb.
    rewrite !elem_of_cons, elem_of_nil in Hb. revert Hver. unfold ks_verify, get_pubkey.
    destruct (pub_keys bound_keystore !! name); [|done].
    destruct Hb as [->|[->|[->|[]]]]; vm_compute; done.
  - intros name b' _ Hb. unfold bound_log in Hb. rewrite !elem_of_cons, elem_of_nil in Hb.
    destruct Hb as [->|[->|[->|[]]]]; vm_compute; done.
Qed.


(** * A stable view reopened by its leader *)

(** Another block 3, sent in the same view but marked unstable. *)
Definition toy_b3' : CachedBlock :=
  toy_signed_block 3 1 false (cb_hash toy_b2) Byte.x2d [mkQC (cb_hash toy_b2) 2 [] 1].
Definition reopened (name : string) : Staging * list StagingMsg :=
  bound_exec name [EvBlock toy_b3' (Some Stored) (mkAEStats 1 false 1 "node1" 0) true] (closed name).1.

