(* ===== verification/Execution.v ===== *)
(** What a replica executes: the commands staging sends to the application, run through the
    application task (App.v) and its key-value engine (Kvs.v).  As long as no block is
    accepted, byzantine-committed or rolled back out of order with the commit index (the
    boolean [in_order] on what was sent), the blocks executed are exactly the log up to the
    commit index and the store reads as the specification run on them; the last section is
    the delivery order for which the code executes something else. *)

From stdpp Require Import base numbers list gmap strings option sorting.
From S2P Require Import Prelude Types Config Serialize Crypto Chain ForkChoice Staging StagingProofs StagingTheorems StagingExec Agreement ClientReply App Kvs.

(** * The order of what was sent *)

(** The blocks handed over for execution. *)
Fixpoint crash_blocks (es : list StagingMsg) : list CachedBlock :=
  match es with
  | [] => []
  | ToApp (CrashCommit bs) :: es' => bs ++ crash_blocks es'
  | _ :: es' => crash_blocks es'
  end.

(** The commit index after [es]: every change of it is announced to the broadcaster. *)
Fixpoint last_announced (ci : Z) (es : list StagingMsg) : Z :=
  match es with
  | [] => ci
  | ToBroadcaster (UpdateCI c) :: es' => last_announced c es'
  | _ :: es' => last_announced ci es'
  end.

(** A block is accepted above the commit index, byzantine-committed at or below it, and the
    application is not told to roll back below it. *)
Fixpoint in_order (ci : Z) (es : list StagingMsg) : bool :=
  match es with
  | [] => true
  | ToBroadcaster (UpdateCI c) :: es' => in_order c es'
  | ToLogServer (LsNewBlock b) :: es' => (ci <? cb_n b) && in_order ci es'
  | ToApp (ByzCommit l) :: es' => forallb (λ b, cb_n b <=? ci) l && in_order ci es'
  | ToApp (Rollback n) :: es' => (ci <=? n) && in_order ci es'
  | _ :: es' => in_order ci es'
  end.

(** With [X] executed so far: only executed blocks are byzantine-committed, and no executed
    block is rolled back. *)
Fixpoint commands_ok (X : list CachedBlock) (es : list StagingMsg) : Prop :=
  match es with
  | [] => True
  | ToApp (CrashCommit bs) :: es' => commands_ok (X ++ bs) es'
  | ToApp (ByzCommit l) :: es' => (∀ b, b ∈ l → b ∈ X) ∧ commands_ok X es'
  | ToApp (Rollback n) :: es' => (∀ b, b ∈ X → cb_n b ≤ n) ∧ commands_ok X es'
  | _ :: es' => commands_ok X es'
  end.

(** Messages that say nothing about blocks or the commit index. *)
Definition neutral (m : StagingMsg) : bool :=
  match m with
  | ToBroadcaster (UpdateCI _) | ToLogServer (LsNewBlock _)
  | ToApp (CrashCommit _) | ToApp (ByzCommit _) | ToApp (Rollback _) => false
  | _ => true
  end.

Ltac by_message := match goal with m : StagingMsg |- _ =>
  destruct m as [| | |[]|[]|[]| | | | | | | |] end.

Lemma crash_blocks_app es1 es2 : crash_blocks (es1 ++ es2) = crash_blocks es1 ++ crash_blocks es2.
Proof. induction es1 as [|m es1 IH]; [done|]. by_message; simpl; rewrite ?IH, ?app_assoc; done. Qed.

Lemma last_announced_app ci es1 es2 :
  last_announced ci (es1 ++ es2) = last_announced (last_announced ci es1) es2.
Proof. revert ci. induction es1 as [|m es1 IH]; intros ci; [done|]. by_message; simpl; apply IH. Qed.

Lemma in_order_app ci es1 es2 :
  in_order ci (es1 ++ es2) = in_order ci es1 && in_order (last_announced ci es1) es2.
Proof.
  revert ci. induction es1 as [|m es1 IH]; intros ci; [done|].
  by_message; simpl; rewrite ?IH, ?andb_assoc; done.
Qed.

Lemma commands_ok_app X es1 es2 :
  commands_ok X es1 → commands_ok (X ++ crash_blocks es1) es2 → commands_ok X (es1 ++ es2).
Proof.
  revert X. induction es1 as [|m es1 IH]; intros X; simpl; [by rewrite app_nil_r|].
  by_message; simpl; try apply IH; try (intros [? ?] ?; split; [done|by apply IH]).
  intros H1 H2. apply IH; [done|]. by rewrite <-app_assoc.
Qed.

Lemma neutral_spec m :
  neutral m = true →
  byz_blocks [m] = [] ∧ crash_blocks [m] = [] ∧ (∀ ci, last_announced ci [m] = ci) ∧ ∀ X, commands_ok X [m].
Proof. by_message; done. Qed.

(** * Steps *)

Abbreviation sci := Staging.st_ci.

(** With [G] committed so far, [X] is what the log holds up to the commit index. *)
Record executed (G X : list CachedBlock) (s : Staging) : Prop := {
  ex_log : X ≡ₚ retain (λ b, cb_n b <=? sci s) (G ++ blocks s);
  ex_committed : ∀ b, b ∈ G → cb_n b ≤ sci s }.

Definition exec_step (s s' : Staging) (es : list StagingMsg) : Prop :=
  last_announced (sci s) es = sci s' ∧
  ∀ G X, executed G X s → in_order (sci s) es = true →
    executed (G ++ byz_blocks es) (X ++ crash_blocks es) s' ∧ commands_ok X es.

Lemma exec_step_trans s1 s2 s3 es1 es2 :
  exec_step s1 s2 es1 → exec_step s2 s3 es2 → exec_step s1 s3 (es1 ++ es2).
Proof.
  intros [C1 R1] [C2 R2]. split; [by rewrite last_announced_app, C1|]. intros G X HX.
  rewrite in_order_app, C1. intros [O1 O2]%andb_true_iff.
  destruct (R1 G X HX O1) as [X1 K1]. destruct (R2 _ _ X1 O2) as [X2 K2].
  rewrite byz_blocks_app, crash_blocks_app, !app_assoc. split; [done|]. by apply commands_ok_app.
Qed.

(** Steps that change neither the log nor the index, and say nothing of them. *)
Lemma exec_step_frame s s' es :
  sci s' = sci s → blocks s' = blocks s → Forall (λ m, neutral m = true) es → exec_step s s' es.
Proof.
  intros Hc Hb Hn.
  assert (byz_blocks es = [] ∧ crash_blocks es = [] ∧ (∀ ci, last_announced ci es = ci) ∧ ∀ X, commands_ok X es)
    as (H1 & H2 & H3 & H4).
  { induction Hn as [|m es Hm _ (I1 & I2 & I3 & I4)]; [done|].
    destruct (neutral_spec m Hm) as (N1 & N2 & N3 & N4). change (m :: es) with ([m] ++ es).
    rewrite byz_blocks_app, crash_blocks_app, N1, N2. split; [done|]. split; [done|].
    split; [intros ci; by rewrite last_announced_app, N3|]. intros X. apply commands_ok_app; auto. }
  split; [by rewrite H3|]. intros G X [E1 E2] _. rewrite H1, H2, !app_nil_r. split; [|done].
  split; rewrite ?Hc, ?Hb; done.
Qed.

#[export] Instance exec_step_rel : StepRel exec_step.
Proof. split; [intros s; by apply exec_step_frame|exact exec_step_trans]. Qed.

Abbreviation executes := (steps_by exec_step).

Lemma executes_modify f :
  (∀ s, sci (f s) = sci s ∧ blocks (f s) = blocks s) → executes (modify f).
Proof. intros Hf. apply (steps_modify exec_step). intros s. destruct (Hf s). by apply exec_step_frame. Qed.

Lemma executes_emit m : neutral m = true → executes (emit m).
Proof. intros Hm. apply (steps_emit exec_step). intros s. apply exec_step_frame; [done|done|by repeat constructor]. Qed.

Ltac executing := stepping exec_step ltac:(first [apply executes_modify; intros ?; split; reflexivity|apply executes_emit; reflexivity]).

Lemma retain_interval_perm {A} (f : A → Z) (lo hi : Z) (l : list A) :
  lo ≤ hi →
  retain (λ x, f x <=? hi) l ≡ₚ
    retain (λ x, f x <=? lo) l ++ retain (λ x, (f x >? lo) && (f x <=? hi)) l.
Proof.
  intros Hle. induction l as [|x l IH]; [done|]. unfold retain in *. simpl.
  destruct (Z.leb_spec (f x) hi), (Z.leb_spec (f x) lo), (Z.gtb_spec (f x) lo); try lia; simpl; rewrite IH.
  - done.
  - apply Permutation_middle.
  - done.
Qed.

Lemma retain_map {A B} (f : A → B) (p : B → bool) (l : list A) :
  map f (retain (λ x, p (f x)) l) = retain p (map f l).
Proof. induction l as [|x l IH]; [done|]. unfold retain in *. simpl. destruct (p (f x)); simpl; by rewrite IH. Qed.

(** Raising the commit index and handing over the interval. *)
Lemma crash_commit_step s s' new_ci :
  sci s < new_ci → sci s' = new_ci → blocks s' = blocks s →
  exec_step s s' [ToBroadcaster (UpdateCI new_ci); ToApp (CrashCommit (map cv_block
    (retain (λ e, (cv_n e >? sci s) && (cv_n e <=? new_ci)) (pending_blocks s))))].
Proof.
  intros Hlt Hc Hb. split; [done|]. intros G X [E1 E2] _. cbn [byz_blocks crash_blocks]. rewrite !app_nil_r.
  split; [|done]. split.
  - rewrite (retain_map cv_block (λ b, (cb_n b >? sci s) && (cb_n b <=? new_ci))). fold (blocks s).
    rewrite Hc, Hb, (retain_interval_perm (λ b, cb_n b) (sci s) new_ci) by lia. rewrite E1.
    apply Permutation_app_head. rewrite (retain_app _ G), (retain_none _ G); [done|].
    intros b Hin%E2. destruct (Z.gtb_spec (cb_n b) (sci s)); [lia|done].
  - intros b Hin%E2. lia.
Qed.

Lemma byz_commit_step s s' rest popped m :
  blocks s = popped ++ rest → blocks s' = rest → sci s' = sci s → neutral m = true →
  exec_step s s' [ToApp (ByzCommit popped); m].
Proof.
  intros Hs Hs' Hc Hm. apply (exec_step_trans s s' s' [_] [m]).
  2:{ apply exec_step_frame; [done|done|by repeat constructor]. }
  split; [done|]. intros G X [E1 E2]. cbn [in_order byz_blocks crash_blocks]. rewrite !app_nil_r, andb_true_r.
  rewrite forallb_forall. intros Hin.
  assert (∀ b, b ∈ popped → cb_n b ≤ sci s) as Hpop by (intros b Hb%list_elem_of_In%Hin; by apply Z.leb_le).
  rewrite Hs, app_assoc in E1. split; [split|split; [|done]].
  - by rewrite Hs', Hc.
  - intros b [Hb|Hb]%elem_of_app; rewrite Hc; auto.
  - intros b Hb. rewrite E1. apply elem_of_retain. split; [by apply Z.leb_le, Hpop|]. set_solver.
Qed.

Section handlers.
Context `{HIt : HashIter, HCo : Codec, HEd : Ed25519} (feat : Features) (cfg : Config) (ks : KeyStore).

Lemma executes_i_am_leader : executes (i_am_leader feat cfg).
Proof. unfold i_am_leader. executing. Qed.
#[local] Hint Resolve executes_i_am_leader : steps.

Lemma executes_rollback n : executes (rollback n).
Proof.
  intros s. unfold rollback. wlp_prims. cbn [app]. split; [done|]. intros G X [E1 E2].
  cbn [in_order byz_blocks crash_blocks]. rewrite !app_nil_r, andb_true_r. intros Hn%Z.leb_le.
  assert (X ≡ₚ retain (λ b, cb_n b <=? sci s)
                 (G ++ map cv_block (retain (λ e, cv_n e <=? n) (pending_blocks s)))) as E1'.
  { rewrite E1, !retain_app. apply Permutation_app_head.
    rewrite (retain_map cv_block (λ b, cb_n b <=? n)), retain_retain. fold (blocks s).
    rewrite (retain_ext _ (λ b, (cb_n b <=? n) && (cb_n b <=? sci s))); [done|].
    intros b _. destruct (Z.leb_spec (cb_n b) (sci s)), (Z.leb_spec (cb_n b) n); lia || done. }
  split; [split; [exact E1'|exact E2]|]. split; [|done].
  intros b. rewrite E1. intros [Hb _]%elem_of_retain. bool_to_prop. lia.
Qed.
#[local] Hint Resolve executes_rollback : steps.

Lemma executes_do_byzantine_commit old_bci new_bci : executes (do_byzantine_commit old_bci new_bci).
Proof.
  unfold do_byzantine_commit. destruct (_ <=? _); [executing|].
  apply (steps_bind exec_step); [executing|]. intros []. apply (steps_get_bind exec_step). intros s.
  destruct (pop_committed _ _ _) as [[rest p] popped] eqn:E. apply pop_committed_blocks in E.
  wlp_prims. cbn [app]. by eapply byz_commit_step.
Qed.
#[local] Hint Resolve executes_do_byzantine_commit : steps.

(** The follower's blind crash commit. *)
Lemma executes_follow_ci ci : executes (s ← get; do_crash_commit (sci s) ci).
Proof.
  intros s. wlp_prims. unfold do_crash_commit. destruct (Z.leb_spec ci (sci s)); wlp_prims.
  - by apply exec_step_frame.
  - by apply (crash_commit_step s).
Qed.
#[local] Hint Resolve executes_follow_ci : steps.

Lemma executes_maybe_crash_commit : executes (maybe_crash_commit feat cfg).
Proof.
  intros s. unfold maybe_crash_commit. wlp_prims.
  set (new_ci := crash_scan _ _ _). pose proof (crash_scan_le a (pending_blocks s) (sci s)) as Hle.
  fold new_ci in Hle. unfold do_crash_commit. destruct (Z.leb_spec new_ci (sci s)); wlp_prims; cbn [app].
  - apply exec_step_frame; [cbn; lia|done|done].
  - by apply (crash_commit_step s).
Qed.
#[local] Hint Resolve executes_maybe_crash_commit : steps.

Lemma executes_maybe_update_last_qc q : executes (maybe_update_last_qc q).
Proof. apply executes_modify. intros s. by destruct (qc_n q >? _). Qed.
#[local] Hint Resolve executes_maybe_update_last_qc : steps.

Lemma executes_maybe_byzantine_commit q : executes (maybe_byzantine_commit feat cfg q).
Proof. unfold maybe_byzantine_commit. executing. Qed.
#[local] Hint Resolve executes_maybe_byzantine_commit : steps.

Lemma executes_maybe_stabilize_view q : executes (maybe_stabilize_view feat cfg q).
Proof. unfold maybe_stabilize_view. executing. Qed.
#[local] Hint Resolve executes_maybe_stabilize_view : steps.

Lemma executes_propose_qcs qcs : executes (propose_qcs feat cfg qcs).
Proof. induction qcs; simpl; executing. Qed.
#[local] Hint Resolve executes_propose_qcs : steps.

Lemma executes_revote f :
  (∀ s, map cv_block (f s) = blocks s) → executes (modify (λ s, set_pending (f s) s)).
Proof. intros Hf. apply executes_modify. intros s. split; [done|exact (Hf s)]. Qed.

Lemma executes_maybe_create_qcs : executes (maybe_create_qcs feat cfg).
Proof.
  unfold maybe_create_qcs. apply (steps_bind exec_step); [executing|]. intros t. apply (steps_get_bind exec_step). intros s.
  pose proof (collect_qcs_blocks t (byzantine_fast_path_threshold (consensus_config cfg)) (Staging.st_view s)
                (pending_blocks s)) as Hc.
  destruct (collect_qcs _ _ _ _) as [l qcs]. cbn [fst] in Hc. wlp_prims. cbn [app].
  eapply wlp_mono; [|apply executes_propose_qcs]. intros r s' es Hst.
  apply (exec_step_trans s (set_pending l s) s' []); [by apply exec_step_frame|done].
Qed.
#[local] Hint Resolve executes_maybe_create_qcs : steps.

Lemma executes_process_vote sender vote : executes (process_vote feat cfg sender vote).
Proof. unfold process_vote. executing. apply executes_revote. intros s. apply apply_vote_blocks. Qed.
#[local] Hint Resolve executes_process_vote : steps.

(** A block accepted above the commit index. *)
Lemma executes_push_block b fin : executes (push_block b fin).
Proof.
  intros s. unfold push_block. wlp_prims. cbn [app]. split; [done|]. intros G X [E1 E2].
  cbn [in_order byz_blocks crash_blocks]. rewrite !app_nil_r, andb_true_r. intros Hn%Z.ltb_lt.
  split; [|done]. split; [|exact E2]. unfold blocks. cbn. rewrite map_app. cbn.
  rewrite app_assoc, retain_app, (retain_none _ [b]), app_nil_r; [exact E1|].
  intros x ->%list_elem_of_singleton. by apply Z.leb_gt.
Qed.
#[local] Hint Resolve executes_push_block : steps.

Lemma executes_follow_qcs stable qcs k : executes k → executes (follow_qcs feat cfg stable qcs k).
Proof. intros Hk. induction qcs; simpl; executing. Qed.

Lemma executes_accept_same_view b stats : executes (accept_same_view b stats).
Proof. unfold accept_same_view. executing. Qed.

Lemma executes_leader_accept b ack fin : executes (leader_accept feat cfg ks b ack fin).
Proof. unfold leader_accept, buffer_ack, vote_on_last_block_for_self, engraft_2pc, await_acks. executing. Qed.

Lemma executes_follower_accept b ack stats fin : executes (follower_accept feat cfg ks b ack stats fin).
Proof.
  unfold follower_accept. executing. apply executes_follow_qcs.
  unfold follower_tail, buffer_ack, send_vote_on_last_block_to_leader, engraft_2pc, await_acks. executing.
Qed.
#[local] Hint Resolve executes_accept_same_view executes_leader_accept executes_follower_accept : steps.

(** A jump to a higher view as leader cuts the log with a rollback; as follower without one,
    so that only a block above the commit index may open the view. *)
Lemma executes_jump_view_as_leader b stats : executes (jump_view_as_leader b stats).
Proof. unfold jump_view_as_leader. executing. apply executes_revote. intros s. apply clear_votes_blocks. Qed.

Lemma exec_jump_view_as_follower b stats s :
  sci s < cb_n b → wlp (jump_view_as_follower b stats) (λ _ s' es, exec_step s s' es) s.
Proof.
  intros Hn. unfold jump_view_as_follower. wlp_prims. cbn [app]. split; [done|]. intros G X [E1 E2] _.
  cbn [byz_blocks crash_blocks]. rewrite !app_nil_r. split; [|done]. split; [|exact E2].
  rewrite E1. unfold blocks. cbn. rewrite clear_votes_blocks, !retain_app. apply Permutation_app_head.
  rewrite (retain_map cv_block (λ x, cb_n x <? cb_n b)), retain_retain.
  rewrite (retain_ext _ (λ x, (cb_n x <? cb_n b) && (cb_n x <=? sci s))); [done|].
  intros x _. destruct (Z.leb_spec (cb_n x) (sci s)), (Z.ltb_spec (cb_n x) (cb_n b)); lia || done.
Qed.

Lemma jump_view_target b stats s (u : unit) s' es :
  jump_view_as_leader b stats s = Some (u, s', es) ∨ jump_view_as_follower b stats s = Some (u, s', es) →
  Staging.st_view s' = aes_view stats.
Proof. by intros [[= _ <- _]|[= _ <- _]]. Qed.

Lemma exec_process_block fuel b ack stats fin s :
  (Staging.st_view s < aes_view stats → sci s < cb_n b) →
  wlp (process_block_as_leader feat cfg ks fuel b ack stats fin) (λ _ s' es, exec_step s s' es) s ∧
  wlp (process_block_as_follower feat cfg ks fuel b ack stats fin) (λ _ s' es, exec_step s s' es) s.
Proof.
  revert s. induction fuel as [|fuel IH]; intros s Hn; [split; apply (steps_panic exec_step)|].
  assert (∀ jump : M Staging StagingMsg unit,
    (∀ u s1 e1, jump s = Some (u, s1, e1) → Staging.st_view s1 = aes_view stats) →
    wlp jump (λ _ s' es, exec_step s s' es) s →
    wlp (mbind (λ _, mbind (λ me : bool, if me
           then process_block_as_leader feat cfg ks fuel b ack stats fin
           else process_block_as_follower feat cfg ks fuel b ack stats fin) (i_am_leader feat cfg)) jump)
        (λ _ s' es, exec_step s s' es) s) as Hjump.
  { intros jump Hview Hj. apply wlp_bind. intros u s1 e1 Hr.
    pose proof (Hview _ _ _ Hr) as Hv. pose proof (Hj _ _ _ Hr) as H1.
    apply wlp_bind. intros me s2 e2 [-> ->]%i_am_leader_frame.
    destruct (IH s1) as [HL HF]; [lia|].
    destruct me; (eapply wlp_mono; [|eassumption]); intros r s3 e3 H3; exact (exec_step_trans _ _ _ _ _ H1 H3). }
  split; cbn [process_block_as_leader process_block_as_follower]; wlp_prims; cbn [app];
    (destruct (Z.ltb_spec (aes_view stats) (Staging.st_view s)); [apply (steps_ret exec_step)|]);
    (destruct (Z.eqb_spec (aes_view stats) (Staging.st_view s))).
  - apply (steps_bind exec_step (accept_same_view b stats)); [auto with steps|]. intros []; cbn [negb]; executing.
  - apply Hjump; [intros; eapply jump_view_target; by left|apply executes_jump_view_as_leader].
  - apply (steps_bind exec_step (accept_same_view b stats)); [auto with steps|]. intros []; cbn [negb]; executing.
  - apply Hjump; [intros; eapply jump_view_target; by right|apply exec_jump_view_as_follower, Hn; lia].
Qed.

(** A block that opens a view is above the commit index. *)
Definition opens_above (s : Staging) (ev : StagingEvent) : Prop :=
  match ev with
  | EvBlock b _ stats _ => Staging.st_view s < aes_view stats → sci s < cb_n b
  | _ => True
  end.

Lemma exec_worker ev s :
  is_new_view ev = false → opens_above s ev →
  wlp (worker feat cfg ks ev) (λ _ s' es, exec_step s s' es) s.
Proof.
  intros Hev Hop. unfold worker.
  destruct ev as [enough|b ack stats fin|sender vote|[]|[]]; try discriminate Hev.
  2:{ apply wlp_bind. intros me s1 e1 [-> ->]%i_am_leader_frame. destruct me; by apply exec_process_block. }
  all: apply (steps_bind exec_step); [apply executes_i_am_leader|]; intros me.
  all: unfold handle_view_change_timer_tick, verify_and_process_vote, process_view_change_message,
    process_2pc_result, maybe_update_view, update_view.
  all: executing.
Qed.

End handlers.

(** * The application *)

Definition app_commands (es : list StagingMsg) : list AppCommand :=
  omap (λ m, match m with ToApp c => Some c | _ => None end) es.

(** The application task fed with a list of commands. *)
Fixpoint app_exec {E} `{AppEngine E} (cmds : list AppCommand) (a : Application E)
    : option (Application E * list AppMsg) :=
  match cmds with
  | [] => Some (a, [])
  | c :: cmds' =>
      '(_, a1, m1) ← handle_staging_command c a;
      '(a2, m2) ← app_exec cmds' a1;
      Some (a2, m1 ++ m2)
  end.

Abbreviation numbers l := (map block_n l).

Lemma last_n_or_app d l1 l2 : last_n_or d (l1 ++ l2) = last_n_or (last_n_or d l1) l2.
Proof. apply fold_left_app. Qed.

Lemma sorted_last d l :
  StronglySorted Z.lt (d :: numbers l) →
  d ≤ last_n_or d l ∧ (∀ b, b ∈ l → block_n b ≤ last_n_or d l) ∧ (l = [] ∨ ∃ b, b ∈ l ∧ last_n_or d l = block_n b) ∧
  max_block_n d l = last_n_or d l.
Proof.
  revert d. induction l as [|b l IH]; intros d Hs; cbn [map] in Hs.
  { split; [done|]. split; [intros b Hb; by apply not_elem_of_nil in Hb|]. split; [by left|done]. }
  inversion_clear Hs as [|? ? Hs' Hd]. destruct (IH (block_n b) Hs') as (H1 & H2 & H3 & H4).
  inversion_clear Hd as [|? ? Hdb _].
  change (last_n_or d (b :: l)) with (last_n_or (block_n b) l). split; [lia|]. split; [|split].
  - intros x [->|Hx]%elem_of_cons; [done|by apply H2].
  - right. destruct H3 as [->|(x & Hx & E)]; [exists b; split; [left|done]|exists x; split; [by right|done]].
  - rewrite <-H4. unfold max_block_n. cbn [fold_left]. fold (block_n b).
    destruct (Z.ltb_spec d (block_n b)); [done|lia].
Qed.

Lemma sorted_numbered_above t bs : StronglySorted Z.lt (t :: numbers bs) → numbered_above t bs = true.
Proof.
  revert t. induction bs as [|b bs IH]; intros t Hs; [done|]. cbn [map] in Hs.
  inversion_clear Hs as [|? ? Hs' Hd]. inversion_clear Hd as [|? ? Hdb _].
  cbn [numbered_above]. apply andb_true_iff. split; [by apply Z.ltb_lt|by apply IH].
Qed.

(** Sorted after a sorted prefix: sorted after its last element. *)
Lemma sorted_after d l1 l2 :
  StronglySorted Z.lt (d :: numbers (l1 ++ l2)) → StronglySorted Z.lt (last_n_or d l1 :: numbers l2).
Proof.
  revert d. induction l1 as [|b l1 IH]; intros d Hs; [done|]. cbn [app map] in Hs.
  inversion_clear Hs as [|? ? Hs' _]. exact (IH (block_n b) Hs').
Qed.

Lemma sorted_prefix d l1 l2 :
  StronglySorted Z.lt (d :: numbers (l1 ++ l2)) → StronglySorted Z.lt (d :: numbers l1).
Proof.
  rewrite map_app. change (d :: numbers l1 ++ numbers l2) with ((d :: numbers l1) ++ numbers l2).
  intros Hs. apply StronglySorted_app in Hs. tauto.
Qed.

(** The application with the key-value engine, after executing [X] with byzantine index [b]. *)
Definition app_rel (a : Application KVSAppEngine) (X : list CachedBlock) (b : Z) : Prop :=
  engine_rel (app_engine a) (mkEngineLog X b (last_n_or 0 X)) ∧ App.st_bci (app_stats a) = b.

Lemma app_crash_rel `{HashIter} a X b bs M :
  app_rel a X b → StronglySorted Z.lt (0 :: numbers (X ++ bs)) → spec_store (X ++ bs) = Some M →
  ∃ a' ms, handle_staging_command (CrashCommit bs) a = Some (tt, a', ms) ∧ app_rel a' (X ++ bs) b.
Proof.
  intros [He Hb] Hs HM. unfold spec_store in HM. rewrite run_all_app in HM.
  destruct (run_all spec_block ∅ X) as [[m0 r0]|] eqn:HX; [|done].
  cbn [mbind option_bind] in HM.
  destruct (run_all spec_block m0 bs) as [[m1 r1]|] eqn:Hbs; [|done].
  assert (log_step (mkEngineLog X b (last_n_or 0 X)) (CrashCommit bs) =
            Some (mkEngineLog (X ++ bs) b (last_n_or 0 (X ++ bs)), r1)) as Hl.
  { cbn [log_step]. rewrite (sorted_numbered_above _ _ (sorted_after _ _ _ Hs)). unfold spec_store.
    rewrite HX. cbn. rewrite Hbs. cbn. by rewrite last_n_or_app. }
  destruct (kvs_step_spec _ _ _ _ _ He Hl) as (e' & Hstep & He'). cbn [kvs_step] in Hstep.
  destruct (eng_crash_commit bs (app_engine a)) as [[rs e1]|] eqn:Hc; [|done].
  injection Hstep as -> ->. pose proof (crash_shape _ _ _ _ Hc) as Hsh.
  eexists _, _. split.
  - cbn [handle_staging_command].
    unfold app_crash_commit, on_engine, mbind, M_bind, get, unwrap, assert_, mret, M_ret, modify, update_stats.
    rewrite Hc. cbn. rewrite (proj2 (Nat.eqb_eq _ _)) by by eapply Forall2_length. reflexivity.
  - split; done.
Qed.

Lemma app_byz_rel `{HashIter} a X b l :
  app_rel a X b → StronglySorted Z.lt (0 :: numbers X) → StronglySorted Z.lt (b :: numbers l) →
  (∀ x, x ∈ l → x ∈ X) → byz_silent l = true →
  ∃ a' ms, handle_staging_command (ByzCommit l) a = Some (tt, a', ms) ∧ app_rel a' X (last_n_or b l).
Proof.
  intros [He Hb] HX Hl Hin Hsil. destruct (sorted_last _ _ Hl) as (Hle & _ & Hlast & Hmax).
  destruct (sorted_last _ _ HX) as (_ & Htop & _).
  assert (last_n_or b l ≤ last_n_or 0 X) as Ht.
  { destruct Hlast as [->|(x & Hx & ->)]; [exact (kvs_bci_top _ _ (proj1 He))|by apply Htop, Hin]. }
  assert (log_step (mkEngineLog X b (last_n_or 0 X)) (ByzCommit l) =
            Some (mkEngineLog X (last_n_or b l) (last_n_or 0 X), [])) as Hs.
  { cbn [log_step]. rewrite Hsil, (proj2 (Z.leb_le _ _) Hle), (proj2 (Z.leb_le _ _) Ht). done. }
  destruct (kvs_step_spec _ _ _ _ _ He Hs) as (e' & Hstep & He'). cbn [kvs_step] in Hstep.
  destruct (eng_byz_commit l (app_engine a)) as [[rs e1]|] eqn:Hc; [|done].
  injection Hstep as ->. pose proof (byz_shape _ _ _ _ Hc) as Hsh.
  eexists _, _. split.
  - cbn [handle_staging_command].
    unfold app_byz_commit, on_engine, mbind, M_bind, get, unwrap, assert_, mret, M_ret, modify, update_stats.
    rewrite Hc. cbn. rewrite (proj2 (Nat.eqb_eq _ _)) by by eapply Forall2_length. reflexivity.
  - split; [done|]. cbn. by rewrite Hb.
Qed.

Lemma app_rollback_rel `{HashIter} a X b r :
  app_rel a X b → StronglySorted Z.lt (0 :: numbers X) → (∀ x, x ∈ X → block_n x ≤ r) →
  0 ≤ b < 2 ^ 64 - 1 →
  ∃ a' ms, handle_staging_command (Rollback r) a = Some (tt, a', ms) ∧ app_rel a' X b.
Proof.
  intros [He Hb] HX Hr Hbd. eexists _, _. split; [reflexivity|]. rewrite Hb.
  set (r' := if r <=? b then b ⊕ 1 else r).
  assert (b ≤ r' ∧ ∀ x, x ∈ X → block_n x ≤ r') as [Hb' Hr'].
  { subst r'. destruct (Z.leb_spec r b); [rewrite u64_add_small by lia|]; (split; [lia|]); [|done].
    intros x Hx%Hr. lia. }
  assert (last_n_or 0 X ≤ r') as Ht.
  { destruct (sorted_last _ _ HX) as (_ & _ & [->|(x & Hx & ->)] & _); [cbn; lia|by apply Hr']. }
  assert (log_step (mkEngineLog X b (last_n_or 0 X)) (Rollback r') =
            Some (mkEngineLog X b (last_n_or 0 X), [])) as Hs.
  { cbn [log_step]. rewrite (proj2 (Z.leb_le _ _) Hb'), Z.min_l, upto_all by done. done. }
  destruct (kvs_step_spec _ _ _ _ _ He Hs) as (e' & Hstep & He'). cbn [kvs_step] in Hstep.
  injection Hstep as <-. split; [exact He'|]. exact Hb.
Qed.

(** Running every command of a trace in order. *)
Lemma app_exec_rel `{HashIter} es a X b M :
  app_rel a X b → 0 ≤ b < 2 ^ 64 - 1 →
  StronglySorted Z.lt (0 :: numbers (X ++ crash_blocks es)) →
  StronglySorted Z.lt (b :: numbers (byz_blocks es)) →
  (∀ x, x ∈ byz_blocks es → block_n x < 2 ^ 64 - 1) → byz_silent (byz_blocks es) = true →
  commands_ok X es → spec_store (X ++ crash_blocks es) = Some M →
  ∃ a' ms b', app_exec (app_commands es) a = Some (a', ms) ∧ app_rel a' (X ++ crash_blocks es) b'.
Proof.
  revert a X b. induction es as [|m es IH]; intros a X b Ha Hb HX Hl Hbd Hsil Hc HM.
  { exists a, [], b. rewrite app_nil_r. done. }
  assert (∀ c a1 m1, m = ToApp c → handle_staging_command c a = Some (tt, a1, m1) →
    (∃ a' ms b', app_exec (app_commands es) a1 = Some (a', ms) ∧ app_rel a' (X ++ crash_blocks (m :: es)) b') →
    ∃ a' ms b', app_exec (app_commands (m :: es)) a = Some (a', ms) ∧
                app_rel a' (X ++ crash_blocks (m :: es)) b') as Hcons.
  { intros c a1 m1 -> H1 (a' & ms & b' & H2 & H3). exists a', (m1 ++ ms), b'. split; [|done].
    unfold app_commands. cbn [omap list_omap app_exec]. rewrite H1. cbn [mbind option_bind].
    unfold app_commands in H2. by rewrite H2. }
  destruct m as [| | |[n v st ld ln lh|bs|l|r]| | | | | | | | | |];
    try exact (IH a X b Ha Hb HX Hl Hbd Hsil Hc HM).
  - eapply Hcons; [done|reflexivity|]. apply (IH _ X b); done.
  - cbn [crash_blocks] in *. rewrite app_assoc in HX, HM. unfold spec_store in HM.
    rewrite run_all_app in HM. destruct (run_all spec_block ∅ (X ++ bs)) as [[m0 r0]|] eqn:E; [|done].
    destruct (app_crash_rel a X b bs m0 Ha (sorted_prefix _ _ _ HX)) as (a1 & m1 & H1 & Ha1).
    { unfold spec_store. by rewrite E. }
    eapply Hcons; [done|exact H1|]. rewrite app_assoc. apply (IH a1 (X ++ bs) b); try done.
    unfold spec_store. by rewrite run_all_app, E.
  - cbn [crash_blocks byz_blocks commands_ok] in *. destruct Hc as [Hin Hc].
    unfold byz_silent in Hsil. rewrite forallb_app in Hsil. apply andb_true_iff in Hsil as [Hs1 Hs2].
    pose proof (sorted_prefix _ _ _ Hl) as Hl1. pose proof (sorted_after _ _ _ Hl) as Hl2.
    destruct (app_byz_rel a X b l Ha (sorted_prefix _ _ _ HX) Hl1 Hin Hs1) as (a1 & m1 & H1 & Ha1).
    eapply Hcons; [done|exact H1|]. apply (IH a1 X (last_n_or b l)); try done.
    + destruct (sorted_last _ _ Hl1) as (? & _ & [->|(x & Hx & Ex)] & _); [cbn; lia|].
      split; [lia|]. rewrite Ex. apply Hbd. set_solver.
    + intros x Hx. apply Hbd. set_solver.
  - cbn [crash_blocks byz_blocks commands_ok] in *. destruct Hc as [Hin Hc].
    destruct (app_rollback_rel a X b r Ha (sorted_prefix _ _ _ HX) Hin Hb) as (a1 & m1 & H1 & Ha1).
    eapply Hcons; [done|exact H1|]. by apply (IH a1 X b).
Qed.

(** * Runs *)

Section runs.
Context `{HIt : HashIter, HCo : Codec, HEd : Ed25519} (feat : Features) (cfg : Config) (ks : KeyStore).

(** Runs of the staging task in which it installs no view itself and everything it sends is
    in order with its commit index. *)
Inductive ordered_run : Staging → list StagingEvent → Staging → list StagingMsg → Prop :=
  | ordered_nil s : ordered_run s [] s []
  | ordered_cons s ev evs s1 s2 e1 e2 r :
      event_ok s ev → is_new_view ev = false → opens_above s ev →
      worker feat cfg ks ev s = Some (r, s1, e1) → in_order (sci s) e1 = true →
      ordered_run s1 evs s2 e2 → ordered_run s (ev :: evs) s2 (e1 ++ e2).

Lemma ordered_good s evs s' es :
  ordered_run s evs s' es →
  good_run feat cfg ks s evs s' es ∧ Forall (λ ev, is_new_view ev = false) evs.
Proof.
  intros Hr. induction Hr as [|s ev evs s1 s2 e1 e2 r H1 H2 H3 Hw H4 Hr [IH1 IH2]]; [split; constructor|].
  split; [by econstructor|by constructor].
Qed.

Lemma executed_new : executed [] [] (staging_new feat).
Proof. split; [constructor|]. intros b Hb. by apply not_elem_of_nil in Hb. Qed.

Lemma ordered_executed G X s evs s' es :
  executed G X s → ordered_run s evs s' es →
  executed (G ++ byz_blocks es) (X ++ crash_blocks es) s' ∧ commands_ok X es.
Proof.
  intros HX Hr. revert G X HX.
  induction Hr as [s|s ev evs s1 s2 e1 e2 r H1 H2 H3 Hw H4 Hr IH]; intros G X HX.
  { cbn. by rewrite !app_nil_r. }
  destruct (exec_worker feat cfg ks ev s H2 H3 _ _ _ Hw) as [_ Hstep].
  destruct (Hstep G X HX H4) as [X1 K1]. destruct (IH _ _ X1) as [X2 K2].
  rewrite byz_blocks_app, crash_blocks_app, !app_assoc. split; [done|exact (commands_ok_app _ _ _ K1 K2)].
Qed.

Lemma crash_numbers_blocks es : crash_numbers es = numbers (crash_blocks es).
Proof.
  unfold crash_numbers. induction es as [|m es IH]; [done|]. cbn [map concat].
  by_message; cbn [crash_blocks app]; try exact IH. by rewrite map_app, <-IH.
Qed.

Lemma sorted_blocks_unique l1 l2 :
  l1 ≡ₚ l2 → StronglySorted Z.lt (numbers l1) → StronglySorted Z.lt (numbers l2) → l1 = l2.
Proof.
  assert (∀ l, StronglySorted Z.lt (numbers l) → StronglySorted (λ a b, block_n a < block_n b) l) as Hmap.
  { intros l. induction l as [|b l IH]; intros Hs; [constructor|]. cbn [map] in Hs.
    inversion_clear Hs as [|? ? Hs' Hd]. constructor; [by apply IH|].
    apply Forall_forall. intros x Hx. apply (proj1 (Forall_forall _ _) Hd). by apply (list_elem_of_fmap_2 block_n). }
  assert (AntiSymm (=) (λ a b, block_n a < block_n b)) as Has by (intros a b Ha Hb; cbn in *; lia).
  intros Hp H1%Hmap H2%Hmap. by apply (StronglySorted_unique (λ a b, block_n a < block_n b)).
Qed.

Context (Hdep : deployed feat cfg ks).

(** What was executed is the log up to the commit index, in order. *)
Lemma ordered_log evs s es :
  ordered_run (staging_new feat) evs s es →
  crash_blocks es = take (Z.to_nat (sci s)) (byz_blocks es ++ blocks s) ∧ commands_ok [] es ∧
  StronglySorted Z.lt (0 :: numbers (crash_blocks es)) ∧ StronglySorted Z.lt (0 :: numbers (byz_blocks es)) ∧
  ∀ b, b ∈ byz_blocks es → block_n b < 2 ^ 64 - 1.
Proof.
  intros Hr. destruct (ordered_good _ _ _ _ Hr) as [Hg Hnv].
  destruct (ordered_executed [] [] _ _ _ _ executed_new Hr) as [[HX _] HK].
  destruct (good_run_safe feat cfg ks Hdep [] _ _ _ _ (inv_new feat ks) Hg) as (Hi & _ & Hm).
  pose proof (run_ci_step feat cfg ks _ _ _ _ Hnv (good_run_run _ _ _ _ _ _ _ Hg)) as Hci.
  assert (StronglySorted Z.lt (crash_numbers es)) as Hsort.
  { eapply crash_path_sorted; [exact Hci|]. intros bs Hbs. rewrite Forall_forall in Hm. exact (Hm _ Hbs). }
  pose proof (proj2 (crash_path_numbers _ _ _ Hci)) as Hpos. rewrite crash_numbers_blocks in *.
  pose proof (inv_chain _ _ _ Hi) as Hc. unfold log in Hc. cbn [app] in *. fold (blocks s) in Hc.
  pose proof (chain_numbers_sorted _ _ _ Hc) as Hlog. pose proof Hc as [Hcb _]%chain_app.
  split; [|split; [done|split; [|split]]].
  - rewrite (chain_retain_le id 0 None), Z.sub_0_r in HX by by rewrite map_id.
    apply sorted_blocks_unique; [exact HX|done|]. by eapply chain_numbers_sorted, chain_take.
  - constructor; [done|]. eapply Forall_impl; [exact Hpos|]. cbn. lia.
  - constructor; [exact (chain_numbers_sorted _ _ _ Hcb)|].
    apply Forall_map, Forall_forall. intros b Hb. pose proof (chain_elem_n _ _ _ _ Hcb Hb). unfold block_n. lia.
  - intros b Hb. pose proof (chain_elem_n _ _ _ _ Hcb Hb). pose proof (inv_bound _ _ _ Hi) as Hbd.
    unfold log, tip_n in *. rewrite length_app in Hbd. unfold block_n. lia.
Qed.

End runs.

(** * Properties *)

(** A replica's store is its log.  Take any run of the staging task of a deployed node
    from the initial state in which it installs no view itself and its commands are in
    order with its commit index, and feed the commands to the application task with the
    key-value engine.  The blocks executed are the first [ci] blocks of the log, each once
    and in order, and if those execute (and no committed block has a byzantine phase) the
    application does not panic and every key reads as the map obtained by
    executing them from scratch. *)
Lemma replica_store_is_log `{HashIter, Codec, Ed25519} (feat : Features) (cfg : Config) (ks : KeyStore)
    (evs : list StagingEvent) (s : Staging) (es : list StagingMsg) (h : HashType) (m : gmap bytes bytes) :
  let executed_log := take (Z.to_nat (sci s)) (byz_blocks es ++ blocks s) in
  deployed feat cfg ks → ordered_run feat cfg ks (staging_new feat) evs s es →
  byz_silent (byz_blocks es) = true → spec_store executed_log = Some m →
  crash_blocks es = executed_log ∧
  ∃ a ms, app_exec (app_commands es) (mkApplication kvs_new (stats_new feat h)) = Some (a, ms) ∧
          ∀ k, kvs_read (kvs_state (app_engine a)) k = Some (m !! k).
Proof.
  intros executed_log Hdep Hr Hsil Hm.
  destruct (ordered_log feat cfg ks Hdep evs s es Hr) as (Hlog & Hk & Hs1 & Hs2 & Hbd).
  split; [exact Hlog|].
  destruct (app_exec_rel es (mkApplication kvs_new (stats_new feat h)) [] 0 m) as (a & ms & b & Hrun & [[Hinv _] _]);
    try done.
  { split; [apply engine_rel_new|done]. }
  { cbn [app]. by rewrite Hlog. }
  exists a, ms. split; [done|]. destruct (kvs_inv_reads _ _ Hinv) as (m' & Hm' & Hreads).
  cbn [el_blocks app] in Hm'. rewrite Hlog in Hm'. unfold executed_log in Hm. rewrite Hm in Hm'. by simplify_eq.
Qed.

(** * A concrete replica *)

(** Signed blocks whose one transaction writes its number under a key of its own. *)
Definition kv_tx (n : Z) : ProtoTransaction :=
  mkTx None (Some (mkPhase [toy_op Write [be_bytes 8 n; be_bytes 8 n]])) None false false.
Definition kv_block (n : Z) (stable : bool) (parent : HashType) (body : u8)
    (qcs : list ProtoQuorumCertificate) : CachedBlock :=
  mkCached (mkBlock [kv_tx n] n parent 1 qcs [] stable 1 (Some (ProposerSig toy_sig)))
    (toy_sig ++ parent ++ [body]) (body :: take 63 parent).
Definition kv_b1 : CachedBlock := kv_block 1 false (zeros 64) Byte.x01 [].
Definition kv_b2 : CachedBlock := kv_block 2 true (cb_hash kv_b1) Byte.x02 [mkQC (cb_hash kv_b1) 1 [] 1].
Definition kv_b3 : CachedBlock := kv_block 3 true (cb_hash kv_b2) Byte.x03 [mkQC (cb_hash kv_b2) 2 [] 1].
Definition kv_b4 : CachedBlock := kv_block 4 true (cb_hash kv_b3) Byte.x04 [mkQC (cb_hash kv_b3) 3 [] 1].

Lemma kv_blocks_ok b : b ∈ [kv_b1; kv_b2; kv_b3; kv_b4] → @block_ok (toy_codec Serialize.toy_block) b.
Proof.
  rewrite !elem_of_cons, elem_of_nil. intros [->|[->|[->|[->|[]]]]].
  all: split; [split; vm_compute; reflexivity|vm_compute; split; [discriminate|reflexivity]|].
  1: intros q Hq; by apply not_elem_of_nil in Hq.
  all: intros q ->%list_elem_of_singleton; vm_compute; reflexivity.
Qed.

(** One block per message, the commit index following one block behind. *)
Definition steady_events : list StagingEvent :=
  [EvBlock kv_b1 (Some Stored) (mkAEStats 1 false 1 "node1" 0) true;
   EvBlock kv_b2 (Some Stored) (mkAEStats 1 true 1 "node1" 1) true;
   EvBlock kv_b3 (Some Stored) (mkAEStats 1 true 1 "node1" 2) true;
   EvBlock kv_b4 (Some Stored) (mkAEStats 1 true 1 "node1" 3) true].
(** The same blocks in one message, as when a replica catches up. *)
Definition catch_up_events : list StagingEvent :=
  [EvBlock kv_b1 (Some Stored) (mkAEStats 1 true 1 "node1" 3) false;
   EvBlock kv_b2 (Some Stored) (mkAEStats 1 true 1 "node1" 3) false;
   EvBlock kv_b3 (Some Stored) (mkAEStats 1 true 1 "node1" 3) false;
   EvBlock kv_b4 (Some Stored) (mkAEStats 1 true 1 "node1" 3) true].

Definition kv_exec (evs : list StagingEvent) : Staging * list StagingMsg :=
  match @exec map_to_list_iter (toy_codec Serialize.toy_block) bound_ed pirateship_features (bound_cfg "node2")
          bound_keystore evs (staging_new pirateship_features) with
  | Some r => r
  | None => (staging_new pirateship_features, [])
  end.

(** Reading a key from the application after a run. *)
Definition kv_read (evs : list StagingEvent) (key : bytes) : option (option bytes) :=
  let HI := map_to_list_iter in
  match app_exec (app_commands (kv_exec evs).2) (mkApplication kvs_new (stats_new pirateship_features [])) with
  | Some (a, _) => kvs_read (kvs_state (app_engine a)) key
  | None => None
  end.

Definition sent `{HashIter, Codec, Ed25519} (feat : Features) (cfg : Config) (ks : KeyStore)
    (ev : StagingEvent) (s : Staging) : list StagingMsg :=
  match worker feat cfg ks ev s with Some (_, _, e1) => e1 | None => [] end.

Fixpoint deliverable_in_order `{HashIter, Codec, Ed25519} (feat : Features) (cfg : Config) (ks : KeyStore)
    (evs : list StagingEvent) (s : Staging) : Prop :=
  match evs with
  | [] => True
  | ev :: evs' =>
      (event_ok s ev ∧ is_new_view ev = false ∧ opens_above s ev ∧
       in_order (sci s) (sent feat cfg ks ev s) = true) ∧
      deliverable_in_order feat cfg ks evs' (after feat cfg ks ev s)
  end.

Lemma exec_ordered `{HashIter, Codec, Ed25519} feat cfg ks evs s s' es :
  deliverable_in_order feat cfg ks evs s → exec feat cfg ks evs s = Some (s', es) →
  ordered_run feat cfg ks s evs s' es.
Proof.
  revert s s' es. induction evs as [|ev evs IH]; intros s s' es Hd Hex; cbn [exec deliverable_in_order] in *.
  { simplify_eq. constructor. }
  destruct Hd as [(H1' & H2' & H3' & H4') Hd]. unfold after in Hd. unfold sent in H4'.
  destruct (worker feat cfg ks ev s) as [[[r s1] e1]|] eqn:Hw; [|done].
  destruct (exec feat cfg ks evs s1) as [[s2 e2]|] eqn:Hex'; [|done]. simplify_eq.
  econstructor; [done..|]. by apply IH.
Qed.

Lemma steady_run :
  @ordered_run map_to_list_iter (toy_codec Serialize.toy_block) bound_ed pirateship_features (bound_cfg "node2")
    bound_keystore (staging_new pirateship_features) steady_events (kv_exec steady_events).1 (kv_exec steady_events).2.
Proof.
  apply exec_ordered; [|vm_compute; reflexivity].
  do 4 (split; [split; [split; [apply kv_blocks_ok; rewrite !elem_of_cons; tauto|eauto
                              |intros _; apply fresh_number; vm_compute; reflexivity]
                       |split; [reflexivity|split; [intros _; vm_compute; reflexivity|vm_compute; reflexivity]]]|]).
  exact I.
Qed.

Definition kv_store : gmap bytes bytes := default ∅ (spec_store [kv_b1; kv_b2; kv_b3]).

Lemma kv_store_spec : spec_store [kv_b1; kv_b2; kv_b3] = Some kv_store.
Proof.
  unfold kv_store. destruct (spec_store _) as [m|] eqn:E; [done|]. exfalso.
  assert (match spec_store [kv_b1; kv_b2; kv_b3] with Some _ => true | None => false end = true) as Hs
    by (vm_compute; reflexivity).
  by rewrite E in Hs.
Qed.

Lemma replica_store_is_log_witness :
  let s := (kv_exec steady_events).1 in let es := (kv_exec steady_events).2 in let HI := map_to_list_iter in
  sci s = 3 ∧ crash_blocks es = take (Z.to_nat (sci s)) (byz_blocks es ++ blocks s) ∧
  ∃ a ms,
    app_exec (app_commands es) (mkApplication kvs_new (stats_new pirateship_features [])) = Some (a, ms) ∧
    kvs_read (kvs_state (app_engine a)) (be_bytes 8 3) = Some (Some (be_bytes 8 3)).
Proof.
  intros s es HI. split; [vm_compute; reflexivity|].
  destruct (@replica_store_is_log HI (toy_codec Serialize.toy_block) bound_ed pirateship_features
    (bound_cfg "node2") bound_keystore steady_events s es [] kv_store) as (Hx & a & ms & Ha & Hr).
  - apply bound_deployed. eexists. reflexivity.
  - exact steady_run.
  - vm_compute. reflexivity.
  - replace (take _ _) with [kv_b1; kv_b2; kv_b3] by (vm_compute; reflexivity). exact kv_store_spec.
  - split; [exact Hx|]. exists a, ms. split; [exact Ha|]. rewrite (Hr (be_bytes 8 3)).
    apply (f_equal Some). vm_compute. reflexivity.
Defined.

(** * Catching up *)

