(* ===== verification/Frontend.v ===== *)
(** What the HTTP front ends of the three applications (src/contrib/kms, src/contrib/svr3,
    src/contrib/smallbank) share.  A request handler is a tree of the effects it has: it
    updates state of the server process, and it submits transactions to the node and
    continues with the answer.  Handlers run concurrently ([wstep]) over one store, which is
    what the key-value engine reads as.  [rg] is a program logic for invariants of that
    store that hold under every interleaving, [run] runs a handler alone. *)

From stdpp Require Import base numbers list gmap strings option relations.
From S2P Require Import Prelude Types Config Serialize ClientReply App Kvs Sequencer.

Abbreviation store := (gmap bytes bytes).

(** [s.into_bytes()] and [s.as_bytes().to_vec()]. *)
Abbreviation into_bytes := String.list_byte_of_string.

(** * Responses *)

Inductive json :=
  | JStr (s : string)
  | JInt (z : Z)
  | JBool (b : bool)
  | JBytes (b : bytes)
  | JList (l : list json).

Inductive Body :=
  | Text (s : string)
  | Json (fields : list (string * json)).

Record HttpResponse := mkHttp { http_status : Z; http_body : Body }.

Definition HttpOk := mkHttp 200.
Definition BadRequest := mkHttp 400.
Definition Unauthorized := mkHttp 401.
Definition NotFound := mkHttp 404.
Definition RequestTimeout := mkHttp 408.
Definition Conflict := mkHttp 409.
Definition InternalServerError := mkHttp 500.

(** * Handlers *)

(** What a submitted transaction comes back with: the channel to the batch proposer is
    closed; the acknowledgement channel is dropped; the reply does not decode; a reply. *)
Inductive Answer :=
  | ARefused
  | AClosed
  | AGarbled
  | AReply (r : ProtoClientReply).

Inductive prog (L A : Type) :=
  | Ret (a : A)
  | Panic
  | OutOfFuel
  | OnState (f : L → L) (k : L → prog L A)
  | Submit (tx : ProtoTransaction) (tag : Z) (k : Answer → prog L A).
Arguments Ret {L A}.
Arguments Panic {L A}.
Arguments OutOfFuel {L A}.
Arguments OnState {L A}.
Arguments Submit {L A}.

Fixpoint prog_bind {L A B} (f : A → prog L B) (p : prog L A) : prog L B :=
  match p with
  | Ret a => f a
  | Panic => Panic
  | OutOfFuel => OutOfFuel
  | OnState g k => OnState g (λ l, prog_bind f (k l))
  | Submit tx tag k => Submit tx tag (λ ans, prog_bind f (k ans))
  end.

#[export] Instance prog_mret L : MRet (prog L) := λ A a, Ret a.
#[export] Instance prog_mbind L : MBind (prog L) := λ A B f p, prog_bind f p.

(** [let x = match p { Ok(x) => x, Err(e) => return e };] *)
Definition or_return {L A} (p : prog L (HttpResponse + A)) (k : A → prog L HttpResponse) : prog L HttpResponse :=
  r ← p; match r with inl e => mret e | inr x => k x end.
Notation "x ←? p ; k" := (or_return p (λ x, k)) (at level 20, p at level 100, k at level 200, only parsing).

(** The counters of client tags, one per worker thread of the server. *)
Class ClientTags (L : Type) := {
  worker_tags : L → list Z;
  set_worker_tags : list Z → L → L }.

Section effects.
Context {L : Type} `{ClientTags L} (w : nat).

(** [state.curr_client_tag.fetch_add(1, ..)] on worker [w]. *)
Definition next_tag : prog L Z :=
  OnState (λ l, set_worker_tags (alter (λ t, t ⊕ 1) w (worker_tags l)) l)
        (λ l, Ret (default 0 (worker_tags l !! w))).

(** [x.load(..)] *)
Definition load {A} (f : L → A) : prog L A := OnState id (λ l, Ret (f l)).
Definition update (f : L → L) : prog L unit := OnState f (λ _, Ret tt).

Definition expect {A} (o : option A) : prog L A := from_option Ret Panic o.

(** The transaction [send] builds. *)
Definition transaction (isRead : bool) (ops : list ProtoTransactionOp) : ProtoTransaction :=
  if isRead then mkTx (Some (mkPhase ops)) None None false false
  else mkTx None (Some (mkPhase ops)) None false false.

(** The first part of [send], up to the receipt. *)
Definition ask (tx : ProtoTransaction) : prog L (HttpResponse + ProtoTransactionReceipt) :=
  tag ← next_tag;
  Submit tx tag (λ ans,
    match ans with
    | ARefused => Panic
    | AClosed => Ret (inl (InternalServerError (Text "Error receiving response")))
    | AGarbled => Ret (inl (InternalServerError (Text "Error decoding response")))
    | AReply r =>
        match client_reply r with
        | None => Panic
        | Some (Receipt receipt) => Ret (inr receipt)
        | Some _ => Ret (inl (NotFound (Json [("message"%string, JStr "error, no Receipt found"); ("result"%string, JList [])])))
        end
    end).

Definition probe_transaction (block_n : Z) : ProtoTransaction :=
  mkTx (Some (mkPhase [mkOp (op_type_to_i32 Probe) [be_bytes 8 block_n]])) None None false false.

(** The wait for the byzantine commit of a block. *)
Definition await_byz_commit (block_n : Z) : prog L unit :=
  tag ← next_tag;
  Submit (probe_transaction block_n) tag (λ ans, match ans with ARefused => Panic | _ => Ret tt end).

End effects.

Definition read_op (key : bytes) : ProtoTransactionOp := mkOp (op_type_to_i32 Read) [key].
Definition write_op (key val : bytes) : ProtoTransactionOp := mkOp (op_type_to_i32 Write) [key; val].
Definition increment_op (key : bytes) : ProtoTransactionOp := mkOp (op_type_to_i32 Increment) [key].
Definition cas_op (operands : list bytes) : ProtoTransactionOp := mkOp (op_type_to_i32 Cas) operands.

(** [x.to_be_bytes().to_vec()] on an i64. *)
Definition i64_to_be (z : Z) : bytes := be_bytes 8 z.

Lemma spec_write m key val : spec_op m (write_op key val) = Some (<[key := val]> m, [mkOpResult true []]).
Proof. reflexivity. Qed.

Lemma spec_increment m key :
  spec_op m (increment_op key) =
  (z ← from_option i64_from_be (Some 0) (m !! key);
   Some (<[key := be_bytes 8 (i64_add z 1)]> m, [mkOpResult true [be_bytes 8 (i64_add z 1)]])).
Proof. reflexivity. Qed.

(** * The node *)

(** Where a logged transaction ended up. *)
Record Placement := mkPlacement {
  pl_hash : HashType;
  pl_n : Z;
  pl_tx : Z;
  pl_byz : list ProtoByzResponse }.

(** The unlogged operations of the engine, on the map it reads as. *)
Definition unlogged_op (m : store) (op : ProtoTransactionOp) : list ProtoTransactionOpResult :=
  match operands op with
  | [key] => [match m !! key with Some v => mkOpResult true [v] | None => mkOpResult false [] end]
  | _ => []
  end.
Definition unlogged (m : store) (tx : ProtoTransaction) : ProtoTransactionResult :=
  match on_receive tx with
  | None => mkTxResult []
  | Some ph => mkTxResult (concat (map (unlogged_op m) (phase_ops ph)))
  end.

(** What the node does with a transaction: the routing of the batch proposer, the execution
    by the engine, the receipt of the reply processor.  [None] is a panic of the engine. *)
Definition serve (pl : Placement) (m : store) (tx : ProtoTransaction) (tag : Z)
    : option (store * ProtoClientReply) :=
  let chan := mkAckChan 0 tag Anon in
  '(m', cmd) ←
    match on_receive tx with
    | Some _ =>
        let '(is_probe, block_n) := is_probe_tx tx in
        Some (m, if is_probe then RpProbe block_n [chan] else RpUnlogged (Some (unlogged m tx)) chan)
    | None =>
        '(m', r) ← exec_tx spec_op m tx;
        Some (m', RpCrashCommit (pl_n pl) (pl_tx pl) (pl_hash pl) r chan (pl_byz pl))
    end;
  replies ← process_reply_command cmd;
  r ← head replies;
  Some (m', r.2).

(** Answers that are not receipts: the request failed. *)
Definition no_receipt (ans : Answer) : bool :=
  match ans with
  | AReply (mkClientReply (Some (Receipt _)) _) => false
  | _ => true
  end.

(** A handler running alone, every request served and every logged transaction placed at
    [pl]; [None] is a panic, of the handler or of the engine. *)
Fixpoint run {L A} (pl : Placement) (p : prog L A) (l : L) (m : store) : option (A * L * store) :=
  match p with
  | Ret a => Some (a, l, m)
  | Panic | OutOfFuel => None
  | OnState f k => run pl (k l) (f l) m
  | Submit tx tag k => '(m', r) ← serve pl m tx tag; run pl (k (AReply r)) l m'
  end.

(** The server process, the store, the transactions whose request failed but which may
    still be executed, and the handlers. *)
Record World (L : Type) := mkWorld {
  w_local : L;
  w_store : store;
  w_late : list ProtoTransaction;
  w_pool : list (prog L HttpResponse) }.
Arguments mkWorld {L}.
Arguments w_local {L}.
Arguments w_store {L}.
Arguments w_late {L}.
Arguments w_pool {L}.

Inductive wstep {L} : World L → World L → Prop :=
  | step_state i f k l m late pool :
      pool !! i = Some (OnState f k) →
      wstep (mkWorld l m late pool) (mkWorld (f l) m late (<[i := k l]> pool))
  | step_served i tx tag k pl m' r l m late pool :
      pool !! i = Some (Submit tx tag k) →
      serve pl m tx tag = Some (m', r) →
      wstep (mkWorld l m late pool) (mkWorld l m' late (<[i := k (AReply r)]> pool))
  | step_failed i tx tag k ans l m late pool :
      pool !! i = Some (Submit tx tag k) →
      no_receipt ans = true →
      wstep (mkWorld l m late pool) (mkWorld l m (tx :: late) (<[i := k ans]> pool))
  | step_late tx tag pl m' r l m late1 late2 pool :
      serve pl m tx tag = Some (m', r) →
      wstep (mkWorld l m (late1 ++ tx :: late2) pool) (mkWorld l m' (late1 ++ late2) pool).

(** The transactions a handler may submit, whatever it is answered. *)
Inductive sends {L A} : prog L A → ProtoTransaction → Prop :=
  | sends_here tx tag k : sends (Submit tx tag k) tx
  | sends_state f k l tx : sends (k l) tx → sends (OnState f k) tx
  | sends_after tx' tag k ans tx : sends (k ans) tx → sends (Submit tx' tag k) tx.

(** The handler answers after at most [n] requests, whatever they are answered. *)
Fixpoint answers_within {L A} (n : nat) (p : prog L A) : Prop :=
  match p with
  | Ret _ | Panic => True
  | OutOfFuel => False
  | OnState _ k => ∀ l, answers_within n (k l)
  | Submit _ _ k => match n with O => False | S n' => ∀ ans, answers_within n' (k ans) end
  end.

(** * The logic *)

Section rg.
Context {L : Type} (N : nat) (J : L → Prop) (I : nat → store → Prop).

(** Executing [tx] keeps the invariant; the index of the invariant counts steps. *)
Definition keeps (tx : ProtoTransaction) : Prop :=
  ∀ n pl tag m m' r, (n < N)%nat → I n m → serve pl m tx tag = Some (m', r) → I (S n) m'.

(** The answers [tx] may get from a store with the invariant. *)
Definition may_answer (tx : ProtoTransaction) (tag : Z) (ans : Answer) : Prop :=
  no_receipt ans = true ∨
  ∃ n pl m m' r, (n < N)%nat ∧ I n m ∧ serve pl m tx tag = Some (m', r) ∧ ans = AReply r.

Fixpoint rg {A} (p : prog L A) (Q : A → Prop) : Prop :=
  match p with
  | Ret a => Q a
  | Panic | OutOfFuel => True
  | OnState f k => ∀ l, J l → J (f l) ∧ rg (k l) Q
  | Submit tx tag k => keeps tx ∧ ∀ ans, may_answer tx tag ans → rg (k ans) Q
  end.

Lemma rg_mono {A} (p : prog L A) (Q Q' : A → Prop) : (∀ a, Q a → Q' a) → rg p Q → rg p Q'.
Proof.
  intros HQ. induction p as [a| | |f k IH|tx tag k IH]; simpl; [apply HQ|done|done| |].
  - intros Hk l Hl. destruct (Hk l Hl). split; [done|]. by apply IH.
  - intros [Ht Hk]. split; [done|]. intros ans Ha. by apply IH, Hk.
Qed.

Lemma rg_bind {A B} (p : prog L A) (f : A → prog L B) Q : rg p (λ a, rg (f a) Q) → rg (mbind f p) Q.
Proof.
  unfold mbind, prog_mbind. induction p as [a| | |g k IH|tx tag k IH]; simpl; [done|done|done| |].
  - intros Hk l Hl. destruct (Hk l Hl). split; [done|]. by apply IH.
  - intros [Ht Hk]. split; [done|]. intros ans Ha. by apply IH, Hk.
Qed.

Lemma rg_or_return {A} (p : prog L (HttpResponse + A)) k (Q : HttpResponse → Prop) :
  rg p (λ r, match r with inl e => Q e | inr x => rg (k x) Q end) → rg (or_return p k) Q.
Proof. intros Hp. apply rg_bind. eapply rg_mono; [|exact Hp]. by intros [e|x]. Qed.

Lemma rg_expect {A} (o : option A) (Q : A → Prop) : (∀ a, o = Some a → Q a) → rg (expect o) Q.
Proof. destruct o; simpl; auto. Qed.

(** Postcondition of a handler: what holds of its response once it has one. *)
Definition finished (Q : HttpResponse → Prop) (p : prog L HttpResponse) : Prop :=
  ∀ r, p = Ret r → Q r.

Context (I_weaken : ∀ n m, I n m → I (S n) m).

Lemma rg_step (Qs : list (HttpResponse → Prop)) n (w w' : World L) :
  (n < N)%nat → wstep w w' →
  J (w_local w) → I n (w_store w) → Forall keeps (w_late w) → Forall2 (λ p, rg p) (w_pool w) Qs →
  J (w_local w') ∧ I (S n) (w_store w') ∧ Forall keeps (w_late w') ∧ Forall2 (λ p, rg p) (w_pool w') Qs.
Proof.
  intros Hn Hstep HJ HI Hlate Hpool.
  assert (∀ i p p', w_pool w !! i = Some p → (∀ Q, rg p Q → rg p' Q) →
    Forall2 (λ p, rg p) (<[i := p']> (w_pool w)) Qs) as Hins.
  { intros i p p' Hi Hp. apply Forall2_lookup. intros j. pose proof (proj1 (Forall2_lookup _ _ _) Hpool j) as Hj.
    destruct (decide (i = j)) as [<-|Hne].
    - rewrite Hi in Hj. inversion Hj as [? Q HQ Heq|]; subst.
      rewrite list_lookup_insert_eq by by eapply lookup_lt_Some. constructor. by apply Hp.
    - by rewrite list_lookup_insert_ne. }
  destruct Hstep as [i f k l m late pool Hi|i tx tag k pl m' r l m late pool Hi Hs
                    |i tx tag k ans l m late pool Hi Ha|tx tag pl m' r l m late1 late2 pool Hs]; simpl in *.
  - destruct (Forall2_lookup_l _ _ _ _ _ Hpool Hi) as (Q & _ & HQ). simpl in HQ.
    split; [by apply HQ|]. split; [by apply I_weaken|]. split; [done|].
    eapply Hins; [exact Hi|]. intros Q'. simpl. intros HQ'. by apply HQ'.
  - destruct (Forall2_lookup_l _ _ _ _ _ Hpool Hi) as (Q & _ & HQ). simpl in HQ.
    split; [done|]. split; [by eapply (proj1 HQ)|]. split; [done|].
    eapply Hins; [exact Hi|]. intros Q' [_ HQ']. apply HQ'. right. by exists n, pl, m, m', r.
  - destruct (Forall2_lookup_l _ _ _ _ _ Hpool Hi) as (Q & _ & HQ). simpl in HQ.
    split; [done|]. split; [by apply I_weaken|]. split; [by constructor; [apply HQ|]|].
    eapply Hins; [exact Hi|]. intros Q' [_ HQ']. apply HQ'. by left.
  - apply Forall_app in Hlate as [H1 H2]. inversion H2 as [|? ? Htx H2']; subst.
    split; [done|]. split; [by eapply Htx|]. split; [by apply Forall_app|done].
Qed.

Lemma rg_steps (Qs : list (HttpResponse → Prop)) n k (w w' : World L) :
  (n + k ≤ N)%nat → nsteps wstep k w w' →
  J (w_local w) → I n (w_store w) → Forall keeps (w_late w) → Forall2 (λ p, rg p) (w_pool w) Qs →
  J (w_local w') ∧ I (n + k) (w_store w') ∧ Forall2 finished Qs (w_pool w').
Proof.
  intros Hn Hk. revert n Hn. induction Hk as [w|k w1 w2 w3 Hs Hk IH]; intros n Hn HJ HI Hl Hp.
  - rewrite Nat.add_0_r. split; [done|]. split; [done|]. apply Forall2_flip. eapply Forall2_impl; [exact Hp|].
    intros p Q HQ r ->. exact HQ.
  - destruct (rg_step Qs n w1 w2) as (HJ2 & HI2 & Hl2 & Hp2); [lia|done..|].
    rewrite Nat.add_succ_r, <-Nat.add_succ_l. apply IH; [lia|done..].
Qed.

(** Handlers of the requests [reqs] started in a store with the invariant: it holds ever
    after, and every response is as its handler promises. *)
Lemma rg_requests {R} (h : R → prog L HttpResponse) (Q : R → HttpResponse → Prop) k l m reqs (w' : World L) :
  (k ≤ N)%nat → J l → I 0 m → Forall (λ rq, rg (h rq) (Q rq)) reqs →
  nsteps wstep k (mkWorld l m [] (map h reqs)) w' →
  J (w_local w') ∧ I k (w_store w') ∧
  ∀ i rq r, reqs !! i = Some rq → w_pool w' !! i = Some (Ret r) → Q rq r.
Proof.
  intros Hk HJ HI Hreqs Hs. destruct (rg_steps (map Q reqs) 0 k _ _ Hk Hs HJ HI) as (? & ? & Hp); [done| |].
  - clear Hs. induction Hreqs; simpl; by constructor.
  - split; [done|]. split; [done|]. intros i rq r Hi Hw. rewrite Forall2_lookup in Hp. specialize (Hp i).
    rewrite lookup_map, Hi, Hw in Hp. inversion Hp as [? ? HQ|]; subst. by apply HQ.
Qed.

End rg.

(** * Requests *)

Definition read_ops (keys : list bytes) : list ProtoTransactionOp := map read_op keys.
Definition read_results (m : store) (keys : list bytes) : list ProtoTransactionOpResult :=
  map (λ k, match m !! k with Some v => mkOpResult true [v] | None => mkOpResult false [] end) keys.

Definition read_receipt (m : store) (keys : list bytes) : ProtoTransactionReceipt :=
  mkReceipt [] 0 0 (Some (mkTxResult (read_results m keys))) false [].
Definition write_receipt (pl : Placement) (rs : list (list ProtoTransactionOpResult)) : ProtoTransactionReceipt :=
  mkReceipt (pl_hash pl) (pl_n pl) (pl_tx pl) (Some (mkTxResult (concat rs))) true (pl_byz pl).

Lemma serve_read pl m keys tag :
  serve pl m (transaction true (read_ops keys)) tag =
  Some (m, mkClientReply (Some (Receipt (read_receipt m keys))) tag).
Proof.
  unfold serve. cbn [transaction on_receive].
  assert (is_probe_tx (transaction true (read_ops keys)) = (false, 0)) as Hp
    by (unfold is_probe_tx; by destruct keys as [|? []]).
  cbn [transaction] in Hp. rewrite Hp. unfold unlogged. cbn.
  assert (concat (map (unlogged_op m) (read_ops keys)) = read_results m keys) as ->; [|done].
  unfold read_ops, read_results. induction keys as [|k keys IH]; simpl; [done|]. rewrite IH; [done|].
  unfold is_probe_tx. by destruct keys as [|? []].
Qed.

Lemma serve_write pl m ops tag :
  serve pl m (transaction false ops) tag =
  ('(m', rs) ← run_all spec_op m ops; Some (m', mkClientReply (Some (Receipt (write_receipt pl rs))) tag)).
Proof.
  unfold serve, exec_tx. cbn [transaction on_receive on_crash_commit phase_ops].
  by destruct (run_all spec_op m ops) as [[m' rs]|].
Qed.

Lemma serve_probe pl m n tag : 0 ≤ n < 2 ^ 64 →
  serve pl m (probe_transaction n) tag = Some (m, mkClientReply (Some (Receipt (mkReceipt [] n 0 None false []))) 0).
Proof.
  intros Hn. unfold serve, is_probe_tx, probe_transaction. cbn -[be_bytes from_be]. rewrite length_be_bytes.
  cbn -[be_bytes from_be]. rewrite from_be_be_bytes, Z.mod_small by done. done.
Qed.

Lemma serve_probe_store pl m n tag m' r : serve pl m (probe_transaction n) tag = Some (m', r) → m' = m.
Proof.
  unfold serve, is_probe_tx, probe_transaction. cbn -[be_bytes from_be]. rewrite length_be_bytes.
  cbn -[be_bytes from_be]. by intros [= <- <-].
Qed.

Section running.
Context {L : Type} `{ClientTags L} (w : nat) (pl : Placement).

(** The process state after a tag is taken. *)
Definition bump (l : L) : L := set_worker_tags (alter (λ t, t ⊕ 1) w (worker_tags l)) l.

Lemma run_bind {A B} (p : prog L A) (f : A → prog L B) l m :
  run pl (mbind f p) l m = ('(a, l', m') ← run pl p l m; run pl (f a) l' m').
Proof.
  unfold mbind at 1, prog_mbind. revert l m.
  induction p as [a| | |g k IH|tx tag k IH]; intros l m; simpl; [done|done|done|apply IH|].
  destruct (serve pl m tx tag) as [[m' r]|]; simpl; [apply IH|done].
Qed.

Lemma run_or_return {A} (p : prog L (HttpResponse + A)) k l m :
  run pl (or_return p k) l m =
  ('(r, l', m') ← run pl p l m; match r with inl e => Some (e, l', m') | inr x => run pl (k x) l' m' end).
Proof. unfold or_return. rewrite run_bind. by destruct (run pl p l m) as [[[[e|x] l'] m']|]. Qed.

Lemma run_ask_read keys l m :
  run pl (ask w (transaction true (read_ops keys))) l m = Some (inr (read_receipt m keys), bump l, m).
Proof. cbn -[serve transaction]. rewrite serve_read. done. Qed.

Lemma run_ask_write ops l m :
  run pl (ask w (transaction false ops)) l m =
  ('(m', rs) ← run_all spec_op m ops; Some (inr (write_receipt pl rs), bump l, m')).
Proof. cbn -[serve transaction]. rewrite serve_write. by destruct (run_all spec_op m ops) as [[m' rs]|]. Qed.

Lemma run_await_byz_commit n l m : 0 ≤ n < 2 ^ 64 → run pl (await_byz_commit w n) l m = Some (tt, bump l, m).
Proof. intros Hn. cbn -[serve probe_transaction]. by rewrite serve_probe. Qed.

End running.

Section reasoning.
Context {L : Type} `{ClientTags L} (w : nat) (N : nat) (J : L → Prop) (I : nat → store → Prop).
Context (J_tags : ∀ ts l, J l → J (set_worker_tags ts l)) (I_weaken : ∀ n m, I n m → I (S n) m).

(** [I] is an invariant of the operations [ops], executed as one transaction. *)
Definition keeps_ops (ops : list ProtoTransactionOp) : Prop :=
  ∀ n m m' rs, (n < N)%nat → I n m → run_all spec_op m ops = Some (m', rs) → I (S n) m'.

Lemma keeps_write ops : keeps_ops ops → keeps N I (transaction false ops).
Proof.
  intros Hk n pl tag m m' r Hn HI. rewrite serve_write.
  destruct (run_all spec_op m ops) as [[m1 rs]|] eqn:Hr; simpl; [|done]. intros [= <- <-]. by eapply Hk.
Qed.

Lemma keeps_read keys : keeps N I (transaction true (read_ops keys)).
Proof. intros n pl tag m m' r Hn HI. rewrite serve_read. intros [= <- <-]. by apply I_weaken. Qed.

Lemma rg_next_tag (Q : Z → Prop) : (∀ t, Q t) → rg N J I (next_tag w) Q.
Proof. intros HQ l Hl. split; [by apply J_tags|]. apply HQ. Qed.

Lemma rg_await_byz_commit n (Q : unit → Prop) : Q tt → rg N J I (await_byz_commit w n) Q.
Proof.
  intros HQ l Hl. split; [by apply J_tags|]. split; [|by intros []].
  intros n' pl tag m m' r _ HI ->%serve_probe_store. by apply I_weaken.
Qed.

Lemma rg_ask tx (Q : HttpResponse + ProtoTransactionReceipt → Prop) :
  keeps N I tx → (∀ e, http_status e ≠ 200 → http_status e ≠ 401 → Q (inl e)) →
  (∀ n pl tag m m' rc t, (n < N)%nat → I n m →
     serve pl m tx tag = Some (m', mkClientReply (Some (Receipt rc)) t) → Q (inr rc)) →
  rg N J I (ask w tx) Q.
Proof.
  intros Hk He Hr l Hl. split; [by apply J_tags|]. split; [done|].
  intros ans [Hf|(n & pl & m & m' & r & Hn & HI & Hs & ->)].
  - by destruct ans as [| | |[[[]|] t]]; simpl in *; try apply He.
  - destruct r as [[[rc| | |]|] t]; simpl; try done; try by apply He. by eapply Hr.
Qed.

Lemma rg_ask_read keys (Q : HttpResponse + ProtoTransactionReceipt → Prop) :
  (∀ e, http_status e ≠ 200 → http_status e ≠ 401 → Q (inl e)) →
  (∀ n m, (n < N)%nat → I n m → Q (inr (read_receipt m keys))) →
  rg N J I (ask w (transaction true (read_ops keys))) Q.
Proof.
  intros He Hr. apply rg_ask; [apply keeps_read|done|]. intros n pl tag m m' rc t Hn HI.
  rewrite serve_read. intros [= <- <- <-]. by eapply Hr.
Qed.

Lemma rg_ask_write ops (Q : HttpResponse + ProtoTransactionReceipt → Prop) :
  keeps_ops ops → (∀ e, http_status e ≠ 200 → http_status e ≠ 401 → Q (inl e)) →
  (∀ n pl m m' rs, (n < N)%nat → I n m → run_all spec_op m ops = Some (m', rs) → Q (inr (write_receipt pl rs))) →
  rg N J I (ask w (transaction false ops)) Q.
Proof.
  intros Hk He Hr. apply rg_ask; [by apply keeps_write|done|]. intros n pl tag m m' rc t Hn HI.
  rewrite serve_write. destruct (run_all spec_op m ops) as [[m1 rs]|] eqn:Hops; simpl; [|done].
  intros [= <- <- <-]. by eapply Hr.
Qed.

End reasoning.

(** * The engine behind the node *)

Lemma kvs_unlogged_serves e m tx :
  reads (kvs_state e) m → on_receive tx ≠ None → kvs_unlogged tx e = Some (unlogged m tx, e).
Proof.
  intros Hr Ho. unfold kvs_unlogged, unlogged. destruct (on_receive tx) as [ph|]; [|done].
  assert (mapM (kvs_unlogged_op (kvs_state e)) (phase_ops ph) = Some (map (unlogged_op m) (phase_ops ph))) as ->; [|done].
  assert (∀ op, kvs_unlogged_op (kvs_state e) op = Some (unlogged_op m op)) as Hop.
  { intros op. unfold kvs_unlogged_op, unlogged_op. destruct (operands op) as [|key []]; try done. by rewrite (Hr key). }
  induction (phase_ops ph) as [|op ops IH]; [done|]. simpl. rewrite Hop. simpl. by rewrite IH.
Qed.

(** A block with the transaction, executed by the engine, has the result of the receipt. *)
Lemma kvs_crash_commit_serves e m b tx pl tag m' r :
  reads (kvs_state e) m → pb_tx_list (cb_block b) = [tx] → on_receive tx = None →
  serve pl m tx tag = Some (m', r) →
  ∃ e' res, kvs_crash_commit [b] e = Some ([[res]], e') ∧ reads (kvs_state e') m' ∧
    r = mkClientReply (Some (Receipt (mkReceipt (pl_hash pl) (pl_n pl) (pl_tx pl) (Some res) true (pl_byz pl)))) tag.
Proof.
  intros Hr Hb Ho. unfold serve. rewrite Ho. destruct (exec_tx spec_op m tx) as [[m1 res]|] eqn:Hx; [|done].
  intros [= <- <-]. destruct (exec_txs_spec (block_n b) (kvs_state e) m b m1 [res]) as (s' & Hs' & Hr' & _); [done| |].
  { unfold spec_block, exec_txs. rewrite Hb. simpl. by rewrite Hx. }
  eexists _, res. unfold kvs_crash_commit, exec_block. simpl. fold (block_n b). rewrite Hs'. simpl. done.
Qed.

(** * i64 values in the store *)

Lemma be_bytes_mod z : be_bytes 8 (z mod 2 ^ 64) = be_bytes 8 z.
Proof.
  pose proof (be_bytes_from_be (be_bytes 8 z)) as Hz. rewrite length_be_bytes, from_be_be_bytes in Hz. exact Hz.
Qed.

Lemma i64_from_be_bytes z : i64_from_be (be_bytes 8 z) = Some (as_i64 z).
Proof.
  unfold i64_from_be. rewrite length_be_bytes. cbn [Nat.eqb]. rewrite from_be_be_bytes.
  change (256 ^ Z.of_nat 8) with (2 ^ 64). unfold as_i64, wrap64. by rewrite Zmod_mod.
Qed.

Lemma i64_from_be_Some v z : i64_from_be v = Some z → - 2 ^ 63 ≤ z < 2 ^ 63 ∧ be_bytes 8 z = v.
Proof.
  unfold i64_from_be. destruct (Nat.eqb_spec (length v) 8) as [Hl|]; [|done]. intros [= <-].
  split; [apply as_i64_range|]. rewrite <-(be_bytes_from_be v) at 2. rewrite Hl, <-be_bytes_mod, <-(be_bytes_mod (from_be v)).
  f_equal. unfold as_i64, wrap64. destruct (_ <? _); [by rewrite Zmod_mod|].
  rewrite <-(Z_mod_plus_full _ 1). replace (from_be v mod 2 ^ 64 - 2 ^ 64 + 1 * 2 ^ 64) with (from_be v mod 2 ^ 64) by lia.
  by rewrite Zmod_mod.
Qed.

Lemma i64_from_be_small z : - 2 ^ 63 ≤ z < 2 ^ 63 → i64_from_be (be_bytes 8 z) = Some z.
Proof. intros Hz. by rewrite i64_from_be_bytes, as_i64_small. Qed.

(** * What handlers send *)

Section sending.
Context {L : Type} `{ClientTags L} (w : nat).

Lemma sends_bind {A B} (p : prog L A) (f : A → prog L B) tx :
  sends (mbind f p) tx → sends p tx ∨ ∃ a, sends (f a) tx.
Proof.
  unfold mbind, prog_mbind. induction p as [a| | |g k IH|tx' tag k IH]; simpl; intros Hs; [by eauto|by inversion Hs..| |].
  - inversion Hs as [|? ? l ? Hl|]; simplify_eq. destruct (IH _ Hl) as [|]; [left; by econstructor|by right].
  - inversion Hs as [| |? ? ? ans ? Ha]; simplify_eq; [left; constructor|].
    destruct (IH _ Ha) as [|]; [left; by eapply sends_after|by right].
Qed.

Lemma sends_or_return {A} (p : prog L (HttpResponse + A)) k tx :
  sends (or_return p k) tx → sends p tx ∨ ∃ x, sends (k x) tx.
Proof. intros [?|[[e|x] Hs]]%sends_bind; [by left|inversion Hs|by eauto]. Qed.

Lemma sends_ret {A} (a : A) tx : ¬ sends (mret a : prog L A) tx.
Proof. intros Hs. inversion Hs. Qed.

Lemma sends_ask tx' tx : sends (ask w tx') tx → tx = tx'.
Proof.
  intros Hs. inversion Hs as [|? ? l ? Hl|]; simplify_eq. inversion Hl as [| |? ? ? ans ? Ha]; simplify_eq; [done|].
  destruct ans as [| | |[[[]|] t]]; inversion Ha.
Qed.

Lemma sends_await n tx : sends (await_byz_commit w n) tx → tx = probe_transaction n.
Proof.
  intros Hs. inversion Hs as [|? ? l ? Hl|]; simplify_eq. inversion Hl as [| |? ? ? ans ? Ha]; simplify_eq; [done|].
  destruct ans; inversion Ha.
Qed.

(** Handlers all of whose transactions keep an invariant of the store. *)
Lemma rg_of_sends {A : Type} (N : nat) (I : nat → store → Prop) (p : prog L A) :
  (∀ tx, sends p tx → keeps N I tx) → rg N (λ _, True) I p (λ _, True).
Proof.
  induction p as [a| | |f k IH|tx tag k IH]; simpl; intros Hk; [done..| |].
  - intros l _. split; [done|]. apply IH. intros tx Htx. apply Hk. by econstructor.
  - split; [apply Hk; constructor|]. intros ans _. apply IH. intros tx' Htx. apply Hk. by eapply sends_after.
Qed.

Lemma keeps_probe (N : nat) (I : nat → store → Prop) n :
  (∀ n m, I n m → I (S n) m) → keeps N I (probe_transaction n).
Proof. intros HI n' pl tag m m' r _ Hm ->%serve_probe_store. by apply HI. Qed.

End sending.

(** * Logs *)

Lemma run_all_blocks (bs : list CachedBlock) m m' rs :
  run_all spec_block m bs = Some (m', rs) →
  run_all (exec_tx spec_op) m (concat (map (λ b, pb_tx_list (cb_block b)) bs)) = Some (m', concat rs).
Proof.
  revert m rs. induction bs as [|b bs IH]; intros m rs Hr; simplify_eq/=; [done|].
  destruct (spec_block m b) as [[m1 r]|] eqn:Hb; simplify_eq/=.
  destruct (run_all spec_block m1 bs) as [[m2 rs']|] eqn:Hbs; simplify_eq/=.
  rewrite run_all_app. unfold spec_block, exec_txs in Hb. rewrite Hb. simpl. by rewrite (IH _ _ Hbs).
Qed.

(** * Schedules *)

(** The choices of a run of the world, and the run. *)
Inductive Choice :=
  | ChState (i : nat)
  | ChServed (i : nat) (pl : Placement)
  | ChFailed (i : nat) (ans : Answer)
  | ChLate (j : nat) (pl : Placement).

Definition choose {L} (c : Choice) (w : World L) : option (World L) :=
  let '(mkWorld l m late pool) := w in
  match c with
  | ChState i =>
      match pool !! i with Some (OnState f k) => Some (mkWorld (f l) m late (<[i := k l]> pool)) | _ => None end
  | ChServed i pl =>
      match pool !! i with
      | Some (Submit tx tag k) =>
          '(m', r) ← serve pl m tx tag; Some (mkWorld l m' late (<[i := k (AReply r)]> pool))
      | _ => None
      end
  | ChFailed i ans =>
      match pool !! i with
      | Some (Submit tx tag k) => if no_receipt ans then Some (mkWorld l m (tx :: late) (<[i := k ans]> pool)) else None
      | _ => None
      end
  | ChLate j pl =>
      tx ← late !! j;
      '(m', _) ← serve pl m tx 0;
      Some (mkWorld l m' (take j late ++ drop (S j) late) pool)
  end.

Fixpoint schedule {L} (cs : list Choice) (w : World L) : option (World L) :=
  match cs with [] => Some w | c :: cs' => w' ← choose c w; schedule cs' w' end.

Lemma choose_wstep {L} c (w w' : World L) : choose c w = Some w' → wstep w w'.
Proof.
  destruct w as [l m late pool], c as [i|i pl|i ans|j pl]; simpl.
  - destruct (pool !! i) as [[]|] eqn:Hi; intros; simplify_eq. by constructor.
  - destruct (pool !! i) as [[| | | |tx tag k]|] eqn:Hi; try done.
    destruct (serve pl m tx tag) as [[m' r]|] eqn:Hs; simpl; [|done]. intros [= <-]. by eapply step_served.
  - destruct (pool !! i) as [[| | | |tx tag k]|] eqn:Hi; try done. destruct (no_receipt ans) eqn:Ha; [|done].
    intros [= <-]. by eapply step_failed.
  - destruct (late !! j) as [tx|] eqn:Hj; simpl; [|done].
    destruct (serve pl m tx 0) as [[m' r]|] eqn:Hs; simpl; [|done]. intros [= <-].
    rewrite <-(take_drop_middle late j tx Hj) at 1. by eapply step_late.
Qed.

Lemma schedule_nsteps {L} cs (w w' : World L) : schedule cs w = Some w' → nsteps wstep (length cs) w w'.
Proof.
  revert w. induction cs as [|c cs IH]; intros w; simpl; [intros [= <-]; constructor|].
  destruct (choose c w) as [w1|] eqn:Hc; simpl; [|done]. intros Hs. econstructor; [by eapply choose_wstep|by apply IH].
Qed.

(** The responses of the handlers that have one. *)
Definition responses {L} (w : World L) : list (option HttpResponse) :=
  map (λ p, match p with Ret r => Some r | _ => None end) (w_pool w).
Definition statuses {L} (w : World L) : list (option Z) := map (fmap http_status) (responses w).

(** Runs handler [i] through [k] requests, each with its tag. *)
Fixpoint go (i k : nat) (pl : Placement) : list Choice :=
  match k with O => [] | S k' => ChState i :: ChServed i pl :: go i k' pl end.

(** The transaction a handler submits after the given answers. *)
Fixpoint sent_after {L A} (answers : list Answer) (l : L) (p : prog L A) : option ProtoTransaction :=
  match p with
  | OnState f k => sent_after answers (f l) (k l)
  | Submit tx _ k => match answers with [] => Some tx | ans :: answers' => sent_after answers' l (k ans) end
  | _ => None
  end.

Lemma sent_after_sends {L A} answers l (p : prog L A) tx : sent_after answers l p = Some tx → sends p tx.
Proof.
  revert answers l. induction p as [a| | |f k IH|tx' tag k IH]; intros answers l; simpl; try done.
  - intros Hs. eapply sends_state. by eapply IH.
  - destruct answers as [|ans answers]; [intros [= <-]; constructor|]. intros Hs. eapply sends_after. by eapply IH.
Qed.

(** The reply with which the node serves a read of [keys] from store [m]. *)
Definition read_answer (m : store) (keys : list bytes) : Answer :=
  AReply (mkClientReply (Some (Receipt (read_receipt m keys))) 0).

(** * Bounds on the number of requests *)

Lemma answers_mono {L A} n n' (p : prog L A) : (n ≤ n')%nat → answers_within n p → answers_within n' p.
Proof.
  revert n n'. induction p as [a| | |f k IH|tx tag k IH]; intros n n' Hn; simpl; [done..| |].
  - intros Hk l. by eapply IH.
  - destruct n as [|n], n' as [|n']; [done|done|lia|]. intros Hk ans. eapply IH; [|apply Hk]. lia.
Qed.

Lemma answers_bind {L A B} n k (p : prog L A) (f : A → prog L B) :
  answers_within n p → (∀ a, answers_within k (f a)) → answers_within (n + k) (mbind f p).
Proof.
  unfold mbind, prog_mbind. intros Hp Hf. revert n Hp.
  induction p as [a| | |g c IH|tx tag c IH]; intros n Hp; simpl in *; try done.
  - eapply answers_mono; [|apply Hf]. lia.
  - intros l. by apply IH.
  - destruct n as [|n]; [done|]. intros ans. by apply IH.
Qed.

Lemma answers_or_return {L A} n k (p : prog L (HttpResponse + A)) c :
  answers_within n p → (∀ x, answers_within k (c x)) → answers_within (n + k) (or_return p c).
Proof. intros Hp Hc. apply answers_bind; [done|]. by intros [e|x]. Qed.

Lemma answers_ask {L} `{ClientTags L} w tx : answers_within 1 (ask w tx : prog L _).
Proof. intros l [| | |[[[]|] t]]; exact I. Qed.

Lemma answers_await {L} `{ClientTags L} w n : answers_within 1 (await_byz_commit w n : prog L _).
Proof. intros l []; exact I. Qed.

(** Requests handled one after the other. *)
Fixpoint run_each {L} (pl : Placement) (ps : list (prog L HttpResponse)) (l : L) (m : store)
    : option (list HttpResponse * L * store) :=
  match ps with
  | [] => Some ([], l, m)
  | p :: ps' =>
      '(r, l1, m1) ← run pl p l m;
      '(rs, l2, m2) ← run_each pl ps' l1 m1;
      Some (r :: rs, l2, m2)
  end.

(** * Lists of users *)

(** serde_json on a [Vec<String>]. *)
Class UserListCodec := {
  users_to_vec : list string → bytes;
  users_from_slice : bytes → option (list string) }.
Class UserListLaws `{UserListCodec} := {
  users_roundtrip : ∀ us, users_from_slice (users_to_vec us) = Some us;
  users_nonempty : ∀ us, users_to_vec us ≠ [] }.

(** A concrete codec: every byte is escaped, every name terminated. *)
Definition toy_encode (s : string) : bytes := concat (map (λ b, [Byte.x01; b]) (into_bytes s)) ++ [Byte.x00].
Fixpoint toy_decode (l cur : bytes) : option (list string) :=
  match l with
  | [] => Some []
  | Byte.x00 :: l' => cons (String.string_of_list_byte cur) <$> toy_decode l' []
  | _ :: b :: l' => toy_decode l' (cur ++ [b])
  | [_] => None
  end.
Definition toy_users : UserListCodec :=
  {| users_to_vec := λ us, Byte.x02 :: concat (map toy_encode us);
     users_from_slice := λ v, match v with Byte.x02 :: l => toy_decode l [] | _ => None end |}.

Lemma toy_users_laws : @UserListLaws toy_users.
Proof.
  split; [|done]. intros us. simpl. induction us as [|u us IH]; [done|]. simpl. unfold toy_encode at 1.
  assert (∀ bs cur rest, toy_decode ((concat (map (λ b, [Byte.x01; b]) bs) ++ [Byte.x00]) ++ rest) cur =
    cons (String.string_of_list_byte (cur ++ bs)) <$> toy_decode rest []) as Hd.
  { induction bs as [|b bs IHb]; intros cur rest; simpl; [by rewrite app_nil_r|].
    rewrite IHb. by rewrite <-app_assoc. }
  rewrite Hd, IH. simpl. by rewrite String.string_of_list_byte_of_string.
Qed.
