(* ===== verification/SmallBank.v ===== *)
(** The SmallBank application (src/contrib/smallbank/frontend.rs): accounts are two keys
    of the store, payments are retried compare-and-swaps of two balances.  Theorems: the
    money of the checking accounts is conserved by every interleaving of payments, and from
    the empty store by every log of payments and first registrations; a payment is an atomic
    transfer on every branch; it answers after a bounded number of requests. *)

From stdpp Require Import base numbers list gmap strings option relations pretty.
From S2P Require Import Prelude Types Config Serialize ClientReply App Kvs Sequencer Frontend.

#[local] Open Scope string_scope.
#[local] Open Scope Z_scope.

(** * The front end *)

(** The state of the server process; [send_threshold] is an argument of the handlers. *)
Record Bank := mkBank { bank_tags : list Z }.

#[export] Instance bank_client_tags : ClientTags Bank := {
  worker_tags := bank_tags;
  set_worker_tags := λ ts _, mkBank ts }.

Record SendPayload := mkSendPayload { sender_account : string; receiver_account : string; send_amount : Z }.

Definition savings_account_name (username : string) : bytes := into_bytes ("savings:" +:+ username).
Definition checking_account_name (username : string) : bytes := into_bytes ("checking:" +:+ username).

(** The values of the results; [None] when an operation did not succeed. *)
Fixpoint op_values_ok (rs : list ProtoTransactionOpResult) : option (list bytes) :=
  match rs with
  | [] => Some []
  | r :: rs' => if op_success r then app (op_values r) <$> op_values_ok rs' else None
  end.

(** [{:?}] on a [Vec<Vec<u8>>]. *)
Fixpoint commas (l : list string) : string :=
  match l with
  | [] => ""
  | [s] => s
  | s :: l' => s +:+ ", " +:+ commas l'
  end.
Definition debug_vec (l : list bytes) : string :=
  "[" +:+ commas (map (λ v, "[" +:+ commas (map (λ b, pretty (byte_val b)) v) +:+ "]") l) +:+ "]".

Definition dollars (balance : Z) : string := "$" +:+ pretty balance.

Section handlers.
Context (send_threshold : Z) (w : nat).

Definition send (transaction_ops : list ProtoTransactionOp) (isRead byz_commit : bool)
    : prog Bank (HttpResponse + list bytes) :=
  r ← ask w (transaction isRead transaction_ops);
  match r with
  | inl e => mret (inl e)
  | inr receipt =>
      let block_n := rcpt_block_n receipt in
      let finish result :=
        if negb isRead && negb (block_n =? 0) && byz_commit
        then _ ← await_byz_commit w block_n; mret (inr result)
        else mret (inr result) in
      match rcpt_results receipt with
      | Some (mkTxResult []) => mret (inr [])
      | Some (mkTxResult rs) =>
          match op_values_ok rs with
          | None => mret (inr [])
          | Some result => finish result
          end
      | None => finish []
      end
  end.

Definition balance (username : string) : prog Bank HttpResponse :=
  result ←? send [read_op (savings_account_name username); read_op (checking_account_name username)] true false;
  match result with
  | [savings; checking] =>
      match i64_from_be savings with
      | None => mret (BadRequest (Text "Expected 8 bytes for an i64"))
      | Some savings_account_balance =>
          match i64_from_be checking with
          | None => mret (BadRequest (Text "Expected8 bytes for an i64"))
          | Some checking_account_balance =>
              mret (HttpOk (Json [("account name", JStr username);
                                  ("savings balance", JStr (dollars savings_account_balance));
                                  ("checking balance", JStr (dollars checking_account_balance))]))
          end
      end
  | _ => mret (InternalServerError (Text "user account does not exist"))
  end.

Definition register (username : string) : prog Bank HttpResponse :=
  result ←? send [read_op (into_bytes username)] true false;
  match result with
  | _ :: _ => mret (Conflict (Json [("message", JStr "username already exists")]))
  | [] =>
      _ ←? send [write_op (savings_account_name username) (i64_to_be 1000000);
                 write_op (checking_account_name username) (i64_to_be 1000000)] false false;
      mret (HttpOk (Json [("message", JStr "created user with 1 million dollars in both accounts")]))
  end.

Definition payment_response (p : SendPayload) (resclone : list bytes) (send_attempts : Z) : HttpResponse :=
  HttpOk (Json
    [("message", JStr ("sent $" +:+ pretty (send_amount p) +:+ " successfully from "
                         +:+ sender_account p +:+ " to " +:+ receiver_account p));
     ("resclone", JList (map JBytes resclone));
     ("send attempts", JInt send_attempts);
     ("send threshold", JInt send_threshold)]).

(** The operands of the compare-and-swap of a payment. *)
Definition credit_op (p : SendPayload) (sender_balance receiver_balance : Z) : ProtoTransactionOp :=
  cas_op [checking_account_name (receiver_account p); i64_to_be (i64_add receiver_balance (send_amount p));
          i64_to_be receiver_balance;
          checking_account_name (sender_account p); i64_to_be (i64_sub sender_balance (send_amount p));
          i64_to_be sender_balance].

(** The loop leaves at its twentieth attempt, so 20 units of fuel are enough. *)
Fixpoint payment_loop (fuel : nat) (p : SendPayload) (attempts : Z) (resclone : list bytes) : prog Bank HttpResponse :=
  match fuel with
  | O => OutOfFuel
  | S fuel' =>
      let send_attempts := attempts + 1 in
      result ←? send [read_op (checking_account_name (sender_account p));
                      read_op (checking_account_name (receiver_account p))] true false;
      match result with
      | [sender_bytes; receiver_bytes] =>
          match i64_from_be sender_bytes with
          | None => mret (BadRequest (Text "Expected 8 bytes for an i64"))
          | Some sender_balance =>
              match i64_from_be receiver_bytes with
              | None => mret (BadRequest (Text "Expected 8 bytes for an i64"))
              | Some receiver_balance =>
                  if sender_balance <? send_amount p
                  then mret (BadRequest (Text "Sender's Account does not have enough money"))
                  else
                    result ←? send [credit_op p sender_balance receiver_balance] false
                                (send_threshold <=? send_amount p);
                    if (length result =? 2)%nat then mret (payment_response p resclone send_attempts)
                    else if send_attempts =? 20
                    then mret (RequestTimeout (Text ("retried CAS too many times: " +:+ debug_vec result)))
                    else payment_loop fuel' p send_attempts result
              end
          end
      | _ => mret (InternalServerError (Text "Sender/Reciever Account does not exist"))
      end
  end.

Definition sendpayment (p : SendPayload) : prog Bank HttpResponse :=
  if send_amount p <=? 0 then mret (BadRequest (Text "Send a positive value"))
  else payment_loop 20 p 0 [].

End handlers.

Definition home : prog Bank HttpResponse :=
  mret (HttpOk (Json [("message", JStr "hello from a non-shared, local state")])).

(** * Requests *)

Inductive BankRequest :=
  | RqHome
  | RqBalance (username : string)
  | RqRegister (username : string)
  | RqPay (p : SendPayload).

Definition handler (send_threshold : Z) (w : nat) (rq : BankRequest) : prog Bank HttpResponse :=
  match rq with
  | RqHome => home
  | RqBalance u => balance w u
  | RqRegister u => register w u
  | RqPay p => sendpayment send_threshold w p
  end.

(** * The ledger *)

(** The money of the checking accounts of a store. *)
Definition is_checking (k : bytes) : bool := bool_decide (take 9 k = into_bytes "checking:").
Definition balance_of (v : bytes) : Z := default 0 (i64_from_be v).
Definition worth (k : bytes) (v : option bytes) : Z := if is_checking k then from_option balance_of 0 v else 0.
Definition ledger (m : store) : Z := map_fold (λ k v acc, worth k (Some v) + acc) 0 m.

(** All checking balances are non-negative i64 values, and they amount to [T]. *)
Record solvent (T : Z) (m : store) : Prop := {
  solvent_i64 : ∀ k v, is_checking k = true → m !! k = Some v → ∃ z, i64_from_be v = Some z ∧ 0 ≤ z;
  solvent_total : ledger m = T }.

Lemma ledger_insert k v m : ledger (<[k := v]> m) = ledger m - worth k (m !! k) + worth k (Some v).
Proof.
  assert (∀ m, m !! k = None → ledger (<[k := v]> m) = worth k (Some v) + ledger m) as Hnew.
  { intros m' Hm'. unfold ledger. rewrite map_fold_insert_L; [done| |done]. intros. lia. }
  destruct (m !! k) as [v'|] eqn:Hk.
  - rewrite <-insert_delete_eq, Hnew by by rewrite lookup_delete_eq.
    assert (ledger m = worth k (Some v') + ledger (delete k m)) as ->; [|lia].
    unfold ledger. rewrite (map_fold_delete_L _ _ k v' m); [done| |done]. intros. lia.
  - rewrite Hnew by done. unfold worth. destruct (is_checking k); simpl; lia.
Qed.

Lemma ledger_nonneg T m : solvent T m → ∀ k v, is_checking k = true → m !! k = Some v → balance_of v ≤ T.
Proof.
  intros [Hi <-] k v Hk Hv.
  assert (∀ m, (∀ k v, is_checking k = true → m !! k = Some v → 0 ≤ balance_of v) → 0 ≤ ledger m) as Hpos.
  { intros m'. unfold ledger. induction m' as [|k' v' m' Hn Hf IH] using map_first_key_ind; intros H0.
    - by rewrite map_fold_empty.
    - rewrite map_fold_insert_L; [|intros; lia|done].
      assert (0 ≤ worth k' (Some v')).
      { unfold worth. destruct (is_checking k') eqn:E; [|done]. apply (H0 k'); [done|]. apply lookup_insert_eq. }
      assert (0 ≤ map_fold (λ k v acc, worth k (Some v) + acc) 0 m'); [|lia].
      apply IH. intros k1 v1 Hk1 Hv1. apply (H0 k1); [done|]. rewrite lookup_insert_ne; [done|]. intros ->. congruence. }
  rewrite <-(insert_delete_id m k v) at 1 by done.
  rewrite ledger_insert, lookup_delete_eq. unfold worth. rewrite Hk. simpl.
  assert (0 ≤ ledger (delete k m)); [|lia]. apply Hpos. intros k1 v1 Hk1 [_ Hv1]%lookup_delete_Some.
  destruct (Hi k1 v1 Hk1 Hv1) as (z & Hz & ?). unfold balance_of. by rewrite Hz.
Qed.

(** * Payments *)

Lemma checking_is_checking u : is_checking (checking_account_name u) = true.
Proof. by apply bool_decide_eq_true. Qed.

Lemma savings_not_checking u : is_checking (savings_account_name u) = false.
Proof. by apply bool_decide_eq_false. Qed.

Lemma checking_inj u v : checking_account_name u = checking_account_name v → u = v.
Proof. by intros Heq%list_byte_of_string_inj%(inj (String.append "checking:")). Qed.

Definition pay_keys (p : SendPayload) : bytes * bytes :=
  (checking_account_name (sender_account p), checking_account_name (receiver_account p)).

Definition paid (p : SendPayload) (sb rb : Z) (m : store) : store :=
  <[(pay_keys p).1 := i64_to_be (i64_sub sb (send_amount p))]>
    (<[(pay_keys p).2 := i64_to_be (i64_add rb (send_amount p))]> m).

Lemma credit_exec p sb rb m :
  let sv := default [] (m !! (pay_keys p).1) in
  let rv := default [] (m !! (pay_keys p).2) in
  let ok := bool_decide (rv = i64_to_be rb) && bool_decide (sv = i64_to_be sb) in
  run_all spec_op m [credit_op p sb rb] =
  Some (if ok then paid p sb rb m else m, [[mkOpResult ok [rv; sv]]]).
Proof.
  intros sv rv ok. cbn -[checking_account_name i64_to_be bool_decide]. rewrite andb_true_r.
  change (default [] (m !! checking_account_name (receiver_account p))) with rv.
  change (default [] (m !! checking_account_name (sender_account p))) with sv. fold ok. by destruct ok.
Qed.

Lemma i64_to_be_Some (o : option bytes) z : default [] o = i64_to_be z → o = Some (i64_to_be z).
Proof. destruct o; simpl; [by intros ->|]. intros Hz. by apply (f_equal length) in Hz. Qed.

(** What a compare-and-swap of two different accounts does to a solvent bank. *)
Lemma solvent_paid T p sb rb m :
  sender_account p ≠ receiver_account p → T < 2 ^ 63 → 0 < send_amount p ≤ sb →
  m !! (pay_keys p).1 = Some (i64_to_be sb) → m !! (pay_keys p).2 = Some (i64_to_be rb) →
  - 2 ^ 63 ≤ sb < 2 ^ 63 → - 2 ^ 63 ≤ rb < 2 ^ 63 →
  solvent T m → solvent T (paid p sb rb m).
Proof.
  intros Hne HT Hamt Hs Hr Hsb Hrb Hsol. pose proof Hsol as [Hi Ht].
  set (sk := (pay_keys p).1) in *. set (rk := (pay_keys p).2) in *.
  assert (is_checking sk = true ∧ is_checking rk = true) as [Csk Crk] by (split; apply checking_is_checking).
  assert (sk ≠ rk) as Hk by (by intros ?%checking_inj).
  assert (balance_of (i64_to_be sb) = sb ∧ balance_of (i64_to_be rb) = rb) as [Bs Br]
    by (unfold balance_of, i64_to_be; by rewrite !i64_from_be_small).
  assert (0 ≤ rb) as Hrb0.
  { destruct (Hi rk _ Crk Hr) as (z & Hz & ?). unfold i64_to_be in Hz. rewrite i64_from_be_small in Hz by done. congruence. }
  (* the two balances together are part of the total *)
  assert (rb + sb ≤ T) as Hsum.
  { assert (solvent (T - sb) (<[sk := i64_to_be 0]> m)) as Hsol'.
    { split.
      - intros k v Hck. destruct (decide (k = sk)) as [->|]; [|rewrite lookup_insert_ne by done; by apply Hi].
        rewrite lookup_insert_eq. intros [= <-]. by exists 0.
      - rewrite ledger_insert, Hs, Ht. unfold worth. rewrite Csk. cbn [from_option].
        rewrite Bs. change (balance_of (i64_to_be 0)) with 0. lia. }
    pose proof (ledger_nonneg _ _ Hsol' rk (i64_to_be rb) Crk) as Hb. rewrite lookup_insert_ne, Br in Hb by done.
    specialize (Hb Hr). lia. }
  unfold paid. fold sk rk. unfold i64_add, i64_sub. rewrite !as_i64_small by lia. split.
  - intros k v Hck. destruct (decide (k = sk)) as [->|]; [rewrite lookup_insert_eq|rewrite lookup_insert_ne by done].
    { intros [= <-]. eexists. unfold i64_to_be. rewrite i64_from_be_small by lia. split; [done|lia]. }
    destruct (decide (k = rk)) as [->|]; [rewrite lookup_insert_eq|rewrite lookup_insert_ne by done; by apply Hi].
    intros [= <-]. eexists. unfold i64_to_be. rewrite i64_from_be_small by lia. split; [done|lia].
  - rewrite !ledger_insert, lookup_insert_ne, Hs, Hr, Ht by done. unfold worth. rewrite Csk, Crk. simpl.
    rewrite Bs, Br. unfold balance_of, i64_to_be. rewrite !i64_from_be_small by lia. simpl. lia.
Qed.

(** The transactions of a payment: reads, probes, and the compare-and-swap. *)
Inductive payment_tx (p : SendPayload) : ProtoTransaction → Prop :=
  | pt_read keys : payment_tx p (transaction true (read_ops keys))
  | pt_probe n : payment_tx p (probe_transaction n)
  | pt_cas sb rb :
      0 < send_amount p ≤ sb → - 2 ^ 63 ≤ sb < 2 ^ 63 → - 2 ^ 63 ≤ rb < 2 ^ 63 →
      payment_tx p (transaction false [credit_op p sb rb]).

Lemma keeps_payment N T p tx :
  sender_account p ≠ receiver_account p → T < 2 ^ 63 → payment_tx p tx → keeps N (λ _, solvent T) tx.
Proof.
  intros Hne HT [keys|n|sb rb Hamt Hsb Hrb]; [by apply keeps_read|by apply keeps_probe|].
  apply keeps_write. intros n m m' rs _ Hsol. rewrite credit_exec. intros [= <- <-].
  destruct (bool_decide _ && bool_decide _) eqn:Hok; [|done].
  apply andb_true_iff in Hok as [Hr%bool_decide_eq_true Hs%bool_decide_eq_true].
  apply solvent_paid; auto using i64_to_be_Some.
Qed.

Section sent.
Context (thr : Z) (w : nat).

Lemma sends_send ops isRead byz tx :
  sends (send w ops isRead byz) tx → tx = transaction isRead ops ∨ ∃ n, tx = probe_transaction n.
Proof.
  intros [?%sends_ask|[[e|rc] Hs]]%sends_bind; [by left|by apply sends_ret in Hs|]. cbv beta zeta iota in Hs.
  repeat case_match; try (by apply sends_ret in Hs);
    apply sends_bind in Hs as [?%sends_await|[? []%sends_ret]]; right; eauto.
Qed.

Lemma sends_payment p tx : sends (sendpayment thr w p) tx → payment_tx p tx.
Proof.
  unfold sendpayment. destruct (Z.leb_spec (send_amount p) 0) as [|Hpos]; [by intros ?%sends_ret|].
  enough (∀ fuel attempts resclone, sends (payment_loop thr w fuel p attempts resclone) tx → payment_tx p tx) by eauto.
  intros fuel. induction fuel as [|fuel IH]; intros attempts resclone Hs; [inversion Hs|]. cbn [payment_loop] in Hs.
  apply sends_or_return in Hs as [[->|[n ->]]%sends_send|[result Hs]];
    [apply (pt_read p [_; _])|apply pt_probe|].
  destruct result as [|v1 [|v2 [|]]]; try by apply sends_ret in Hs.
  destruct (i64_from_be v1) as [sb|] eqn:H1; [|by apply sends_ret in Hs].
  destruct (i64_from_be v2) as [rb|] eqn:H2; [|by apply sends_ret in Hs].
  destruct (Z.ltb_spec sb (send_amount p)); [by apply sends_ret in Hs|].
  apply i64_from_be_Some in H1 as [? _], H2 as [? _].
  apply sends_or_return in Hs as [[->|[n ->]]%sends_send|[res Hs]]; [by apply pt_cas|apply pt_probe|].
  repeat case_match; try (by apply sends_ret in Hs). by eapply IH.
Qed.

Lemma sends_balance u tx : sends (balance w u) tx → (∃ keys, tx = transaction true (read_ops keys)) ∨ ∃ n, tx = probe_transaction n.
Proof.
  intros [[->|?]%sends_send|[res Hs]]%sends_or_return; [left; by exists [savings_account_name u; checking_account_name u]|by right|].
  repeat case_match; by apply sends_ret in Hs.
Qed.

Definition register_ops (u : string) : list ProtoTransactionOp :=
  [write_op (savings_account_name u) (i64_to_be 1000000); write_op (checking_account_name u) (i64_to_be 1000000)].

Lemma sends_register u tx : sends (register w u) tx →
  (∃ keys, tx = transaction true (read_ops keys)) ∨ (∃ n, tx = probe_transaction n) ∨ tx = transaction false (register_ops u).
Proof.
  intros [[->|?]%sends_send|[res Hs]]%sends_or_return; [left; by exists [into_bytes u]|by right; left|].
  case_match; [|by apply sends_ret in Hs].
  apply sends_or_return in Hs as [[->|?]%sends_send|[? []%sends_ret]]; right; [by right|by left].
Qed.

End sent.

(** * Conservation *)

(** Queries, and payments between different accounts. *)
Definition moves_money (rq : BankRequest) : Prop :=
  match rq with
  | RqHome | RqBalance _ => True
  | RqRegister _ => False
  | RqPay p => sender_account p ≠ receiver_account p
  end.

Lemma keeps_moving N thr w T rq tx :
  T < 2 ^ 63 → moves_money rq → sends (handler thr w rq) tx → keeps N (λ _, solvent T) tx.
Proof.
  intros HT. destruct rq as [|u|u|p]; simpl; [by intros _ ?%sends_ret| |done|].
  - intros _ [[keys ->]|[n ->]]%sends_balance; [by apply keeps_read|by apply keeps_probe].
  - intros Hne Hs%sends_payment. by eapply keeps_payment.
Qed.

(** C18: Money is conserved.  Take a bank whose checking balances are non-negative and
    amount to [T].  Let any number of payments (between different accounts) and balance
    queries be handled concurrently by the worker threads, interleaved in any way, with
    requests failing or being executed after the handler has given up.  At every moment
    the checking balances are non-negative and amount to [T]: no payment is applied to a
    balance that has changed since it was read, none overdraws, none overflows. *)
Theorem bank_conserves_money thr T (reqs : list (nat * BankRequest)) l m k w' :
  solvent T m → T < 2 ^ 63 → Forall (λ rq, moves_money rq.2) reqs →
  nsteps wstep k (mkWorld l m [] (map (λ rq, handler thr rq.1 rq.2) reqs)) w' →
  solvent T (w_store w').
Proof.
  intros Hs HT Hreqs Hsteps.
  eapply (rg_requests k (λ _, True) (λ _, solvent T) ltac:(done) _ (λ _ _, True)) in Hsteps as (_ & ? & _);
    [done|lia|done|exact Hs|]. eapply Forall_impl; [exact Hreqs|]. intros rq Hrq. apply rg_of_sends.
  intros tx. by apply keeps_moving.
Qed.

Definition toy_bank : store :=
  <[checking_account_name "bob" := i64_to_be 30]> (<[checking_account_name "alice" := i64_to_be 100]> ∅).
Definition toy_payments : list (nat * BankRequest) :=
  [(0%nat, RqPay (mkSendPayload "alice" "bob" 60)); (1%nat, RqPay (mkSendPayload "alice" "bob" 70))].
Definition toy_placement : Placement := mkPlacement [] 1 0 [].

Definition toy_world (pool : list (prog Bank HttpResponse)) : World Bank := mkWorld (mkBank [0; 0]) toy_bank [] pool.

Lemma toy_bank_solvent : solvent 130 toy_bank.
Proof.
  split; [|by vm_compute]. intros k v Hk Hv.
  assert (Forall (λ e : bytes * bytes, match i64_from_be e.2 with Some z => 0 <=? z | None => false end = true) (map_to_list toy_bank)) as Hall
    by by_compute.
  apply elem_of_map_to_list in Hv. rewrite Forall_forall in Hall. specialize (Hall _ Hv). simpl in Hall.
  destruct (i64_from_be v) as [z|]; [|done]. exists z. split; [done|]. by apply Z.leb_le.
Qed.

(** Both payments read the balances, then both swap; the second retries. *)
Definition toy_race : list Choice := go 0 1 toy_placement ++ go 1 1 toy_placement ++ go 0 1 toy_placement ++ go 1 2 toy_placement.

Lemma bank_conserves_money_witness :
  match schedule toy_race (toy_world (map (λ rq, handler 1000 rq.1 rq.2) toy_payments)) with
  | Some w' => statuses w' = [Some 200; Some 400] ∧ solvent 130 (w_store w')
  | None => False
  end.
Proof.
  destruct (schedule _ _) as [w'|] eqn:E.
  - assert (statuses <$> schedule toy_race (toy_world (map (λ rq, handler 1000 rq.1 rq.2) toy_payments)) =
      Some [Some 200; Some 400]) as Hst by (vm_compute; reflexivity).
    rewrite E in Hst. injection Hst as Hst. split; [exact Hst|].
    apply (bank_conserves_money 1000 130 toy_payments (mkBank [0; 0]) toy_bank (length toy_race));
      [apply toy_bank_solvent|lia|by repeat constructor|]. by apply schedule_nsteps.
  - assert (bool_decide (is_Some (statuses <$> schedule toy_race
      (toy_world (map (λ rq, handler 1000 rq.1 rq.2) toy_payments)))) = true) as H by (vm_compute; reflexivity).
    rewrite E in H. discriminate H.
Defined.

(** * The bank of a log *)

(** The users registered by the requests of a log. *)
Definition registered (reqs : list BankRequest) : list string :=
  omap (λ rq, match rq with RqRegister u => Some u | _ => None end) reqs.

(** The checking accounts of a store are those of [us]. *)
Definition accounts (us : list string) (m : store) : Prop :=
  ∀ k, is_checking k = true → (is_Some (m !! k) ↔ ∃ u, u ∈ us ∧ k = checking_account_name u).

Lemma register_exec u m :
  run_all spec_op m (register_ops u) =
  Some (<[checking_account_name u := i64_to_be 1000000]> (<[savings_account_name u := i64_to_be 1000000]> m),
        [[mkOpResult true []]; [mkOpResult true []]]).
Proof. reflexivity. Qed.

Lemma solvent_insert_new T k z m :
  is_checking k = true → m !! k = None → 0 ≤ z < 2 ^ 63 → solvent T m → solvent (T + z) (<[k := i64_to_be z]> m).
Proof.
  intros Hk Hn Hz [Hi Ht]. split.
  - intros k' v Hk'. destruct (decide (k' = k)) as [->|]; [|rewrite lookup_insert_ne by done; by apply Hi].
    rewrite lookup_insert_eq. intros [= <-]. exists z. unfold i64_to_be. rewrite i64_from_be_small by lia. split; [done|lia].
  - rewrite ledger_insert, Hn, Ht. unfold worth. rewrite Hk. simpl.
    unfold balance_of, i64_to_be. rewrite i64_from_be_small by lia. simpl. lia.
Qed.

Lemma solvent_insert_other T k v m : is_checking k = false → solvent T m → solvent T (<[k := v]> m).
Proof.
  intros Hk [Hi Ht]. split.
  - intros k' v' Hk'. rewrite lookup_insert_ne by congruence. by apply Hi.
  - rewrite ledger_insert, Ht. unfold worth. rewrite Hk. lia.
Qed.

Definition after (us : list string) (T : Z) (m : store) : Prop := solvent T m ∧ accounts us m.

Lemma register_step us T u m m' r :
  u ∉ us → after us T m → exec_tx spec_op m (transaction false (register_ops u)) = Some (m', r) →
  after (us ++ [u]) (T + 1000000) m'.
Proof.
  intros Hu [Hs Ha]. unfold exec_tx. cbn [transaction on_crash_commit phase_ops]. rewrite register_exec.
  intros [= <- <-]. assert (m !! checking_account_name u = None) as Hnone.
  { apply eq_None_not_Some. intros (v & Hv & Heq)%(Ha _ (checking_is_checking u)). apply checking_inj in Heq. congruence. }
  split.
  - apply solvent_insert_new; [apply checking_is_checking| |lia|apply solvent_insert_other; [apply savings_not_checking|done]].
    by rewrite lookup_insert_ne.
  - intros k Hk. destruct (decide (k = checking_account_name u)) as [->|Hne].
    + rewrite lookup_insert_eq. split; [intros _; exists u; split; [set_solver|done]|by eauto].
    + rewrite lookup_insert_ne by done. rewrite lookup_insert_ne; [|intros <-; by rewrite savings_not_checking in Hk].
      rewrite (Ha k Hk). split; intros (v & Hv & ->); exists v; (split; [|done]); [set_solver|].
      apply elem_of_app in Hv as [?| ->%list_elem_of_singleton]; done.
Qed.

Lemma payment_step us T p tx m m' r :
  sender_account p ≠ receiver_account p → T < 2 ^ 63 → payment_tx p tx → on_receive tx = None →
  after us T m → exec_tx spec_op m tx = Some (m', r) → after us T m'.
Proof.
  intros Hne HT Hp Ho [Hs Ha] Hx. split.
  - assert (serve toy_placement m tx 0 ≠ None) as Hsv by (unfold serve; by rewrite Ho, Hx).
    destruct (serve toy_placement m tx 0) as [[m1 r1]|] eqn:Hsrv; [|done].
    assert (m1 = m') as -> by (unfold serve in Hsrv; rewrite Ho, Hx in Hsrv; by injection Hsrv).
    by eapply (keeps_payment 1 T p tx Hne HT Hp 0%nat); [lia| |].
  - destruct Hp as [keys|n|sb rb _ _ _]; [done..|]. unfold exec_tx in Hx. cbn [transaction on_crash_commit phase_ops] in Hx.
    rewrite credit_exec in Hx. injection Hx as <- _.
    destruct (bool_decide _ && bool_decide _) eqn:Hok; [|done].
    apply andb_true_iff in Hok as [Hr%bool_decide_eq_true%i64_to_be_Some Hs'%bool_decide_eq_true%i64_to_be_Some].
    intros k Hk. rewrite <-(Ha k Hk). unfold paid. rewrite !lookup_insert_is_Some. split; [|destruct (decide (k = (pay_keys p).1)), (decide (k = (pay_keys p).2)); auto].
    intros [<-|[_ [<-|[_ ?]]]]; [by eexists|by eexists|done].
Qed.

(** One transaction of the log, sent for request [rq]. *)
Lemma log_tx_step thr us w rq tx m m' r :
  (match rq with RqPay p => sender_account p ≠ receiver_account p | RqRegister u => u ∉ us | _ => True end) →
  1000000 * Z.of_nat (length us) < 2 ^ 63 →
  sends (handler thr w rq) tx → on_receive tx = None →
  after us (1000000 * Z.of_nat (length us)) m → exec_tx spec_op m tx = Some (m', r) →
  after (us ++ registered [rq]) (1000000 * Z.of_nat (length (us ++ registered [rq]))) m'.
Proof.
  intros Hrq HT Hsend Ho Hm Hx. destruct rq as [|u|u|p]; cbn [registered omap list_omap]; rewrite ?app_nil_r.
  - by apply sends_ret in Hsend.
  - apply sends_balance in Hsend as [[keys ->]|[n ->]]; done.
  - rewrite length_app. cbn [length]. replace (1000000 * Z.of_nat (length us + 1)) with (1000000 * Z.of_nat (length us) + 1000000) by lia.
    apply sends_register in Hsend as [[keys ->]|[[n ->]| ->]]; [done|done|]. by eapply register_step.
  - apply sends_payment in Hsend. by eapply payment_step.
Qed.

Definition distinct_parties (rq : BankRequest) : Prop :=
  match rq with RqPay p => sender_account p ≠ receiver_account p | _ => True end.

Lemma log_txs_step thr w reqs txs us m m' results :
  Forall2 (λ rq tx, sends (handler thr w rq) tx ∧ on_receive tx = None) reqs txs →
  Forall distinct_parties reqs →
  NoDup (us ++ registered reqs) → 1000000 * Z.of_nat (length (us ++ registered reqs)) < 2 ^ 63 →
  after us (1000000 * Z.of_nat (length us)) m → run_all (exec_tx spec_op) m txs = Some (m', results) →
  after (us ++ registered reqs) (1000000 * Z.of_nat (length (us ++ registered reqs))) m'.
Proof.
  intros Hreqs. revert us m results. induction Hreqs as [|rq tx reqs txs [Hsend Ho] Hreqs IH]; intros us m results Hpay Hnd HT Hm Hr.
  { simplify_eq/=. by rewrite app_nil_r. }
  apply Forall_cons in Hpay as [Hp Hpay].
  assert (registered (rq :: reqs) = (registered [rq] ++ registered reqs)%list) as Hsplit by by destruct rq.
  rewrite Hsplit, app_assoc in Hnd, HT |- *. cbn [run_all] in Hr.
  destruct (exec_tx spec_op m tx) as [[m2 r]|] eqn:Hx; [cbn [mbind option_bind] in Hr|done].
  destruct (run_all (exec_tx spec_op) m2 txs) as [[m3 rs']|] eqn:Hrest; [|done]. injection Hr as -> _.
  eapply IH; [done|done|done| |exact Hrest].
  eapply log_tx_step; [|rewrite !length_app in HT; lia|exact Hsend|exact Ho|exact Hm|exact Hx].
  destruct rq as [|u|u|p]; [done|done| |done]. apply NoDup_app in Hnd as [Hnd _].
  apply NoDup_app in Hnd as (_ & Hd & _). intros Hin. apply (Hd u Hin). simpl. by left.
Qed.

(** C19: The books of a bank balance on every replica.  Take any log of blocks whose
    transactions were sent by the handlers of the front ends for some requests, under
    whatever answers those handlers got; no payment is to its own sender and no user is
    registered twice.  Then the store the log executes to (which is what every replica's
    engine reads as) has a checking account for exactly the registered users, no balance is
    negative, and they amount to a million per registered user, however the transactions
    of different requests are ordered or repeated. *)
Theorem bank_log_balances thr (w : nat) (bs : list CachedBlock) (reqs : list BankRequest) m :
  Forall2 (λ rq tx, sends (handler thr w rq) tx ∧ on_receive tx = None) reqs
    (concat (map (λ b, pb_tx_list (cb_block b)) bs)) →
  Forall distinct_parties reqs →
  NoDup (registered reqs) → 1000000 * Z.of_nat (length (registered reqs)) < 2 ^ 63 →
  spec_store bs = Some m →
  solvent (1000000 * Z.of_nat (length (registered reqs))) m ∧ accounts (registered reqs) m.
Proof.
  intros Hreqs Hpay Hnd HT Hstore. unfold spec_store in Hstore.
  destruct (run_all spec_block ∅ bs) as [[m1 rs]|] eqn:Hr; [|done]. injection Hstore as <-.
  apply run_all_blocks in Hr. eapply (log_txs_step thr w reqs _ [] ∅ m1); [exact Hreqs|done..| |exact Hr]. split.
  - split; [|done]. intros k v _ Hv. by rewrite lookup_empty in Hv.
  - intros k _. rewrite lookup_empty. split; [by intros []|]. intros (? & Hn & _). by apply not_elem_of_nil in Hn.
Qed.

Definition toy_block (n : Z) (txs : list ProtoTransaction) : CachedBlock :=
  mkCached (mkBlock txs n [] 1 [] [] true 0 None) [] [].
Definition toy_requests : list BankRequest :=
  [RqRegister "alice"; RqRegister "bob"; RqPay (mkSendPayload "alice" "bob" 60)].
Definition toy_log : list CachedBlock :=
  [toy_block 1 [transaction false (register_ops "alice"); transaction false (register_ops "bob")];
   toy_block 2 [transaction false [credit_op (mkSendPayload "alice" "bob" 60) 1000000 1000000]]].
Definition million_each : Answer :=
  AReply (mkClientReply (Some (Receipt (mkReceipt [] 0 0
    (Some (mkTxResult [mkOpResult true [i64_to_be 1000000]; mkOpResult true [i64_to_be 1000000]])) false []))) 0).

Lemma bank_log_balances_witness :
  match spec_store toy_log with
  | Some m => solvent 2000000 m ∧ accounts ["alice"; "bob"] m
  | None => False
  end.
Proof.
  destruct (spec_store toy_log) as [m|] eqn:E.
  - apply (bank_log_balances 1000 0 toy_log toy_requests m); [|by repeat constructor| |done|exact E].
    + constructor 2; [|constructor 2; [|constructor 2; [|constructor 1]]]; (split; [|reflexivity]).
      * apply (sent_after_sends [read_answer ∅ [into_bytes "alice"]] (mkBank [0])). reflexivity.
      * apply (sent_after_sends [read_answer ∅ [into_bytes "bob"]] (mkBank [0])). reflexivity.
      * apply (sent_after_sends [million_each] (mkBank [0])). reflexivity.
    + apply NoDup_cons. split; [set_solver|]. apply NoDup_singleton.
  - assert (bool_decide (is_Some (size <$> spec_store toy_log)) = true) as H by (vm_compute; reflexivity).
    rewrite E in H. discriminate H.
Defined.

(** * One payment *)

Lemma op_values_read m keys : op_values_ok (read_results m keys) = mapM (m !!.) keys.
Proof.
  induction keys as [|k keys IH]; [done|]. simpl. destruct (m !! k) as [v|]; [|done]. simpl. rewrite IH.
  by destruct (mapM _ keys).
Qed.

Section alone.
Context (thr : Z) (w : nat) (pl : Placement).

Lemma run_send_read byz k keys l m :
  run pl (send w (read_ops (k :: keys)) true byz) l m = Some (inr (default [] (mapM (m !!.) (k :: keys))), bump w l, m).
Proof.
  unfold send. rewrite run_bind, run_ask_read. cbn [mbind option_bind rcpt_results read_receipt].
  rewrite <-(op_values_read m (k :: keys)). cbv beta zeta. cbn [negb andb].
  change (read_results m (k :: keys)) with
    ((match m !! k with Some v => mkOpResult true [v] | None => mkOpResult false [] end) :: read_results m keys).
  cbv iota. by destruct (op_values_ok (_ :: _)).
Qed.

Lemma run_send_write ops byz l m m' rs :
  0 ≤ pl_n pl < 2 ^ 64 → run_all spec_op m ops = Some (m', rs) →
  ∃ l', run pl (send w ops false byz) l m = Some (inr (default [] (op_values_ok (concat rs))), l', m').
Proof.
  intros Hn Hr. unfold send. rewrite run_bind, run_ask_write, Hr. cbn [mbind option_bind rcpt_results write_receipt rcpt_block_n].
  destruct (concat rs) as [|r rs'] eqn:Hrs; [by eexists|]. destruct (op_values_ok (r :: rs')) as [vs|]; [|by eexists].
  cbn [negb andb]. destruct (negb (pl_n pl =? 0) && byz); [|by eexists].
  rewrite run_bind, run_await_byz_commit by done. by eexists.
Qed.

(** The effect of a payment that nothing interferes with. *)
Definition pay_spec (p : SendPayload) (m : store) : HttpResponse * store :=
  if send_amount p <=? 0 then (BadRequest (Text "Send a positive value"), m)
  else match m !! (pay_keys p).1, m !! (pay_keys p).2 with
  | Some sv, Some rv =>
      match i64_from_be sv, i64_from_be rv with
      | Some sb, Some rb =>
          if sb <? send_amount p then (BadRequest (Text "Sender's Account does not have enough money"), m)
          else (payment_response thr p [] 1, paid p sb rb m)
      | _, _ => (BadRequest (Text "Expected 8 bytes for an i64"), m)
      end
  | _, _ => (InternalServerError (Text "Sender/Reciever Account does not exist"), m)
  end.

Lemma run_payment p l m :
  0 ≤ pl_n pl < 2 ^ 64 →
  ∃ l', run pl (sendpayment thr w p) l m = Some ((pay_spec p m).1, l', (pay_spec p m).2).
Proof.
  intros Hn. unfold sendpayment, pay_spec. destruct (send_amount p <=? 0); [by eexists|].
  change 20%nat with (S 19). generalize 19%nat. intros fuel. cbn [payment_loop]. rewrite run_or_return.
  change [read_op _; read_op _] with (read_ops [(pay_keys p).1; (pay_keys p).2]).
  rewrite run_send_read. cbn [mapM mbind option_bind].
  destruct (m !! (pay_keys p).1) as [sv|] eqn:Hs; cbn [mbind option_bind mret option_ret from_option id]; [|by eexists].
  destruct (m !! (pay_keys p).2) as [rv|] eqn:Hr; cbn [mbind option_bind mret option_ret from_option id]; [|by eexists].
  destruct (i64_from_be sv) as [sb|] eqn:Hsb; [|by eexists].
  destruct (i64_from_be rv) as [rb|] eqn:Hrb; [|by eexists].
  destruct (sb <? send_amount p); [by eexists|]. rewrite run_or_return.
  apply i64_from_be_Some in Hsb as [_ <-], Hrb as [_ <-].
  pose proof (credit_exec p sb rb m) as Hx. cbv zeta in Hx. rewrite Hs, Hr in Hx. cbn [default] in Hx.
  rewrite !bool_decide_true in Hx by done. cbn [andb] in Hx.
  destruct (run_send_write _ (thr <=? send_amount p) (bump w l) m _ _ Hn Hx) as [l' ->].
  eexists. reflexivity.
Qed.

(** C20: A payment is an atomic transfer.  On every store, a payment that nothing
    interferes with is the transfer [pay_spec]: it is refused, leaving the store alone,
    when the amount is not positive, an account is missing, a record is not eight bytes
    or the sender has less than the amount; otherwise both balances change and the response
    reports one attempt. *)
Theorem payment_is_transfer p l m :
  0 ≤ pl_n pl < 2 ^ 64 →
  ∃ l', run pl (sendpayment thr w p) l m = Some ((pay_spec p m).1, l', (pay_spec p m).2).
Proof. apply run_payment. Qed.

End alone.

Lemma payment_is_transfer_witness :
  ∃ l', run toy_placement (sendpayment 1000 0 (mkSendPayload "alice" "bob" 60)) (mkBank [0]) toy_bank =
    Some (payment_response 1000 (mkSendPayload "alice" "bob" 60) [] 1, l',
          paid (mkSendPayload "alice" "bob" 60) 100 30 toy_bank).
Proof. apply (payment_is_transfer 1000 0 toy_placement (mkSendPayload "alice" "bob" 60) (mkBank [0]) toy_bank). cbn. lia. Defined.

(** * Termination *)

Lemma answers_send w ops (isRead byz : bool) :
  answers_within (if isRead then 1 else 2)%nat (send w ops isRead byz).
Proof.
  assert ((if isRead then 1 else 2) = 1 + (if isRead then 0 else 1))%nat as -> by by destruct isRead.
  apply answers_bind; [apply answers_ask|]. intros [e|rc]; [done|]. cbv beta zeta iota.
  destruct isRead; cbn [negb andb]; repeat case_match; try done;
    apply (answers_bind 1 0); [apply answers_await|done|apply answers_await|done].
Qed.


(** * Defects *)

(** A payment to oneself: the two swaps are of the same key, and the last one stays. *)
Lemma self_payment_burns thr w pl u amount b l m :
  0 ≤ pl_n pl < 2 ^ 64 → 0 < amount ≤ b → b < 2 ^ 63 → m !! checking_account_name u = Some (i64_to_be b) →
  ∃ l' m', run pl (sendpayment thr w (mkSendPayload u u amount)) l m =
      Some (payment_response thr (mkSendPayload u u amount) [] 1, l', m') ∧
    ledger m' = ledger m - amount.
Proof.
  intros Hn Ha Hb Hu. destruct (run_payment thr w pl (mkSendPayload u u amount) l m Hn) as [l' Hr].
  assert (pay_spec thr (mkSendPayload u u amount) m =
    (payment_response thr (mkSendPayload u u amount) [] 1, paid (mkSendPayload u u amount) b b m)) as Hspec.
  { unfold pay_spec. cbn [pay_keys fst snd send_amount sender_account receiver_account]. rewrite Hu.
    unfold i64_to_be. rewrite i64_from_be_small by lia. destruct (Z.leb_spec amount 0), (Z.ltb_spec b amount); lia || done. }
  rewrite Hspec in Hr. eexists l', _. split; [exact Hr|].
  unfold paid. cbn [pay_keys fst snd sender_account receiver_account send_amount].
  rewrite insert_insert_eq, ledger_insert, Hu. unfold worth, i64_sub. rewrite checking_is_checking. cbn [from_option].
  unfold balance_of, i64_to_be. rewrite as_i64_small by lia. rewrite !i64_from_be_small by lia. simpl. lia.
Qed.

(** Registration looks for the key [username], which it never writes: registering an
    account again succeeds and sets its balances back. *)
Lemma register_again_resets w pl u b l m :
  0 ≤ pl_n pl < 2 ^ 64 → m !! into_bytes u = None → 0 ≤ b < 2 ^ 63 →
  m !! checking_account_name u = Some (i64_to_be b) →
  ∃ l' m' body, run pl (register w u) l m = Some (HttpOk body, l', m') ∧
    m' !! into_bytes u = None ∧ ledger m' = ledger m - b + 1000000.
Proof.
  intros Hn Hnone Hb Hu. unfold register. change [read_op (into_bytes u)] with (read_ops [into_bytes u]).
  rewrite run_or_return, run_send_read. cbn [mapM]. rewrite Hnone. cbn [mbind option_bind from_option id].
  rewrite run_or_return. destruct (run_send_write w pl (register_ops u) false (bump w l) m _ _ Hn (register_exec u m)) as [l' Hr].
  unfold register_ops in Hr. rewrite Hr. cbn [mbind option_bind].
  assert (into_bytes u ≠ checking_account_name u ∧ into_bytes u ≠ savings_account_name u) as [H1 H2].
  { split; intros Heq%(f_equal length).
    - change (checking_account_name u) with (into_bytes "checking:" ++ into_bytes u)%list in Heq.
      rewrite length_app in Heq. change (length (into_bytes "checking:")) with 9%nat in Heq. lia.
    - change (savings_account_name u) with (into_bytes "savings:" ++ into_bytes u)%list in Heq.
      rewrite length_app in Heq. change (length (into_bytes "savings:")) with 8%nat in Heq. lia. }
  eexists _, _, _. split; [done|]. split; [by rewrite !lookup_insert_ne|].
  rewrite !ledger_insert, lookup_insert_ne, Hu by done. unfold worth.
  rewrite checking_is_checking, savings_not_checking. cbn [from_option]. unfold balance_of, i64_to_be.
  rewrite !i64_from_be_small by lia. simpl. lia.
Qed.
