(* ===== verification/Kms.v ===== *)
(** The key management service (src/contrib/kms/frontend.rs): users and their key pairs as
    keys of the store.  Theorems: under every interleaving of requests no one gets a user's
    private key, replaces it, or takes over the name without the user's password; the user
    list and counter follow registrations made one after the other; and what is served as the
    public key of a user is the secret key. *)

From stdpp Require Import base numbers list gmap strings option relations.
From S2P Require Import Prelude Types Config Serialize ClientReply App Kvs Sequencer Frontend.

#[local] Open Scope string_scope.
#[local] Open Scope Z_scope.

(** ed25519_dalek: the bytes of a signing key and of its verifying key. *)
Class Dalek := {
  SigningKey : Type;
  signing_key_to_bytes : SigningKey → bytes;
  verifying_key_to_bytes : SigningKey → bytes }.
Definition KEY_LENGTH : nat := 32.
Class DalekLaws `{Dalek} := {
  signing_key_length : ∀ sk, length (signing_key_to_bytes sk) = KEY_LENGTH;
  verifying_key_length : ∀ sk, length (verifying_key_to_bytes sk) = KEY_LENGTH }.

(** * The front end *)

(** The state of the server process: a tag counter per worker, and the shared flag. *)
Record Kms := mkKms { kms_tags : list Z; probe_for_byz_commit : bool }.

#[export] Instance kms_client_tags : ClientTags Kms := {
  worker_tags := kms_tags;
  set_worker_tags := λ ts l, mkKms ts (probe_for_byz_commit l) }.

Definition pub_key_name (username : string) : bytes := into_bytes ("pub:" +:+ username).
Definition priv_key_name (username : string) : bytes := into_bytes ("priv:" +:+ username).

(** [for op_result .. { for value .. { result = value; } }] *)
Definition last_value (rs : list ProtoTransactionOpResult) : bytes :=
  fold_left (λ _ v, v) (concat (map op_values rs)) [].

(** [v.try_into()] for an array of [KEY_LENGTH] bytes. *)
Definition key_array (v : bytes) : option bytes := if (length v =? KEY_LENGTH)%nat then Some v else None.

Section handlers.
Context `{Codec, UserListCodec, Dalek} (w : nat).

Definition send (transaction_ops : list ProtoTransactionOp) (isRead : bool) : prog Kms (HttpResponse + bytes) :=
  r ← ask w (transaction isRead transaction_ops);
  match r with
  | inl e => mret (inl e)
  | inr receipt =>
      match rcpt_results receipt with
      | Some (mkTxResult []) => mret (inr [])
      | _ =>
          let '(result, block_n) :=
            match rcpt_results receipt with
            | Some (mkTxResult rs) => (last_value rs, rcpt_block_n receipt)
            | None => ([], 0)
            end in
          if negb isRead && negb (block_n =? 0) then
            probe ← load probe_for_byz_commit;
            if (probe : bool) then _ ← await_byz_commit w block_n; mret (inr result) else mret (inr result)
          else mret (inr result)
      end
  end.

Definition authenticate_user (username password : string) : prog Kms (HttpResponse + bool) :=
  r ← send [read_op (into_bytes username)] true;
  match r with
  | inl e => mret (inl e)
  | inr [] => mret (inl (NotFound (Json [("message", JStr "username does not exist"); ("user", JStr username)])))
  | inr result =>
      if bool_decide (sha512 (into_bytes password) ≠ result)
      then mret (inl (Unauthorized (Json [("message", JStr "incorrect password"); ("user", JStr username)])))
      else mret (inr true)
  end.

(** The list of users under the key [user]; a value that is not one is a panic. *)
Definition get_users (get_user_result : bytes) : prog Kms (list string) :=
  match get_user_result with
  | [] => mret []
  | _ => expect (users_from_slice get_user_result)
  end.

Definition register (username password : string) : prog Kms HttpResponse :=
  result ←? send [read_op (into_bytes username)] true;
  match result with
  | _ :: _ => mret (Conflict (Json [("message", JStr "username already exists")]))
  | [] =>
      _ ←? send [write_op (into_bytes username) (sha512 (into_bytes password))] false;
      get_user_result ←? send [read_op (into_bytes "user")] true;
      users ← get_users get_user_result;
      let users := (users ++ [username])%list in
      _ ←? send [write_op (into_bytes "user") (users_to_vec users); increment_op (into_bytes "user_count")] false;
      mret (HttpOk (Json [("message", JStr "user created"); ("users", JList (map JStr users))]))
  end.

(** [signing_key] is the generated key. *)
Definition refresh (signing_key : SigningKey) (username password : string) : prog Kms HttpResponse :=
  _ ←? authenticate_user username password;
  let private_key := verifying_key_to_bytes signing_key in
  let public_key := signing_key_to_bytes signing_key in
  _ ←? send [write_op (pub_key_name username) public_key; write_op (priv_key_name username) private_key] false;
  mret (HttpOk (Json [("message", JStr "created key pair for user"); ("username", JStr username);
                      ("public key", JBytes public_key); ("private key", JBytes private_key)])).

Definition toggle_byz_wait : prog Kms HttpResponse :=
  _ ← update (λ l, mkKms (kms_tags l) (negb (probe_for_byz_commit l)));
  flag ← load probe_for_byz_commit;
  mret (HttpOk (Json [("message", JStr "byzantine wait toggled"); ("probe_for_byz_commit", JBool flag)])).

Fixpoint collect_public_keys (users : list string) (public_keys : list bytes) : prog Kms HttpResponse :=
  match users with
  | [] => mret (HttpOk (Json [("message", JStr "public keys retrieved"); ("public keys", JList (map JBytes public_keys))]))
  | user :: users' =>
      user_public_key_result ←? send [read_op (pub_key_name user)] true;
      pub_key_arr ← expect (key_array user_public_key_result);
      collect_public_keys users' (public_keys ++ [pub_key_arr])
  end.

Definition listpubkeys : prog Kms HttpResponse :=
  get_user_result ←? send [read_op (into_bytes "user")] true;
  users ← get_users get_user_result;
  collect_public_keys users [].

Definition num_users : prog Kms HttpResponse :=
  user_count_result ←? send [read_op (into_bytes "user_count")] true;
  match user_count_result with
  | [] => mret (NotFound (Json [("message", JStr "number of users"); ("user_count", JInt 0)]))
  | _ =>
      match i64_from_be user_count_result with
      | Some user_count => mret (HttpOk (Json [("message", JStr "number of users"); ("user_count", JInt user_count)]))
      | None => mret (HttpOk (Json [("message", JStr "number of users"); ("user_count", JInt 0)]))
      end
  end.

Definition pubkey (username : string) : prog Kms HttpResponse :=
  user_public_key_result ←? send [read_op (pub_key_name username)] true;
  match user_public_key_result with
  | [] => mret (NotFound (Json [("message", JStr "public key could not be found"); ("username", JStr username)]))
  | _ =>
      pub_key_arr ← expect (key_array user_public_key_result);
      current_tag ← load (λ l, default 0 (kms_tags l !! w));
      mret (HttpOk (Json [("message", JStr "public key of user"); ("username", JStr username);
                          ("public key", JBytes pub_key_arr); ("client tag", JInt current_tag)]))
  end.

Definition privkey (username password : string) : prog Kms HttpResponse :=
  _ ←? authenticate_user username password;
  user_priv_key_result ←? send [read_op (priv_key_name username)] true;
  match user_priv_key_result with
  | [] => mret (NotFound (Json [("message", JStr "private key could not be found"); ("username", JStr username)]))
  | _ =>
      priv_key_arr ← expect (key_array user_priv_key_result);
      mret (HttpOk (Json [("message", JStr "private key of user"); ("username", JStr username);
                          ("private key", JBytes priv_key_arr)]))
  end.

Definition home : prog Kms HttpResponse :=
  mret (HttpOk (Json [("message", JStr "hello from a non-shared, local state")])).

Inductive KmsRequest :=
  | RqHome | RqListPubkeys | RqNumUsers | RqToggle
  | RqRegister (username password : string)
  | RqRefresh (signing_key : SigningKey) (username password : string)
  | RqPubkey (username : string)
  | RqPrivkey (username password : string).

Definition handler (rq : KmsRequest) : prog Kms HttpResponse :=
  match rq with
  | RqHome => home
  | RqListPubkeys => listpubkeys
  | RqNumUsers => num_users
  | RqToggle => toggle_byz_wait
  | RqRegister u p => register u p
  | RqRefresh sk u p => refresh sk u p
  | RqPubkey u => pubkey u
  | RqPrivkey u p => privkey u p
  end.

End handlers.

(** * Reasoning about [send] *)

Lemma read_last_value m key : last_value (read_results m [key]) = default [] (m !! key).
Proof. unfold read_results. simpl. by destruct (m !! key). Qed.

Section reasoning.
Context `{Codec, UserListCodec, Dalek} (w : nat) (N : nat) (I : nat → store → Prop).
Context (I_weaken : ∀ n m, I n m → I (S n) m).

Abbreviation krg := (rg N (λ _ : Kms, True) I).

Lemma kms_rg_send_read key (Q : HttpResponse + bytes → Prop) :
  (∀ e, http_status e ≠ 200 → Q (inl e)) → (∀ n m, I n m → Q (inr (default [] (m !! key)))) →
  krg (send w [read_op key] true) Q.
Proof.
  intros He Hr. apply rg_bind. change [read_op key] with (read_ops [key]).
  apply rg_ask_read; [done|done|by intros e ? _; apply He|].
  intros n m Hn HI. specialize (Hr n m HI). rewrite <-read_last_value in Hr. unfold read_receipt. cbn [rcpt_results].
  by destruct (read_results m [key]).
Qed.

Lemma kms_rg_send_write ops (Q : HttpResponse + bytes → Prop) :
  keeps_ops N I ops → (∀ e, http_status e ≠ 200 → Q (inl e)) → (∀ v, Q (inr v)) → krg (send w ops false) Q.
Proof.
  intros Hk He Hv. apply rg_bind, rg_ask_write; [done|done|by intros e ? _; apply He|].
  intros n pl m m' rs _ _ _. cbn [rcpt_results write_receipt].
  destruct (concat rs); [apply Hv|]. cbn [negb andb]. destruct (negb _); [|apply Hv].
  apply rg_bind. intros l0 _. split; [done|]. cbn beta. destruct (probe_for_byz_commit l0); [|apply Hv].
  apply rg_bind, rg_await_byz_commit; [done|done|]. apply Hv.
Qed.

Lemma kms_rg_users v (Q : list string → Prop) : (∀ us, Q us) → krg (get_users v) Q.
Proof. intros HQ. destruct v; [apply HQ|]. apply rg_expect. intros us _. apply HQ. Qed.

Lemma kms_rg_authenticate u p (Q : HttpResponse + bool → Prop) :
  (∀ e, http_status e ≠ 200 → Q (inl e)) →
  (∀ n m, I n m → m !! into_bytes u = Some (sha512 (into_bytes p)) → Q (inr true)) →
  krg (authenticate_user w u p) Q.
Proof.
  intros He HQ. apply rg_bind. apply kms_rg_send_read; [done|]. intros n m HI.
  destruct (m !! into_bytes u) as [v|] eqn:Hm; cbn [from_option id]; [|by apply He].
  destruct v as [|b v]; [by apply He|]. destruct (bool_decide _) eqn:Hb; [by apply He|].
  apply bool_decide_eq_false, dec_stable in Hb. apply (HQ n m HI). by rewrite Hb.
Qed.

End reasoning.

(** * Passwords *)

(** Names that are not keys the service uses for something else. *)
Definition plain (u : string) : Prop :=
  u ≠ "user" ∧ u ≠ "user_count" ∧ (∀ v, u ≠ "pub:" +:+ v) ∧ (∀ v, u ≠ "priv:" +:+ v).

(** The user's record holds the hash [h] of the password. *)
Definition has_record (u : string) (h : bytes) (m : store) : Prop := m !! into_bytes u = Some h.

(** A write to another key. *)
Lemma keeps_record_write N u h ops :
  Forall (λ op, ∃ key, into_bytes u ≠ key ∧ ((∃ val, op = write_op key val) ∨ op = increment_op key)) ops →
  keeps_ops N (λ _, has_record u h) ops.
Proof.
  intros Hops n m m' rs _. revert m m' rs. induction Hops as [|op ops (key & Hne & Hop) _ IH]; intros m m' rs Hm Hr.
  { by simplify_eq/=. }
  cbn [run_all] in Hr. destruct (spec_op m op) as [[m1 r]|] eqn:Ho; [cbn [mbind option_bind] in Hr|done].
  destruct (run_all spec_op m1 ops) as [[m2 rs']|] eqn:Hrest; [|done]. injection Hr as -> _.
  eapply IH; [|exact Hrest]. destruct Hop as [[val ->]| ->].
  - injection Ho as <- _. unfold has_record. by rewrite lookup_insert_ne.
  - unfold spec_op in Ho. cbn -[from_option] in Ho.
    destruct (from_option i64_from_be (Some 0) (m !! key)); [|done]. injection Ho as <- _.
    unfold has_record. by rewrite lookup_insert_ne.
Qed.

(** What a response to a request may be when the record of [u] is [h]. *)
Definition respects `{Codec, Dalek} (u : string) (h : bytes) (rq : KmsRequest) (r : HttpResponse) : Prop :=
  match rq with
  | RqRegister u' _ => u' = u → http_status r ≠ 200
  | RqRefresh _ u' p | RqPrivkey u' p => u' = u → sha512 (into_bytes p) ≠ h → http_status r ≠ 200
  | _ => True
  end.

Section passwords.
Context `{Codec, UserListCodec, Dalek} (w : nat) (N : nat) (u : string) (h : bytes).
Context (Hplain : plain u) (Hh : h ≠ []).

Abbreviation prg := (rg N (λ _ : Kms, True) (λ _, has_record u h)).

Lemma kms_rg_public_keys users keys : prg (collect_public_keys w users keys) (λ _, True).
Proof.
  revert keys. induction users as [|u' users IH]; intros keys; cbn [collect_public_keys]; [done|].
  apply rg_or_return, kms_rg_send_read; [done|done|]. intros n m _. apply rg_bind, rg_expect. intros k _. apply IH.
Qed.

Lemma kms_rg_register u' p : prg (register w u' p) (λ r, u' = u → http_status r ≠ 200).
Proof.
  apply rg_or_return, kms_rg_send_read; [done|by intros e He _|]. intros n m Hm.
  destruct (decide (u' = u)) as [->|Hne].
  { rewrite Hm. cbn [from_option id]. by destruct h. }
  destruct (default [] _); [|by cbn]. destruct Hplain as (Pu & Pc & _).
  apply rg_or_return, kms_rg_send_write; [done| |by intros e He _|].
  { apply keeps_record_write. repeat constructor. exists (into_bytes u'). split; [|by eauto].
    by intros ?%list_byte_of_string_inj. }
  intros _. apply rg_or_return, kms_rg_send_read; [done|by intros e He _|]. intros n2 m2 _.
  apply rg_bind, kms_rg_users. intros us. apply rg_or_return, kms_rg_send_write; [done| |by intros e He _|by intros _ ?].
  apply keeps_record_write. repeat constructor; eexists; (split; [|by eauto]); by intros ?%list_byte_of_string_inj.
Qed.

Lemma kms_rg_refresh sk u' p : prg (refresh w sk u' p) (λ r, u' = u → sha512 (into_bytes p) ≠ h → http_status r ≠ 200).
Proof.
  apply rg_or_return, kms_rg_authenticate; [done|by intros e He _ _|]. intros n m Hm Hauth.
  destruct Hplain as (_ & _ & P1 & P2). apply rg_or_return, kms_rg_send_write; [done| |by intros e He _ _|].
  { apply keeps_record_write. repeat constructor; eexists; (split; [|by eauto]); intros ?%list_byte_of_string_inj.
    - by eapply P1.
    - by eapply P2. }
  intros _ -> Hp. unfold has_record in Hm. congruence.
Qed.

Lemma kms_rg_privkey u' p : prg (privkey w u' p) (λ r, u' = u → sha512 (into_bytes p) ≠ h → http_status r ≠ 200).
Proof.
  apply rg_or_return, kms_rg_authenticate; [done|by intros e He _ _|]. intros n m Hm Hauth.
  apply rg_or_return, kms_rg_send_read; [done|by intros e He _ _|]. intros n2 m2 _.
  assert (u' = u → sha512 (into_bytes p) ≠ h → False) as Hno by (intros -> Hp; unfold has_record in Hm; congruence).
  destruct (default [] _); [intros ? ?; exfalso; auto|]. apply rg_bind, rg_expect. intros k _ ? ?. exfalso. auto.
Qed.

Lemma kms_rg_handler rq : prg (handler w rq) (respects u h rq).
Proof.
  destruct rq as [| | | |u' p|sk u' p|u'|u' p]; cbn [handler respects].
  - done.
  - apply rg_or_return, kms_rg_send_read; [done|done|]. intros n m _. apply rg_bind, kms_rg_users. intros us.
    apply kms_rg_public_keys.
  - apply rg_or_return, kms_rg_send_read; [done|done|]. intros n m _. by repeat case_match.
  - by repeat (apply rg_bind; intros l _; split; [done|]).
  - apply kms_rg_register.
  - apply kms_rg_refresh.
  - apply rg_or_return, kms_rg_send_read; [done|done|]. intros n m _. case_match; [done|].
    apply rg_bind, rg_expect. intros k _. apply rg_bind. by intros ? _.
  - apply kms_rg_privkey.
Qed.

End passwords.

(** C21: A user's name and private key need the user's password.  Once the record of a user
    [u] (whose name is not one of the service's own keys) holds a hash [h], any number of
    requests of all kinds are handled concurrently, interleaved in any way and with failed
    requests.  The record is never overwritten, and no request for [u]'s private key, for a
    new key pair of [u] or to register [u] again is answered with success unless its
    password hashes to [h]. *)
Theorem kms_password_required `{Codec, UserListCodec, Dalek} u h (reqs : list (nat * KmsRequest)) l m k w' :
  plain u → h ≠ [] → has_record u h m →
  nsteps wstep k (mkWorld l m [] (map (λ rq, handler rq.1 rq.2) reqs)) w' →
  has_record u h (w_store w') ∧
  ∀ i rq r, reqs !! i = Some rq → w_pool w' !! i = Some (Ret r) → respects u h rq.2 r.
Proof.
  intros Hu Hh Hm Hsteps.
  eapply (rg_requests k (λ _, True) (λ _, has_record u h) ltac:(done) _ (λ rq, respects u h rq.2)) in Hsteps as (_ & ? & ?);
    [by eauto|lia|done|done|]. apply Forall_true. intros rq. by apply kms_rg_handler.
Qed.

(** * Requests one after the other *)

Section alone.
Context `{Codec, UserListLaws, DalekLaws} (w : nat) (pl : Placement) (Hpl : 0 ≤ pl_n pl < 2 ^ 64).

Lemma kms_run_send_read key l m :
  run pl (send w [read_op key] true) l m = Some (inr (default [] (m !! key)), bump w l, m).
Proof.
  unfold send. rewrite run_bind. change [read_op key] with (read_ops [key]). rewrite run_ask_read.
  cbn [mbind option_bind rcpt_results read_receipt]. rewrite <-read_last_value. by destruct (read_results m [key]).
Qed.

Lemma kms_run_send_write ops l m m' rs :
  run_all spec_op m ops = Some (m', rs) →
  ∃ l', run pl (send w ops false) l m = Some (inr (last_value (concat rs)), l', m').
Proof.
  intros Hr. unfold send. rewrite run_bind, run_ask_write, Hr.
  cbn [mbind option_bind rcpt_results write_receipt rcpt_block_n].
  destruct (concat rs) as [|r rs']; [by eexists|]. cbn [negb andb]. destruct (negb _); [|by eexists].
  rewrite run_bind. cbn [load run mbind option_bind id]. destruct (probe_for_byz_commit _); [|by eexists].
  rewrite run_bind, run_await_byz_commit by done. by eexists.
Qed.

Lemma kms_run_authenticate u p l m h :
  has_record u h m → h ≠ [] →
  run pl (authenticate_user w u p) l m =
  Some (if bool_decide (sha512 (into_bytes p) ≠ h)
        then inl (Unauthorized (Json [("message", JStr "incorrect password"); ("user", JStr u)]))
        else inr true, bump w l, m).
Proof.
  intros Hm Hh. unfold authenticate_user. rewrite run_bind, kms_run_send_read, Hm. cbn [mbind option_bind from_option id].
  destruct h; [done|]. by destruct (bool_decide _).
Qed.

(** The directory after the users of [ups] have registered, with their passwords. *)
Record directory (ups : list (string * string)) (m : store) : Prop := {
  dir_users : m !! into_bytes "user" = match ups with [] => None | _ => Some (users_to_vec ups.*1) end;
  dir_count : m !! into_bytes "user_count" = match ups with [] => None | _ => Some (be_bytes 8 (Z.of_nat (length ups))) end;
  dir_records : ∀ u p, (u, p) ∈ ups → has_record u (sha512 (into_bytes p)) m;
  dir_free : ∀ u, plain u → u ∉ ups.*1 → m !! into_bytes u = None }.

Definition registered_store (us : list string) (count : Z) (u p : string) (m : store) : store :=
  <[into_bytes "user_count" := be_bytes 8 count]> (<[into_bytes "user" := users_to_vec (us ++ [u])]>
    (<[into_bytes u := sha512 (into_bytes p)]> m)).

Lemma directory_register ups u p m :
  plain u → u ∉ ups.*1 → directory ups m →
  Forall (λ up, plain up.1) ups →
  directory (ups ++ [(u, p)]) (registered_store ups.*1 (Z.of_nat (length (ups ++ [(u, p)]))) u p m).
Proof.
  intros Hu Hnew [Hus Hc Hrec Hfree] Hplain. unfold registered_store.
  assert (∀ v, plain v → into_bytes v ≠ into_bytes "user" ∧ into_bytes v ≠ into_bytes "user_count") as Hpl'.
  { intros v (H1' & H2' & _). split; by intros ?%list_byte_of_string_inj. }
  assert (into_bytes "user" ≠ into_bytes "user_count") as Hn by done.
  assert (∀ (A : Type) (l : list (string * string)) (x y : A), match (l ++ [(u, p)])%list with [] => x | _ => y end = y) as Hne
    by (by intros A [|]).
  split.
  - rewrite lookup_insert_ne, lookup_insert_eq, Hne, fmap_app by done. done.
  - by rewrite lookup_insert_eq, Hne.
  - intros v q [Hin|[= -> ->]%list_elem_of_singleton]%elem_of_app; unfold has_record.
    + rewrite Forall_forall in Hplain. destruct (Hpl' v (Hplain _ Hin)) as [? ?].
      rewrite !lookup_insert_ne; [by apply Hrec|..|done|done].
      intros ->%list_byte_of_string_inj. apply Hnew, list_elem_of_fmap. by exists (v, q).
    + destruct (Hpl' u Hu) as [? ?]. rewrite !(lookup_insert_ne _ _ (into_bytes u)) by done. apply lookup_insert_eq.
  - intros v Hv Hin. rewrite fmap_app, not_elem_of_app in Hin. destruct Hin as [Hin Hne'].
    destruct (Hpl' v Hv) as [? ?]. rewrite !lookup_insert_ne; [by apply Hfree|..|done|done].
    intros ->%list_byte_of_string_inj. apply Hne'. simpl. by left.
Qed.

Lemma run_register ups u p l m :
  plain u → u ∉ ups.*1 → directory ups m → Forall (λ up, plain up.1) ups →
  Z.of_nat (length ups) + 1 < 2 ^ 63 →
  ∃ l' m', run pl (register w u p) l m =
      Some (HttpOk (Json [("message", JStr "user created"); ("users", JList (map JStr (ups.*1 ++ [u])))]), l', m') ∧
    directory (ups ++ [(u, p)]) m'.
Proof.
  intros Hu Hnew Hdir Hplain Hlen. pose proof Hdir as [Hus Hc Hrec Hfree]. unfold register.
  rewrite run_or_return, kms_run_send_read, Hfree by done. cbn [mbind option_bind from_option id].
  rewrite run_or_return.
  destruct (kms_run_send_write [write_op (into_bytes u) (sha512 (into_bytes p))] (bump w l) m _ _ eq_refl) as [l1 ->].
  cbn [mbind option_bind]. rewrite run_or_return, kms_run_send_read.
  assert (into_bytes u ≠ into_bytes "user" ∧ into_bytes u ≠ into_bytes "user_count") as [N1 N2].
  { destruct Hu as (P1 & P2 & _). split; by intros ?%list_byte_of_string_inj. }
  rewrite lookup_insert_ne, Hus by done. cbn [mbind option_bind]. rewrite run_bind.
  assert (∀ l m, run pl (get_users (default [] match ups with [] => None | _ => Some (users_to_vec ups.*1) end)) l m =
    Some (ups.*1, l, m)) as ->.
  { intros l2 m2. destruct ups as [|up ups]; [done|]. cbn [from_option id]. unfold get_users.
    destruct (users_to_vec _) eqn:E; [by apply users_nonempty in E|]. rewrite <-E, users_roundtrip. done. }
  cbn [mbind option_bind]. rewrite run_or_return.
  set (us := (ups.*1 ++ [u])%list). set (m1 := <[into_bytes u := _]> m).
  assert (∃ rs, run_all spec_op m1 [write_op (into_bytes "user") (users_to_vec us); increment_op (into_bytes "user_count")] =
    Some (registered_store ups.*1 (Z.of_nat (length (ups ++ [(u, p)]))) u p m, rs)) as [rs Hrun].
  { unfold registered_store. fold us m1. cbn [run_all]. rewrite spec_write. cbn [mbind option_bind]. rewrite spec_increment.
    rewrite (lookup_insert_ne _ _ (into_bytes "user_count")) by done.
    assert (m1 !! into_bytes "user_count" = m !! into_bytes "user_count") as -> by by apply lookup_insert_ne.
    rewrite Hc.
    assert (from_option i64_from_be (Some 0) match ups with [] => None | _ => Some (be_bytes 8 (Z.of_nat (length ups))) end =
      Some (Z.of_nat (length ups))) as ->.
    { destruct ups; [done|]. cbn [from_option]. apply i64_from_be_small. lia. }
    cbn [mbind option_bind]. unfold i64_add. rewrite as_i64_small by lia. eexists. do 4 f_equal.
    rewrite length_app. simpl. lia. }
  destruct (kms_run_send_write _ (bump w l1) m1 _ _ Hrun) as [l2 ->]. cbn [mbind option_bind].
  eexists l2, _. split; [done|]. by apply directory_register.
Qed.

Lemma run_registers ups0 ups l m :
  directory ups0 m → NoDup (ups0 ++ ups)%list.*1 → Forall (λ up, plain up.1) (ups0 ++ ups) →
  Z.of_nat (length (ups0 ++ ups)) < 2 ^ 63 →
  ∃ rs l' m', run_each pl (map (λ up, register w up.1 up.2) ups) l m = Some (rs, l', m') ∧
    Forall (λ r, http_status r = 200) rs ∧ directory (ups0 ++ ups) m'.
Proof.
  revert ups0 l m. induction ups as [|[u p] ups IH]; intros ups0 l m Hdir Hnd Hpl' Hlen.
  { eexists [], l, m. rewrite app_nil_r. split; [done|]. by split. }
  replace (ups0 ++ (u, p) :: ups)%list with ((ups0 ++ [(u, p)]) ++ ups)%list in * by by rewrite <-app_assoc.
  pose proof Hpl' as [Hpl0 _]%Forall_app. apply Forall_app in Hpl0 as [Hpl0 Hu]. apply Forall_inv in Hu.
  destruct (run_register ups0 u p l m) as (l1 & m1 & Hr & Hd1); [exact Hu| |exact Hdir|exact Hpl0| |].
  { rewrite !fmap_app in Hnd. apply NoDup_app in Hnd as [(_ & Hd & _)%NoDup_app _]. intros Hin. apply (Hd u Hin). by left. }
  { rewrite !length_app in Hlen. simpl in Hlen. lia. }
  destruct (IH (ups0 ++ [(u, p)])%list l1 m1 Hd1 Hnd Hpl' Hlen) as (rs & l2 & m2 & Hrs & Hok & Hd2).
  eexists (_ :: rs), l2, m2. cbn [map run_each fst snd]. rewrite Hr. cbn [mbind option_bind]. rewrite Hrs. cbn [mbind option_bind].
  split; [done|]. split; [by constructor|done].
Qed.

(** Registration is recorded.  Register any list of distinct users (with names that are
    not the service's own keys) one after the other, from the empty store: every one
    succeeds, the service counts as many users as there are, its list names them in order,
    and afterwards a password is accepted for a user exactly when it hashes like the one the
    user registered with. *)
Lemma kms_registration ups l :
  NoDup ups.*1 → Forall (λ up, plain up.1) ups → ups ≠ [] → Z.of_nat (length ups) < 2 ^ 63 →
  (∀ p, sha512 p ≠ []) →
  ∃ rs l1 m l2, run_each pl (map (λ up, register w up.1 up.2) ups) l ∅ = Some (rs, l1, m) ∧
    Forall (λ r, http_status r = 200) rs ∧
    run pl (num_users w) l1 m =
      Some (HttpOk (Json [("message", JStr "number of users"); ("user_count", JInt (Z.of_nat (length ups)))]), l2, m) ∧
    (m !! into_bytes "user" ≫= users_from_slice) = Some ups.*1 ∧
    ∀ u p p', (u, p) ∈ ups → ∃ r l3, run pl (authenticate_user w u p') l1 m = Some (r, l3, m) ∧
      (r = inr true ↔ sha512 (into_bytes p') = sha512 (into_bytes p)).
Proof.
  intros Hnd Hpl' Hne Hlen Hsha. destruct (run_registers [] ups l ∅) as (rs & l1 & m & Hr & Hok & [Hus Hc Hrec Hfree]); try done.
  { split; try done. intros u p Hin. by apply not_elem_of_nil in Hin. }
  cbn [app] in *. eexists rs, l1, m, (bump w l1). split; [done|]. split; [done|].
  assert (m !! into_bytes "user_count" = Some (be_bytes 8 (Z.of_nat (length ups))) ∧
          m !! into_bytes "user" = Some (users_to_vec ups.*1)) as [Hc' Hus'] by by destruct ups.
  split; [|split; [rewrite Hus'; apply users_roundtrip|]].
  - unfold num_users. rewrite run_or_return, kms_run_send_read, Hc'. cbn [mbind option_bind from_option id].
    destruct (be_bytes 8 _) eqn:E; [by apply (f_equal length) in E; rewrite length_be_bytes in E|]. rewrite <-E, i64_from_be_small by lia.
    done.
  - intros u p p' Hin. rewrite (kms_run_authenticate _ _ _ _ _ (Hrec u p Hin) (Hsha _)). eexists _, _. split; [done|].
    by case_bool_decide as Hb; split.
Qed.

(** The published key is the secret key.  After a user with the right password has a
    new key pair made, the public-key endpoint, which needs no password, returns the bytes of
    the signing key to anybody, and the private-key endpoint returns the verifying key: the
    two are swapped when the pair is stored. *)
Lemma kms_pubkey_is_secret sk u p l m :
  has_record u (sha512 (into_bytes p)) m → sha512 (into_bytes p) ≠ [] →
  ∃ body l1 m1, run pl (refresh w sk u p) l m = Some (HttpOk body, l1, m1) ∧
    ∀ l2, (∃ tag l3, run pl (pubkey w u) l2 m1 =
      Some (HttpOk (Json [("message", JStr "public key of user"); ("username", JStr u);
                          ("public key", JBytes (signing_key_to_bytes sk)); ("client tag", JInt tag)]), l3, m1)) ∧
    (∃ l3, run pl (privkey w u p) l2 m1 =
      Some (HttpOk (Json [("message", JStr "private key of user"); ("username", JStr u);
                          ("private key", JBytes (verifying_key_to_bytes sk))]), l3, m1)).
Proof.
  intros Hm Hne. unfold refresh. rewrite run_or_return, (kms_run_authenticate _ _ _ _ _ Hm Hne), bool_decide_false by auto.
  cbn [mbind option_bind]. rewrite run_or_return. edestruct (kms_run_send_write
    [write_op (pub_key_name u) (signing_key_to_bytes sk); write_op (priv_key_name u) (verifying_key_to_bytes sk)]) as [l1 Hr];
    [cbn [run_all]; rewrite !spec_write; reflexivity|]. rewrite Hr. cbn [mbind option_bind]. eexists _, l1, _. split; [done|].
  intros l2. assert (priv_key_name u ≠ pub_key_name u) as Hk by done.
  assert (∀ k : bytes, length k = KEY_LENGTH → k ≠ [] ∧ key_array k = Some k) as Harr.
  { intros k Hl. unfold key_array. rewrite Hl. split; [by intros ->|done]. }
  destruct (Harr _ (signing_key_length sk)) as [S1 S2], (Harr _ (verifying_key_length sk)) as [V1 V2]. split.
  - unfold pubkey. rewrite run_or_return, kms_run_send_read, lookup_insert_ne, lookup_insert_eq by done.
    cbn [mbind option_bind from_option id]. destruct (signing_key_to_bytes sk) eqn:E; [done|]. rewrite S2. by eexists _, _.
  - unfold privkey. rewrite run_or_return, (kms_run_authenticate u p _ _ (sha512 (into_bytes p))), bool_decide_false; [|by auto| |done].
    + cbn [mbind option_bind]. rewrite run_or_return, kms_run_send_read, lookup_insert_eq.
      cbn [mbind option_bind from_option id]. destruct (verifying_key_to_bytes sk) eqn:E; [done|]. rewrite V2. by eexists.
    + unfold has_record. rewrite !lookup_insert_ne; [done|..]; intros Heq%(f_equal length).
      * change (pub_key_name u) with (into_bytes "pub:" ++ into_bytes u)%list in Heq. rewrite length_app in Heq.
        change (length (into_bytes "pub:")) with 4%nat in Heq. lia.
      * change (priv_key_name u) with (into_bytes "priv:" ++ into_bytes u)%list in Heq. rewrite length_app in Heq.
        change (length (into_bytes "priv:")) with 5%nat in Heq. lia.
Qed.

End alone.

(** * Concrete runs *)

Definition toy_dalek : Dalek :=
  {| SigningKey := u8; signing_key_to_bytes := λ b, replicate 32 b;
     verifying_key_to_bytes := λ b, replicate 32 (byte_of (byte_val b + 1)) |}.
Lemma toy_dalek_laws : @DalekLaws toy_dalek.
Proof. by split. Qed.

Definition toy_kms_codec : Codec := toy_codec Serialize.toy_block.
Definition toy_pl : Placement := mkPlacement [] 1 0 [].
Definition toy_kms : Kms := mkKms [0; 0] true.

Lemma plain_alice : plain "alice".
Proof. by repeat split. Qed.
Lemma plain_bob : plain "bob".
Proof. by repeat split. Qed.

(** Alice's record, her private key asked for with a wrong password while Bob registers
    and someone tries to take her name. *)
Definition toy_kms_requests : list (nat * @KmsRequest toy_dalek) :=
  [(0%nat, @RqPrivkey toy_dalek "alice" "guess"); (1%nat, @RqRegister toy_dalek "bob" "pw");
   (0%nat, @RqRegister toy_dalek "alice" "mine")].
Definition toy_kms_store : store := <[into_bytes "alice" := @sha512 toy_kms_codec (into_bytes "secret")]> ∅.
Definition toy_kms_world : World Kms :=
  mkWorld toy_kms toy_kms_store [] (map (λ rq, @handler toy_kms_codec toy_users toy_dalek rq.1 rq.2) toy_kms_requests).
Definition toy_kms_schedule : list Choice :=
  go 1 1 toy_pl ++ go 0 1 toy_pl ++ go 1 1 toy_pl ++ [ChState 1] ++ go 2 1 toy_pl.

Lemma kms_password_required_witness :
  match schedule toy_kms_schedule toy_kms_world with
  | Some w' => statuses w' = [Some 401; None; Some 409] ∧
      has_record "alice" (@sha512 toy_kms_codec (into_bytes "secret")) (w_store w')
  | None => False
  end.
Proof.
  destruct (schedule _ _) as [w'|] eqn:E.
  - assert (statuses <$> schedule toy_kms_schedule toy_kms_world = Some [Some 401; None; Some 409]) as Hst
      by (vm_compute; reflexivity).
    rewrite E in Hst. injection Hst as Hst. split; [exact Hst|].
    apply (@kms_password_required toy_kms_codec toy_users toy_dalek "alice"
      (@sha512 toy_kms_codec (into_bytes "secret")) toy_kms_requests toy_kms toy_kms_store (length toy_kms_schedule));
      [apply plain_alice|done|by apply lookup_insert_eq|]. by apply schedule_nsteps.
  - assert (bool_decide (is_Some (statuses <$> schedule toy_kms_schedule toy_kms_world)) = true) as H by (vm_compute; reflexivity).
    rewrite E in H. discriminate H.
Defined.

Lemma kms_registration_witness :
  let C := toy_kms_codec in let U := toy_users in let D := toy_dalek in
  ∃ rs l1 m l2, run_each toy_pl (map (λ up, register 0 up.1 up.2) [("alice", "a"); ("bob", "b")]) toy_kms ∅ = Some (rs, l1, m) ∧
    Forall (λ r, http_status r = 200) rs ∧
    run toy_pl (num_users 0) l1 m =
      Some (HttpOk (Json [("message", JStr "number of users"); ("user_count", JInt 2)]), l2, m).
Proof.
  intros C U D. pose proof toy_users_laws. pose proof toy_dalek_laws.
  destruct (kms_registration 0 toy_pl ltac:(cbn; lia) [("alice", "a"); ("bob", "b")] toy_kms)
    as (rs & l1 & m & l2 & H1 & H2 & H3 & _).
  - apply NoDup_cons. split; [set_solver|]. apply NoDup_singleton.
  - constructor; [apply plain_alice|]. constructor; [apply plain_bob|constructor].
  - done.
  - done.
  - by intros [].
  - exists rs, l1, m, l2. by split.
Defined.

Lemma kms_pubkey_is_secret_witness :
  let C := toy_kms_codec in let U := toy_users in let D := toy_dalek in
  ∃ body l1 m1, run toy_pl (refresh 0 Byte.x05 "alice" "secret") toy_kms toy_kms_store = Some (HttpOk body, l1, m1) ∧
    ∃ tag l3, run toy_pl (pubkey 0 "alice") l1 m1 =
      Some (HttpOk (Json [("message", JStr "public key of user"); ("username", JStr "alice");
                          ("public key", JBytes (replicate 32 Byte.x05)); ("client tag", JInt tag)]), l3, m1).
Proof.
  intros C U D. pose proof toy_users_laws. pose proof toy_dalek_laws.
  destruct (kms_pubkey_is_secret 0 toy_pl ltac:(cbn; lia) (Byte.x05 : @SigningKey toy_dalek) "alice" "secret" toy_kms toy_kms_store)
    as (body & l1 & m1 & H1 & H2); [by apply lookup_insert_eq|done|].
  exists body, l1, m1. split; [exact H1|]. exact (proj1 (H2 l1)).
Defined.

(** Two registrations that read the user list before either has written it: both succeed,
    the counter says two users, and the list has lost one of them. *)
Definition toy_read_users (i : nat) : list Choice := go i 2 toy_pl ++ [ChState i] ++ go i 1 toy_pl.
Definition toy_write_users (i : nat) : list Choice := go i 1 toy_pl ++ [ChState i].
Definition toy_registrations : World Kms :=
  mkWorld (mkKms [0; 0] false) ∅ []
    [@register toy_kms_codec toy_users 0 "alice" "a"; @register toy_kms_codec toy_users 1 "bob" "b"].

Lemma concurrent_registration_loses_user :
  (λ w', (statuses w', w_store w' !! into_bytes "user" ≫= @users_from_slice toy_users, w_store w' !! into_bytes "user_count"))
    <$> schedule (toy_read_users 0 ++ toy_read_users 1 ++ toy_write_users 0 ++ toy_write_users 1) toy_registrations =
  Some ([Some 200; Some 200], Some ["bob"], Some (be_bytes 8 2)).
Proof. vm_compute. reflexivity. Qed.

(** Listing the public keys panics as long as a registered user has none. *)
Lemma listpubkeys_panics_without_key :
  ∃ m, (run toy_pl (@register toy_kms_codec toy_users 0 "alice" "a") toy_kms ∅ ≫= λ x, Some x.2) = Some m ∧
    run toy_pl (@listpubkeys toy_users 0) toy_kms m = None.
Proof. eexists. split; [reflexivity|]. vm_compute. reflexivity. Qed.
