(* ===== verification/Svr3.v ===== *)
(** The secret value recovery service (src/contrib/svr3/frontend.rs): PIN-protected access
    to per-user secrets, with a guess counter in the store and signed access tokens.
    Theorems: a locked account stays locked and gives out no token under every interleaving;
    the tokens the service issues are accepted, and what is stored with one is recovered with
    it; the expiry check of tokens looks at the time of day only. *)

From stdpp Require Import base numbers list gmap strings option relations.
From S2P Require Import Prelude Types Config Serialize Crypto ClientReply App Kvs Sequencer Frontend.

#[local] Open Scope string_scope.
#[local] Open Scope Z_scope.

(** * Libraries *)

(** chrono: an instant in nanoseconds since the epoch with an offset from UTC. *)
Record DateTime := mkDateTime { dt_utc : Z; dt_offset : Z }.
Definition nanos_per_day : Z := 86400 * 1000000000.
Definition nanos_per_hour : Z := 3600 * 1000000000.
(** [.time()]: the time of day. *)
Definition time_of_day (d : DateTime) : Z := (dt_utc d + dt_offset d) mod nanos_per_day.

(** Parsers return the debug text of their error. *)
Class Chrono := {
  parse_from_rfc3339 : string → string + DateTime;
  to_rfc3339 : Z → string }.
Class ChronoLaws `{Chrono} := {
  rfc3339_roundtrip : ∀ t, parse_from_rfc3339 (to_rfc3339 t) = inr (mkDateTime t 0) }.

Class HexText := {
  hex_encode : bytes → string;
  hex_decode : string → string + bytes }.
Class HexTextLaws `{HexText} := {
  hex_roundtrip : ∀ b, hex_decode (hex_encode b) = inr b }.

(** * The front end *)

Record AuthToken := mkToken {
  valid_until : string;
  tok_username : string;
  signature : string;
  tok_leader_name : string;
  version : Z }.

(** The state of the server process: a tag counter per worker, the shared flag and the
    shared secrets. *)
Record Svr := mkSvr { svr_tags : list Z; svr_probe : bool; secret_store : gmap string (gmap Z string) }.

#[export] Instance svr_client_tags : ClientTags Svr := {
  worker_tags := svr_tags;
  set_worker_tags := λ ts l, mkSvr ts (svr_probe l) (secret_store l) }.

Definition MAX_GUESSES : Z := 1000000.
Definition retries_key (username : string) : bytes := into_bytes ("retries:" +:+ username).
Definition version_key (username : string) : bytes := into_bytes ("version:" +:+ username).

(** [x as u32] on an i64. *)
Definition as_u32 (z : Z) : Z := z mod 2 ^ 32.

(** [match v.as_slice().try_into() { Ok(arr) => i64::from_be_bytes(arr), _ => 0 }] *)
Definition i64_or_zero (v : bytes) : Z := default 0 (i64_from_be v).

Section handlers.
Context `{Codec, Ed25519, UserListCodec, Chrono, HexText} (keys : KeyStore) (leader_name : string) (w : nat).

Definition send (transaction_ops : list ProtoTransactionOp) (isRead : bool) : prog Svr (HttpResponse + list bytes) :=
  r ← ask w (transaction isRead transaction_ops);
  match r with
  | inl e => mret (inl e)
  | inr receipt =>
      match rcpt_results receipt with
      | Some (mkTxResult []) => mret (inr [])
      | _ =>
          let result := from_option (λ t, concat (map op_values (tx_result t))) [] (rcpt_results receipt) in
          let block_n := rcpt_block_n receipt in
          if negb isRead && negb (block_n =? 0) then
            probe ← load svr_probe;
            if (probe : bool) then _ ← await_byz_commit w block_n; mret (inr result) else mret (inr result)
          else mret (inr result)
      end
  end.

Definition authenticate_user (username pin : string) : prog Svr (HttpResponse + unit) :=
  r ← send [read_op (into_bytes username)] true;
  match r with
  | inl e => mret (inl e)
  | inr [] => mret (inl (NotFound (Json [("message", JStr "username does not exist"); ("user", JStr username)])))
  | inr (v :: _) =>
      if bool_decide (sha512 (into_bytes pin) ≠ v)
      then mret (inl (Unauthorized (Json [("message", JStr "incorrect pin"); ("user", JStr username)])))
      else mret (inr tt)
  end.

(** [now] is what the clock shows during the call. *)
Definition validate_token (now : Z) (token : AuthToken) : string + bool :=
  match parse_from_rfc3339 (valid_until token) with
  | inl e => inl e
  | inr parsed_time =>
      if time_of_day parsed_time <? time_of_day (mkDateTime now 0) then inr false
      else
        let check := valid_until token +:+ tok_username token +:+ tok_leader_name token in
        match hex_decode (signature token) with
        | inl e => inl e
        | inr sig =>
            match sig_try_into sig with
            | None => inl "TryFromSliceError(())"
            | Some sig => inr (ks_verify keys (tok_leader_name token) sig (into_bytes check))
            end
        end
  end.

Definition auth (username pin : string) : prog Svr HttpResponse :=
  result ←? send [read_op (into_bytes username)] true;
  match result with
  | _ :: _ => mret (Conflict (Json [("message", JStr "username already exists")]))
  | [] =>
      _ ←? send [write_op (into_bytes username) (sha512 (into_bytes pin))] false;
      get_user_result ←? send [read_op (into_bytes "user")] true;
      users ← match get_user_result with [] => mret [] | v :: _ => expect (users_from_slice v) end;
      let users := (users ++ [username])%list in
      _ ←? send [write_op (into_bytes "user") (users_to_vec users)] false;
      mret (HttpOk (Json [("message", JStr "user created"); ("users", JList (map JStr users))]))
  end.

(** [{:?}] on the result of [validate_token]. *)
Definition debug_result (r : string + bool) : string :=
  match r with
  | inl e => "Err(" +:+ e +:+ ")"
  | inr b => if b then "Ok(true)" else "Ok(false)"
  end.

Definition storeSecret (now : Z) (token : AuthToken) (val : string) : prog Svr HttpResponse :=
  match validate_token now token with
  | inr true =>
      _ ← update (λ l, mkSvr (svr_tags l) (svr_probe l)
            (<[tok_username token := <[version token := val]> (default ∅ (secret_store l !! tok_username token))]> (secret_store l)));
      mret (HttpOk (Json [("message", JStr "user secret store"); ("user secret", JStr val)]))
  | r => mret (Unauthorized (Json [("message", JStr "incorrect token"); ("result", JStr (debug_result r))]))
  end.

Definition token_response (t : AuthToken) : HttpResponse :=
  HttpOk (Json [("valid_until", JStr (valid_until t)); ("username", JStr (tok_username t));
                ("signature", JStr (signature t)); ("leader_name", JStr (tok_leader_name t)); ("version", JInt (version t))]).

(** The wrong-PIN branch of [getToken]. *)
Definition count_guess (username : string) : prog Svr HttpResponse :=
  response ←? send [increment_op (retries_key username)] false;
  increment_user_pin_result ← expect (head response);
  let total_guesses := i64_or_zero increment_user_pin_result in
  mret (Unauthorized (Json [("message", JStr "incorrect pin"); ("retries", JInt total_guesses)])).

(** The version of the token. *)
Definition token_version (username : string) (increment_version : bool) : prog Svr (HttpResponse + Z) :=
  if increment_version then
    r ← send [increment_op (version_key username)] false;
    match r with
    | inl e => mret (inl e)
    | inr result => v ← expect (head result); mret (inr (as_u32 (i64_or_zero v)))
    end
  else
    r ← send [read_op (version_key username)] true;
    match r with
    | inl e => mret (inl e)
    | inr result => mret (inr (as_u32 (i64_or_zero (default (i64_to_be 0) (head result)))))
    end.

(** The token issued at [now] (without its version). *)
Definition issue (now : Z) (username : string) (v : Z) : AuthToken :=
  let one_hour_from_now_str := to_rfc3339 (now + nanos_per_hour) in
  let sig := one_hour_from_now_str +:+ username +:+ leader_name in
  mkToken one_hour_from_now_str username (hex_encode (ks_sign keys (into_bytes sig))) leader_name v.

Definition getToken (now : Z) (username pin : string) (increment_version : bool) : prog Svr HttpResponse :=
  res ← authenticate_user username pin;
  match res with
  | inl e => if http_status e =? 404 then mret e else count_guess username
  | inr _ =>
      response ←? send [read_op (retries_key username)] true;
      let total_guesses := i64_or_zero (default (i64_to_be 0) (head response)) in
      if total_guesses >? MAX_GUESSES then
        mret (Unauthorized (Json [("message", JStr "too many guesses"); ("retries", JInt total_guesses)]))
      else
        _ ← send [cas_op [retries_key username; i64_to_be 0; i64_to_be total_guesses]] false;
        v ←? token_version username increment_version;
        mret (token_response (issue now username v))
  end.

Definition recoverSecret (now : Z) (token : AuthToken) : prog Svr HttpResponse :=
  match validate_token now token with
  | inr true =>
      secrets ← load secret_store;
      match secrets !! tok_username token with
      | Some secret =>
          match secret !! version token with
          | Some secret_value =>
              mret (HttpOk (Json [("message", JStr "user secret store"); ("user secret", JStr secret_value)]))
          | None => mret (NotFound (Json [("message", JStr "user secret not found")]))
          end
      | None => mret (NotFound (Json [("message", JStr "user not found")]))
      end
  | _ => mret (Unauthorized (Json [("message", JStr "incorrect token")]))
  end.

Definition toggle_byz_wait : prog Svr HttpResponse :=
  state ← load svr_probe;
  let state := negb state in
  _ ← update (λ l, mkSvr (svr_tags l) state (secret_store l));
  mret (HttpOk (Json [("message", JStr "byzantine wait toggled"); ("probe_for_byz_commit", JBool state)])).

Definition home : prog Svr HttpResponse :=
  mret (HttpOk (Json [("message", JStr "hello from a non-shared, local state")])).

Inductive SvrRequest :=
  | RqHome | RqToggle
  | RqAuth (username pin : string)
  | RqStore (now : Z) (token : AuthToken) (val : string)
  | RqGetToken (now : Z) (username pin : string) (increment_version : bool)
  | RqRecover (now : Z) (token : AuthToken).

Definition handler (rq : SvrRequest) : prog Svr HttpResponse :=
  match rq with
  | RqHome => home
  | RqToggle => toggle_byz_wait
  | RqAuth u p => auth u p
  | RqStore now t v => storeSecret now t v
  | RqGetToken now u p i => getToken now u p i
  | RqRecover now t => recoverSecret now t
  end.

End handlers.

(** * Reasoning about [send] *)

Lemma read_values m key : concat (map op_values (read_results m [key])) = option_list (m !! key).
Proof. unfold read_results. simpl. by destruct (m !! key). Qed.

Section reasoning.
Context `{Codec, Ed25519, UserListCodec, Chrono, HexText} (w : nat) (N : nat) (I : nat → store → Prop).
Context (I_weaken : ∀ n m, I n m → I (S n) m).

Abbreviation srg := (rg N (λ _ : Svr, True) I).

Lemma svr_rg_send_read key (Q : HttpResponse + list bytes → Prop) :
  (∀ e, http_status e ≠ 200 → Q (inl e)) → (∀ n m, (n < N)%nat → I n m → Q (inr (option_list (m !! key)))) →
  srg (send w [read_op key] true) Q.
Proof.
  intros He Hr. apply rg_bind. change [read_op key] with (read_ops [key]).
  apply rg_ask_read; [done|done|by intros e ? _; apply He|].
  intros n m Hn HI. specialize (Hr n m Hn HI). rewrite <-read_values in Hr. unfold read_receipt. cbn [rcpt_results from_option tx_result].
  by destruct (read_results m [key]).
Qed.

Lemma svr_rg_send_write ops (Q : HttpResponse + list bytes → Prop) :
  keeps_ops N I ops → (∀ e, http_status e ≠ 200 → Q (inl e)) → (∀ v, Q (inr v)) → srg (send w ops false) Q.
Proof.
  intros Hk He Hv. apply rg_bind, rg_ask_write; [done|done|by intros e ? _; apply He|].
  intros n pl m m' rs _ _ _. cbn [rcpt_results write_receipt].
  destruct (concat rs); [apply Hv|]. cbn [negb andb]. destruct (negb _); [|apply Hv].
  apply rg_bind. intros l0 _. split; [done|]. cbn beta. destruct (svr_probe l0); [|apply Hv].
  apply rg_bind, rg_await_byz_commit; [done|done|]. apply Hv.
Qed.

Lemma svr_rg_authenticate u p (Q : HttpResponse + unit → Prop) :
  (∀ r, (∀ e, r = inl e → http_status e ≠ 200) → Q r) → srg (authenticate_user w u p) Q.
Proof.
  intros HQ. apply rg_bind. apply svr_rg_send_read; [intros e He; apply HQ; by intros ? [= <-]|].
  intros n m _ _. destruct (option_list _); [apply HQ; by intros ? [= <-]|].
  destruct (bool_decide _); apply HQ; by intros ? [= <-].
Qed.

End reasoning.

(** * The lock *)

(** The counter of [u] is above the limit, and at most [c0 + n]. *)
Definition locked (u : string) (c0 : Z) (n : nat) (m : store) : Prop :=
  ∃ c, m !! retries_key u = Some (be_bytes 8 c) ∧ MAX_GUESSES < c ≤ c0 + Z.of_nat n.

Lemma locked_weaken u c0 n m : locked u c0 n m → locked u c0 (S n) m.
Proof. intros (c & Hc & ?). exists c. split; [done|lia]. Qed.

Lemma locked_write N u c0 key val :
  retries_key u ≠ key → keeps_ops N (locked u c0) [write_op key val].
Proof.
  intros Hne n m m' rs _ (c & Hc & ?). cbn [run_all]. rewrite spec_write. intros [= <- <-].
  exists c. rewrite lookup_insert_ne by done. split; [done|lia].
Qed.

Lemma locked_increment N u c0 key :
  MAX_GUESSES ≤ c0 → c0 + Z.of_nat N < 2 ^ 63 → keeps_ops N (locked u c0) [increment_op key].
Proof.
  intros H0 HN n m m' rs Hn (c & Hc & Hle). cbn [run_all]. rewrite spec_increment.
  destruct (decide (key = retries_key u)) as [->|Hne].
  - rewrite Hc. cbn [from_option]. unfold MAX_GUESSES in *. rewrite i64_from_be_small by lia. cbn [mbind option_bind]. intros [= <- <-].
    exists (c + 1). unfold i64_add. rewrite as_i64_small by lia. rewrite lookup_insert_eq. split; [done|unfold MAX_GUESSES; lia].
  - destruct (from_option _ _ _); [|done]. intros [= <- <-]. exists c. rewrite lookup_insert_ne by done. split; [done|lia].
Qed.

(** The reset of the counter: it does not match a counter above the limit. *)
Lemma locked_reset N u c0 v g :
  c0 + Z.of_nat N < 2 ^ 63 → - 2 ^ 63 ≤ g ≤ MAX_GUESSES →
  keeps_ops N (locked u c0) [cas_op [retries_key v; i64_to_be 0; i64_to_be g]].
Proof.
  intros HN Hg n m m' rs Hn (c & Hc & Hle). unfold MAX_GUESSES in *. cbn -[retries_key i64_to_be bool_decide]. rewrite andb_true_r.
  destruct (bool_decide _) eqn:Hb; intros [= <- <-]; exists c; [|split; [done|unfold MAX_GUESSES; lia]].
  apply bool_decide_eq_true in Hb. destruct (decide (retries_key v = retries_key u)) as [Heq|Hne].
  - rewrite Heq, Hc in Hb. cbn [from_option id] in Hb. apply (f_equal i64_from_be) in Hb. unfold i64_to_be in Hb.
    rewrite !i64_from_be_small in Hb by lia. injection Hb as ->. lia.
  - rewrite lookup_insert_ne by done. split; [done|unfold MAX_GUESSES; lia].
Qed.

Section lockout.
Context `{Codec, Ed25519, UserListCodec, Chrono, HexText} (keys : KeyStore) (leader : string).
Context (w : nat) (N : nat) (u : string) (c0 : Z) (Hc0 : MAX_GUESSES ≤ c0) (HN : c0 + Z.of_nat N < 2 ^ 63).

Abbreviation lrg := (rg N (λ _ : Svr, True) (locked u c0)).

(** What a response may be while [u] is locked. *)
Definition no_token (rq : SvrRequest) (r : HttpResponse) : Prop :=
  match rq with
  | RqGetToken _ v _ _ => v = u → http_status r ≠ 200
  | _ => True
  end.

(** Users whose name is the counter of [u]. *)
Definition spares_counter (rq : SvrRequest) : Prop :=
  match rq with RqAuth v _ => v ≠ "retries:" +:+ u | _ => True end.

Lemma svr_rg_auth v p : v ≠ "retries:" +:+ u → lrg (auth w v p) (λ _, True).
Proof.
  intros Hv. apply rg_or_return, svr_rg_send_read; [apply locked_weaken|done|]. intros n m _ _.
  destruct (option_list _); [|done]. apply rg_or_return, svr_rg_send_write; [apply locked_weaken| |done|].
  { apply locked_write. intros Heq%list_byte_of_string_inj. congruence. }
  intros _. apply rg_or_return, svr_rg_send_read; [apply locked_weaken|done|]. intros n2 m2 _ _.
  apply rg_bind. destruct (option_list _); [|apply rg_expect; intros us _].
  all: apply rg_or_return, svr_rg_send_write; [apply locked_weaken| |done|done]; by apply locked_write.
Qed.

Lemma svr_rg_version v (inc : bool) : lrg (token_version w v inc) (λ r, ∀ e, r = inl e → http_status e ≠ 200).
Proof.
  unfold token_version. destruct inc.
  - apply rg_bind, svr_rg_send_write; [apply locked_weaken|by apply locked_increment|by intros e He ? [= <-]|].
    intros vs. apply rg_bind, rg_expect. by intros x _ e.
  - apply rg_bind, svr_rg_send_read; [apply locked_weaken|by intros e He ? [= <-]|by intros n m _ _ e].
Qed.

Lemma svr_rg_getToken now v p inc : lrg (getToken keys leader w now v p inc) (λ r, v = u → http_status r ≠ 200).
Proof.
  apply rg_bind, svr_rg_authenticate; [apply locked_weaken|]. intros [e|[]] He.
  - destruct (_ =? 404); [intros _; by apply He|]. apply rg_or_return, svr_rg_send_write;
      [apply locked_weaken|by apply locked_increment|by intros e' He' _|]. intros vs. apply rg_bind, rg_expect. by intros x _ _.
  - apply rg_or_return, svr_rg_send_read; [apply locked_weaken|by intros e' He' _|]. intros n m Hn (c & Hc & Hle).
    cbv zeta. set (g := i64_or_zero _). destruct (Z.gtb_spec g MAX_GUESSES) as [|Hg]; [by intros _|].
    assert (v ≠ u) as Hvu.
    { intros ->. unfold g in Hg. rewrite Hc in Hg.
      change (i64_or_zero (be_bytes 8 c) ≤ MAX_GUESSES) in Hg. unfold i64_or_zero in Hg. rewrite i64_from_be_small in Hg by (unfold MAX_GUESSES in *; lia). cbn [from_option id] in Hg. lia. }
    assert (- 2 ^ 63 ≤ g) as Hg0.
    { unfold g, i64_or_zero. destruct (i64_from_be _) as [z|] eqn:E; [|cbn; lia]. apply i64_from_be_Some in E as [? _]. cbn. lia. }
    apply rg_bind, svr_rg_send_write; [apply locked_weaken|by apply locked_reset| |].
    all: intros; apply rg_or_return; eapply rg_mono; [|apply svr_rg_version]; intros [e'|x] ?; [intros; congruence|by intros ?].
Qed.

Lemma svr_rg_handler rq : spares_counter rq → lrg (handler keys leader w rq) (no_token rq).
Proof.
  destruct rq as [| |v p|now t val|now v p inc|now t]; cbn [handler no_token spares_counter]; intros Hs.
  - done.
  - by repeat (apply rg_bind; intros ? _; split; [done|]).
  - by apply svr_rg_auth.
  - unfold storeSecret. destruct (validate_token _ _ _) as [e|[]]; [done| |done]. apply rg_bind. intros ? _. by split.
  - apply svr_rg_getToken.
  - unfold recoverSecret. destruct (validate_token _ _ _) as [e|[]]; [done| |done]. apply rg_bind. intros l0 _. split; [done|].
    cbn [rg]. by repeat case_match.
Qed.

End lockout.


(** * Requests one after the other *)

(** The key of this node is in the key store under the name it signs for. *)
Definition signs_for `{Ed25519} (keys : KeyStore) (leader : string) : Prop :=
  ∃ pk, get_pubkey keys leader = Some pk ∧
    ∀ msg, length (ks_sign keys msg) = SIGNATURE_LENGTH ∧ ed_verify pk msg (ks_sign keys msg) = true.

Section alone.
Context `{Codec, Ed25519, UserListCodec, ChronoLaws, HexTextLaws} (keys : KeyStore) (leader : string).
Context (w : nat) (pl : Placement) (Hpl : 0 ≤ pl_n pl < 2 ^ 64).

Lemma svr_run_send_read key l m :
  run pl (send w [read_op key] true) l m = Some (inr (option_list (m !! key)), bump w l, m).
Proof.
  unfold send. rewrite run_bind. change [read_op key] with (read_ops [key]). rewrite run_ask_read.
  cbn [mbind option_bind rcpt_results read_receipt from_option tx_result]. rewrite <-read_values. by destruct (read_results m [key]).
Qed.

Lemma svr_run_send_write ops l m m' rs :
  run_all spec_op m ops = Some (m', rs) →
  ∃ l', run pl (send w ops false) l m = Some (inr (concat (map op_values (concat rs))), l', m') ∧ secret_store l' = secret_store l.
Proof.
  intros Hr. unfold send. rewrite run_bind, run_ask_write, Hr.
  cbn [mbind option_bind rcpt_results write_receipt rcpt_block_n from_option tx_result].
  destruct (concat rs) as [|r rs']; [by eexists|]. cbn [negb andb]. destruct (negb _); [|by eexists].
  rewrite run_bind. cbn [load run mbind option_bind id]. destruct (svr_probe _); [|by eexists].
  rewrite run_bind, run_await_byz_commit by done. by eexists.
Qed.

(** A counter of the store, and that it is one. *)
Definition counter (m : store) (k : bytes) : Z := from_option i64_or_zero 0 (m !! k).
Definition is_counter (m : store) (k : bytes) : Prop := ∀ v, m !! k = Some v → is_Some (i64_from_be v).

Lemma counter_increment m k :
  is_counter m k →
  run_all spec_op m [increment_op k] =
  Some (<[k := be_bytes 8 (i64_add (counter m k) 1)]> m, [[mkOpResult true [be_bytes 8 (i64_add (counter m k) 1)]]]).
Proof.
  intros Hk. cbn [run_all]. rewrite spec_increment. unfold counter, i64_or_zero.
  destruct (m !! k) as [v|] eqn:Hm; [|done]. destruct (Hk v Hm) as [z Hz]. cbn [from_option]. by rewrite Hz.
Qed.

Lemma i64_or_zero_be z : i64_or_zero (be_bytes 8 z) = as_i64 z.
Proof. unfold i64_or_zero. by rewrite i64_from_be_bytes. Qed.

Lemma as_i64_add a b : as_i64 (i64_add a b) = i64_add a b.
Proof. apply as_i64_small, as_i64_range. Qed.

(** The reset of a counter: nothing happens when there is none. *)
Definition reset_store (m : store) (k : bytes) : store :=
  if bool_decide (is_Some (m !! k)) then <[k := i64_to_be 0]> m else m.

Lemma counter_reset m k :
  is_counter m k →
  ∃ rs, run_all spec_op m [cas_op [k; i64_to_be 0; i64_to_be (counter m k)]] = Some (reset_store m k, rs).
Proof.
  intros Hk. unfold reset_store. cbn -[i64_to_be bool_decide counter]. rewrite andb_true_r.
  unfold counter, i64_or_zero. destruct (m !! k) as [v|] eqn:Hm; cbn [from_option id].
  - destruct (Hk v Hm) as [z Hz]. rewrite Hz. cbn [from_option id]. apply i64_from_be_Some in Hz as [_ Hz].
    unfold i64_to_be. rewrite Hz, !bool_decide_true by done. by eexists.
  - rewrite !bool_decide_false; [by eexists| |done]. by intros [? ?].
Qed.

(** The effect of [getToken] that nothing interferes with. *)
Definition get_token_spec (now : Z) (u pin : string) (inc : bool) (m : store) : HttpResponse * store :=
  let c := counter m (retries_key u) in
  let v := counter m (version_key u) in
  match m !! into_bytes u with
  | None => (NotFound (Json [("message", JStr "username does not exist"); ("user", JStr u)]), m)
  | Some record =>
      if bool_decide (sha512 (into_bytes pin) ≠ record) then
        (Unauthorized (Json [("message", JStr "incorrect pin"); ("retries", JInt (i64_add c 1))]),
         <[retries_key u := be_bytes 8 (i64_add c 1)]> m)
      else if c >? MAX_GUESSES then
        (Unauthorized (Json [("message", JStr "too many guesses"); ("retries", JInt c)]), m)
      else if inc then
        (token_response (issue keys leader now u (as_u32 (i64_add v 1))),
         <[version_key u := be_bytes 8 (i64_add v 1)]> (reset_store m (retries_key u)))
      else (token_response (issue keys leader now u (as_u32 v)), reset_store m (retries_key u))
  end.

Lemma version_not_retries u : version_key u ≠ retries_key u.
Proof. done. Qed.

Lemma run_token_version u inc l m :
  is_counter m (version_key u) →
  ∃ l', run pl (token_version w u inc) l m =
    Some (inr (as_u32 (if inc then i64_add (counter m (version_key u)) 1 else counter m (version_key u))), l',
          if inc then <[version_key u := be_bytes 8 (i64_add (counter m (version_key u)) 1)]> m else m).
Proof.
  intros Hv. unfold token_version. destruct inc.
  - rewrite run_bind. destruct (svr_run_send_write _ l m _ _ (counter_increment m _ Hv)) as (l' & -> & _).
    cbn [mbind option_bind]. rewrite run_bind. cbn -[be_bytes i64_or_zero]. exists l'. by rewrite i64_or_zero_be, as_i64_add.
  - rewrite run_bind, svr_run_send_read. cbn [mbind option_bind]. eexists. unfold counter. by destruct (m !! version_key u).
Qed.

Lemma reset_other m k k' : k ≠ k' → reset_store m k !! k' = m !! k'.
Proof. intros Hne. unfold reset_store. case_bool_decide; [by rewrite lookup_insert_ne|done]. Qed.

(** What a request for a token does.  On every store whose two counters of the user are
    numbers (or absent), a request that nothing interferes with does what [get_token_spec]
    says: an unknown user is reported; a wrong PIN is refused and adds one to the guess
    counter; a right PIN is refused when the counter is above the limit; otherwise the
    counter is set back to zero and a token is issued, signed for an hour and with the
    user's version, which is incremented first when the request asks for it. *)
Lemma svr3_get_token now u pin inc l m :
  is_counter m (retries_key u) → is_counter m (version_key u) →
  ∃ l', run pl (getToken keys leader w now u pin inc) l m =
    Some ((get_token_spec now u pin inc m).1, l', (get_token_spec now u pin inc m).2).
Proof.
  intros Hr Hv. unfold getToken, get_token_spec, authenticate_user. rewrite !run_bind, svr_run_send_read. cbn [mbind option_bind].
  destruct (m !! into_bytes u) as [record|] eqn:Hu; [|by eexists].
  change (option_list (Some record)) with [record]. cbv iota.
  destruct (decide (sha512 (into_bytes pin) = record)) as [Heq|Hne];
    [rewrite !bool_decide_false by auto|rewrite !bool_decide_true by done]; cbn [run mret prog_mret mbind option_bind].
  2:{ change (http_status (Unauthorized _) =? 404) with false. cbv iota. unfold count_guess. rewrite run_or_return.
    destruct (svr_run_send_write _ (bump w l) m _ _ (counter_increment m _ Hr)) as (l' & -> & _).
    cbn -[be_bytes i64_or_zero]. exists l'. by rewrite i64_or_zero_be, as_i64_add. }
  rewrite run_or_return, svr_run_send_read. cbn [mbind option_bind]. cbv zeta.
  assert (i64_or_zero (default (i64_to_be 0) (head (option_list (m !! retries_key u)))) = counter m (retries_key u)) as ->
    by (unfold counter; by destruct (m !! retries_key u)).
  destruct (_ >? MAX_GUESSES); [by eexists|]. destruct (counter_reset m _ Hr) as [rs Hrs].
  rewrite run_bind. destruct (svr_run_send_write _ (bump w (bump w l)) m _ _ Hrs) as (l1 & -> & _). cbn [mbind option_bind].
  rewrite run_or_return. set (m1 := reset_store m (retries_key u)).
  assert (m1 !! version_key u = m !! version_key u) as Hm1 by by apply reset_other.
  destruct (run_token_version u inc l1 m1) as [l2 ->]; [by intros v; rewrite Hm1; apply Hv|]. cbn [mbind option_bind].
  exists l2. unfold counter. rewrite Hm1. by destruct inc.
Qed.

Lemma validate_issued now now' u v :
  signs_for keys leader → time_of_day (mkDateTime now' 0) ≤ time_of_day (mkDateTime (now + nanos_per_hour) 0) →
  validate_token keys now' (issue keys leader now u v) = inr true.
Proof.
  intros (pk & Hpk & Hsig) Ht. unfold validate_token, issue. cbn [valid_until signature tok_username tok_leader_name].
  rewrite rfc3339_roundtrip. rewrite (proj2 (Z.ltb_ge _ _)) by done. rewrite hex_roundtrip.
  destruct (Hsig (into_bytes (to_rfc3339 (now + nanos_per_hour) +:+ u +:+ leader))) as [Hl Hver].
  unfold sig_try_into. rewrite Hl. cbn [Nat.eqb SIGNATURE_LENGTH]. unfold ks_verify. rewrite Hpk. by rewrite Hver.
Qed.

(** The secret of a user under a version. *)
Definition secret_of (l : Svr) (u : string) (v : Z) : option string := secret_store l !! u ≫= λ s, s !! v.

(** Secrets are recovered with the token they were stored with.  A token issued by this
    node is accepted as long as the time of day is not past its expiry; a secret stored with
    it is what recovering with it returns, whatever the other users and versions hold, until
    the entry is stored again. *)
Lemma svr3_secret_roundtrip now u v t1 t2 val l m :
  signs_for keys leader →
  time_of_day (mkDateTime t1 0) ≤ time_of_day (mkDateTime (now + nanos_per_hour) 0) →
  time_of_day (mkDateTime t2 0) ≤ time_of_day (mkDateTime (now + nanos_per_hour) 0) →
  ∃ l1, run pl (storeSecret keys t1 (issue keys leader now u v) val) l m =
      Some (HttpOk (Json [("message", JStr "user secret store"); ("user secret", JStr val)]), l1, m) ∧
    (∀ u' v', (u', v') ≠ (u, v) → secret_of l1 u' v' = secret_of l u' v') ∧
    ∀ l2 m2, secret_of l2 u v = secret_of l1 u v →
      run pl (recoverSecret keys t2 (issue keys leader now u v)) l2 m2 =
      Some (HttpOk (Json [("message", JStr "user secret store"); ("user secret", JStr val)]), l2, m2).
Proof.
  intros Hsig Ht1 Ht2. unfold storeSecret, recoverSecret. rewrite !validate_issued by done.
  eexists. split; [reflexivity|]. unfold secret_of. cbn [secret_store issue tok_username version]. split.
  - intros u' v' Hne. destruct (decide (u' = u)) as [->|]; [|by rewrite lookup_insert_ne].
    rewrite lookup_insert_eq. cbn [mbind option_bind]. rewrite lookup_insert_ne by congruence.
    destruct (secret_store l !! u); [done|apply lookup_empty].
  - intros l2 m2. rewrite lookup_insert_eq. cbn [mbind option_bind]. rewrite lookup_insert_eq. intros Hl2.
    cbn. destruct (secret_store l2 !! u) as [s|]; [|done]. cbn in Hl2. by rewrite Hl2.
Qed.

End alone.

(** * Defects *)

(** Tokens expire by the time of day.  The check compares times of day, not instants:
    whether a token is accepted does not change when the clock moves by whole days, so that
    a token accepted once is accepted again at the same time on every later day; and a token
    issued in the last hour of a day (which names an expiry after midnight) is refused at
    once. *)
Lemma svr3_expiry_ignores_date `{Ed25519, ChronoLaws, HexText} (keys : KeyStore) now :
  (∀ tok days, validate_token keys (now + days * nanos_per_day) tok = validate_token keys now tok) ∧
  (nanos_per_day - nanos_per_hour ≤ now mod nanos_per_day →
   ∀ leader u v, validate_token keys now (issue keys leader now u v) = inr false).
Proof.
  split.
  - intros tok days. unfold validate_token, time_of_day. cbn [dt_utc dt_offset].
    replace (now + days * nanos_per_day + 0) with (now + 0 + days * nanos_per_day) by lia. by rewrite Z_mod_plus_full.
  - intros Hlate leader u v. unfold validate_token, issue. cbn [valid_until]. rewrite rfc3339_roundtrip.
    unfold time_of_day. cbn [dt_utc dt_offset]. rewrite !Z.add_0_r.
    pose proof (Z.mod_pos_bound now nanos_per_day ltac:(done)) as Hb. pose proof (Z.div_mod now nanos_per_day ltac:(done)) as Hd.
    assert ((now + nanos_per_hour) mod nanos_per_day = now mod nanos_per_day + nanos_per_hour - nanos_per_day) as ->.
    { rewrite (Zmod_unique (now + nanos_per_hour) nanos_per_day (now / nanos_per_day + 1)
        (now mod nanos_per_day + nanos_per_hour - nanos_per_day)); unfold nanos_per_day, nanos_per_hour in *; lia. }
    rewrite (proj2 (Z.ltb_lt _ _)); [done|]. unfold nanos_per_day, nanos_per_hour in *. lia.
Qed.

(** The version of a token is not signed: changing it leaves the token valid. *)
Lemma token_version_unsigned `{Ed25519, Chrono, HexText} (keys : KeyStore) now tok v :
  validate_token keys now (mkToken (valid_until tok) (tok_username tok) (signature tok) (tok_leader_name tok) v) =
  validate_token keys now tok.
Proof. done. Qed.

(** * Concrete runs *)

Fixpoint bits (p : positive) : string :=
  match p with xI p => String (Ascii.ascii_of_nat 49) (bits p) | xO p => String (Ascii.ascii_of_nat 48) (bits p) | xH => "" end.
Fixpoint unbits (s : string) : positive :=
  match s with
  | String c s' => if Ascii.eqb c (Ascii.ascii_of_nat 49) then xI (unbits s') else xO (unbits s')
  | "" => xH
  end.
Lemma unbits_bits p : unbits (bits p) = p.
Proof. induction p; simpl; congruence. Qed.

Definition toy_chrono : Chrono :=
  {| parse_from_rfc3339 := λ s, match decode (unbits s) with Some t => inr (mkDateTime t 0) | None => inl "ParseError" end;
     to_rfc3339 := λ t : Z, bits (encode t) |}.
Lemma toy_chrono_laws : @ChronoLaws toy_chrono.
Proof. split. intros t. cbn [parse_from_rfc3339 to_rfc3339 toy_chrono]. by rewrite unbits_bits, decode_encode. Qed.

Definition toy_hex : HexText :=
  {| hex_encode := String.string_of_list_byte; hex_decode := λ s, inr (into_bytes s) |}.
Lemma toy_hex_laws : @HexTextLaws toy_hex.
Proof. split. intros b. simpl. by rewrite String.list_byte_of_string_of_list_byte. Qed.

Definition toy_svr_codec : Codec := toy_codec Serialize.toy_block.
Definition toy_pl : Placement := mkPlacement [] 1 0 [].
Definition toy_svr : Svr := mkSvr [0; 0] false ∅.

Lemma toy_signs : @signs_for toy_ed toy_keystore "node1".
Proof. exists "k1". split; [done|]. intros msg. split; [done|]. by apply bool_decide_eq_true. Qed.

(** Alice is one guess above the limit; she asks with the right PIN, someone with a wrong
    one, and Bob registers. *)
Definition toy_locked : store :=
  <[retries_key "alice" := be_bytes 8 1000001]> (<[into_bytes "alice" := @sha512 toy_svr_codec (into_bytes "1234")]> ∅).
Definition toy_svr_requests : list (nat * SvrRequest) :=
  [(0%nat, RqGetToken 0 "alice" "1234" true); (1%nat, RqGetToken 0 "alice" "0000" false); (0%nat, RqAuth "bob" "99")].
Definition toy_svr_world : World Svr :=
  mkWorld toy_svr toy_locked []
    (map (λ rq, @handler toy_svr_codec toy_ed toy_users toy_chrono toy_hex toy_keystore "node1" rq.1 rq.2) toy_svr_requests).
Definition toy_svr_schedule : list Choice :=
  go 1 1 toy_pl ++ go 0 1 toy_pl ++ go 2 1 toy_pl ++ go 1 1 toy_pl ++ [ChState 1] ++ go 0 1 toy_pl.


Definition toy_users_store : store := <[into_bytes "alice" := @sha512 toy_svr_codec (into_bytes "1234")]> ∅.

Lemma svr3_get_token_witness :
  let C := toy_svr_codec in let Ed := toy_ed in let U := toy_users in let Ch := toy_chrono in let Hx := toy_hex in
  ∃ l', run toy_pl (getToken toy_keystore "node1" 0 0 "alice" "1234" true) toy_svr toy_users_store =
    Some ((get_token_spec toy_keystore "node1" 0 "alice" "1234" true toy_users_store).1, l',
          (get_token_spec toy_keystore "node1" 0 "alice" "1234" true toy_users_store).2).
Proof.
  intros C Ed U Ch Hx. apply (svr3_get_token toy_keystore "node1" 0 toy_pl ltac:(cbn; lia)); by intros v.
Defined.

Lemma svr3_secret_roundtrip_witness :
  let Ed := toy_ed in let Ch := toy_chrono in let Hx := toy_hex in
  ∃ l1, run toy_pl (storeSecret toy_keystore 1000 (issue toy_keystore "node1" 0 "alice" 1) "s3cret") toy_svr ∅ =
      Some (HttpOk (Json [("message", JStr "user secret store"); ("user secret", JStr "s3cret")]), l1, ∅) ∧
    run toy_pl (recoverSecret toy_keystore 2000 (issue toy_keystore "node1" 0 "alice" 1)) l1 ∅ =
      Some (HttpOk (Json [("message", JStr "user secret store"); ("user secret", JStr "s3cret")]), l1, ∅).
Proof.
  intros Ed Ch Hx. pose proof toy_chrono_laws. pose proof toy_hex_laws.
  destruct (svr3_secret_roundtrip toy_keystore "node1" toy_pl 0 "alice" 1 1000 2000 "s3cret" toy_svr ∅ toy_signs)
    as (l1 & H1 & _ & H2); [vm_compute; discriminate..|]. exists l1. split; [exact H1|]. by apply H2.
Defined.

Lemma svr3_expiry_ignores_date_witness :
  let Ed := toy_ed in let Ch := toy_chrono in let Hx := toy_hex in
  let tok := issue toy_keystore "node1" 0 "alice" 1 in
  validate_token toy_keystore 1000 tok = inr true ∧
  validate_token toy_keystore (1000 + 30 * nanos_per_day) tok = inr true.
Proof.
  intros Ed Ch Hx tok. split; [vm_compute; reflexivity|].
  transitivity (validate_token toy_keystore 1000 tok); [|vm_compute; reflexivity].
  exact (proj1 (@svr3_expiry_ignores_date toy_ed toy_chrono toy_chrono_laws toy_hex toy_keystore 1000) tok 30).
Defined.

(** Registering under the name of another user's guess counter: the first wrong guess for
    that user then makes the engine panic on its increment, on every replica. *)
Lemma counter_name_crashes_engine :
  let C := toy_svr_codec in let Ed := toy_ed in let U := toy_users in let Ch := toy_chrono in let Hx := toy_hex in
  ∃ r l m, run_each toy_pl [auth 0 "alice" "1234"; auth 0 "retries:alice" "x"] toy_svr ∅ = Some (r, l, m) ∧
    map http_status r = [200; 200] ∧
    run toy_pl (getToken toy_keystore "node1" 0 0 "alice" "0000" false) l m = None.
Proof. do 3 eexists. split; [reflexivity|]. split; vm_compute; reflexivity. Qed.
