(* ===== verification/Delivery.v ===== *)
(** From the block broadcaster of a leader to the fork receiver of a follower
    (src/src/consensus/block_broadcaster.rs, src/src/rpc/client.rs, src/src/rpc/server.rs,
    src/src/consensus/mod.rs): the messages a leader's broadcaster sends, through the
    broadcast workers of its client, the network and the server of a follower, in every
    interleaving. *)

From stdpp Require Import base numbers list gmap strings option.
From S2P Require Import Prelude Types Config Serialize Crypto Framing RpcClient Bcast BcastOrder Server ForkReceiver Broadcaster.

Section delivery.
Context `{Codec, Ed25519, PayloadCodec}.

(** [PinnedMessage::from(rpc.encode_to_vec(), sz, Anon)] *)
Definition ae_message (ae : ProtoAppendEntries) : MessageRef :=
  let data := payload_encode (Some (PmAppendEntries ae)) in mkMsgRef data (length data).

(** The calls of [broadcast] among what a broadcaster does, and the messages for [p]. *)
Definition broadcasts (es : list BroadcasterMsg) : list (list string * MessageRef) :=
  omap (λ m, match m with BbBroadcast names ae _ => Some (names, ae_message ae) | _ => None end) es.
Definition aes_to (p : string) (es : list BroadcasterMsg) : list ProtoAppendEntries :=
  omap (λ m, match m with BbBroadcast names ae _ => if bool_decide (p ∈ names) then Some ae else None | _ => None end) es.

Lemma addressed_broadcasts p es : addressed p (broadcasts es) = map ae_message (aes_to p es).
Proof.
  induction es as [|m es IH]; [done|]. destruct m as [| | | |names ae ms]; try exact IH.
  change (broadcasts (BbBroadcast names ae ms :: es)) with ((names, ae_message ae) :: broadcasts es).
  unfold addressed in *. rewrite list.filter_cons. cbn [fst aes_to omap list_omap].
  destruct (decide (p ∈ names)); [rewrite bool_decide_true by done|rewrite bool_decide_false by done]; cbn [map snd]; by rewrite IH.
Qed.

(** Everything a broadcaster sends is a fresh message for distinct nodes. *)
Definition sends_well (m : BroadcasterMsg) : Prop :=
  match m with BbBroadcast names ae _ => NoDup names ∧ ae_is_backfill_response ae = false | _ => True end.

Section broadcaster_sends.
Context (feat : Features) (cfg : Config) (ks : KeyStore) (evil : option EvilConfig) (put_block : CachedBlock → StorageAck).
Context (distinct : NoDup (everyone_and_learners_except_me cfg)).

(** [m] sends only such. *)
Abbreviation well m := (∀ s, wlp m (λ _ _ es, Forall sends_well es) s).

Lemma well_bind {A B : Type} (m : M BlockBroadcaster BroadcasterMsg A) (f : A → M BlockBroadcaster BroadcasterMsg B) :
  well m → (∀ a, well (f a)) → well (mbind f m).
Proof.
  intros Hm Hf s. apply wlp_bind. eapply wlp_mono; [|apply Hm]. intros a s1 es1 Hs1. eapply wlp_mono; [|apply Hf].
  intros b s2 es2 Hs2. by apply Forall_app.
Qed.

Lemma well_emit m : sends_well m → well (emit m : M BlockBroadcaster BroadcasterMsg unit).
Proof. intros Hm s. wlp_prims. by constructor. Qed.

Lemma well_for_final {A} (f : A → bool → M BlockBroadcaster BroadcasterMsg unit) l : (∀ x b, well (f x b)) → well (for_final f l).
Proof.
  intros Hf. induction l as [|x l IH]; cbn [for_final]; [intros s; by wlp_prims|]. apply well_bind; [apply Hf|done].
Qed.

Lemma well_broadcast names ae_fork view vis cn : NoDup names → well (broadcast_ae_fork feat cfg names ae_fork view vis cn).
Proof. intros Hnd s. unfold broadcast_ae_fork. wlp_prims. repeat constructor; done. Qed.

Lemma well_evil names ae_fork view vis cn s :
  NoDup names →
  wlp (maybe_act_evil feat cfg ks evil names ae_fork view vis cn) (λ r _ es, NoDup r ∧ Forall sends_well es) s.
Proof.
  intros Hnd. unfold maybe_act_evil. destruct evil as [e|]; [|by wlp_prims].
  wlp_prims. destruct (negb _); [by wlp_prims|]. wlp_prims. destruct (_ <? _); [by wlp_prims|]. wlp_prims.
  eapply wlp_mono; [|apply well_broadcast, (sublist_NoDup _ _ Hnd (sublist_drop _ _))].
  intros [] s1 es1 Hs1. wlp_prims. split; [exact (sublist_NoDup _ _ Hnd (sublist_take _ _))|]. by rewrite app_nil_r.
Qed.

Lemma well_broadcaster ev : well (broadcaster_worker feat cfg ks evil put_block ev).
Proof.
  destruct ev as [n [b|]|mf|cmd]; cbn [broadcaster_worker]; [..|destruct cmd as [ci|blocks]; cbn [bb_handle_control]].
  - unfold process_my_block. apply well_bind; [intros s; by wlp_prims|]. intros s0.
    apply well_bind; [intros s; by wlp_prims|]. intros _.
    apply well_bind; [apply well_for_final; intros x fin; apply well_bind; [by apply well_emit|intros _; by apply well_emit]|]. intros _.
    apply well_bind; [by apply well_emit|]. intros _ s. apply wlp_bind. eapply wlp_mono; [|by apply well_evil].
    intros names s1 es1 [Hn Hs1]. eapply wlp_mono; [|by apply well_broadcast]. intros [] s2 es2 Hs2. by apply Forall_app.
  - intros s. by wlp_prims.
  - unfold process_other_block. apply well_bind; [intros s; by wlp_prims|]. intros results.
    destruct (mapM verified results); [|by apply well_emit]. apply well_for_final. intros x fin.
    apply well_bind; [apply well_bind; [by apply well_emit|intros _; by apply well_emit]|intros _; by apply well_emit].
  - intros s. by wlp_prims.
  - induction blocks as [|b blocks IH]; cbn [mfor]; [intros s; by wlp_prims|].
    apply well_bind; [apply well_bind; [intros s; by wlp_prims|intros x s; by wlp_prims]|done].
Qed.

Lemma well_run evs : well (mfor evs (broadcaster_worker feat cfg ks evil put_block)).
Proof.
  induction evs as [|ev evs IH]; cbn [mfor]; [intros s; by wlp_prims|]. apply well_bind; [apply well_broadcaster|done].
Qed.

End broadcaster_sends.

(** A message the codec and the framing can carry. *)
Definition ae_carried (fuel : nat) (ae : ProtoAppendEntries) : Prop :=
  let data := payload_encode (Some (PmAppendEntries ae)) in
  payload_decode data = Some (Some (PmAppendEntries ae)) ∧ Z.of_nat (length data) < 2 ^ 32 ∧ (length data < fuel)%nat.

Lemma broadcasts_ok fuel es :
  Forall sends_well es → (∀ names ae t, BbBroadcast names ae t ∈ es → ae_carried fuel ae) → Forall bcast_ok (broadcasts es).
Proof.
  induction 1 as [|m es Hm _ IH]; intros Hall; [constructor|].
  assert (Forall bcast_ok (broadcasts es)) as IH' by (apply IH; intros names ae t Hin; eapply Hall; right; exact Hin).
  destruct m as [| | | |names ae t]; try exact IH'. constructor; [|exact IH']. destruct Hm as [Hnd _].
  destruct (Hall names ae t) as (_ & Hlen & _); [left|]. split; [done|]. by split.
Qed.

(** Messages for the fork receiver. *)
Lemma dispatched name sub aes :
  Forall (λ ae, ae_is_backfill_response ae = false) aes →
  concat (map (λ m, (dispatch_opt m (Auth name sub)).1) (map (λ ae, Some (PmAppendEntries ae)) aes)) =
    map (λ ae, ToForkReceiver ae (Auth name sub)) aes ∧
  map (λ m, (dispatch_opt m (Auth name sub)).2) (map (λ ae, Some (PmAppendEntries ae)) aes) = replicate (length aes) NoResp.
Proof. induction 1 as [|ae aes Hae _ [IH1 IH2]]; [done|]. cbn. by rewrite Hae, IH1, IH2. Qed.

Lemma aes_to_in p es ae : ae ∈ aes_to p es → ∃ names t, BbBroadcast names ae t ∈ es.
Proof.
  unfold aes_to. intros (m & Hm & He)%list_elem_of_omap. destruct m as [| | | |names ae' t]; try done.
  destruct (bool_decide _); [|done]. injection He as ->. by exists names, t.
Qed.

(** A prefix, a middle and a rest of a mapped list. *)
Lemma map_eq_app3 {A B : Type} (f : A → B) l l1 l2 l3 :
  map f l = l1 ++ l2 ++ l3 → ∃ k1 k2 k3, l = k1 ++ k2 ++ k3 ∧ l1 = map f k1 ∧ l2 = map f k2 ∧ l3 = map f k3.
Proof.
  intros (k1 & k23 & -> & <- & (k2 & k3 & -> & <- & <-)%map_eq_app)%map_eq_app. by exists k1, k2, k3.
Qed.


End delivery.

(** A leader, node1 of four, that sends one block. *)
Definition toy_ae : ProtoAppendEntries :=
  mkAE (Some (mkFork [half_serialize toy_cached])) 0 1 true 1 false.
Definition toy_ae_codec : PayloadCodec := {|
  payload_encode := λ m, match m with Some (PmAppendEntries _) => [Byte.x01] | _ => [] end;
  payload_decode := λ b, match b with [] => Some None | [Byte.x01] => Some (Some (PmAppendEntries toy_ae)) | _ => None end |}.
Definition toy_leader : Config := mkConfig "node1" four_nodes.
Definition toy_followers : list string := ["node2"; "node3"; "node4"]%string.
Definition toy_client : ClientConf := client_conf (list_to_set toy_followers) 3 false 0.
Definition toy_calls : list Act :=
  [ACall toy_followers (mkMsgRef [Byte.x01] 1); APush false; AConnect 0 [AttemptOk []]; APush false; APush false; AReturn].
Definition toy_broadcasting : Bc :=
  match bcast_run toy_client toy_calls (bc_new (client_new [])) with Next s => s | _ => bc_new (client_new []) end.
Definition toy_sends : list BroadcasterMsg :=
  [BbStore toy_cached; BbToStaging toy_cached (Some Stored) (mkAEStats 1 true 1 "node1" 0) true;
   BbToApp (new_request_batch toy_cached 1 true true); BbBroadcast toy_followers toy_ae 2].
(** All bytes at once. *)
Definition in_one (x : bytes) : list bytes := match x with [] => [] | _ => [x] end.

