(* ===== verification/CryptoPool.v ===== *)
(** The pool of crypto workers and its connectors (src/src/crypto/service.rs): commands
    are dispatched round robin to the queues of the workers, answers come back on oneshot
    channels, and a block is prepared with a parent hash that another worker may still be
    computing.  A schedule is a list of actions of the callers, the storage task and the
    workers.  The pool is shown to give, under every schedule, the answers of handling
    each command when it is dispatched, and to be free of deadlock. *)

From Stdlib Require Import Sorting.Sorted.
From stdpp Require Import base numbers list gmap strings option.
From S2P Require Import Prelude Types Config Serialize Crypto.

(** What is sent on the oneshot channels. *)
Inductive CryptoReply :=
  | RBytes (b : bytes)                           (* hashes and signatures *)
  | RBool (b : bool)
  | RUnit
  | RBlock (cb : CachedBlock)
  | RBlockResult (r : unit + CachedBlock)
  | RHashResult (r : unit + HashType)
  | RVC (vc : ProtoViewChange)
  | RSer (r : unit + bytes).                     (* what the storage task read *)

(** A oneshot channel: nothing sent yet, a value, or its sender was dropped. *)
Inductive Oneshot :=
  | Waiting
  | Sent (r : CryptoReply)
  | Closed.

(** [FutureHash], with the number of the channel a receiver belongs to. *)
Inductive ParentRx :=
  | RxNone
  | RxImmediate (h : HashType)
  | RxFuture (c : nat)
  | RxFutureResult (c : nat).

(** The commands, with the numbers of their channels. *)
Inductive CryptoServiceCommand `{Ed25519} :=
  | CHash (data : bytes) (res_tx : nat)
  | CSign (data : bytes) (res_tx : nat)
  | CVerify (data : bytes) (signer : string) (signature : bytes) (res_tx : nat)
  | CChangeKeyStore (key_store : KeyStore) (res_tx : nat)
  | CPrepareBlock (proto_block : ProtoBlock) (block_tx hash_tx hash_tx2 : nat) (must_sign : bool) (parent_hash_rx : ParentRx)
  | CCheckBlockSer (hsh : HashType) (ser_rx block_tx : nat)
  | CVerifyBlockSer (min_qc_len : Z) (block_ser : bytes) (block_tx hash_tx : nat)
  | CPrepareVC (vc : ProtoViewChange) (tx : nat)
  | CVerifyVC (vc : ProtoViewChange) (name : string) (tx : nat)
  | CDie.

(** A worker: its command channel, the command it handles, and whether it still runs. *)
Record CryptoWorker `{Ed25519} := mkCryptoWorker {
  cw_queue : list CryptoServiceCommand;
  cw_cur : option CryptoServiceCommand;
  cw_open : bool }.

Record CryptoServiceConnector := mkConnector {
  round_robin : Z;
  num_tasks : Z }.

(** The service and its connectors.  The oneshot channels are numbered in the order of
    their creation; [cs_gone] are those whose receiver was dropped, [cs_storage] those
    whose sender the storage task holds. *)
Record CryptoService `{Ed25519} := mkCryptoService {
  cs_keystore : KeyStore;
  cs_workers : list CryptoWorker;
  cs_connectors : list CryptoServiceConnector;
  cs_chans : list Oneshot;
  cs_gone : gset nat;
  cs_storage : list nat }.

Arguments mkCryptoWorker {_} _ _ _.
Arguments mkCryptoService {_} _ _ _ _ _ _.

Section crypto_pool.
Context `{Codec, Ed25519} (feat : Features) (config : ConsensusConfig).

(** The capacity of the command channels. *)
Definition CMD_CAPACITY : nat := 2048.

(** [CryptoService::new]; [None] is the failed assertion. *)
Definition crypto_service_new (tasks : nat) (keystore : KeyStore) : option CryptoService :=
  if (0 <? tasks)%nat then Some (mkCryptoService keystore [] [] [] ∅ []) else None.

(** [CryptoService::run]. *)
Definition crypto_service_run (tasks : nat) (s : CryptoService) : CryptoService :=
  mkCryptoService (cs_keystore s) (cs_workers s ++ replicate tasks (mkCryptoWorker [] None true)) (cs_connectors s)
    (cs_chans s) (cs_gone s) (cs_storage s).

(** [get_connector], with the number [thread_rng().gen()] gave. *)
Definition get_connector (rand : Z) (s : CryptoService) : CryptoService :=
  mkCryptoService (cs_keystore s) (cs_workers s)
    (cs_connectors s ++ [mkConnector (wrap64 rand) (Z.of_nat (length (cs_workers s)))])
    (cs_chans s) (cs_gone s) (cs_storage s).

Definition set_workers (f : list CryptoWorker → list CryptoWorker) (s : CryptoService) : CryptoService :=
  mkCryptoService (cs_keystore s) (f (cs_workers s)) (cs_connectors s) (cs_chans s) (cs_gone s) (cs_storage s).
Definition set_chans (f : list Oneshot → list Oneshot) (s : CryptoService) : CryptoService :=
  mkCryptoService (cs_keystore s) (cs_workers s) (cs_connectors s) (f (cs_chans s)) (cs_gone s) (cs_storage s).
Definition set_keystore (ks : KeyStore) (s : CryptoService) : CryptoService :=
  mkCryptoService ks (cs_workers s) (cs_connectors s) (cs_chans s) (cs_gone s) (cs_storage s).
Definition drop_rx (cs : gset nat) (s : CryptoService) : CryptoService :=
  mkCryptoService (cs_keystore s) (cs_workers s) (cs_connectors s) (cs_chans s) (cs ∪ cs_gone s) (cs_storage s).
Definition push_cmd (cmd : CryptoServiceCommand) (w : CryptoWorker) : CryptoWorker :=
  mkCryptoWorker (cw_queue w ++ [cmd]) (cw_cur w) (cw_open w).

(** The channel a command waits on, and those it answers on. *)
Definition rx_chan (p : ParentRx) : option nat :=
  match p with RxFuture c | RxFutureResult c => Some c | _ => None end.
Definition cmd_rx (cmd : CryptoServiceCommand) : option nat :=
  match cmd with
  | CPrepareBlock _ _ _ _ _ p => rx_chan p
  | CCheckBlockSer _ c _ => Some c
  | _ => None
  end.
Definition cmd_txs (cmd : CryptoServiceCommand) : list nat :=
  match cmd with
  | CHash _ t | CSign _ t | CVerify _ _ _ t | CChangeKeyStore _ t | CCheckBlockSer _ _ t | CPrepareVC _ t | CVerifyVC _ _ t => [t]
  | CPrepareBlock _ t1 t2 t3 _ _ => [t1; t2; t3]
  | CVerifyBlockSer _ _ t1 t2 => [t1; t2]
  | CDie => []
  end.

(** [CryptoServiceConnector::dispatch]: a worker that has stopped makes [send] fail. *)
Definition dispatch_cmd (k : nat) (cmd : CryptoServiceCommand) (s : CryptoService) : Outcome CryptoService :=
  match cs_connectors s !! k with
  | None => Blocked
  | Some cn =>
      let i := Z.to_nat (round_robin cn mod num_tasks cn) in
      match cs_workers s !! i with
      | None => Panicked
      | Some w =>
          if negb (cw_open w) then Panicked
          else if (length (cw_queue w) <? CMD_CAPACITY)%nat then
            Next (mkCryptoService (cs_keystore s) (<[i := push_cmd cmd w]> (cs_workers s))
                    (<[k := mkConnector (round_robin cn ⊕ 1) (num_tasks cn)]> (cs_connectors s))
                    (cs_chans s) (cs_gone s) (cs_storage s))
          else Blocked
      end
  end.

(** The methods of the connector; [QVerifyBlockSer] is one element of [prepare_fork] or
    [prepare_for_rebroadcast]. *)
Inductive CryptoRequest :=
  | QHash (data : bytes)
  | QSign (data : bytes)
  | QVerify (data : bytes) (signer : string) (signature : bytes)
  | QChangeKeyStore (key_store : KeyStore)
  | QPrepareBlock (block : ProtoBlock) (must_sign : bool) (parent_hash_rx : ParentRx)
  | QCheckBlock (hsh : HashType) (ser_rx : nat)
  | QVerifyBlockSer (min_qc_len : Z) (serialized_body : bytes)
  | QPrepareVC (vc : ProtoViewChange).

(** The command of a method; its channels are created in the order of the receivers the
    method returns, from number [t] on. *)
Definition request_cmd (q : CryptoRequest) (t : nat) : CryptoServiceCommand :=
  match q with
  | QHash data => CHash data t
  | QSign data => CSign data t
  | QVerify data signer signature => CVerify data signer signature t
  | QChangeKeyStore key_store => CChangeKeyStore key_store t
  | QPrepareBlock block must_sign parent_hash_rx => CPrepareBlock block t (S t) (S (S t)) must_sign parent_hash_rx
  | QCheckBlock hsh ser_rx => CCheckBlockSer hsh ser_rx t
  | QVerifyBlockSer min_qc_len serialized_body => CVerifyBlockSer min_qc_len serialized_body t (S t)
  | QPrepareVC vc => CPrepareVC vc t
  end.

(** A receiver that is handed on must still exist. *)
Definition rx_gone (cmd : CryptoServiceCommand) (s : CryptoService) : bool :=
  match cmd_rx cmd with Some c => bool_decide (c ∈ cs_gone s) | None => false end.

Definition request (k : nat) (q : CryptoRequest) (s : CryptoService) : Outcome CryptoService :=
  let cmd := request_cmd q (length (cs_chans s)) in
  if rx_gone cmd s then Blocked
  else dispatch_cmd k cmd (set_chans (λ l, l ++ replicate (length (cmd_txs cmd)) Waiting) s).

(** [receiver.await] of the hash a block is chained to. *)
Definition await_parent (ch : list Oneshot) (p : ParentRx) : Outcome FutureHash :=
  match p with
  | RxNone => Next FHNone
  | RxImmediate h => Next (FHImmediate h)
  | RxFuture c =>
      match ch !! c with
      | Some (Sent (RBytes h)) => Next (FHFuture (Some h))
      | Some Waiting | None => Blocked
      | Some _ => Next (FHFuture None)
      end
  | RxFutureResult c =>
      match ch !! c with
      | Some (Sent (RHashResult r)) => Next (FHFutureResult (Some r))
      | Some Waiting | None => Blocked
      | Some _ => Next (FHFutureResult None)
      end
  end.

(** [ser_rx.await] of what the storage task read. *)
Definition await_ser (ch : list Oneshot) (c : nat) : Outcome (option (unit + bytes)) :=
  match ch !! c with
  | Some (Sent (RSer r)) => Next (Some r)
  | Some Waiting | None => Blocked
  | Some _ => Next None
  end.

Definition or_panic {A} (o : option A) : Outcome A :=
  match o with Some a => Next a | None => Panicked end.
Definition after {A B} (o : Outcome A) (f : A → Outcome B) : Outcome B :=
  match o with Next a => f a | Blocked => Blocked | Panicked => Panicked end.

(** An answer: the channel, the value, and whether the result of [send] is unwrapped. *)
Record Answer := mkAnswer { an_tx : nat; an_reply : CryptoReply; an_unwrap : bool }.

(** What a worker sends for a command, in the order of the channels. *)
Definition answers (ks : KeyStore) (ch : list Oneshot) (cmd : CryptoServiceCommand) : Outcome (list Answer) :=
  match cmd with
  | CHash data tx => Next [mkAnswer tx (RBytes (sha512 data)) false]
  | CSign data tx => Next [mkAnswer tx (RBytes (ks_sign ks data)) false]
  | CVerify data signer signature tx => Next [mkAnswer tx (RBool (ks_verify ks signer signature data)) false]
  | CChangeKeyStore _ tx => Next [mkAnswer tx RUnit false]
  | CPrepareBlock proto_block block_tx hash_tx hash_tx2 must_sign parent_hash_rx =>
      after (await_parent ch parent_hash_rx) (λ p,
      after (or_panic (prepare_block ks proto_block must_sign p)) (λ cb,
      Next [mkAnswer block_tx (RBlock cb) false; mkAnswer hash_tx (RBytes (cb_hash cb)) false;
            mkAnswer hash_tx2 (RBytes (cb_hash cb)) false]))
  | CCheckBlockSer hsh ser_rx block_tx =>
      after (await_ser ch ser_rx) (λ ser,
      after (or_panic (check_block_ser hsh ser)) (λ r,
      Next [mkAnswer block_tx (RBlockResult r) true]))
  | CVerifyBlockSer min_qc_len block_ser block_tx hash_tx =>
      after (or_panic (verify_block_ser feat ks config min_qc_len block_ser)) (λ r,
      Next [mkAnswer block_tx (RBlockResult r) true;
            mkAnswer hash_tx (RHashResult (match r with inr cb => inr (cb_hash cb) | inl e => inl e end)) false])
  | CPrepareVC vc tx => after (or_panic (prepare_vc ks vc)) (λ vc', Next [mkAnswer tx (RVC vc') true])
  | CVerifyVC vc name tx => after (or_panic (verify_vc ks vc name)) (λ b, Next [mkAnswer tx (RBool b) true])
  | CDie => Next []
  end.

(** [tx.send(..)], which fails when the receiver was dropped. *)
Definition send_answer (a : Answer) (s : CryptoService) : Outcome CryptoService :=
  if bool_decide (an_tx a ∈ cs_gone s) then if an_unwrap a then Panicked else Next s
  else Next (set_chans <[an_tx a := Sent (an_reply a)]> s).

(** A command that is dropped with its channels. *)
Definition close_chan (c : nat) : list Oneshot → list Oneshot :=
  alter (λ o, match o with Waiting => Closed | _ => o end) c.
Definition discard (s : CryptoService) (cmd : CryptoServiceCommand) : CryptoService :=
  drop_rx (list_to_set (option_list (cmd_rx cmd))) (set_chans (λ l, foldr close_chan l (cmd_txs cmd)) s).

(** One turn of the loop of a worker: it receives a command, and handles it. *)
Definition crypto_recv (i : nat) (s : CryptoService) : Outcome CryptoService :=
  match cs_workers s !! i with
  | Some (mkCryptoWorker (cmd :: q) None true) =>
      Next (set_workers <[i := mkCryptoWorker q (Some cmd) true]> s)
  | _ => Blocked
  end.

Definition crypto_run (i : nat) (s : CryptoService) : Outcome CryptoService :=
  match cs_workers s !! i with
  | Some (mkCryptoWorker q (Some cmd) true) =>
      match cmd with
      | CDie => Next (foldl discard (set_workers <[i := mkCryptoWorker [] None false]> s) q)
      | _ =>
          after (answers (cs_keystore s) (cs_chans s) cmd) (λ l,
          let s1 := match cmd with CChangeKeyStore ks _ => set_keystore ks s | _ => s end in
          after (run_steps send_answer l s1) (λ s2,
          Next (set_workers <[i := mkCryptoWorker q None true]> s2)))
      end
  | _ => Blocked
  end.

(** [get_block] creates the channel the storage task answers on. *)
Definition storage_get (s : CryptoService) : CryptoService :=
  mkCryptoService (cs_keystore s) (cs_workers s) (cs_connectors s) (cs_chans s ++ [Waiting]) (cs_gone s)
    (cs_storage s ++ [length (cs_chans s)]).

Definition storage_answer (c : nat) (r : unit + bytes) (s : CryptoService) : Outcome CryptoService :=
  if bool_decide (c ∈ cs_storage s) then
    Next (mkCryptoService (cs_keystore s) (cs_workers s) (cs_connectors s)
            (if bool_decide (c ∈ cs_gone s) then cs_chans s else <[c := Sent (RSer r)]> (cs_chans s)) (cs_gone s)
            (filter (λ c', c' ≠ c) (cs_storage s)))
  else Blocked.

(** The commands a worker has not finished. *)
Definition cw_work (w : CryptoWorker) : list CryptoServiceCommand := option_list (cw_cur w) ++ cw_queue w.
Definition outstanding (s : CryptoService) : list CryptoServiceCommand := concat (map cw_work (cs_workers s)).

(** A caller drops a receiver it still owns. *)
Definition drop_receiver (c : nat) (s : CryptoService) : Outcome CryptoService :=
  if bool_decide ((c < length (cs_chans s))%nat ∧ Forall (λ cmd, cmd_rx cmd ≠ Some c) (outstanding s))
  then Next (drop_rx {[c]} s) else Blocked.

(** The end of [dispatch_cmd!]: a sender dropped without an answer panics. *)
Definition await_answer (c : nat) (s : CryptoService) : Outcome CryptoService :=
  match cs_chans s !! c with
  | Some (Sent _) => Next s
  | Some Closed => Panicked
  | _ => Blocked
  end.

Inductive CryptoAct :=
  | KRequest (k : nat) (q : CryptoRequest)
  | KDie (k : nat)
  | KRecv (i : nat)
  | KRun (i : nat)
  | KStorageGet
  | KStorageAnswer (c : nat) (r : unit + bytes)
  | KDropRx (c : nat)
  | KAwait (c : nat).

Definition crypto_step (a : CryptoAct) (s : CryptoService) : Outcome CryptoService :=
  match a with
  | KRequest k q => request k q s
  | KDie k => dispatch_cmd k CDie s
  | KRecv i => crypto_recv i s
  | KRun i => crypto_run i s
  | KStorageGet => Next (storage_get s)
  | KStorageAnswer c r => storage_answer c r s
  | KDropRx c => drop_receiver c s
  | KAwait c => await_answer c s
  end.

(** [kill]. *)
Definition kill_acts (k tasks : nat) : list CryptoAct := replicate tasks (KDie k).

(** [prepare_fork] and [prepare_for_rebroadcast]: one command per block. *)
Definition verify_part_acts (k : nat) (part : list HalfSerializedBlock) (min_qc_len : Z) : list CryptoAct :=
  map (λ e, KRequest k (QVerifyBlockSer min_qc_len (hs_body e))) part.

(** The service with the connectors a node hands to its tasks. *)
Definition crypto_service_start (tasks : nat) (keystore : KeyStore) (rands : list Z) : option CryptoService :=
  s ← crypto_service_new tasks keystore;
  Some (foldl (λ s rand, get_connector rand s) (crypto_service_run tasks s) rands).

(** * The reference: every command is handled when it is dispatched

    [env c] is what the storage task will answer on channel [c]. *)

Definition handle_now (ks : KeyStore) (q : CryptoRequest) (ch : list Oneshot) : option (list Oneshot) :=
  match answers ks ch (request_cmd q (length ch)) with
  | Next l => Some (ch ++ map (λ a, Sent (an_reply a)) l)
  | _ => None
  end.

Definition ref_step (ks : KeyStore) (env : nat → unit + bytes) (a : CryptoAct) (ch : list Oneshot) : option (list Oneshot) :=
  match a with
  | KRequest _ q => handle_now ks q ch
  | KStorageGet => Some (ch ++ [Sent (RSer (env (length ch)))])
  | _ => Some ch
  end.

Fixpoint reference (ks : KeyStore) (env : nat → unit + bytes) (acts : list CryptoAct) (ch : list Oneshot)
    : option (list Oneshot) :=
  match acts with
  | [] => Some ch
  | a :: acts' => ch' ← ref_step ks env a ch; reference ks env acts' ch'
  end.

(** The answers whose [send] is unwrapped. *)
Definition unwrapped (r : CryptoReply) : bool := match r with RBlockResult _ | RVC _ => true | _ => false end.

(** The actions of a node in operation: no command stops a worker or changes the keys, the
    storage task answers what it reads, and no receiver of an unwrapped answer is dropped. *)
Definition orderly (env : nat → unit + bytes) (F : list Oneshot) (a : CryptoAct) : Prop :=
  match a with
  | KRequest _ (QChangeKeyStore _) | KDie _ => False
  | KStorageAnswer c r => r = env c
  | KDropRx c => ∀ r, F !! c = Some (Sent r) → unwrapped r = false
  | _ => True
  end.

Definition worker_act (a : CryptoAct) : bool := match a with KRecv _ | KRun _ => true | _ => false end.

(** * Channels *)

(** [ch'] resolves at least what [ch] does, in the same way. *)
Definition resolves_more (ch ch' : list Oneshot) : Prop := ∀ c o, ch !! c = Some o → o ≠ Waiting → ch' !! c = Some o.

Definition all_sent (ch : list Oneshot) : Prop := Forall (λ o, ∃ r, o = Sent r) ch.

Lemma await_parent_more ch ch' p f : resolves_more ch ch' → await_parent ch p = Next f → await_parent ch' p = Next f.
Proof.
  intros Hm. destruct p as [| |c|c]; cbn; try done.
  all: destruct (ch !! c) as [[|[]|]|] eqn:E; try done; by rewrite (Hm c _ E).
Qed.

Lemma await_ser_more ch ch' c r : resolves_more ch ch' → await_ser ch c = Next r → await_ser ch' c = Next r.
Proof. intros Hm. unfold await_ser. destruct (ch !! c) as [[|[]|]|] eqn:E; try done; by rewrite (Hm c _ E). Qed.

Lemma await_parent_no_panic ch p : await_parent ch p ≠ Panicked.
Proof. destruct p as [| |c|c]; cbn; try done; by destruct (ch !! c) as [[|[]|]|]. Qed.

Lemma await_ser_no_panic ch c : await_ser ch c ≠ Panicked.
Proof. unfold await_ser. by destruct (ch !! c) as [[|[]|]|]. Qed.

(** A command that is not blocked is answered the same when more is resolved. *)
Lemma answers_more ks ch ch' cmd :
  resolves_more ch ch' → answers ks ch cmd ≠ Blocked → answers ks ch' cmd = answers ks ch cmd.
Proof.
  intros Hm Hb. destruct cmd as [| | | |b t1 t2 t3 ms p|h c t| | | |]; try done; cbn in *.
  - destruct (await_parent ch p) as [| |f] eqn:E; [done|by apply await_parent_no_panic in E|].
    by rewrite (await_parent_more _ _ _ _ Hm E).
  - destruct (await_ser ch c) as [| |f] eqn:E; [done|by apply await_ser_no_panic in E|].
    by rewrite (await_ser_more _ _ _ _ Hm E).
Qed.

Lemma answers_txs ks ch cmd l : answers ks ch cmd = Next l → map an_tx l = cmd_txs cmd.
Proof.
  destruct cmd as [| | | |b t1 t2 t3 ms p|h c t| | | |]; cbn; try (by intros [= <-]).
  - destruct (await_parent _ _); try done. cbn. destruct (prepare_block _ _ _ _); try done. by intros [= <-].
  - destruct (await_ser _ _); try done. cbn. destruct (check_block_ser _ _); try done. by intros [= <-].
  - destruct (verify_block_ser _ _ _ _ _); try done. by intros [= <-].
  - destruct (prepare_vc _ _); try done. by intros [= <-].
  - destruct (verify_vc _ _ _); try done. by intros [= <-].
Qed.

(** A command is blocked only by the channel it waits on. *)
Lemma answers_blocked ks ch cmd :
  answers ks ch cmd = Blocked → ∃ c, cmd_rx cmd = Some c ∧ (ch !! c = Some Waiting ∨ ch !! c = None).
Proof.
  destruct cmd as [| | | |b t1 t2 t3 ms p|h c t|m ser t1 t2|vc t|vc n t|]; try done; cbn [answers cmd_rx].
  - destruct p as [|h|c|c]; unfold await_parent; cbn [after];
      [by destruct (prepare_block ks b ms _)|by destruct (prepare_block ks b ms _)|exists c..].
    all: split; [done|]; destruct (ch !! c) as [[|[]|]|]; auto; cbn [after] in *; by destruct (prepare_block ks b ms _).
  - exists c. split; [done|]. unfold await_ser in *. destruct (ch !! c) as [[|[]|]|]; auto; cbn [after] in *;
      by destruct (check_block_ser h _).
  - by destruct (verify_block_ser _ _ _ _ _).
  - by destruct (prepare_vc _ _).
  - by destruct (verify_vc _ _ _).
Qed.

(** * Outstanding commands *)

Abbreviation work_of ws := (concat (map cw_work ws)).

Lemma work_elem (ws : list CryptoWorker) cmd : cmd ∈ work_of ws ↔ ∃ i w, ws !! i = Some w ∧ cmd ∈ cw_work w.
Proof.
  rewrite list_elem_of_In, in_concat. split.
  - intros (l & (w & <- & Hw)%in_map_iff & Hc). apply list_elem_of_In, list_elem_of_lookup in Hw as [i Hi].
    exists i, w. by rewrite list_elem_of_In.
  - intros (i & w & Hi & Hc). exists (cw_work w). split; [|by apply list_elem_of_In].
    apply in_map, list_elem_of_In. by eapply list_elem_of_lookup_2.
Qed.

(** The work of one worker is replaced. *)
Lemma work_insert (ws : list CryptoWorker) i w w' cmd :
  ws !! i = Some w → cmd ∈ work_of (<[i := w']> ws) →
  cmd ∈ cw_work w' ∨ cmd ∈ work_of ws.
Proof.
  intros Hi (j & u & Hj & Hc)%work_elem. apply list_lookup_insert_Some in Hj as [(-> & <- & _)|[Hne Hj]]; [by left|].
  right. apply work_elem. eauto.
Qed.

Lemma work_insert_keep (ws : list CryptoWorker) i w w' cmd :
  ws !! i = Some w → (cmd ∈ cw_work w → cmd ∈ cw_work w') → cmd ∈ work_of ws → cmd ∈ work_of (<[i := w']> ws).
Proof.
  intros Hi Hw (j & u & Hj & Hc)%work_elem. apply work_elem. pose proof (lookup_lt_Some _ _ _ Hi).
  destruct (decide (i = j)) as [<-|Hne].
  - simplify_eq. exists i, w'. rewrite list_lookup_insert_eq by done. auto.
  - exists j, u. by rewrite list_lookup_insert_ne.
Qed.

Lemma work_insert_new (ws : list CryptoWorker) i w w' cmd :
  ws !! i = Some w → cmd ∈ cw_work w' → cmd ∈ work_of (<[i := w']> ws).
Proof.
  intros Hi Hc. apply work_elem. exists i, w'. by rewrite list_lookup_insert_eq by (by eapply lookup_lt_Some).
Qed.

(** The first channel of a command; a worker gets its commands in the order of these. *)
Definition cmd_base (cmd : CryptoServiceCommand) : nat := default O (head (cmd_txs cmd)).
Definition dispatched_before (a b : CryptoServiceCommand) : Prop := (cmd_base a < cmd_base b)%nat.

(** * The invariant

    A command in the pool is one the reference has answered, waits on an older channel,
    and neither stops a worker nor changes the keys. *)
Record cmd_ok (ks : KeyStore) (F : list Oneshot) (cmd : CryptoServiceCommand) : Prop := {
  co_answers : ∃ l, answers ks F cmd = Next l ∧ Forall (λ a, F !! an_tx a = Some (Sent (an_reply a))) l ∧
    Forall (λ a, an_unwrap a = unwrapped (an_reply a)) l;
  co_base : Forall (λ t, (cmd_base cmd ≤ t)%nat) (cmd_txs cmd);
  co_bound : (cmd_base cmd < length F)%nat;
  co_rx : ∀ c, cmd_rx cmd = Some c → (c < cmd_base cmd)%nat;
  co_kind : match cmd with CDie | CChangeKeyStore _ _ => False | _ => True end }.

Record pool_inv (ks : KeyStore) (env : nat → unit + bytes) (F : list Oneshot) (s : CryptoService) : Prop := {
  pi_keystore : cs_keystore s = ks;
  pi_sent : all_sent F;
  pi_length : length (cs_chans s) = length F;
  pi_agree : ∀ c o, cs_chans s !! c = Some o → o = Waiting ∨ F !! c = Some o;
  pi_workers : (0 < length (cs_workers s))%nat;
  pi_connectors : Forall (λ cn, num_tasks cn = Z.of_nat (length (cs_workers s))) (cs_connectors s);
  pi_open : Forall (λ w, cw_open w = true) (cs_workers s);
  pi_order : Forall (λ w, StronglySorted dispatched_before (cw_work w)) (cs_workers s);
  pi_cmds : Forall (cmd_ok ks F) (outstanding s);
  pi_rx : Forall (λ cmd, ∀ c, cmd_rx cmd = Some c → c ∉ cs_gone s) (outstanding s);
  pi_gone : ∀ c, c ∈ cs_gone s → ∃ r, F !! c = Some (Sent r) ∧ unwrapped r = false;
  pi_storage : Forall (λ c, F !! c = Some (Sent (RSer (env c)))) (cs_storage s);
  pi_waiting : ∀ c, cs_chans s !! c = Some Waiting →
    c ∈ cs_gone s ∨ c ∈ cs_storage s ∨ ∃ cmd, cmd ∈ outstanding s ∧ c ∈ cmd_txs cmd }.

Lemma all_sent_more F F' : all_sent F → resolves_more F (F ++ F').
Proof. intros HF c o Hc _. by apply lookup_app_l_Some. Qed.

Lemma cmd_ok_more ks F F' cmd : all_sent F → cmd_ok ks F cmd → cmd_ok ks (F ++ F') cmd.
Proof.
  intros HF [(l & Heq & Hs & Hu) Hb Hlt Hrx Hk]. split; try done; [exists l; split_and!; try done|].
  - rewrite <- Heq. apply answers_more; [by apply all_sent_more|by rewrite Heq].
  - eapply list.Forall_impl; [exact Hs|]. intros a Ha. by apply lookup_app_l_Some.
  - rewrite length_app. lia.
Qed.

(** * Dispatching *)

Lemma request_txs q t : cmd_txs (request_cmd q t) = seq t (length (cmd_txs (request_cmd q t))).
Proof. by destruct q. Qed.

Lemma request_base q t : cmd_base (request_cmd q t) = t.
Proof. by destruct q. Qed.

Lemma answers_rx ks ch cmd c l : answers ks ch cmd = Next l → cmd_rx cmd = Some c → (c < length ch)%nat.
Proof.
  intros Ha Hc. destruct cmd as [| | | |b t1 t2 t3 ms p|h c' t| | | |]; try done; cbn [answers cmd_rx] in *.
  - destruct p as [| |c'|c']; try done; cbn in Hc; simplify_eq; unfold await_parent in Ha.
    all: destruct (ch !! c) eqn:E; [by eapply lookup_lt_Some|done].
  - simplify_eq. unfold await_ser in Ha. destruct (ch !! c) eqn:E; [by eapply lookup_lt_Some|done].
Qed.

Lemma answers_unwrap ks ch q t l :
  answers ks ch (request_cmd q t) = Next l → Forall (λ a, an_unwrap a = unwrapped (an_reply a)) l.
Proof.
  destruct q as [| | | |b ms p|h c| |]; cbn; try (intros [= <-]; by repeat constructor).
  - destruct (await_parent _ _); try done. cbn. destruct (prepare_block _ _ _ _); try done. intros [= <-]. by repeat constructor.
  - destruct (await_ser _ _); try done. cbn. destruct (check_block_ser _ _); try done. intros [= <-]. by repeat constructor.
  - destruct (verify_block_ser _ _ _ _ _); try done. intros [= <-]. by repeat constructor.
  - destruct (prepare_vc _ _); try done. intros [= <-]. by repeat constructor.
Qed.

(** Answers on consecutive new channels are where the reference puts them. *)
Lemma answers_appended (F : list Oneshot) l :
  map an_tx l = seq (length F) (length l) →
  Forall (λ a, (F ++ map (λ a, Sent (an_reply a)) l) !! an_tx a = Some (Sent (an_reply a))) l.
Proof.
  intros Htx. apply list.Forall_forall. intros a [j Hj]%list_elem_of_lookup.
  assert (map an_tx l !! j = Some (an_tx a)) as Ht by (change (map an_tx l) with (an_tx <$> l); by rewrite list_lookup_fmap, Hj).
  rewrite Htx in Ht. apply lookup_seq in Ht as [-> _]. rewrite lookup_app_r, Nat.add_comm, Nat.add_sub by lia.
  change (map ?f l) with (f <$> l). by rewrite list_lookup_fmap, Hj.
Qed.

Lemma handle_now_ok ks q F F' :
  all_sent F → handle_now ks q F = Some F' → (∀ k, q ≠ QChangeKeyStore k) →
  cmd_ok ks F' (request_cmd q (length F)) ∧
  ∃ new, F' = F ++ new ∧ all_sent new ∧ length new = length (cmd_txs (request_cmd q (length F))).
Proof.
  intros HF Hn Hq. unfold handle_now in Hn. destruct (answers ks F _) as [| |l] eqn:Ha; try done. injection Hn as <-.
  pose proof (answers_txs _ _ _ _ Ha) as Htx. pose proof (f_equal length Htx) as Hl. rewrite length_map in Hl.
  split; [split; [exists l; split_and!|..]|eexists; split_and!; [done| |by rewrite length_map]].
  - rewrite <- Ha. apply answers_more; [by apply all_sent_more|by rewrite Ha].
  - apply answers_appended. rewrite Htx, request_txs, <- Hl. done.
  - by eapply answers_unwrap.
  - rewrite request_txs, request_base. apply list.Forall_forall. intros t Ht%elem_of_seq. lia.
  - rewrite request_base, length_app, length_map, Hl. by destruct q; cbn; lia.
  - intros c Hc. rewrite request_base. by eapply answers_rx.
  - destruct q; cbn; try done. by eapply Hq.
  - apply list.Forall_forall. intros o (a & <- & _)%list_elem_of_In%in_map_iff. eauto.
Qed.

(** The round robin always finds a worker. *)
Lemma dispatch_worker ks env F s k cn :
  pool_inv ks env F s → cs_connectors s !! k = Some cn →
  ∃ w, cs_workers s !! Z.to_nat (round_robin cn mod num_tasks cn) = Some w ∧ cw_open w = true.
Proof.
  intros Hi Hk. pose proof (pi_workers _ _ _ _ Hi). pose proof (Forall_lookup_1 _ _ _ _ (pi_connectors _ _ _ _ Hi) Hk) as Hn.
  cbn in Hn. pose proof (Z.mod_pos_bound (round_robin cn) (num_tasks cn) ltac:(lia)).
  destruct (lookup_lt_is_Some_2 (cs_workers s) (Z.to_nat (round_robin cn mod num_tasks cn))) as [w Hw]; [lia|].
  exists w. split; [done|]. exact (Forall_lookup_1 _ _ _ _ (pi_open _ _ _ _ Hi) Hw).
Qed.

Lemma sorted_snoc l (cmd : CryptoServiceCommand) :
  StronglySorted dispatched_before l → Forall (λ a, dispatched_before a cmd) l → StronglySorted dispatched_before (l ++ [cmd]).
Proof.
  induction 1 as [|a l Hl IH Ha]; intros Hb; cbn; [by repeat constructor|]. apply list.Forall_cons in Hb as [Hac Hb].
  constructor; [by apply IH|]. apply list.Forall_app. by repeat constructor.
Qed.

Lemma waiting_appended ch F new (m : nat) c o :
  length ch = length F → length new = m → (∀ c o, ch !! c = Some o → o = Waiting ∨ F !! c = Some o) →
  (ch ++ replicate m Waiting) !! c = Some o → o = Waiting ∨ (F ++ new) !! c = Some o.
Proof.
  intros Hl Hm Ha [Hc|[Hge Hc]]%lookup_app_Some.
  - destruct (Ha c o Hc) as [->|HF]; [by left|right]. by apply lookup_app_l_Some.
  - left. by apply lookup_replicate in Hc as [-> _].
Qed.

Lemma dispatch_next k cmd s s' :
  dispatch_cmd k cmd s = Next s' →
  ∃ cn w, cs_connectors s !! k = Some cn ∧ cs_workers s !! Z.to_nat (round_robin cn mod num_tasks cn) = Some w ∧
    cw_open w = true ∧
    s' = mkCryptoService (cs_keystore s) (<[Z.to_nat (round_robin cn mod num_tasks cn) := push_cmd cmd w]> (cs_workers s))
           (<[k := mkConnector (round_robin cn ⊕ 1) (num_tasks cn)]> (cs_connectors s))
           (cs_chans s) (cs_gone s) (cs_storage s).
Proof.
  unfold dispatch_cmd. destruct (cs_connectors s !! k) as [cn|]; [|done].
  destruct (cs_workers s !! _) as [w|] eqn:Hw; [|done]. destruct (cw_open w) eqn:Ho; [|done]. cbn [negb].
  case_match; [|done]. intros [= <-]. by exists cn, w.
Qed.

Lemma work_pushed cmd w : cw_work (push_cmd cmd w) = cw_work w ++ [cmd].
Proof. unfold cw_work. cbn. by rewrite (assoc_L (++)). Qed.

(** What the pool holds after a command has been pushed. *)
Lemma work_insert_push (ws : list CryptoWorker) i w cmd cmd' :
  ws !! i = Some w → cmd' ∈ work_of (<[i := push_cmd cmd w]> ws) ↔ cmd' = cmd ∨ cmd' ∈ work_of ws.
Proof.
  intros Hw. split.
  - intros [Hin|Hin]%(work_insert _ _ _ _ _ Hw); [|by right]. rewrite work_pushed in Hin.
    apply elem_of_app in Hin as [Hin|Hin]; [right; apply work_elem; eauto|left; by apply list_elem_of_singleton].
  - intros [->|Hin].
    + eapply work_insert_new; [done|]. rewrite work_pushed. apply elem_of_app. right. by apply list_elem_of_singleton.
    + eapply work_insert_keep; [done| |done]. rewrite work_pushed. intros ?. apply elem_of_app. by left.
Qed.

Lemma inv_request ks env F F' s s' k q :
  pool_inv ks env F s → handle_now ks q F = Some F' → (∀ k, q ≠ QChangeKeyStore k) → request k q s = Next s' →
  pool_inv ks env F' s'.
Proof.
  intros Hi Hn Hq. destruct (handle_now_ok _ _ _ _ (pi_sent _ _ _ _ Hi) Hn Hq) as (Hok & new & -> & Hnew & Hlen).
  unfold request. rewrite (pi_length _ _ _ _ Hi). pose proof (request_base q (length F)) as Hbase.
  set (cmd := request_cmd q (length F)) in *.
  destruct (rx_gone cmd s) eqn:Hgone; [done|]. intros (cn & w & Hk & Hw & Hopen & ->)%dispatch_next. cbn in Hk, Hw |- *.
  set (i := Z.to_nat _) in *. destruct Hi as [Hks Hs Hl Ha H0w Hcn Hop Hord Hc Hrx Hg Hst Hwt].
  split; unfold outstanding; cbn; rewrite ?length_app, ?length_replicate, ?length_insert; try done.
  - by apply list.Forall_app.
  - lia.
  - intros c o. by eapply waiting_appended.
  - apply Forall_insert; [done|]. exact (Forall_lookup_1 _ _ _ _ Hcn Hk).
  - by apply Forall_insert.
  - apply Forall_insert; [done|]. rewrite work_pushed. apply sorted_snoc; [exact (Forall_lookup_1 _ _ _ _ Hord Hw)|].
    apply list.Forall_forall. intros a Hin. unfold dispatched_before. rewrite Hbase.
    eapply list.Forall_forall in Hc; [exact (co_bound _ _ _ Hc)|]. apply work_elem. eauto.
  - apply list.Forall_forall. intros a [->|Hin]%(work_insert_push _ _ _ _ _ Hw); [done|].
    apply cmd_ok_more; [done|]. by eapply list.Forall_forall in Hc.
  - apply list.Forall_forall. intros a [->|Hin]%(work_insert_push _ _ _ _ _ Hw); [|by eapply list.Forall_forall in Hrx].
    intros c Hcr. unfold rx_gone in Hgone. rewrite Hcr in Hgone. by apply bool_decide_eq_false in Hgone.
  - intros c (r & Hr & Hu)%Hg. exists r. split; [by apply lookup_app_l_Some|done].
  - eapply list.Forall_impl; [exact Hst|]. intros c Hr. by apply lookup_app_l_Some.
  - intros c [Hc'|[Hge Hc']]%lookup_app_Some.
    + destruct (Hwt c Hc') as [?|[?|(a & Hin & Hct)]]; [by left|by right; left|].
      right; right. exists a. split; [|done]. apply (work_insert_push _ _ _ _ _ Hw). by right.
    + right; right. exists cmd. split; [apply (work_insert_push _ _ _ _ _ Hw); by left|].
      apply lookup_replicate in Hc' as [_ Hlt]. unfold cmd. rewrite request_txs. apply elem_of_seq. fold cmd. lia.
Qed.

(** * The workers *)

Lemma inv_recv ks env F s s' i : pool_inv ks env F s → crypto_recv i s = Next s' → pool_inv ks env F s'.
Proof.
  intros [Hks Hs Hl Ha H0w Hcn Hop Hord Hc Hrx Hg Hst Hwt]. unfold crypto_recv.
  destruct (cs_workers s !! i) as [[[|cmd q] [] []]|] eqn:Hw; try done. intros [= <-].
  assert (map cw_work (<[i := mkCryptoWorker q (Some cmd) true]> (cs_workers s)) = map cw_work (cs_workers s)) as Hsame.
  { change (map cw_work) with (fmap (M := list) cw_work). rewrite list_fmap_insert. apply list_insert_id. by rewrite list_lookup_fmap, Hw. }
  split; unfold outstanding; cbn; rewrite ?Hsame, ?length_insert; try done.
  - by apply Forall_insert.
  - apply Forall_insert; [done|]. exact (Forall_lookup_1 _ _ _ _ Hord Hw).
Qed.

(** Sending answers the reference agrees with. *)
Lemma send_all (F : list Oneshot) l s :
  Forall (λ a, F !! an_tx a = Some (Sent (an_reply a))) l → Forall (λ a, an_unwrap a = unwrapped (an_reply a)) l →
  (∀ c, c ∈ cs_gone s → ∃ r, F !! c = Some (Sent r) ∧ unwrapped r = false) →
  (∀ c o, cs_chans s !! c = Some o → o = Waiting ∨ F !! c = Some o) →
  ∃ ch, run_steps send_answer l s = Next (set_chans (λ _, ch) s) ∧ length ch = length (cs_chans s) ∧
    (∀ c o, ch !! c = Some o → o = Waiting ∨ F !! c = Some o) ∧
    (∀ c, ch !! c = Some Waiting → cs_chans s !! c = Some Waiting ∧ (c ∈ cs_gone s ∨ c ∉ map an_tx l)).
Proof.
  intros HF Hu. revert s. induction HF as [|a l Ha _ IH]; intros s Hg Hag; cbn [run_steps].
  { exists (cs_chans s). split_and!; try done; [by destruct s|]. intros c Hc. split; [done|]. right. apply not_elem_of_nil. }
  apply list.Forall_cons in Hu as [Hua Hu]. unfold send_answer at 1. case_bool_decide as Hgone.
  - destruct (Hg _ Hgone) as (r & Hr & Hru). rewrite Ha in Hr. simplify_eq. rewrite Hua, Hru. cbv iota.
    destruct (IH Hu s Hg Hag) as (ch & -> & Hl & Hagc & Hw). exists ch. split_and!; try done.
    intros c Hc. destruct (Hw c Hc) as [Hwc Hor]. split; [done|]. destruct (decide (c ∈ cs_gone s)); [by left|right].
    cbn [map]. intros [Heq|Hin]%elem_of_cons; [by subst c|]. by destruct Hor.
  - destruct (IH Hu (set_chans <[an_tx a := Sent (an_reply a)]> s) Hg) as (ch & -> & Hl & Hagc & Hw).
    { cbn. intros c o [(<- & <- & _)|[_ Hc]]%list_lookup_insert_Some; [by right|by apply Hag]. }
    exists ch. cbn in Hl, Hw. rewrite length_insert in Hl. split_and!; try done. intros c Hc. destruct (Hw c Hc) as [Hwc Hor].
    apply list_lookup_insert_Some in Hwc as [(_ & ? & _)|[Hne Hwc]]; [done|]. split; [done|].
    destruct Hor as [?|Hn]; [by left|right]. cbn [map]. by intros [Heq|Hin]%elem_of_cons.
Qed.

Lemma crypto_run_eq s i q cmd :
  cs_workers s !! i = Some (mkCryptoWorker q (Some cmd) true) →
  match cmd with CDie | CChangeKeyStore _ _ => False | _ => True end →
  crypto_run i s =
    after (answers (cs_keystore s) (cs_chans s) cmd) (λ l,
    after (run_steps send_answer l s) (λ s2, Next (set_workers <[i := mkCryptoWorker q None true]> s2))).
Proof. unfold crypto_run. intros ->. by destruct cmd. Qed.

Lemma current_outstanding s i q cmd :
  cs_workers s !! i = Some (mkCryptoWorker q (Some cmd) true) → cmd ∈ outstanding s.
Proof. intros Hw. apply work_elem. eexists i, _. split; [done|]. apply elem_of_cons. by left. Qed.

(** A worker that handles a command never panics, and is blocked only by its channel. *)
Lemma run_cmd ks env F s i q cmd :
  pool_inv ks env F s → cs_workers s !! i = Some (mkCryptoWorker q (Some cmd) true) →
  (crypto_run i s = Blocked ∧ ∃ c, cmd_rx cmd = Some c ∧ cs_chans s !! c = Some Waiting) ∨
  ∃ ch, crypto_run i s = Next (set_workers <[i := mkCryptoWorker q None true]> (set_chans (λ _, ch) s)) ∧
    length ch = length (cs_chans s) ∧
    (∀ c o, ch !! c = Some o → o = Waiting ∨ F !! c = Some o) ∧
    (∀ c, ch !! c = Some Waiting → cs_chans s !! c = Some Waiting ∧ (c ∈ cs_gone s ∨ c ∉ cmd_txs cmd)).
Proof.
  intros Hi Hw. pose proof (pi_cmds _ _ _ _ Hi) as Hc.
  eapply list.Forall_forall in Hc; [|by eapply current_outstanding]. destruct Hc as [(l & Heq & Hs & Hu) Hb Hlt Hrx Hk].
  rewrite (crypto_run_eq _ _ _ _ Hw Hk), (pi_keystore _ _ _ _ Hi).
  assert (resolves_more (cs_chans s) F) as Hm by (intros c o Ho Hn; by destruct (pi_agree _ _ _ _ Hi c o Ho)).
  destruct (answers ks (cs_chans s) cmd) as [| |l'] eqn:E.
  - left. split; [done|]. destruct (answers_blocked _ _ _ E) as (c & Hc & [?|Hnone]); [eauto|].
    apply lookup_ge_None in Hnone. specialize (Hrx c Hc). pose proof (pi_length _ _ _ _ Hi). lia.
  - rewrite (answers_more _ _ _ _ Hm) in Heq; [|by rewrite E]. by rewrite E in Heq.
  - rewrite (answers_more _ _ _ _ Hm) in Heq; [|by rewrite E]. rewrite E in Heq. injection Heq as ->. right. cbn [after].
    destruct (send_all F l s Hs Hu (pi_gone _ _ _ _ Hi) (pi_agree _ _ _ _ Hi)) as (ch & -> & Hl & Hag & Hwt).
    exists ch. split_and!; try done. by rewrite <- (answers_txs _ _ _ _ E).
Qed.

Lemma inv_run ks env F s i :
  pool_inv ks env F s → crypto_run i s ≠ Panicked ∧ ∀ s', crypto_run i s = Next s' → pool_inv ks env F s'.
Proof.
  intros Hi. destruct (cs_workers s !! i) as [[q [cmd|] []]|] eqn:Hw.
  2-4: unfold crypto_run; by rewrite Hw.
  2: { unfold crypto_run; by rewrite Hw. }
  destruct (run_cmd _ _ _ _ _ _ _ Hi Hw) as [[-> _]|(ch & -> & Hl' & Hag' & Hwt')]; [done|]. split; [done|]. intros s' [= <-].
  destruct Hi as [Hks Hs Hl Ha H0w Hcn Hop Hord Hc Hrx Hg Hst Hwt].
  assert (∀ a, a ∈ work_of (<[i := mkCryptoWorker q None true]> (cs_workers s)) → a ∈ outstanding s) as Hsub.
  { intros a [Hin|Hin]%(work_insert _ _ _ _ _ Hw); [|done]. apply work_elem. eexists i, _. split; [done|].
    apply elem_of_cons. by right. }
  split; unfold outstanding; cbn; rewrite ?length_insert; try done.
  - lia.
  - by apply Forall_insert.
  - apply Forall_insert; [done|]. pose proof (Forall_lookup_1 _ _ _ _ Hord Hw) as Hsort. by inversion Hsort.
  - apply list.Forall_forall. intros a Hin%Hsub. by eapply list.Forall_forall in Hc.
  - apply list.Forall_forall. intros a Hin%Hsub. by eapply list.Forall_forall in Hrx.
  - intros c [Hc' Hor]%Hwt'. destruct (Hwt c Hc') as [?|[?|(a & Hin & Hct)]]; [by left|by right; left|].
    destruct Hor as [?|Hnot]; [by left|]. right; right. exists a. split; [|done].
    eapply work_insert_keep; [done| |done]. intros [->|Hq]%elem_of_cons; [done|exact Hq].
Qed.

(** * The storage task and the callers *)

Lemma inv_storage_get ks env F s :
  pool_inv ks env F s → pool_inv ks env (F ++ [Sent (RSer (env (length F)))]) (storage_get s).
Proof.
  intros [Hks Hs Hl Ha H0w Hcn Hop Hord Hc Hrx Hg Hst Hwt].
  split; unfold storage_get; cbn; rewrite ?length_app, ?Hl; try done.
  - apply list.Forall_app. split; [done|]. constructor; [eauto|done].
  - intros c o. by apply (waiting_appended _ _ _ 1).
  - eapply list.Forall_impl; [exact Hc|]. intros a. by apply cmd_ok_more.
  - intros c (r & Hr & Hu)%Hg. exists r. split; [by apply lookup_app_l_Some|done].
  - apply list.Forall_app. split; [|constructor; [by apply list_lookup_middle|done]].
    eapply list.Forall_impl; [exact Hst|]. intros c Hr. by apply lookup_app_l_Some.
  - intros c [Hc'|[Hge Hc']]%lookup_app_Some.
    + destruct (Hwt c Hc') as [?|[?|?]]; [by left|right; left; apply elem_of_app; by left|by right; right].
    + right; left. apply elem_of_app. right. apply list_elem_of_singleton.
      apply lookup_lt_Some in Hc'. cbn in Hc'. lia.
Qed.

Lemma inv_storage_answer ks env F s s' c r :
  pool_inv ks env F s → r = env c → storage_answer c r s = Next s' → pool_inv ks env F s'.
Proof.
  intros [Hks Hs Hl Ha H0w Hcn Hop Hord Hc Hrx Hg Hst Hwt] ->. unfold storage_answer. case_bool_decide as Hin; [|done].
  intros [= <-]. split; cbn; try done.
  - case_bool_decide; [done|]. by rewrite length_insert.
  - case_bool_decide; [done|]. intros c' o [(<- & <- & _)|[_ Hc']]%list_lookup_insert_Some; [|by apply Ha].
    right. by eapply list.Forall_forall in Hst.
  - apply list.Forall_forall. intros c' [_ Hc']%list_elem_of_filter. by eapply list.Forall_forall in Hst.
  - intros c' Hc'. assert (cs_chans s !! c' = Some Waiting ∧ (c' ∈ cs_gone s ∨ c' ≠ c)) as [Hw Hor].
    { revert Hc'. case_bool_decide.
      - intros Hc'. split; [done|]. destruct (decide (c' = c)) as [->|]; auto.
      - intros [(_ & ? & _)|[Hne Hc']]%list_lookup_insert_Some; [done|auto]. }
    destruct (Hwt c' Hw) as [?|[?|?]]; [by left| |by right; right]. destruct Hor as [?|?]; [by left|].
    right; left. by apply list_elem_of_filter.
Qed.

Lemma inv_drop ks env F s s' c :
  pool_inv ks env F s → (∀ r, F !! c = Some (Sent r) → unwrapped r = false) → drop_receiver c s = Next s' → pool_inv ks env F s'.
Proof.
  intros [Hks Hs Hl Ha H0w Hcn Hop Hord Hc Hrx Hg Hst Hwt] Hd. unfold drop_receiver.
  case_bool_decide as Hcond; [|done]. destruct Hcond as [Hlt Hno]. intros [= <-]. split; cbn; try done.
  - apply list.Forall_forall. intros a Hin c' Hc' [->%elem_of_singleton|Hg']%elem_of_union.
    + eapply list.Forall_forall in Hno; done.
    + eapply list.Forall_forall in Hrx; [|done]. by eapply Hrx.
  - intros c' [->%elem_of_singleton|Hg']%elem_of_union; [|by apply Hg].
    destruct (lookup_lt_is_Some_2 F c) as [o Ho]; [lia|]. destruct (Forall_lookup_1 _ _ _ _ Hs Ho) as [r ->]. eauto.
  - intros c' Hc'. destruct (Hwt c' Hc') as [?|?]; [left; apply elem_of_union; by right|by right].
Qed.

(** * Steps and schedules *)

Lemma request_no_panic ks env F s k q : pool_inv ks env F s → request k q s ≠ Panicked.
Proof.
  intros Hi. unfold request. destruct (rx_gone _ _); [done|]. unfold dispatch_cmd. cbn.
  destruct (cs_connectors s !! k) as [cn|] eqn:Hk; [|done].
  destruct (dispatch_worker _ _ _ _ _ _ Hi Hk) as (w & -> & ->). cbn [negb]. by case_match.
Qed.

Lemma inv_step ks env F F' G a s :
  pool_inv ks env F s → F `prefix_of` G → orderly env G a → ref_step ks env a F = Some F' →
  crypto_step a s ≠ Panicked ∧ ∀ s', crypto_step a s = Next s' → pool_inv ks env F' s'.
Proof.
  intros Hi Hpre Ho Hr. destruct a as [k q|k|i|i| |c r|c|c]; cbn in *; simplify_eq; try done.
  - split; [by eapply request_no_panic|]. intros s' Hs. eapply inv_request; try done. intros k' ->. done.
  - split; [unfold crypto_recv; by repeat case_match|]. intros s' Hs. by eapply inv_recv.
  - by apply inv_run.
  - split; [done|]. intros s' [= <-]. by apply inv_storage_get.
  - split; [unfold storage_answer; by case_match|]. intros s' Hs. by eapply inv_storage_answer.
  - split; [unfold drop_receiver; by case_match|]. intros s' Hs. eapply inv_drop; [done| |done].
    intros r Hc. apply Ho. destruct Hpre as [x ->]. by apply lookup_app_l_Some.
  - unfold await_answer. destruct (cs_chans s !! c) as [[|r|]|] eqn:Hc; try done.
    + split; [done|]. by intros s' [= <-].
    + destruct (pi_agree _ _ _ _ Hi c _ Hc) as [?|HF]; [done|].
      by destruct (Forall_lookup_1 _ _ _ _ (pi_sent _ _ _ _ Hi) HF).
Qed.

Lemma ref_step_prefix ks env a F F' : ref_step ks env a F = Some F' → F `prefix_of` F'.
Proof.
  destruct a as [k q|k|i|i| |c r|c|c]; cbn; intros Hr; simplify_eq; try done; [|by eexists].
  unfold handle_now in Hr. destruct (answers _ _ _); simplify_eq. by eexists.
Qed.

Lemma reference_prefix ks env acts F G : reference ks env acts F = Some G → F `prefix_of` G.
Proof.
  revert F. induction acts as [|a acts IH]; cbn; intros F; [by intros [= ->]|].
  intros (F' & Ha & Hr)%bind_Some. etrans; [by eapply ref_step_prefix|by apply IH].
Qed.

Lemma inv_steps ks env G acts F s :
  pool_inv ks env F s → Forall (orderly env G) acts → reference ks env acts F = Some G →
  run_steps crypto_step acts s ≠ Panicked ∧ ∀ s', run_steps crypto_step acts s = Next s' → pool_inv ks env G s'.
Proof.
  intros Hi Ho. revert F s Hi. induction Ho as [|a acts Ha _ IH]; cbn; intros F s Hi.
  { intros [= ->]. split; [done|]. by intros s' [= <-]. }
  intros (F' & Hr & Hrs)%bind_Some.
  assert (F `prefix_of` G) as Hpre by (etrans; [by eapply ref_step_prefix|by eapply reference_prefix]).
  destruct (inv_step _ _ _ _ _ _ _ Hi Hpre Ha Hr) as [Hnp Hnext].
  destruct (crypto_step a s) as [| |s1]; [done..|]. by apply (IH F' s1); [apply Hnext|].
Qed.

(** The actions of the workers leave the reference alone. *)
Lemma reference_workers ks env acts G : Forall worker_act acts → reference ks env acts G = Some G.
Proof. induction 1 as [|a acts Ha _ IH]; [done|]. by destruct a. Qed.

Lemma orderly_workers env G acts : Forall worker_act acts → Forall (orderly env G) acts.
Proof. intros Ha. eapply list.Forall_impl; [exact Ha|]. by intros []. Qed.

(** * Progress *)

Definition cw_load (w : CryptoWorker) : nat := 2 * length (cw_queue w) + length (option_list (cw_cur w)).
Definition crypto_load (s : CryptoService) : nat := sum_list_with cw_load (cs_workers s).

Lemma load_insert (ws : list CryptoWorker) i w w' :
  ws !! i = Some w → (sum_list_with cw_load (<[i := w']> ws) + cw_load w = sum_list_with cw_load ws + cw_load w')%nat.
Proof.
  revert i. induction ws as [|u ws IH]; intros [|i]; simpl; try done; [intros [= ->]; lia|].
  intros Hw. specialize (IH i Hw). lia.
Qed.

Lemma load_recv cmd q b : cw_load (mkCryptoWorker (cmd :: q) None b) = S (cw_load (mkCryptoWorker q (Some cmd) b)).
Proof. unfold cw_load. cbn. lia. Qed.

Lemma load_run cmd q b : cw_load (mkCryptoWorker q (Some cmd) b) = S (cw_load (mkCryptoWorker q None b)).
Proof. unfold cw_load. cbn. lia. Qed.

Lemma worker_act_load ks env F s s' a :
  pool_inv ks env F s → worker_act a → crypto_step a s = Next s' →
  S (crypto_load s') = crypto_load s ∧ cs_storage s' = cs_storage s.
Proof.
  intros Hi. destruct a as [| |i|i| | | |]; try done; intros _; cbn [crypto_step].
  - unfold crypto_recv. destruct (cs_workers s !! i) as [[[|cmd q] [] []]|] eqn:Hw; try done. intros [= <-].
    unfold crypto_load. cbn [set_workers set_chans cs_workers]. pose proof (load_insert _ _ _ (mkCryptoWorker q (Some cmd) true) Hw) as Hl.
    rewrite load_recv in Hl. split; [lia|done].
  - destruct (cs_workers s !! i) as [[q [cmd|] []]|] eqn:Hw.
    2-5: unfold crypto_run; by rewrite Hw.
    destruct (run_cmd _ _ _ _ _ _ _ Hi Hw) as [[-> _]|(ch & -> & _)]; [done|]. intros [= <-].
    unfold crypto_load. cbn [set_workers set_chans cs_workers]. pose proof (load_insert _ _ _ (mkCryptoWorker q None true) Hw) as Hl.
    rewrite load_run in Hl. split; [lia|done].
Qed.

Lemma workers_bound ks env F acts s s' :
  pool_inv ks env F s → Forall worker_act acts → run_steps crypto_step acts s = Next s' →
  (length acts + crypto_load s' = crypto_load s)%nat ∧ cs_storage s' = cs_storage s.
Proof.
  intros Hi Ha. revert s Hi. induction Ha as [|a acts Ha Has IH]; cbn; intros s Hi; [by intros [= <-]|].
  destruct (crypto_step a s) as [| |s1] eqn:Hs; try done. intros Hrun.
  destruct (worker_act_load _ _ _ _ _ _ Hi Ha Hs) as [Hl Hst].
  assert (pool_inv ks env F s1) as Hi1.
  { assert (orderly env F a) as Ho by (by destruct a). assert (ref_step ks env a F = Some F) as Hr by (by destruct a).
    by apply (proj2 (inv_step _ _ _ _ _ _ _ Hi (reflexivity F) Ho Hr)). }
  destruct (IH s1 Hi1 Hrun) as [IHl ->]. split; [lia|done].
Qed.

Lemma oldest_exists (l : list CryptoServiceCommand) :
  l ≠ [] → ∃ cmd, cmd ∈ l ∧ ∀ cmd', cmd' ∈ l → (cmd_base cmd ≤ cmd_base cmd')%nat.
Proof.
  induction l as [|a l IH]; [done|]. intros _. destruct (decide (l = [])) as [->|Hne].
  { exists a. split; [by apply elem_of_cons; left|]. intros cmd' [->|[]%not_elem_of_nil]%elem_of_cons. done. }
  destruct (IH Hne) as (m & Hm & Hmin). destruct (decide (cmd_base a ≤ cmd_base m)%nat).
  - exists a. split; [by apply elem_of_cons; left|]. intros cmd' [->|Hin]%elem_of_cons; [done|]. specialize (Hmin _ Hin). lia.
  - exists m. split; [by apply elem_of_cons; right|]. intros cmd' [->|Hin]%elem_of_cons; [lia|by apply Hmin].
Qed.

(** The oldest command of the pool is never blocked. *)
Lemma pool_progress ks env F s :
  pool_inv ks env F s → cs_storage s = [] → outstanding s ≠ [] → ∃ a s', worker_act a ∧ crypto_step a s = Next s'.
Proof.
  intros Hi Hst (cmd & Hin & Hmin)%oldest_exists. apply work_elem in Hin as (i & [q cur op] & Hw & Hc).
  pose proof (Forall_lookup_1 _ _ _ _ (pi_open _ _ _ _ Hi) Hw) as Hop. cbn in Hop. subst op.
  destruct cur as [cur|].
  2: { destruct q as [|c q]; [by apply not_elem_of_nil in Hc|]. eexists (KRecv i), _. split; [done|]. cbn. unfold crypto_recv. by rewrite Hw. }
  pose proof (Forall_lookup_1 _ _ _ _ (pi_order _ _ _ _ Hi) Hw) as Hsort. cbn in Hc, Hsort.
  pose proof (current_outstanding _ _ _ _ Hw) as Hcur. inversion Hsort as [|? ? _ Hall]; subst.
  assert (cur = cmd) as ->.
  { apply elem_of_cons in Hc as [->|Hq]; [done|]. eapply list.Forall_forall in Hall; [|exact Hq].
    specialize (Hmin _ Hcur). unfold dispatched_before in Hall. lia. }
  exists (KRun i). cbn [crypto_step]. destruct (run_cmd _ _ _ _ _ _ _ Hi Hw) as [[_ (c & Hrx & Hwait)]|(ch & -> & _)]; [|by eexists].
  exfalso. pose proof (pi_cmds _ _ _ _ Hi) as Hcs. pose proof (pi_rx _ _ _ _ Hi) as Hrxs.
  eapply list.Forall_forall in Hrxs; [|exact Hcur]. pose proof Hcs as Hcs'. eapply list.Forall_forall in Hcs'; [|exact Hcur].
  pose proof (co_rx _ _ _ Hcs' c Hrx). destruct (pi_waiting _ _ _ _ Hi c Hwait) as [Hg|[Hs|(o & Ho & Hct)]].
  - by apply (Hrxs c).
  - rewrite Hst in Hs. by apply not_elem_of_nil in Hs.
  - eapply list.Forall_forall in Hcs; [|exact Ho]. pose proof (co_base _ _ _ Hcs) as Hb.
    eapply list.Forall_forall in Hb; [|exact Hct]. specialize (Hmin _ Ho). lia.
Qed.

Lemma pool_done ks env F s :
  pool_inv ks env F s → cs_storage s = [] → outstanding s = [] → ∀ c, c ∉ cs_gone s → cs_chans s !! c = F !! c.
Proof.
  intros Hi Hst Hout c Hg. destruct (cs_chans s !! c) as [o|] eqn:Hc.
  - destruct (pi_agree _ _ _ _ Hi c o Hc) as [->|HF]; [|done]. exfalso.
    destruct (pi_waiting _ _ _ _ Hi c Hc) as [?|[Hs|(a & Ha & _)]]; [done| |].
    + rewrite Hst in Hs. by apply not_elem_of_nil in Hs.
    + rewrite Hout in Ha. by apply not_elem_of_nil in Ha.
  - symmetry. apply lookup_ge_None. rewrite <- (pi_length _ _ _ _ Hi). by apply lookup_ge_None.
Qed.

Lemma start_workers tasks ks rands s :
  crypto_service_start tasks ks rands = Some s →
  cs_keystore s = ks ∧ cs_workers s = replicate tasks (mkCryptoWorker [] None true) ∧ (0 < tasks)%nat ∧
  Forall (λ cn, num_tasks cn = Z.of_nat tasks) (cs_connectors s) ∧ cs_chans s = [] ∧ cs_gone s = ∅ ∧ cs_storage s = [].
Proof.
  unfold crypto_service_start, crypto_service_new. destruct (Nat.ltb_spec 0 tasks); [|done]. intros [= <-].
  induction rands as [|r rands IH] using rev_ind; [by cbn|]. rewrite foldl_app. cbn.
  destruct IH as (Hks & Hw & Hpos & Hcn & Hch & Hg & Hst). split_and!; try done.
  apply list.Forall_app. split; [done|]. constructor; [|done]. cbn. by rewrite Hw, length_replicate.
Qed.

Lemma inv_start tasks ks rands env s : crypto_service_start tasks ks rands = Some s → pool_inv ks env [] s.
Proof.
  intros (Hks & Hw & Hpos & Hcn & Hch & Hg & Hst)%start_workers.
  assert (outstanding s = []) as Hout.
  { unfold outstanding. rewrite Hw. clear. induction tasks; [done|]. by cbn. }
  split; rewrite ?Hout, ?Hch, ?Hg, ?Hst, ?Hw, ?length_replicate; try done.
  - by constructor.
  - by apply Forall_replicate.
  - apply Forall_replicate. constructor.
Qed.

(** * What the reference computes *)

(** A block prepared with the hash of a channel has that hash as its parent. *)
Lemma reference_chains ks b must_sign c ch ch' :
  handle_now ks (QPrepareBlock b must_sign (RxFuture c)) ch = Some ch' →
  ∃ h cb, ch !! c = Some (Sent (RBytes h)) ∧ pb_parent (cb_block cb) = h ∧
    ch' = ch ++ [Sent (RBlock cb); Sent (RBytes (cb_hash cb)); Sent (RBytes (cb_hash cb))].
Proof.
  unfold handle_now. cbn [request_cmd answers await_parent]. destruct (prepare_block ks b must_sign (FHFuture None)) eqn:Hnone.
  { exfalso. revert Hnone. unfold prepare_block. by destruct (serialize_proto_block_nascent _). }
  destruct (ch !! c) as [[|[h| | | | | | |]|]|] eqn:Hc; cbn [after]; rewrite ?Hnone; try done.
  destruct (prepare_block ks b must_sign (FHFuture (Some h))) as [cb|] eqn:Hp; [|done]. cbn. intros [= <-].
  exists h, cb. split_and!; try done. revert Hp. unfold prepare_block. destruct (serialize_proto_block_nascent _); [done|].
  cbn [resolve_parent]. intros Hp. repeat (apply bind_Some in Hp as (? & ? & Hp)).
  case_match. apply bind_Some in Hp as (? & _ & Hp). by simplify_eq.
Qed.

(** [prepare_fork] and [prepare_for_rebroadcast] verify the blocks of a part in order. *)
Lemma reference_verifies ks env k part m rs ch :
  prepare_fork feat ks config part m = map Some rs →
  reference ks env (verify_part_acts k part m) ch =
    Some (ch ++ concat (map (λ r, [Sent (RBlockResult r);
      Sent (RHashResult (match r with inr cb => inr (cb_hash cb) | inl e => inl e end))]) rs)).
Proof.
  revert ch rs. induction part as [|e part IH]; intros ch [|r rs]; try done.
  - intros _. cbn. by rewrite app_nil_r.
  - unfold prepare_fork. cbn [map]. intros [= Hr Hrs].
    change (verify_part_acts k (e :: part) m) with (KRequest k (QVerifyBlockSer m (hs_body e)) :: verify_part_acts k part m).
    cbn [reference ref_step]. unfold handle_now. cbn [request_cmd answers]. rewrite Hr. cbn [or_panic after map an_reply mbind option_bind].
    rewrite (IH _ rs Hrs). cbn [concat]. by rewrite <- (assoc_L (++)).
Qed.

End crypto_pool.

(** C27: The crypto pool implements handling every command when it is dispatched, and never
    deadlocks.  Let a schedule interleave requests of any connectors, worker turns, storage
    answers and dropped receivers, in a node where no command stops a worker or changes the
    keys and no receiver of an unwrapped answer is dropped.  If handling the requests one
    after the other does not panic and gives [G], then the schedule does not panic; every
    answer sent so far is that of [G]; and once the storage task has answered, every run of
    the workers has at most [crypto_load] turns, after which either some worker can go on or
    all the channels that still have a receiver hold the answers of [G]. *)
Theorem crypto_pool_refines `{Codec, Ed25519} (feat : Features) (config : ConsensusConfig)
    (tasks : nat) (ks : KeyStore) (rands : list Z) (env : nat → unit + bytes) (acts : list CryptoAct)
    (G : list Oneshot) (s0 : CryptoService) :
  crypto_service_start tasks ks rands = Some s0 →
  reference feat config ks env acts [] = Some G → Forall (orderly env G) acts →
  run_steps (crypto_step feat config) acts s0 ≠ Panicked ∧
  ∀ s, run_steps (crypto_step feat config) acts s0 = Next s →
    (∀ c r, cs_chans s !! c = Some (Sent r) → G !! c = Some (Sent r)) ∧
    (cs_storage s = [] → ∀ acts' s', Forall worker_act acts' → run_steps (crypto_step feat config) acts' s = Next s' →
      (length acts' ≤ crypto_load s)%nat ∧
      ((∃ a s'', worker_act a ∧ crypto_step feat config a s' = Next s'') ∨
       ∀ c, c ∉ cs_gone s' → cs_chans s' !! c = G !! c)).
Proof.
  intros Hstart Href Hord. pose proof (inv_start feat config _ _ _ env _ Hstart) as Hi.
  destruct (inv_steps _ _ _ _ _ _ _ _ Hi Hord Href) as [Hnp Hinv]. split; [done|]. intros s Hrun. specialize (Hinv s Hrun).
  split; [intros c r Hc; by destruct (pi_agree _ _ _ _ _ _ Hinv c _ Hc)|]. intros Hst acts' s' Hw Hrun'.
  destruct (workers_bound _ _ _ _ _ _ _ _ Hinv Hw Hrun') as [Hload Hst']. split; [lia|].
  destruct (inv_steps _ _ _ _ _ _ _ _ Hinv (orderly_workers _ _ _ Hw) (reference_workers _ _ _ _ _ _ Hw)) as [_ Hinv'].
  specialize (Hinv' s' Hrun'). rewrite Hst in Hst'.
  destruct (decide (outstanding s' = [])) as [Hout|Hout]; [right; by eapply pool_done|left; by eapply pool_progress].
Qed.

(** A pool of two workers prepares two chained blocks; the worker of the second one starts
    first and waits for the hash of the first. *)
Definition toy_pool_acts : list (@CryptoAct toy_ed) :=
  [KRequest 0 (QPrepareBlock toy_block true RxNone); KRequest 0 (QPrepareBlock toy_block true (RxFuture 1));
   KRecv 0; KStorageGet; KRequest 1 (QHash [Byte.x2a]); KRequest 1 (QCheckBlock (zeros 64) 6);
   KStorageAnswer 6 (inl tt); KDropRx 2; KRecv 1].

Definition toy_pool_start : @CryptoService toy_ed :=
  default (@mkCryptoService toy_ed toy_keystore [] [] [] ∅ []) (@crypto_service_start toy_ed 2 toy_keystore [7; 4]).

Definition toy_pool_ref : list Oneshot :=
  default [] (@reference (toy_codec (nascent toy_block)) toy_ed pirateship_features four_nodes toy_keystore (λ _, inl tt) toy_pool_acts []).

Definition toy_pool_after (acts : list (@CryptoAct toy_ed)) : @CryptoService toy_ed :=
  match run_steps (@crypto_step (toy_codec (nascent toy_block)) toy_ed pirateship_features four_nodes) acts toy_pool_start with
  | Next s => s
  | _ => toy_pool_start
  end.

Definition toy_pool_turns : list (@CryptoAct toy_ed) := [KRun 1; KRun 0; KRecv 1; KRun 1; KRecv 0; KRun 0].

Lemma crypto_pool_refines_witness :
  let C := toy_codec (nascent toy_block) in let Ed := toy_ed in
  run_steps (crypto_step pirateship_features four_nodes) toy_pool_acts toy_pool_start ≠ Panicked ∧
  (length toy_pool_turns ≤ crypto_load (toy_pool_after toy_pool_acts))%nat.
Proof.
  intros C Ed.
  destruct (@crypto_pool_refines C Ed pirateship_features four_nodes 2 toy_keystore [7; 4] (λ _, inl tt)
    toy_pool_acts toy_pool_ref toy_pool_start) as [Hnp Hall].
  - vm_compute. reflexivity.
  - vm_compute. reflexivity.
  - repeat constructor. vm_compute. intros r [= <-]. reflexivity.
  - split; [exact Hnp|]. destruct (Hall (toy_pool_after toy_pool_acts)) as [_ Hfin]; [vm_compute; reflexivity|].
    destruct (Hfin ltac:(vm_compute; reflexivity) toy_pool_turns (toy_pool_after (toy_pool_acts ++ toy_pool_turns))) as [Hlen _].
    + repeat constructor.
    + vm_compute. reflexivity.
    + exact Hlen.
Defined.

(** * Stopping the service *)

(** The workers [n] consecutive numbers from [r] select. *)
Fixpoint targets (tasks r : Z) (n : nat) : list nat :=
  match n with
  | O => []
  | S n' => Z.to_nat (r mod tasks) :: targets tasks (r ⊕ 1) n'
  end.

(** Without wrap-around, [tasks] consecutive dispatches reach every worker. *)
Lemma targets_all (tasks r : Z) (i : nat) :
  0 < tasks → 0 ≤ r → r + tasks ≤ 2 ^ 64 → (Z.of_nat i < tasks) → i ∈ targets tasks r (Z.to_nat tasks).
Proof.
  intros Ht Hr Hmax Hi.
  assert (∀ n r, 0 ≤ r → r + Z.of_nat n ≤ 2 ^ 64 → ∀ x, r ≤ x < r + Z.of_nat n → Z.to_nat (x mod tasks) ∈ targets tasks r n) as Hin.
  { clear -Ht. induction n as [|n IH]; intros r Hr Hmax x Hx; [lia|]. cbn [targets]. apply elem_of_cons.
    destruct (decide (x = r)) as [->|Hne]; [by left|right].
    unfold u64_add. destruct n as [|n]; [lia|]. rewrite wrap64_small by (unfold u64_range; lia). apply IH; lia. }
  pose (x := r + (Z.of_nat i - r) mod tasks). pose proof (Z.mod_pos_bound (Z.of_nat i - r) tasks Ht).
  replace i with (Z.to_nat (x mod tasks)).
  { apply Hin; unfold x; lia. }
  unfold x. rewrite Zplus_mod_idemp_r. replace (r + (Z.of_nat i - r)) with (Z.of_nat i) by lia. rewrite Z.mod_small by lia. lia.
Qed.

(** [kill] gives every worker its [Die], if the queues have room and the counter of the
    connector does not wrap. *)
Lemma kill_reaches_workers `{Codec, Ed25519} (feat : Features) (config : ConsensusConfig) k n s s' cn :
  cs_connectors s !! k = Some cn →
  run_steps (crypto_step feat config) (kill_acts k n) s = Next s' →
  ∀ i, i ∈ targets (num_tasks cn) (round_robin cn) n → ∃ w, cs_workers s' !! i = Some w ∧ CDie ∈ cw_queue w.
Proof.
  intros Hk Hrun i Hi.
  assert (∀ n s cn, cs_connectors s !! k = Some cn → run_steps (crypto_step feat config) (kill_acts k n) s = Next s' →
    (∃ w, cs_workers s !! i = Some w ∧ CDie ∈ cw_queue w) ∨ i ∈ targets (num_tasks cn) (round_robin cn) n →
    ∃ w, cs_workers s' !! i = Some w ∧ CDie ∈ cw_queue w) as Hgen; [|eapply Hgen; [exact Hk|exact Hrun|by right]].
  clear. induction n as [|n IH]; intros s cn Hk Hrun Hor.
  { injection Hrun as <-. destruct Hor as [?|Hn]; [done|]. by apply not_elem_of_nil in Hn. }
  change (kill_acts k (S n)) with (KDie k :: kill_acts k n) in Hrun. cbn [run_steps crypto_step] in Hrun.
  destruct (dispatch_cmd k CDie s) as [| |s1] eqn:Hd; try done.
  apply dispatch_next in Hd as (cn' & w & Hk' & Hw & _ & ->). simplify_eq.
  eapply IH; [|exact Hrun|]; [by apply list_lookup_insert_eq; eapply lookup_lt_Some|]. cbn [num_tasks round_robin].
  assert (∀ q, CDie ∈ q ++ [CDie]) as Hlast by (intros; apply elem_of_app; right; by apply list_elem_of_singleton).
  set (j := Z.to_nat _) in *. destruct (decide (i = j)) as [->|Hne].
  { left. exists (push_cmd CDie w). split; [apply list_lookup_insert_eq; by eapply lookup_lt_Some|apply Hlast]. }
  destruct Hor as [(u & Hu & Hdie)|Hin].
  - left. exists u. cbn [cs_workers]. by rewrite list_lookup_insert_ne.
  - cbn [targets] in Hin. apply elem_of_cons in Hin as [?|Hin]; [done|by right].
Qed.

(** At the wrap-around of the counter the round robin skips a worker. *)
Lemma kill_misses_worker : targets 3 (2 ^ 64 - 1) 3 = [0; 0; 1]%nat.
Proof. reflexivity. Qed.

(** Malformed bytes from the network abort the whole node: the release profile aborts on a
    panic, and the worker panics on them. *)
Lemma malformed_block_aborts_node `{Codec, Ed25519} (feat : Features) (config : ConsensusConfig) s i q m ser t1 t2 :
  (length ser < DIGEST_LENGTH + SIGNATURE_LENGTH)%nat
    ∨ decode_block (drop (DIGEST_LENGTH + SIGNATURE_LENGTH) ser) = None →
  cs_workers s !! i = Some (mkCryptoWorker q (Some (CVerifyBlockSer m ser t1 t2)) true) →
  crypto_step feat config (KRun i) s = Panicked.
Proof.
  intros Hbad Hw. cbn [crypto_step]. unfold crypto_run. rewrite Hw. cbn [answers].
  by rewrite (malformed_block_aborts feat (cs_keystore s) config m ser Hbad).
Qed.

(** A caller that drops the receiver of a verification aborts the node as well: the result
    of that [send] is unwrapped. *)
Lemma dropped_verification_aborts `{Codec, Ed25519} (feat : Features) (config : ConsensusConfig) s i q m ser t1 t2 r :
  verify_block_ser feat (cs_keystore s) config m ser = Some r → t1 ∈ cs_gone s →
  cs_workers s !! i = Some (mkCryptoWorker q (Some (CVerifyBlockSer m ser t1 t2)) true) →
  crypto_step feat config (KRun i) s = Panicked.
Proof.
  intros Hr Hg Hw. cbn [crypto_step]. unfold crypto_run. rewrite Hw. cbn [answers]. rewrite Hr. cbn [or_panic after run_steps].
  unfold send_answer. cbn [an_tx an_unwrap]. by rewrite bool_decide_true.
Qed.
