(* ===== verification/Node.v ===== *)
(** The assembled node (src/src/consensus/mod.rs): the state of its tasks, the channels
    between them and one step of any task.  A step takes a message from a channel its
    select loop polls (or a timer, or a message from the server), runs the handler of the
    task, and sends what the handler sent to the channels the node was wired with.  The
    actions of a schedule carry what the step cannot know: whether a timer has elapsed, what
    the storage answered, and what the log server answered to the queries a handler waits
    for.  The state keeps the trace of the steps, from which the theorems are stated. *)

From stdpp Require Import base numbers list gmap strings option.
From S2P Require Import Prelude Types Config Serialize Crypto Staging Pacemaker LogServer ClientReply App Sequencer ForkReceiver Broadcaster Server.

(** * Channels *)

(** One constructor per channel of [mew]. *)
Inductive NodeMsg :=
  | MTx (tx : TxWithAckChanTag)                                          (* batch_proposer *)
  | MProposerCmd (make_new_batches : bool) (leader : string)             (* batch_proposer_command *)
  | MBatch (batch : RawBatch) (replies : list MsgAckChanWithTag)         (* block_maker *)
  | MControl (cmd : BlockSequencerControlCommand)                        (* control_command *)
  | MQc (qc : ProtoQuorumCertificate)                                    (* qc *)
  | MMyBlock (n : Z) (b : CachedBlock)                                   (* block_broadcaster *)
  | MOtherBlock (mf : MultipartFork)                                     (* other_block *)
  | MReplyBatch (hash : HashType) (replies : list MsgAckChanWithTag)     (* client_reply *)
  | MReplyCmd (cmd : ClientReplyCommand)                                 (* client_reply_command *)
  | MBroadcasterCmd (cmd : BlockBroadcasterCommand)                      (* broadcaster_control_command *)
  | MBlock (b : CachedBlock) (ack : StorageAck) (stats : AppendEntriesStats) (final : bool)  (* staging *)
  | MLogServer (cmd : LogServerCommand)                                  (* logserver *)
  | MVote (sender : SenderType) (vote : ProtoVote)                       (* vote *)
  | MViewChange (vc : ProtoViewChange) (sender : SenderType)             (* view_change *)
  | MFromPacemaker (cmd : PacemakerCommand)                              (* pacemaker_cmd *)
  | MToPacemaker (cmd : PacemakerCommand)                                (* pacemaker_cmd2 *)
  | MApp (cmd : AppCommand)                                              (* app *)
  | MForkCmd (cmd : ForkReceiverCommand)                                 (* fork_receiver_command *)
  | MFork (ae : ProtoAppendEntries) (sender : SenderType)                (* fork *)
  | MUnlogged (tx : ProtoTransaction)                                    (* unlogged *)
  | MBackfill (nack : ProtoBackfillNack)                                 (* backfill_request *)
  | MGc (n : Z).                                                         (* gc *)

Inductive Channel :=
  | ChTx | ChProposerCmd | ChBatch | ChControl | ChQc | ChMyBlock | ChOtherBlock | ChReplyBatch | ChReplyCmd | ChBroadcasterCmd | ChBlock
  | ChLogServer | ChVote | ChViewChange | ChFromPacemaker | ChToPacemaker | ChApp | ChForkCmd | ChFork | ChUnlogged | ChBackfill | ChGc.

#[export] Instance channel_eq_dec : EqDecision Channel.
Proof. solve_decision. Defined.

Definition channel_of (m : NodeMsg) : Channel :=
  match m with
  | MTx _ => ChTx
  | MProposerCmd _ _ => ChProposerCmd
  | MBatch _ _ => ChBatch
  | MControl _ => ChControl
  | MQc _ => ChQc
  | MMyBlock _ _ => ChMyBlock
  | MOtherBlock _ => ChOtherBlock
  | MReplyBatch _ _ => ChReplyBatch
  | MReplyCmd _ => ChReplyCmd
  | MBroadcasterCmd _ => ChBroadcasterCmd
  | MBlock _ _ _ _ => ChBlock
  | MLogServer _ => ChLogServer
  | MVote _ _ => ChVote
  | MViewChange _ _ => ChViewChange
  | MFromPacemaker _ => ChFromPacemaker
  | MToPacemaker _ => ChToPacemaker
  | MApp _ => ChApp
  | MForkCmd _ => ChForkCmd
  | MFork _ _ => ChFork
  | MUnlogged _ => ChUnlogged
  | MBackfill _ => ChBackfill
  | MGc _ => ChGc
  end.

(** What leaves the node or goes to a service outside these tasks: the network, the storage
    service, the two-phase commit handler, the timers and the clients. *)
Inductive NodeOut :=
  | OVote (leader : string) (v : ProtoVote)
  | OViewChange (names : list string) (vc : ProtoViewChange) (min_success : Z)
  | ONack (to : string) (nack : ProtoBackfillNack)
  | OBackfill (to : string) (payload : Origin)
  | OAppendEntries (names : list string) (ae : ProtoAppendEntries) (min_success : Z)
  | OStore (b : CachedBlock)
  | OTwoPC (c : TwoPCCommand)
  | OTwoPCPhase (tx : ProtoTransaction)
  | OTimerReset
  | OTimerFire
  | OEnough (b : bool)
  | OQueryReply (m : LogServerMsg)
  | OUnloggedResult (r : ProtoTransactionResult)
  | OReply (m : ClientReplyMsg)
  | OLeader (chan : nat) (r : ProtoClientReply).

Inductive Effect := Send (m : NodeMsg) | Out (o : NodeOut).

Definition sends (es : list Effect) : list NodeMsg := omap (λ e, match e with Send m => Some m | Out _ => None end) es.
Definition outs (es : list Effect) : list NodeOut := omap (λ e, match e with Out o => Some o | Send _ => None end) es.

(** Where the tasks send: the channel ends each was given. *)
Definition route_batch (m : BatchMsg) : list Effect :=
  match m with
  | BmBatch b r => [Send (MBatch b r)]
  | BmUnlogged tx c => [Send (MUnlogged tx); Send (MReplyCmd (UnloggedRequestAck None c))]
  | BmProbe n c => [Send (MReplyCmd (ProbeRequestAck n c))]
  | BmReplyLeader ch r => [Out (OLeader ch r)]
  end.

Definition route_sequencer (m : SequencerMsg) : list Effect :=
  match m with
  | SqClientReply h r => [Send (MReplyBatch h r)]
  | SqBroadcast n b => [Send (MMyBlock n b)]
  end.

Definition route_broadcaster (m : BroadcasterMsg) : list Effect :=
  match m with
  | BbStore b => [Out (OStore b)]
  | BbToStaging b ack stats final => [Send (MBlock b ack stats final)]
  | BbToApp cmd => [Send (MApp cmd)]
  | BbToForkReceiver cmd => [Send (MForkCmd cmd)]
  | BbBroadcast names ae k => [Out (OAppendEntries names ae k)]
  end.

Definition route_staging (m : StagingMsg) : list Effect :=
  match m with
  | ToSequencer c => [Send (MControl c)]
  | Staging.ToForkReceiver c => [Send (MForkCmd c)]
  | ToClientReply CancelAllRequests => [Send (MReplyCmd CrCancelAllRequests)]
  | ToClientReply StopCancelling => [Send (MReplyCmd CrStopCancelling)]
  | ToApp c => [Send (MApp c)]
  | ToBroadcaster c => [Send (MBroadcasterCmd c)]
  | ToLogServer c => [Send (MLogServer c)]
  | Staging.ToBatchProposer b l => [Send (MProposerCmd b l)]
  | ToPacemaker c => [Send (MToPacemaker c)]
  | ToQcTx q => [Send (MQc q)]
  | To2PC c => [Out (OTwoPC c)]
  | SendVote l v => [Out (OVote l v)]
  | BroadcastVC names vc k => [Out (OViewChange names vc k)]
  | TimerReset => [Out OTimerReset]
  | TimerFireNow => [Out OTimerFire]
  end.

Definition route_fork_receiver (m : ForkReceiverMsg) : list Effect :=
  match m with
  | FrForward mf => [Send (MOtherBlock mf)]
  | FrNack to nack => [Out (ONack to nack)]
  end.

Definition route_app (m : AppMsg) : list Effect :=
  match m with
  | AmClientReply cmd => [Send (MReplyCmd cmd)]
  | AmGc n => [Send (MGc n)]
  | AmUnloggedReply r => [Out (OUnloggedResult r)]
  | AmTwoPc tx => [Out (OTwoPCPhase tx)]
  end.

Definition route_client_reply (m : ClientReplyMsg) : list Effect := [Out (OReply m)].

Definition route_log_server (m : LogServerMsg) : list Effect :=
  match m with
  | LsSendBackfill to payload => [Out (OBackfill to payload)]
  | _ => [Out (OQueryReply m)]
  end.

Definition route_pacemaker (m : PacemakerMsg) : list Effect :=
  match m with
  | PmToStaging c => [Send (MFromPacemaker c)]
  | PmSendNack to nack => [Out (ONack to nack)]
  | PmReplyEnough b => [Out (OEnough b)]
  end.

(** What the server hands on: the sending ends of [ConsensusServerContext]. *)
Definition route_server (r : Routed) (chan : nat) : NodeMsg :=
  match r with
  | Server.ToBatchProposer tx tag sender => MTx (tx, mkAckChan chan tag sender)
  | Server.ToForkReceiver ae sender => MFork ae sender
  | ToForkReceiverCommand cmd => MForkCmd cmd
  | ToVoteReceiver sender v => MVote sender v
  | ToViewChangeReceiver vc sender => MViewChange vc sender
  | ToBackfillRequest nack => MBackfill nack
  end.

(** A message of an authenticated peer, as [handle_rpc] hands it on; [None]: nothing is sent. *)
Definition from_server (msg : PayloadMessage) (name : string) (sub_id : Z) (chan : nat) : option NodeMsg :=
  match (dispatch msg (Auth name sub_id)).1 with
  | r :: _ => Some (route_server r chan)
  | [] => None
  end.

(** * Tasks *)

(** A step of a task: the event it took, with what it was answered while handling it, and
    the messages it sent. *)
Inductive TaskStep :=
  | TsBatch (ev : BatchEvent) (es : list BatchMsg)
  | TsSequencer (queued : list ProtoQuorumCertificate) (ev : SequencerEvent) (es : list SequencerMsg)
  | TsBroadcaster (put_block : CachedBlock → StorageAck) (ev : BroadcasterEvent) (es : list BroadcasterMsg)
  | TsStaging (ev : StagingEvent) (es : list StagingMsg)
  | TsForkReceiver (lq : LogQuery) (ev : ForkReceiverEvent) (es : list ForkReceiverMsg)
  | TsApp (ev : AppEvent) (es : list AppMsg)
  | TsClientReply (res_rx : option ProtoTransactionResult) (ev : ClientReplyEvent) (es : list ClientReplyMsg)
  | TsLogServer (bs : BlockStore) (ev : LogServerEvent) (es : list LogServerMsg)
  | TsPacemaker (lq : LogQuery) (ev : PacemakerEvent) (es : list PacemakerMsg).

Definition effects (t : TaskStep) : list Effect :=
  match t with
  | TsBatch _ es => es ≫= route_batch
  | TsSequencer _ _ es => es ≫= route_sequencer
  | TsBroadcaster _ _ es => es ≫= route_broadcaster
  | TsStaging _ es => es ≫= route_staging
  | TsForkReceiver _ _ es => es ≫= route_fork_receiver
  | TsApp _ es => es ≫= route_app
  | TsClientReply _ _ es => es ≫= route_client_reply
  | TsLogServer _ _ es => es ≫= route_log_server
  | TsPacemaker _ _ es => es ≫= route_pacemaker
  end.

(** An entry of the trace: a message from outside, or a step of a task. *)
Inductive Entry := Fed (m : NodeMsg) | Ran (t : TaskStep).

Definition entry_sends (x : Entry) : list NodeMsg := match x with Fed m => [m] | Ran t => sends (effects t) end.
Definition entry_outs (x : Entry) : list NodeOut := match x with Fed _ => [] | Ran t => outs (effects t) end.

(** The tasks whose loop ends when a handler returns an error. *)
Record Halted := mkHalted { h_staging : bool; h_log_server : bool; h_pacemaker : bool }.

Record Node (E : Type) := mkNode {
  nd_batch : BatchProposer;
  nd_sequencer : BlockSequencer;
  nd_broadcaster : BlockBroadcaster;
  nd_staging : Staging;
  nd_fork_receiver : ForkReceiver;
  nd_app : Application E;
  nd_client_reply : ClientReplyHandler;
  nd_log_server : LogServer;
  nd_pacemaker : Pacemaker;
  nd_halted : Halted;
  nd_queue : list NodeMsg;        (* in flight, all channels, in the order of sending *)
  nd_trace : list Entry }.

Arguments mkNode {E}.
Arguments nd_batch {E}.
Arguments nd_sequencer {E}.
Arguments nd_broadcaster {E}.
Arguments nd_staging {E}.
Arguments nd_fork_receiver {E}.
Arguments nd_app {E}.
Arguments nd_client_reply {E}.
Arguments nd_log_server {E}.
Arguments nd_pacemaker {E}.
Arguments nd_halted {E}.
Arguments nd_queue {E}.
Arguments nd_trace {E}.

(** [StorageConfig]; a node runs on RocksDB only. *)
Inductive StorageKind := RocksDBStorage | FileStorageKind.

(** What an action does: a message from the server or a front end, or a task and the branch
    of its select loop. *)
Inductive NodeAct :=
  | AcServer (msg : PayloadMessage) (name : string) (sub_id : Z) (chan : nat)
  | AcFeed (tx : TxWithAckChanTag)
  | AcBatchTx (elapsed : bool) | AcBatchCmd | AcBatchTick
  | AcSeqQcs (k j : nat) | AcSeqTick (k : nat) | AcSeqBatch (k : nat) | AcSeqControl (k : nat)
  | AcBcMyBlock (put_block : CachedBlock → StorageAck) | AcBcOther (put_block : CachedBlock → StorageAck) | AcBcControl
  | AcStTimer (enough : bool) | AcStBlock | AcStVote | AcStPacemaker | AcSt2PC (cmd : EngraftActionAfterFutureDone)
  | AcFrFork (lq : LogQuery) | AcFrCmd (lq : LogQuery)
  | AcAppCmd | AcAppUnlogged (reply_alive : bool) | AcAppCheckpoint | AcAppLogTimer
  | AcCrBatch | AcCrCmd (res_rx : option ProtoTransactionResult)
  | AcLsCmd (bs : BlockStore) | AcLsGc (bs : BlockStore) | AcLsBackfill (bs : BlockStore) | AcLsQuery (bs : BlockStore) (q : LogServerQuery)
  | AcPmViewChange (lq : LogQuery) | AcPmStaging (lq : LogQuery).

(** The first message [f] accepts, and the others. *)
Fixpoint take_first {A} (f : NodeMsg → option A) (q : list NodeMsg) : option (A * list NodeMsg) :=
  match q with
  | [] => None
  | m :: q' =>
      match f m with
      | Some a => Some (a, q')
      | None => '(a, r) ← take_first f q'; Some (a, m :: r)
      end
  end.

(** The first [k] certificates, and the other messages. *)
Fixpoint take_qcs (k : nat) (q : list NodeMsg) : list ProtoQuorumCertificate * list NodeMsg :=
  match k, q with
  | S k', MQc c :: q' => let '(cs, r) := take_qcs k' q' in (c :: cs, r)
  | S _, m :: q' => let '(cs, r) := take_qcs k q' in (cs, m :: r)
  | _, _ => ([], q)
  end.

Section node.
Context `{HashIter, Codec, Ed25519} {E : Type} `{AppEngine E}.
Context (feat : Features) (cfg : Config) (ks : KeyStore) (evil : option EvilConfig) (node_infos : string).
Implicit Types s : Node E.

(** [mew]: [None] is a panic. *)
Definition node_new (storage : StorageKind) : option (Node E) :=
  if (num_crypto_workers (consensus_config cfg) =? 0)%nat then None else
  match storage with
  | FileStorageKind => None
  | RocksDBStorage =>
      bp ← batch_proposer_new feat cfg;
      Some (mkNode bp (sequencer_new feat) broadcaster_new (staging_new feat) (fork_receiver_new feat)
        (mkApplication (eng_new cfg) (stats_new feat default_hash)) client_reply_new logserver_new pacemaker_new
        (mkHalted false false false) [] [])
  end.

(** The loop of the sequencer empties the certificate channel first. *)
Definition takes_qcs (s : BlockSequencer) : bool :=
  negb (no_qc feat) && (negb (no_pipeline feat) || (length (current_qc_list s) =? 0)%nat).

Definition poll_sequencer (k : nat) (f : list NodeMsg → option (SequencerEvent * list NodeMsg)) (s : Node E)
    : option (list ProtoQuorumCertificate * SequencerEvent * list NodeMsg) :=
  let '(queued, q) := if takes_qcs (nd_sequencer s) then take_qcs k (nd_queue s) else ([], nd_queue s) in
  '(ev, q') ← f q;
  Some (queued, ev, q').

(** What a step leaves: the rest [q] of the messages, followed by what it sent. *)
Definition recorded (t : TaskStep) (q : list NodeMsg) (s : Node E) : Node E :=
  mkNode (nd_batch s) (nd_sequencer s) (nd_broadcaster s) (nd_staging s) (nd_fork_receiver s) (nd_app s)
    (nd_client_reply s) (nd_log_server s) (nd_pacemaker s) (nd_halted s) (q ++ sends (effects t)) (nd_trace s ++ [Ran t]).

Definition feed (m : NodeMsg) (s : Node E) : Node E :=
  mkNode (nd_batch s) (nd_sequencer s) (nd_broadcaster s) (nd_staging s) (nd_fork_receiver s) (nd_app s)
    (nd_client_reply s) (nd_log_server s) (nd_pacemaker s) (nd_halted s) (nd_queue s ++ [m]) (nd_trace s ++ [Fed m]).

(** One iteration of each task, on an event. *)
Definition run_batch (ev : BatchEvent) (q : list NodeMsg) (s : Node E) : Outcome (Node E) :=
  match batch_worker cfg node_infos ev (nd_batch s) with
  | Some (_, x, es) =>
      Next (recorded (TsBatch ev es) q
        (mkNode x (nd_sequencer s) (nd_broadcaster s) (nd_staging s) (nd_fork_receiver s) (nd_app s)
          (nd_client_reply s) (nd_log_server s) (nd_pacemaker s) (nd_halted s) (nd_queue s) (nd_trace s)))
  | None => Panicked
  end.

Definition run_sequencer (queued : list ProtoQuorumCertificate) (ev : SequencerEvent) (q : list NodeMsg) (s : Node E)
    : Outcome (Node E) :=
  match sequencer_worker feat cfg ks queued ev (nd_sequencer s) with
  | Some (_, x, es) =>
      Next (recorded (TsSequencer queued ev es) q
        (mkNode (nd_batch s) x (nd_broadcaster s) (nd_staging s) (nd_fork_receiver s) (nd_app s)
          (nd_client_reply s) (nd_log_server s) (nd_pacemaker s) (nd_halted s) (nd_queue s) (nd_trace s)))
  | None => Panicked
  end.

Definition run_broadcaster (put_block : CachedBlock → StorageAck) (ev : BroadcasterEvent) (q : list NodeMsg) (s : Node E)
    : Outcome (Node E) :=
  match broadcaster_worker feat cfg ks evil put_block ev (nd_broadcaster s) with
  | Some (_, x, es) =>
      Next (recorded (TsBroadcaster put_block ev es) q
        (mkNode (nd_batch s) (nd_sequencer s) x (nd_staging s) (nd_fork_receiver s) (nd_app s)
          (nd_client_reply s) (nd_log_server s) (nd_pacemaker s) (nd_halted s) (nd_queue s) (nd_trace s)))
  | None => Panicked
  end.

Definition run_staging (ev : StagingEvent) (q : list NodeMsg) (s : Node E) : Outcome (Node E) :=
  if h_staging (nd_halted s) then Blocked else
  match worker feat cfg ks ev (nd_staging s) with
  | Some (r, x, es) =>
      Next (recorded (TsStaging ev es) q
        (mkNode (nd_batch s) (nd_sequencer s) (nd_broadcaster s) x (nd_fork_receiver s) (nd_app s)
          (nd_client_reply s) (nd_log_server s) (nd_pacemaker s)
          (mkHalted (bool_decide (r = RErr)) (h_log_server (nd_halted s)) (h_pacemaker (nd_halted s))) (nd_queue s) (nd_trace s)))
  | None => Panicked
  end.

Definition run_fork_receiver (lq : LogQuery) (ev : ForkReceiverEvent) (q : list NodeMsg) (s : Node E) : Outcome (Node E) :=
  if negb (fr_enabled (nd_fork_receiver s) ev) then Blocked else
  match fork_receiver_worker feat cfg ks ev (nd_fork_receiver s) with
  | Some (_, x, es) =>
      Next (recorded (TsForkReceiver lq ev es) q
        (mkNode (nd_batch s) (nd_sequencer s) (nd_broadcaster s) (nd_staging s) x (nd_app s)
          (nd_client_reply s) (nd_log_server s) (nd_pacemaker s) (nd_halted s) (nd_queue s) (nd_trace s)))
  | None => Panicked
  end.

Definition run_app (ev : AppEvent) (q : list NodeMsg) (s : Node E) : Outcome (Node E) :=
  match app_worker feat ev (nd_app s) with
  | Some (_, x, es) =>
      Next (recorded (TsApp ev es) q
        (mkNode (nd_batch s) (nd_sequencer s) (nd_broadcaster s) (nd_staging s) (nd_fork_receiver s) x
          (nd_client_reply s) (nd_log_server s) (nd_pacemaker s) (nd_halted s) (nd_queue s) (nd_trace s)))
  | None => Panicked
  end.

(** The result of an unlogged request reaches its client through a channel of its own. *)
Definition resolved_event (res_rx : option ProtoTransactionResult) (ev : ClientReplyEvent) : ClientReplyEvent :=
  match ev with CrEvCommand (UnloggedRequestAck _ c) => CrEvCommand (UnloggedRequestAck res_rx c) | _ => ev end.

Definition run_client_reply (res_rx : option ProtoTransactionResult) (ev : ClientReplyEvent) (q : list NodeMsg) (s : Node E)
    : Outcome (Node E) :=
  match client_reply_worker node_infos (resolved_event res_rx ev) (nd_client_reply s) with
  | Some (_, x, es) =>
      Next (recorded (TsClientReply res_rx ev es) q
        (mkNode (nd_batch s) (nd_sequencer s) (nd_broadcaster s) (nd_staging s) (nd_fork_receiver s) (nd_app s)
          x (nd_log_server s) (nd_pacemaker s) (nd_halted s) (nd_queue s) (nd_trace s)))
  | None => Panicked
  end.

Definition run_log_server (bs : BlockStore) (ev : LogServerEvent) (q : list NodeMsg) (s : Node E) : Outcome (Node E) :=
  if h_log_server (nd_halted s) then Blocked else
  match logserver_worker ev (nd_log_server s) with
  | Some (r, x, es) =>
      Next (recorded (TsLogServer bs ev es) q
        (mkNode (nd_batch s) (nd_sequencer s) (nd_broadcaster s) (nd_staging s) (nd_fork_receiver s) (nd_app s)
          (nd_client_reply s) x (nd_pacemaker s)
          (mkHalted (h_staging (nd_halted s)) (bool_decide (r = RErr)) (h_pacemaker (nd_halted s))) (nd_queue s) (nd_trace s)))
  | None => Panicked
  end.

Definition run_pacemaker (lq : LogQuery) (ev : PacemakerEvent) (q : list NodeMsg) (s : Node E) : Outcome (Node E) :=
  if h_pacemaker (nd_halted s) then Blocked else
  match pacemaker_worker feat cfg ev (nd_pacemaker s) with
  | Some (r, x, es) =>
      Next (recorded (TsPacemaker lq ev es) q
        (mkNode (nd_batch s) (nd_sequencer s) (nd_broadcaster s) (nd_staging s) (nd_fork_receiver s) (nd_app s)
          (nd_client_reply s) (nd_log_server s) x
          (mkHalted (h_staging (nd_halted s)) (h_log_server (nd_halted s)) (bool_decide (r = RErr))) (nd_queue s) (nd_trace s)))
  | None => Panicked
  end.

(** [recv] on one channel, then [f]. *)
Definition polled {A} (sel : NodeMsg → option A) (s : Node E) (f : A → list NodeMsg → Outcome (Node E)) : Outcome (Node E) :=
  match take_first sel (nd_queue s) with
  | Some (a, q) => f a q
  | None => Blocked
  end.

Definition polled_seq {A} (k : nat) (sel : NodeMsg → option A) (ev : A → SequencerEvent) (s : Node E) : Outcome (Node E) :=
  match poll_sequencer k (λ q, '(a, q') ← take_first sel q; Some (ev a, q')) s with
  | Some (queued, ev, q) => run_sequencer queued ev q s
  | None => Blocked
  end.

Definition node_step (a : NodeAct) (s : Node E) : Outcome (Node E) :=
  match a with
  | AcServer msg name sub_id chan =>
      match from_server msg name sub_id chan with Some m => Next (feed m s) | None => Blocked end
  | AcFeed tx => Next (feed (MTx tx) s)
  | AcBatchTx elapsed => polled (λ m, match m with MTx tx => Some (BpTx tx elapsed) | _ => None end) s (λ ev q, run_batch ev q s)
  | AcBatchCmd => polled (λ m, match m with MProposerCmd b l => Some (BpCommand b l) | _ => None end) s (λ ev q, run_batch ev q s)
  | AcBatchTick => run_batch BpTick (nd_queue s) s
  | AcSeqQcs k j =>
      match poll_sequencer k (λ q, match take_qcs j q with
                                   | ([], _) => None
                                   | (qcs, q') => Some (SqQcs qcs, q')
                                   end) s with
      | Some (queued, ev, q) => run_sequencer queued ev q s
      | None => Blocked
      end
  | AcSeqTick k =>
      match poll_sequencer k (λ q, Some (SqTick, q)) s with
      | Some (queued, ev, q) => run_sequencer queued ev q s
      | None => Blocked
      end
  | AcSeqBatch k => polled_seq k (λ m, match m with MBatch b r => Some (b, r) | _ => None end) (λ x, SqBatch x.1 x.2) s
  | AcSeqControl k => polled_seq k (λ m, match m with MControl c => Some c | _ => None end) SqControl s
  | AcBcMyBlock put =>
      polled (λ m, match m with MMyBlock n b => Some (BbEvMyBlock n (Some b)) | _ => None end) s (λ ev q, run_broadcaster put ev q s)
  | AcBcOther put =>
      polled (λ m, match m with MOtherBlock mf => Some (BbEvOtherBlock mf) | _ => None end) s (λ ev q, run_broadcaster put ev q s)
  | AcBcControl =>
      polled (λ m, match m with MBroadcasterCmd c => Some (BbEvControl c) | _ => None end) s
        (λ ev q, run_broadcaster (λ _, None) ev q s)
  | AcStTimer enough => run_staging (EvTimer enough) (nd_queue s) s
  | AcStBlock =>
      polled (λ m, match m with MBlock b ack stats final => Some (EvBlock b ack stats final) | _ => None end) s (λ ev q, run_staging ev q s)
  | AcStVote => polled (λ m, match m with MVote sd v => Some (EvVote sd v) | _ => None end) s (λ ev q, run_staging ev q s)
  | AcStPacemaker => polled (λ m, match m with MFromPacemaker c => Some (EvPacemaker c) | _ => None end) s (λ ev q, run_staging ev q s)
  | AcSt2PC cmd => if extra_2pc feat then run_staging (Ev2PC cmd) (nd_queue s) s else Blocked
  | AcFrFork lq => polled (λ m, match m with MFork ae sd => Some (FrEvFork ae sd) | _ => None end) s (λ ev q, run_fork_receiver lq ev q s)
  | AcFrCmd lq => polled (λ m, match m with MForkCmd c => Some (FrEvCommand c) | _ => None end) s (λ ev q, run_fork_receiver lq ev q s)
  | AcAppCmd => polled (λ m, match m with MApp c => Some (AppEvStaging c) | _ => None end) s (λ ev q, run_app ev q s)
  | AcAppUnlogged alive => polled (λ m, match m with MUnlogged tx => Some (AppEvUnlogged tx alive) | _ => None end) s (λ ev q, run_app ev q s)
  | AcAppCheckpoint => run_app AppEvCheckpoint (nd_queue s) s
  | AcAppLogTimer => run_app AppEvLogTimer (nd_queue s) s
  | AcCrBatch =>
      polled (λ m, match m with MReplyBatch h r => Some (CrEvBatch (Some h) r) | _ => None end) s (λ ev q, run_client_reply None ev q s)
  | AcCrCmd res_rx =>
      polled (λ m, match m with MReplyCmd c => Some (CrEvCommand c) | _ => None end) s (λ ev q, run_client_reply res_rx ev q s)
  | AcLsCmd bs => polled (λ m, match m with MLogServer c => Some (LsCmd c) | _ => None end) s (λ ev q, run_log_server bs ev q s)
  | AcLsGc bs => polled (λ m, match m with MGc n => Some (LsGc n) | _ => None end) s (λ ev q, run_log_server bs ev q s)
  | AcLsBackfill bs => polled (λ m, match m with MBackfill r => Some (LsBackfill r) | _ => None end) s (λ ev q, run_log_server bs ev q s)
  | AcLsQuery bs qu => run_log_server bs (LsQuery qu) (nd_queue s) s
  | AcPmViewChange lq =>
      polled (λ m, match m with MViewChange vc sd => Some (PmEvViewChange vc sd) | _ => None end) s (λ ev q, run_pacemaker lq ev q s)
  | AcPmStaging lq => polled (λ m, match m with MToPacemaker c => Some (PmEvStaging c) | _ => None end) s (λ ev q, run_pacemaker lq ev q s)
  end.

Definition node_run : list NodeAct → Node E → Outcome (Node E) := run_steps node_step.

(** * What a step is *)

(** The messages the event of a step stands for. *)
Definition received (t : TaskStep) : list NodeMsg :=
  match t with
  | TsBatch (BpTx tx _) _ => [MTx tx]
  | TsBatch (BpCommand b l) _ => [MProposerCmd b l]
  | TsBatch BpTick _ => []
  | TsSequencer queued ev _ =>
      map MQc queued ++ match ev with
                        | SqQcs qcs => map MQc qcs
                        | SqTick => []
                        | SqBatch b r => [MBatch b r]
                        | SqControl c => [MControl c]
                        end
  | TsBroadcaster _ (BbEvMyBlock n (Some b)) _ => [MMyBlock n b]
  | TsBroadcaster _ (BbEvMyBlock _ None) _ => []
  | TsBroadcaster _ (BbEvOtherBlock mf) _ => [MOtherBlock mf]
  | TsBroadcaster _ (BbEvControl c) _ => [MBroadcasterCmd c]
  | TsStaging (EvBlock b ack stats final) _ => [MBlock b ack stats final]
  | TsStaging (EvVote sd v) _ => [MVote sd v]
  | TsStaging (EvPacemaker c) _ => [MFromPacemaker c]
  | TsStaging _ _ => []
  | TsForkReceiver _ (FrEvFork ae sd) _ => [MFork ae sd]
  | TsForkReceiver _ (FrEvCommand c) _ => [MForkCmd c]
  | TsApp (AppEvStaging c) _ => [MApp c]
  | TsApp (AppEvUnlogged tx _) _ => [MUnlogged tx]
  | TsApp _ _ => []
  | TsClientReply _ (CrEvBatch (Some h) r) _ => [MReplyBatch h r]
  | TsClientReply _ (CrEvBatch None _) _ => []
  | TsClientReply _ (CrEvCommand c) _ => [MReplyCmd c]
  | TsLogServer _ (LsCmd c) _ => [MLogServer c]
  | TsLogServer _ (LsGc n) _ => [MGc n]
  | TsLogServer _ (LsBackfill r) _ => [MBackfill r]
  | TsLogServer _ (LsQuery _) _ => []
  | TsPacemaker _ (PmEvViewChange vc sd) _ => [MViewChange vc sd]
  | TsPacemaker _ (PmEvStaging c) _ => [MToPacemaker c]
  end.

(** The handler of the step, and that it leaves the other tasks alone. *)
Definition task_ran (t : TaskStep) (s s' : Node E) : Prop :=
  match t with
  | TsBatch ev es => batch_worker cfg node_infos ev (nd_batch s) = Some (tt, nd_batch s', es)
  | _ => nd_batch s' = nd_batch s
  end ∧
  match t with
  | TsSequencer queued ev es => sequencer_worker feat cfg ks queued ev (nd_sequencer s) = Some (tt, nd_sequencer s', es)
  | _ => nd_sequencer s' = nd_sequencer s
  end ∧
  match t with
  | TsBroadcaster put ev es => broadcaster_worker feat cfg ks evil put ev (nd_broadcaster s) = Some (tt, nd_broadcaster s', es)
  | _ => nd_broadcaster s' = nd_broadcaster s
  end ∧
  match t with
  | TsStaging ev es => ∃ r, worker feat cfg ks ev (nd_staging s) = Some (r, nd_staging s', es)
  | _ => nd_staging s' = nd_staging s
  end ∧
  match t with
  | TsForkReceiver lq ev es => fr_enabled (nd_fork_receiver s) ev = true ∧
      fork_receiver_worker feat cfg ks ev (nd_fork_receiver s) = Some (tt, nd_fork_receiver s', es)
  | _ => nd_fork_receiver s' = nd_fork_receiver s
  end ∧
  match t with
  | TsApp ev es => app_worker feat ev (nd_app s) = Some (tt, nd_app s', es)
  | _ => nd_app s' = nd_app s
  end ∧
  match t with
  | TsClientReply res_rx ev es =>
      client_reply_worker node_infos (resolved_event res_rx ev) (nd_client_reply s) = Some (tt, nd_client_reply s', es)
  | _ => nd_client_reply s' = nd_client_reply s
  end ∧
  match t with
  | TsLogServer bs ev es => ∃ r, logserver_worker ev (nd_log_server s) = Some (r, nd_log_server s', es)
  | _ => nd_log_server s' = nd_log_server s
  end ∧
  match t with
  | TsPacemaker lq ev es => ∃ r, pacemaker_worker feat cfg ev (nd_pacemaker s) = Some (r, nd_pacemaker s', es)
  | _ => nd_pacemaker s' = nd_pacemaker s
  end.

(** A step of the node is a message from outside, or a step of one task. *)
Definition fed (a : NodeAct) : option NodeMsg :=
  match a with
  | AcServer msg name sub_id chan => from_server msg name sub_id chan
  | AcFeed tx => Some (MTx tx)
  | _ => None
  end.

End node.

(** * Channels *)

(** Messages leave a queue from the front of their channel. *)
Inductive leaves : list NodeMsg → list NodeMsg → list NodeMsg → Prop :=
  | leaves_none q : leaves [] q q
  | leaves_one l1 m l2 ms q :
      Forall (λ m', channel_of m' ≠ channel_of m) l1 → leaves ms (l1 ++ l2) q → leaves (m :: ms) (l1 ++ m :: l2) q.

Lemma leaves_perm ms q q' : leaves ms q q' → q ≡ₚ ms ++ q'.
Proof. induction 1 as [|l1 m l2 ms q _ _ IH]; [done|]. cbn. by rewrite <- IH, Permutation_middle. Qed.

Definition on_channel (c : Channel) (q : list NodeMsg) : list NodeMsg := filter (λ m, channel_of m = c) q.

Lemma on_channel_app c q1 q2 : on_channel c (q1 ++ q2) = on_channel c q1 ++ on_channel c q2.
Proof. apply list.filter_app. Qed.

Lemma on_channel_none c m l : channel_of m = c → Forall (λ m', channel_of m' ≠ channel_of m) l → on_channel c l = [].
Proof. intros <- Hl. unfold on_channel. induction Hl as [|m' l Hm' _ IH]; [done|]. by rewrite filter_cons_False. Qed.

Lemma leaves_fifo c ms q q' : leaves ms q q' → on_channel c q = on_channel c ms ++ on_channel c q'.
Proof.
  induction 1 as [|l1 m l2 ms q Hl1 _ IH]; [done|]. rewrite on_channel_app in *. unfold on_channel at 2 3.
  destruct (decide (channel_of m = c)) as [Hm|Hm].
  - rewrite !filter_cons_True by done. rewrite (on_channel_none c m l1 Hm Hl1) in *. cbn in *. by f_equal.
  - by rewrite !filter_cons_False.
Qed.

Lemma leaves_skip m ms q q' : Forall (λ x, channel_of x ≠ channel_of m) ms → leaves ms q q' → leaves ms (m :: q) (m :: q').
Proof.
  intros Hms Hl. induction Hl as [|l1 x l2 ms q Hl1 _ IH]; [constructor|]. apply list.Forall_cons in Hms as [Hx Hms].
  apply (leaves_one (m :: l1)); [constructor; [by intros ?|done]|by apply IH].
Qed.

Lemma leaves_app ms1 ms2 q q1 q2 : leaves ms1 q q1 → leaves ms2 q1 q2 → leaves (ms1 ++ ms2) q q2.
Proof. induction 1; intros Hl; cbn; [done|]. constructor; auto. Qed.

Lemma take_first_leaves {A} (f : NodeMsg → option A) (c : Channel) q a q' :
  (∀ m, is_Some (f m) ↔ channel_of m = c) → take_first f q = Some (a, q') → ∃ m, f m = Some a ∧ leaves [m] q q'.
Proof.
  intros Hf. revert q'. induction q as [|m q IH]; intros q'; [done|]. cbn. destruct (f m) as [x|] eqn:Hm.
  - intros [= -> ->]. exists m. split; [done|]. by apply (leaves_one []); [|constructor].
  - intros ([x r] & Ht & [= -> <-])%bind_Some. destruct (IH r Ht) as (m' & Hm' & Hl). exists m'. split; [done|].
    apply leaves_skip; [|done]. constructor; [|done]. intros Heq.
    assert (is_Some (f m)) as [y Hy]; [|by rewrite Hm in Hy]. apply Hf. rewrite <- Heq. apply Hf. by eexists.
Qed.

Lemma take_qcs_leaves k q cs q' : take_qcs k q = (cs, q') → leaves (map MQc cs) q q'.
Proof.
  revert k cs q'. induction q as [|m q IH]; intros [|k] cs q' Ht; cbn in Ht; simplify_eq; try constructor.
  assert (∀ n cs r, take_qcs n q = (cs, r) → channel_of m ≠ ChQc → leaves (map MQc cs) (m :: q) (m :: r)) as Hskip.
  { intros n cs0 r Hn Hm. apply leaves_skip; [|by eapply IH]. apply list.Forall_forall.
    intros x (c & <- & _)%list_elem_of_In%in_map_iff. by intros Heq. }
  destruct m; try (destruct (take_qcs (S k) q) as [cs0 r] eqn:Hn; simplify_eq; by eapply Hskip).
  destruct (take_qcs k q) as [cs0 r] eqn:Hn. simplify_eq. cbn. apply (leaves_one []); [done|]. by eapply IH.
Qed.

(** * Every step is the step of one task *)

Section steps.
Context `{HIt : HashIter, HC : Codec, HE : Ed25519} {E : Type} `{HA : AppEngine E}.
Context (feat : Features) (cfg : Config) (ks : KeyStore) (evil : option EvilConfig) (node_infos : string).
Implicit Types s : Node E.

(** A task ran on an event, with [q] the messages left. *)
Definition ran (t : TaskStep) (q : list NodeMsg) (s s' : Node E) : Prop :=
  task_ran feat cfg ks evil node_infos t s s' ∧ nd_queue s' = q ++ sends (effects t) ∧ nd_trace s' = nd_trace s ++ [Ran t].

Lemma run_batch_inv ev q s s' : run_batch cfg node_infos ev q s = Next s' → ∃ es, ran (TsBatch ev es) q s s'.
Proof.
  unfold run_batch. destruct (batch_worker _ _ _ _) as [[[[] x] es]|] eqn:Hw; [|done]. intros [= <-].
  exists es. by split_and!.
Qed.

Lemma run_sequencer_inv queued ev q s s' :
  run_sequencer feat cfg ks queued ev q s = Next s' → ∃ es, ran (TsSequencer queued ev es) q s s'.
Proof.
  unfold run_sequencer. destruct (sequencer_worker _ _ _ _ _ _) as [[[[] x] es]|] eqn:Hw; [|done]. intros [= <-].
  exists es. by split_and!.
Qed.

Lemma run_broadcaster_inv put ev q s s' :
  run_broadcaster feat cfg ks evil put ev q s = Next s' → ∃ es, ran (TsBroadcaster put ev es) q s s'.
Proof.
  unfold run_broadcaster. destruct (broadcaster_worker _ _ _ _ _ _ _) as [[[[] x] es]|] eqn:Hw; [|done]. intros [= <-].
  exists es. by split_and!.
Qed.

Lemma run_staging_inv ev q s s' : run_staging feat cfg ks ev q s = Next s' → ∃ es, ran (TsStaging ev es) q s s'.
Proof.
  unfold run_staging. destruct (h_staging _); [done|]. destruct (worker _ _ _ _ _) as [[[r x] es]|] eqn:Hw; [|done]. intros [= <-].
  exists es. split; [|done]. unfold task_ran. cbn. split_and!; try done. by exists r.
Qed.

Lemma run_fork_receiver_inv lq ev q s s' :
  run_fork_receiver feat cfg ks lq ev q s = Next s' → ∃ es, ran (TsForkReceiver lq ev es) q s s'.
Proof.
  unfold run_fork_receiver. destruct (fr_enabled _ _) eqn:He; [|done]. cbn [negb].
  destruct (fork_receiver_worker _ _ _ _ _) as [[[[] x] es]|] eqn:Hw; [|done]. intros [= <-].
  exists es. by split_and!.
Qed.

Lemma run_app_inv ev q s s' : run_app feat ev q s = Next s' → ∃ es, ran (TsApp ev es) q s s'.
Proof.
  unfold run_app. destruct (app_worker _ _ _) as [[[[] x] es]|] eqn:Hw; [|done]. intros [= <-]. exists es. by split_and!.
Qed.

Lemma run_client_reply_inv res ev q s s' :
  run_client_reply node_infos res ev q s = Next s' → ∃ es, ran (TsClientReply res ev es) q s s'.
Proof.
  unfold run_client_reply. destruct (client_reply_worker _ _ _) as [[[[] x] es]|] eqn:Hw; [|done]. intros [= <-].
  exists es. by split_and!.
Qed.

Lemma run_log_server_inv bs ev q s s' : run_log_server bs ev q s = Next s' → ∃ es, ran (TsLogServer bs ev es) q s s'.
Proof.
  unfold run_log_server. destruct (h_log_server _); [done|]. destruct (logserver_worker _ _) as [[[r x] es]|] eqn:Hw; [|done].
  intros [= <-]. exists es. split; [|done]. unfold task_ran. cbn. split_and!; try done. by exists r.
Qed.

Lemma run_pacemaker_inv lq ev q s s' : run_pacemaker feat cfg lq ev q s = Next s' → ∃ es, ran (TsPacemaker lq ev es) q s s'.
Proof.
  unfold run_pacemaker. destruct (h_pacemaker _); [done|]. destruct (pacemaker_worker _ _ _ _) as [[[r x] es]|] eqn:Hw; [|done].
  intros [= <-]. exists es. split; [|done]. unfold task_ran. cbn. split_and!; try done. by exists r.
Qed.

Lemma polled_inv {A} (sel : NodeMsg → option A) (c : Channel) s f s' :
  (∀ m, is_Some (sel m) ↔ channel_of m = c) → polled sel s f = Next s' →
  ∃ m a q, sel m = Some a ∧ leaves [m] (nd_queue s) q ∧ f a q = Next s'.
Proof.
  intros Hsel. unfold polled. destruct (take_first sel (nd_queue s)) as [[a q]|] eqn:Ht; [|done]. intros Hf.
  destruct (take_first_leaves _ _ _ _ _ Hsel Ht) as (m & Hm & Hl). by exists m, a, q.
Qed.

(** The certificates taken first, and then the event. *)
Lemma poll_sequencer_inv k f s queued ev q :
  poll_sequencer feat k f s = Some (queued, ev, q) → ∃ q1, leaves (map MQc queued) (nd_queue s) q1 ∧ f q1 = Some (ev, q).
Proof.
  unfold poll_sequencer. destruct (takes_qcs feat (nd_sequencer s)).
  - destruct (take_qcs k (nd_queue s)) as [cs q1] eqn:Hq. intros ([ev' q'] & Hf & [= -> -> ->])%bind_Some.
    exists q1. split; [by eapply take_qcs_leaves|done].
  - intros ([ev' q'] & Hf & [= <- -> ->])%bind_Some. exists (nd_queue s). split; [constructor|done].
Qed.

Lemma polled_seq_inv {A} k (sel : NodeMsg → option A) (c : Channel) ev s s' :
  (∀ m, is_Some (sel m) ↔ channel_of m = c) → polled_seq feat cfg ks k sel ev s = Next s' →
  ∃ m a queued q, sel m = Some a ∧ leaves (map MQc queued ++ [m]) (nd_queue s) q ∧
    run_sequencer feat cfg ks queued (ev a) q s = Next s'.
Proof.
  intros Hsel. unfold polled_seq. destruct (poll_sequencer _ _ _ _) as [[[queued ev'] q]|] eqn:Hp; [|done]. intros Hrun.
  apply poll_sequencer_inv in Hp as (q1 & Hq & ([a q2] & Ht & [= <- <-])%bind_Some).
  destruct (take_first_leaves _ _ _ _ _ Hsel Ht) as (m & Hm & Hl). exists m, a, queued, q2.
  split_and!; [done| |done]. by eapply leaves_app.
Qed.

Definition moved (s s' : Node E) : Prop := ∃ t q, leaves (received t) (nd_queue s) q ∧ ran t q s s'.

Local Ltac selects := intros []; cbn; split; first [done | by intros [? ?] | by eexists].
Local Ltac receive c lem :=
  intros Hs; apply (polled_inv _ c) in Hs as (m & ev & q & Hm & Hl & Hr); [|selects];
  destruct m; try discriminate Hm; injection Hm as <-; apply lem in Hr as [es Hr]; eexists _, q; split; [|exact Hr]; exact Hl.
Local Ltac spontaneous lem :=
  intros Hr; apply lem in Hr as [es Hr]; eexists _, _; split; [|exact Hr]; constructor.
Local Ltac receive_seq c :=
  intros Hs; apply (polled_seq_inv _ _ c) in Hs as (m & x & queued & q & Hm & Hl & Hr); [|selects];
  destruct m; try discriminate Hm; injection Hm as <-; apply run_sequencer_inv in Hr as [es Hr]; eexists _, q; split; [|exact Hr]; exact Hl.

Lemma node_step_qcs k j s s' : node_step feat cfg ks evil node_infos (AcSeqQcs k j) s = Next s' → moved s s'.
Proof.
  cbn [node_step]. destruct (poll_sequencer _ _ _ _) as [[[queued ev] q]|] eqn:Hp; [|done]. intros [es Hr]%run_sequencer_inv.
  apply poll_sequencer_inv in Hp as (q1 & Hq & Ht). destruct (take_qcs j q1) as [[|c cs] q2] eqn:Hj; [done|].
  injection Ht as <- <-. eexists _, _. split; [|exact Hr]. cbn [received]. eapply leaves_app; [exact Hq|]. by eapply take_qcs_leaves.
Qed.

Lemma node_step_tick k s s' : node_step feat cfg ks evil node_infos (AcSeqTick k) s = Next s' → moved s s'.
Proof.
  cbn [node_step]. destruct (poll_sequencer _ _ _ _) as [[[queued ev] q]|] eqn:Hp; [|done]. intros [es Hr]%run_sequencer_inv.
  apply poll_sequencer_inv in Hp as (q1 & Hq & [= <- <-]). eexists _, _. split; [|exact Hr]. cbn [received]. by rewrite app_nil_r.
Qed.

(** A step of the node is a message from outside, or the step of one task on messages from
    the front of its channels. *)
Lemma node_step_inv a s s' :
  node_step feat cfg ks evil node_infos a s = Next s' →
  match fed a with Some m => s' = feed m s | None => moved s s' end.
Proof.
  destruct a; cbn [fed]; try (by apply node_step_qcs); try (by apply node_step_tick); cbn [node_step].
  - destruct (from_server _ _ _ _); [by intros [= <-]|done].
  - by intros [= <-].
  - receive ChTx run_batch_inv.
  - receive ChProposerCmd run_batch_inv.
  - spontaneous run_batch_inv.
  - receive_seq ChBatch.
  - receive_seq ChControl.
  - receive ChMyBlock run_broadcaster_inv.
  - receive ChOtherBlock run_broadcaster_inv.
  - receive ChBroadcasterCmd run_broadcaster_inv.
  - spontaneous run_staging_inv.
  - receive ChBlock run_staging_inv.
  - receive ChVote run_staging_inv.
  - receive ChFromPacemaker run_staging_inv.
  - destruct (extra_2pc feat); [|done]. spontaneous run_staging_inv.
  - receive ChFork run_fork_receiver_inv.
  - receive ChForkCmd run_fork_receiver_inv.
  - receive ChApp run_app_inv.
  - receive ChUnlogged run_app_inv.
  - spontaneous run_app_inv.
  - spontaneous run_app_inv.
  - receive ChReplyBatch run_client_reply_inv.
  - receive ChReplyCmd run_client_reply_inv.
  - receive ChLogServer run_log_server_inv.
  - receive ChGc run_log_server_inv.
  - receive ChBackfill run_log_server_inv.
  - spontaneous run_log_server_inv.
  - receive ChViewChange run_pacemaker_inv.
  - receive ChToPacemaker run_pacemaker_inv.
Qed.

End steps.
