(* ===== verification/NodeTheorems.v ===== *)
(** Theorems on the assembled node of Node.v, under every interleaving of its tasks: the
    node is its tasks and first-in-first-out channels; no client request is lost or answered
    twice on its way through the batch proposer, the sequencer and the client reply task. *)

From stdpp Require Import base numbers list gmap strings option.
From S2P Require Import Prelude Types Config Serialize Crypto Staging Pacemaker LogServer ClientReply App Sequencer ForkReceiver Broadcaster Server Node.

(** * Traces *)

Definition entry_received (x : Entry) : list NodeMsg := match x with Fed _ => [] | Ran t => received t end.

Definition sent_on (c : Channel) (tr : list Entry) : list NodeMsg := on_channel c (tr ≫= entry_sends).
Definition received_on (c : Channel) (tr : list Entry) : list NodeMsg := on_channel c (tr ≫= entry_received).

(** A task goes from one state to another through a list of steps. *)
Fixpoint replays {X S : Type} (step : X → S → S → Prop) (l : list X) (s s' : S) : Prop :=
  match l with
  | [] => s' = s
  | x :: l' => ∃ s1, step x s s1 ∧ replays step l' s1 s'
  end.

Lemma replays_snoc {X S : Type} (step : X → S → S → Prop) l x s s1 s' :
  replays step l s s1 → step x s1 s' → replays step (l ++ [x]) s s'.
Proof.
  revert s. induction l as [|y l IH]; cbn; intros s.
  - intros -> Hx. by exists s'.
  - intros (s2 & Hy & Hl) Hx. exists s2. auto.
Qed.

(** The steps of each task in a trace. *)
Definition batch_steps (x : Entry) : option (BatchEvent * list BatchMsg) :=
  match x with Ran (TsBatch ev es) => Some (ev, es) | _ => None end.
Definition sequencer_steps (x : Entry) : option (list ProtoQuorumCertificate * SequencerEvent * list SequencerMsg) :=
  match x with Ran (TsSequencer qs ev es) => Some (qs, ev, es) | _ => None end.
Definition broadcaster_steps (x : Entry) : option ((CachedBlock → StorageAck) * BroadcasterEvent * list BroadcasterMsg) :=
  match x with Ran (TsBroadcaster put ev es) => Some (put, ev, es) | _ => None end.
Definition staging_steps (x : Entry) : option (StagingEvent * list StagingMsg) :=
  match x with Ran (TsStaging ev es) => Some (ev, es) | _ => None end.
Definition fork_receiver_steps (x : Entry) : option (LogQuery * ForkReceiverEvent * list ForkReceiverMsg) :=
  match x with Ran (TsForkReceiver lq ev es) => Some (lq, ev, es) | _ => None end.
Definition app_steps (x : Entry) : option (AppEvent * list AppMsg) :=
  match x with Ran (TsApp ev es) => Some (ev, es) | _ => None end.
Definition client_reply_steps (x : Entry) : option (option ProtoTransactionResult * ClientReplyEvent * list ClientReplyMsg) :=
  match x with Ran (TsClientReply res ev es) => Some (res, ev, es) | _ => None end.
Definition log_server_steps (x : Entry) : option (BlockStore * LogServerEvent * list LogServerMsg) :=
  match x with Ran (TsLogServer bs ev es) => Some (bs, ev, es) | _ => None end.
Definition pacemaker_steps (x : Entry) : option (LogQuery * PacemakerEvent * list PacemakerMsg) :=
  match x with Ran (TsPacemaker lq ev es) => Some (lq, ev, es) | _ => None end.

(** What staging did in a trace. *)
Definition staging_events (tr : list Entry) : list StagingEvent := map fst (omap staging_steps tr).
Definition step_sent (t : TaskStep) : list StagingMsg := match t with TsStaging _ es => es | _ => [] end.
Definition entry_staging (x : Entry) : list StagingMsg := match x with Ran t => step_sent t | Fed _ => [] end.
Definition staging_sent (tr : list Entry) : list StagingMsg := tr ≫= entry_staging.

Lemma staging_sent_steps tr : staging_sent tr = omap staging_steps tr ≫= snd.
Proof. unfold staging_sent. induction tr as [|[m|[]] tr IH]; [done|..]; cbn; by rewrite <- IH. Qed.

(** The part of what is sent that [f] selects. *)
Definition part {B} (f : NodeMsg → option B) (e : Effect) : list B := match e with Send m => option_list (f m) | Out _ => [] end.

Lemma sends_part {B} (f : NodeMsg → option B) es : omap f (sends es) = es ≫= part f.
Proof. unfold sends. induction es as [|[m|o] es IH]; [done| |done]. cbn. rewrite <- IH. by destruct (f m). Qed.

Lemma routed_part {A B} (f : NodeMsg → option B) (route : A → list Effect) es :
  omap f (sends (es ≫= route)) = es ≫= (λ m, route m ≫= part f).
Proof. rewrite sends_part. induction es as [|m es IH]; [done|]. cbn. by rewrite bind_app, IH. Qed.

(** A selection of one channel. *)
Lemma channel_part {B} (f : NodeMsg → option B) c ms :
  (∀ m, is_Some (f m) → channel_of m = c) → omap f (on_channel c ms) = omap f ms.
Proof.
  intros Hf. unfold on_channel. induction ms as [|m ms IH]; [done|]. destruct (decide (channel_of m = c)) as [Hm|Hm].
  - rewrite filter_cons_True by done. cbn. by rewrite IH.
  - rewrite filter_cons_False by done. cbn. rewrite IH. destruct (f m) eqn:Hfm; [|done]. destruct Hm. apply Hf. by rewrite Hfm.
Qed.

Lemma bind_nil {A B} (f : A → list B) l : (∀ x, f x = []) → l ≫= f = [].
Proof. intros Hf. induction l as [|x l IH]; [done|]. cbn. by rewrite Hf, IH. Qed.

(** To the application the broadcaster only reports batches, and to the fork receiver only
    parts it dropped. *)
Section broadcaster_reports.
Context `{HC : Codec, HE : Ed25519} (feat : Features) (cfg : Config) (ks : KeyStore) (evil : option EvilConfig).
Context (put_block : CachedBlock → StorageAck).

Definition only_reports (m : BroadcasterMsg) : bool :=
  match m with
  | BbToApp c => match c with NewRequestBatch _ _ _ _ _ _ => true | _ => false end
  | BbToForkReceiver c => match c with MultipartNack _ => true | _ => false end
  | _ => true
  end.

Definition reporting (_ _ : BlockBroadcaster) (es : list BroadcasterMsg) : Prop := Forall (λ m, only_reports m = true) es.

#[local] Instance reporting_rel : StepRel reporting.
Proof. split; [constructor|]. intros s1 s2 s3 es1 es2. apply Forall_app_2. Qed.

Lemma reporting_final {A} (f : A → bool → M BlockBroadcaster BroadcasterMsg unit) l :
  (∀ x b, steps_by reporting (f x b)) → steps_by reporting (for_final f l).
Proof. intros Hf. induction l as [|x l IH]; cbn [for_final]; [apply (steps_ret reporting)|]. by apply (steps_bind reporting). Qed.

Lemma broadcaster_reports ev : steps_by reporting (broadcaster_worker feat cfg ks evil put_block ev).
Proof.
  destruct ev as [n [b|]|mf|[ci|l]]; cbn [broadcaster_worker bb_handle_control];
    unfold process_my_block, process_other_block, store_and_forward_internally, maybe_act_evil, broadcast_ae_fork;
    stepping reporting ltac:(first [apply reporting_final; intros ? ?|apply (steps_modify reporting); constructor
                                   |apply (steps_emit reporting); by repeat constructor]).
Qed.

(** So a selection that leaves these out gets nothing from it. *)
Lemma broadcaster_part {B} (f : NodeMsg → option B) ev s s' es :
  broadcaster_worker feat cfg ks evil put_block ev s = Some (tt, s', es) →
  (∀ m, only_reports m = true → route_broadcaster m ≫= part f = []) → es ≫= (λ m, route_broadcaster m ≫= part f) = [].
Proof.
  intros Hw Hf. pose proof (broadcaster_reports ev _ _ _ _ Hw) as Hes. clear Hw. unfold reporting in Hes.
  induction Hes as [|m es Hm _ IH]; [done|]. cbn. by rewrite (Hf m Hm), IH.
Qed.

End broadcaster_reports.

Section node_theorems.
Context `{HIt : HashIter, HC : Codec, HE : Ed25519} {E : Type} `{HA : AppEngine E}.
Context (feat : Features) (cfg : Config) (ks : KeyStore) (evil : option EvilConfig) (node_infos : string).
Implicit Types s : Node E.

Abbreviation run_node := (node_run feat cfg ks evil node_infos).
Abbreviation task_moved := (moved feat cfg ks evil node_infos).

(** Induction over the steps of a run. *)
Lemma node_run_ind (P : Node E → Prop) acts s s' :
  (∀ a m s, fed a = Some m → P s → P (feed m s)) → (∀ s s', P s → task_moved s s' → P s') →
  P s → run_node acts s = Next s' → P s'.
Proof.
  intros Hfed Hmoved. revert s. induction acts as [|a acts IH]; intros s Hs; cbn [node_run run_steps]; [by intros [= <-]|].
  destruct (node_step feat cfg ks evil node_infos a s) as [| |s1] eqn:Ha; [done..|]. intros Hr. apply (IH s1); [|done].
  apply node_step_inv in Ha. destruct (fed a) as [m|] eqn:Hf; [subst s1; by eapply Hfed|by eapply Hmoved].
Qed.

(** * Channels are first in, first out *)

Lemma trace_snoc {B} (f : Entry → list B) tr x : (tr ++ [x]) ≫= f = (tr ≫= f) ++ f x.
Proof. rewrite bind_app. cbn. by rewrite app_nil_r. Qed.

(** What was sent on a channel is what was received from it, followed by what is in it. *)
Definition fifo (c : Channel) (s : Node E) : Prop :=
  sent_on c (nd_trace s) = received_on c (nd_trace s) ++ on_channel c (nd_queue s).

Lemma fifo_fed c m s : fifo c s → fifo c (feed m s).
Proof.
  unfold fifo, sent_on, received_on. intros IH. cbn [feed nd_trace nd_queue].
  rewrite !trace_snoc, !on_channel_app, IH. cbn [entry_sends entry_received].
  unfold on_channel at 4. cbn. by rewrite app_nil_r, <- !(assoc_L (++)).
Qed.

Lemma fifo_moved c s s' : fifo c s → task_moved s s' → fifo c s'.
Proof.
  unfold fifo, sent_on, received_on. intros IH (t & q & Hl & _ & Hq & Ht).
  rewrite Ht, Hq, !trace_snoc, !on_channel_app, IH. cbn [entry_sends entry_received].
  by rewrite (leaves_fifo c _ _ _ Hl), <- !(assoc_L (++)).
Qed.

Lemma fifo_run c acts s s' : fifo c s → run_node acts s = Next s' → fifo c s'.
Proof. apply node_run_ind; [intros _ m s1 _; apply fifo_fed|apply fifo_moved]. Qed.

(** What comes from outside comes on the channels of the server. *)
Lemma fed_channel a m :
  fed a = Some m → channel_of m = ChTx ∨ channel_of m = ChViewChange ∨ channel_of m = ChFork ∨ channel_of m = ChVote ∨
    channel_of m = ChBackfill ∨ ∃ ae sender, m = MForkCmd (UseBackfillResponse ae sender).
Proof.
  destruct a; cbn; try done; [|intros [= <-]; by left]. unfold from_server.
  destruct msg as [|ae| | | | |]; cbn; [|destruct (ae_is_backfill_response ae); cbn|..]; intros [= <-]; cbn; eauto 10.
Qed.

(** * Tasks *)

(** What a task does that concerns [g], when nothing from outside and no other task does, is
    what staging sent. *)
Lemma sent_by_staging {B} (f : NodeMsg → option B) (g : list StagingMsg → list B) acts s s' :
  g [] = [] → (∀ es1 es2, g (es1 ++ es2) = g es1 ++ g es2) → (∀ a m, fed a = Some m → f m = None) →
  (∀ t s s', task_ran feat cfg ks evil node_infos t s s' → omap f (sends (effects t)) = g (step_sent t)) →
  nd_trace s = [] → run_node acts s = Next s' → omap f (nd_trace s' ≫= entry_sends) = g (staging_sent (nd_trace s')).
Proof.
  intros Hnil Happ Hfed Hran H0. unfold staging_sent.
  apply (node_run_ind (λ s, omap f (nd_trace s ≫= entry_sends) = g (nd_trace s ≫= entry_staging))); [| |by rewrite H0].
  - intros a m s1 Hf IH. cbn [feed nd_trace]. rewrite !trace_snoc, omap_app, IH, Happ. cbn. by rewrite (Hfed _ _ Hf), Hnil.
  - intros s1 s2 IH (t & q & _ & Ht & _ & Htr). rewrite Htr, !trace_snoc, omap_app, IH, Happ. cbn [entry_sends entry_staging].
    by rewrite (Hran _ _ _ Ht).
Qed.

Lemma projected {X S : Type} (sel : Entry → option X) (get : Node E → S) (step : X → S → S → Prop) acts s s' :
  (∀ m, sel (Fed m) = None) → (∀ m s, get (feed m s) = get s) →
  (∀ t s s', task_ran feat cfg ks evil node_infos t s s' →
    match sel (Ran t) with Some x => step x (get s) (get s') | None => get s' = get s end) →
  nd_trace s = [] → run_node acts s = Next s' → replays step (omap sel (nd_trace s')) (get s) (get s').
Proof.
  intros Hfed Hget Hstep H0. apply (node_run_ind (λ s1, replays step (omap sel (nd_trace s1)) (get s) (get s1))); [| |by rewrite H0].
  - intros a m s1 _ IH. cbn [nd_trace feed]. rewrite omap_app. cbn. by rewrite Hfed, app_nil_r, Hget.
  - intros s1 s2 IH (t & q & _ & Hran & _ & Ht). rewrite Ht, omap_app. cbn. specialize (Hstep t s1 s2 Hran).
    destruct (sel (Ran t)) as [x|]; [by eapply replays_snoc|]. by rewrite app_nil_r, Hstep.
Qed.

(** What each task did in a trace, as a relation between its states. *)
Definition batch_step '(ev, es) (x x' : BatchProposer) : Prop := batch_worker cfg node_infos ev x = Some (tt, x', es).
Definition sequencer_step '(qs, ev, es) (x x' : BlockSequencer) : Prop :=
  sequencer_worker feat cfg ks qs ev x = Some (tt, x', es).
Definition broadcaster_step '(put, ev, es) (x x' : BlockBroadcaster) : Prop :=
  broadcaster_worker feat cfg ks evil put ev x = Some (tt, x', es).
Definition staging_step '(ev, es) (x x' : Staging) : Prop := ∃ r, worker feat cfg ks ev x = Some (r, x', es).
Definition fork_receiver_step (e : LogQuery * ForkReceiverEvent * list ForkReceiverMsg) (x x' : ForkReceiver) : Prop :=
  let '(lq, ev, es) := e in fr_enabled x ev = true ∧ fork_receiver_worker feat cfg ks ev x = Some (tt, x', es).
Definition app_step '(ev, es) (x x' : Application E) : Prop := app_worker feat ev x = Some (tt, x', es).
Definition client_reply_step '(res, ev, es) (x x' : ClientReplyHandler) : Prop :=
  client_reply_worker node_infos (resolved_event res ev) x = Some (tt, x', es).
Definition log_server_step (e : BlockStore * LogServerEvent * list LogServerMsg) (x x' : LogServer) : Prop :=
  let '(bs, ev, es) := e in ∃ r, logserver_worker ev x = Some (r, x', es).
Definition pacemaker_step (e : LogQuery * PacemakerEvent * list PacemakerMsg) (x x' : Pacemaker) : Prop :=
  let '(lq, ev, es) := e in ∃ r, pacemaker_worker feat cfg ev x = Some (r, x', es).

Ltac project := eapply projected; [done|done| |done|done];
  intros [] ? ? (? & ? & ? & ? & ? & ? & ? & ? & ?); done.

Lemma staging_replays acts s s' : nd_trace s = [] → run_node acts s = Next s' →
  replays staging_step (omap staging_steps (nd_trace s')) (nd_staging s) (nd_staging s').
Proof. intros H0 Hrun. project. Qed.

Lemma sequencer_replays acts s s' : nd_trace s = [] → run_node acts s = Next s' →
  replays sequencer_step (omap sequencer_steps (nd_trace s')) (nd_sequencer s) (nd_sequencer s').
Proof. intros H0 Hrun. project. Qed.

Lemma fork_receiver_replays acts s s' : nd_trace s = [] → run_node acts s = Next s' →
  replays fork_receiver_step (omap fork_receiver_steps (nd_trace s')) (nd_fork_receiver s) (nd_fork_receiver s').
Proof. intros H0 Hrun. project. Qed.

Lemma app_replays acts s s' : nd_trace s = [] → run_node acts s = Next s' →
  replays app_step (omap app_steps (nd_trace s')) (nd_app s) (nd_app s').
Proof. intros H0 Hrun. project. Qed.

End node_theorems.

(** * Requests in the client reply task

    Unlike the properties of ClientReply.v these hold of every step that does not panic,
    whatever the acknowledgements are. *)

Section client_reply_steps.
Context `{HIt : HashIter} (node_infos : string).
Implicit Types s : ClientReplyHandler.

(** A step that takes nothing in. *)
Definition kept s s' (es : list ClientReplyMsg) : Prop :=
  dom (reply_map s') ⊆ dom (reply_map s) ∧ pending s ≡ₚ pending s' ++ answered es.

Lemma kept_refl s : kept s s [].
Proof. split; [done|]. by rewrite app_nil_r. Qed.

Lemma kept_app s s1 s2 es1 es2 : kept s s1 es1 → kept s1 s2 es2 → kept s s2 (es1 ++ es2).
Proof.
  intros [Hd1 H1] [Hd2 H2]. split; [by etrans|]. rewrite H1, H2, answered_app, <- !(assoc_L (++)). f_equiv. apply Permutation_app_comm.
Qed.

Lemma kept_same s s' es :
  reply_map s' = reply_map s → waiting (probe_buffer s) ≡ₚ waiting (probe_buffer s') ++ answered es → kept s s' es.
Proof. intros Hr Hw. unfold kept, pending. rewrite Hr. split; [done|]. by rewrite Hw, app_assoc. Qed.

Lemma wlp_kept_for {A} (f : A → M ClientReplyHandler ClientReplyMsg unit) l s :
  (∀ x s, wlp (f x) (λ _ s' es, kept s s' es) s) → wlp (mfor l f) (λ _ s' es, kept s s' es) s.
Proof.
  intros Hf. revert s. induction l as [|x l IH]; intros s; cbn [mfor]; [wlp_prims; apply kept_refl|].
  apply wlp_bind. eapply wlp_mono; [|apply Hf]. intros [] s1 es1 H1.
  eapply wlp_mono; [|apply IH]. intros [] s2 es2. by apply kept_app.
Qed.

Lemma wlp_crash_reply v h n rs s :
  wlp (do_crash_commit_reply v h n rs)
    (λ _ s' es, frame s s' ∧ probe_buffer s' = probe_buffer s ∧ answered es = map chan_of v) s.
Proof.
  destruct (decide (length v = length rs)) as [Hl|Hl]; [by apply wlp_of_wp, wp_do_crash_commit_reply|].
  unfold do_crash_commit_reply. apply Nat.eqb_neq in Hl. rewrite Hl. apply wlp_bind, wlp_panic.
Qed.

Lemma wlp_byz_reply v n rs s :
  wlp (do_byz_commit_reply v n rs)
    (λ _ s' es, frame s s' ∧ waiting (probe_buffer s) ≡ₚ waiting (probe_buffer s') ++ answered es) s.
Proof.
  destruct (decide (length v = length rs)) as [Hl|Hl]; [by apply wlp_of_wp, wp_do_byz_commit_reply|].
  unfold do_byz_commit_reply. apply Nat.eqb_neq in Hl. rewrite Hl. apply wlp_bind, wlp_panic.
Qed.

(** Taking a batch out of [reply_map] and answering it. *)
Lemma wlp_answer v h n rs s0 s :
  reply_map s !! h = Some v → reply_map s0 = reply_map s → probe_buffer s0 = probe_buffer s →
  wlp (do_crash_commit_reply v h n rs) (λ _ s' es, kept s s' es) (set_reply_map (delete h (reply_map s0)) s0).
Proof.
  intros Hv Hr Hp. eapply wlp_mono; [|apply wlp_crash_reply]. intros [] s' es ((Hr' & _) & Hp' & He). split.
  - rewrite Hr'. cbn. rewrite dom_delete, Hr. set_solver.
  - unfold pending. rewrite Hr', Hp', He. cbn. rewrite Hr, Hp, (waiting_delete _ _ _ Hv), <- !app_assoc.
    rewrite (Permutation_app_comm (map chan_of v)), <- !app_assoc. done.
Qed.

Lemma wlp_crash_ack e s : wlp (crash_ack_entry e) (λ _ s' es, kept s s' es) s.
Proof.
  destruct e as [h [n rs]]. unfold crash_ack_entry. wlp_prims.
  destruct (reply_map s !! h) as [v|] eqn:Hv; wlp_prims; [by apply wlp_answer|]. apply (kept_refl s).
Qed.

Lemma wlp_byz_ack e s : wlp (byz_ack_entry e) (λ _ s' es, kept s s' es) s.
Proof.
  destruct e as [h [n rs]]. unfold byz_ack_entry. wlp_prims.
  destruct (byz_reply_map s !! h) as [v|] eqn:Hv; wlp_prims; [|apply (kept_refl s)].
  eapply wlp_mono; [|apply wlp_byz_reply]. intros [] s' es [(Hr & _) Hw]. by apply kept_same.
Qed.

Lemma wlp_clear_byz_buf h s : wlp (maybe_clear_byz_buf h) (λ _ s' es, kept s s' es) s.
Proof.
  unfold maybe_clear_byz_buf. wlp_prims. destruct (byz_commit_reply_buf s !! h) as [[n rs]|]; wlp_prims; [|apply kept_refl].
  destruct (byz_reply_map s !! h) as [v|]; wlp_prims; [|apply (kept_refl s)].
  eapply wlp_mono; [|apply wlp_byz_reply]. intros [] s' es [(Hr & _) Hw]. by apply kept_same.
Qed.

Lemma wlp_clear_crash_buf h s : wlp (maybe_clear_crash_buf h) (λ _ s' es, kept s s' es) s.
Proof.
  unfold maybe_clear_crash_buf. wlp_prims. destruct (crash_commit_reply_buf s !! h) as [[n rs]|]; wlp_prims; [|apply kept_refl].
  destruct (reply_map s !! h) as [v|] eqn:Hv; wlp_prims; [|apply (kept_refl s)]. by apply wlp_answer.
Qed.

(** A step that takes the channels [new] in, under the hash [h]. *)
Definition took (h : gset HashType) (new : list (nat * Z)) s s' (es : list ClientReplyMsg) : Prop :=
  dom (reply_map s') ⊆ h ∪ dom (reply_map s) ∧ pending s ++ new ≡ₚ pending s' ++ answered es.

Lemma took_kept s s' es : kept s s' es → took ∅ [] s s' es.
Proof. intros [Hd Hp]. split; [set_solver|]. by rewrite app_nil_r. Qed.

Lemma wlp_batch h v s :
  reply_map s !! h = None ∨ h = [] → wlp (handle_batch node_infos h v) (λ _ s' es, took {[h]} (map chan_of v) s s' es) s.
Proof.
  intros Hn. unfold handle_batch. wlp_prims. destruct (bool_decide (h = []) || must_cancel s) eqn:Hc.
  { apply wlp_of_wp. eapply wp_mono; [|apply wp_send_try_again]. intros [] s' es [-> He]. split; [set_solver|]. by rewrite ?app_nil_l, He. }
  assert (reply_map s !! h = None) as Hnone.
  { destruct Hn as [?| ->]; [done|]. by rewrite bool_decide_true in Hc. }
  unfold maybe_clear_reply_buf. wlp_prims. set (s1 := set_reply_map _ _).
  eapply wlp_mono; [|apply wlp_clear_byz_buf]. intros [] s2 es2 H2. eapply wlp_mono; [|apply wlp_clear_crash_buf]. intros [] s3 es3 H3.
  destruct (kept_app _ _ _ _ _ H2 H3) as [Hd Hp]. split.
  - etrans; [exact Hd|]. unfold s1. cbn. rewrite dom_insert. done.
  - cbn. rewrite <- Hp. unfold pending, s1. cbn. rewrite (waiting_insert _ _ _ Hnone).
    by rewrite Permutation_app_comm, app_assoc.
Qed.

Lemma wlp_reply_command cmd s :
  wlp (handle_reply_command node_infos cmd) (λ _ s' es, took ∅ (incoming (CrEvCommand cmd)) s s' es) s.
Proof.
  destruct cmd as [| |ack|ack|res c|k c]; cbn [handle_reply_command incoming].
  - apply wlp_bind. eapply wlp_prim_run; [reflexivity|]. apply wlp_bind, wlp_of_wp. eapply wp_mono; [|apply answered_cancel].
    intros [] s1 es1 [-> He]. wlp_prims. split; [cbn; set_solver|].
    rewrite ?app_nil_l, !app_nil_r, He. unfold pending. cbn [set_must_cancel set_reply_map reply_map probe_buffer]. rewrite map_to_list_empty. cbn [waiting map concat app].
    rewrite (waiting_perm _ _ (hm_iter_perm (reply_map s))). apply Permutation_app_comm.
  - wlp_prims. split; [cbn; set_solver|]. by rewrite !app_nil_r.
  - eapply wlp_mono; [|apply wlp_kept_for, wlp_crash_ack]. intros [] s1 es1. apply took_kept.
  - eapply wlp_mono; [|apply wlp_kept_for, wlp_byz_ack]. intros [] s1 es1. apply took_kept.
  - wlp_prims. split; [set_solver|done].
  - wlp_prims. apply wlp_of_wp. eapply wp_mono; [|apply wp_maybe_clear_probe_buf]. intros [] s1 es1 [(Hr & _) Hw]. cbn [set_probe_buffer probe_buffer reply_map] in Hr, Hw.
    split; [rewrite Hr; cbn; set_solver|]. unfold pending. rewrite Hr. cbn [set_probe_buffer reply_map app].
    rewrite <- !app_assoc, <- Hw. by rewrite waiting_probe_insert.
Qed.

(** The hash of a batch that is not cancelled. *)
Definition event_hash (ev : ClientReplyEvent) : gset HashType :=
  match ev with CrEvBatch (Some h) _ => {[h]} | _ => ∅ end.

Lemma client_reply_took ev s s' es :
  client_reply_worker node_infos ev s = Some (tt, s', es) →
  (∀ h r, ev = CrEvBatch (Some h) r → reply_map s !! h = None ∨ h = []) → took (event_hash ev) (incoming ev) s s' es.
Proof.
  intros Hr Hh. destruct ev as [[h|] v|cmd]; cbn [client_reply_worker] in Hr; [|done|].
  - refine (_ tt s' es Hr). change (wlp (h ← unwrap (Some h); handle_batch node_infos h v) (λ _ s' es, took {[h]} (map chan_of v) s s' es) s).
    wlp_prims. simplify_eq. apply wlp_batch. by eapply Hh.
  - exact (wlp_reply_command cmd s tt s' es Hr).
Qed.

End client_reply_steps.

(** * Requests in the other tasks *)

(** The requests a message between the tasks carries, and those an output answers. *)
Definition msg_requests (m : NodeMsg) : list (nat * Z) :=
  match m with
  | MTx (_, c) => [chan_of c]
  | MBatch _ r | MReplyBatch _ r => map chan_of r
  | MReplyCmd (UnloggedRequestAck _ c) | MReplyCmd (ProbeRequestAck _ c) => [chan_of c]
  | _ => []
  end.
Definition out_requests (o : NodeOut) : list (nat * Z) :=
  match o with
  | OReply m => msg_chans m
  | OLeader ch r => [(ch, reply_client_tag r)]
  | _ => []
  end.
Definition effect_requests (e : Effect) : list (nat * Z) :=
  match e with Send m => msg_requests m | Out o => out_requests o end.

Lemma effects_split (es : list Effect) :
  es ≫= effect_requests ≡ₚ (sends es ≫= msg_requests) ++ (outs es ≫= out_requests).
Proof.
  induction es as [|[m|o] es IH]; [done|cbn|cbn].
  - by rewrite IH, app_assoc.
  - rewrite IH. by rewrite Permutation_app_swap_app.
Qed.

(** Routing that carries no request. *)
Lemma silent_route {A} (route : A → list Effect) (es : list A) :
  (∀ m, m ∈ es → route m ≫= effect_requests = []) → (es ≫= route) ≫= effect_requests = [].
Proof.
  intros Hr. induction es as [|m es IH]; [done|]. cbn. rewrite bind_app.
  rewrite (Hr m) by (apply elem_of_cons; by left). cbn. apply IH. intros m' Hm'. apply Hr, elem_of_cons. by right.
Qed.

Definition bp_requests (m : BatchMsg) : list (nat * Z) := route_batch m ≫= effect_requests.

Lemma propose_requests cfg tick (s : BatchProposer) :
  wlp (maybe_propose cfg tick)
    (λ _ s' es, map chan_of (current_reply_vec s) ≡ₚ map chan_of (current_reply_vec s') ++ (es ≫= bp_requests)) s.
Proof.
  unfold maybe_propose. wlp_prims. destruct (_ || _); wlp_prims; [|by rewrite app_nil_r].
  unfold propose_new_batch. wlp_prims. cbn. by rewrite !app_nil_r.
Qed.

Definition batch_event_requests (ev : BatchEvent) : list (nat * Z) :=
  match ev with BpTx (_, c) _ => [chan_of c] | _ => [] end.

Lemma batch_worker_requests cfg node_infos ev (s s' : BatchProposer) es :
  batch_worker cfg node_infos ev s = Some (tt, s', es) →
  map chan_of (current_reply_vec s) ++ batch_event_requests ev ≡ₚ map chan_of (current_reply_vec s') ++ (es ≫= bp_requests).
Proof.
  intros Hr. refine (_ tt s' es Hr). clear Hr.
  change (wlp (batch_worker cfg node_infos ev) (λ _ s' es,
    map chan_of (current_reply_vec s) ++ batch_event_requests ev ≡ₚ map chan_of (current_reply_vec s') ++ (es ≫= bp_requests)) s).
  destruct ev as [[tx c] elapsed|b l|]; cbn [batch_worker batch_event_requests].
  - unfold bp_handle_tx, filter_unlogged_request. wlp_prims. destruct (on_receive _) as [ph|].
    + destruct (is_probe_tx _) as [[] bn]; wlp_prims; (eapply wlp_mono; [|apply propose_requests]); intros [] s1 es1 H1; cbn in *;
        rewrite H1; by rewrite <- app_assoc, (Permutation_app_comm (es1 ≫= bp_requests)).
    + wlp_prims. destruct (bp_i_am_leader cfg s); cbn [negb]; wlp_prims.
      * eapply wlp_mono; [|apply propose_requests]. intros [] s1 es1 H1. cbn in *. rewrite <- H1. by rewrite map_app.
      * unfold reply_leader. wlp_prims. done.
  - wlp_prims. by rewrite !app_nil_r.
  - eapply wlp_mono; [|apply propose_requests]. intros [] s1 es1 H1. cbn. by rewrite app_nil_r.
Qed.

Definition sq_requests (m : SequencerMsg) : list (nat * Z) := route_sequencer m ≫= effect_requests.
Definition sq_event_requests (ev : SequencerEvent) : list (nat * Z) :=
  match ev with SqBatch _ r => map chan_of r | _ => [] end.

Section sequencer_requests.
Context `{HC : Codec, HE : Ed25519} (feat : Features) (cfg : Config) (ks : KeyStore).

Lemma new_batch_requests b r fv s :
  wlp (handle_new_batch feat cfg ks b r fv) (λ _ _ es, es ≫= sq_requests = map chan_of r) s.
Proof.
  unfold handle_new_batch. wlp_prims. unfold must_sign. destruct (sign_mode feat); wlp_prims.
  all: try (destruct (_ || _); wlp_prims).
  all: cbn; by rewrite !app_nil_r.
Qed.

Lemma control_requests cmd s :
  wlp (handle_control_command feat cfg ks cmd) (λ _ _ es, es ≫= sq_requests = []) s.
Proof.
  destruct cmd; cbn [handle_control_command]; wlp_prims; [done..|]. destruct (negb _); wlp_prims; [done|].
  eapply wlp_mono; [|apply new_batch_requests]. intros [] s1 es Hes. cbn. by rewrite Hes.
Qed.

Lemma sequencer_requests queued ev s s' es :
  sequencer_worker feat cfg ks queued ev s = Some (tt, s', es) → es ≫= sq_requests = sq_event_requests ev.
Proof.
  intros Hr. refine (_ tt s' es Hr). clear Hr.
  change (wlp (sequencer_worker feat cfg ks queued ev) (λ _ _ es, es ≫= sq_requests = sq_event_requests ev) s).
  unfold sequencer_worker. wlp_prim. wlp_prim. apply wlp_bind.
  apply (wlp_mono _ (λ _ _ es, es = [])); [|destruct (sq_view_is_stable s); by wlp_prims].
  intros listen s1 es1 ->. apply wlp_bind. apply (wlp_mono _ (λ _ _ es, es = [])); [|destruct (_ && _); unfold add_qcs; by wlp_prims].
  intros [] s2 es2 ->. destruct ev as [qcs| |b r|cmd]; cbn [sq_event_requests app].
  - unfold add_qcs. by wlp_prims.
  - destruct listen; by wlp_prims.
  - destruct listen; wlp_prims; [|cbn; by rewrite !app_nil_r].
    eapply wlp_mono; [|apply new_batch_requests]. intros [] s3 es3 Hes. cbn. by rewrite Hes.
  - eapply wlp_mono; [|apply control_requests]. intros [] s3 es3 Hes. done.
Qed.

End sequencer_requests.

Lemma app_requests {E} `{AppEngine E} feat ev (s s' : Application E) es :
  app_worker feat ev s = Some (tt, s', es) → (es ≫= route_app) ≫= effect_requests = [].
Proof.
  intros Hr. refine (_ tt s' es Hr). clear Hr.
  change (wlp (app_worker feat ev) (λ _ _ es, (es ≫= route_app) ≫= effect_requests = []) s).
  destruct ev as [[| | |]|tx alive| |]; cbn [app_worker handle_staging_command].
  - unfold update_stats. by wlp_prims.
  - unfold app_crash_commit, on_engine, update_stats. wlp_prims. case_match. wlp_prims. destruct (_ =? _)%nat; cbn [assert_]; by wlp_prims.
  - unfold app_byz_commit, on_engine, update_stats. wlp_prims. case_match. wlp_prims. destruct (_ =? _)%nat; cbn [assert_]; by wlp_prims.
  - unfold app_rollback, update_stats. by wlp_prims.
  - unfold handle_unlogged_request, on_engine, update_stats. destruct (_ && _); wlp_prims; [done|]. case_match. wlp_prims.
    destruct alive; cbn [assert_]; by wlp_prims.
  - unfold checkpoint. wlp_prims. destruct (_ >? _); by wlp_prims.
  - by wlp_prims.
Qed.

(** * Requests in the node *)

(** The requests that entered the node, and those it answered. *)
Definition asked (tr : list Entry) : list (nat * Z) :=
  tr ≫= λ x, match x with Fed m => msg_requests m | Ran _ => [] end.
Definition answers_sent (tr : list Entry) : list (nat * Z) := (tr ≫= entry_outs) ≫= out_requests.

(** The hashes under which the batches of the node wait for their replies. *)
Definition reply_hashes (ms : list NodeMsg) : list HashType :=
  omap (λ m, match m with MReplyBatch h _ => if bool_decide (h = []) then None else Some h | _ => None end) ms.

Lemma reply_hashes_app ms1 ms2 : reply_hashes (ms1 ++ ms2) = reply_hashes ms1 ++ reply_hashes ms2.
Proof. apply omap_app. Qed.

Lemma reply_hashes_channel ms : reply_hashes (on_channel ChReplyBatch ms) = reply_hashes ms.
Proof. apply channel_part. intros []; cbn; by intros []. Qed.

Section requests.
Context `{HIt : HashIter, HC : Codec, HE : Ed25519} {E : Type} `{HA : AppEngine E}.
Context (feat : Features) (cfg : Config) (ks : KeyStore) (evil : option EvilConfig) (node_infos : string).
Implicit Types s : Node E.

(** The requests inside the tasks, and those on their way between them. *)
Definition in_tasks (s : Node E) : list (nat * Z) :=
  map chan_of (current_reply_vec (nd_batch s)) ++ pending (nd_client_reply s).
Definition in_flight (s : Node E) : list (nat * Z) := (nd_queue s ≫= msg_requests) ++ in_tasks s.

(** The batch a client reply step takes in is not one that waits already. *)
Definition fresh_batch (t : TaskStep) (s : Node E) : Prop :=
  match t with
  | TsClientReply _ (CrEvBatch (Some h) _) _ => reply_map (nd_client_reply s) !! h = None ∨ h = []
  | _ => True
  end.

Lemma route_requests {A} (route : A → list Effect) es :
  (es ≫= route) ≫= effect_requests = es ≫= (λ m, route m ≫= effect_requests).
Proof. induction es as [|m es IH]; [done|]. cbn. by rewrite bind_app, IH. Qed.

Lemma qcs_no_requests qs : map MQc qs ≫= msg_requests = [].
Proof. by induction qs. Qed.

Lemma client_reply_answers es : es ≫= (λ m, route_client_reply m ≫= effect_requests) = answered es.
Proof. induction es as [|m es IH]; [done|]. cbn. rewrite app_nil_r. unfold answered in *. cbn. by f_equal. Qed.

Lemma task_conserves t s s' :
  task_ran feat cfg ks evil node_infos t s s' → fresh_batch t s →
  (received t ≫= msg_requests) ++ in_tasks s ≡ₚ (effects t ≫= effect_requests) ++ in_tasks s'.
Proof.
  intros (Hb & Hq & _ & _ & _ & Ha & Hc & _ & _) Hf. unfold in_tasks.
  destruct t as [ev es|qs ev es|put ev es|ev es|lq ev es|ev es|res ev es|bs ev es|lq ev es]; cbn [effects].
  - rewrite Hc, route_requests. apply batch_worker_requests in Hb. change (λ m, route_batch m ≫= effect_requests) with bp_requests.
    rewrite (assoc_L (++)), (assoc_L (++)). f_equiv. rewrite Permutation_app_comm, (Permutation_app_comm (es ≫= bp_requests)), <- Hb.
    f_equiv. by destruct ev as [[tx c] el|b l|].
  - rewrite Hc, Hb, route_requests. apply sequencer_requests in Hq. change (λ m, route_sequencer m ≫= effect_requests) with sq_requests.
    rewrite Hq. cbn [received]. rewrite bind_app, qcs_no_requests. f_equiv. destruct ev as [qcs| |b r|c]; cbn; rewrite ?qcs_no_requests, ?app_nil_r; done.
  - rewrite Hc, Hb, silent_route by (by intros []). by destruct ev as [n [b|]| |].
  - rewrite Hc, Hb, silent_route by (by intros [|?|[]|?|?|?|? ?|?|?|?|? ?|? ? ?| |]). by destruct ev.
  - rewrite Hc, Hb, silent_route by (by intros []). by destruct ev.
  - rewrite Hc, Hb. apply app_requests in Ha. rewrite Ha. by destruct ev.
  - rewrite Hb. assert (received (TsClientReply res ev es) ≫= msg_requests = incoming (resolved_event res ev)) as ->
      by (destruct ev as [[h|] r|[]]; cbn in Hc |- *; rewrite ?app_nil_r; done).
    rewrite route_requests, client_reply_answers. apply client_reply_took in Hc as [_ Hp].
    + rewrite !(Permutation_app_swap_app _ (map chan_of _)). f_equiv.
      by rewrite Permutation_app_comm, Hp, Permutation_app_comm.
    + intros h r Hev. destruct ev as [[h'|] r'|[]]; cbn in Hev; simplify_eq; exact Hf.
  - rewrite Hc, Hb, silent_route by (by intros []). by destruct ev.
  - rewrite Hc, Hb, silent_route by (by intros []). by destruct ev.
Qed.

Definition conserved (s : Node E) : Prop :=
  asked (nd_trace s) ≡ₚ in_flight s ++ answers_sent (nd_trace s).

(** The batches that wait for replies have been received. *)
Definition waiting_received (s : Node E) : Prop :=
  ∀ h, h ∈ dom (reply_map (nd_client_reply s)) → h ≠ [] → h ∈ reply_hashes (nd_trace s ≫= entry_received).

Definition distinct_hashes (s : Node E) : Prop := NoDup (reply_hashes (nd_trace s ≫= entry_sends)).

Lemma received_fresh t q s s' :
  ran feat cfg ks evil node_infos t q s s' → leaves (received t) (nd_queue s) q →
  fifo ChReplyBatch s → waiting_received s → distinct_hashes s → fresh_batch t s.
Proof.
  intros _ Hl Hfifo Hw Hd. destruct t as [| | | | | |res [[h|] r|] es| |]; try done. cbn [fresh_batch].
  destruct (decide (h = [])) as [->|Hh]; [by right|left]. apply not_elem_of_dom. intros Hin. specialize (Hw h Hin Hh).
  unfold distinct_hashes in Hd. unfold fifo, sent_on, received_on in Hfifo.
  rewrite <- reply_hashes_channel, Hfifo, (leaves_fifo _ _ _ _ Hl), !reply_hashes_app, !reply_hashes_channel in Hd.
  apply list.NoDup_app in Hd as (_ & Hnot & _). apply (Hnot h Hw). apply elem_of_app. left. cbn. by rewrite bool_decide_false by done; left.
Qed.

Lemma distinct_earlier s s' tr : distinct_hashes s' → nd_trace s' = nd_trace s ++ tr → distinct_hashes s.
Proof. unfold distinct_hashes. intros Hd Ht. rewrite Ht, bind_app, reply_hashes_app in Hd. by apply list.NoDup_app in Hd as [? _]. Qed.

Lemma waiting_ran t s s' :
  task_ran feat cfg ks evil node_infos t s s' → fresh_batch t s → nd_trace s' = nd_trace s ++ [Ran t] →
  waiting_received s → waiting_received s'.
Proof.
  intros (_ & _ & _ & _ & _ & _ & Hc & _ & _) Hf Ht Hw h Hin Hh. rewrite Ht, trace_snoc, reply_hashes_app. apply elem_of_app.
  destruct t as [| | | | | |res ev es| |]; try (left; apply Hw; [by rewrite <- Hc|done]). apply client_reply_took in Hc as [Hd _].
  - destruct (decide (h ∈ dom (reply_map (nd_client_reply s)))) as [?|Hnot]; [left; by apply Hw|right].
    destruct ev as [[h'|] r|[]]; cbn in Hd; try set_solver.
    assert (h = h') as -> by set_solver. cbn. rewrite bool_decide_false by done. by left.
  - intros h' r Hev. destruct ev as [[h''|] r'|[]]; cbn in Hev; simplify_eq; exact Hf.
Qed.

Lemma conserved_step t q s s' :
  ran feat cfg ks evil node_infos t q s s' → leaves (received t) (nd_queue s) q → fresh_batch t s →
  conserved s → conserved s'.
Proof.
  intros (Hr & Hq & Ht) Hl Hf Hc. unfold conserved, asked, answers_sent, in_flight in *. rewrite Ht, Hq, !trace_snoc, !bind_app, app_nil_r.
  rewrite Hc, (bind_Permutation _ _ _ (leaves_perm _ _ _ Hl)), bind_app. cbn [entry_outs].
  pose proof (task_conserves _ _ _ Hr Hf) as Hp. rewrite effects_split in Hp.
  rewrite (Permutation_app_comm (received t ≫= msg_requests)), <- !app_assoc.
  rewrite (app_assoc (received t ≫= msg_requests)), Hp, <- !app_assoc. do 2 f_equiv.
  by rewrite Permutation_app_comm, <- !app_assoc.
Qed.

Lemma conserved_fed m s : conserved s → conserved (feed m s).
Proof.
  unfold conserved, asked, answers_sent, in_flight. intros Hc. change (in_tasks (feed m s)) with (in_tasks s).
  cbn [feed nd_trace nd_queue]. rewrite !trace_snoc, !bind_app, Hc. cbn. rewrite !app_nil_r, <- !app_assoc. f_equiv.
  by rewrite (Permutation_app_comm (msg_requests m)), <- !app_assoc.
Qed.

Lemma waiting_fed m s : waiting_received s → waiting_received (feed m s).
Proof. intros Hw h. cbn [feed nd_trace nd_client_reply]. rewrite trace_snoc, app_nil_r. apply Hw. Qed.

Lemma requests_run acts s s' :
  conserved s → waiting_received s → fifo ChReplyBatch s → node_run feat cfg ks evil node_infos acts s = Next s' →
  distinct_hashes s' → conserved s'.
Proof.
  intros Hc Hw Hf Hrun Hd.
  cut (fifo ChReplyBatch s' ∧ (distinct_hashes s' → conserved s' ∧ waiting_received s')); [naive_solver|]. clear Hd.
  revert Hrun. apply (node_run_ind feat cfg ks evil node_infos
    (λ s, fifo ChReplyBatch s ∧ (distinct_hashes s → conserved s ∧ waiting_received s))); [| |done].
  - intros _ m s1 _ [Hf1 IH]. split; [by apply fifo_fed|]. intros Hd.
    destruct IH as [Hc1 Hw1]; [by eapply distinct_earlier|]. split; [by apply conserved_fed|by apply waiting_fed].
  - intros s1 s2 [Hf1 IH] Hm. split; [by eapply fifo_moved|]. intros Hd. destruct Hm as (t & q & Hl & Hran).
    pose proof Hran as (Hr & _ & Ht). pose proof (distinct_earlier _ _ _ Hd Ht) as Hd1. destruct (IH Hd1) as [Hc1 Hw1].
    pose proof (received_fresh _ _ _ _ Hran Hl Hf1 Hw1 Hd1). split; [by eapply conserved_step|by eapply waiting_ran].
Qed.

End requests.

(** * Properties *)

Lemma node_new_empty `{HashIter, Codec, Ed25519} {E} `{AppEngine E} feat cfg storage (n0 : Node E) :
  node_new feat cfg storage = Some n0 → nd_trace n0 = [] ∧ nd_queue n0 = [] ∧ in_tasks n0 = [] ∧ reply_map (nd_client_reply n0) = ∅.
Proof.
  unfold node_new, batch_proposer_new. destruct (_ =? _)%nat, storage; try done. intros (bp & Hbp & [= <-])%bind_Some.
  assert (current_reply_vec bp = []) as Hr.
  { destruct (f_view_change feat); [by simplify_eq|]. apply bind_Some in Hbp as (l & _ & [= <-]). done. }
  split_and!; try done. unfold in_tasks. cbn. by rewrite Hr.
Qed.


(** C35: no request is lost, invented or answered twice on its way through the node.  After
    any interleaving of the tasks of an assembled node, if the blocks it built had different
    hashes, the requests that entered it are exactly those it answered together with those it
    holds: in a channel, in the batch being collected, or with the client reply task. *)
Theorem node_requests_conserved `{HashIter, Codec, Ed25519} {E} `{AppEngine E} (feat : Features) (cfg : Config) (ks : KeyStore)
    (evil : option EvilConfig) (node_infos : string) (storage : StorageKind) (n0 s : Node E) (acts : list NodeAct) :
  node_new feat cfg storage = Some n0 → node_run feat cfg ks evil node_infos acts n0 = Next s → distinct_hashes s →
  asked (nd_trace s) ≡ₚ in_flight s ++ answers_sent (nd_trace s).
Proof.
  intros Hnew Hrun. destruct (node_new_empty _ _ _ _ Hnew) as (Htr & Hq & Ht & Hr). apply (requests_run feat cfg ks evil node_infos acts n0); [| | |done].
  - unfold conserved, in_flight. by rewrite Htr, Hq, Ht.
  - intros h. by rewrite Hr, dom_empty, elem_of_empty.
  - unfold fifo. by rewrite Htr, Hq.
Qed.

(** * A leader *)

(** Built without view changes: the first node leads from the start. *)
Definition fixed_view : Features := mkFeatures true DynamicSign true false false true true false false false.
Definition leader_cfg : Config := mkConfig "node1" four_nodes.
Definition write_tx : ProtoTransaction := mkTx None (Some (mkPhase [mkOp 2 [[Byte.x01]; [Byte.x02]]])) None false false.
Definition unlogged_tx : ProtoTransaction := mkTx (Some (mkPhase [mkOp 1 [[Byte.x01]]])) None None false false.

(** Two clients ask: a write, which becomes a block and waits for its commit, and a read,
    which is answered. *)
Definition leader_acts : list NodeAct :=
  [AcFeed (Some write_tx, mkAckChan 3 7 Anon); AcFeed (Some unlogged_tx, mkAckChan 4 8 Anon); AcBatchTx false; AcBatchTx false;
   AcBatchTick; AcSeqBatch 0; AcCrBatch; AcAppUnlogged true; AcCrCmd (Some (mkTxResult [])); AcBcMyBlock (λ _, Some Stored); AcStBlock].

Definition leader_new : Node NullApp :=
  let C := toy_codec (nascent Serialize.toy_block) in let HI := map_to_list_iter in
  mkNode (mkBatchProposer [] [] true "node1") (sequencer_new fixed_view) broadcaster_new (staging_new fixed_view)
    (fork_receiver_new fixed_view) (mkApplication null_app (stats_new fixed_view default_hash)) client_reply_new logserver_new
    pacemaker_new (mkHalted false false false) [] [].
Definition leader_node : Node NullApp :=
  match @node_run map_to_list_iter (toy_codec (nascent Serialize.toy_block)) toy_ed NullApp null_engine fixed_view leader_cfg toy_keystore None ""
          leader_acts leader_new with
  | Next s => s
  | _ => leader_new
  end.


Lemma node_requests_conserved_witness :
  asked (nd_trace leader_node) = [(3%nat, 7); (4%nat, 8)] ∧ answers_sent (nd_trace leader_node) = [(4%nat, 8)] ∧
  asked (nd_trace leader_node) ≡ₚ in_flight leader_node ++ answers_sent (nd_trace leader_node).
Proof.
  split; [vm_compute; reflexivity|]. split; [vm_compute; reflexivity|].
  apply (@node_requests_conserved map_to_list_iter (toy_codec (nascent Serialize.toy_block)) toy_ed NullApp null_engine fixed_view leader_cfg
    toy_keystore None "" RocksDBStorage leader_new leader_node leader_acts).
  - reflexivity.
  - vm_compute. reflexivity.
  - unfold distinct_hashes. apply (bool_decide_unpack _). vm_compute. exact I.
Defined.
