(* ===== verification/NodeViews.v ===== *)
(** Views in the assembled node (Node.v): staging decides the view, and the block sequencer
    and the fork receiver follow it through their command channels.  The theorem: under every
    interleaving neither is ever ahead of staging, and each is in the view and configuration
    of staging as soon as the commands sent to it have been taken. *)

From stdpp Require Import base numbers list gmap strings option.
From S2P Require Import Prelude Types Config Serialize Crypto ForkChoice Staging Pacemaker LogServer ClientReply App Sequencer ForkReceiver Broadcaster Server Node NodeTheorems.

(** * What staging announces *)

Definition cmd_view (c : BlockSequencerControlCommand) : Z * Z :=
  match c with NewUnstableView v c | ViewStabilised v c | NewViewMessage v c _ _ _ => (v, c) end.

Definition seq_view (m : StagingMsg) : option (Z * Z) := match m with ToSequencer c => Some (cmd_view c) | _ => None end.
Definition fork_view (m : StagingMsg) : option (Z * Z) :=
  match m with Staging.ToForkReceiver (FrUpdateView v c) => Some (v, c) | _ => None end.

(** The last of the announcements, or what was there before. *)
Definition latest (d : Z * Z) (l : list (Z * Z)) : Z * Z := default d (list.last l).

Lemma latest_app d l1 l2 : latest d (l1 ++ l2) = latest (latest d l1) l2.
Proof. unfold latest. rewrite last_app. by destruct (list.last l2), (list.last l1). Qed.

Definition at_view (s : Staging) : Z * Z := (Staging.st_view s, st_config_num s).

Record view_step (s s' : Staging) (es : list StagingMsg) : Prop := {
  vs_seq : at_view s' = latest (at_view s) (omap seq_view es);
  vs_fork : at_view s' = latest (at_view s) (omap fork_view es);
  vs_grows : Staging.st_view s ≤ Staging.st_view s';
  vs_bounded : Forall (λ p, p.1 ≤ Staging.st_view s') (omap seq_view es ++ omap fork_view es) }.

Lemma view_step_frame s s' es :
  at_view s' = at_view s → omap seq_view es = [] → omap fork_view es = [] → view_step s s' es.
Proof. intros Hv H1 H2. split; rewrite ?H1, ?H2; try done. injection Hv as -> _. done. Qed.

#[export] Instance view_step_rel : StepRel view_step.
Proof.
  split; [intros s; by apply view_step_frame|]. intros s1 s2 s3 es1 es2 [A1 B1 C1 D1] [A2 B2 C2 D2].
  split; rewrite ?omap_app, ?latest_app, <- ?A1, <- ?B1; [done|done|lia|]. rewrite !Forall_app in *. destruct D1 as [D1 E1], D2 as [D2 E2].
  split_and!; try done; (eapply list.Forall_impl; [eassumption|]); cbn; lia.
Qed.

Abbreviation views := (steps_by view_step).

Lemma views_modify f : (∀ s, at_view (f s) = at_view s) → views (modify f).
Proof. intros Hf. apply (steps_modify view_step). intros s. by apply view_step_frame. Qed.
Lemma views_emit m : seq_view m = None → fork_view m = None → views (emit m).
Proof. intros H1 H2. apply (steps_emit view_step). intros s. apply view_step_frame; cbn; by rewrite ?H1, ?H2. Qed.

(** Telling the sequencer the view staging is in. *)
Lemma views_tell (c : Staging → BlockSequencerControlCommand) s :
  cmd_view (c s) = at_view s → wlp (emit (ToSequencer (c s))) (λ _ s' es, view_step s s' es) s.
Proof. intros Hc. wlp_prims. split; cbn; rewrite ?Hc; try done. by repeat constructor. Qed.

(** Going to a higher view, with both told. *)
Lemma view_step_jump s s' es v c :
  Staging.st_view s < v → at_view s' = (v, c) → omap seq_view es = [(v, c)] → omap fork_view es = [(v, c)] → view_step s s' es.
Proof.
  intros Hv Hs H1 H2. split; rewrite ?H1, ?H2; try done; injection Hs as -> _; [lia|]. by repeat constructor.
Qed.

Ltac viewing := stepping view_step ltac:(first [apply views_modify; intros ?; reflexivity|apply views_emit; reflexivity]).

Section handlers.
Context `{HIt : HashIter, HCo : Codec, HEd : Ed25519} (feat : Features) (cfg : Config) (ks : KeyStore).

Lemma views_i_am_leader : views (i_am_leader feat cfg).
Proof. unfold i_am_leader. viewing. Qed.
Lemma views_rollback n : views (rollback n).
Proof. unfold rollback. viewing. Qed.
Lemma views_do_byzantine_commit old new : views (do_byzantine_commit old new).
Proof. unfold do_byzantine_commit. viewing. Qed.
Lemma views_do_crash_commit old new : views (do_crash_commit old new).
Proof. unfold do_crash_commit. viewing. Qed.
#[local] Hint Resolve views_i_am_leader views_rollback views_do_byzantine_commit views_do_crash_commit : steps.

Lemma views_maybe_update_last_qc q : views (maybe_update_last_qc q).
Proof. apply views_modify. intros s. by destruct (qc_n q >? _). Qed.
#[local] Hint Resolve views_maybe_update_last_qc : steps.

Lemma views_maybe_byzantine_commit q : views (maybe_byzantine_commit feat cfg q).
Proof. unfold maybe_byzantine_commit. viewing. Qed.
#[local] Hint Resolve views_maybe_byzantine_commit : steps.

Lemma views_maybe_stabilize_view q : views (maybe_stabilize_view feat cfg q).
Proof.
  intros s. unfold maybe_stabilize_view, i_am_leader. wlp_prims. destruct (negb _); wlp_prims; [by apply view_step_frame|].
  split; cbn; try done. by repeat constructor.
Qed.
#[local] Hint Resolve views_maybe_stabilize_view : steps.

Lemma views_propose_qcs qcs : views (propose_qcs feat cfg qcs).
Proof. induction qcs; simpl; viewing. Qed.
#[local] Hint Resolve views_propose_qcs : steps.

Lemma views_maybe_create_qcs : views (maybe_create_qcs feat cfg).
Proof. unfold maybe_create_qcs. viewing. Qed.
Lemma views_maybe_crash_commit : views (maybe_crash_commit feat cfg).
Proof. unfold maybe_crash_commit. viewing. Qed.
#[local] Hint Resolve views_maybe_create_qcs views_maybe_crash_commit : steps.

Lemma views_process_vote sender vote : views (process_vote feat cfg sender vote).
Proof. unfold process_vote. viewing. Qed.
#[local] Hint Resolve views_process_vote : steps.

Lemma views_follow_qcs stable qcs k : views k → views (follow_qcs feat cfg stable qcs k).
Proof. intros Hk. induction qcs; simpl; viewing. Qed.

Lemma views_accept_same_view b stats : views (accept_same_view b stats).
Proof. unfold accept_same_view. viewing. Qed.
Lemma views_leader_accept b ack fin : views (leader_accept feat cfg ks b ack fin).
Proof. unfold leader_accept, push_block, buffer_ack, vote_on_last_block_for_self, engraft_2pc, await_acks. viewing. Qed.
Lemma views_follower_accept b ack stats fin : views (follower_accept feat cfg ks b ack stats fin).
Proof.
  unfold follower_accept, push_block. viewing. apply views_follow_qcs.
  unfold follower_tail, buffer_ack, send_vote_on_last_block_to_leader, engraft_2pc, await_acks. viewing.
Qed.
#[local] Hint Resolve views_accept_same_view views_leader_accept views_follower_accept : steps.

(** The jumps, to the view of a message above the node's. *)
Lemma views_jump (as_leader : bool) b stats s :
  Staging.st_view s < aes_view stats →
  wlp (if as_leader then jump_view_as_leader b stats else jump_view_as_follower b stats)
    (λ _ s' es, view_step s s' es ∧ Staging.st_view s' = aes_view stats) s.
Proof.
  intros Hv. destruct as_leader; unfold jump_view_as_leader, jump_view_as_follower, rollback; wlp_prims;
    (split; [|done]); by eapply view_step_jump.
Qed.

Lemma views_process_block fuel b ack stats fin :
  views (process_block_as_leader feat cfg ks fuel b ack stats fin) ∧ views (process_block_as_follower feat cfg ks fuel b ack stats fin).
Proof.
  induction fuel as [|fuel [IHl IHf]]; [split; apply (steps_panic view_step)|].
  split; cbn [process_block_as_leader process_block_as_follower]; apply (steps_gets_bind view_step); intros s;
    (destruct (Z.ltb_spec (aes_view stats) (Staging.st_view s)); [apply (steps_ret view_step)|]);
    (destruct (Z.eqb_spec (aes_view stats) (Staging.st_view s)); [apply (wlp_steps_bind view_step); [apply views_accept_same_view|intros ?; viewing]|]);
    (apply (wlp_steps_bind view_step); [|intros ?; viewing]).
  - eapply wlp_mono; [|apply (views_jump true); lia]. by intros ? ? ? [? _].
  - eapply wlp_mono; [|apply (views_jump false); lia]. by intros ? ? ? [? _].
Qed.

Lemma views_maybe_update_view v c : views (maybe_update_view feat cfg ks v c).
Proof.
  apply (steps_get_bind view_step). intros s. destruct (Z.leb_spec v (Staging.st_view s)); [apply (steps_ret view_step)|].
  unfold update_view. wlp_prims. by apply (view_step_jump _ _ _ v c).
Qed.
#[local] Hint Resolve views_maybe_update_view : steps.

Lemma views_apply_fork_choice_rule forks : views (apply_fork_choice_rule feat cfg ks forks).
Proof. unfold apply_fork_choice_rule, send_blocks_to_broadcaster_and_get_stats. viewing. Qed.
#[local] Hint Resolve views_apply_fork_choice_rule : steps.

Lemma views_propose_new_view v c forks : views (propose_new_view feat cfg ks v c forks).
Proof.
  unfold propose_new_view. apply (steps_bind view_step); [apply (steps_get view_step)|]. intros s0.
  destruct (_ || _); [apply (steps_ret view_step)|]. apply (steps_bind view_step); [viewing|]. intros me.
  destruct (negb _); [apply (steps_ret view_step)|]. apply (steps_bind view_step); [viewing|]. intros [chosen fv].
  do 6 (apply (steps_bind view_step); [viewing|]; intros ?). apply (steps_get_bind view_step). intros s.
  by apply (views_tell (λ s, NewViewMessage (Staging.st_view s) (st_config_num s) fv (new_view_parent s chosen) (fs_fork_last_n chosen))).
Qed.
#[local] Hint Resolve views_propose_new_view : steps.

Lemma views_worker ev : views (worker feat cfg ks ev).
Proof.
  unfold worker. apply (steps_bind view_step); [apply views_i_am_leader|]. intros me. destruct ev as [enough|b ack stats fin|sender vote|cmd|cmd].
  - unfold handle_view_change_timer_tick. viewing.
  - destruct me; apply views_process_block.
  - unfold verify_and_process_vote. viewing.
  - unfold process_view_change_message. viewing.
  - unfold process_2pc_result. viewing.
Qed.

End handlers.

(** * What the sequencer and the fork receiver follow *)

Definition sq_at (s : BlockSequencer) : Z * Z := (sq_view s, sq_config_num s).
Definition fr_at (s : ForkReceiver) : Z * Z := (fr_view s, fr_config_num s).

Section followers.
Context `{HC : Codec, HE : Ed25519} (feat : Features) (cfg : Config) (ks : KeyStore).

Definition sq_still (s s' : BlockSequencer) (_ : list SequencerMsg) : Prop := sq_at s' = sq_at s.
#[local] Instance sq_still_rel : StepRel sq_still.
Proof. split; [done|]. unfold sq_still. congruence. Qed.
Ltac sq_stays := stepping sq_still ltac:(first [apply (steps_modify sq_still); done|apply (steps_emit sq_still); done]).

Lemma new_batch_still b r fv : steps_by sq_still (handle_new_batch feat cfg ks b r fv).
Proof. unfold handle_new_batch, must_sign. sq_stays. Qed.
Lemma add_qcs_still qcs : steps_by sq_still (add_qcs qcs).
Proof.
  apply (steps_modify sq_still). intros s. unfold sq_still. revert s. induction qcs as [|q qcs IH]; intros s; [done|]. cbn [fold_left].
  rewrite IH. unfold add_qc. by case_match.
Qed.
#[local] Hint Resolve new_batch_still add_qcs_still : steps.

Definition sq_event_view (ev : SequencerEvent) : option (Z * Z) :=
  match ev with SqControl c => Some (cmd_view c) | _ => None end.

Lemma control_view c s : wlp (handle_control_command feat cfg ks c) (λ _ s' _, sq_at s' = cmd_view c) s.
Proof.
  destruct c as [v c|v c|v c fv p n]; cbn [handle_control_command]; wlp_prims; [done|done|].
  destruct (negb _); wlp_prims; [done|]. eapply wlp_mono; [|apply new_batch_still]. by intros ? ? ? ->.
Qed.

Lemma sequencer_still queued ev : sq_event_view ev = None → steps_by sq_still (sequencer_worker feat cfg ks queued ev).
Proof. destruct ev; try done; intros _; unfold sequencer_worker; sq_stays. Qed.

Lemma sequencer_view queued ev s s' es :
  sequencer_worker feat cfg ks queued ev s = Some (tt, s', es) → sq_at s' = default (sq_at s) (sq_event_view ev).
Proof.
  destruct (sq_event_view ev) as [p|] eqn:Hev; [|by apply sequencer_still]. destruct ev as [| | |c]; try done. injection Hev as <-.
  intros Hr. refine (_ tt s' es Hr). clear Hr. change (wlp (sequencer_worker feat cfg ks queued (SqControl c)) (λ _ s' _, sq_at s' = cmd_view c) s).
  unfold sequencer_worker. do 3 (apply wlp_bind; intros ? ? ? _). apply control_view.
Qed.

Context (lq : LogQuery).

Definition fr_still (s s' : ForkReceiver) (_ : list ForkReceiverMsg) : Prop := fr_at s' = fr_at s.
#[local] Instance fr_still_rel : StepRel fr_still.
Proof. split; [done|]. unfold fr_still. congruence. Qed.
Ltac fr_stays := stepping fr_still ltac:(first [apply (steps_modify fr_still); intros ?; solve [done|by case_match]|apply (steps_emit fr_still); done]).

Definition fr_event_view (ev : ForkReceiverEvent) : option (Z * Z) :=
  match ev with FrEvCommand (FrUpdateView v c) => Some (v, c) | _ => None end.

Lemma next_part_still : steps_by fr_still (next_part feat cfg ks).
Proof. unfold next_part, forward_part. fr_stays. Qed.
Lemma process_fork_still ae sender : steps_by fr_still (process_fork feat cfg ks ae sender).
Proof.
  unfold process_fork, wrong_sender, ensure_common_prefix, last_hash, send_nack, process_blocks, forward_parts, forward_part, send_nack. fr_stays.
Qed.
#[local] Hint Resolve next_part_still process_fork_still : steps.

Lemma fork_receiver_view ev s s' es :
  fork_receiver_worker feat cfg ks ev s = Some (tt, s', es) → fr_at s' = default (fr_at s) (fr_event_view ev).
Proof.
  intros Hr. refine (_ tt s' es Hr). clear Hr.
  change (wlp (fork_receiver_worker feat cfg ks ev) (λ _ s' _, fr_at s' = default (fr_at s) (fr_event_view ev)) s).
  destruct ev as [ae [|name sub]|[v c|n|ae sender]]; cbn [fork_receiver_worker fr_event_view handle_command default].
  - by wlp_prims.
  - apply process_fork_still.
  - apply wlp_bind. intros s0 s1 e1 _. apply wlp_bind. intros ? s2 e2 _. apply wlp_bind. intros ? s3 e3 [= _ <- _].
    apply wlp_bind. eapply (wlp_mono _ (λ _ s' _, fr_at s' = (v, c))); [|destruct (_ && _); [apply (next_part_still (fr_set_view v c s2))|by wlp_prims]].
    intros ? s4 e4 H4. unfold maybe_unblock. wlp_prims. rewrite <- H4. by case_match.
  - revert s. change (steps_by fr_still (handle_command feat cfg ks (MultipartNack n))). cbn [handle_command]. unfold maybe_unblock. fr_stays.
  - apply process_fork_still.
Qed.

End followers.

(** * The node *)

Definition ctl_view (m : NodeMsg) : option (Z * Z) := match m with MControl c => Some (cmd_view c) | _ => None end.
Definition frk_view (m : NodeMsg) : option (Z * Z) := match m with MForkCmd (FrUpdateView v c) => Some (v, c) | _ => None end.

Section node_views.
Context `{HIt : HashIter, HC : Codec, HE : Ed25519} {E : Type} `{HA : AppEngine E}.
Context (feat : Features) (cfg : Config) (ks : KeyStore) (evil : option EvilConfig) (node_infos : string).
Implicit Types s : Node E.

Lemma staging_seq_views es : es ≫= (λ m, route_staging m ≫= part ctl_view) = omap seq_view es.
Proof. induction es as [|m es IH]; [done|]. cbn. rewrite IH. by destruct m as [|?|[]|?|?|?|? ?|?|?|?|? ?|? ? ?| |]. Qed.
Lemma staging_fork_views es : es ≫= (λ m, route_staging m ≫= part frk_view) = omap fork_view es.
Proof. induction es as [|m es IH]; [done|]. cbn. rewrite IH. by destruct m as [|[]|[]|?|?|?|? ?|?|?|?|? ?|? ? ?| |]. Qed.

Lemma sent_seq_views acts s s' :
  nd_trace s = [] → node_run feat cfg ks evil node_infos acts s = Next s' →
  omap ctl_view (nd_trace s' ≫= entry_sends) = omap seq_view (staging_sent (nd_trace s')).
Proof.
  apply (sent_by_staging feat cfg ks evil node_infos ctl_view (omap seq_view)); [done|intros; apply omap_app| |].
  - intros a m Hf. destruct (fed_channel a m Hf) as [?|[?|[?|[?|[?|(ae & sender & ->)]]]]]; [by destruct m..|done].
  - intros t s1 s2 _. destruct t; cbn [effects]; rewrite routed_part; try (apply bind_nil; intros []; done). apply staging_seq_views.
Qed.

Lemma sent_fork_views acts s s' :
  nd_trace s = [] → node_run feat cfg ks evil node_infos acts s = Next s' →
  omap frk_view (nd_trace s' ≫= entry_sends) = omap fork_view (staging_sent (nd_trace s')).
Proof.
  apply (sent_by_staging feat cfg ks evil node_infos frk_view (omap fork_view)); [done|intros; apply omap_app| |].
  - intros a m Hf. destruct (fed_channel a m Hf) as [?|[?|[?|[?|[?|(ae & sender & ->)]]]]]; [by destruct m..|done].
  - intros t s1 s2 (_ & _ & Hb & _). destruct t; cbn [effects]; rewrite routed_part; try (apply bind_nil; intros []; done).
    + apply (broadcaster_part _ _ _ _ _ frk_view _ _ _ _ Hb). by intros [|?| |[] |] Hm.
    + apply staging_fork_views.
Qed.

(** The runs of the three tasks. *)
Lemma replays_views l x x' : replays (staging_step feat cfg ks) l x x' → view_step x x' (l ≫= snd).
Proof.
  revert x. induction l as [|[ev es] l IH]; intros x; cbn; [intros ->; apply (step_rel_refl (R := view_step))|].
  intros (x1 & (r & Hw) & Hl). eapply (step_rel_trans (R := view_step)); [exact (views_worker feat cfg ks ev _ _ _ _ Hw)|by apply IH].
Qed.

Lemma replays_sq l x x' :
  replays (sequencer_step feat cfg ks) l x x' → sq_at x' = latest (sq_at x) (omap (λ e, sq_event_view e.1.2) l).
Proof.
  revert x. induction l as [|[[qs ev] es] l IH]; intros x; cbn; [by intros ->|]. intros (x1 & Hw & Hl).
  rewrite (IH _ Hl), (sequencer_view _ _ _ _ _ _ _ _ Hw). destruct (sq_event_view ev) as [p|]; [|done].
  change (p :: ?l) with ([p] ++ l). by rewrite latest_app.
Qed.

Lemma replays_fr l x x' :
  replays (fork_receiver_step feat cfg ks) l x x' → fr_at x' = latest (fr_at x) (omap (λ e, fr_event_view e.1.2) l).
Proof.
  revert x. induction l as [|[[lq ev] es] l IH]; intros x; cbn; [by intros ->|]. intros (x1 & [_ Hw] & Hl).
  rewrite (IH _ Hl), (fork_receiver_view _ _ _ _ _ _ _ _ Hw). destruct (fr_event_view ev) as [p|]; [|done].
  change (p :: ?l) with ([p] ++ l). by rewrite latest_app.
Qed.

Lemma received_seq_views tr : omap ctl_view (received_on ChControl tr) = omap (λ e, sq_event_view e.1.2) (omap sequencer_steps tr).
Proof.
  unfold received_on. rewrite channel_part by (intros []; cbn; by intros []). induction tr as [|[m|t] tr IH]; [done|done|].
  cbn [mbind list_bind entry_received]. rewrite omap_app, IH. assert (∀ qs, omap ctl_view (map MQc qs) = []) as Hqs by (by induction qs).
  destruct t as [[]|qs [] es|? [? []| |]|[]|? []|[] es|? [[]|]|? []|? []]; cbn; rewrite ?omap_app, ?Hqs; done.
Qed.

Lemma received_fork_views tr : omap frk_view (received_on ChForkCmd tr) = omap (λ e, fr_event_view e.1.2) (omap fork_receiver_steps tr).
Proof.
  unfold received_on. rewrite channel_part by (intros []; cbn; by intros []). induction tr as [|[m|t] tr IH]; [done|done|].
  cbn [mbind list_bind entry_received]. rewrite omap_app, IH. assert (∀ qs, omap frk_view (map MQc qs) = []) as Hqs by (by induction qs).
  destruct t as [[]|qs [] es|? [? []| |]|[]|? [|[]]|[] es|? [[]|]|? []|? []]; cbn; rewrite ?omap_app, ?Hqs; done.
Qed.

Lemma node_new_views storage (n0 : Node E) :
  node_new feat cfg storage = Some n0 →
  nd_trace n0 = [] ∧ nd_queue n0 = [] ∧ nd_staging n0 = staging_new feat ∧ nd_sequencer n0 = sequencer_new feat ∧
  nd_fork_receiver n0 = fork_receiver_new feat.
Proof. unfold node_new. destruct (_ =? _)%nat, storage; try done. intros (bp & _ & [= <-])%bind_Some. done. Qed.

Lemma latest_in d l : latest d l = d ∨ latest d l ∈ l.
Proof. unfold latest. destruct (list.last l) as [p|] eqn:Hl; [right|by left]. cbn. by apply last_Some_elem_of. Qed.

(** A follower that took the announcements [recv] of those that were made. *)
Lemma follows d d0 recv rest x :
  d.1 = d0.1 → x = latest d0 (recv ++ rest) → d0.1 ≤ x.1 → Forall (λ p, p.1 ≤ x.1) (recv ++ rest) →
  (latest d recv).1 ≤ x.1 ∧ (rest = [] → (latest d recv).1 = x.1 ∧ (x.1 ≠ d0.1 → latest d recv = x)).
Proof.
  intros Hd Hx Hle Hall. split.
  - destruct (latest_in d recv) as [->|Hin]; [by rewrite Hd|]. rewrite list.Forall_forall in Hall. apply Hall, elem_of_app. by left.
  - intros ->. rewrite app_nil_r in Hx. unfold latest in *. destruct (list.last recv) as [p|]; cbn in *; subst; [done|]. done.
Qed.

(** What was announced and what was taken, on one of the two channels. *)
Lemma channel_views c (f : NodeMsg → option (Z * Z)) s :
  (∀ m, is_Some (f m) → channel_of m = c) → fifo c s →
  omap f (nd_trace s ≫= entry_sends) = omap f (received_on c (nd_trace s)) ++ omap f (on_channel c (nd_queue s)).
Proof. intros Hf Hfifo. rewrite <- (channel_part f c) by done. fold (sent_on c (nd_trace s)). by rewrite Hfifo, omap_app. Qed.

End node_views.

(** * Property *)

(** C25: the tasks of a node follow the view of its staging.  After any interleaving of the
    tasks of an assembled node, neither the block sequencer nor the fork receiver is ahead of
    staging, and once the commands to one of them have been taken it is in the view of
    staging (and in its configuration, if staging has left the initial view). *)
Theorem node_views_follow `{HashIter, Codec, Ed25519} {E} `{AppEngine E} (feat : Features) (cfg : Config) (ks : KeyStore)
    (evil : option EvilConfig) (node_infos : string) (storage : StorageKind) (n0 s : Node E) (acts : list NodeAct) :
  let v := Staging.st_view (nd_staging s) in
  let moved := v ≠ Staging.st_view (staging_new feat) in
  node_new feat cfg storage = Some n0 → node_run feat cfg ks evil node_infos acts n0 = Next s →
  sq_view (nd_sequencer s) ≤ v ∧ fr_view (nd_fork_receiver s) ≤ v ∧
  (on_channel ChControl (nd_queue s) = [] →
    sq_view (nd_sequencer s) = v ∧ (moved → sq_config_num (nd_sequencer s) = st_config_num (nd_staging s))) ∧
  (on_channel ChForkCmd (nd_queue s) = [] →
    fr_view (nd_fork_receiver s) = v ∧ (moved → fr_config_num (nd_fork_receiver s) = st_config_num (nd_staging s))).
Proof.
  intros v moved Hnew Hrun. destruct (node_new_views _ _ _ _ Hnew) as (Htr & Hq & Hst & Hsq & Hfr).
  pose proof (replays_views _ _ _ _ _ _ (staging_replays feat cfg ks evil node_infos _ _ _ Htr Hrun)) as [V1 V2 V3 V4].
  rewrite <- staging_sent_steps, <- (sent_seq_views feat cfg ks evil node_infos _ _ _ Htr Hrun) in V1.
  rewrite <- staging_sent_steps, <- (sent_fork_views feat cfg ks evil node_infos _ _ _ Htr Hrun) in V2.
  rewrite <- staging_sent_steps, <- (sent_seq_views feat cfg ks evil node_infos _ _ _ Htr Hrun),
    <- (sent_fork_views feat cfg ks evil node_infos _ _ _ Htr Hrun) in V4. apply Forall_app in V4 as [V4 V5].
  assert (∀ c, fifo c s) as Hf by (intros c; eapply fifo_run; [|done]; unfold fifo; by rewrite Htr, Hq).
  rewrite (channel_views ChControl) in V1, V4 by (done || (intros []; cbn; by intros [])).
  rewrite (channel_views ChForkCmd) in V2, V5 by (done || (intros []; cbn; by intros [])).
  rewrite Hst in V1, V2, V3.
  destruct (follows (sq_at (nd_sequencer n0)) (at_view (staging_new feat)) _ _ _ ltac:(by rewrite Hsq; destruct (f_view_change feat)) V1 V3 V4) as [A1 A2].
  destruct (follows (fr_at (nd_fork_receiver n0)) (at_view (staging_new feat)) _ _ _ ltac:(by rewrite Hfr; destruct (f_view_change feat)) V2 V3 V5) as [B1 B2].
  rewrite received_seq_views, <- (replays_sq _ _ _ _ _ _ (sequencer_replays feat cfg ks evil node_infos _ _ _ Htr Hrun)) in A1, A2.
  rewrite received_fork_views, <- (replays_fr _ _ _ _ _ _ (fork_receiver_replays feat cfg ks evil node_infos _ _ _ Htr Hrun)) in B1, B2.
  split_and!; [exact A1|exact B1|intros He; rewrite He in A2|intros He; rewrite He in B2].
  - destruct (A2 eq_refl) as [A3 A4]. split; [exact A3|]. intros Hm. specialize (A4 Hm). by injection A4.
  - destruct (B2 eq_refl) as [B3 B4]. split; [exact B3|]. intros Hm. specialize (B4 Hm). by injection B4.
Qed.

(** A node whose view timer fires: the sequencer takes its command, the fork receiver has not
    taken its own yet. *)
Definition timed_acts : list NodeAct := [AcStTimer true; AcSeqControl 0].

Definition timed_new : Node NullApp :=
  default leader_new (node_new (E := NullApp) pirateship_features leader_cfg RocksDBStorage).

Definition timed_node : Node NullApp :=
  match @node_run map_to_list_iter (toy_codec (nascent Serialize.toy_block)) toy_ed NullApp null_engine pirateship_features leader_cfg
          toy_keystore None "" timed_acts timed_new with
  | Next s => s
  | _ => timed_new
  end.

Lemma node_views_follow_witness :
  Staging.st_view (nd_staging timed_node) = 1 ∧ fr_view (nd_fork_receiver timed_node) = 0 ∧
  on_channel ChForkCmd (nd_queue timed_node) ≠ [] ∧
  fr_view (nd_fork_receiver timed_node) ≤ Staging.st_view (nd_staging timed_node) ∧
  sq_view (nd_sequencer timed_node) = Staging.st_view (nd_staging timed_node) ∧
  sq_config_num (nd_sequencer timed_node) = st_config_num (nd_staging timed_node).
Proof.
  destruct (@node_views_follow map_to_list_iter (toy_codec (nascent Serialize.toy_block)) toy_ed NullApp null_engine pirateship_features
    leader_cfg toy_keystore None "" RocksDBStorage timed_new timed_node timed_acts) as (_ & Hle & Hsq & _).
  - vm_compute. reflexivity.
  - vm_compute. reflexivity.
  - destruct Hsq as [Hv Hc]; [vm_compute; reflexivity|].
    split; [vm_compute; reflexivity|]. split; [vm_compute; reflexivity|]. split; [vm_compute; discriminate|].
    split; [exact Hle|]. split; [exact Hv|]. apply Hc. vm_compute. discriminate.
Defined.
