(* ===== verification/NodeStore.v ===== *)
(** The store of the assembled node (Node.v) with the key-value engine: under every
    interleaving of the tasks the application has executed a prefix of the log that staging
    committed, whatever else it was asked meanwhile, and all of it once its channel is empty.
    The proof joins the runs of the two tasks (NodeTheorems.v), the order of their channel and
    the theorems on staging and the application of Execution.v. *)

From stdpp Require Import base numbers list gmap strings option sorting.
From S2P Require Import Prelude Types Config Serialize Crypto Chain Staging StagingProofs StagingTheorems StagingExec Agreement Pacemaker LogServer ClientReply App Kvs Execution Sequencer ForkReceiver Broadcaster Server Node NodeTheorems.

(** * Commands that change the store *)

Definition store_cmd (c : AppCommand) : option AppCommand :=
  match c with NewRequestBatch _ _ _ _ _ _ => None | _ => Some c end.
Definition event_cmd (e : AppEvent * list AppMsg) : option AppCommand :=
  match e.1 with AppEvStaging c => store_cmd c | _ => None end.
Definition msg_cmd (m : NodeMsg) : option AppCommand := match m with MApp c => store_cmd c | _ => None end.

Lemma msg_cmd_channel ms : omap msg_cmd (on_channel ChApp ms) = omap msg_cmd ms.
Proof. apply channel_part. intros []; cbn; by intros []. Qed.

Lemma staging_cmds es : es ≫= (λ m, route_staging m ≫= part msg_cmd) = omap store_cmd (app_commands es).
Proof.
  unfold app_commands. induction es as [|m es IH]; [done|]. cbn. rewrite IH.
  destruct m as [|?|[]|[]|?|?|? ?|?|?|?|? ?|? ? ?| |]; done.
Qed.

(** * The channel of the application *)

Section node_cmds.
Context `{HIt : HashIter, HC : Codec, HE : Ed25519} {E : Type} `{HA : AppEngine E}.
Context (feat : Features) (cfg : Config) (ks : KeyStore) (evil : option EvilConfig) (node_infos : string).
Implicit Types s : Node E.

Lemma task_cmds t s s' :
  task_ran feat cfg ks evil node_infos t s s' →
  omap msg_cmd (sends (effects t)) = omap store_cmd (app_commands (step_sent t)).
Proof.
  intros (_ & _ & Hb & _). destruct t as [ev es|qs ev es|put ev es|ev es|lq ev es|ev es|res ev es|bs ev es|lq ev es]; cbn [effects];
    rewrite routed_part; try (apply bind_nil; intros []; done).
  - apply (broadcaster_part _ _ _ _ _ msg_cmd _ _ _ _ Hb). by intros [|?|[] |?|] Hm.
  - apply staging_cmds.
Qed.

Lemma sent_cmds acts s s' :
  nd_trace s = [] → node_run feat cfg ks evil node_infos acts s = Next s' →
  omap msg_cmd (sent_on ChApp (nd_trace s')) = omap store_cmd (app_commands (staging_sent (nd_trace s'))).
Proof.
  unfold sent_on. rewrite msg_cmd_channel.
  apply (sent_by_staging feat cfg ks evil node_infos msg_cmd (λ es, omap store_cmd (app_commands es))); [done| | |exact task_cmds].
  - intros es1 es2. unfold app_commands. by rewrite !omap_app.
  - intros a m Hf. destruct (fed_channel a m Hf) as [?|[?|[?|[?|[?|(ae & sender & ->)]]]]]; [by destruct m..|done].
Qed.

Lemma received_cmds (tr : list Entry) :
  omap msg_cmd (received_on ChApp tr) = omap event_cmd (omap app_steps tr).
Proof.
  unfold received_on. rewrite msg_cmd_channel. induction tr as [|[m|t] tr IH]; [done|done|]. cbn [mbind list_bind entry_received].
  rewrite omap_app, IH. assert (∀ qs, omap msg_cmd (map MQc qs) = []) as Hqs by (by induction qs).
  destruct t as [[]|qs [] es|? [? []| |]|[]|? []|[] es|? [[]|]|? []|? []]; cbn; rewrite ?omap_app, ?Hqs; try done.
  by destruct (store_cmd _).
Qed.

End node_cmds.

(** * The application *)

Section same_store.
Context `{HIt : HashIter} (feat : Features).
Implicit Types a d : Application KVSAppEngine.

(** The statistics aside, the state a command depends on. *)
Definition same_store a d : Prop := app_engine a = app_engine d ∧ App.st_bci (app_stats a) = App.st_bci (app_stats d).

Lemma handle_same c a a1 m1 d :
  handle_staging_command c a = Some (tt, a1, m1) → same_store a d →
  ∃ d1 m2, handle_staging_command c d = Some (tt, d1, m2) ∧ same_store a1 d1.
Proof.
  destruct a as [e st], d as [e' st']. intros Hc [He Hb]. cbn in He, Hb. subst e'.
  destruct c as [n v stb ld ln lh|bs|l|r]; cbn [handle_staging_command] in *.
  - injection Hc as <- <-. by eexists _, _.
  - unfold app_crash_commit, on_engine, mbind, M_bind, get, unwrap, assert_, mret, M_ret, modify, update_stats in *. cbn [app_engine] in *.
    destruct (eng_crash_commit bs e) as [[rs e1]|]; [|done]. cbn in *. destruct (_ =? _)%nat; [|done]. injection Hc as <- <-. by eexists _, _.
  - unfold app_byz_commit, on_engine, mbind, M_bind, get, unwrap, assert_, mret, M_ret, modify, update_stats in *. cbn [app_engine] in *.
    destruct (eng_byz_commit l e) as [[rs e1]|]; [|done]. cbn in *. destruct (_ =? _)%nat; [|done]. injection Hc as <- <-. eexists _, _.
    split; [done|]. split; [done|]. cbn. by rewrite Hb.
  - injection Hc as <- <-. eexists _, _. split; [done|]. split; [cbn; by rewrite Hb|done].
Qed.

(** Everything else leaves it alone: reports of batches, requests that are not logged,
    checkpoints and the log timer. *)
Lemma other_same ev a a1 m1 :
  app_worker feat ev a = Some (tt, a1, m1) → event_cmd (ev, m1) = None → same_store a a1.
Proof.
  destruct ev as [[n v stb ld ln lh|bs|l|r]|req alive| |]; cbn; try done.
  - by intros [= <- <-].
  - unfold handle_unlogged_request, on_engine, mbind, M_bind, get, unwrap, assert_, mret, M_ret, modify, update_stats.
    destruct (_ && _); [by intros [= <- <-]|]. cbn. unfold kvs_unlogged. destruct (on_receive req) as [ph|]; cbn.
    + destruct (mapM _ _); cbn; [|done]. destruct alive; cbn; [|done]. by intros [= <- <-].
    + destruct alive; cbn; [|done]. by intros [= <- <-].
  - unfold checkpoint, mbind, M_bind, get. destruct (_ >? _); by intros [= <- <-].
  - by intros [= <- <-].
Qed.

Lemma same_trans a b d : same_store a b → same_store a d → same_store b d.
Proof. intros [? ?] [? ?]. split; congruence. Qed.

Lemma replays_store l a a' d :
  replays (app_step feat) l a a' → same_store a d →
  ∃ d' ms, app_exec (omap event_cmd l) d = Some (d', ms) ∧ same_store a' d'.
Proof.
  revert a d. induction l as [|[ev es] l IH]; intros a d; [cbn; intros -> Hs; by eexists _, _|].
  intros (a1 & Hw & Hl) Hs. change (omap event_cmd ((ev, es) :: l)) with
    (match event_cmd (ev, es) with Some c => c :: omap event_cmd l | None => omap event_cmd l end).
  destruct (event_cmd (ev, es)) as [c|] eqn:Hc.
  - destruct ev as [cmd| | |]; try done. assert (c = cmd) as -> by (destruct cmd; cbn in Hc; by simplify_eq).
    destruct (handle_same _ _ _ _ _ Hw Hs) as (d1 & m2 & Hd & Hs1). destruct (IH _ _ Hl Hs1) as (d' & ms & Hex & Hs').
    eexists _, _. cbn [app_exec]. by rewrite Hd; cbn; rewrite Hex.
  - apply (IH a1); [done|]. eapply same_trans; [by eapply other_same|done].
Qed.

Lemma exec_replays cmds a a' ms :
  app_exec cmds a = Some (a', ms) →
  ∃ l, replays (app_step feat) l a a' ∧ omap event_cmd l = omap store_cmd cmds.
Proof.
  revert a ms. induction cmds as [|c cmds IH]; intros a ms; cbn [app_exec]; [intros [= <- <-]; by exists []|].
  intros ([[[] a1] m1] & Hc & ([a2 m2] & Hex & [= <- <-])%bind_Some)%bind_Some.
  destruct (IH _ _ Hex) as (l & Hl & He). exists ((AppEvStaging c, m1) :: l). split; [by exists a1|]. cbn. by rewrite He.
Qed.

(** The same commands that change the store, the same store. *)
Lemma same_cmds_store cmds l a a' d ms :
  replays (app_step feat) l a a' → app_exec cmds a = Some (d, ms) → omap event_cmd l = omap store_cmd cmds → same_store a' d.
Proof.
  intros Hl Hex He. destruct (exec_replays _ _ _ _ Hex) as (l2 & Hl2 & He2).
  destruct (replays_store _ _ _ a Hl) as (d1 & m1 & H1 & Hs1); [done|]. destruct (replays_store _ _ _ a Hl2) as (d2 & m2 & H2 & Hs2); [done|].
  rewrite He, <- He2, H2 in H1. injection H1 as -> ->. destruct Hs1, Hs2. split; congruence.
Qed.

End same_store.

(** * Prefixes *)

Lemma commands_ok_prefix X es1 es2 : commands_ok X (es1 ++ es2) → commands_ok X es1.
Proof.
  revert X. induction es1 as [|m es1 IH]; intros X; [done|].
  destruct m as [|?|?|[]|?|?|? ?|?|?|?|? ?|? ? ?| |]; cbn; try apply IH; intros [? ?]; eauto.
Qed.

Lemma omap_prefix {A B} (f : A → option B) l p q : omap f l = p ++ q → ∃ l1 l2, l = l1 ++ l2 ∧ omap f l1 = p.
Proof.
  revert l. induction p as [|b p IH]; intros l; [by exists [], l|]. induction l as [|x l IHl]; [done|]. cbn. destruct (f x) as [y|] eqn:Hx.
  - intros [= -> Hl]. destruct (IH _ Hl) as (l1 & l2 & -> & <-). exists (x :: l1), l2. cbn. by rewrite Hx.
  - intros Hl. destruct (IHl Hl) as (l1 & l2 & -> & Hp). exists (x :: l1), l2. cbn. by rewrite Hx.
Qed.

Lemma spec_store_prefix l1 l2 m : spec_store (l1 ++ l2) = Some m → is_Some (spec_store l1).
Proof. unfold spec_store. rewrite run_all_app. destruct (run_all spec_block ∅ l1) as [[m0 r0]|]; [by eexists|done]. Qed.

(** * The node *)

Section node_store.
Context `{HIt : HashIter, HC : Codec, HE : Ed25519}.
Context (feat : Features) (cfg : Config) (ks : KeyStore) (evil : option EvilConfig) (node_infos : string).
Implicit Types s : Node KVSAppEngine.

Lemma replays_ordered l x x' :
  replays (staging_step feat cfg ks) l x x' → deliverable_in_order feat cfg ks (map fst l) x →
  ordered_run feat cfg ks x (map fst l) x' (l ≫= snd).
Proof.
  revert x. induction l as [|[ev es] l IH]; intros x; cbn; [intros -> _; constructor|].
  intros (x1 & (r & Hw) & Hl) [(H1 & H2 & H3 & H4) Hd]. unfold sent, after in *. rewrite Hw in *. econstructor; eauto.
Qed.

(** A store that received the commands among [es1], the first messages of staging. *)
Lemma store_of_prefix a0 l x es1 es2 evs m :
  deployed feat cfg ks → ordered_run feat cfg ks (staging_new feat) evs x (es1 ++ es2) →
  byz_silent (byz_blocks (es1 ++ es2)) = true → spec_store (crash_blocks (es1 ++ es2)) = Some m →
  replays (app_step feat) l (mkApplication kvs_new (stats_new feat default_hash)) a0 →
  omap event_cmd l = omap store_cmd (app_commands es1) →
  ∃ mk, spec_store (crash_blocks es1) = Some mk ∧ ∀ k, kvs_read (kvs_state (app_engine a0)) k = Some (mk !! k).
Proof.
  intros Hdep Hr Hsil Hm Hl He. destruct (ordered_log feat cfg ks Hdep evs x _ Hr) as (_ & Hk & Hs1 & Hs2 & Hbd).
  rewrite crash_blocks_app, byz_blocks_app in *. destruct (spec_store_prefix _ _ _ Hm) as [mk Hmk]. exists mk. split; [done|].
  unfold byz_silent in Hsil. rewrite forallb_app in Hsil. apply andb_true_iff in Hsil as [Hsil _].
  destruct (app_exec_rel es1 (mkApplication kvs_new (stats_new feat default_hash)) [] 0 mk) as (a & ms & b & Hrun & [[Hinv _] _]); try done.
  { split; [apply engine_rel_new|done]. }
  { by eapply sorted_prefix. }
  { by eapply sorted_prefix. }
  { intros y Hy. apply Hbd. set_solver. }
  { by eapply commands_ok_prefix. }
  destruct (same_cmds_store feat _ _ _ _ _ _ Hl Hrun He) as [-> _]. destruct (kvs_inv_reads _ _ Hinv) as (m' & Hm' & Hreads).
  cbn [el_blocks app] in Hm'. rewrite Hmk in Hm'. by simplify_eq.
Qed.

(** What the application received of what staging sent. *)
Lemma received_prefix acts s s' :
  nd_trace s = [] → nd_queue s = [] → node_run feat cfg ks evil node_infos acts s = Next s' →
  ∃ es1 es2, staging_sent (nd_trace s') = es1 ++ es2 ∧
    omap event_cmd (omap app_steps (nd_trace s')) = omap store_cmd (app_commands es1) ∧
    (on_channel ChApp (nd_queue s') = [] → es2 = []).
Proof.
  intros Htr Hq Hrun. assert (fifo ChApp s') as Hf by (eapply fifo_run; [|done]; unfold fifo; by rewrite Htr, Hq).
  apply (f_equal (omap msg_cmd)) in Hf. rewrite omap_app, received_cmds, (sent_cmds feat cfg ks evil node_infos _ _ _ Htr Hrun) in Hf.
  destruct (decide (on_channel ChApp (nd_queue s') = [])) as [He|He].
  - rewrite He, app_nil_r in Hf. exists (staging_sent (nd_trace s')), []. by rewrite app_nil_r.
  - apply omap_prefix in Hf as (c1 & c2 & Hc & Hc1). apply omap_prefix in Hc as (es1 & es2 & -> & <-). by exists es1, es2.
Qed.

Lemma node_new_store storage (n0 : Node KVSAppEngine) :
  node_new feat cfg storage = Some n0 →
  nd_trace n0 = [] ∧ nd_queue n0 = [] ∧ nd_staging n0 = staging_new feat ∧ nd_app n0 = mkApplication kvs_new (stats_new feat default_hash).
Proof.
  unfold node_new. destruct (_ =? _)%nat, storage; try done. intros (bp & _ & [= <-])%bind_Some. done.
Qed.

End node_store.

(** * Property *)


(** * A follower *)

(** Unsigned blocks whose one transaction writes its number under a key of its own. *)
Definition plain_block (n : Z) (stable : bool) (parent : HashType) (body : u8) : CachedBlock :=
  mkCached (mkBlock [kv_tx n] n parent 1 [] [] stable 1 (Some NoSig)) (zeros 64 ++ parent ++ [body]) (body :: take 63 parent).
Definition plain_b1 : CachedBlock := plain_block 1 false (zeros 64) Byte.x01.
Definition plain_b2 : CachedBlock := plain_block 2 true (cb_hash plain_b1) Byte.x02.
Definition plain_b3 : CachedBlock := plain_block 3 true (cb_hash plain_b2) Byte.x03.

(** A codec that knows these three. *)
Definition plain_codec : Codec :=
  {| encode_block := λ b, [if pb_n b =? 1 then Byte.x01 else if pb_n b =? 2 then Byte.x02 else Byte.x03];
     decode_block := λ x, if bool_decide (x = [Byte.x01]) then Some (nascent (cb_block plain_b1)) else
                          if bool_decide (x = [Byte.x02]) then Some (nascent (cb_block plain_b2)) else
                          if bool_decide (x = [Byte.x03]) then Some (nascent (cb_block plain_b3)) else None;
     encode_qc := λ _, [];
     sha512 := λ x, take 64 (x ++ zeros 64) |}.

Definition known_log : LogQuery := {| lq_check_hash := λ _ _, true; lq_get_hints := λ _, [] |}.
Definition put_stored : CachedBlock → StorageAck := λ _, Some Stored.
Definition ae_of (b : CachedBlock) (ci : Z) : ProtoAppendEntries :=
  mkAE (Some (mkFork [half_serialize b])) ci 1 (pb_view_is_stable (cb_block b)) 1 false.

(** A message from the leader with one block, up to staging. *)
Definition deliver (b : CachedBlock) (ci : Z) : list NodeAct :=
  [AcServer (PmAppendEntries (ae_of b ci)) "node1" 0 0; AcFrFork known_log; AcBcOther put_stored; AcStBlock].
Definition read_tx : ProtoTransaction := mkTx (Some (mkPhase [toy_op Read [be_bytes 8 1]])) None None false false.
Definition follower_acts : list NodeAct :=
  deliver plain_b1 0 ++ [AcFrCmd known_log] ++ deliver plain_b2 1 ++
  [AcAppCmd; AcFeed (Some read_tx, mkAckChan 0 7 Anon); AcBatchTx false; AcAppUnlogged true; AcAppCmd; AcAppCheckpoint] ++
  deliver plain_b3 2 ++ replicate 6 AcAppCmd.

Definition follower_new : Node KVSAppEngine :=
  let HI := map_to_list_iter in
  mkNode (mkBatchProposer [] [] false "") (sequencer_new pirateship_features) broadcaster_new (staging_new pirateship_features)
    (fork_receiver_new pirateship_features) (mkApplication (eng_new (bound_cfg "node2")) (stats_new pirateship_features default_hash))
    client_reply_new logserver_new pacemaker_new (mkHalted false false false) [] [].
Definition follower : Node KVSAppEngine :=
  let HI := map_to_list_iter in
  match @node_run HI plain_codec bound_ed KVSAppEngine kvs_engine pirateship_features (bound_cfg "node2") bound_keystore None ""
          follower_acts follower_new with
  | Next s => s
  | _ => follower_new
  end.

Lemma plain_blocks_ok b : b ∈ [plain_b1; plain_b2; plain_b3] → @block_ok plain_codec b.
Proof.
  rewrite !elem_of_cons, elem_of_nil. intros [->|[->|[->|[]]]].
  all: split; [split; vm_compute; reflexivity|vm_compute; split; [discriminate|reflexivity]|intros q Hq; by apply not_elem_of_nil in Hq].
Qed.

Lemma follower_deliverable :
  @deliverable_in_order map_to_list_iter plain_codec bound_ed pirateship_features (bound_cfg "node2") bound_keystore
    (staging_events (nd_trace follower)) (staging_new pirateship_features).
Proof.
  replace (staging_events (nd_trace follower)) with
    [EvBlock plain_b1 (Some Stored) (mkAEStats 1 false 1 "node1" 0) true;
     EvBlock plain_b2 (Some Stored) (mkAEStats 1 true 1 "node1" 1) true;
     EvBlock plain_b3 (Some Stored) (mkAEStats 1 true 1 "node1" 2) true] by (vm_compute; reflexivity).
  do 3 (split; [split; [split; [apply plain_blocks_ok; rewrite !elem_of_cons; tauto|eauto
                              |intros _; apply fresh_number; vm_compute; reflexivity]
                       |split; [reflexivity|split; [intros _; vm_compute; reflexivity|vm_compute; reflexivity]]]|]).
  exact I.
Qed.

Definition plain_store : gmap bytes bytes := default ∅ (spec_store [plain_b1; plain_b2]).

Lemma plain_store_spec : spec_store [plain_b1; plain_b2] = Some plain_store.
Proof.
  unfold plain_store. destruct (spec_store _) as [m|] eqn:Hm; [done|]. exfalso.
  assert (match spec_store [plain_b1; plain_b2] with Some _ => true | None => false end = true) as Hs by (vm_compute; reflexivity).
  by rewrite Hm in Hs.
Qed.

