(* ===== verification/Support.v ===== *)
(** What the tasks are set up with and measured by: the shared configuration and key store
    (src/src/utils/atomic_struct.rs), the configuration of a client (src/src/config/mod.rs),
    the list of public keys (src/src/crypto/ed25519.rs), the statistics of the client
    (src/src/client/logger.rs) and the performance counters (src/src/utils/perf.rs).
    Times and durations are nanoseconds. *)

From stdpp Require Import base numbers list gmap strings option sorting.
From S2P Require Import ClientWorker Prelude Types Config.

(** * AtomicStruct

    An [Arc] in an [AtomicCell].  [get] clones the [Arc] through a raw pointer: it loads the
    pointer and then increments its count, and nothing stops a [set] in between. *)

Record AtomicStruct (T : Type) := mkAtomic {
  at_cell : nat;                       (* the pointer in the cell *)
  at_heap : gmap nat (nat * T);        (* what is allocated, with its strong count *)
  at_next : nat;
  at_loading : gmap nat nat;           (* threads between the two halves of [get] *)
  at_clones : list nat }.              (* the clones [get] has returned *)

Arguments mkAtomic {T}.
Arguments at_cell {T}.
Arguments at_heap {T}.
Arguments at_next {T}.
Arguments at_loading {T}.
Arguments at_clones {T}.

Inductive AtomicAct (T : Type) :=
  | GetLoad (thread : nat)
  | GetClone (thread : nat)
  | SetStore (val : T)
  | DropClone (p : nat).

Arguments GetLoad {T}.
Arguments GetClone {T}.
Arguments SetStore {T}.
Arguments DropClone {T}.

Section atomic.
Context {T : Type}.
Implicit Types s : AtomicStruct T.

Definition atomic_new (init : T) : AtomicStruct T := mkAtomic 0 {[0%nat := (1%nat, init)]} 1 ∅ [].

(** Dropping an [Arc]: the last one frees the value; [None] if it was freed already. *)
Definition release (p : nat) (h : gmap nat (nat * T)) : option (gmap nat (nat * T)) :=
  match h !! p with
  | Some (S (S k), v) => Some (<[p := (S k, v)]> h)
  | Some (_, _) => Some (delete p h)
  | None => None
  end.

Fixpoint remove_one (p : nat) (l : list nat) : option (list nat) :=
  match l with
  | [] => None
  | q :: l' => if bool_decide (q = p) then Some l' else cons q <$> remove_one p l'
  end.

(** [Panicked] is the use of a value that was freed. *)
Definition atomic_step (a : AtomicAct T) (s : AtomicStruct T) : Outcome (AtomicStruct T) :=
  match a with
  | GetLoad t =>
      match at_loading s !! t with
      | Some _ => Blocked
      | None => Next (mkAtomic (at_cell s) (at_heap s) (at_next s) (<[t := at_cell s]> (at_loading s)) (at_clones s))
      end
  | GetClone t =>
      match at_loading s !! t with
      | None => Blocked
      | Some p =>
          match at_heap s !! p with
          | None => Panicked
          | Some (k, v) =>
              Next (mkAtomic (at_cell s) (<[p := (S k, v)]> (at_heap s)) (at_next s) (delete t (at_loading s)) (p :: at_clones s))
          end
      end
  | SetStore v =>
      match release (at_cell s) (<[at_next s := (1%nat, v)]> (at_heap s)) with
      | None => Panicked
      | Some h => Next (mkAtomic (at_next s) h (S (at_next s)) (at_loading s) (at_clones s))
      end
  | DropClone p =>
      match remove_one p (at_clones s) with
      | None => Blocked
      | Some l =>
          match release p (at_heap s) with
          | None => Panicked
          | Some h => Next (mkAtomic (at_cell s) h (at_next s) (at_loading s) l)
          end
      end
  end.

Definition atomic_run : list (AtomicAct T) → AtomicStruct T → Outcome (AtomicStruct T) := run_steps atomic_step.

(** ** Safe when no [set] comes between the halves of a [get] *)

Fixpoint quiet_sets (acts : list (AtomicAct T)) s : Prop :=
  match acts with
  | [] => True
  | a :: acts' =>
      match a with SetStore _ => at_loading s = ∅ | _ => True end ∧
      match atomic_step a s with Next s1 => quiet_sets acts' s1 | _ => True end
  end.

Definition clones_of (p : nat) (l : list nat) : nat := length (filter (λ q, q = p) l).

(** The references to a value: the cell and the clones. *)
Definition refs s (p : nat) : nat := ((if bool_decide (at_cell s = p) then 1 else 0) + clones_of p (at_clones s))%nat.

Definition counted (h : gmap nat (nat * T)) (f : nat → nat) : Prop :=
  ∀ p, fst <$> h !! p = if (f p =? 0)%nat then None else Some (f p).

Record atomic_ok (s : AtomicStruct T) (v : T) : Prop := {
  ao_counted : counted (at_heap s) (refs s);
  ao_fresh : ∀ p, (at_next s ≤ p)%nat → refs s p = 0%nat;
  ao_loading : ∀ t p, at_loading s !! t = Some p → p = at_cell s;
  ao_value : snd <$> at_heap s !! at_cell s = Some v }.

Lemma release_counted p k h f :
  counted h f → f p = S k →
  ∃ h', release p h = Some h' ∧ counted h' (λ q, if bool_decide (q = p) then k else f q) ∧
        (∀ q, q ≠ p ∨ k ≠ 0%nat → snd <$> h' !! q = snd <$> h !! q).
Proof.
  intros Hc Hp. pose proof (Hc p) as Hh. rewrite Hp in Hh. cbn in Hh. unfold release.
  destruct (h !! p) as [[n v]|] eqn:Hl; cbn in Hh; [|done]. injection Hh as ->. destruct k as [|k].
  - exists (delete p h). split; [done|]. split; intros q; [|intros [Hq|?]; [by rewrite lookup_delete_ne|done]].
    destruct (bool_decide_reflect (q = p)) as [->|Hq]; [by rewrite lookup_delete_eq|by rewrite lookup_delete_ne].
  - exists (<[p := (S k, v)]> h). split; [done|]. split; intros q.
    + destruct (bool_decide_reflect (q = p)) as [->|Hq]; [by rewrite lookup_insert_eq|by rewrite lookup_insert_ne].
    + intros _. destruct (decide (q = p)) as [->|Hq]; [by rewrite lookup_insert_eq, Hl|by rewrite lookup_insert_ne].
Qed.

Lemma remove_one_clones p l l' :
  remove_one p l = Some l' → ∀ q, clones_of q l = ((if bool_decide (q = p) then 1 else 0) + clones_of q l')%nat.
Proof.
  revert l'. induction l as [|x l IH]; intros l'; cbn [remove_one]; [done|]. case_bool_decide as Hx.
  - intros [= <-] q. unfold clones_of. case_bool_decide; subst; [by rewrite filter_cons_True|by rewrite filter_cons_False].
  - intros (l1 & Hl1 & ->)%fmap_Some q. specialize (IH l1 Hl1 q). unfold clones_of in *.
    destruct (decide (x = q)); [rewrite !filter_cons_True by done|rewrite !filter_cons_False by done]; cbn [length]; rewrite IH; [|done].
    case_bool_decide; [congruence|done].
Qed.

Lemma atomic_new_ok v : atomic_ok (atomic_new v) v.
Proof.
  split; cbn; [| |done|done].
  - intros p. unfold refs. cbn. case_bool_decide; subst; [done|]. by rewrite lookup_singleton_ne.
  - intros p Hp. unfold refs. cbn. case_bool_decide; [lia|done].
Qed.

Lemma atomic_set_ok v w s :
  atomic_ok s v → at_loading s = ∅ → ∃ s', atomic_step (SetStore w) s = Next s' ∧ atomic_ok s' w.
Proof.
  intros [Hc Hf Hl Hv] H0. pose proof (Hf (at_next s) ltac:(lia)) as Hn.
  assert (at_cell s ≠ at_next s) as Hne by (intros He; unfold refs in Hn; rewrite bool_decide_true in Hn by done; lia).
  set (f q := if bool_decide (q = at_next s) then 1%nat else refs s q).
  assert (counted (<[at_next s := (1%nat, w)]> (at_heap s)) f) as Hc1.
  { intros q. unfold f. case_bool_decide; [subst; by rewrite lookup_insert_eq|by rewrite lookup_insert_ne]. }
  assert (f (at_cell s) = S (clones_of (at_cell s) (at_clones s))) as Hfc.
  { unfold f, refs. by rewrite bool_decide_false, bool_decide_true by done. }
  destruct (release_counted _ _ _ _ Hc1 Hfc) as (h & Hr & Hh & Hval). cbn [atomic_step]. rewrite Hr. eexists. split; [done|].
  split; cbn [at_cell at_heap at_next at_loading at_clones].
  - intros q. rewrite (Hh q). unfold f, refs in *. cbn [at_cell at_clones].
    rewrite (bool_decide_false (at_cell s = at_next s)) in Hn by done. repeat case_bool_decide; subst; try congruence; cbn in *; by rewrite ?Hn.
  - intros q Hq. specialize (Hf q ltac:(lia)). unfold refs in *. cbn [at_cell at_clones]. rewrite (bool_decide_false (at_next s = q)) by lia. lia.
  - intros t q. by rewrite H0, lookup_empty.
  - rewrite Hval by (by left). by rewrite lookup_insert_eq.
Qed.

Lemma atomic_drop_ok p v s :
  atomic_ok s v → match atomic_step (DropClone p) s with Panicked => False | Blocked => True | Next s' => atomic_ok s' v end.
Proof.
  intros [Hc Hf Hl Hv]. cbn [atomic_step]. destruct (remove_one p (at_clones s)) as [l|] eqn:Hr; [|done].
  pose proof (remove_one_clones _ _ _ Hr) as Hcl.
  assert (∀ q, refs s q = ((if bool_decide (q = p) then 1 else 0) + ((if bool_decide (at_cell s = q) then 1 else 0) + clones_of q l))%nat) as Href.
  { intros q. unfold refs. rewrite (Hcl q). lia. }
  destruct (release_counted p _ _ _ Hc (eq_trans (Href p) ltac:(rewrite bool_decide_true by done; reflexivity))) as (h & Hrel & Hh & Hval).
  rewrite Hrel. split; cbn [at_cell at_heap at_next at_loading at_clones]; [| |done|].
  - intros q. rewrite (Hh q), Href. unfold refs. cbn [at_cell at_clones].
    destruct (decide (q = p)) as [->|Hq]; [by rewrite (bool_decide_true (p = p))|by rewrite (bool_decide_false (q = p))].
  - intros q Hq. specialize (Hf q Hq). rewrite Href in Hf. unfold refs. cbn [at_cell at_clones]. lia.
  - rewrite Hval; [done|]. destruct (decide (at_cell s = p)) as [Hp|Hp]; [right; rewrite bool_decide_true by done; lia|by left].
Qed.

Lemma atomic_clone_ok t v s :
  atomic_ok s v → match atomic_step (GetClone t) s with Panicked => False | Blocked => True | Next s' => atomic_ok s' v end.
Proof.
  intros [Hc Hf Hl Hv]. cbn [atomic_step]. destruct (at_loading s !! t) as [p|] eqn:Hp; [|done]. apply Hl in Hp as ->.
  destruct (at_heap s !! at_cell s) as [[k w]|] eqn:Hh; [|done]. injection Hv as ->.
  split; cbn [at_cell at_heap at_next at_loading at_clones].
  - intros q. pose proof (Hc q) as Hq. unfold refs, clones_of in *. cbn [at_cell at_clones]. destruct (decide (at_cell s = q)) as [<-|Hne].
    + rewrite lookup_insert_eq, filter_cons_True by done. rewrite Hh in Hq. cbn in Hq |- *. rewrite bool_decide_true in * by done.
      destruct k; cbn in *; by simplify_eq/=.
    + by rewrite lookup_insert_ne, filter_cons_False by done.
  - intros q Hq. specialize (Hf q Hq). unfold refs, clones_of in *. cbn [at_cell at_clones]. destruct (decide (at_cell s = q)) as [<-|Hne].
    + rewrite bool_decide_true in Hf by done. lia.
    + by rewrite filter_cons_False.
  - intros t' q. destruct (decide (t = t')) as [->|]; [by rewrite lookup_delete_eq|rewrite lookup_delete_ne by done; apply Hl].
  - by rewrite lookup_insert_eq.
Qed.

(** The value of the last [set]. *)
Definition last_set (v : T) (acts : list (AtomicAct T)) : T :=
  fold_left (λ v a, match a with SetStore w => w | _ => v end) acts v.

(** Nothing is used after it was freed, and [get] returns what was set last. *)
Lemma quiet_sets_safe acts v s :
  atomic_ok s v → quiet_sets acts s →
  match atomic_run acts s with Panicked => False | Blocked => True | Next s' => atomic_ok s' (last_set v acts) end.
Proof.
  revert v s. induction acts as [|a acts IH]; intros v s Hok; [done|]. cbn [quiet_sets atomic_run run_steps]. intros [Hq Hrest].
  change (last_set v (a :: acts)) with (last_set (match a with SetStore w => w | _ => v end) acts).
  assert (match atomic_step a s with Panicked => False | Blocked => True
          | Next s' => atomic_ok s' (match a with SetStore w => w | _ => v end) end) as Hs.
  { destruct a as [t|t|w|p]; [|by apply atomic_clone_ok| |by apply atomic_drop_ok].
    - destruct Hok as [Hc Hf Hl Hv]. cbn. destruct (at_loading s !! t) eqn:Ht; [done|]. split; try done.
      intros t' q. cbn. destruct (decide (t = t')) as [->|]; [rewrite lookup_insert_eq; by intros [= ->]|rewrite lookup_insert_ne by done; apply Hl].
    - destruct (atomic_set_ok v w s Hok Hq) as (s' & -> & Hs'). done. }
  destruct (atomic_step a s) as [| |s1]; [done|done|]. by apply IH.
Qed.

(** A [set] between the two halves of a [get] frees what the [get] is about to clone. *)
Lemma get_races_set (v w : T) : atomic_run [GetLoad 0; SetStore w; GetClone 0] (atomic_new v) = Panicked.
Proof. reflexivity. Qed.

End atomic.

(** * Configuration *)

Record NodeNetInfo := mkNetInfo { addr : string; domain : string }.

Record NetConfig := mkNetConfig {
  nc_name : string;
  nc_addr : string;
  tls_cert_path : string;
  tls_key_path : string;
  tls_root_ca_cert_path : string;
  nc_nodes : gmap string NodeNetInfo;
  client_max_retry : Z }.

Record RpcConfig := mkRpcConfig {
  allowed_keylist_path : string;
  signing_priv_key_path : string;
  recv_buffer_size : Z;
  channel_depth : Z }.

Record AppConfig := mkAppConfig { logger_stats_report_ms : Z; checkpoint_interval_ms : Z }.

Record RocksDBConfig := mkRocksDBConfig {
  rocks_path : string;
  write_buffer_size : Z;
  max_write_buffer_number : Z;
  max_write_buffers_to_merge : Z }.
Record FileStorageConfig := mkFileStorageConfig { file_path : string; memtable_size : Z }.
Inductive StorageConfig := RocksDB (c : RocksDBConfig) | FileStorage (c : FileStorageConfig).

Definition rocksdb_default : RocksDBConfig := mkRocksDBConfig "/tmp/testdb" (512 * 1024 * 1024) 8 4.
Definition file_storage_default : FileStorageConfig := mkFileStorageConfig "/tmp/testdb" 1024.

(** The configuration as it is loaded; the tasks see the part [Config.Config]. *)
Record LoadedConfig := mkLoaded {
  net_config : NetConfig;
  rpc_config : RpcConfig;
  loaded_consensus : ConsensusConfig;
  log_storage_config : StorageConfig;
  app_config : AppConfig }.

Definition node_config (c : LoadedConfig) : Config := mkConfig (nc_name (net_config c)) (loaded_consensus c).

Record ClientConfig := mkClientConfig {
  cl_name : string;
  cl_root_ca_cert_path : string;
  cl_nodes : gmap string NodeNetInfo;
  cl_max_retry : Z;
  cl_signing_priv_key_path : string;
  full_duplex : bool }.

Definition fill_missing (c : ClientConfig) : LoadedConfig :=
  mkLoaded
    (mkNetConfig (cl_name c) "" "" "" (cl_root_ca_cert_path c) (cl_nodes c) (cl_max_retry c))
    (mkRpcConfig "" (cl_signing_priv_key_path c) 0 0)
    (mkConsensusConfig [] [] 1 10 100 150 128 128 1 256 512)
    (RocksDB rocksdb_default)
    (mkAppConfig 100 60000).

(** [set_checked]; [None] is the panic of the validation, which leaves the cell as it was. *)
Definition set_checked (feat : Features) (c : LoadedConfig) (s : AtomicStruct LoadedConfig) : option (Outcome (AtomicStruct LoadedConfig)) :=
  if platforms feat && negb (validate_or_die (loaded_consensus c)) then None else Some (atomic_step (SetStore c) s).

(** A configuration that goes through [set_checked] is validated and becomes the current one. *)
Lemma set_checked_validates feat c s r v :
  platforms feat = true → atomic_ok s v → at_loading s = ∅ → set_checked feat c s = Some r →
  validate_or_die (loaded_consensus c) = true ∧ ∃ s', r = Next s' ∧ atomic_ok s' c.
Proof.
  intros Hp Hok Hl. unfold set_checked. rewrite Hp. destruct (validate_or_die _); cbn [andb negb]; [|done].
  destruct (atomic_set_ok v c s Hok Hl) as (s' & -> & Hs'). intros [= <-]. split; [done|]. by exists s'.
Qed.

(** Without it nothing stops a configuration whose byzantine quorums do not meet: four
    nodes, [liveness_u] = 3. *)
Definition unchecked_nodes : ConsensusConfig :=
  mkConsensusConfig ["node1"; "node2"; "node3"; "node4"]%string [] 1000 10 100 150 128 4 3 500 1000.

Lemma unchecked_quorums_disjoint :
  validate_or_die unchecked_nodes = false ∧
  ∃ t, byzantine_commit_threshold pirateship_features unchecked_nodes = Some t ∧
       is_quorum unchecked_nodes t {["node1"%string]} ∧ is_quorum unchecked_nodes t {["node2"%string]}.
Proof.
  split; [reflexivity|]. exists 1. split; [reflexivity|]. split; (split; [set_solver|by rewrite size_singleton]).
Qed.

(** * The list of public keys *)

Definition newline : string := String (Ascii.ascii_of_nat 10) EmptyString.

Definition space : Ascii.ascii := Ascii.ascii_of_nat 32.

(** [s.split(' ')]: one part more than there are separators. *)
Fixpoint split_space (s : string) : list string :=
  match s with
  | EmptyString => [EmptyString]
  | String c s' =>
      if bool_decide (c = space) then EmptyString :: split_space s'
      else match split_space s' with
           | [] => [String c EmptyString]
           | x :: xs => String c x :: xs
           end
  end.

Section key_list.
Context {K : Type} (from_public_key_pem : string → option K).

Definition pem (key64 : string) : string :=
  ("-----BEGIN PUBLIC KEY-----" +:+ newline +:+ key64 +:+ newline +:+ "-----END PUBLIC KEY-----" +:+ newline)%string.

(** The lines of the file, [None] one that cannot be read (it ends the loop); the result
    [None] is a panic: a missing part, or a key that cannot be decoded. *)
Fixpoint read_keys (lines : list (option string)) (keys : gmap string K) : option (gmap string K) :=
  match lines with
  | [] | None :: _ => Some keys
  | Some s :: lines' =>
      match split_space s with
      | name :: key64 :: _ =>
          match from_public_key_pem (pem key64) with
          | Some key => read_keys lines' (<[name := key]> keys)
          | None => None
          end
      | _ => None
      end
  end.

Definition get_pubkeys (file : option (list (option string))) : option (gmap string K) :=
  lines ← file;
  read_keys lines ∅.

Fixpoint no_space (s : string) : bool :=
  match s with EmptyString => true | String c s' => negb (bool_decide (c = space)) && no_space s' end.

Lemma split_no_space s : no_space s = true → split_space s = [s].
Proof.
  induction s as [|c s IH]; [done|]. cbn. intros [Hc Hs]%andb_true_iff. rewrite (IH Hs). by destruct (bool_decide (c = space)).
Qed.

Lemma split_first name s : no_space name = true → split_space (name +:+ " " +:+ s)%string = name :: split_space s.
Proof.
  induction name as [|c name IH]; [done|]. cbn [no_space]. intros [Hc Hs]%andb_true_iff.
  change ((String c name +:+ " " +:+ s)%string) with (String c (name +:+ " " +:+ s)). cbn [split_space]. rewrite (IH Hs).
  by destruct (bool_decide (c = space)).
Qed.

(** An entry of the list and its line. *)
Definition key_line (e : string * string * K) : string := (e.1.1 +:+ " " +:+ e.1.2)%string.
Definition entry_ok (e : string * string * K) : Prop :=
  no_space e.1.1 = true ∧ no_space e.1.2 = true ∧ from_public_key_pem (pem e.1.2) = Some e.2.

(** A list of well-formed lines reads back as its entries, the last one of a name in force. *)
Lemma key_list_roundtrip es rest :
  Forall entry_ok es →
  get_pubkeys (Some (map (λ e, Some (key_line e)) es ++ rest)) = read_keys rest (list_to_map (reverse (map (λ e, (e.1.1, e.2)) es))).
Proof.
  intros Hes. unfold get_pubkeys. cbn.
  cut (∀ m, read_keys (map (λ e, Some (key_line e)) es ++ rest) m = read_keys rest (list_to_map (reverse (map (λ e, (e.1.1, e.2)) es)) ∪ m));
    [intros ->; by rewrite (right_id_L ∅ (∪))|].
  induction Hes as [|[[n k64] k] es (H1 & H2 & H3) _ IH]; intros m; cbn [map app read_keys].
  - cbn. by rewrite (left_id_L ∅ (∪)).
  - cbn in H1, H2, H3. unfold key_line. cbn [fst snd]. rewrite split_first, split_no_space, H3, IH by done. f_equal. rewrite reverse_cons, list_to_map_app.
    cbn. rewrite <- (assoc_L (∪)). f_equal. by rewrite insert_empty, <- insert_union_singleton_l.
Qed.

(** Everything after a line that cannot be read is ignored. *)
Lemma key_list_truncated l1 l2 m : read_keys (l1 ++ None :: l2) m = read_keys l1 m.
Proof.
  revert m. induction l1 as [|[s|] l1 IH]; intros m; [done| |done]. cbn. destruct (split_space s) as [|n [|k l]]; try done.
  by destruct (from_public_key_pem _).
Qed.

(** A blank line is a panic: there is no second part. *)
Lemma key_list_blank_line l m : read_keys (Some EmptyString :: l) m = None.
Proof. reflexivity. Qed.

End key_list.

(** * Statistics of the client *)

Record ClientStatLogger := mkStatLogger {
  average_window : Z;
  max_duration : Z;
  crash_commit_latency_window : list (Z * Z);       (* when it was registered, latency *)
  byz_commit_latency_window : list (Z * Z);
  byz_commit_pending_per_worker : gmap nat nat }.

Definition stat_logger_new (window duration : Z) : ClientStatLogger := mkStatLogger window duration [] [] ∅.

(** [while let Some((t, _)) = front() { if t.elapsed() > window { pop_front() } else { break } }] *)
Fixpoint purge (now window : Z) (l : list (Z * Z)) : list (Z * Z) :=
  match l with
  | [] => []
  | e :: l' => if now - e.1 >? window then purge now window l' else l
  end.

Definition collect_stat (now : Z) (stat : ClientWorkerStat) (s : ClientStatLogger) : ClientStatLogger :=
  match stat with
  | CrashCommitLatency latency =>
      mkStatLogger (average_window s) (max_duration s)
        (purge now (average_window s) (crash_commit_latency_window s) ++ [(now, latency)])
        (byz_commit_latency_window s) (byz_commit_pending_per_worker s)
  | ByzCommitLatency latency =>
      mkStatLogger (average_window s) (max_duration s) (crash_commit_latency_window s)
        (purge now (average_window s) (byz_commit_latency_window s) ++ [(now, latency)])
        (byz_commit_pending_per_worker s)
  | ByzCommitPending id pending =>
      mkStatLogger (average_window s) (max_duration s) (crash_commit_latency_window s) (byz_commit_latency_window s)
        (<[id := pending]> (byz_commit_pending_per_worker s))
  end.

(** What is reported: the sums and counts of both windows, and the total, greatest and least
    number of pending requests. *)
Record StatReport := mkReport {
  crash_sum : Z; crash_count : nat; byz_sum : Z; byz_count : nat; total_pending : nat; max_pending : nat; min_pending : nat }.

Definition latency_sum (l : list (Z * Z)) : Z := fold_left (λ acc e, acc + e.2) l 0.

Definition log_stats `{HashIter} (s : ClientStatLogger) : StatReport :=
  let pending := map snd (hm_iter (byz_commit_pending_per_worker s)) in
  mkReport (latency_sum (crash_commit_latency_window s)) (length (crash_commit_latency_window s))
    (latency_sum (byz_commit_latency_window s)) (length (byz_commit_latency_window s))
    (sum_list pending) (fold_left Nat.max pending 0%nat)
    (match pending with [] => 0%nat | x :: l => fold_left Nat.min l x end).

(** [run]: an iteration checks the time since the start and waits for an event, which comes
    at a later time; the loop ends when the time is up or the channel is closed, with a last
    report. *)
Inductive StatEvent := StTimer | StStat (stat : option ClientWorkerStat).

Fixpoint stat_logger_run `{HashIter} (evs : list (Z * Z * StatEvent)) (s : ClientStatLogger) : ClientStatLogger * list StatReport :=
  match evs with
  | [] => (s, [])
  | (checked, now, ev) :: evs' =>
      if checked >=? max_duration s then (s, [log_stats s])
      else match ev with
           | StTimer => let '(s', r) := stat_logger_run evs' s in (s', log_stats s :: r)
           | StStat None => (s, [log_stats s])
           | StStat (Some stat) => stat_logger_run evs' (collect_stat now stat s)
           end
  end.

(** Collecting crash latencies as they come. *)
Definition collect_all (evs : list (Z * Z)) (s : ClientStatLogger) : ClientStatLogger :=
  fold_left (λ s e, collect_stat e.1 (CrashCommitLatency e.2) s) evs s.

Definition recent (now window : Z) (l : list (Z * Z)) : list (Z * Z) := filter (λ e, now - e.1 ≤ window) l.

Lemma purge_recent now window l : StronglySorted (λ a b, a.1 ≤ b.1) l → purge now window l = recent now window l.
Proof.
  unfold recent. induction 1 as [|e l Hs IH Hall]; [done|]. cbn [purge]. destruct (Z.gtb_spec (now - e.1) window).
  - rewrite filter_cons_False by lia. done.
  - rewrite filter_cons_True by lia. f_equal. rewrite <- IH. destruct l as [|d l]; [done|]. cbn [purge].
    inversion_clear Hall as [|? ? Hd _]. destruct (Z.gtb_spec (now - d.1) window); [lia|done].
Qed.

Lemma collect_all_window evs s : average_window (collect_all evs s) = average_window s.
Proof. unfold collect_all. revert s. induction evs as [|e evs IH]; intros s; [done|]. cbn [fold_left]. by rewrite IH. Qed.

Lemma collect_all_snoc evs e s :
  collect_all (evs ++ [e]) s = collect_stat e.1 (CrashCommitLatency e.2) (collect_all evs s).
Proof. unfold collect_all. by rewrite fold_left_app. Qed.

Lemma times_snoc (l : list (Z * Z)) e :
  StronglySorted (λ a b, a.1 ≤ b.1) (l ++ [e]) → StronglySorted (λ a b, a.1 ≤ b.1) l ∧ ∀ x, x ∈ l → x.1 ≤ e.1.
Proof. intros (H1 & H2 & _)%StronglySorted_app. split; [done|]. intros x Hx. apply H1; [done|]. by left. Qed.

Lemma sorted_filter (P : Z * Z → Prop) `{∀ x, Decision (P x)} l :
  StronglySorted (λ a b : Z * Z, a.1 ≤ b.1) l → StronglySorted (λ a b : Z * Z, a.1 ≤ b.1) (filter P l).
Proof.
  induction 1 as [|e l _ IH Hall]; [constructor|]. destruct (decide (P e)); [|by rewrite filter_cons_False].
  rewrite filter_cons_True by done. constructor; [done|]. apply list.Forall_forall. intros x [_ Hx]%list_elem_of_filter.
  rewrite list.Forall_forall in Hall. by apply Hall.
Qed.

(** At every collection the window is what came in the last [average_window]. *)
Lemma window_is_recent evs e s :
  crash_commit_latency_window s = [] → StronglySorted (λ a b, a.1 ≤ b.1) (evs ++ [e]) → 0 ≤ average_window s →
  crash_commit_latency_window (collect_all (evs ++ [e]) s) = recent e.1 (average_window s) (evs ++ [e]).
Proof.
  intros H0 Hs Hw. revert e Hs. induction evs as [|d evs IH] using rev_ind; intros e Hs; apply times_snoc in Hs as [Hs Hle].
  - unfold collect_all, recent. cbn [app fold_left collect_stat crash_commit_latency_window]. rewrite H0, filter_cons_True by lia. by destruct e.
  - rewrite collect_all_snoc. cbn [collect_stat crash_commit_latency_window]. rewrite (IH d Hs), collect_all_window. unfold recent.
    rewrite purge_recent by (by apply sorted_filter). unfold recent.
    assert (d.1 ≤ e.1) by (apply Hle, elem_of_app; right; by left). rewrite list_filter_filter_l by (intros ?; lia).
    rewrite (list.filter_app _ (evs ++ [d]) [e]). f_equal. rewrite filter_cons_True by lia. by destruct e.
Qed.

(** A report between collections still counts what is older: nothing is purged by
    [log_stats]. *)
Lemma report_after_silence `{HashIter} e s t :
  crash_commit_latency_window s = [] → t < max_duration s →
  (stat_logger_run [(t, t, StTimer)] (collect_stat e.1 (CrashCommitLatency e.2) s)).2 =
    [mkReport e.2 1 (latency_sum (byz_commit_latency_window s)) (length (byz_commit_latency_window s))
       (total_pending (log_stats s)) (max_pending (log_stats s)) (min_pending (log_stats s))].
Proof.
  intros H0 Ht. cbn. destruct (Z.geb_spec t (max_duration s)); [lia|]. unfold log_stats. cbn. by rewrite H0.
Qed.

(** * Performance counters *)

Record PerfEntry := mkPerfEntry { total_time : Z; pe_count : nat }.

Record PerfCounter (K : Type) `{Countable K} := mkPerfCounter {
  entry_starts : gmap K Z;
  event_stats : list (string * PerfEntry) }.           (* IndexMap: in the order of insertion *)

Arguments mkPerfCounter {_ _ _}.
Arguments entry_starts {_ _ _}.
Arguments event_stats {_ _ _}.

Section perf.
Context {K : Type} `{Countable K} (perf : bool).       (* the feature *)
Context (div_f64 : Z → nat → Z).                       (* [Duration::div_f64] *)
Implicit Types s : PerfCounter K.

Definition add_time (time : Z) (e : PerfEntry) : PerfEntry := mkPerfEntry (total_time e + time) (S (pe_count e)).
Definition avg_time (e : PerfEntry) : Z := if (0 <? pe_count e)%nat then div_f64 (total_time e) (pe_count e) else 0.

Definition perf_new (event_order : list string) : PerfCounter K :=
  mkPerfCounter ∅ (map (λ name, (name, mkPerfEntry 0 0)) event_order).

Definition register_new_entry (now : Z) (entry : K) s : PerfCounter K :=
  if perf then mkPerfCounter (<[entry := now]> (entry_starts s)) (event_stats s) else s.
Definition deregister_entry (entry : K) s : PerfCounter K :=
  if perf then mkPerfCounter (delete entry (entry_starts s)) (event_stats s) else s.
Definition deregister_all s : PerfCounter K := if perf then mkPerfCounter ∅ (event_stats s) else s.

(** [event_stats.get_mut(event)] *)
Definition count_event (event : string) (elapsed : Z) (l : list (string * PerfEntry)) : list (string * PerfEntry) :=
  map (λ e, if bool_decide (e.1 = event) then (e.1, add_time elapsed e.2) else e) l.

Definition new_event (now : Z) (event : string) (entry : K) s : PerfCounter K :=
  if perf then
    match entry_starts s !! entry with
    | Some start => mkPerfCounter (entry_starts s) (count_event event (now - start) (event_stats s))
    | None => s
    end
  else s.

Definition new_event_for_all `{HashIter} (now : Z) (event : string) s : PerfCounter K :=
  if perf then
    mkPerfCounter (entry_starts s)
      (fold_left (λ l e, count_event event (now - e.2) l) (hm_iter (entry_starts s)) (event_stats s))
  else s.

Definition as_micros (d : Z) : Z := d / 1000.

(** What [log_aggregate] prints for each event: the time since the event before, a
    subtraction of 128-bit unsigned integers, and the time since the start. *)
Fixpoint aggregate (last : Z) (l : list (string * PerfEntry)) : list (string * Z * Z) :=
  match l with
  | [] => []
  | (event, e) :: l' =>
      (event, (as_micros (avg_time e) - as_micros last) mod 2 ^ 128, as_micros (avg_time e)) :: aggregate (avg_time e) l'
  end.

Definition log_aggregate s : list (string * Z * Z) := if perf then aggregate 0 (event_stats s) else [].

(** The events of a counter stay as they were named. *)
Lemma count_event_names event elapsed l : map fst (count_event event elapsed l) = map fst l.
Proof. unfold count_event. rewrite map_map. apply map_ext. intros [n e]. cbn. by case_bool_decide. Qed.

(** The printed steps add up to the printed totals as long as the averages grow. *)
Lemma aggregate_steps last l :
  0 ≤ last < 2 ^ 128 → StronglySorted Z.le (last :: map (λ e, avg_time e.2) l) → Forall (λ e, avg_time e.2 < 2 ^ 128) l →
  fold_left (λ acc x, acc + x.1.2) (aggregate last l) (as_micros last) = as_micros (default last (list.last (map (λ e, avg_time e.2) l))).
Proof.
  revert last. induction l as [|[n e] l IH]; intros last0 Hl Hs Hb; [done|]. inversion_clear Hs as [|? ? Hs' Hall].
  inversion_clear Hall as [|? ? Hle _]. inversion_clear Hb as [|? ? He Hb']. cbn in Hle, He, Hs'. cbn [aggregate fold_left fst snd].
  assert (as_micros last0 ≤ as_micros (avg_time e)) by (apply Z.div_le_mono; lia).
  assert (0 ≤ as_micros last0) by (apply Z.div_pos; lia). assert (as_micros (avg_time e) ≤ avg_time e) by (apply Z.div_le_upper_bound; lia).
  rewrite Z.mod_small, Zplus_minus by lia. rewrite IH; [|lia|done|done]. cbn [map]. f_equal.
  destruct (map (λ e0, avg_time e0.2) l) as [|x xs] eqn:Hm; [done|].
  change (list.last (avg_time (n, e).2 :: x :: xs)) with (list.last (x :: xs)).
  destruct (list.last (x :: xs)) eqn:Hx; [done|]. by apply last_None in Hx.
Qed.

End perf.

(** They need not grow: an event counted for fewer entries can have the smaller average, and
    then the printed step is just below 2 ^ 128. *)
Lemma aggregate_wraps :
  let s := new_event true 12000000 "committed" 2%nat (register_new_entry true 11000000 2%nat
    (new_event true 9000000 "stored" 1%nat (register_new_entry true 0 1%nat (perf_new ["stored"; "committed"]%string)))) in
  log_aggregate true (λ d n, d / Z.of_nat n) s = [("stored"%string, 9000, 9000); ("committed"%string, 2 ^ 128 - 8000, 1000)].
Proof. vm_compute. reflexivity. Qed.
